(* ===== verification/_CoqProject ===== *)
-Q . S2P
Prelude.v
Crypto.v
Merkle.v
TransparencyLog.v
AuditStore.v
AuditApp.v
Concurrent.v
Messaging.v
Text.v
Sse.v
Run.v
Json.v
AgUi.v
Ssrf.v
Ports.v
SessionMemory.v
Inspector.v
Quarantine.v
Stream.v
Policy.v
Engines.v
Enforcement.v
AuditBridge.v
Http.v
AuditHttp.v
Redis.v
Observability.v
Config.v
Loader.v
Startup.v
Standalone.v
Server.v
Lifecycle.v
