(* ===== verification/Prelude.v ===== *)
(** * Agate: a verification development

    Agate is an inspecting reverse proxy between a client and an AG-UI agent, written in
    Rust as five crates under crates/: agate-proxy (the proxied route and the inspection
    of both directions), agate-policy (the rules), agate-audit (an append-only
    transparency log with Merkle proofs and signed checkpoints), agate-crypto (hashes,
    signatures, AEADs) and agate-server (configuration, policy engines, the bridge from
    inspection to the log, the process).  This library models them as Rocq functions
    and transition systems and proves what each part promises, and what they promise
    together.

    ** How the program fits together

    A run arrives at the proxied route and passes the ingress guards (Http).  Its body is
    parsed (AgUi) and screened: tools against the policy and the session's memory of
    denials, texts against the policy, URLs against the address rules (Inspector, Ssrf,
    SessionMemory or Redis).  If it is let through, the agent is called once and its
    response stream is decoded (Sse), turned into fragments (AgUi), ordered and assembled
    by the run's state machine (Run), judged (Inspector, with the engine of Engines over
    the rules of Policy) and relayed frame by frame, with the frames of a tool call held
    back until it is judged (Stream).  Each judgement goes to the audit sink, through a
    bounded queue and the outbox into the transparency log (AuditBridge), where it
    becomes a leaf (AuditApp, AuditStore, TransparencyLog, Merkle) that the audit API
    proves to be there (AuditHttp); the transactions of concurrent requests meet in the
    database (Concurrent).  The process is configured (Loader, Config, Observability), put
    together (Server), started and stopped (Startup, Lifecycle).  The proxy and the audit
    service also run by themselves (Standalone).

    ** Files

    - Prelude: bytes, [result], the state monad [ST], effects [Eff], hints, list lemmas.
    - Text: the part of Rust's [str] that is used: UTF-8 scanning, lossy decoding, trim.
    - Json: serde_json's [Value] and accessors; parsing and printing are parameters.
    - Crypto (crates/agate-crypto): algorithm codes, hashers, signers, AEAD guards, use cases.
    - Merkle (agate-audit, domain/merkle/services): roots, proofs and their verifiers.
    - TransparencyLog (agate-audit, domain): the aggregate, timestamps, events, tree heads,
      checkpoint signing and verification.
    - AuditStore (agate-audit, infrastructure/persistence): the tables, the SQL of the
      gateways as functions on them, transactions, failing statements.
    - AuditApp (agate-audit, application): the handlers, the mediator and its behaviours,
      the pipelines over Postgres, the key store.
    - Concurrent (agate-audit, application and infrastructure/persistence): the commands as
      programs of statements, and any number of their transactions interleaved.
    - Messaging (agate-audit, application/common/messaging, setup/ioc): the type-erased
      registry and the routing of requests.
    - AuditHttp (agate-audit, presentation): the API, its answers, the key from the environment.
    - Sse, Run, AgUi, Ssrf, Inspector, Stream (agate-proxy): decoder, run state machine,
      protocol adapter, URL guard, inspection, response stream.  Ports states the
      interfaces between them as classes.
    - SessionMemory, Redis (agate-proxy): the two ledgers of denied tools.
    - Quarantine: Inspector over the ledger of SessionMemory with concurrent runs, the
      pruner and a running clock; [lag] bounds the wait for the lock.
    - Policy (agate-policy): matchers, patterns, paths, rules, redaction, evaluation.
    - Engines (agate-server, infrastructure/policy; agate-proxy, fail_mode_policy.rs): the
      ruleset, CEL and Rego adapters with their reloads, and the deadline decorator.
    - Enforcement: Stream, Inspector and Policy composed, against the interface
      [PolicyEnforces].
    - AuditBridge (agate-server, infrastructure/audit): record encoding, queue, outbox,
      checkpoint scheduler, request scopes.
    - Http (agate-proxy, presentation/http, infrastructure/agent): guards, the run handler,
      failures, the client of the agent.
    - Config (agate-server and agate-proxy, setup/configs): sections, defaults, checks, the
      settings made of them.
    - Loader (agate-server, setup/configs/loader.rs): defaults, file and environment layered
      and read into the sections.
    - Observability (agate-server, setup/observability, setup/configs/observability.rs): what
      is built and installed for traces, logs and metrics.
    - Startup (agate-server, agate-audit): the first connection, readiness, the policy watch.
    - Standalone (agate-audit and agate-proxy, main.rs, setup): the binaries of the two
      services, and the proxy with its own adapters.
    - Server (agate-server main.rs, setup/bootstrap; agate-proxy setup/ioc): the engine, the
      ledger and the policy port built from the configuration.
    - Lifecycle (agate-server main.rs, setup/bootstrap): start-up in its order, and the
      process up to its exit.

    ** How code becomes definitions

    Structs are records, enums inductive types, [HashMap]s [gmap]s (the order of a drain is
    a parameter), [Vec]s lists, [String]s and byte vectors lists of bytes.  [usize], [u64]
    and [u32] are [N], with the wrap-around or the panic written out where it can
    happen; [i64] columns are [Z] with their casts.  Fallible functions return [result]
    with the source's error types; panics that can be reached are outcomes of their own.
    Code with effects is state passing, over a world that the port classes abstract.
    Tasks that run concurrently are step relations or sequences of turns, so that the
    theorems hold for every interleaving.  Third-party code is a parameter: a record of
    operations, with the documented behaviour the code relies on as a class of laws,
    and an instance for the witnesses.  Those are: the RustCrypto crates and
    ed25519-dalek ([Backend]), jiff ([Jiff]), serde_json ([SerdeJson]), regex
    ([RegexCrate]), url, the CEL and Rego interpreters, toml, tokio's channels (a
    bounded queue with waiting senders in order), Redis ([RedisServer]), governor,
    reqwest, figment ([Figment]), and Postgres, whose statements may fail at any point
    ([fault]).  Between transactions Postgres is modelled as its documentation describes
    read committed: a statement sees what was committed before it and its own writes, an
    insert or update of a key that another transaction has written waits for it to end,
    and a commit that reports a failure may have taken effect or not.

    ** What the theorems show

    - Enforcement, end to end (Server, Enforcement, Stream, Inspector): what the configured
      ruleset denies does not reach the client, for any stream, chunking, timeout or
      failure; a refused request never reaches the agent; a denied tool stays denied in
      its session while the ledger keeps it (Quarantine); a stream the policy allows is relayed unchanged.
    - Decisions (Policy, Engines, Config): the evaluator decides as the rules read one by
      one, globs match as their reference, redaction leaves no secret, engines fail
      closed, reloads keep the last good policy, configured rules mean what they say.
    - Auditing (AuditBridge, Lifecycle): no inspected event is lost silently, under any
      interleaving and failure; a graceful shutdown has everything written; records
      identify their events.
    - The log (Merkle, TransparencyLog, AuditApp, Concurrent, AuditHttp): proofs verify, and a proof
      that verifies speaks the truth or exhibits a collision of the hash; appends are
      atomic and extend the log, also when many run at once, and never deadlock; what the
      API serves can be checked by its clients.
    - Protocol (Sse, AgUi, Run, Ssrf): the incremental decoder equals decoding the whole
      stream; tool calls are assembled as their fragments spell them; lifecycle order and
      budgets hold; every text of a request is collected; the URL guard blocks exactly
      the documented addresses and hosts.
    - Operation (Http, Loader, Config, Startup, Standalone, Server, Messaging, Redis,
      SessionMemory): the guards admit exactly what they should, layers of configuration
      take precedence as documented, validation accepts exactly the usable
      configurations, start-up fails before it touches the store, no edit of the policy
      goes unread, both ledgers refine a simple one, requests are routed as registered.

    Some theorems record where the code falls short of its comments; they are not among
    the properties: [Policy.denylist_glob_newline], [Startup.overlapping_reload_is_stale],
    [AuditBridge.abandoned_send_uncounted], [Run.tool_names_grow],
    [Stream.held_frames_grow], [SessionMemory.remember_revives],
    [Redis.waiting_callers_all_connect], [AuditHttp.response_forgets_algorithm],
    [Lifecycle.late_capacity_abort].

    ** Bounds and fuel

    Slices have at most [Merkle.max_len] elements, Rust's own bound.  The recursion of the
    tree functions is on strictly shorter slices, so the length is enough fuel; the
    doubling of [split_point] takes 65 tests, and [split_point_spec] shows that it returns
    for every size up to 2^63 and never beyond.  The verifiers recurse once per hash of
    the path.  The decoder's loop consumes a byte per round.  The retries of
    [connect_pool] are counted by the retries left.  None of the theorems assumes that
    a fuelled function returned: they show that it does.

    ** Not modelled

    - What logs, metrics and traces say: output only.  (Counters the code documents as
      evidence, such as dropped records, are modelled.)
    - The syntax of the configuration file and of environment variables (figment), TLS files
      (rustls), SQL text, migrations and the driver (sqlx), routing and extraction (axum).
    - Scopes and lifetimes of the dependency-injection container (froodi): the wiring it
      produces is composed directly, with a transaction per request scope.
    - Other writers to the log within the audit bridge and the life of the process, which
      write it one request at a time; Concurrent has them all.
    - Clients that go away: modelled where a run waits for a slot of the outbox, and in the
      life of the process; a stream dropped half-way is a prefix of the one modelled.
    - Timing, except for what the code computes with: deadlines and expiries are choices of
      the environment.
    - Test code. *)
From Stdlib Require Export Lia Ascii.
From stdpp Require Export base option strings gmap numbers countable list.
From stdpp Require Import options.

(** ** Byte strings *)

(** Rust's [Vec<u8>], [&[u8]] and the bytes behind [String]/[&str]. *)
Abbreviation bytes := (list ascii).

(** A string literal as the byte string the source writes. *)
Fixpoint lit (s : string) : bytes :=
  match s with
  | EmptyString => []
  | String c s' => c :: lit s'
  end.

(** [len()] of a Rust slice or string, as an unbounded count. *)
Definition len {A} (l : list A) : N := N.of_nat (length l).

Abbreviation byte_of_N := ascii_of_N.
Abbreviation N_of_byte := N_of_ascii.

(** The largest number of elements a Rust slice or [Vec] can hold. *)
Definition max_len : N := (2 ^ 63 - 1)%N.

(** A list that fits a Rust slice. *)
Definition is_slice {A} (l : list A) : Prop := (len l ≤ max_len)%N.

(** ** Machine integers *)

Definition u64_modulus : N := (2 ^ 64)%N.

(** [x << 1] on [u64]/[usize]: the bit shifted out is lost. *)
Definition shl1_u64 (x : N) : N := (N.shiftl x 1 `mod` u64_modulus)%N.

(** [to_be_bytes] of a [w]-byte unsigned integer. *)
Fixpoint be_bytes (w : nat) (n : N) : bytes :=
  match w with
  | O => []
  | S w' => be_bytes w' (n / 256)%N ++ [byte_of_N (n `mod` 256)%N]
  end.

(** [to_be_bytes] of an [i64]: two's complement. *)
Definition be_bytes_i64 (z : Z) : bytes := be_bytes 8 (Z.to_N (z `mod` 2 ^ 64)%Z).

(** ** Results *)

(** Rust's [Result<A, E>]. *)
Inductive result (E A : Type) : Type :=
| Ok (a : A)
| Err (e : E).
Arguments Ok {E A} a.
Arguments Err {E A} e.

#[export] Instance result_eq_decision {E A} `{!EqDecision E, !EqDecision A} :
  EqDecision (result E A).
Proof. solve_decision. Defined.

#[export] Instance result_ret {E} : MRet (result E) := λ A, Ok.
#[export] Instance result_bind {E} : MBind (result E) := λ A B f m,
  match m with Ok a => f a | Err e => Err e end.
#[export] Instance result_fmap {E} : FMap (result E) := λ A B f m,
  match m with Ok a => Ok (f a) | Err e => Err e end.

Definition map_err {E E' A} (f : E → E') (m : result E A) : result E' A :=
  match m with Ok a => Ok a | Err e => Err (f e) end.

Definition ok_or {E A} (e : E) (o : option A) : result E A :=
  match o with Some a => Ok a | None => Err e end.

Definition is_ok {E A} (m : result E A) : bool :=
  match m with Ok _ => true | Err _ => false end.

(** ** Stateful fallible code *)

(** A call that reads and changes a state [S] and may return an error; the state
    reached is kept on both outcomes, as with [&mut self] and [Result]. *)
Definition ST (E S A : Type) : Type := S → result E A * S.

#[export] Instance st_ret {E S} : MRet (ST E S) := λ A a s, (Ok a, s).
#[export] Instance st_bind {E S} : MBind (ST E S) := λ A B f m s,
  match m s with
  | (Ok a, s') => f a s'
  | (Err e, s') => (Err e, s')
  end.

Definition st_err {E S A} (e : E) : ST E S A := λ s, (Err e, s).

Definition st_lift {E S A} (r : result E A) : ST E S A := λ s, (r, s).

(** A loop over a list that stops at the first error. *)
Fixpoint st_iter {E S A} (f : A → ST E S unit) (l : list A) : ST E S unit :=
  match l with
  | [] => mret tt
  | x :: l' => _ ← f x; st_iter f l'
  end.

(** Rust's [iter().enumerate()]. *)
Fixpoint enumerate_from {A} (k : nat) (l : list A) : list (nat * A) :=
  match l with
  | [] => []
  | x :: l' => (k, x) :: enumerate_from (S k) l'
  end.

Definition enumerate {A} (l : list A) : list (nat * A) := enumerate_from 0 l.

(** ** Automation *)

Create HintDb agate.
Create Rewrite HintDb agate.

(** Split every match of the context or goal and clean up. *)
Ltac cases :=
  repeat (first [progress simplify_eq/= | case_match]).

(** Decide every integer comparison of the goal, then finish by arithmetic. *)
Ltac decide_cmp :=
  repeat match goal with
    | |- context [(?a <=? ?b)%Z] => destruct (Z.leb_spec a b)
    | |- context [(?a <? ?b)%Z] => destruct (Z.ltb_spec a b)
    | |- context [(?a =? ?b)%Z] => destruct (Z.eqb_spec a b)
    | |- context [(?a <=? ?b)%N] => destruct (N.leb_spec a b)
    | |- context [(?a <? ?b)%N] => destruct (N.ltb_spec a b)
    | |- context [(?a =? ?b)%N] => destruct (N.eqb_spec a b)
    | |- context [(?a <=? ?b)%nat] => destruct (Nat.leb_spec a b)
    | |- context [(?a <? ?b)%nat] => destruct (Nat.ltb_spec a b)
    | |- context [(?a =? ?b)%nat] => destruct (Nat.eqb_spec a b)
    end; simpl; try done; try lia.

(** ** Shared lemmas *)

Lemma len_app {A} (l k : list A) : len (l ++ k) = (len l + len k)%N.
Proof. unfold len. rewrite length_app. lia. Qed.

Lemma len_nil {A} : len (@nil A) = 0%N.
Proof. reflexivity. Qed.

Lemma len_cons {A} (x : A) l : len (x :: l) = (1 + len l)%N.
Proof. unfold len. simpl. lia. Qed.

#[export] Hint Rewrite @len_app @len_nil @len_cons : agate.

Lemma st_bindE {E S A B} (m : ST E S A) (f : A → ST E S B) (s : S) :
  (m ≫= f) s = match m s with (Ok a, s') => f a s' | (Err e, s') => (Err e, s') end.
Proof. done. Qed.

Lemma is_slice_take {A} k (l : list A) : is_slice l → is_slice (take k l).
Proof. unfold is_slice, len. rewrite length_take. lia. Qed.

Lemma is_slice_drop {A} k (l : list A) : is_slice l → is_slice (drop k l).
Proof. unfold is_slice, len. rewrite length_drop. lia. Qed.

#[export] Hint Resolve is_slice_take is_slice_drop : agate.

Lemma lit_inj : Inj (=) (=) lit.
Proof.
  intros s. induction s as [|c s IH]; intros [|c' s'] H; simplify_eq/=; auto.
  by rewrite (IH s').
Qed.

Lemma be_bytes_length w n : length (be_bytes w n) = w.
Proof. revert n; induction w as [|w IH]; intros n; simpl; rewrite ?length_app, ?IH; simpl; lia. Qed.

Lemma byte_of_N_inj a b :
  (a < 256)%N → (b < 256)%N → byte_of_N a = byte_of_N b → a = b.
Proof.
  intros Ha Hb Heq. apply (f_equal N_of_byte) in Heq.
  by rewrite !N_ascii_embedding in Heq by done.
Qed.

Lemma be_bytes_inj w a b :
  (a < 256 ^ N.of_nat w)%N → (b < 256 ^ N.of_nat w)%N →
  be_bytes w a = be_bytes w b → a = b.
Proof.
  revert a b. induction w as [|w IH]; intros a b Ha Hb H.
  - change (256 ^ N.of_nat 0)%N with 1%N in *. lia.
  - simpl in H. apply app_inj_tail in H as [Hhi Hlo].
    rewrite Nat2N.inj_succ, N.pow_succ_r' in Ha, Hb.
    apply byte_of_N_inj in Hlo; [|apply N.mod_lt; lia..].
    apply IH in Hhi; [|apply N.Div0.div_lt_upper_bound; lia..].
    rewrite (N.div_mod a 256), (N.div_mod b 256) by lia. congruence.
Qed.

(** Two concatenations with left parts of equal length agree part by part. *)
Lemma app_eq_length_inv {A} (a b c d : list A) :
  length a = length c → a ++ b = c ++ d → a = c ∧ b = d.
Proof. intros Hl H. by apply app_inj_1 in H. Qed.

(** The same with right parts of equal length. *)
Lemma app_eq_length_inv_r {A} (a b c d : list A) :
  length b = length d → a ++ b = c ++ d → a = c ∧ b = d.
Proof. intros Hl H. by apply app_inj_2 in H. Qed.

Lemma find_app {A} (f : A → bool) l k :
  List.find f (l ++ k) = match List.find f l with Some x => Some x | None => List.find f k end.
Proof. induction l as [|x l IH]; simpl; [done|]. by destruct (f x). Qed.
