(* ===== verification/Crypto.v ===== *)
(** * Crypto: the crypto-agility crate (crates/agate-crypto)

    Self-describing hash, signature and AEAD algorithms, the strategy traits as
    records of operations, the RustCrypto-backed factories with their guards,
    and the five use cases.  The primitives themselves (RustCrypto digests and
    AEADs, ed25519-dalek) are third-party: they are the record [Backend], whose
    documented behaviour is the class [BackendLaws]. *)
From stdpp Require Import pretty options.
From S2P Require Import Prelude.

(** ** Algorithm identifiers *)

Inductive HashAlgo := Sha256 | Sha512 | Sha3_256 | Streebog256 | Streebog512.

Inductive SignAlgo := Ed25519 | GostR3410_2012_256 | GostR3410_2012_512.

Inductive AeadAlgo := Aes256Gcm | ChaCha20Poly1305 | KuznyechikMgm | MagmaMgm.

#[export] Instance HashAlgo_eq_dec : EqDecision HashAlgo.
Proof. solve_decision. Defined.
#[export] Instance SignAlgo_eq_dec : EqDecision SignAlgo.
Proof. solve_decision. Defined.
#[export] Instance AeadAlgo_eq_dec : EqDecision AeadAlgo.
Proof. solve_decision. Defined.

Definition HashAlgo_code (a : HashAlgo) : N :=
  match a with
  | Sha256 => 1 | Sha512 => 2 | Sha3_256 => 3 | Streebog256 => 4 | Streebog512 => 5
  end.

Definition HashAlgo_from_code (code : N) : option HashAlgo :=
  match code with
  | 1%N => Some Sha256
  | 2%N => Some Sha512
  | 3%N => Some Sha3_256
  | 4%N => Some Streebog256
  | 5%N => Some Streebog512
  | _ => None
  end.

Definition SignAlgo_code (a : SignAlgo) : N :=
  match a with Ed25519 => 1 | GostR3410_2012_256 => 2 | GostR3410_2012_512 => 3 end.

Definition SignAlgo_from_code (code : N) : option SignAlgo :=
  match code with
  | 1%N => Some Ed25519
  | 2%N => Some GostR3410_2012_256
  | 3%N => Some GostR3410_2012_512
  | _ => None
  end.

Definition AeadAlgo_code (a : AeadAlgo) : N :=
  match a with Aes256Gcm => 1 | ChaCha20Poly1305 => 2 | KuznyechikMgm => 3 | MagmaMgm => 4 end.

Definition AeadAlgo_from_code (code : N) : option AeadAlgo :=
  match code with
  | 1%N => Some Aes256Gcm
  | 2%N => Some ChaCha20Poly1305
  | 3%N => Some KuznyechikMgm
  | 4%N => Some MagmaMgm
  | _ => None
  end.

(** The [Debug] rendering used in error messages. *)
Definition AeadAlgo_debug (a : AeadAlgo) : bytes :=
  match a with
  | Aes256Gcm => lit "Aes256Gcm"
  | ChaCha20Poly1305 => lit "ChaCha20Poly1305"
  | KuznyechikMgm => lit "KuznyechikMgm"
  | MagmaMgm => lit "MagmaMgm"
  end.

Definition key_len (a : AeadAlgo) : N := 32.

Definition nonce_len (a : AeadAlgo) : N :=
  match a with
  | Aes256Gcm | ChaCha20Poly1305 => 12
  | KuznyechikMgm => 16
  | MagmaMgm => 8
  end.

Definition tag_len (a : AeadAlgo) : N :=
  match a with
  | Aes256Gcm | ChaCha20Poly1305 | KuznyechikMgm => 16
  | MagmaMgm => 8
  end.

(** ** Values *)

Record Digest := mkDigest { digest_algo : HashAlgo; digest_bytes : bytes }.

Definition KeyId := bytes.

Record Signature := mkSignature {
  sig_algo : SignAlgo;
  sig_key_id : KeyId;
  sig_bytes : bytes;
}.

Record SecretKey := mkSecretKey { expose : bytes }.

Record Nonce := mkNonce { nonce_bytes : bytes }.

Record AssociatedData := mkAssociatedData { aad_bytes : bytes }.

Record Ciphertext := mkCiphertext { ct_algo : AeadAlgo; ct_bytes : bytes }.

#[export] Instance Digest_eq_dec : EqDecision Digest.
Proof. solve_decision. Defined.
#[export] Instance Signature_eq_dec : EqDecision Signature.
Proof. solve_decision. Defined.

(** [Digest::to_hex]: two lowercase hex digits per byte. *)
Definition hex_digit (n : N) : ascii :=
  if (n <? 10)%N then byte_of_N (48 + n) else byte_of_N (87 + n).

Definition to_hex (d : Digest) : bytes :=
  concat (map (λ b, [hex_digit (N_of_byte b / 16)%N; hex_digit (N_of_byte b `mod` 16)%N])
              (digest_bytes d)).

Inductive CryptoError :=
| UnsupportedHash (a : HashAlgo)
| UnsupportedSignature (a : SignAlgo)
| UnsupportedAead (a : AeadAlgo)
| InvalidKey (msg : bytes)
| InvalidNonce (msg : bytes)
| Encryption
| Decryption.

(** ** Strategy traits *)

Record Hasher := mkHasher { hasher_algo : HashAlgo; hasher_hash : bytes → Digest }.

Record Signer := mkSigner {
  signer_algo : SignAlgo;
  signer_key_id : KeyId;
  signer_sign : bytes → Signature;
}.

Record Verifier := mkVerifier {
  verifier_algo : SignAlgo;
  verifier_verify : bytes → Signature → bool;
}.

Record Aead := mkAead {
  aead_algo : AeadAlgo;
  aead_encrypt : Nonce → AssociatedData → bytes → result CryptoError Ciphertext;
  aead_decrypt : Nonce → AssociatedData → Ciphertext → result CryptoError bytes;
}.

(** What the Merkle layer relies on: digests carry the hasher's algorithm and
    have one fixed length. *)
Class HasherOk (h : Hasher) (L : nat) : Prop := {
  hasher_tags : ∀ d, digest_algo (hasher_hash h d) = hasher_algo h;
  hasher_length : ∀ d, length (digest_bytes (hasher_hash h d)) = L;
}.

(** ** Third-party primitives *)

(** The cargo features that compile an algorithm in. *)
Record Features := mkFeatures {
  feat_sha2 : bool; feat_sha3 : bool; feat_streebog : bool; feat_ed25519 : bool;
  feat_aes_gcm : bool; feat_chacha20poly1305 : bool; feat_gost_cipher : bool;
}.

Record Backend := mkBackend {
  (** RustCrypto [Digest]: fresh state, one [update], [finalize]. *)
  rc_digest : HashAlgo → bytes → bytes;
  (** ed25519-dalek: public key of a seed, signing, key decoding, verification. *)
  dalek_public : bytes → bytes;
  dalek_sign : bytes → bytes → bytes;
  dalek_decode_key : bytes → result bytes bytes;
  dalek_verify : bytes → bytes → bytes → bool;
  (** RustCrypto [NewAead::new_from_slice] length check, [Aead::encrypt], [Aead::decrypt]
      (arguments: key, nonce, associated data, message). *)
  rc_new_from_slice : AeadAlgo → bytes → bool;
  rc_encrypt : AeadAlgo → bytes → bytes → bytes → bytes → option bytes;
  rc_decrypt : AeadAlgo → bytes → bytes → bytes → bytes → option bytes;
}.

(** The documented output size of each digest. *)
Definition digest_size (a : HashAlgo) : nat :=
  match a with Sha256 | Sha3_256 | Streebog256 => 32 | Sha512 | Streebog512 => 64 end.

(** Documented behaviour of the primitives. *)
Class BackendLaws (B : Backend) : Prop := {
  rc_digest_size : ∀ a d, length (rc_digest B a d) = digest_size a;
  dalek_public_size : ∀ s, length (dalek_public B s) = 32;
  dalek_signature_size : ∀ s d, length (dalek_sign B s d) = 64;
  dalek_public_decodes : ∀ s, length s = 32 →
    ∃ k, dalek_decode_key B (dalek_public B s) = Ok k ∧
         ∀ d, dalek_verify B k d (dalek_sign B s d) = true;
  rc_key_length : ∀ a k, rc_new_from_slice B a k = true ↔ len k = key_len a;
  rc_open_sealed : ∀ a k n aad m c,
    rc_encrypt B a k n aad m = Some c → rc_decrypt B a k n aad c = Some m;
}.

(** ** Factories and adapters *)

Section Factories.
Context (F : Features) (B : Backend).

(** [DigestHasher] over the digest the algorithm names. *)
Definition DigestHasher (algo : HashAlgo) : Hasher :=
  mkHasher algo (λ data, mkDigest algo (rc_digest B algo data)).

(** [resolve]: the cargo features decide which arms exist. *)
Definition hash_enabled (algo : HashAlgo) : bool :=
  match algo with
  | Sha256 | Sha512 => feat_sha2 F
  | Sha3_256 => feat_sha3 F
  | Streebog256 | Streebog512 => feat_streebog F
  end.

Definition resolve (algo : HashAlgo) : result CryptoError Hasher :=
  if hash_enabled algo then Ok (DigestHasher algo) else Err (UnsupportedHash algo).

Definition Ed25519Signer (seed : bytes) (key_id : KeyId) : Signer :=
  mkSigner Ed25519 key_id
    (λ data, mkSignature Ed25519 key_id (dalek_sign B seed data)).

(** [Ed25519Verifier::verify]: algorithm tag, then the 64-byte length, then dalek. *)
Definition Ed25519_verify (key : bytes) (data : bytes) (sig : Signature) : bool :=
  if bool_decide (sig_algo sig ≠ Ed25519) then false
  else if bool_decide (length (sig_bytes sig) ≠ 64) then false
  else dalek_verify B key data (sig_bytes sig).

Definition Ed25519Verifier (key : bytes) : Verifier :=
  mkVerifier Ed25519 (Ed25519_verify key).

Definition Ed25519_from_public_bytes (b : bytes) : result CryptoError Verifier :=
  match dalek_decode_key B b with
  | Ok key => Ok (Ed25519Verifier key)
  | Err msg => Err (InvalidKey msg)
  end.

Definition signature_factory_signer (algo : SignAlgo) (secret : SecretKey) (key_id : KeyId)
    : result CryptoError Signer :=
  match algo, feat_ed25519 F with
  | Ed25519, true =>
      if bool_decide (length (expose secret) = 32)
      then Ok (Ed25519Signer (expose secret) key_id)
      else Err (InvalidKey (lit "Ed25519 seed must be 32 bytes"))
  | _, _ => Err (UnsupportedSignature algo)
  end.

Definition signature_factory_verifier (algo : SignAlgo) (public_key : bytes)
    : result CryptoError Verifier :=
  match algo, feat_ed25519 F with
  | Ed25519, true =>
      if bool_decide (length public_key = 32)
      then Ed25519_from_public_bytes public_key
      else Err (InvalidKey (lit "Ed25519 public key must be 32 bytes"))
  | _, _ => Err (UnsupportedSignature algo)
  end.

(** [checked_nonce]: exact length, and for MGM a cleared most significant bit. *)
Definition is_mgm (algo : AeadAlgo) : bool :=
  match algo with KuznyechikMgm | MagmaMgm => true | _ => false end.

Definition msb_set (b : bytes) : bool :=
  match head b with
  | Some c => negb (N.land (N_of_byte c) 128 =? 0)%N
  | None => false
  end.

Definition checked_nonce (nonce : Nonce) (algo : AeadAlgo) : result CryptoError bytes :=
  if negb (len (nonce_bytes nonce) =? nonce_len algo)%N then
    Err (InvalidNonce (AeadAlgo_debug algo ++ lit " expects a " ++
                       lit (pretty (nonce_len algo)) ++ lit "-byte nonce, got " ++
                       lit (pretty (len (nonce_bytes nonce)))))
  else if is_mgm algo && msb_set (nonce_bytes nonce) then
    Err (InvalidNonce (lit "MGM nonce must have its most significant bit cleared"))
  else Ok (nonce_bytes nonce).

(** [RustCryptoAead<C>]: one adapter for all four ciphers. *)
Definition RustCryptoAead (algo : AeadAlgo) (key : bytes) : Aead :=
  mkAead algo
    (λ nonce aad plaintext,
       n ← checked_nonce nonce algo;
       match rc_encrypt B algo key n (aad_bytes aad) plaintext with
       | Some b => Ok (mkCiphertext algo b)
       | None => Err Encryption
       end)
    (λ nonce aad ciphertext,
       n ← checked_nonce nonce algo;
       match rc_decrypt B algo key n (aad_bytes aad) (ct_bytes ciphertext) with
       | Some b => Ok b
       | None => Err Decryption
       end).

Definition aead_label (algo : AeadAlgo) : bytes :=
  match algo with
  | Aes256Gcm => lit "AES-256-GCM"
  | ChaCha20Poly1305 => lit "ChaCha20-Poly1305"
  | KuznyechikMgm => lit "Kuznyechik-MGM"
  | MagmaMgm => lit "Magma-MGM"
  end.

(** The four [build] functions, which differ in the cipher type only. *)
Definition build (algo : AeadAlgo) (key : bytes) : result CryptoError Aead :=
  if rc_new_from_slice B algo key
  then Ok (RustCryptoAead algo key)
  else Err (InvalidKey (aead_label algo ++ lit " key must be " ++
                        lit (pretty (key_len algo)) ++ lit " bytes")).

Definition aead_enabled (algo : AeadAlgo) : bool :=
  match algo with
  | Aes256Gcm => feat_aes_gcm F
  | ChaCha20Poly1305 => feat_chacha20poly1305 F
  | KuznyechikMgm | MagmaMgm => feat_gost_cipher F
  end.

Definition aead_factory (algo : AeadAlgo) (key : SecretKey) : result CryptoError Aead :=
  if aead_enabled algo then build algo (expose key) else Err (UnsupportedAead algo).

(** ** Use cases *)

Definition HashDataHandler (algo : HashAlgo) (data : bytes) : result CryptoError Digest :=
  hasher ← resolve algo;
  Ok (hasher_hash hasher data).

Definition SignDataHandler (algo : SignAlgo) (key : SecretKey) (key_id : KeyId) (data : bytes)
    : result CryptoError Signature :=
  signer ← signature_factory_signer algo key key_id;
  Ok (signer_sign signer data).

Definition VerifySignatureHandler (public_key data : bytes) (signature : Signature)
    : result CryptoError bool :=
  verifier ← signature_factory_verifier (sig_algo signature) public_key;
  Ok (verifier_verify verifier data signature).

Definition EncryptHandler (algo : AeadAlgo) (key : SecretKey) (nonce : Nonce)
    (aad : AssociatedData) (plaintext : bytes) : result CryptoError Ciphertext :=
  aead ← aead_factory algo key;
  aead_encrypt aead nonce aad plaintext.

Definition DecryptHandler (key : SecretKey) (nonce : Nonce) (aad : AssociatedData)
    (ciphertext : Ciphertext) : result CryptoError bytes :=
  aead ← aead_factory (ct_algo ciphertext) key;
  aead_decrypt aead nonce aad ciphertext.

(** ** Lemmas *)

#[export] Instance DigestHasher_ok `{!BackendLaws B} algo :
  HasherOk (DigestHasher algo) (digest_size algo).
Proof. split; [done|]. intros d. apply rc_digest_size. Qed.

(** A verifier accepts only signatures tagged Ed25519 and 64 bytes long. *)
Lemma Ed25519_verify_guards key data sig :
  Ed25519_verify key data sig = true →
  sig_algo sig = Ed25519 ∧ length (sig_bytes sig) = 64.
Proof.
  unfold Ed25519_verify. repeat case_bool_decide; done.
Qed.

(** A signature made with a seed passes the guards and dalek's check. *)
Lemma Ed25519_verify_signed `{!BackendLaws B} key seed key_id data :
  (∀ d, dalek_verify B key d (dalek_sign B seed d) = true) →
  Ed25519_verify key data (signer_sign (Ed25519Signer seed key_id) data) = true.
Proof.
  intros Hv. unfold Ed25519_verify. simpl.
  rewrite bool_decide_eq_false_2 by (intros []; apply dalek_signature_size).
  by rewrite Hv.
Qed.

Lemma checked_nonce_ok nonce algo n :
  checked_nonce nonce algo = Ok n →
  n = nonce_bytes nonce ∧ len n = nonce_len algo ∧ (is_mgm algo = true → msb_set n = false).
Proof.
  unfold checked_nonce.
  destruct (len (nonce_bytes nonce) =? nonce_len algo)%N eqn:Hl; simpl; [|done].
  destruct (is_mgm algo && msb_set (nonce_bytes nonce)) eqn:Hm; [done|].
  intros [= <-]. apply N.eqb_eq in Hl. split_and!; [done..|].
  intros Hmgm. by rewrite Hmgm in Hm.
Qed.

End Factories.

(** ** A concrete backend

    Not a cryptographic one: it truncates or pads its input, which is enough to
    show that the laws can hold and to run the model. *)
Module ToyBackend.

Definition zeros (n : nat) : bytes := replicate n (byte_of_N 0).

Definition fit (n : nat) (b : bytes) : bytes := take n (b ++ zeros n).

Definition sign (seed data : bytes) : bytes := fit 64 (fit 32 seed ++ data).

Definition backend : Backend := mkBackend
  (λ a d, fit (digest_size a) d)
  (fit 32) sign (λ b, Ok b) (λ k d s, bool_decide (s = sign k d))
  (λ a k, len k =? key_len a)%N
  (λ a k n aad m, Some (aad ++ m))
  (λ a k n aad c, if bool_decide (take (length aad) c = aad)
                  then Some (drop (length aad) c) else None).

Definition all_features : Features := mkFeatures true true true true true true true.

Lemma fit_length n b : length (fit n b) = n.
Proof. unfold fit, zeros. rewrite length_take, length_app, length_replicate. lia. Qed.

Lemma fit_exact n b : length b = n → fit n b = b.
Proof. intros <-. unfold fit. by rewrite take_app_length. Qed.

#[global] Instance backend_laws : BackendLaws backend.
Proof.
  split; simpl.
  - intros. apply fit_length.
  - intros. apply fit_length.
  - intros. apply fit_length.
  - intros s Hs. exists (fit 32 s). split; [done|]. intros d.
    apply bool_decide_eq_true. unfold sign. by rewrite !(fit_exact 32 s Hs).
  - intros. apply N.eqb_eq.
  - intros a k n aad m c [= <-]. by rewrite take_app_length, bool_decide_eq_true_2,
      drop_app_length.
Qed.

End ToyBackend.

(** ** Properties *)

(** A signature made through [SignDataHandler] is accepted by
    [VerifySignatureHandler] under the public key of the same seed. *)
Theorem sign_then_verify F B `{!BackendLaws B} algo key key_id data sig :
  SignDataHandler F B algo key key_id data = Ok sig →
  VerifySignatureHandler F B (dalek_public B (expose key)) data sig = Ok true.
Proof.
  unfold SignDataHandler, VerifySignatureHandler, signature_factory_signer,
    signature_factory_verifier.
  destruct algo; [|done..]. destruct (feat_ed25519 F); [|done].
  case_bool_decide as Hlen; [|done]. intros [= <-]. simpl.
  rewrite bool_decide_eq_true_2 by apply dalek_public_size.
  destruct (dalek_public_decodes _ Hlen) as (k & Hk & Hv).
  unfold Ed25519_from_public_bytes. rewrite Hk. simpl. f_equal.
  by apply (Ed25519_verify_signed B k (expose key) key_id).
Qed.

Lemma sign_then_verify_witness :
  VerifySignatureHandler ToyBackend.all_features ToyBackend.backend
    (ToyBackend.fit 32 (ToyBackend.zeros 32)) (lit "data")
    (mkSignature Ed25519 (lit "k") (ToyBackend.sign (ToyBackend.zeros 32) (lit "data")))
  = Ok true.
Proof.
  apply (sign_then_verify ToyBackend.all_features ToyBackend.backend Ed25519
           (mkSecretKey (ToyBackend.zeros 32)) (lit "k")).
  vm_compute. reflexivity.
Defined.

(** What [EncryptHandler] seals, [DecryptHandler] opens with the same key, nonce
    and associated data; the sealed message is tagged with its algorithm, and
    sealing succeeded only with a nonce of the algorithm's length (for MGM with
    the top bit cleared) and a key of the algorithm's length. *)
Theorem encrypt_then_decrypt F B `{!BackendLaws B} algo key nonce aad plaintext ct :
  EncryptHandler F B algo key nonce aad plaintext = Ok ct →
  DecryptHandler F B key nonce aad ct = Ok plaintext ∧
  ct_algo ct = algo ∧
  len (expose key) = key_len algo ∧
  len (nonce_bytes nonce) = nonce_len algo ∧
  (is_mgm algo = true → msb_set (nonce_bytes nonce) = false).
Proof.
  unfold EncryptHandler, DecryptHandler, aead_factory, build.
  destruct (aead_enabled F algo) eqn:HF; [|done].
  destruct (rc_new_from_slice B algo (expose key)) eqn:Hnew; [|done]. simpl.
  destruct (checked_nonce nonce algo) as [n|] eqn:Hn; [|done]. simpl.
  destruct (rc_encrypt _ _ _ _ _ _) as [c|] eqn:Hc; [|done]. intros [= <-]. simpl.
  rewrite HF, Hnew. simpl. rewrite Hn. simpl. rewrite (rc_open_sealed _ _ _ _ _ _ Hc).
  apply checked_nonce_ok in Hn as (-> & ? & ?). apply rc_key_length in Hnew. done.
Qed.

Lemma encrypt_then_decrypt_witness :
  DecryptHandler ToyBackend.all_features ToyBackend.backend
    (mkSecretKey (ToyBackend.zeros 32)) (mkNonce (ToyBackend.zeros 16))
    (mkAssociatedData (lit "aad")) (mkCiphertext KuznyechikMgm (lit "aadmsg")) = Ok (lit "msg").
Proof.
  apply (encrypt_then_decrypt ToyBackend.all_features ToyBackend.backend KuznyechikMgm
           (mkSecretKey (ToyBackend.zeros 32)) (mkNonce (ToyBackend.zeros 16))
           (mkAssociatedData (lit "aad")) (lit "msg")).
  vm_compute. reflexivity.
Defined.
