(* ===== verification/Merkle.v ===== *)
(** * Merkle: RFC 6962 trees and proofs
    (crates/agate-audit/src/domain/merkle/services)

    [MerkleHasher] with its domain separation, the tree hash, inclusion and
    consistency proofs with their verifiers.  [usize] values are [N]; the
    doubling loop of [split_point] is kept with its 64-bit shift, and [None] is
    the outcome of a call that never returns.  Slices are lists of at most
    [max_len] elements, the bound Rust puts on a slice. *)
From stdpp Require Import options.
From S2P Require Import Prelude Crypto.

(** ** MerkleHasher *)

Definition LEAF_PREFIX : ascii := byte_of_N 0.
Definition NODE_PREFIX : ascii := byte_of_N 1.

Definition MerkleHasher := Hasher.

Definition empty_root (h : MerkleHasher) : Digest := hasher_hash h [].

Definition leaf_input (record : bytes) : bytes := LEAF_PREFIX :: record.

Definition leaf (h : MerkleHasher) (record : bytes) : Digest :=
  hasher_hash h (leaf_input record).

Definition node_input (left right : Digest) : bytes :=
  NODE_PREFIX :: digest_bytes left ++ digest_bytes right.

Definition node (h : MerkleHasher) (left right : Digest) : Digest :=
  hasher_hash h (node_input left right).

(** ** split_point *)

(** The loop [while k < n { k <<= 1 }], one unit of fuel per test. *)
Fixpoint split_loop (fuel : nat) (k n : N) : option N :=
  match fuel with
  | O => None
  | S fuel' => if (k <? n)%N then split_loop fuel' (shl1_u64 k) n else Some k
  end.

(** 65 tests are enough: after 64 shifts [k] is 0 and stays 0 (see
    [split_point_diverges]), so [None] stands for the loop that never exits. *)
Definition split_point (n : N) : option N :=
  k ← split_loop 65 1 n;
  Some (N.shiftr k 1).

(** [split_point] at the length of a slice, where it always returns
    ([split_len_spec]). *)
Definition split_len (n : nat) : nat :=
  N.to_nat (default 0%N (split_point (N.of_nat n))).

(** ** MerkleTree::root *)

Fixpoint root_fuel (h : MerkleHasher) (fuel : nat) (leaves : list Digest) : Digest :=
  match leaves, fuel with
  | [], _ => empty_root h
  | [d], _ => d
  | _, O => empty_root h
  | _, S fuel' =>
      let k := split_len (length leaves) in
      node h (root_fuel h fuel' (take k leaves)) (root_fuel h fuel' (drop k leaves))
  end.

(** Each call is on a strictly shorter slice: the length is enough fuel. *)
Definition root (h : MerkleHasher) (leaves : list Digest) : Digest :=
  root_fuel h (length leaves) leaves.

(** ** Proof values *)

Record InclusionProof := mkInclusionProof {
  leaf_index : N;
  tree_size : N;
  ip_path : list Digest;
}.

Record ConsistencyProof := mkConsistencyProof {
  first_size : N;
  second_size : N;
  cp_path : list Digest;
}.

(** [slice::split_last]: the last element and the rest. *)
Definition split_last {A} (l : list A) : option (A * list A) :=
  match rev l with
  | [] => None
  | x :: r => Some (x, rev r)
  end.

(** ** MerkleProofs: generation *)

Fixpoint audit_path_fuel (h : MerkleHasher) (fuel : nat) (m : nat) (leaves : list Digest)
    : list Digest :=
  match fuel with
  | O => []
  | S fuel' =>
      if (length leaves <=? 1)%nat then []
      else
        let k := split_len (length leaves) in
        if (m <? k)%nat
        then audit_path_fuel h fuel' m (take k leaves) ++ [root h (drop k leaves)]
        else audit_path_fuel h fuel' (m - k) (drop k leaves) ++ [root h (take k leaves)]
  end.

Definition audit_path (h : MerkleHasher) (m : nat) (leaves : list Digest) : list Digest :=
  audit_path_fuel h (length leaves) m leaves.

Definition inclusion (h : MerkleHasher) (leaves : list Digest) (index : N)
    : option InclusionProof :=
  if (len leaves <=? index)%N then None
  else Some (mkInclusionProof index (len leaves) (audit_path h (N.to_nat index) leaves)).

Fixpoint subproof_fuel (h : MerkleHasher) (fuel : nat) (m : nat) (leaves : list Digest)
    (b : bool) : list Digest :=
  match fuel with
  | O => []
  | S fuel' =>
      if (m =? length leaves)%nat then (if b then [] else [root h leaves])
      else
        let k := split_len (length leaves) in
        if (m <=? k)%nat
        then subproof_fuel h fuel' m (take k leaves) b ++ [root h (drop k leaves)]
        else subproof_fuel h fuel' (m - k) (drop k leaves) false ++ [root h (take k leaves)]
  end.

Definition subproof (h : MerkleHasher) (m : nat) (leaves : list Digest) (b : bool)
    : list Digest :=
  subproof_fuel h (length leaves) m leaves b.

Definition consistency (h : MerkleHasher) (leaves : list Digest) (first : N)
    : option ConsistencyProof :=
  let n := len leaves in
  if (first =? 0)%N || (n <? first)%N then None
  else Some (mkConsistencyProof first n
               (if (first =? n)%N then [] else subproof h (N.to_nat first) leaves true)).

(** ** MerkleProofs: verification

    The outer [option] is [None] when a [split_point] call does not return, the
    inner one is the Rust [Option].  One element of the path is consumed per
    call, so [S (length path)] is enough fuel. *)

Fixpoint rebuild_inclusion_fuel (h : MerkleHasher) (fuel : nat) (m n : N) (lf : Digest)
    (path : list Digest) : option (option Digest) :=
  match fuel with
  | O => None
  | S fuel' =>
      if (n =? 0)%N then Some None
      else if (n =? 1)%N then
        Some (match path with [] => Some lf | _ => None end)
      else
        match split_last path with
        | None => Some None
        | Some (last, rest) =>
            k ← split_point n;
            if (m <? k)%N then
              r ← rebuild_inclusion_fuel h fuel' m k lf rest;
              Some (left ← r; Some (node h left last))
            else
              r ← rebuild_inclusion_fuel h fuel' (m - k) (n - k) lf rest;
              Some (right ← r; Some (node h last right))
        end
  end.

Definition rebuild_inclusion (h : MerkleHasher) (m n : N) (lf : Digest)
    (path : list Digest) : option (option Digest) :=
  rebuild_inclusion_fuel h (S (length path)) m n lf path.

Definition verify_inclusion (h : MerkleHasher) (proof : InclusionProof)
    (lf rt : Digest) : option bool :=
  let m := leaf_index proof in
  let n := tree_size proof in
  if (n <=? m)%N then Some false
  else
    r ← rebuild_inclusion h m n lf (ip_path proof);
    Some (match r with
          | Some computed => bool_decide (computed = rt)
          | None => false
          end).

Fixpoint rebuild_consistency_fuel (h : MerkleHasher) (fuel : nat) (m n : N) (b : bool)
    (old_seed : Digest) (path : list Digest) : option (option (Digest * Digest)) :=
  match fuel with
  | O => None
  | S fuel' =>
      if (m =? n)%N then
        Some (if b
              then match path with [] => Some (old_seed, old_seed) | _ => None end
              else match split_last path with
                   | Some (last, []) => Some (last, last)
                   | _ => None
                   end)
      else
        k ← split_point n;
        match split_last path with
        | None => Some None
        | Some (last, rest) =>
            if (m <=? k)%N then
              r ← rebuild_consistency_fuel h fuel' m k b old_seed rest;
              Some ('(old_left, new_left) ← r; Some (old_left, node h new_left last))
            else
              r ← rebuild_consistency_fuel h fuel' (m - k) (n - k) false old_seed rest;
              Some ('(old_right, new_right) ← r;
                    Some (node h last old_right, node h last new_right))
        end
  end.

Definition rebuild_consistency (h : MerkleHasher) (m n : N) (b : bool) (old_seed : Digest)
    (path : list Digest) : option (option (Digest * Digest)) :=
  rebuild_consistency_fuel h (S (length path)) m n b old_seed path.

Definition verify_consistency (h : MerkleHasher) (proof : ConsistencyProof)
    (old_root new_root : Digest) : option bool :=
  let m := first_size proof in
  let n := second_size proof in
  if (n <? m)%N then Some false
  else if (m =? n)%N then
    Some (match cp_path proof with [] => bool_decide (old_root = new_root) | _ => false end)
  else if (m =? 0)%N then
    Some (match cp_path proof with [] => true | _ => false end)
  else
    r ← rebuild_consistency h m n true old_root (cp_path proof);
    Some (match r with
          | Some (old, new) => bool_decide (old = old_root) && bool_decide (new = new_root)
          | None => false
          end).

(** ** split_point returns the largest power of two below its argument *)

Lemma shl1_u64_pow2 i : (i < 63)%N → shl1_u64 (2 ^ i) = (2 ^ (i + 1))%N.
Proof.
  intros Hi. unfold shl1_u64, u64_modulus.
  rewrite N.shiftl_mul_pow2, N.pow_1_r, N.pow_add_r, N.pow_1_r.
  apply N.mod_small. rewrite N.mul_comm, <- N.pow_succ_r'.
  apply N.pow_lt_mono_r; lia.
Qed.

Lemma split_loop_pow2 fuel i n :
  (1 ≤ n ≤ 2 ^ 63)%N → (i ≤ 63)%N → (64 - i ≤ N.of_nat fuel)%N →
  split_loop fuel (2 ^ i) n = Some (2 ^ N.max i (N.log2_up n))%N.
Proof.
  revert i. induction fuel as [|fuel IH]; intros i Hn Hi Hf; [lia|]. cbn [split_loop].
  assert (N.log2_up n ≤ 63)%N by (apply N.log2_up_le_pow2; lia).
  destruct (N.ltb_spec (2 ^ i) n) as [Hlt|Hge].
  - apply N.log2_up_lt_pow2 in Hlt; [|lia].
    rewrite shl1_u64_pow2, IH by lia. do 2 f_equal. lia.
  - apply N.log2_up_le_pow2 in Hge; [|lia]. do 2 f_equal. lia.
Qed.

Lemma split_point_log2 n :
  (2 ≤ n ≤ 2 ^ 63)%N → split_point n = Some (2 ^ N.log2 (n - 1))%N.
Proof.
  intros Hn. unfold split_point.
  pose proof (split_loop_pow2 65 0 n) as E. change (2 ^ 0)%N with 1%N in E.
  rewrite E by lia. simpl. f_equal.
  rewrite N.max_r, N.log2_up_eqn, N.shiftr_div_pow2, <- N.sub_1_r by lia.
  rewrite N.pow_succ_r', N.mul_comm, N.pow_1_r. apply N.div_mul. lia.
Qed.

(** A power of two [k] with [k < n ≤ 2k] is the split point of [n]. *)
Lemma split_point_unique i n :
  (2 ^ i < n)%N → (n ≤ 2 ^ (i + 1))%N → (n ≤ 2 ^ 63)%N → split_point n = Some (2 ^ i)%N.
Proof.
  intros Hlt Hle Hn. assert (0 < 2 ^ i)%N by (apply N.neq_0_lt_0, N.pow_nonzero; lia).
  rewrite split_point_log2 by lia. do 2 f_equal.
  apply N.log2_unique; [lia|]. rewrite <- N.add_1_r. lia.
Qed.

Lemma split_point_bounds n :
  (2 ≤ n ≤ 2 ^ 63)%N →
  ∃ i, split_point n = Some (2 ^ i)%N ∧ (2 ^ i < n)%N ∧ (n ≤ 2 ^ (i + 1))%N.
Proof.
  intros Hn. exists (N.log2 (n - 1)). split; [by apply split_point_log2|].
  pose proof (N.log2_spec (n - 1)) as [Hlo Hhi]; [lia|].
  rewrite <- N.add_1_r in Hhi. lia.
Qed.

Lemma max_len_val : max_len = 9223372036854775807%N.
Proof. reflexivity. Qed.

Lemma pow63_val : (2 ^ 63)%N = 9223372036854775808%N.
Proof. reflexivity. Qed.

Lemma split_len_point n :
  2 ≤ n → (N.of_nat n ≤ 2 ^ 63)%N →
  split_point (N.of_nat n) = Some (N.of_nat (split_len n)).
Proof.
  intros H2 Hn. destruct (split_point_bounds (N.of_nat n)) as (i & Hi & _); [lia|].
  unfold split_len. rewrite Hi. simpl. by rewrite N2Nat.id.
Qed.

Lemma split_len_spec n :
  2 ≤ n → (N.of_nat n ≤ 2 ^ 63)%N → 1 ≤ split_len n < n ∧ n ≤ 2 * split_len n.
Proof.
  intros H2 Hn. destruct (split_point_bounds (N.of_nat n)) as (i & Hi & Hlt & Hle); [lia|].
  rewrite split_len_point in Hi by done. injection Hi as Hk.
  rewrite N.pow_add_r, N.pow_1_r in Hle. lia.
Qed.

(** Between the split point and the size, the split point does not move. *)
Lemma split_len_stable n m :
  2 ≤ n → (N.of_nat n ≤ 2 ^ 63)%N → split_len n < m ≤ n → split_len m = split_len n.
Proof.
  intros H2 Hn Hm.
  destruct (split_point_bounds (N.of_nat n)) as (i & Hi & Hlt & Hle); [lia|].
  rewrite split_len_point in Hi by done. injection Hi as Hk.
  assert (split_point (N.of_nat m) = Some (2 ^ i)%N) as Hs
    by (apply split_point_unique; lia).
  rewrite split_len_point in Hs by lia. injection Hs as Hs. lia.
Qed.

Lemma len_take_le {A} (l : list A) k : k ≤ length l → len (take k l) = N.of_nat k.
Proof. intros. unfold len. rewrite length_take. lia. Qed.

Lemma len_drop {A} (l : list A) k : len (drop k l) = (len l - N.of_nat k)%N.
Proof. unfold len. rewrite length_drop. lia. Qed.

Lemma slice_pow63 {A} (l : list A) : is_slice l → (N.of_nat (length l) ≤ 2 ^ 63)%N.
Proof. unfold is_slice, len. rewrite max_len_val, pow63_val. lia. Qed.

#[export] Hint Resolve slice_pow63 : agate.

(** Above [2^63] the shifted counter becomes 0 and the loop never exits. *)
Lemma split_loop_stuck fuel k n :
  (2 ^ 63 < n)%N → (k = 0%N ∨ ∃ i, (i ≤ 63)%N ∧ k = (2 ^ i)%N) →
  split_loop fuel k n = None.
Proof.
  intros Hn. revert k. induction fuel as [|fuel IH]; intros k Hk; [done|].
  cbn [split_loop].
  assert (k < n)%N as ->%N.ltb_lt.
  { destruct Hk as [->|(i & Hi & ->)]; [lia|].
    eapply N.le_lt_trans; [apply (N.pow_le_mono_r 2 i 63); lia|done]. }
  apply IH. destruct Hk as [->|(i & Hi & ->)]; [by left|].
  destruct (decide (i = 63%N)) as [->|]; [by left|].
  right. exists (i + 1)%N. split; [lia|]. apply shl1_u64_pow2. lia.
Qed.

Lemma split_point_stuck n : (2 ^ 63 < n)%N → split_point n = None.
Proof.
  intros Hn. unfold split_point. rewrite split_loop_stuck; [done|done|].
  right. by exists 0%N.
Qed.

(** ** Induction over the shape of the tree *)

Lemma tree_ind (P : list Digest → Prop) :
  P [] → (∀ d, P [d]) →
  (∀ l, 2 ≤ length l → is_slice l →
        P (take (split_len (length l)) l) → P (drop (split_len (length l)) l) → P l) →
  ∀ l, is_slice l → P l.
Proof.
  intros Hnil Hone Hsplit l.
  induction l as [l IH] using (induction_ltof1 _ (@length _)). unfold ltof in IH.
  intros Hl. destruct l as [|d [|d' l']] eqn:El; [done|done|]. rewrite <- El in *.
  assert (2 ≤ length l) as H2 by (subst; simpl; lia).
  pose proof (split_len_spec _ H2 (slice_pow63 _ Hl)) as [Hk _].
  apply Hsplit; [done..| |]; (apply IH; [|auto with agate]).
  - rewrite length_take. lia.
  - rewrite length_drop. lia.
Qed.

(** The bounds of the split point of a slice with two leaves or more. *)
Ltac split_facts H2 Hl :=
  let Hk := fresh "Hk" in let Hb := fresh "Hb" in
  pose proof (slice_pow63 _ Hl) as Hb;
  pose proof (split_len_spec _ H2 Hb) as Hk.

(** Arithmetic on the lengths of sub-slices. *)
Ltac slice_len := rewrite ?length_take, ?length_drop; lia.

(** ** Unfolding equations: the fuel of every recursion is enough *)

Section Equations.
Context (h : MerkleHasher).

Lemma root_fuel_enough leaves :
  is_slice leaves → ∀ fuel, length leaves ≤ fuel → root_fuel h fuel leaves = root h leaves.
Proof.
  assert (∀ l, is_slice l → ∀ f g, length l ≤ f → length l ≤ g →
            root_fuel h f l = root_fuel h g l) as Hfg.
  { apply (tree_ind (λ l, ∀ f g, length l ≤ f → length l ≤ g →
      root_fuel h f l = root_fuel h g l)).
    - intros [] []; done.
    - intros d [] []; done.
    - intros l H2 Hl IHt IHd f g Hf Hg.
      split_facts H2 Hl.
      destruct f as [|f], g as [|g]; [lia..|].
      destruct l as [|d [|d' l']] eqn:El; [simpl in H2; lia..|]. rewrite <- El in *.
      transitivity (node h (root_fuel h f (take (split_len (length l)) l))
                           (root_fuel h f (drop (split_len (length l)) l))); [by subst|].
      transitivity (node h (root_fuel h g (take (split_len (length l)) l))
                           (root_fuel h g (drop (split_len (length l)) l))); [|by subst].
      f_equal; [apply IHt|apply IHd]; slice_len. }
  intros Hl fuel Hf. by apply Hfg.
Qed.

Lemma root_split leaves :
  2 ≤ length leaves → is_slice leaves →
  root h leaves = node h (root h (take (split_len (length leaves)) leaves))
                         (root h (drop (split_len (length leaves)) leaves)).
Proof.
  intros H2 Hl. split_facts H2 Hl.
  rewrite <- (root_fuel_enough leaves Hl (S (length leaves))) by lia.
  destruct leaves as [|d [|d' l']] eqn:El; [simpl in H2; lia..|]. rewrite <- El in *.
  transitivity (node h (root_fuel h (length leaves) (take (split_len (length leaves)) leaves))
                       (root_fuel h (length leaves) (drop (split_len (length leaves)) leaves)));
    [by subst|].
  f_equal; apply root_fuel_enough; auto with agate; slice_len.
Qed.

Lemma audit_path_fuel_enough leaves :
  is_slice leaves → ∀ fuel m, length leaves ≤ fuel →
  audit_path_fuel h fuel m leaves = audit_path h m leaves.
Proof.
  assert (∀ l, is_slice l → ∀ f g m, length l ≤ f → length l ≤ g →
            audit_path_fuel h f m l = audit_path_fuel h g m l) as Hfg.
  { apply (tree_ind (λ l, ∀ f g m, length l ≤ f → length l ≤ g →
      audit_path_fuel h f m l = audit_path_fuel h g m l)).
    - intros [] []; done.
    - intros d [] []; done.
    - intros l H2 Hl IHt IHd f g m Hf Hg.
      split_facts H2 Hl.
      destruct f as [|f], g as [|g]; [lia..|]. simpl.
      destruct (Nat.leb_spec (length l) 1); [done|]. case_match;
        (f_equal; [apply IHt || apply IHd]); slice_len. }
  intros Hl fuel m Hf. by apply Hfg.
Qed.

Lemma audit_path_one d m : audit_path h m [d] = [].
Proof. reflexivity. Qed.

Lemma audit_path_split m leaves :
  2 ≤ length leaves → is_slice leaves →
  audit_path h m leaves =
    let k := split_len (length leaves) in
    if (m <? k)%nat then audit_path h m (take k leaves) ++ [root h (drop k leaves)]
    else audit_path h (m - k) (drop k leaves) ++ [root h (take k leaves)].
Proof.
  intros H2 Hl. split_facts H2 Hl.
  rewrite <- (audit_path_fuel_enough leaves Hl (S (length leaves))) by lia. simpl.
  destruct (Nat.leb_spec (length leaves) 1); [lia|].
  rewrite !audit_path_fuel_enough;
    auto with agate; slice_len.
Qed.

Lemma subproof_fuel_enough leaves :
  is_slice leaves → ∀ fuel m b, 1 ≤ m ≤ length leaves → length leaves ≤ fuel →
  subproof_fuel h fuel m leaves b = subproof h m leaves b.
Proof.
  assert (∀ l, is_slice l → ∀ f g m b, 1 ≤ m ≤ length l → length l ≤ f → length l ≤ g →
            subproof_fuel h f m l b = subproof_fuel h g m l b) as Hfg.
  { apply (tree_ind (λ l, ∀ f g m b, 1 ≤ m ≤ length l → length l ≤ f → length l ≤ g →
      subproof_fuel h f m l b = subproof_fuel h g m l b)).
    - simpl. lia.
    - intros d f g m b Hm Hf Hg. simpl in *. assert (m = 1) as -> by lia.
      destruct f, g; (lia || done).
    - intros l H2 Hl IHt IHd f g m b Hm Hf Hg.
      split_facts H2 Hl.
      destruct f as [|f], g as [|g]; [lia..|]. simpl.
      destruct (Nat.eqb_spec m (length l)); [done|].
      destruct (Nat.leb_spec m (split_len (length l)));
        (f_equal; [apply IHt || apply IHd]); slice_len. }
  intros Hl fuel m b Hm Hf. by apply Hfg.
Qed.

Lemma subproof_full leaves b :
  1 ≤ length leaves →
  subproof h (length leaves) leaves b = if b then [] else [root h leaves].
Proof.
  unfold subproof. destruct leaves as [|d l]; [simpl; lia|]. intros _.
  cbn [length subproof_fuel]. by rewrite Nat.eqb_refl.
Qed.

Lemma subproof_split m leaves b :
  2 ≤ length leaves → is_slice leaves → 1 ≤ m < length leaves →
  subproof h m leaves b =
    let k := split_len (length leaves) in
    if (m <=? k)%nat then subproof h m (take k leaves) b ++ [root h (drop k leaves)]
    else subproof h (m - k) (drop k leaves) false ++ [root h (take k leaves)].
Proof.
  intros H2 Hl Hm. split_facts H2 Hl.
  rewrite <- (subproof_fuel_enough leaves Hl (S (length leaves))) by lia. simpl.
  destruct (Nat.eqb_spec m (length leaves)); [lia|].
  destruct (Nat.leb_spec m (split_len (length leaves)));
    (rewrite subproof_fuel_enough; [done|auto with agate|slice_len..]).
Qed.

Lemma split_last_snoc {A} (l : list A) x : split_last (l ++ [x]) = Some (x, l).
Proof. unfold split_last. rewrite rev_app_distr. simpl. by rewrite rev_involutive. Qed.

Lemma split_last_inv {A} (l : list A) x r : split_last l = Some (x, r) → l = r ++ [x].
Proof.
  unfold split_last. destruct (rev l) as [|y r'] eqn:E; [done|]. intros [= <- <-].
  rewrite <- (rev_involutive l), E. done.
Qed.

Lemma rebuild_inclusion_one m lf path :
  rebuild_inclusion h m 1 lf path = Some (match path with [] => Some lf | _ => None end).
Proof. done. Qed.

Lemma rebuild_inclusion_snoc m n lf rest last :
  (2 ≤ n)%N →
  rebuild_inclusion h m n lf (rest ++ [last]) =
    (k ← split_point n;
     if (m <? k)%N then
       r ← rebuild_inclusion h m k lf rest;
       Some (left ← r; Some (node h left last))
     else
       r ← rebuild_inclusion h (m - k) (n - k) lf rest;
       Some (right ← r; Some (node h last right))).
Proof.
  intros Hn. unfold rebuild_inclusion.
  rewrite length_app, Nat.add_comm. cbn [length Nat.add].
  cbn [rebuild_inclusion_fuel]. rewrite split_last_snoc.
  destruct (N.eqb_spec n 0), (N.eqb_spec n 1); (lia || done).
Qed.

Lemma rebuild_consistency_full n b seed path :
  rebuild_consistency h n n b seed path =
    Some (if b then match path with [] => Some (seed, seed) | _ => None end
          else match split_last path with Some (last, []) => Some (last, last) | _ => None end).
Proof. unfold rebuild_consistency. simpl. by rewrite N.eqb_refl. Qed.

Lemma rebuild_consistency_snoc m n b seed rest last :
  m ≠ n →
  rebuild_consistency h m n b seed (rest ++ [last]) =
    (k ← split_point n;
     if (m <=? k)%N then
       r ← rebuild_consistency h m k b seed rest;
       Some ('(old_left, new_left) ← r; Some (old_left, node h new_left last))
     else
       r ← rebuild_consistency h (m - k) (n - k) false seed rest;
       Some ('(old_right, new_right) ← r;
             Some (node h last old_right, node h last new_right))).
Proof.
  intros Hn. unfold rebuild_consistency.
  rewrite length_app, Nat.add_comm. cbn [length Nat.add].
  cbn [rebuild_consistency_fuel]. rewrite split_last_snoc.
  destruct (N.eqb_spec m n); [lia|done].
Qed.

(** ** Generated proofs verify *)

Lemma rebuild_audit_path leaves :
  is_slice leaves → ∀ m lf, leaves !! m = Some lf →
  rebuild_inclusion h (N.of_nat m) (len leaves) lf (audit_path h m leaves)
    = Some (Some (root h leaves)).
Proof.
  apply (tree_ind (λ leaves, ∀ m lf, leaves !! m = Some lf →
    rebuild_inclusion h (N.of_nat m) (len leaves) lf (audit_path h m leaves)
      = Some (Some (root h leaves)))).
  - done.
  - intros d [|m] lf Hm; by simplify_eq/=.
  - intros l H2 Hl IHt IHd m lf Hm. split_facts H2 Hl.
    pose proof (lookup_lt_Some _ _ _ Hm). unfold len in *.
    rewrite (root_split l), audit_path_split by done. cbv zeta.
    destruct (Nat.ltb_spec m (split_len (length l)));
      rewrite rebuild_inclusion_snoc, split_len_point by (done || lia); simpl.
    + destruct (N.ltb_spec (N.of_nat m) (N.of_nat (split_len (length l)))); [|lia].
      specialize (IHt m lf). rewrite lookup_take_lt, length_take, Nat.min_l in IHt by lia.
      by rewrite IHt.
    + destruct (N.ltb_spec (N.of_nat m) (N.of_nat (split_len (length l)))); [lia|].
      specialize (IHd (m - split_len (length l)) lf).
      rewrite lookup_drop, length_drop in IHd.
      replace (split_len (length l) + (m - split_len (length l))) with m in IHd by lia.
      rewrite <- !Nat2N.inj_sub, IHd by done. done.
Qed.

Lemma rebuild_subproof leaves :
  is_slice leaves → ∀ m b seed, 1 ≤ m ≤ length leaves →
  (b = true → seed = root h (take m leaves)) →
  rebuild_consistency h (N.of_nat m) (len leaves) b seed (subproof h m leaves b)
    = Some (Some (root h (take m leaves), root h leaves)).
Proof.
  apply (tree_ind (λ leaves, ∀ m b seed, 1 ≤ m ≤ length leaves →
    (b = true → seed = root h (take m leaves)) →
    rebuild_consistency h (N.of_nat m) (len leaves) b seed (subproof h m leaves b)
      = Some (Some (root h (take m leaves), root h leaves)))).
  - simpl. lia.
  - intros d m b seed Hm Hb. simpl in Hm. assert (m = 1) as -> by lia.
    destruct b; [|done]. by rewrite (Hb eq_refl).
  - intros l H2 Hl IHt IHd m b seed Hm Hb. split_facts H2 Hl.
    destruct (decide (m = length l)) as [->|Hne].
    { rewrite subproof_full, take_ge in * by lia. unfold len.
      rewrite rebuild_consistency_full. destruct b; [|done]. by rewrite Hb. }
    rewrite (root_split l), subproof_split by (done || lia). cbv zeta. unfold len in *.
    destruct (Nat.leb_spec m (split_len (length l)));
      rewrite rebuild_consistency_snoc, split_len_point by (done || lia); simpl.
    + destruct (N.leb_spec (N.of_nat m) (N.of_nat (split_len (length l)))); [|lia].
      specialize (IHt m b seed).
      rewrite length_take, take_take, !Nat.min_l in IHt by lia. by rewrite IHt by (done || lia).
    + destruct (N.leb_spec (N.of_nat m) (N.of_nat (split_len (length l)))); [lia|].
      specialize (IHd (m - split_len (length l)) false seed). rewrite length_drop in IHd.
      rewrite <- !Nat2N.inj_sub, IHd by (done || lia). simpl.
      assert (is_slice (take m l)) as Hs by auto with agate.
      rewrite (root_split (take m l)); [|rewrite length_take; lia|done].
      rewrite length_take, Nat.min_l by lia.
      rewrite (split_len_stable (length l) m) by (auto with agate; lia).
      rewrite take_take, Nat.min_l, skipn_firstn_comm by lia. done.
Qed.

End Equations.

(** ** Soundness: an accepted wrong proof yields a hash collision

    Each extractor is a program: from the data of a verification that accepted
    something false it computes two different byte strings with one digest. *)

Definition is_collision (h : MerkleHasher) (c : bytes * bytes) : Prop :=
  c.1 ≠ c.2 ∧ hasher_hash h c.1 = hasher_hash h c.2.

(** Two lists of leaves of one length with one root. *)
Fixpoint roots_collision_fuel (h : MerkleHasher) (fuel : nat) (l1 l2 : list Digest)
    : option (bytes * bytes) :=
  match fuel with
  | O => None
  | S fuel' =>
      if (length l1 <=? 1)%nat then None
      else
        let k := split_len (length l1) in
        let x := node_input (root h (take k l1)) (root h (drop k l1)) in
        let y := node_input (root h (take k l2)) (root h (drop k l2)) in
        if bool_decide (x = y) then
          if bool_decide (take k l1 = take k l2)
          then roots_collision_fuel h fuel' (drop k l1) (drop k l2)
          else roots_collision_fuel h fuel' (take k l1) (take k l2)
        else Some (x, y)
  end.

Definition roots_collision (h : MerkleHasher) (l1 l2 : list Digest) : option (bytes * bytes) :=
  roots_collision_fuel h (length l1) l1 l2.

(** A leaf that rebuilds the root of [leaves] at an index it is not at. *)
Fixpoint inclusion_collision_fuel (h : MerkleHasher) (fuel : nat) (m : nat)
    (leaves : list Digest) (lf : Digest) (path : list Digest) : option (bytes * bytes) :=
  match fuel, split_last path with
  | S fuel', Some (last, rest) =>
      let k := split_len (length leaves) in
      if (m <? k)%nat then
        match rebuild_inclusion h (N.of_nat m) (N.of_nat k) lf rest with
        | Some (Some l) =>
            let x := node_input l last in
            let y := node_input (root h (take k leaves)) (root h (drop k leaves)) in
            if bool_decide (x = y)
            then inclusion_collision_fuel h fuel' m (take k leaves) lf rest
            else Some (x, y)
        | _ => None
        end
      else
        match rebuild_inclusion h (N.of_nat (m - k)) (N.of_nat (length leaves - k)) lf rest with
        | Some (Some r) =>
            let x := node_input last r in
            let y := node_input (root h (take k leaves)) (root h (drop k leaves)) in
            if bool_decide (x = y)
            then inclusion_collision_fuel h fuel' (m - k) (drop k leaves) lf rest
            else Some (x, y)
        | _ => None
        end
  | _, _ => None
  end.

Definition inclusion_collision (h : MerkleHasher) (m : nat) (leaves : list Digest)
    (lf : Digest) (path : list Digest) : option (bytes * bytes) :=
  inclusion_collision_fuel h (length path) m leaves lf path.

(** A consistency proof between [old] and [new] where [old] is not a prefix. *)
Fixpoint consistency_collision_fuel (h : MerkleHasher) (fuel : nat) (b : bool)
    (seed : Digest) (old new : list Digest) (path : list Digest) : option (bytes * bytes) :=
  if (length old =? length new)%nat then roots_collision h old new
  else
    match fuel, split_last path with
    | S fuel', Some (last, rest) =>
        let k := split_len (length new) in
        let y := node_input (root h (take k new)) (root h (drop k new)) in
        if (length old <=? k)%nat then
          match rebuild_consistency h (len old) (N.of_nat k) b seed rest with
          | Some (Some (_, new_left)) =>
              let x := node_input new_left last in
              if bool_decide (x = y)
              then consistency_collision_fuel h fuel' b seed old (take k new) rest
              else Some (x, y)
          | _ => None
          end
        else
          match rebuild_consistency h (len old - N.of_nat k) (len new - N.of_nat k)
                  false seed rest with
          | Some (Some (old_right, new_right)) =>
              let x := node_input last new_right in
              let x' := node_input last old_right in
              let y' := node_input (root h (take k old)) (root h (drop k old)) in
              if bool_decide (x ≠ y) then Some (x, y)
              else if bool_decide (x' ≠ y') then Some (x', y')
              else if bool_decide (take k old = take k new)
              then consistency_collision_fuel h fuel' false seed (drop k old) (drop k new) rest
              else roots_collision h (take k old) (take k new)
          | _ => None
          end
    | _, _ => None
    end.

Definition consistency_collision (h : MerkleHasher) (b : bool) (seed : Digest)
    (old new : list Digest) (path : list Digest) : option (bytes * bytes) :=
  consistency_collision_fuel h (length path) b seed old new path.

(** The first position where two lists of records have different entries with
    one leaf hash. *)
Fixpoint leaves_collision (h : MerkleHasher) (r1 r2 : list bytes) : option (bytes * bytes) :=
  match r1, r2 with
  | a :: r1', b :: r2' =>
      if bool_decide (a = b) then leaves_collision h r1' r2'
      else Some (leaf_input a, leaf_input b)
  | _, _ => None
  end.

Section Soundness.
Context (h : MerkleHasher) (L : nat) `{!HasherOk h L}.
#[local] Set Default Proof Using "Type*".

(** A digest shaped like the hasher's own output. *)
Definition wf_digest (d : Digest) : Prop :=
  digest_algo d = hasher_algo h ∧ length (digest_bytes d) = L.

Lemma hash_wf x : wf_digest (hasher_hash h x).
Proof. split; [apply hasher_tags|apply hasher_length]. Qed.

Lemma digest_ext d d' :
  wf_digest d → wf_digest d' → digest_bytes d = digest_bytes d' → d = d'.
Proof. destruct d, d'. unfold wf_digest. simpl. intros [] [] ?. congruence. Qed.

Lemma root_wf leaves : is_slice leaves → Forall wf_digest leaves → wf_digest (root h leaves).
Proof.
  intros Hl Hwf. destruct leaves as [|d [|d' l]]; [apply hash_wf|by inversion Hwf|].
  rewrite root_split; [apply hash_wf|simpl; lia|done].
Qed.

Lemma leaves_wf records : Forall wf_digest (leaf h <$> records).
Proof. apply Forall_fmap, Forall_true. intros. apply hash_wf. Qed.

Lemma node_input_bytes_l a b c d :
  length (digest_bytes a) = length (digest_bytes c) → node_input a b = node_input c d →
  digest_bytes a = digest_bytes c ∧ digest_bytes b = digest_bytes d.
Proof. intros Hl [= H]. by apply app_eq_length_inv in H. Qed.

Lemma node_input_bytes_r a b c d :
  length (digest_bytes b) = length (digest_bytes d) → node_input a b = node_input c d →
  digest_bytes a = digest_bytes c ∧ digest_bytes b = digest_bytes d.
Proof. intros Hl [= H]. by apply app_eq_length_inv_r in H. Qed.

(** Two nodes with well-formed left children and one input agree on both sides. *)
Lemma node_input_inj_l a b c d :
  wf_digest a → wf_digest c → node_input a b = node_input c d →
  a = c ∧ digest_bytes b = digest_bytes d.
Proof.
  intros Ha Hc H. apply node_input_bytes_l in H as [H1 H2].
  - split; [by apply digest_ext|done].
  - destruct Ha, Hc. congruence.
Qed.

(** The same with well-formed right children. *)
Lemma node_input_inj_r a b c d :
  wf_digest b → wf_digest d → node_input a b = node_input c d →
  digest_bytes a = digest_bytes c ∧ b = d.
Proof.
  intros Hb Hd H. apply node_input_bytes_r in H as [H1 H2].
  - split; [done|by apply digest_ext].
  - destruct Hb, Hd. congruence.
Qed.

Lemma roots_collision_sound l1 :
  is_slice l1 → ∀ fuel l2, length l1 ≤ fuel → length l1 = length l2 →
  Forall wf_digest l1 → Forall wf_digest l2 → root h l1 = root h l2 → l1 ≠ l2 →
  ∃ c, roots_collision_fuel h fuel l1 l2 = Some c ∧ is_collision h c.
Proof.
  revert l1. apply (tree_ind (λ l1, ∀ fuel l2, length l1 ≤ fuel → length l1 = length l2 →
    Forall wf_digest l1 → Forall wf_digest l2 → root h l1 = root h l2 → l1 ≠ l2 →
    ∃ c, roots_collision_fuel h fuel l1 l2 = Some c ∧ is_collision h c)).
  - intros fuel [|] ? ? ? ? ? ?; done.
  - intros d fuel [|d' [|]] ? ? ? ? Hr Hne; try done. unfold root in Hr. simpl in Hr. congruence.
  - intros l1 H2 Hl IHt IHd fuel l2 Hf Hlen Hw1 Hw2 Hr Hne. split_facts H2 Hl.
    assert (is_slice l2) as Hl2 by (unfold is_slice, len in *; by rewrite <- Hlen).
    destruct fuel as [|fuel]; [lia|]. cbn [roots_collision_fuel].
    destruct (Nat.leb_spec (length l1) 1); [lia|]. cbv zeta.
    rewrite (root_split h l1), (root_split h l2), <- Hlen in Hr by (done || lia).
    set (k := split_len (length l1)) in *.
    case_bool_decide as Hxy; [|by eexists].
    apply node_input_inj_l in Hxy as [Ht Hd]; [|apply root_wf; auto using Forall_take with agate..].
    apply digest_ext in Hd; [|apply root_wf; auto using Forall_drop with agate..].
    case_bool_decide as Hk1.
    + apply IHd; auto using Forall_drop; try slice_len.
      intros Hdrop. apply Hne. rewrite <- (take_drop k l1), <- (take_drop k l2). congruence.
    + apply IHt; auto using Forall_take; slice_len.
Qed.

Lemma rebuild_inclusion_wf m n lf path d :
  wf_digest lf → rebuild_inclusion h m n lf path = Some (Some d) → wf_digest d.
Proof.
  intros Hlf. unfold rebuild_inclusion. generalize (S (length path)). intros fuel.
  revert m n path d. induction fuel as [|fuel IH]; intros m n path d; [done|].
  cbn [rebuild_inclusion_fuel]. destruct (n =? 0)%N; [done|]. destruct (n =? 1)%N.
  { destruct path; [|done]. by intros [= <-]. }
  destruct (split_last path) as [[last rest]|]; [|done].
  destruct (split_point n) as [k|]; [|done]. simpl.
  destruct (m <? k)%N;
    (destruct (rebuild_inclusion_fuel _ _ _ _ _ _) as [[x|]|]; simpl; [|done..]);
    intros [= <-]; apply hash_wf.
Qed.

Lemma inclusion_collision_sound leaves :
  is_slice leaves → ∀ fuel m lf path, length path ≤ fuel → m < length leaves →
  wf_digest lf → Forall wf_digest leaves →
  rebuild_inclusion h (N.of_nat m) (len leaves) lf path = Some (Some (root h leaves)) →
  leaves !! m ≠ Some lf →
  ∃ c, inclusion_collision_fuel h fuel m leaves lf path = Some c ∧ is_collision h c.
Proof.
  revert leaves. apply (tree_ind (λ leaves, ∀ fuel m lf path, length path ≤ fuel →
    m < length leaves → wf_digest lf → Forall wf_digest leaves →
    rebuild_inclusion h (N.of_nat m) (len leaves) lf path = Some (Some (root h leaves)) →
    leaves !! m ≠ Some lf →
    ∃ c, inclusion_collision_fuel h fuel m leaves lf path = Some c ∧ is_collision h c)).
  - simpl. lia.
  - intros d fuel m lf path _ Hm _ _ Hr Hne. simpl in Hm. assert (m = 0) as -> by lia.
    change (len [d]) with 1%N in Hr. rewrite rebuild_inclusion_one in Hr.
    destruct path; [|done]. injection Hr as ->. done.
  - intros l H2 Hl IHt IHd fuel m lf path Hf Hm Hlf Hwf Hr Hne. split_facts H2 Hl.
    unfold len in *. destruct path as [|last rest _] using rev_ind.
    { unfold rebuild_inclusion in Hr. cbn in Hr.
      destruct (N.eqb_spec (N.of_nat (length l)) 0), (N.eqb_spec (N.of_nat (length l)) 1);
        (lia || done). }
    rewrite length_app in Hf. simpl in Hf. destruct fuel as [|fuel]; [lia|].
    cbn [inclusion_collision_fuel]. rewrite split_last_snoc. cbv zeta.
    rewrite rebuild_inclusion_snoc, split_len_point in Hr by (done || lia). simpl in Hr.
    rewrite (root_split h l) in Hr by done.
    set (k := split_len (length l)) in *.
    assert (wf_digest (root h (take k l))) by (apply root_wf; auto using Forall_take with agate).
    assert (wf_digest (root h (drop k l))) by (apply root_wf; auto using Forall_drop with agate).
    destruct (Nat.ltb_spec m k).
    + destruct (N.ltb_spec (N.of_nat m) (N.of_nat k)); [|lia].
      destruct (rebuild_inclusion h (N.of_nat m) _ lf rest) as [[x|]|] eqn:Hx; [|done..].
      injection Hr as Hr. case_bool_decide as Hxy; [|by eexists].
      apply node_input_inj_l in Hxy as [-> _]; [|by eauto using rebuild_inclusion_wf|done].
      apply IHt; auto using Forall_take; rewrite ?length_take, ?Nat.min_l by lia; try lia; try done.
      by rewrite lookup_take_lt by lia.
    + destruct (N.ltb_spec (N.of_nat m) (N.of_nat k)); [lia|].
      rewrite !Nat2N.inj_sub.
      destruct (rebuild_inclusion h _ _ lf rest) as [[x|]|] eqn:Hx; [|done..].
      injection Hr as Hr. case_bool_decide as Hxy; [|by eexists].
      apply node_input_inj_r in Hxy as [_ ->]; [|by eauto using rebuild_inclusion_wf|done].
      apply IHd; auto using Forall_drop; rewrite ?length_drop, ?Nat2N.inj_sub; try lia; try done.
      by rewrite lookup_drop, Nat.add_sub_assoc, Nat.add_comm, Nat.add_sub by lia.
Qed.

(** What is rebuilt for the new tree is a digest of the hasher, or the old
    digest itself where the two trees have one size. *)
Lemma rebuild_consistency_new_strict m n b seed path old new :
  m ≠ n → rebuild_consistency h m n b seed path = Some (Some (old, new)) → wf_digest new.
Proof.
  intros Hne. destruct path as [|last rest _] using rev_ind.
  { unfold rebuild_consistency. cbn [length rebuild_consistency_fuel].
    rewrite (proj2 (N.eqb_neq m n) Hne). by destruct (split_point n). }
  rewrite rebuild_consistency_snoc by done. destruct (split_point n) as [k|]; [|done]. simpl.
  destruct (m <=? k)%N;
    (destruct (rebuild_consistency _ _ _ _ _ _) as [[[x y]|]|]; simpl; [|done..]);
    intros [= <- <-]; apply hash_wf.
Qed.

Lemma rebuild_consistency_full_eq n b seed path old new :
  rebuild_consistency h n n b seed path = Some (Some (old, new)) → new = old.
Proof.
  rewrite rebuild_consistency_full.
  destruct b; [destruct path|destruct (split_last path) as [[? [|]]|]]; naive_solver.
Qed.

Lemma consistency_collision_full fuel old new b seed path x y :
  is_slice new → length old = length new →
  Forall wf_digest old → Forall wf_digest new →
  rebuild_consistency h (len old) (len new) b seed path = Some (Some (x, y)) →
  digest_bytes x = digest_bytes (root h old) → digest_bytes y = digest_bytes (root h new) →
  old ≠ take (length old) new →
  ∃ c, consistency_collision_fuel h fuel b seed old new path = Some c ∧ is_collision h c.
Proof.
  intros Hl Hlen Hwo Hwf Hr Hx Hy Hne. unfold len in Hr. rewrite Hlen in Hr.
  apply rebuild_consistency_full_eq in Hr as ->. rewrite Hlen, take_ge in Hne by lia.
  assert (is_slice old) as Hlo by (unfold is_slice, len in *; by rewrite Hlen).
  assert (consistency_collision_fuel h fuel b seed old new path = roots_collision h old new)
    as -> by (destruct fuel; simpl; by rewrite Hlen, Nat.eqb_refl).
  apply roots_collision_sound; auto.
  apply digest_ext; [by apply root_wf..|congruence].
Qed.

(** The case of an old tree that ends in the left half of the new one. *)
Lemma consistency_collision_left k old new b seed rest last x y :
  wf_digest (root h old) → wf_digest (root h (take k new)) →
  rebuild_consistency h (len old) (N.of_nat k) b seed rest = Some (Some (x, y)) →
  digest_bytes x = digest_bytes (root h old) →
  node_input y last = node_input (root h (take k new)) (root h (drop k new)) →
  digest_bytes y = digest_bytes (root h (take k new)).
Proof.
  intros [_ Ho] [_ Hk] Hr Hx Hn. apply node_input_bytes_l in Hn as [? _]; [done|].
  rewrite Hk. destruct (decide (len old = N.of_nat k)) as [E|Hne].
  - rewrite E in Hr. apply rebuild_consistency_full_eq in Hr as ->. congruence.
  - apply rebuild_consistency_new_strict in Hr as [_ ?]; done.
Qed.

(** The case of an old tree that reaches into the right half of the new one. *)
Lemma consistency_collision_right a b c d last x y :
  wf_digest a → wf_digest b → wf_digest c → wf_digest d → wf_digest y →
  node_input last y = node_input a b → node_input last x = node_input c d →
  c = a ∧ digest_bytes x = digest_bytes d ∧ digest_bytes y = digest_bytes b.
Proof.
  intros Ha Hb Hc Hd Hy Hny Hnx.
  apply node_input_bytes_r in Hny as [Hla ?]; [|destruct Hb, Hy; congruence].
  apply node_input_bytes_l in Hnx as [Hlc ?]; [|destruct Ha, Hc; congruence].
  split; [apply digest_ext; congruence|done].
Qed.

(** A consistency proof of a strictly smaller tree is not empty. *)
Lemma rebuild_consistency_nil m n b seed d :
  m ≠ n → rebuild_consistency h m n b seed [] ≠ Some (Some d).
Proof.
  intros Hne Hr. unfold rebuild_consistency in Hr. cbn [length rebuild_consistency_fuel] in Hr.
  rewrite (proj2 (N.eqb_neq _ _) Hne) in Hr. by destruct (split_point n).
Qed.

(** Accepted proofs into the tree of [new] give a collision or a true prefix. *)
Definition consistency_sound_at (new : list Digest) : Prop :=
  ∀ fuel old b seed path x y, length path ≤ fuel →
  1 ≤ length old ≤ length new → Forall wf_digest old → Forall wf_digest new →
  rebuild_consistency h (len old) (len new) b seed path = Some (Some (x, y)) →
  digest_bytes x = digest_bytes (root h old) → digest_bytes y = digest_bytes (root h new) →
  old ≠ take (length old) new →
  ∃ c, consistency_collision_fuel h fuel b seed old new path = Some c ∧ is_collision h c.

(** Roots of the two halves at a cut. *)
Lemma halves_wf k l :
  is_slice l → Forall wf_digest l →
  wf_digest (root h (take k l)) ∧ wf_digest (root h (drop k l)).
Proof. split; apply root_wf; auto using Forall_take, Forall_drop with agate. Qed.

Lemma consistency_step_right fuel old l seed rest last x y :
  let k := split_len (length l) in
  2 ≤ length l → is_slice l → k < length old < length l →
  Forall wf_digest old → Forall wf_digest l → length rest ≤ fuel →
  consistency_sound_at (drop k l) →
  rebuild_consistency h (len old - N.of_nat k) (len l - N.of_nat k) false seed rest
    = Some (Some (x, y)) →
  node h last x = root h old → node h last y = root h l →
  old ≠ take (length old) l → ∀ b,
  ∃ c, consistency_collision_fuel h (S fuel) b seed old l (rest ++ [last]) = Some c
       ∧ is_collision h c.
Proof.
  intros k H2 Hl Hk Hwo Hwf Hf IHd Hr Hx Hy Hne b. split_facts H2 Hl. fold k in Hk0.
  assert (is_slice old) as Hlo by (unfold is_slice, len in *; lia).
  destruct (halves_wf k l Hl Hwf) as [Hw1 Hw2], (halves_wf k old Hlo Hwo) as [Hw3 Hw4].
  cbn [consistency_collision_fuel]. rewrite split_last_snoc. cbv zeta. fold k.
  rewrite (proj2 (Nat.eqb_neq (length old) (length l))), (proj2 (Nat.leb_gt (length old) k)), Hr
    by lia.
  rewrite root_split, (split_len_stable (length l) (length old)) in Hx
    by (fold k; done || lia). rewrite root_split in Hy by done. fold k in Hx, Hy.
  case_bool_decide as Hy1; [by eexists|]. case_bool_decide as Hx1; [by eexists|].
  apply rebuild_consistency_new_strict in Hr as Hyw; [|unfold len; lia].
  destruct (consistency_collision_right _ _ _ _ _ _ _ Hw1 Hw2 Hw3 Hw4 Hyw Hy1 Hx1)
    as (Heq & Hxd & Hyd).
  case_bool_decide as Htk.
  - apply (IHd fuel _ _ _ _ x y); auto using Forall_drop; [slice_len|by rewrite !len_drop|].
    intros Hd. apply Hne. transitivity (take k old ++ drop k old); [by rewrite take_drop|].
    rewrite Htk, Hd, length_drop, take_take_drop. f_equal. lia.
  - apply roots_collision_sound; auto using Forall_take with agate. slice_len.
Qed.

Lemma consistency_step l :
  2 ≤ length l → is_slice l →
  consistency_sound_at (take (split_len (length l)) l) →
  consistency_sound_at (drop (split_len (length l)) l) → consistency_sound_at l.
Proof.
  intros H2 Hl IHt IHd fuel old b seed path x y Hf Hold Hwo Hwf Hr Hx Hy Hne.
  split_facts H2 Hl.
  destruct (decide (length old = length l)) as [Heq|Hlt];
    [by eapply consistency_collision_full|].
  assert (is_slice old) as Hlo by (unfold is_slice, len in *; lia).
  assert (len old ≠ len l) as Hlt' by (unfold len; lia).
  apply digest_ext in Hy;
    [|by eapply rebuild_consistency_new_strict|by apply root_wf].
  destruct path as [|last rest _] using rev_ind; [by apply rebuild_consistency_nil in Hr|].
  rewrite length_app in Hf. simpl in Hf. destruct fuel as [|fuel]; [lia|].
  rewrite rebuild_consistency_snoc in Hr by done.
  change (split_point (len l)) with (split_point (N.of_nat (length l))) in Hr.
  rewrite split_len_point in Hr by (done || lia). simpl in Hr.
  destruct (N.leb_spec (len old) (N.of_nat (split_len (length l)))) as [Hle|Hgt];
    unfold len in Hle || unfold len in Hgt;
    (destruct (rebuild_consistency _ _ _ _ _ _) as [[[x' y']|]|] eqn:Hr'; [|done..]);
    injection Hr as <- <-.
  - cbn [consistency_collision_fuel]. rewrite split_last_snoc. cbv zeta.
    rewrite (proj2 (Nat.eqb_neq _ _) Hlt), (proj2 (Nat.leb_le _ _)), Hr' by lia.
    rewrite root_split in Hy by done. case_bool_decide as Hxy; [|by eexists].
    apply (IHt fuel old b seed rest x' y'); auto using Forall_take; [lia|slice_len| | |].
    + by rewrite len_take_le by lia.
    + eapply consistency_collision_left; eauto; apply root_wf; auto using Forall_take with agate.
    + by rewrite take_take, Nat.min_l by lia.
  - eapply consistency_step_right; eauto; [lia..|].
    apply digest_ext; [apply hash_wf|by apply root_wf|done].
Qed.

Lemma consistency_collision_sound new : is_slice new → consistency_sound_at new.
Proof.
  revert new. apply (tree_ind consistency_sound_at); [| |apply consistency_step].
  - intros ? ? ? ? ? ? ? _ Hold. simpl in Hold. lia.
  - intros d fuel old b seed path x y _ Hold. simpl in Hold.
    apply consistency_collision_full; [done|simpl; lia].
Qed.

End Soundness.

(** ** Record-level extractors *)

Definition inclusion_forgery (h : MerkleHasher) (records : list bytes) (record : bytes)
    (proof : InclusionProof) : option (bytes * bytes) :=
  let m := N.to_nat (leaf_index proof) in
  r ← records !! m;
  if bool_decide (leaf h r = leaf h record) then Some (leaf_input r, leaf_input record)
  else inclusion_collision h m (leaf h <$> records) (leaf h record) (ip_path proof).

Definition consistency_forgery (h : MerkleHasher) (old new : list bytes)
    (proof : ConsistencyProof) : option (bytes * bytes) :=
  let ol := leaf h <$> old in
  let nl := leaf h <$> new in
  if bool_decide (ol = take (length ol) nl) then leaves_collision h old new
  else consistency_collision h true (root h ol) ol nl (cp_path proof).

Lemma len_fmap {A B} (f : A → B) l : len (f <$> l) = len l.
Proof. unfold len. by rewrite length_fmap. Qed.

Lemma is_slice_fmap {A B} (f : A → B) l : is_slice l → is_slice (f <$> l).
Proof. unfold is_slice, len. by rewrite length_fmap. Qed.

#[export] Hint Resolve is_slice_fmap : agate.

Lemma leaves_collision_sound h r1 r2 :
  length r1 ≤ length r2 → leaf h <$> r1 = take (length r1) (leaf h <$> r2) →
  r1 ≠ take (length r1) r2 →
  ∃ c, leaves_collision h r1 r2 = Some c ∧ is_collision h c.
Proof.
  revert r2. induction r1 as [|a r1 IH]; intros [|b r2] Hl Heq Hne; simpl in *; [done|done|lia|].
  injection Heq as Hab Heq. case_bool_decide as Hdec.
  - subst b. apply IH; [lia|done|]. congruence.
  - eexists. split; [done|]. split; simpl; [|done]. intros [= ?]. done.
Qed.

(** ** Termination of the verifiers *)

Lemma rebuild_inclusion_returns h fuel m n lf path :
  (n ≤ 2 ^ 63)%N → length path < fuel →
  rebuild_inclusion_fuel h fuel m n lf path ≠ None.
Proof.
  revert m n path. induction fuel as [|fuel IH]; intros m n path Hn Hf; [lia|].
  cbn [rebuild_inclusion_fuel].
  destruct (N.eqb_spec n 0); [done|]. destruct (N.eqb_spec n 1); [done|].
  destruct (split_last path) as [[last rest]|] eqn:Hs; [|done].
  apply split_last_inv in Hs as ->. rewrite length_app in Hf. simpl in Hf.
  destruct (split_point_bounds n) as (i & -> & Hi & _); [lia|]. simpl.
  destruct (m <? 2 ^ i)%N.
  - specialize (IH m (2 ^ i)%N rest). destruct (rebuild_inclusion_fuel _ _ _ _ _ _);
      [done|]. exfalso. apply IH; (done || lia).
  - specialize (IH (m - 2 ^ i)%N (n - 2 ^ i)%N rest).
    destruct (rebuild_inclusion_fuel _ _ _ _ _ _); [done|]. exfalso. apply IH; (done || lia).
Qed.

Lemma rebuild_consistency_returns h fuel m n b seed path :
  (1 ≤ m ≤ n)%N → (n ≤ 2 ^ 63)%N → length path < fuel →
  rebuild_consistency_fuel h fuel m n b seed path ≠ None.
Proof.
  revert m n b path. induction fuel as [|fuel IH]; intros m n b path Hm Hn Hf; [lia|].
  cbn [rebuild_consistency_fuel]. destruct (N.eqb_spec m n); [done|].
  destruct (split_point_bounds n) as (i & -> & Hi & _); [lia|]. simpl.
  destruct (split_last path) as [[last rest]|] eqn:Hs; [|done].
  apply split_last_inv in Hs as ->. rewrite length_app in Hf. simpl in Hf.
  destruct (N.leb_spec m (2 ^ i)).
  - specialize (IH m (2 ^ i)%N b rest). destruct (rebuild_consistency_fuel _ _ _ _ _ _ _);
      [done|]. exfalso. apply IH; (done || lia).
  - specialize (IH (m - 2 ^ i)%N (n - 2 ^ i)%N false rest).
    destruct (rebuild_consistency_fuel _ _ _ _ _ _ _); [done|]. exfalso. apply IH; (done || lia).
Qed.

(** ** Generated proofs verify, at one index and at one size *)

Lemma inclusion_at h leaves i lf :
  is_slice leaves → leaves !! N.to_nat i = Some lf →
  ∃ proof, inclusion h leaves i = Some proof ∧
    leaf_index proof = i ∧ tree_size proof = len leaves ∧
    verify_inclusion h proof lf (root h leaves) = Some true.
Proof.
  intros Hs Hi. unfold inclusion. apply lookup_lt_Some in Hi as Hlt.
  destruct (N.leb_spec (len leaves) i); [unfold len in *; lia|].
  eexists. split_and!; [done..|]. unfold verify_inclusion. simpl.
  destruct (N.leb_spec (len leaves) i); [lia|].
  pose proof (rebuild_audit_path h leaves Hs _ _ Hi) as Hr. rewrite N2Nat.id in Hr.
  rewrite Hr. simpl. by rewrite bool_decide_eq_true_2.
Qed.

Lemma consistency_at h leaves m :
  is_slice leaves → (1 ≤ m ≤ len leaves)%N →
  ∃ proof, consistency h leaves m = Some proof ∧
    first_size proof = m ∧ second_size proof = len leaves ∧
    verify_consistency h proof (root h (take (N.to_nat m) leaves)) (root h leaves) = Some true.
Proof.
  intros Hs Hm. unfold consistency. cbv zeta.
  destruct (N.eqb_spec m 0), (N.ltb_spec (len leaves) m); try lia.
  eexists. split_and!; [done..|]. unfold verify_consistency. simpl.
  destruct (N.ltb_spec (len leaves) m); [lia|].
  destruct (N.eqb_spec m (len leaves)) as [->|Hne].
  - unfold len. rewrite Nat2N.id, take_ge by lia. by rewrite bool_decide_eq_true_2.
  - destruct (N.eqb_spec m 0); [lia|].
    pose proof (rebuild_subproof h leaves Hs (N.to_nat m) true
      (root h (take (N.to_nat m) leaves))) as Hr.
    rewrite N2Nat.id in Hr. rewrite Hr by (unfold len in *; done || lia). simpl.
    by rewrite !bool_decide_eq_true_2.
Qed.

(** ** Properties *)

(** C6: an inclusion proof that verifies for a record at an index of a log of
    the proof's size proves that the record is there; if it is not, the extractor
    computes two different byte strings with the same digest. *)
Theorem inclusion_sound h L `{!HasherOk h L} records record proof :
  is_slice records → tree_size proof = len records →
  verify_inclusion h proof (leaf h record) (root h (leaf h <$> records)) = Some true →
  records !! N.to_nat (leaf_index proof) = Some record ∨
  ∃ c, inclusion_forgery h records record proof = Some c ∧ is_collision h c.
Proof.
  intros Hs Hn Hv. unfold verify_inclusion in Hv. rewrite Hn in Hv.
  destruct (N.leb_spec (len records) (leaf_index proof)) as [|Hm]; [done|].
  destruct (rebuild_inclusion _ _ _ _ _) as [[d|]|] eqn:Hr; [|done..].
  injection Hv as ->%bool_decide_eq_true. unfold inclusion_forgery. cbv zeta.
  destruct (lookup_lt_is_Some_2 records (N.to_nat (leaf_index proof))) as [r Hr0];
    [unfold len in Hm; lia|]. rewrite Hr0. simpl.
  destruct (decide (r = record)) as [->|Hne]; [by left|]. right.
  case_bool_decide as Hl.
  - eexists. split; [done|]. split; simpl; [by intros [= ?]|done].
  - apply (inclusion_collision_sound h L); auto using leaves_wf with agate.
    + rewrite length_fmap. unfold len in Hm. lia.
    + by apply hash_wf.
    + by rewrite len_fmap, N2Nat.id.
    + rewrite list_lookup_fmap, Hr0. simpl. congruence.
Qed.

(** C7: a consistency proof that verifies between the root of [old] and the root
    of [new] proves that [old] is a prefix of [new]; if it is not, the extractor
    computes two different byte strings with the same digest.  The digests of
    the path are arbitrary. *)
Theorem consistency_sound h L `{!HasherOk h L} old new proof :
  is_slice new → first_size proof = len old → second_size proof = len new →
  verify_consistency h proof (root h (leaf h <$> old)) (root h (leaf h <$> new)) = Some true →
  old = take (length old) new ∨
  ∃ c, consistency_forgery h old new proof = Some c ∧ is_collision h c.
Proof.
  intros Hs Ho Hn Hv. unfold verify_consistency in Hv. rewrite Ho, Hn in Hv.
  destruct (N.ltb_spec (len new) (len old)) as [|Hle]; [done|].
  destruct (decide (old = take (length old) new)) as [|Hne]; [by left|]. right.
  unfold consistency_forgery. cbv zeta.
  destruct (decide (leaf h <$> old = take (length (leaf h <$> old)) (leaf h <$> new)))
    as [Hl|Hl]; [rewrite (bool_decide_eq_true_2 _ Hl)|rewrite (bool_decide_eq_false_2 _ Hl)].
  { apply leaves_collision_sound; [unfold len in Hle; lia| |done].
    by rewrite length_fmap in Hl. }
  unfold consistency_collision.
  assert (1 ≤ length old) as Hpos by (destruct old; [done|simpl; lia]).
  assert (∃ x y, rebuild_consistency h (len (leaf h <$> old)) (len (leaf h <$> new)) true
      (root h (leaf h <$> old)) (cp_path proof) = Some (Some (x, y)) ∧
      x = root h (leaf h <$> old) ∧ y = root h (leaf h <$> new)) as (x & y & Hr & -> & ->).
  { unfold len in *. rewrite !length_fmap.
    destruct (N.eqb_spec (N.of_nat (length old)) (N.of_nat (length new))) as [E|].
    - destruct (cp_path proof); [|done]. injection Hv as Hv%bool_decide_eq_true.
      rewrite E, rebuild_consistency_full. naive_solver.
    - destruct (N.eqb_spec (N.of_nat (length old)) 0); [lia|].
      destruct (rebuild_consistency _ _ _ _ _ _) as [[[x y]|]|]; [|done..].
      injection Hv as [?%bool_decide_eq_true ?%bool_decide_eq_true]%andb_true_iff. eauto. }
  eapply (consistency_collision_sound h L); eauto using leaves_wf with agate.
  rewrite !length_fmap. unfold len in Hle. lia.
Qed.

(** The proof generated for any index inside the tree verifies against the
    leaf at that index and the root; outside the tree no proof is generated. *)
Theorem inclusion_complete h leaves i :
  is_slice leaves →
  match leaves !! N.to_nat i with
  | Some lf => ∃ proof, inclusion h leaves i = Some proof ∧
                 leaf_index proof = i ∧ tree_size proof = len leaves ∧
                 verify_inclusion h proof lf (root h leaves) = Some true
  | None => inclusion h leaves i = None
  end.
Proof.
  intros Hs. destruct (leaves !! N.to_nat i) as [lf|] eqn:Hi; [by apply inclusion_at|].
  unfold inclusion. apply lookup_ge_None in Hi.
  destruct (N.leb_spec (len leaves) i); [done|]. unfold len in *. lia.
Qed.

(** For every earlier size [1 ≤ m ≤ n] the generated consistency proof
    verifies between the root of the first [m] leaves and the root of all; for
    size 0 and for sizes beyond the tree none is generated. *)
Theorem consistency_complete h leaves m :
  is_slice leaves →
  if (1 <=? m)%N && (m <=? len leaves)%N then
    ∃ proof, consistency h leaves m = Some proof ∧
      first_size proof = m ∧ second_size proof = len leaves ∧
      verify_consistency h proof (root h (take (N.to_nat m) leaves)) (root h leaves) = Some true
  else consistency h leaves m = None.
Proof.
  intros Hs. destruct (N.leb_spec 1 m), (N.leb_spec m (len leaves)); simpl;
    [by apply consistency_at|..]; unfold consistency; cbv zeta;
    destruct (N.eqb_spec m 0), (N.ltb_spec (len leaves) m); (done || lia).
Qed.

(** [split_point] returns exactly for sizes up to [2^63], and then it is the
    largest power of two below the size; for larger sizes its loop never exits,
    whatever the number of iterations. *)
Theorem split_point_spec n :
  (2 ≤ n)%N →
  ((n ≤ 2 ^ 63)%N → ∃ i, split_point n = Some (2 ^ i)%N ∧
     (2 ^ i < n)%N ∧ ∀ j, (2 ^ j < n)%N → (j ≤ i)%N) ∧
  ((2 ^ 63 < n)%N → ∀ fuel, split_loop fuel 1 n = None).
Proof.
  intros H2. split.
  - intros Hn. destruct (split_point_bounds n) as (i & Hi & Hlt & Hle); [done|].
    exists i. split_and!; [done..|]. intros j Hj.
    assert (2 ^ j < 2 ^ (i + 1))%N as Hji%N.pow_lt_mono_r_iff by lia; lia.
  - intros Hn fuel. apply split_loop_stuck; [done|]. right. by exists 0%N.
Qed.

(** The inclusion verifier returns for every proof except one whose claimed
    tree size exceeds [2^63] and whose path is not empty, where it hangs. *)
Theorem verify_inclusion_returns_iff h proof lf rt :
  verify_inclusion h proof lf rt = None ↔
  (leaf_index proof < tree_size proof)%N ∧ (2 ^ 63 < tree_size proof)%N ∧ ip_path proof ≠ [].
Proof.
  unfold verify_inclusion.
  destruct (N.leb_spec (tree_size proof) (leaf_index proof)) as [|Hm]; [split; [done|lia]|].
  destruct (N.leb_spec (tree_size proof) (2 ^ 63)) as [Hn|Hn].
  - pose proof (rebuild_inclusion_returns h (S (length (ip_path proof))) (leaf_index proof)
      (tree_size proof) lf (ip_path proof) Hn) as Hr.
    unfold rebuild_inclusion. destruct (rebuild_inclusion_fuel _ _ _ _ _ _).
    + split; [done|]. lia.
    + exfalso. apply Hr; [lia|done].
  - destruct (ip_path proof) as [|last rest _] using rev_ind.
    + unfold rebuild_inclusion. cbn [length rebuild_inclusion_fuel].
      destruct (N.eqb_spec (tree_size proof) 0); [lia|].
      destruct (N.eqb_spec (tree_size proof) 1); [lia|]. simpl.
      split; [done|]. by intros (_ & _ & ?).
    + rewrite rebuild_inclusion_snoc, split_point_stuck by lia. simpl.
      split; [|done]. intros _. split_and!; [done..|]. by destruct rest.
Qed.

(** ** Witnesses: three records under the SHA-256 slot of the concrete backend *)

Definition demo_hasher : MerkleHasher := DigestHasher ToyBackend.backend Sha256.
Definition demo_records : list bytes := [lit "a"; lit "b"; lit "c"].
Definition demo_leaves : list Digest := leaf demo_hasher <$> demo_records.

Lemma inclusion_sound_witness :
  demo_records !! 1 = Some (lit "b") ∨
  ∃ c, inclusion_forgery demo_hasher demo_records (lit "b")
         (mkInclusionProof 1 3 (audit_path demo_hasher 1 demo_leaves)) = Some c
       ∧ is_collision demo_hasher c.
Proof.
  apply (inclusion_sound demo_hasher 32 demo_records (lit "b")
           (mkInclusionProof 1 3 (audit_path demo_hasher 1 demo_leaves)));
    [vm_compute; discriminate|reflexivity|vm_compute; reflexivity].
Defined.

Lemma consistency_sound_witness :
  take 2 demo_records = take 2 demo_records ∨
  ∃ c, consistency_forgery demo_hasher (take 2 demo_records) demo_records
         (mkConsistencyProof 2 3 (subproof demo_hasher 2 demo_leaves true)) = Some c
       ∧ is_collision demo_hasher c.
Proof.
  apply (consistency_sound demo_hasher 32 (take 2 demo_records) demo_records
           (mkConsistencyProof 2 3 (subproof demo_hasher 2 demo_leaves true)));
    [vm_compute; discriminate|reflexivity|reflexivity|vm_compute; reflexivity].
Defined.

Lemma inclusion_complete_witness :
  ∃ proof, inclusion demo_hasher demo_leaves 2 = Some proof ∧
    leaf_index proof = 2%N ∧ tree_size proof = 3%N ∧
    verify_inclusion demo_hasher proof (leaf demo_hasher (lit "c"))
      (root demo_hasher demo_leaves) = Some true.
Proof. apply (inclusion_complete demo_hasher demo_leaves 2). vm_compute. discriminate. Defined.

Lemma consistency_complete_witness :
  ∃ proof, consistency demo_hasher demo_leaves 2 = Some proof ∧
    first_size proof = 2%N ∧ second_size proof = 3%N ∧
    verify_consistency demo_hasher proof (root demo_hasher (take 2 demo_leaves))
      (root demo_hasher demo_leaves) = Some true.
Proof. apply (consistency_complete demo_hasher demo_leaves 2). vm_compute. discriminate. Defined.

Lemma split_point_spec_witness :
  (∃ i, split_point 7 = Some (2 ^ i)%N ∧ (2 ^ i < 7)%N ∧ ∀ j, (2 ^ j < 7)%N → (j ≤ i)%N) ∧
  (∀ fuel, split_loop fuel 1 (2 ^ 63 + 1) = None).
Proof.
  split.
  - apply (split_point_spec 7); vm_compute; discriminate.
  - apply (split_point_spec (2 ^ 63 + 1)); vm_compute; [discriminate|reflexivity].
Defined.
