(* ===== verification/TransparencyLog.v ===== *)
(** * TransparencyLog: the audit aggregate
    (crates/agate-audit/src/domain: merkle/entities, merkle/values,
    merkle/factories, checkpoint signer and verifier, common/values,
    common/events)

    The aggregate is a record with its leaves and its buffer of pending events.
    A [jiff::Timestamp] is its number of nanoseconds since the epoch; the two
    conversions the code calls are the class [Jiff]. *)
From stdpp Require Import options.
From S2P Require Import Prelude Crypto Merkle.

(** ** Time *)

Definition Timestamp := Z.

Class Jiff := {
  from_millisecond : Z → result bytes Timestamp;
  as_millisecond : Timestamp → Z;
}.

(** Documented behaviour: whole milliseconds come back, the order is kept, and
    the milliseconds of an instant fit an [i64]. *)
Class JiffLaws (J : Jiff) : Prop := {
  millisecond_roundtrip : ∀ m t, from_millisecond m = Ok t → as_millisecond t = m;
  millisecond_mono : ∀ t t', (t ≤ t')%Z → (as_millisecond t ≤ as_millisecond t')%Z;
  millisecond_i64 : ∀ t, (- 2 ^ 63 ≤ as_millisecond t < 2 ^ 63)%Z;
}.

Inductive TimeError := InconsistentTime (created_at updated_at : Z).

Inductive DomainError :=
| Field (msg : bytes)
| Time (e : TimeError).

Record Timestamps := mkTimestamps { created_at : Timestamp; updated_at : Timestamp }.

(** ** Values *)

Definition LogId := N.

Record TreeHead := mkTreeHead { head_size : N; head_root : Digest; head_at : Timestamp }.

Record SignedTreeHead := mkSignedTreeHead { sth_head : TreeHead; sth_signature : Signature }.

Inductive AuditEvent :=
| RecordAppended (index : N) (lf : Digest)
| CheckpointIssued (hd : TreeHead).

Definition event_type (e : AuditEvent) : bytes :=
  match e with
  | RecordAppended _ _ => lit "audit.record_appended"
  | CheckpointIssued _ => lit "audit.checkpoint_issued"
  end.

(** ** EventCollection *)

Definition EventCollection (E : Type) := list E.

Definition events_record {E} (c : EventCollection E) (e : E) : EventCollection E := c ++ [e].

(** [pull] drains the buffer. *)
Definition events_pull {E} (c : EventCollection E) : list E * EventCollection E := (c, []).

Section WithTime.
Context `{J : Jiff}.

Definition Timestamp_from_millis (millis : Z) : result DomainError Timestamp :=
  map_err (λ err, Field (lit "invalid timestamp: " ++ err)) (from_millisecond millis).

Definition as_millis (t : Timestamp) : Z := as_millisecond t.

Definition Timestamps_new (now : Timestamp) : Timestamps := mkTimestamps now now.

Definition Timestamps_reconstitute (c u : Timestamp) : result DomainError Timestamps :=
  if (u <? c)%Z then Err (Time (InconsistentTime (as_millis c) (as_millis u)))
  else Ok (mkTimestamps c u).

Definition touched (ts : Timestamps) (now : Timestamp) : result DomainError Timestamps :=
  if (now <? created_at ts)%Z
  then Err (Time (InconsistentTime (as_millis (created_at ts)) (as_millis now)))
  else Ok (mkTimestamps (created_at ts) now).

(** [size (BE u64) ‖ hash-algo code ‖ root bytes ‖ timestamp (BE i64)]. *)
Definition to_canonical_bytes (hd : TreeHead) : bytes :=
  be_bytes 8 (head_size hd)
  ++ [byte_of_N (HashAlgo_code (digest_algo (head_root hd)))]
  ++ digest_bytes (head_root hd)
  ++ be_bytes_i64 (as_millis (head_at hd)).

Definition CheckpointSigner_sign (signer : Signer) (hd : TreeHead) : SignedTreeHead :=
  mkSignedTreeHead hd (signer_sign signer (to_canonical_bytes hd)).

Definition CheckpointVerifier_verify (verifier : Verifier) (sth : SignedTreeHead) : bool :=
  verifier_verify verifier (to_canonical_bytes (sth_head sth)) (sth_signature sth).

End WithTime.

(** ** The aggregate *)

Record TransparencyLog := mkLog {
  log_id : LogId;
  log_timestamps : Timestamps;
  log_hasher : MerkleHasher;
  log_leaves : list Digest;
  log_events : EventCollection AuditEvent;
}.

Definition TransparencyLog_new (id : LogId) (ts : Timestamps) (h : MerkleHasher)
    (events : EventCollection AuditEvent) : TransparencyLog := mkLog id ts h [] events.

Definition TransparencyLog_reconstitute (id : LogId) (ts : Timestamps) (h : MerkleHasher)
    (leaves : list Digest) (events : EventCollection AuditEvent) : TransparencyLog :=
  mkLog id ts h leaves events.

Definition log_algo (l : TransparencyLog) : HashAlgo := hasher_algo (log_hasher l).

Definition log_size (l : TransparencyLog) : N := len (log_leaves l).

Definition log_append (l : TransparencyLog) (record : bytes) : N * TransparencyLog :=
  let index := len (log_leaves l) in
  let lf := leaf (log_hasher l) record in
  (index,
   mkLog (log_id l) (log_timestamps l) (log_hasher l) (log_leaves l ++ [lf])
         (events_record (log_events l) (RecordAppended index lf))).

Definition log_root (l : TransparencyLog) : Digest := root (log_hasher l) (log_leaves l).

Definition log_head (l : TransparencyLog) (at_ : Timestamp) : TreeHead :=
  mkTreeHead (log_size l) (log_root l) at_.

Definition log_issue_checkpoint (l : TransparencyLog) (at_ : Timestamp)
    : TreeHead * TransparencyLog :=
  let hd := log_head l at_ in
  (hd, mkLog (log_id l) (log_timestamps l) (log_hasher l) (log_leaves l)
             (events_record (log_events l) (CheckpointIssued hd))).

Definition prove_inclusion (l : TransparencyLog) (index : N) : option InclusionProof :=
  inclusion (log_hasher l) (log_leaves l) index.

Definition prove_consistency (l : TransparencyLog) (first : N) : option ConsistencyProof :=
  consistency (log_hasher l) (log_leaves l) first.

(** [AggregateRoot::pull_events]. *)
Definition pull_events (l : TransparencyLog) : list AuditEvent * TransparencyLog :=
  let '(es, rest) := events_pull (log_events l) in
  (es, mkLog (log_id l) (log_timestamps l) (log_hasher l) (log_leaves l) rest).

(** ** TransparencyLogFactory *)

Definition factory_merkle_hasher (hasher : Hasher) : MerkleHasher := hasher.

Definition factory_create (hasher : Hasher) (id : LogId) (now : Timestamp) : TransparencyLog :=
  TransparencyLog_new id (Timestamps_new now) hasher [].

Definition factory_reconstitute (hasher : Hasher) (id : LogId) (ts : Timestamps)
    (leaves : list Digest) : TransparencyLog :=
  TransparencyLog_reconstitute id ts hasher leaves [].

(** ** Histories of the aggregate *)

(** The commands a caller can issue, and what each returns. *)
Inductive log_op :=
| OpAppend (record : bytes)
| OpCheckpoint (at_ : Timestamp)
| OpPull.

Inductive log_out :=
| OutIndex (i : N)
| OutHead (hd : TreeHead)
| OutEvents (es : list AuditEvent).

Definition log_apply (l : TransparencyLog) (op : log_op) : log_out * TransparencyLog :=
  match op with
  | OpAppend r => let '(i, l') := log_append l r in (OutIndex i, l')
  | OpCheckpoint t => let '(hd, l') := log_issue_checkpoint l t in (OutHead hd, l')
  | OpPull => let '(es, l') := pull_events l in (OutEvents es, l')
  end.

Fixpoint log_run (l : TransparencyLog) (ops : list log_op) : list log_out * TransparencyLog :=
  match ops with
  | [] => ([], l)
  | op :: ops' =>
      let '(o, l1) := log_apply l op in
      let '(os, l2) := log_run l1 ops' in
      (o :: os, l2)
  end.

(** The records a history appends, in order. *)
Definition appended (ops : list log_op) : list bytes :=
  omap (λ op, match op with OpAppend r => Some r | _ => None end) ops.

(** The events the outputs of a history handed out, in order. *)
Definition handed_out (os : list log_out) : list AuditEvent :=
  concat (map (λ o, match o with OutEvents es => es | _ => [] end) os).

(** The event each command of a history is to produce. *)
Fixpoint expected_events (l : TransparencyLog) (ops : list log_op) : list AuditEvent :=
  match ops with
  | [] => []
  | op :: ops' =>
      match op with
      | OpAppend r => [RecordAppended (log_size l) (leaf (log_hasher l) r)]
      | OpCheckpoint t => [CheckpointIssued (log_head l t)]
      | OpPull => []
      end ++ expected_events (log_apply l op).2 ops'
  end.

(** ** Lemmas *)

Lemma log_apply_facts l op :
  let l' := (log_apply l op).2 in
  log_hasher l' = log_hasher l ∧ log_id l' = log_id l ∧
  log_timestamps l' = log_timestamps l ∧
  log_leaves l' = log_leaves l ++ (leaf (log_hasher l) <$> appended [op]).
Proof. destruct op; simpl; rewrite ?app_nil_r; done. Qed.

Lemma log_run_facts ops l os l' :
  log_run l ops = (os, l') →
  log_hasher l' = log_hasher l ∧ log_id l' = log_id l ∧
  log_timestamps l' = log_timestamps l ∧
  log_leaves l' = log_leaves l ++ (leaf (log_hasher l) <$> appended ops).
Proof.
  revert l os l'. induction ops as [|op ops IH]; intros l os l' H; simpl in H.
  - injection H as <- <-. by rewrite app_nil_r.
  - pose proof (log_apply_facts l op) as (Hh & Hi & Ht & Hl).
    destruct (log_apply l op) as [o l1]. simpl in *.
    destruct (log_run l1 ops) as [os1 l2] eqn:E. injection H as <- <-.
    apply IH in E as (-> & -> & -> & ->). rewrite Hh, Hl. split_and!; [done..|].
    rewrite <- app_assoc, <- fmap_app. by destruct op.
Qed.

Lemma log_run_prefix ops l os l' :
  log_run l ops = (os, l') → take (length (log_leaves l)) (log_leaves l') = log_leaves l.
Proof. intros (_ & _ & _ & ->)%log_run_facts. apply take_app_length. Qed.

(** Two's complement of an [i64], read as a [u64]. *)
Lemma i64_as_u64 a :
  (- 2 ^ 63 ≤ a < 2 ^ 63)%Z →
  (0 ≤ a `mod` 2 ^ 64 < 2 ^ 64)%Z ∧
  (a `mod` 2 ^ 64 = if (a <? 0)%Z then a + 2 ^ 64 else a)%Z.
Proof.
  intros Ha. split; [apply Z.mod_pos_bound; lia|].
  destruct (Z.ltb_spec a 0); symmetry.
  - apply (Z.mod_unique_pos a (2 ^ 64) (-1)); lia.
  - apply (Z.mod_unique_pos a (2 ^ 64) 0); lia.
Qed.

Lemma be_bytes_i64_inj a b :
  (- 2 ^ 63 ≤ a < 2 ^ 63)%Z → (- 2 ^ 63 ≤ b < 2 ^ 63)%Z →
  be_bytes_i64 a = be_bytes_i64 b → a = b.
Proof.
  intros Ha Hb H. unfold be_bytes_i64 in H.
  pose proof (i64_as_u64 a Ha) as [? Hma]. pose proof (i64_as_u64 b Hb) as [? Hmb].
  apply be_bytes_inj in H; [|change (256 ^ N.of_nat 8)%N with (2 ^ 64)%N; lia..].
  apply Z2N.inj in H; [|lia..].
  destruct (Z.ltb_spec a 0), (Z.ltb_spec b 0); lia.
Qed.

Lemma HashAlgo_code_inj a b : HashAlgo_code a = HashAlgo_code b → a = b.
Proof. by destruct a, b. Qed.

Lemma HashAlgo_code_bound a : (HashAlgo_code a < 256)%N.
Proof. by destruct a. Qed.

(** ** Properties *)

(** C16: the log is append-only through any history of commands: the leaves only
    grow, by the leaf hashes of the appended records in order, and for every
    earlier non-empty state the consistency proof of the later state verifies
    between the two roots. *)
Theorem log_append_only ops l os l' :
  log_run l ops = (os, l') → is_slice (log_leaves l') →
  log_leaves l' = log_leaves l ++ (leaf (log_hasher l) <$> appended ops) ∧
  ((1 ≤ log_size l)%N →
   ∃ proof, prove_consistency l' (log_size l) = Some proof ∧
     verify_consistency (log_hasher l') proof (log_root l) (log_root l') = Some true).
Proof.
  intros Hrun Hs. pose proof (log_run_facts _ _ _ _ Hrun) as (Hh & _ & _ & Hl).
  split; [done|]. intros H1.
  pose proof (consistency_at (log_hasher l') (log_leaves l') (log_size l) Hs) as Hc.
  destruct Hc as (proof & Hp & _ & _ & Hv).
  { unfold log_size. rewrite Hl, len_app. unfold log_size in H1. lia. }
  exists proof. split; [done|]. unfold log_root, log_size, len in *.
  rewrite Nat2N.id, (log_run_prefix _ _ _ _ Hrun) in Hv. by rewrite Hh in *.
Qed.

(** The index returned by [append] is the size before it, and in every later
    state of the log the inclusion proof for that index verifies for the leaf of
    that record. *)
Theorem append_index_provable l record i l1 ops os l' :
  log_append l record = (i, l1) → log_run l1 ops = (os, l') → is_slice (log_leaves l') →
  i = log_size l ∧ log_size l1 = (log_size l + 1)%N ∧
  ∃ proof, prove_inclusion l' i = Some proof ∧
    verify_inclusion (log_hasher l) proof (leaf (log_hasher l) record) (log_root l') = Some true.
Proof.
  intros Ha Hrun Hs. injection Ha as <- <-.
  pose proof (log_run_facts _ _ _ _ Hrun) as (Hh & _ & _ & Hl). simpl in *.
  split; [done|]. split; [unfold log_size; simpl; rewrite len_app; done|].
  pose proof (inclusion_at (log_hasher l') (log_leaves l') (log_size l)
    (leaf (log_hasher l) record) Hs) as Hi.
  destruct Hi as (proof & Hp & _ & _ & Hv).
  { unfold log_size, len. rewrite Nat2N.id, Hl, <- app_assoc.
    by rewrite lookup_app_r, Nat.sub_diag by lia. }
  exists proof. split; [done|]. unfold log_root. by rewrite Hh in *.
Qed.

(** No domain event is lost, duplicated or reordered: what a history pulled
    followed by what is still pending is what was pending before followed by one
    event per append and per checkpoint. *)
Theorem events_exactly_once ops l os l' :
  log_run l ops = (os, l') →
  handed_out os ++ log_events l' = log_events l ++ expected_events l ops.
Proof.
  revert l os l'. induction ops as [|op ops IH]; intros l os l' H; simpl in H.
  - injection H as <- <-. by rewrite app_nil_r.
  - destruct (log_apply l op) as [o l1] eqn:Ha.
    destruct (log_run l1 ops) as [os1 l2] eqn:E. injection H as <- <-.
    apply IH in E. cbn [expected_events handed_out map concat]. rewrite Ha.
    fold (handed_out os1). destruct op; simpl in Ha; injection Ha as <- <-; simpl in *.
    + rewrite E. unfold events_record. by rewrite <- app_assoc.
    + rewrite E. unfold events_record. by rewrite <- app_assoc.
    + by rewrite <- app_assoc, E.
Qed.

(** The canonical bytes that are signed determine the size, the root
    (algorithm and bytes) and the millisecond timestamp of a tree head. *)
Theorem to_canonical_bytes_inj `{J : Jiff} `{!JiffLaws J} h1 h2 :
  (head_size h1 < 2 ^ 64)%N → (head_size h2 < 2 ^ 64)%N →
  to_canonical_bytes h1 = to_canonical_bytes h2 →
  head_size h1 = head_size h2 ∧ head_root h1 = head_root h2 ∧
  as_millis (head_at h1) = as_millis (head_at h2).
Proof.
  intros H1 H2 H. unfold to_canonical_bytes in H.
  apply app_eq_length_inv in H as [Hsize H]; [|by rewrite !be_bytes_length].
  apply be_bytes_inj in Hsize; [|done..].
  simpl in H. injection H as Halgo H.
  apply app_eq_length_inv_r in H as [Hroot Hat]; [|unfold be_bytes_i64; by rewrite !be_bytes_length].
  apply byte_of_N_inj, HashAlgo_code_inj in Halgo; [|apply HashAlgo_code_bound..].
  apply be_bytes_i64_inj in Hat; [|apply millisecond_i64..].
  split_and!; [done| |done]. destruct (head_root h1), (head_root h2). simpl in *. congruence.
Qed.

(** A checkpoint signed with an Ed25519 signer verifies under the public key
    of its seed, and a verifier never accepts one whose signature names another
    algorithm or is not 64 bytes long. *)
Theorem checkpoint_sign_verify `{J : Jiff} B `{!BackendLaws B} seed key_id hd sth :
  length seed = 32 →
  ∃ v, Ed25519_from_public_bytes B (dalek_public B seed) = Ok v ∧
    CheckpointVerifier_verify v (CheckpointSigner_sign (Ed25519Signer B seed key_id) hd) = true ∧
    (CheckpointVerifier_verify v sth = true →
     sig_algo (sth_signature sth) = Ed25519 ∧ length (sig_bytes (sth_signature sth)) = 64).
Proof.
  intros Hs. destruct (dalek_public_decodes seed Hs) as (k & Hk & Hv).
  unfold Ed25519_from_public_bytes. rewrite Hk. eexists. split_and!; [done| |].
  - by apply Ed25519_verify_signed.
  - apply Ed25519_verify_guards.
Qed.

(** Lifecycle timestamps keep [created_at <= updated_at], and rebuilding or
    touching them fails exactly when that order would be broken. *)
Theorem timestamps_ordered `{J : Jiff} :
  (∀ now, (created_at (Timestamps_new now) ≤ updated_at (Timestamps_new now))%Z) ∧
  (∀ c u, match Timestamps_reconstitute c u with
          | Ok ts => created_at ts = c ∧ updated_at ts = u ∧ (c ≤ u)%Z
          | Err e => (u < c)%Z ∧ e = Time (InconsistentTime (as_millis c) (as_millis u))
          end) ∧
  (∀ ts now, match touched ts now with
             | Ok ts' => created_at ts' = created_at ts ∧ updated_at ts' = now ∧
                         (created_at ts' ≤ updated_at ts')%Z
             | Err _ => (now < created_at ts)%Z
             end).
Proof.
  split_and!.
  - intros now. simpl. lia.
  - intros c u. unfold Timestamps_reconstitute. destruct (Z.ltb_spec u c); simpl; auto with lia.
  - intros ts now. unfold touched. destruct (Z.ltb_spec now (created_at ts)); simpl; auto with lia.
Qed.

(** ** Witnesses *)

(** A clock library with millisecond precision over the range of an [i64]. *)
#[local] Instance demo_jiff : Jiff := {|
  from_millisecond m := if (- 2 ^ 63 <=? m)%Z && (m <? 2 ^ 63)%Z then Ok m else Err (lit "range");
  as_millisecond t := Z.max (- 2 ^ 63) (Z.min t (2 ^ 63 - 1));
|}.

#[local] Instance demo_jiff_laws : JiffLaws demo_jiff.
Proof.
  split; simpl; [|lia..]. intros m t.
  destruct (Z.leb_spec (- 2 ^ 63) m), (Z.ltb_spec m (2 ^ 63)); simpl; intros; simplify_eq; lia.
Qed.

Definition demo_log : TransparencyLog := factory_create demo_hasher 7%N 0%Z.

Definition demo_log1 : TransparencyLog := (log_append demo_log (lit "a")).2.

Definition demo_ops : list log_op := [OpAppend (lit "b"); OpCheckpoint 5%Z; OpPull; OpAppend (lit "c")].

Definition demo_log2 : TransparencyLog := (log_run demo_log1 demo_ops).2.

Lemma log_append_only_witness :
  log_leaves demo_log2 = log_leaves demo_log1 ++ (leaf demo_hasher <$> [lit "b"; lit "c"]) ∧
  ((1 ≤ log_size demo_log1)%N →
   ∃ proof, prove_consistency demo_log2 (log_size demo_log1) = Some proof ∧
     verify_consistency demo_hasher proof (log_root demo_log1) (log_root demo_log2) = Some true).
Proof.
  apply (log_append_only demo_ops demo_log1 (log_run demo_log1 demo_ops).1 demo_log2);
    [reflexivity|vm_compute; discriminate].
Defined.

Lemma append_index_provable_witness :
  (0%N = log_size demo_log) ∧ log_size demo_log1 = (log_size demo_log + 1)%N ∧
  ∃ proof, prove_inclusion demo_log2 0 = Some proof ∧
    verify_inclusion demo_hasher proof (leaf demo_hasher (lit "a")) (log_root demo_log2)
      = Some true.
Proof.
  apply (append_index_provable demo_log (lit "a") 0 demo_log1 demo_ops
           (log_run demo_log1 demo_ops).1 demo_log2);
    [reflexivity|reflexivity|vm_compute; discriminate].
Defined.

Lemma events_exactly_once_witness :
  handed_out (log_run demo_log1 demo_ops).1 ++ log_events demo_log2 =
  log_events demo_log1 ++ expected_events demo_log1 demo_ops.
Proof. apply events_exactly_once. reflexivity. Defined.

Definition demo_head : TreeHead := mkTreeHead 3 (root demo_hasher demo_leaves) (2 ^ 63)%Z.

(** The same head a moment later, in the same millisecond of the library. *)
Definition demo_head' : TreeHead := mkTreeHead 3 (root demo_hasher demo_leaves) (2 ^ 63 + 5)%Z.

Lemma to_canonical_bytes_inj_witness :
  head_size demo_head = head_size demo_head' ∧ head_root demo_head = head_root demo_head' ∧
  as_millis (head_at demo_head) = as_millis (head_at demo_head').
Proof. apply to_canonical_bytes_inj; reflexivity. Defined.

Lemma checkpoint_sign_verify_witness :
  ∃ v, Ed25519_from_public_bytes ToyBackend.backend
         (dalek_public ToyBackend.backend (ToyBackend.zeros 32)) = Ok v ∧
    CheckpointVerifier_verify v (CheckpointSigner_sign
      (Ed25519Signer ToyBackend.backend (ToyBackend.zeros 32) (lit "k")) demo_head) = true ∧
    (CheckpointVerifier_verify v (mkSignedTreeHead demo_head (mkSignature Ed25519 [] [])) = true →
     Ed25519 = Ed25519 ∧ 0 = 64).
Proof.
  apply (checkpoint_sign_verify ToyBackend.backend (ToyBackend.zeros 32) (lit "k") demo_head
           (mkSignedTreeHead demo_head (mkSignature Ed25519 [] []))). reflexivity.
Defined.
