(* ===== verification/AuditStore.v ===== *)
(** * AuditStore: persistence of the audit context
    (crates/agate-audit/src: infrastructure/persistence, application/errors,
    application/common/query_models)

    The three tables are lists of rows with the keys of the migrations; the SQL
    statements of the gateways are functions on them.  PostgreSQL and sqlx are
    third-party: any statement, and the commit, may fail, as an oracle [fault]
    over the number of statements issued decides, and the texts of the errors
    are parameters.  A failed statement aborts the transaction.  Here one
    transaction runs at a time; Concurrent interleaves them. *)
From stdpp Require Import pretty options.
From S2P Require Import Prelude Crypto Merkle TransparencyLog.

(** ** Errors *)

Inductive AuditError :=
| LogNotFound (id : LogId)
| LeafOutOfRange (index size : N)
| SizeOutOfRange (requested current : N)
| KeyNotFound (key : KeyId)
| Domain (e : DomainError)
| Storage (msg : bytes).

(** ** Integer casts *)

(** [n as i64] and [z as u64]. *)
Definition as_i64 (n : N) : Z :=
  let m := Z.of_N (n `mod` 2 ^ 64)%N in
  (if 2 ^ 63 <=? m then m - 2 ^ 64 else m)%Z.
Definition as_u64 (z : Z) : N := Z.to_N (z `mod` 2 ^ 64)%Z.

(** [z as u8] of an [i16]. *)
Definition as_u8 (z : Z) : N := Z.to_N (z `mod` 256)%Z.

(** ** Tables *)

Record LogRow := mkLogRow {
  lr_id : LogId; lr_created : Z; lr_updated : Z; lr_algo : Z;
}.

Record LeafRow := mkLeafRow { lf_log : LogId; lf_index : Z; lf_hash : bytes }.

Record CheckpointRow := mkCheckpointRow {
  cr_log : LogId; cr_size : Z; cr_root_hash : bytes; cr_root_algo : Z;
  cr_issued_at : Z; cr_sig_algo : Z; cr_key_id : bytes; cr_signature : bytes;
}.

Record Tables := mkTables {
  t_logs : list LogRow;
  t_leaves : list LeafRow;
  t_checkpoints : list CheckpointRow;
}.

Definition empty_tables : Tables := mkTables [] [] [].

(** ** The database as the code sees it *)

Record Tx := mkTx { tx_view : Tables; tx_aborted : bool }.

(** [w_slot] is the shared transaction slot of a request scope, [w_ticks] counts
    the statements issued, the last two fields are the append metrics. *)
Record World := mkWorld {
  w_committed : Tables;
  w_slot : option Tx;
  w_ticks : nat;
  w_appended : N;
  w_dropped : N;
}.

(** One more statement issued: the new committed tables and the new slot. *)
Definition step_world (w : World) (c : Tables) (slot : option Tx) : World :=
  mkWorld c slot (S (w_ticks w)) (w_appended w) (w_dropped w).

Record Pg := mkPg {
  fault : nat → option bytes;
  fk_violation : bytes;
  unique_violation : bytes;
  out_of_range : bytes;
  tx_aborted_error : bytes;
}.

Section Store.
Context (pg : Pg).

Definition Op := ST AuditError World.

(** [slot.as_mut().ok_or_else(...)]. *)
Definition connection (missing : bytes) : Op unit := λ w,
  match w_slot w with
  | None => (Err (Storage missing), w)
  | Some _ => (Ok tt, w)
  end.

(** One statement on the open transaction, with [map_err(storage_error)]. *)
Definition statement {A} (run : Tables → result bytes (A * Tables)) : Op A := λ w,
  match w_slot w with
  | None => (Err (Storage []), w)
  | Some tx =>
      let fail e := (Err (Storage e),
        step_world w (w_committed w) (Some (mkTx (tx_view tx) true))) in
      if tx_aborted tx then fail (tx_aborted_error pg)
      else match fault pg (w_ticks w) with
           | Some e => fail e
           | None =>
               match run (tx_view tx) with
               | Err e => fail e
               | Ok (a, t) =>
                   (Ok a, step_world w (w_committed w) (Some (mkTx t false)))
               end
           end
  end.

(** One read on the pool, outside any transaction. *)
Definition pool_read {A} (run : Tables → A) : Op A := λ w,
  let w' := step_world w (w_committed w) (w_slot w) in
  match fault pg (w_ticks w) with
  | Some e => (Err (Storage e), w')
  | None => (Ok (run (w_committed w)), w')
  end.

(** ** SQL *)

Definition log_row (id : LogId) (t : Tables) : option LogRow :=
  List.find (λ r, bool_decide (lr_id r = id)) (t_logs t).

(** Rows of one log. *)
Definition leaf_rows (id : LogId) (t : Tables) : list LeafRow :=
  List.filter (λ r, bool_decide (lf_log r = id)) (t_leaves t).

Definition has_leaf (id : LogId) (index : Z) (t : Tables) : bool :=
  existsb (λ r, bool_decide (lf_index r = index)) (leaf_rows id t).

(** [ORDER BY leaf_index]. *)
Fixpoint insert_by_index (r : LeafRow) (l : list LeafRow) : list LeafRow :=
  match l with
  | [] => [r]
  | x :: l' => if (lf_index r <=? lf_index x)%Z then r :: l else x :: insert_by_index r l'
  end.

Definition order_by_index (l : list LeafRow) : list LeafRow := foldr insert_by_index [] l.

(** [SELECT leaf_hash FROM audit_leaf WHERE log_id = $1 ORDER BY leaf_index]. *)
Definition select_leaf_hashes (id : LogId) (t : Tables) : list bytes :=
  lf_hash <$> order_by_index (leaf_rows id t).

(** [INSERT INTO audit_log ... ON CONFLICT (id) DO UPDATE SET updated_at]. *)
Definition upsert_log (row : LogRow) (t : Tables) : result bytes (unit * Tables) :=
  match log_row (lr_id row) t with
  | Some _ =>
      Ok (tt, mkTables
        (map (λ r, if bool_decide (lr_id r = lr_id row)
                   then mkLogRow (lr_id r) (lr_created r) (lr_updated row) (lr_algo r) else r)
             (t_logs t)) (t_leaves t) (t_checkpoints t))
  | None => Ok (tt, mkTables (t_logs t ++ [row]) (t_leaves t) (t_checkpoints t))
  end.

Definition push_leaf (row : LeafRow) (t : Tables) : result bytes (unit * Tables) :=
  match log_row (lf_log row) t with
  | None => Err (fk_violation pg)
  | Some _ => Ok (tt, mkTables (t_logs t) (t_leaves t ++ [row]) (t_checkpoints t))
  end.

(** [INSERT INTO audit_leaf ... ON CONFLICT DO NOTHING]. *)
Definition insert_leaf_or_ignore (row : LeafRow) (t : Tables) : result bytes (unit * Tables) :=
  if has_leaf (lf_log row) (lf_index row) t then Ok (tt, t) else push_leaf row t.

(** The plain [INSERT INTO audit_leaf]. *)
Definition insert_leaf (row : LeafRow) (t : Tables) : result bytes (unit * Tables) :=
  if has_leaf (lf_log row) (lf_index row) t then Err (unique_violation pg) else push_leaf row t.

(** [SELECT COALESCE(MAX(leaf_index) + 1, 0) FROM audit_leaf WHERE log_id = $1],
    in [BIGINT] arithmetic. *)
Definition select_next_index (id : LogId) (t : Tables) : result bytes (Z * Tables) :=
  match leaf_rows id t with
  | [] => Ok (0%Z, t)
  | r :: rs =>
      let m := foldr Z.max (lf_index r) (lf_index <$> rs) in
      if (m =? 2 ^ 63 - 1)%Z then Err (out_of_range pg) else Ok ((m + 1)%Z, t)
  end.

(** [INSERT INTO audit_checkpoint ... ON CONFLICT (log_id, tree_size) DO NOTHING]. *)
Definition has_checkpoint (id : LogId) (size : Z) (t : Tables) : bool :=
  existsb (λ r, bool_decide (cr_log r = id ∧ cr_size r = size)) (t_checkpoints t).

Definition insert_checkpoint_or_ignore (row : CheckpointRow) (t : Tables)
    : result bytes (unit * Tables) :=
  if has_checkpoint (cr_log row) (cr_size row) t then Ok (tt, t)
  else match log_row (cr_log row) t with
       | None => Err (fk_violation pg)
       | Some _ => Ok (tt, mkTables (t_logs t) (t_leaves t) (t_checkpoints t ++ [row]))
       end.

(** ** PgTransactionManager *)

Definition tx_begin : Op unit := λ w,
  match w_slot w with
  | Some _ => (Err (Storage (lit "transaction already begun")), w)
  | None =>
      match fault pg (w_ticks w) with
      | Some e => (Err (Storage e), step_world w (w_committed w) None)
      | None => (Ok tt, step_world w (w_committed w) (Some (mkTx (w_committed w) false)))
      end
  end.

(** Committing an aborted transaction rolls it back. *)
Definition tx_commit : Op unit := λ w,
  match w_slot w with
  | None => (Err (Storage (lit "commit without an active transaction")), w)
  | Some tx =>
      match fault pg (w_ticks w) with
      | Some e => (Err (Storage e), step_world w (w_committed w) None)
      | None =>
          (Ok tt, step_world w (if tx_aborted tx then w_committed w else tx_view tx) None)
      end
  end.

Definition tx_rollback : Op unit := λ w,
  match w_slot w with
  | None => (Ok tt, w)
  | Some _ =>
      let w' := step_world w (w_committed w) None in
      match fault pg (w_ticks w) with
      | Some e => (Err (Storage e), w')
      | None => (Ok tt, w')
      end
  end.

(** ** PostgresLogCommandGateway *)

Context `{J : Jiff} (factory : Hasher).

Definition domain {A} (r : result DomainError A) : Op A := st_lift (map_err Domain r).

Definition gateway_load (id : LogId) : Op (option TransparencyLog) :=
  _ ← connection (lit "load without an active transaction");
  row ← statement (λ t, Ok (log_row id t, t));
  match row with
  | None => mret None
  | Some row =>
      match HashAlgo_from_code (as_u8 (lr_algo row)) with
      | None => st_err (Storage (lit "unknown hash algo code " ++ lit (pretty (lr_algo row))))
      | Some algo =>
          hashes ← statement (λ t, Ok (select_leaf_hashes id t, t));
          c ← domain (Timestamp_from_millis (lr_created row));
          u ← domain (Timestamp_from_millis (lr_updated row));
          ts ← domain (Timestamps_reconstitute c u);
          mret (Some (factory_reconstitute factory id ts (mkDigest algo <$> hashes)))
      end
  end.

Definition gateway_save (log : TransparencyLog) : Op unit :=
  _ ← connection (lit "save without an active transaction");
  _ ← statement (upsert_log (mkLogRow (log_id log)
        (as_millis (created_at (log_timestamps log)))
        (as_millis (updated_at (log_timestamps log)))
        (Z.of_N (HashAlgo_code (log_algo log)))));
  st_iter (λ '(index, lf), statement (insert_leaf_or_ignore
             (mkLeafRow (log_id log) (as_i64 (N.of_nat index)) (digest_bytes lf))))
          (enumerate (log_leaves log)).

Definition gateway_append_record (id : LogId) (record : bytes) : Op (option N) :=
  _ ← connection (lit "append without an active transaction");
  exists_ ← statement (λ t, Ok (log_row id t, t));
  match exists_ with
  | None => mret None
  | Some _ =>
      next ← statement (select_next_index id);
      let lf := leaf (factory_merkle_hasher factory) record in
      _ ← statement (insert_leaf (mkLeafRow id next (digest_bytes lf)));
      mret (Some (as_u64 next))
  end.

(** ** PostgresCheckpointAnchor *)

Definition anchor (id : LogId) (sth : SignedTreeHead) : Op unit :=
  _ ← connection (lit "anchor without an active transaction");
  let hd := sth_head sth in
  let sg := sth_signature sth in
  statement (insert_checkpoint_or_ignore (mkCheckpointRow id
    (as_i64 (head_size hd)) (digest_bytes (head_root hd))
    (Z.of_N (HashAlgo_code (digest_algo (head_root hd))))
    (as_millis (head_at hd)) (Z.of_N (SignAlgo_code (sig_algo sg)))
    (sig_key_id sg) (sig_bytes sg))).

(** ** PostgresLogQueryGateway *)

Record InclusionProofView := mkInclusionProofView {
  ipv_proof : InclusionProof; ipv_leaf_hash : Digest; ipv_root : Digest;
}.

Record ConsistencyProofView := mkConsistencyProofView {
  cpv_proof : ConsistencyProof; cpv_old_root : Digest; cpv_new_root : Digest;
}.

Definition log_exists (id : LogId) : Op bool :=
  pool_read (λ t, match log_row id t with Some _ => true | None => false end).

Definition load_leaves (id : LogId) : Op (list Digest) :=
  hashes ← pool_read (select_leaf_hashes id);
  mret (mkDigest (hasher_algo factory) <$> hashes).

(** [leaves[i]] cannot panic: a proof exists only for an index in range
    ([inclusion_some_lookup]). *)
Definition query_inclusion_proof (id : LogId) (index : N) : Op InclusionProofView :=
  ex ← log_exists id;
  if negb ex then st_err (LogNotFound id)
  else
    leaves ← load_leaves id;
    match inclusion factory leaves index, leaves !! N.to_nat index with
    | Some proof, Some lf => mret (mkInclusionProofView proof lf (root factory leaves))
    | _, _ => st_err (LeafOutOfRange index (len leaves))
    end.

Definition query_consistency_proof (id : LogId) (first : N) : Op ConsistencyProofView :=
  ex ← log_exists id;
  if negb ex then st_err (LogNotFound id)
  else
    leaves ← load_leaves id;
    match consistency factory leaves first with
    | Some proof =>
        mret (mkConsistencyProofView proof (root factory (take (N.to_nat first) leaves))
                (root factory leaves))
    | None => st_err (SizeOutOfRange first (len leaves))
    end.

(** ** Invariant

    The rows of a log are its row and one leaf row per leaf, in index order. *)

Fixpoint leaf_table (id : LogId) (k : Z) (hashes : list bytes) : list LeafRow :=
  match hashes with
  | [] => []
  | h :: hs => mkLeafRow id k h :: leaf_table id (k + 1) hs
  end.

(** The tables hold log [id] with row [row] and leaf hashes [hashes]. *)
Definition holds_log (t : Tables) (id : LogId) (row : LogRow) (hashes : list bytes) : Prop :=
  log_row id t = Some row ∧ leaf_rows id t = leaf_table id 0 hashes.

(** ** Lemmas on the tables *)

Lemma leaf_table_app id k hs1 hs2 :
  leaf_table id k (hs1 ++ hs2) = leaf_table id k hs1 ++ leaf_table id (k + Z.of_nat (length hs1)) hs2.
Proof.
  revert k. induction hs1 as [|h hs1 IH]; intros k; simpl.
  - by rewrite Z.add_0_r.
  - rewrite IH. do 3 f_equal. lia.
Qed.

Lemma order_by_index_sorted id k hashes :
  order_by_index (leaf_table id k hashes) = leaf_table id k hashes.
Proof.
  revert k. induction hashes as [|h hs IH]; intros k; [done|]. simpl. rewrite IH.
  destruct hs as [|h' hs]; [done|]. simpl.
  destruct (Z.leb_spec k (k + 1)); [done|lia].
Qed.

Lemma leaf_table_hashes id k hashes : lf_hash <$> leaf_table id k hashes = hashes.
Proof. revert k. induction hashes as [|h hs IH]; intros k; [done|]. simpl. by rewrite IH. Qed.

Lemma select_leaf_hashes_held t id row hashes :
  holds_log t id row hashes → select_leaf_hashes id t = hashes.
Proof.
  intros [_ H]. unfold select_leaf_hashes. by rewrite H, order_by_index_sorted, leaf_table_hashes.
Qed.

Lemma leaf_table_has id k hashes i :
  existsb (λ r, bool_decide (lf_index r = i)) (leaf_table id k hashes)
  = (k <=? i)%Z && (i <? k + Z.of_nat (length hashes))%Z.
Proof.
  revert k. induction hashes as [|h hs IH]; intros k; simpl; [decide_cmp|]. rewrite IH.
  case_bool_decide; decide_cmp.
Qed.

Lemma leaf_table_max id a k hashes :
  (a < k)%Z →
  foldr Z.max a (lf_index <$> leaf_table id k hashes)
  = (if decide (hashes = []) then a else k + Z.of_nat (length hashes) - 1)%Z.
Proof.
  revert k. induction hashes as [|h hs IH]; intros k Hk; simpl; [done|]. rewrite IH by lia.
  destruct hs; simpl; lia.
Qed.

Lemma has_leaf_held t id row hashes i :
  holds_log t id row hashes →
  has_leaf id i t = (0 <=? i)%Z && (i <? Z.of_nat (length hashes))%Z.
Proof. intros [_ H]. unfold has_leaf. by rewrite H, leaf_table_has. Qed.

Lemma select_next_index_held t id row hashes :
  holds_log t id row hashes → is_slice hashes →
  select_next_index id t = Ok (Z.of_nat (length hashes), t).
Proof.
  intros [_ H] Hs. unfold select_next_index. rewrite H.
  destruct hashes as [|h hs]; [done|]. cbn [leaf_table lf_index].
  rewrite leaf_table_max by lia. unfold is_slice, len in Hs. rewrite max_len_val in Hs.
  simpl in Hs. destruct hs as [|h' hs]; simpl in *; [done|].
  decide_cmp. do 2 f_equal. lia.
Qed.

(** A new leaf row at the next index is one more leaf of its log, and leaves the
    other logs alone. *)
Lemma push_leaf_held t id row hashes h :
  holds_log t id row hashes →
  ∃ t', push_leaf (mkLeafRow id (Z.of_nat (length hashes)) h) t = Ok (tt, t') ∧
    holds_log t' id row (hashes ++ [h]) ∧
    t_checkpoints t' = t_checkpoints t ∧
    (∀ id' row' hs', id' ≠ id → holds_log t id' row' hs' → holds_log t' id' row' hs').
Proof.
  intros [Hrow Hl]. unfold push_leaf. simpl. rewrite Hrow. eexists. split; [done|].
  unfold holds_log, leaf_rows, log_row in *. simpl. split_and!; [done| |done|].
  - rewrite List.filter_app, Hl, leaf_table_app. simpl. by rewrite bool_decide_eq_true_2.
  - intros id' row' hs' Hne [Hrow' Hl']. split; [done|].
    rewrite List.filter_app, Hl'. simpl. rewrite bool_decide_eq_false_2 by done. by rewrite app_nil_r.
Qed.

Lemma as_u64_small n : (N.of_nat n ≤ max_len)%N → as_u64 (Z.of_nat n) = N.of_nat n.
Proof.
  rewrite max_len_val. intros Hn. unfold as_u64. rewrite Z.mod_small by lia. lia.
Qed.

Lemma as_i64_small n : (n ≤ max_len)%N → as_i64 n = Z.of_N n.
Proof.
  rewrite max_len_val. intros Hn. unfold as_i64. rewrite N.mod_small by lia.
  decide_cmp.
Qed.

(** ** What the transaction manager relies on *)

(** An operation that runs on the ambient transaction: it never touches the
    committed tables, the metrics or the presence of a transaction, and it
    succeeds only if no statement of it failed. *)
Class TxOp {A} (m : Op A) : Prop := {
  tx_keeps_committed : ∀ w, w_committed (m w).2 = w_committed w;
  tx_keeps_metrics : ∀ w, w_appended (m w).2 = w_appended w ∧ w_dropped (m w).2 = w_dropped w;
  tx_keeps_closed : ∀ w, w_slot w = None → w_slot (m w).2 = None;
  tx_keeps_open : ∀ w t, w_slot w = Some (mkTx t false) →
    ∃ t' b, w_slot (m w).2 = Some (mkTx t' b) ∧ (is_ok (m w).1 = true → b = false);
}.

#[export] Instance tx_lift {A} (r : result AuditError A) : TxOp (st_lift r).
Proof. split; simpl; eauto. Qed.

#[export] Instance tx_mret {A} (a : A) : TxOp (mret a : Op A).
Proof. split; simpl; eauto. Qed.

#[export] Instance tx_st_err {A} (e : AuditError) : TxOp (st_err e : Op A).
Proof. split; simpl; eauto. Qed.

#[export] Instance tx_connection msg : TxOp (connection msg).
Proof.
  split; intros w; unfold connection; [by destruct (w_slot w)..| |].
  - intros H. by rewrite H.
  - intros t H. rewrite H. eauto.
Qed.

#[export] Instance tx_statement {A} (run : Tables → result bytes (A * Tables)) :
  TxOp (statement run).
Proof.
  split; intros w; unfold statement.
  - destruct (w_slot w) as [[t []]|]; try done.
    destruct (fault pg (w_ticks w)); [done|]. simpl. by destruct (run t) as [[]|].
  - destruct (w_slot w) as [[t []]|]; try done.
    destruct (fault pg (w_ticks w)); [done|]. simpl. by destruct (run t) as [[]|].
  - intros H. by rewrite H.
  - intros t H. rewrite H. simpl. destruct (fault pg (w_ticks w)); simpl; [by eauto|].
    destruct (run t) as [[]|]; simpl; eauto.
Qed.

#[export] Instance tx_bind {A B} (m : Op A) (k : A → Op B) :
  TxOp m → (∀ a, TxOp (k a)) → TxOp (m ≫= k).
Proof.
  intros Hm Hk. split; intros w; unfold mbind, st_bind.
  - pose proof (tx_keeps_committed (m := m) w) as Hc. destruct (m w) as [[a|e] w1]; [|done].
    simpl in Hc. by rewrite tx_keeps_committed.
  - pose proof (tx_keeps_metrics (m := m) w) as Hc. destruct (m w) as [[a|e] w1]; [|done].
    simpl in Hc. pose proof (tx_keeps_metrics (m := k a) w1) as [-> ->]. done.
  - intros H. apply (tx_keeps_closed (m := m)) in H. destruct (m w) as [[a|e] w1]; [|done].
    by apply tx_keeps_closed.
  - intros t H. destruct (tx_keeps_open (m := m) w t H) as (t1 & b1 & H1 & Hb1).
    destruct (m w) as [[a|e] w1]; simpl in *; [|eauto].
    rewrite (Hb1 eq_refl) in H1. by apply (tx_keeps_open (m := k a)) in H1.
Qed.

#[export] Instance tx_iter {A} (f : A → Op unit) l : (∀ a, TxOp (f a)) → TxOp (st_iter f l).
Proof. intros Hf. induction l; simpl; apply _. Qed.

#[export] Instance tx_gateway_load id : TxOp (gateway_load id).
Proof. unfold gateway_load, domain. repeat first [apply _|apply tx_bind; [apply _|intros]|case_match]. Qed.

#[export] Instance tx_gateway_save log : TxOp (gateway_save log).
Proof. unfold gateway_save. repeat first [apply _|apply tx_bind; [apply _|intros]|apply tx_iter; intros []]. Qed.

#[export] Instance tx_gateway_append id record : TxOp (gateway_append_record id record).
Proof. unfold gateway_append_record. repeat first [apply _|apply tx_bind; [apply _|intros]|case_match]. Qed.

#[export] Instance tx_anchor id sth : TxOp (anchor id sth).
Proof. unfold anchor. apply _. Qed.

(** ** Triples for operations on an open transaction *)

(** The error a failed statement of the database surfaces as. *)
Definition db_error (e : AuditError) : Prop := ∃ n msg, fault pg n = Some msg ∧ e = Storage msg.

(** From tables satisfying [P], an operation that succeeds leaves an open
    transaction on tables satisfying [Q]; one that fails does so with a database
    error or with an error of [X]. *)
Definition triple {A} (P : Tables → Prop) (m : Op A) (Q : A → Tables → Prop)
    (X : AuditError → Prop) : Prop :=
  ∀ w t, w_slot w = Some (mkTx t false) → P t →
  match m w with
  | (Ok a, w') => ∃ t', w_slot w' = Some (mkTx t' false) ∧ Q a t'
  | (Err e, _) => db_error e ∨ X e
  end.

Definition no_error (e : AuditError) : Prop := False.

Lemma triple_ret {A} (P : Tables → Prop) (a : A) Q X :
  (∀ t, P t → Q a t) → triple P (mret a) Q X.
Proof. intros H w t Hw HP. simpl. eauto. Qed.

Lemma triple_err {A} (P : Tables → Prop) e (Q : A → Tables → Prop) (X : AuditError → Prop) :
  (∀ t, P t → X e) → triple P (st_err e) Q X.
Proof. intros H w t Hw HP. simpl. eauto. Qed.

Lemma triple_bind {A B} P (m : Op A) R (k : A → Op B) Q X :
  triple P m R X → (∀ a, triple (R a) (k a) Q X) → triple P (m ≫= k) Q X.
Proof.
  intros Hm Hk w t Hw HP. unfold mbind, st_bind. specialize (Hm w t Hw HP).
  destruct (m w) as [[a|e] w1]; [|done]. destruct Hm as (t1 & Hw1 & HR).
  exact (Hk a w1 t1 Hw1 HR).
Qed.

Lemma triple_connection P msg X : triple P (connection msg) (λ _, P) X.
Proof. intros w t Hw HP. unfold connection. rewrite Hw. eauto. Qed.

Lemma triple_statement {A} P (run : Tables → result bytes (A * Tables)) Q X :
  (∀ t, P t → match run t with Ok (a, t') => Q a t' | Err msg => X (Storage msg) end) →
  triple P (statement run) Q X.
Proof.
  intros H w t Hw HP. unfold statement. rewrite Hw. simpl.
  destruct (fault pg (w_ticks w)) as [e|] eqn:Hf; [left; by exists (w_ticks w), e|].
  specialize (H t HP). destruct (run t) as [[a t']|msg]; simpl; eauto.
Qed.

Lemma triple_conseq {A} (P P' : Tables → Prop) (m : Op A) (Q Q' : A → Tables → Prop)
    (X X' : AuditError → Prop) :
  triple P' m Q' X' → (∀ t, P t → P' t) → (∀ a t, Q' a t → Q a t) → (∀ e, X' e → X e) →
  triple P m Q X.
Proof.
  intros Hm HP HQ HX w t Hw Hp. specialize (Hm w t Hw (HP t Hp)).
  destruct (m w) as [[a|e] w']; [destruct Hm as (?&?&?); eauto|destruct Hm; eauto].
Qed.

(** ** The gateway meets the aggregate *)

(** The leaf bytes of a log as its rows hold them. *)
Definition leaf_hash_bytes (ds : list Digest) : list bytes := digest_bytes <$> ds.

(** The other logs of the database are left as they were. *)
Definition others_kept (id : LogId) (t t' : Tables) : Prop :=
  ∀ id' row' hs', id' ≠ id → holds_log t id' row' hs' → holds_log t' id' row' hs'.

Lemma others_kept_refl id t : others_kept id t t.
Proof. intros id' row' hs' _. done. Qed.

(** [append_record] adds one leaf row at the next index. *)
Lemma gateway_append_record_spec t0 id row hashes record :
  is_slice hashes →
  triple (λ t, t = t0 ∧ holds_log t0 id row hashes) (gateway_append_record id record)
    (λ r t, r = Some (len hashes) ∧ others_kept id t0 t ∧ t_checkpoints t = t_checkpoints t0 ∧
            holds_log t id row (hashes ++ [digest_bytes (leaf factory record)]))
    no_error.
Proof.
  intros Hs. unfold gateway_append_record.
  eapply triple_bind; [apply triple_connection|intros []].
  eapply (triple_bind _ _ (λ o t, o = Some row ∧ t = t0 ∧ holds_log t0 id row hashes)).
  { apply triple_statement. intros t [-> H]. split; [apply H|done]. }
  intros o. destruct o as [r|]; [|intros w t _ [? _]; done].
  eapply (triple_bind _ _ (λ n t, n = Z.of_nat (length hashes) ∧ t = t0 ∧
                                   holds_log t0 id row hashes)).
  { apply triple_statement. intros t (_ & -> & H).
    by rewrite (select_next_index_held _ _ _ _ H Hs). }
  intros n. eapply (triple_bind _ _ (λ _ t, n = Z.of_nat (length hashes) ∧
    others_kept id t0 t ∧ t_checkpoints t = t_checkpoints t0 ∧
    holds_log t id row (hashes ++ [digest_bytes (leaf factory record)]))).
  - apply triple_statement. intros t (-> & -> & H). unfold insert_leaf. cbn [lf_log lf_index].
    rewrite (has_leaf_held _ _ _ _ _ H), (proj2 (Z.ltb_ge _ _)), andb_false_r by lia.
    destruct (push_leaf_held _ _ _ _ (digest_bytes (leaf factory record)) H)
      as (t' & E & H1 & H2 & H3). unfold factory_merkle_hasher. rewrite E. done.
  - intros _. apply triple_ret. intros t (-> & H). split; [|done].
    by rewrite as_u64_small.
Qed.

(** [load] rebuilds the log from its rows, with the factory's hasher. *)
Lemma gateway_load_spec t0 id row hashes algo c u ts :
  HashAlgo_from_code (as_u8 (lr_algo row)) = Some algo →
  Timestamp_from_millis (lr_created row) = Ok c →
  Timestamp_from_millis (lr_updated row) = Ok u →
  Timestamps_reconstitute c u = Ok ts →
  triple (λ t, t = t0 ∧ holds_log t0 id row hashes) (gateway_load id)
    (λ r t, t = t0 ∧ holds_log t0 id row hashes ∧
            r = Some (factory_reconstitute factory id ts (mkDigest algo <$> hashes)))
    no_error.
Proof.
  intros Ha Hc Hu Hts. unfold gateway_load.
  eapply triple_bind; [apply triple_connection|intros []].
  eapply (triple_bind _ _ (λ o t, o = Some row ∧ t = t0 ∧ holds_log t0 id row hashes)).
  { apply triple_statement. intros t [-> H]. split; [apply H|done]. }
  intros o. destruct o as [r|]; [|intros w t _ [? _]; done].
  intros w t Hw ([= ->] & -> & H). revert w Hw.
  enough (triple (λ t, t = t0) _ _ _) as Ht by (intros w Hw; exact (Ht w t0 Hw eq_refl)).
  rewrite Ha.
  eapply (triple_bind _ _ (λ hs t, hs = hashes ∧ t = t0)).
  { apply triple_statement. intros t ->. by rewrite (select_leaf_hashes_held _ _ _ _ H). }
  intros hs. rewrite Hc, Hu. intros w t Hw (-> & ->).
  unfold mbind, st_bind, domain, st_lift. simpl. rewrite Hts. simpl. eauto.
Qed.

(** [load] of an absent log. *)
Lemma gateway_load_absent t0 id :
  log_row id t0 = None →
  triple (λ t, t = t0) (gateway_load id) (λ r t, r = None ∧ t = t0) no_error.
Proof.
  intros Ha. unfold gateway_load.
  eapply triple_bind; [apply triple_connection|intros []].
  eapply (triple_bind _ _ (λ o t, o = None ∧ t = t0)).
  { apply triple_statement. by intros t ->. }
  intros o. destruct o as [r|]; [intros w t _ [? _]; done|].
  apply triple_ret. by intros t [_ ->].
Qed.

Lemma gateway_append_record_absent t0 id record :
  log_row id t0 = None →
  triple (λ t, t = t0) (gateway_append_record id record) (λ r t, r = None ∧ t = t0) no_error.
Proof.
  intros Ha. unfold gateway_append_record.
  eapply triple_bind; [apply triple_connection|intros []].
  eapply (triple_bind _ _ (λ o t, o = None ∧ t = t0)).
  { apply triple_statement. by intros t ->. }
  intros o. destruct o as [r|]; [intros w t _ [? _]; done|].
  apply triple_ret. by intros t [_ ->].
Qed.

(** ** save *)

Definition row_of (log : TransparencyLog) : LogRow :=
  mkLogRow (log_id log) (as_millis (created_at (log_timestamps log)))
    (as_millis (updated_at (log_timestamps log))) (Z.of_N (HashAlgo_code (log_algo log))).

Lemma upsert_log_new t row :
  log_row (lr_id row) t = None →
  ∃ t', upsert_log row t = Ok (tt, t') ∧ log_row (lr_id row) t' = Some row ∧
    t_leaves t' = t_leaves t ∧ t_checkpoints t' = t_checkpoints t ∧
    others_kept (lr_id row) t t'.
Proof.
  intros H. unfold upsert_log. rewrite H. eexists. split_and!; [done| |done|done|].
  - unfold log_row in *. simpl. rewrite find_app, H. simpl. by rewrite bool_decide_eq_true_2.
  - intros id' row' hs' Hne [Hr Hl]. split; [|done]. unfold log_row in *. simpl.
    by rewrite find_app, Hr.
Qed.

Lemma upsert_log_old t row old :
  log_row (lr_id row) t = Some old →
  ∃ t', upsert_log row t = Ok (tt, t') ∧
    log_row (lr_id row) t' =
      Some (mkLogRow (lr_id old) (lr_created old) (lr_updated row) (lr_algo old)) ∧
    t_leaves t' = t_leaves t ∧ t_checkpoints t' = t_checkpoints t ∧
    others_kept (lr_id row) t t'.
Proof.
  intros H. unfold upsert_log. rewrite H. eexists. split_and!; [done| |done|done|].
  - unfold log_row in *. simpl. induction (t_logs t) as [|r rs IH]; simpl in *; [done|].
    destruct (decide (lr_id r = lr_id row)) as [E|E].
    + rewrite (bool_decide_eq_true_2 _ E) in *. simplify_eq. simpl.
      by rewrite (bool_decide_eq_true_2 _ E).
    + rewrite (bool_decide_eq_false_2 _ E) in *. simpl.
      rewrite (bool_decide_eq_false_2 _ E). auto.
  - intros id' row' hs' Hne [Hr Hl]. split; [|done]. unfold log_row in *. simpl.
    clear H. induction (t_logs t) as [|r rs IH]; simpl in *; [done|].
    destruct (decide (lr_id r = lr_id row)) as [E|E].
    + rewrite (bool_decide_eq_true_2 _ E). simpl.
      rewrite bool_decide_eq_false_2 in Hr |- * by congruence. auto.
    + rewrite (bool_decide_eq_false_2 _ E). case_bool_decide; auto.
Qed.

Definition insert_leaves (id : LogId) (k : nat) (ls : list Digest) : Op unit :=
  st_iter (λ '(index, lf), statement (insert_leaf_or_ignore
             (mkLeafRow id (as_i64 (N.of_nat index)) (digest_bytes lf))))
          (enumerate_from k ls).

(** Inserting the leaves from index [k] on, where the rows already there agree
    with them: what is there is kept, the rest is added. *)
Lemma insert_leaves_spec t0 id row ls : ∀ k hs,
  (N.of_nat (k + length ls) ≤ max_len)%N → k ≤ length hs →
  drop k hs `prefix_of` leaf_hash_bytes ls →
  triple (λ t, holds_log t id row hs ∧ others_kept id t0 t ∧ t_checkpoints t = t_checkpoints t0)
    (insert_leaves id k ls)
    (λ _ t, holds_log t id row (take k hs ++ leaf_hash_bytes ls) ∧ others_kept id t0 t ∧
            t_checkpoints t = t_checkpoints t0)
    no_error.
Proof.
  induction ls as [|l ls IH]; intros k hs Hmax Hk Hpre; unfold insert_leaves; simpl.
  - apply prefix_nil_inv in Hpre. apply triple_ret. intros t H.
    rewrite app_nil_r, <- (app_nil_r (take k hs)), <- Hpre, take_drop. done.
  - fold (insert_leaves id (S k) ls). simpl in Hmax. rewrite as_i64_small by lia.
    rewrite nat_N_Z. destruct (decide (k = length hs)) as [->|Hlt].
    + eapply (triple_bind _ _ (λ _ t, holds_log t id row (hs ++ [digest_bytes l]) ∧
        others_kept id t0 t ∧ t_checkpoints t = t_checkpoints t0)).
      { apply triple_statement. intros t (H & Ho & Hc). unfold insert_leaf_or_ignore.
        cbn [lf_log lf_index].
        rewrite (has_leaf_held _ _ _ _ _ H), (proj2 (Z.ltb_ge _ _)), andb_false_r by lia.
        destruct (push_leaf_held _ _ _ _ (digest_bytes l) H) as (t' & -> & H1 & H2 & H3).
        split_and!; [done| |congruence]. intros id' row' hs' Hne Hl. apply H3; [done|].
        by apply Ho. }
      intros []. eapply triple_conseq; [apply (IH (S (length hs)) (hs ++ [digest_bytes l]))|..];
        [lia|rewrite length_app; simpl; lia| |done| |done].
      * rewrite drop_ge by (rewrite length_app; simpl; lia). apply prefix_nil.
      * intros u t H. rewrite take_ge in H by (rewrite length_app; simpl; lia).
        rewrite take_ge by lia. by rewrite <- app_assoc in H.
    + assert (∃ h, hs !! k = Some h) as [h Hh] by (apply lookup_lt_is_Some; lia).
      rewrite (drop_S hs h k Hh) in Hpre. simpl in Hpre.
      assert (h = digest_bytes l) as -> by (by apply prefix_cons_inv_1 in Hpre).
      eapply (triple_bind _ _ (λ _ t, holds_log t id row hs ∧ others_kept id t0 t ∧
        t_checkpoints t = t_checkpoints t0)).
      { apply triple_statement. intros t (H & Ho). unfold insert_leaf_or_ignore. cbn [lf_log lf_index].
        rewrite (has_leaf_held _ _ _ _ _ H), (proj2 (Z.ltb_lt _ _)), (proj2 (Z.leb_le _ _)) by lia.
        simpl. exact (conj H Ho). }
      intros []. eapply triple_conseq; [apply (IH (S k) hs)|..]; [lia|lia| |done| |done].
      * by apply prefix_cons_inv_2 in Hpre.
      * intros u t H. rewrite (take_S_r _ _ _ Hh), <- app_assoc in H. exact H.
Qed.

(** [save] of a log whose leaves extend the stored ones stores them all. *)
Lemma gateway_save_spec t0 log row hashes :
  is_slice (log_leaves log) → hashes `prefix_of` leaf_hash_bytes (log_leaves log) →
  let row' := mkLogRow (lr_id row) (lr_created row) (lr_updated (row_of log)) (lr_algo row) in
  triple (λ t, t = t0 ∧ holds_log t0 (log_id log) row hashes) (gateway_save log)
    (λ _ t, holds_log t (log_id log) row' (leaf_hash_bytes (log_leaves log)) ∧
            others_kept (log_id log) t0 t ∧ t_checkpoints t = t_checkpoints t0) no_error.
Proof.
  intros Hs Hpre row'. unfold gateway_save.
  eapply triple_bind; [apply triple_connection|intros []].
  eapply (triple_bind _ _ (λ _ t, holds_log t (log_id log) row' hashes ∧
    others_kept (log_id log) t0 t ∧ t_checkpoints t = t_checkpoints t0)).
  { apply triple_statement. intros t [-> [Hr Hl]]. fold (row_of log).
    destruct (upsert_log_old t0 (row_of log) row Hr) as (t' & -> & H1 & H2 & H3 & H4).
    split_and!; [split; [done|]|done..]. unfold leaf_rows. by rewrite H2. }
  intros []. apply (insert_leaves_spec t0 (log_id log) row' (log_leaves log) 0 hashes);
    [done|lia|done].
Qed.

(** [save] of a log that is not stored yet. *)
Lemma gateway_save_new t0 log :
  is_slice (log_leaves log) → log_row (log_id log) t0 = None → leaf_rows (log_id log) t0 = [] →
  triple (λ t, t = t0) (gateway_save log)
    (λ _ t, holds_log t (log_id log) (row_of log) (leaf_hash_bytes (log_leaves log)) ∧
            others_kept (log_id log) t0 t ∧ t_checkpoints t = t_checkpoints t0) no_error.
Proof.
  intros Hs Hrow Hl. unfold gateway_save.
  eapply triple_bind; [apply triple_connection|intros []].
  eapply (triple_bind _ _ (λ _ t, holds_log t (log_id log) (row_of log) [] ∧
    others_kept (log_id log) t0 t ∧ t_checkpoints t = t_checkpoints t0)).
  { apply triple_statement. intros t ->. fold (row_of log).
    destruct (upsert_log_new t0 (row_of log) Hrow) as (t' & -> & H1 & H2 & H3 & H4).
    split_and!; [split; [done|]|done..]. unfold leaf_rows. by rewrite H2. }
  intros []. apply (insert_leaves_spec t0 (log_id log) (row_of log) (log_leaves log) 0 []);
    [done|simpl; lia|apply prefix_nil].
Qed.

End Store.
