(* ===== verification/AuditApp.v ===== *)
(** * AuditApp: use cases, pipeline and answers of the audit context
    (crates/agate-audit/src: application/usecases, application/common,
    setup/ioc, infrastructure/key_store.rs,
    presentation/http/v1)

    The ports are records of operations over a state [S]; the handlers are
    written against them, the pipeline wraps them in the behaviours registered
    for each request, and the theorems are about the PostgreSQL gateways of
    [AuditStore] plugged in. *)
From stdpp Require Import options.
From S2P Require Import Prelude Crypto Merkle TransparencyLog AuditStore.

(** ** Ports *)

Record LogCommandGateway (S : Type) := mkLogCommandGateway {
  lcg_load : LogId → ST AuditError S (option TransparencyLog);
  lcg_save : TransparencyLog → ST AuditError S unit;
  lcg_append_record : LogId → bytes → ST AuditError S (option N);
}.
Arguments lcg_load {S} _ _.
Arguments lcg_save {S} _ _.
Arguments lcg_append_record {S} _ _ _.

Record LogQueryGateway (S : Type) := mkLogQueryGateway {
  lqg_inclusion_proof : LogId → N → ST AuditError S InclusionProofView;
  lqg_consistency_proof : LogId → N → ST AuditError S ConsistencyProofView;
}.
Arguments lqg_inclusion_proof {S} _ _ _.
Arguments lqg_consistency_proof {S} _ _ _.

Record KeyStore := mkKeyStore {
  ks_signer : KeyId → result AuditError Signer;
  ks_verifier : KeyId → result AuditError Verifier;
}.

Record TransactionManager (S : Type) := mkTransactionManager {
  tm_begin : ST AuditError S unit;
  tm_commit : ST AuditError S unit;
  tm_rollback : ST AuditError S unit;
}.
Arguments tm_begin {S} _.
Arguments tm_commit {S} _.
Arguments tm_rollback {S} _.

(** ** Handlers

    [id] and [now] are what [ids.generate()] and [clock.now()] returned. *)

Section Handlers.
Context {S : Type} `{J : Jiff} (gateway : LogCommandGateway S) (queries : LogQueryGateway S).

Definition CreateLogHandler (factory : Hasher) (id : LogId) (now : Timestamp)
    : ST AuditError S LogId :=
  let log := factory_create factory id now in
  _ ← lcg_save gateway log;
  mret id.

Definition AppendRecordHandler (log : LogId) (record : bytes) : ST AuditError S N :=
  r ← lcg_append_record gateway log record;
  match r with
  | Some index => mret index
  | None => st_err (LogNotFound log)
  end.

Definition IssueCheckpointHandler (keys : KeyStore)
    (anchor : LogId → SignedTreeHead → ST AuditError S unit) (now : Timestamp)
    (log : LogId) (key : KeyId) (previous_size : option N) : ST AuditError S SignedTreeHead :=
  loaded ← lcg_load gateway log;
  match loaded with
  | None => st_err (LogNotFound log)
  | Some l =>
      signer ← st_lift (ks_signer keys key);
      if bool_decide (previous_size = Some (log_size l)) then
        mret (CheckpointSigner_sign signer (log_head l now))
      else
        let '(hd, l') := log_issue_checkpoint l now in
        let sth := CheckpointSigner_sign signer hd in
        _ ← anchor log sth;
        _ ← lcg_save gateway l';
        mret sth
  end.

Definition GetInclusionProofHandler (log : LogId) (index : N) : ST AuditError S InclusionProofView :=
  lqg_inclusion_proof queries log index.

Definition GetConsistencyProofHandler (log : LogId) (first : N)
    : ST AuditError S ConsistencyProofView :=
  lqg_consistency_proof queries log first.

End Handlers.

(** ** Pipeline *)

(** A behaviour gets the request and the rest of the chain. *)
Definition Behavior (R S A : Type) : Type :=
  R → (R → ST AuditError S A) → ST AuditError S A.

(** [Mediator::send]: wrap from the last behaviour to the first. *)
Definition mediator_send {R S A} (handler : R → ST AuditError S A)
    (behaviors : list (Behavior R S A)) (request : R) : ST AuditError S A :=
  foldr (λ b next, λ r, b r next) handler behaviors request.

(** The span of [TracingBehavior] is not observable in the model. *)
Definition TracingBehavior {R S A} : Behavior R S A := λ request next, next request.

Definition TransactionBehavior {R S A} (tm : TransactionManager S) : Behavior R S A :=
  λ request next,
    _ ← tm_begin tm;
    (λ s, match next request s with
          | (Ok value, s1) =>
              match tm_commit tm s1 with
              | (Ok _, s2) => (Ok value, s2)
              | (Err commit_error, s2) => (Err commit_error, s2)
              end
          | (Err error, s1) => let '(_, s2) := tm_rollback tm s1 in (Err error, s2)
          end) : ST AuditError S A.

(** [record_appended] and [record_dropped] on the metrics of the world. *)
Definition record_appended (w : World) : World :=
  mkWorld (w_committed w) (w_slot w) (w_ticks w) (w_appended w + 1) (w_dropped w).
Definition record_dropped (w : World) : World :=
  mkWorld (w_committed w) (w_slot w) (w_ticks w) (w_appended w) (w_dropped w + 1).

Definition MetricsBehavior {R A} : Behavior R World A := λ request next w,
  match next request w with
  | (Ok a, w') => (Ok a, record_appended w')
  | (Err e, w') => (Err e, record_dropped w')
  end.

(** ** Composition root *)

Section Composition.
Context (pg : Pg) `{J : Jiff} (factory : Hasher) (keys : KeyStore).

Definition postgres_gateway : LogCommandGateway World :=
  mkLogCommandGateway World (gateway_load pg factory) (gateway_save pg)
    (gateway_append_record pg factory).

Definition postgres_queries : LogQueryGateway World :=
  mkLogQueryGateway World (query_inclusion_proof pg factory) (query_consistency_proof pg factory).

Definition postgres_tm : TransactionManager World :=
  mkTransactionManager World (tx_begin pg) (tx_commit pg) (tx_rollback pg).

(** The behaviours of each request, in the order of [build_registry]. *)
Definition dispatch_append (log : LogId) (record : bytes) : Op N :=
  mediator_send (λ '(l, r), AppendRecordHandler postgres_gateway l r)
    [TracingBehavior; MetricsBehavior; TransactionBehavior postgres_tm] (log, record).

Definition dispatch_create (id : LogId) (now : Timestamp) : Op LogId :=
  mediator_send (λ _, CreateLogHandler postgres_gateway factory id now)
    [TracingBehavior; TransactionBehavior postgres_tm] tt.

Definition dispatch_checkpoint (now : Timestamp) (log : LogId) (key : KeyId)
    (previous_size : option N) : Op SignedTreeHead :=
  mediator_send (λ '(l, k, p),
      IssueCheckpointHandler postgres_gateway keys (anchor pg) now l k p)
    [TracingBehavior; TransactionBehavior postgres_tm] (log, key, previous_size).

Definition dispatch_inclusion (log : LogId) (index : N) : Op InclusionProofView :=
  mediator_send (λ '(l, i), GetInclusionProofHandler postgres_queries l i)
    [TracingBehavior] (log, index).

Definition dispatch_consistency (log : LogId) (first : N) : Op ConsistencyProofView :=
  mediator_send (λ '(l, f), GetConsistencyProofHandler postgres_queries l f)
    [TracingBehavior] (log, first).

End Composition.

(** ** Ed25519KeyStore *)

(** At most one configured key: id, signer and verifier. *)
Definition Ed25519KeyStore : Type := option (KeyId * Signer * Verifier).

Definition KeyStore_from_seed (B : Backend) (key_id : KeyId) (seed : bytes) : Ed25519KeyStore :=
  match Ed25519_from_public_bytes B (dalek_public B seed) with
  | Ok verifier => Some (key_id, Ed25519Signer B seed key_id, verifier)
  | Err _ => None
  end.

Definition KeyStore_lookup (store : Ed25519KeyStore) (key : KeyId) : option (Signer * Verifier) :=
  '(id, s, v) ← store;
  if bool_decide (id = key) then Some (s, v) else None.

Definition ed25519_key_store (store : Ed25519KeyStore) : KeyStore :=
  mkKeyStore
    (λ key, ok_or (KeyNotFound key) (fst <$> KeyStore_lookup store key))
    (λ key, ok_or (KeyNotFound key) (snd <$> KeyStore_lookup store key)).

(** ** HTTP *)

(** [HttpError::into_response]: status and error code. *)
Definition http_error (e : AuditError) : N * bytes :=
  match e with
  | LogNotFound _ => (404%N, lit "log_not_found")
  | LeafOutOfRange _ _ | SizeOutOfRange _ _ => (400%N, lit "out_of_range")
  | KeyNotFound _ => (500%N, lit "key_not_found")
  | Domain _ => (400%N, lit "domain_error")
  | Storage _ => (500%N, lit "storage_error")
  end.

Record InclusionProofResponse := mkInclusionProofResponse {
  ipr_leaf_index : N; ipr_tree_size : N; ipr_leaf_hash : bytes; ipr_root : bytes;
  ipr_path : list bytes;
}.

Definition inclusion_response (v : InclusionProofView) : InclusionProofResponse :=
  mkInclusionProofResponse (leaf_index (ipv_proof v)) (tree_size (ipv_proof v))
    (to_hex (ipv_leaf_hash v)) (to_hex (ipv_root v)) (to_hex <$> ip_path (ipv_proof v)).

Record ConsistencyProofResponse := mkConsistencyProofResponse {
  cpr_first_size : N; cpr_second_size : N; cpr_old_root : bytes; cpr_new_root : bytes;
  cpr_path : list bytes;
}.

Definition consistency_response (v : ConsistencyProofView) : ConsistencyProofResponse :=
  mkConsistencyProofResponse (first_size (cpv_proof v)) (second_size (cpv_proof v))
    (to_hex (cpv_old_root v)) (to_hex (cpv_new_root v)) (to_hex <$> cp_path (cpv_proof v)).

(** ** The transaction behaviour *)

Section Pipeline.
Context (pg : Pg) `{J : Jiff} (factory : Hasher).

(** The world inside a freshly begun transaction. *)
Definition begun (w : World) : World :=
  step_world w (w_committed w) (Some (mkTx (w_committed w) false)).

(** What a command leaves behind: the transaction is closed and the metrics are
    as before; on success the committed tables satisfy [Q], on failure they are
    unchanged. *)
Definition commits {A} (w : World) (out : result AuditError A * World)
    (Q : A → Tables → Prop) (X : AuditError → Prop) : Prop :=
  w_slot out.2 = None ∧ w_appended out.2 = w_appended w ∧ w_dropped out.2 = w_dropped w ∧
  match out.1 with
  | Ok a => Q a (w_committed out.2)
  | Err e => w_committed out.2 = w_committed w ∧ (db_error pg e ∨ X e)
  end.

Lemma transaction_commits {R A} (m : R → Op A) req w Q X `{!TxOp (m req)} :
  w_slot w = None →
  triple pg (λ t, t = w_committed w) (m req) Q X →
  commits w (TransactionBehavior (postgres_tm pg) req m w) Q X.
Proof.
  intros Hslot Hm. unfold TransactionBehavior, mbind, st_bind. simpl.
  unfold tx_begin. rewrite Hslot. destruct (fault pg (w_ticks w)) as [e|] eqn:Hf.
  { split_and!; [done..|]. split; [done|]. left. by exists (w_ticks w), e. }
  fold (begun w).
  pose proof (tx_keeps_committed (m := m req) (begun w)) as Hc.
  pose proof (tx_keeps_metrics (m := m req) (begun w)) as [Ha Hd].
  specialize (Hm (begun w) (w_committed w) eq_refl eq_refl).
  destruct (tx_keeps_open (m := m req) (begun w) (w_committed w) eq_refl)
    as (t1 & b1 & Hs1 & _).
  destruct (m req (begun w)) as [[a|e] w1]; simpl in *.
  - destruct Hm as (t' & Hs & HQ). unfold tx_commit. rewrite Hs.
    destruct (fault pg (w_ticks w1)) as [e|] eqn:Hf1; split_and!; simpl; try done.
    split; [done|]. left. by exists (w_ticks w1), e.
  - unfold tx_rollback. rewrite Hs1.
    destruct (fault pg (w_ticks w1)); split_and!; simpl; done.
Qed.

#[export] Instance tx_append_handler log record :
  TxOp (AppendRecordHandler (postgres_gateway pg factory) log record).
Proof. unfold AppendRecordHandler. apply tx_bind; [apply _|intros []; apply _]. Qed.

#[export] Instance tx_create_handler id now :
  TxOp (CreateLogHandler (postgres_gateway pg factory) factory id now).
Proof. unfold CreateLogHandler. apply tx_bind; [apply _|intros; apply _]. Qed.

#[export] Instance tx_checkpoint_handler keys now log key prev :
  TxOp (IssueCheckpointHandler (postgres_gateway pg factory) keys (anchor pg) now log key prev).
Proof.
  unfold IssueCheckpointHandler. apply tx_bind; [apply _|intros [l|]; [|apply _]].
  apply tx_bind; [apply _|intros s]. case_match; [apply _|]. simpl.
  apply tx_bind; [apply _|intros]. apply tx_bind; [apply _|intros; apply _].
Qed.

(** ** Handlers on an open transaction *)

Lemma append_handler_spec t0 id row hashes record :
  is_slice hashes → holds_log t0 id row hashes →
  triple pg (λ t, t = t0) (AppendRecordHandler (postgres_gateway pg factory) id record)
    (λ i t, i = len hashes ∧ others_kept id t0 t ∧ t_checkpoints t = t_checkpoints t0 ∧
            holds_log t id row (hashes ++ [digest_bytes (leaf factory record)])) no_error.
Proof.
  intros Hs H. unfold AppendRecordHandler. eapply triple_bind.
  - eapply triple_conseq; [apply (gateway_append_record_spec pg factory t0 id row hashes record Hs)
      |by intros t ->|by intros a t Q; exact Q|done].
  - intros [i|]; [apply triple_ret|intros w t _ [? _]; done].
    intros t ([= ->] & ?). done.
Qed.

Lemma append_handler_absent t0 id record :
  log_row id t0 = None →
  triple pg (λ t, t = t0) (AppendRecordHandler (postgres_gateway pg factory) id record)
    (λ _ _, False) (λ e, e = LogNotFound id).
Proof.
  intros H. unfold AppendRecordHandler. eapply triple_bind.
  - eapply triple_conseq; [by apply (gateway_append_record_absent pg factory t0 id record)
      |done|by intros a t Q; exact Q|done].
  - intros [i|]; [intros w t _ [? _]; done|]. by apply triple_err.
Qed.

(** ** Checkpoints *)

Context `{!JiffLaws J}.
#[local] Set Default Proof Using "Type*".

(** The stored row decodes to an algorithm and to lifecycle timestamps. *)
Definition row_parses (row : LogRow) (algo : HashAlgo) (ts : Timestamps) : Prop :=
  HashAlgo_from_code (as_u8 (lr_algo row)) = Some algo ∧
  ∃ c u, Timestamp_from_millis (lr_created row) = Ok c ∧
         Timestamp_from_millis (lr_updated row) = Ok u ∧
         Timestamps_reconstitute c u = Ok ts.

Lemma row_parses_updated row algo ts :
  row_parses row algo ts → as_millis (updated_at ts) = lr_updated row.
Proof.
  intros (_ & c & u & _ & Hu & Hts). unfold Timestamps_reconstitute in Hts.
  case_match; [done|]. injection Hts as <-. simpl.
  unfold Timestamp_from_millis in Hu. destruct (from_millisecond _) eqn:E; [|done].
  injection Hu as <-. by apply millisecond_roundtrip in E.
Qed.

(** The row [anchor] writes for a signed head. *)
Definition checkpoint_row (id : LogId) (sth : SignedTreeHead) : CheckpointRow :=
  mkCheckpointRow id (as_i64 (head_size (sth_head sth)))
    (digest_bytes (head_root (sth_head sth)))
    (Z.of_N (HashAlgo_code (digest_algo (head_root (sth_head sth)))))
    (as_millis (head_at (sth_head sth)))
    (Z.of_N (SignAlgo_code (sig_algo (sth_signature sth))))
    (sig_key_id (sth_signature sth)) (sig_bytes (sth_signature sth)).

(** The checkpoints after anchoring: a new row, unless its size has one. *)
Definition anchored (t0 : Tables) (row : CheckpointRow) : list CheckpointRow :=
  if has_checkpoint (cr_log row) (cr_size row) t0 then t_checkpoints t0
  else t_checkpoints t0 ++ [row].

Lemma anchor_spec t0 id row hashes sth :
  holds_log t0 id row hashes →
  triple pg (λ t, t = t0) (anchor pg id sth)
    (λ _ t, t = mkTables (t_logs t0) (t_leaves t0) (anchored t0 (checkpoint_row id sth)))
    no_error.
Proof.
  intros [Hr _]. unfold anchor.
  eapply triple_bind; [apply triple_connection|intros []]. apply triple_statement.
  intros t ->. fold (checkpoint_row id sth). unfold insert_checkpoint_or_ignore, anchored.
  simpl. rewrite Hr. destruct (has_checkpoint _ _ t0); [by destruct t0|done].
Qed.

Lemma checkpoint_handler_spec t0 id row hashes algo ts keys now key prev signer :
  is_slice hashes → holds_log t0 id row hashes → row_parses row algo ts →
  ks_signer keys key = Ok signer →
  let hd := mkTreeHead (len hashes) (root factory (mkDigest algo <$> hashes)) now in
  let sth := CheckpointSigner_sign signer hd in
  triple pg (λ t, t = t0)
    (IssueCheckpointHandler (postgres_gateway pg factory) keys (anchor pg) now id key prev)
    (λ r t, r = sth ∧
       if bool_decide (prev = Some (len hashes)) then t = t0
       else holds_log t id row hashes ∧ others_kept id t0 t ∧
            t_checkpoints t = anchored t0 (checkpoint_row id sth)) no_error.
Proof.
  intros Hs H Hp Hk hd sth. pose proof (row_parses_updated _ _ _ Hp) as Hup.
  destruct Hp as (Ha & c & u & Hc & Hu & Hts). unfold IssueCheckpointHandler.
  set (l := factory_reconstitute factory id ts (mkDigest algo <$> hashes)).
  eapply (triple_bind _ _ _ (λ o t, o = Some l ∧ t = t0)).
  { eapply triple_conseq; [by apply (gateway_load_spec pg factory t0 id row hashes algo c u ts)
      |by intros t ->|by intros a t (-> & _ & ->)|done]. }
  intros o. destruct o as [l'|]; [|intros w t _ [? _]; done].
  intros w t Hw ([= ->] & ->). revert w Hw.
  enough (triple pg (λ t, t = t0) _ _ _) as Ht by (intros w Hw; exact (Ht w t0 Hw eq_refl)).
  rewrite Hk. change (log_size l) with (len (mkDigest algo <$> hashes)). rewrite len_fmap.
  eapply (triple_bind _ _ _ (λ s t, s = signer ∧ t = t0)); [by intros w t Hw ->; simpl; eauto|].
  intros s. case_bool_decide.
  { apply triple_ret. intros t [-> ->]. split; [|done]. unfold sth, hd. f_equal.
    unfold log_head, log_size. simpl. by rewrite len_fmap. }
  unfold log_issue_checkpoint. cbv zeta beta iota. fold l.
  assert (log_head l now = hd) as -> by
    (unfold log_head, log_size; simpl; by rewrite len_fmap).
  intros w t Hw [-> ->]. revert w Hw. fold sth.
  enough (triple pg (λ t, t = t0) _ _ _) as Ht by (intros w Hw; exact (Ht w t0 Hw eq_refl)).
  eapply triple_bind; [by apply (anchor_spec t0 id row hashes sth)|intros []].
  set (t1 := mkTables _ _ _).
  match goal with |- context [lcg_save _ ?x] => set (l2 := x) end.
  assert (leaf_hash_bytes (log_leaves l2) = hashes) as Hl2.
  { unfold leaf_hash_bytes. simpl. rewrite <- list_fmap_compose. apply list_fmap_id. }
  eapply triple_bind.
  { eapply triple_conseq; [apply (gateway_save_spec pg t1 l2 row hashes)
      |intros t ->; exact (conj eq_refl H)|by intros a t Q; exact Q|done].
    - simpl. by apply is_slice_fmap.
    - by rewrite Hl2. }
  intros []. apply triple_ret. intros t (Hh & Ho & Hcp). split; [done|].
  rewrite Hl2 in Hh. simpl in Hh. rewrite Hup in Hh. destruct row. split_and!; [done| |done].
  intros id' row' hs' Hne Hl. apply Ho; [done|]. exact Hl.
Qed.

(** Without the key nothing is signed. *)
Lemma checkpoint_handler_nokey t0 id row hashes algo ts keys now key prev e :
  is_slice hashes → holds_log t0 id row hashes → row_parses row algo ts → ks_signer keys key = Err e →
  triple pg (λ t, t = t0)
    (IssueCheckpointHandler (postgres_gateway pg factory) keys (anchor pg) now id key prev)
    (λ _ _, False) (λ e', e' = e).
Proof.
  intros Hs H (Ha & c & u & Hc & Hu & Hts) Hk. unfold IssueCheckpointHandler.
  eapply (triple_bind _ _ _ (λ o t, is_Some o)).
  { eapply triple_conseq; [by apply (gateway_load_spec pg factory t0 id row hashes algo c u ts)
      |by intros t ->|by intros a t (-> & _ & ->)|done]. }
  intros [l|]; [|by intros w t _ [? ?]]. rewrite Hk. intros w t Hw _. simpl. by right.
Qed.

End Pipeline.

(** Reads on the pool: all the query paths start with one for the log row and
    one for the leaves. *)
Lemma load_leaves_held pg factory id w row hashes :
  holds_log (w_committed w) id row hashes →
  match load_leaves pg factory id w with
  | (Ok ds, w') => ds = mkDigest (hasher_algo factory) <$> hashes ∧ w_committed w' = w_committed w
  | (Err e, w') => db_error pg e ∧ w_committed w' = w_committed w
  end.
Proof.
  intros H. unfold load_leaves, mbind, st_bind, pool_read.
  destruct (fault pg (w_ticks w)) as [e|] eqn:Hf; simpl.
  - split; [|done]. by exists (w_ticks w), e.
  - by rewrite (select_leaf_hashes_held _ _ _ _ H).
Qed.

Lemma log_exists_held pg id w row hashes :
  holds_log (w_committed w) id row hashes →
  match log_exists pg id w with
  | (Ok ex, w') => ex = true ∧ w_committed w' = w_committed w
  | (Err e, w') => db_error pg e ∧ w_committed w' = w_committed w
  end.
Proof.
  intros [Hr _]. unfold log_exists, pool_read.
  destruct (fault pg (w_ticks w)) as [e|] eqn:Hf; simpl.
  - split; [|done]. by exists (w_ticks w), e.
  - by rewrite Hr.
Qed.

(** The append pipeline on a stored log, all or nothing. *)
Lemma dispatch_append_spec pg `{J : Jiff} factory w id row hashes record :
  w_slot w = None → holds_log (w_committed w) id row hashes → is_slice hashes →
  let '(r, w') := dispatch_append pg factory id record w in
  w_slot w' = None ∧
  match r with
  | Ok i => i = len hashes ∧
      holds_log (w_committed w') id row (hashes ++ [digest_bytes (leaf factory record)]) ∧
      others_kept id (w_committed w) (w_committed w') ∧
      t_checkpoints (w_committed w') = t_checkpoints (w_committed w) ∧
      w_appended w' = (w_appended w + 1)%N ∧ w_dropped w' = w_dropped w
  | Err e => db_error pg e ∧ w_committed w' = w_committed w ∧
      w_appended w' = w_appended w ∧ w_dropped w' = (w_dropped w + 1)%N
  end.
Proof.
  intros Hslot H Hs. unfold dispatch_append, mediator_send, TracingBehavior. cbn [foldr].
  pose proof (tx_append_handler pg factory id record) as Htx.
  pose proof (transaction_commits pg (λ '(l, r), AppendRecordHandler (postgres_gateway pg factory) l r)
    (id, record) w _ _ Hslot (append_handler_spec pg factory _ _ _ _ record Hs H)) as Hi.
  unfold MetricsBehavior. destruct (TransactionBehavior _ _ _ w) as [[i|e] w1];
    destruct Hi as (H1 & H2 & H3 & H4); simpl in *; rewrite H2, H3; (split; [done|]).
  - by destruct H4 as (? & ? & ? & ?).
  - by destruct H4 as [? [?|[]]].
Qed.

(** The checkpoint pipeline on a stored log. *)
Lemma dispatch_checkpoint_spec pg `{J : Jiff} `{!JiffLaws J} factory keys w id row hashes algo ts
    now key prev signer :
  w_slot w = None → holds_log (w_committed w) id row hashes → is_slice hashes →
  row_parses row algo ts → ks_signer keys key = Ok signer →
  let hd := mkTreeHead (len hashes) (root factory (mkDigest algo <$> hashes)) now in
  let '(r, w') := dispatch_checkpoint pg factory keys now id key prev w in
  w_slot w' = None ∧ w_appended w' = w_appended w ∧ w_dropped w' = w_dropped w ∧
  match r with
  | Ok sth => sth = mkSignedTreeHead hd (signer_sign signer (to_canonical_bytes hd)) ∧
      if bool_decide (prev = Some (len hashes)) then w_committed w' = w_committed w
      else holds_log (w_committed w') id row hashes ∧
           others_kept id (w_committed w) (w_committed w') ∧
           t_checkpoints (w_committed w') = anchored (w_committed w) (checkpoint_row id sth)
  | Err e => db_error pg e ∧ w_committed w' = w_committed w
  end.
Proof.
  intros Hslot H Hs Hp Hk hd. unfold dispatch_checkpoint, mediator_send, TracingBehavior.
  cbn [foldr].
  pose proof (tx_checkpoint_handler pg factory keys now id key prev) as Htx.
  pose proof (transaction_commits pg (λ '(l, k, p),
      IssueCheckpointHandler (postgres_gateway pg factory) keys (anchor pg) now l k p)
    (id, key, prev) w _ _ Hslot
    (checkpoint_handler_spec pg factory _ _ _ _ _ _ keys now key prev _ Hs H Hp Hk)) as Hi.
  destruct (TransactionBehavior _ _ _ w) as [r w']. destruct Hi as (H1 & H2 & H3 & H4).
  simpl in *. split_and!; [done..|]. destruct r as [sth|e]; [|by destruct H4 as [? [?|[]]]].
  destruct H4 as [-> H4]. split; [done|]. exact H4.
Qed.

(** It writes nothing when the key is not there. *)
Lemma dispatch_checkpoint_nokey pg `{J : Jiff} `{!JiffLaws J} factory keys w id row hashes algo ts
    now key prev e :
  w_slot w = None → holds_log (w_committed w) id row hashes → is_slice hashes →
  row_parses row algo ts → ks_signer keys key = Err e →
  let '(r, w') := dispatch_checkpoint pg factory keys now id key prev w in
  w_slot w' = None ∧ w_appended w' = w_appended w ∧ w_dropped w' = w_dropped w ∧
  is_ok r = false ∧ w_committed w' = w_committed w.
Proof.
  intros Hslot H Hs Hp Hk. unfold dispatch_checkpoint, mediator_send, TracingBehavior. cbn [foldr].
  pose proof (tx_checkpoint_handler pg factory keys now id key prev) as Htx.
  pose proof (transaction_commits pg (λ '(l, k, p),
      IssueCheckpointHandler (postgres_gateway pg factory) keys (anchor pg) now l k p)
    (id, key, prev) w _ _ Hslot
    (checkpoint_handler_nokey pg factory _ _ _ _ _ _ keys now key prev _ Hs H Hp Hk)) as Hi.
  destruct (TransactionBehavior _ _ _ w) as [[a|e'] w']; destruct Hi as (H1 & H2 & H3 & H4);
    simpl in *; [done|]. by destruct H4.
Qed.

(** Creating a log under an id that is not in use: an empty log. *)
Lemma dispatch_create_spec pg `{J : Jiff} factory w id now :
  w_slot w = None → log_row id (w_committed w) = None → leaf_rows id (w_committed w) = [] →
  let '(r, w') := dispatch_create pg factory id now w in
  w_slot w' = None ∧ w_appended w' = w_appended w ∧ w_dropped w' = w_dropped w ∧
  match r with
  | Ok id' => id' = id ∧ holds_log (w_committed w') id (row_of (factory_create factory id now)) [] ∧
      others_kept id (w_committed w) (w_committed w') ∧
      t_checkpoints (w_committed w') = t_checkpoints (w_committed w)
  | Err e => db_error pg e ∧ w_committed w' = w_committed w
  end.
Proof.
  intros Hslot Hr Hl. unfold dispatch_create, mediator_send, TracingBehavior. cbn [foldr].
  pose proof (tx_create_handler pg factory id now) as Htx.
  assert (triple pg (λ t, t = w_committed w)
    (CreateLogHandler (postgres_gateway pg factory) factory id now)
    (λ i t, i = id ∧ holds_log t id (row_of (factory_create factory id now)) [] ∧
            others_kept id (w_committed w) t ∧ t_checkpoints t = t_checkpoints (w_committed w)) no_error)
    as Ht.
  { unfold CreateLogHandler. eapply triple_bind.
    - apply (gateway_save_new pg (w_committed w) (factory_create factory id now)); [|done|done].
      unfold is_slice, len. simpl. unfold max_len. lia.
    - intros []. by apply triple_ret. }
  pose proof (transaction_commits pg (λ _ : (), CreateLogHandler (postgres_gateway pg factory) factory id now)
    tt w _ _ Hslot Ht) as Hi.
  destruct (TransactionBehavior _ _ _ w) as [[i|e] w']; destruct Hi as (H1 & H2 & H3 & H4); simpl in *;
    (do 3 (split; [done|])); [done|]. by destruct H4 as [? [?|[]]].
Qed.

(** Its row reads back, if the clock's reading is an instant. *)
Lemma create_row_parses `{J : Jiff} factory id now :
  is_ok (from_millisecond (as_millisecond now)) = true →
  ∃ ts, row_parses (row_of (factory_create factory id now)) (hasher_algo factory) ts.
Proof.
  intros Hn. destruct (from_millisecond (as_millisecond now)) as [t|e] eqn:E; [|done].
  exists (mkTimestamps t t). split.
  - simpl. unfold log_algo. simpl. by destruct (hasher_algo factory).
  - exists t, t. unfold Timestamp_from_millis, row_of, as_millis. simpl. rewrite E.
    split_and!; [done..|]. unfold Timestamps_reconstitute. by rewrite Z.ltb_irrefl.
Qed.

(** ** Properties *)


(** C15: the one-row append of the gateway refines the aggregate: if the log that
    [load] rebuilds is [l], then after [append_record] it returns the index
    [TransparencyLog::append] would, and the log that [load] rebuilds has the
    leaves, the size and the root of the aggregate after [append]. *)
Theorem append_record_refines_aggregate pg `{J : Jiff} factory L `{!HasherOk factory L}
    w0 t row hashes id record ts l w1 i w2 l' w3 :
  w_slot w0 = Some (mkTx t false) → holds_log t id row hashes → is_slice hashes →
  row_parses row (hasher_algo factory) ts →
  gateway_load pg factory id w0 = (Ok (Some l), w1) →
  gateway_append_record pg factory id record w1 = (Ok (Some i), w2) →
  gateway_load pg factory id w2 = (Ok (Some l'), w3) →
  i = (log_append l record).1 ∧
  log_leaves l' = log_leaves (log_append l record).2 ∧
  log_size l' = log_size (log_append l record).2 ∧
  log_root l' = log_root (log_append l record).2.
Proof.
  intros Hw0 H Hs (Ha & c & u & Hc & Hu & Hts) Hload Happ Hload'.
  pose proof (gateway_load_spec pg factory t id row hashes _ c u ts Ha Hc Hu Hts w0 t Hw0
    (conj eq_refl H)) as Hl. rewrite Hload in Hl. destruct Hl as (t1 & Hw1 & -> & _ & [= ->]).
  pose proof (gateway_append_record_spec pg factory t id row hashes record Hs w1 t Hw1
    (conj eq_refl H)) as Hp. rewrite Happ in Hp. destruct Hp as (t2 & Hw2 & [= ->] & _ & _ & H2).
  pose proof (gateway_load_spec pg factory t2 id row _ _ c u ts Ha Hc Hu Hts w2 t2 Hw2
    (conj eq_refl H2)) as Hl'. rewrite Hload' in Hl'. destruct Hl' as (t3 & _ & _ & _ & [= ->]).
  assert (mkDigest (hasher_algo factory) <$> (hashes ++ [digest_bytes (leaf factory record)])
    = (mkDigest (hasher_algo factory) <$> hashes) ++ [leaf factory record]) as Hleaves.
  { rewrite fmap_app. simpl. do 2 f_equal. rewrite <- (hasher_tags (leaf_input record)).
    unfold leaf. by destruct (hasher_hash _ _). }
  unfold log_size, log_root. simpl. rewrite Hleaves, len_fmap. done.
Qed.

(** A checkpoint issued through the pipeline signs the canonical bytes of the
    stored log's size and root. If the caller's previous size is the current one
    nothing is written; otherwise the log keeps its leaves and exactly the
    checkpoint row of that signed head is added, unless the size already had one.
    A failure leaves the database as it was. *)
Theorem checkpoint_end_to_end pg `{J : Jiff} `{!JiffLaws J} factory keys w id row hashes algo ts
    now key prev signer :
  w_slot w = None → holds_log (w_committed w) id row hashes → is_slice hashes →
  row_parses row algo ts → ks_signer keys key = Ok signer →
  let hd := mkTreeHead (len hashes) (root factory (mkDigest algo <$> hashes)) now in
  let '(r, w') := dispatch_checkpoint pg factory keys now id key prev w in
  w_slot w' = None ∧
  match r with
  | Ok sth => sth = mkSignedTreeHead hd (signer_sign signer (to_canonical_bytes hd)) ∧
      if bool_decide (prev = Some (len hashes)) then w_committed w' = w_committed w
      else holds_log (w_committed w') id row hashes ∧
           others_kept id (w_committed w) (w_committed w') ∧
           t_checkpoints (w_committed w') = anchored (w_committed w) (checkpoint_row id sth)
  | Err e => db_error pg e ∧ w_committed w' = w_committed w
  end.
Proof.
  intros Hslot H Hs Hp Hk hd.
  pose proof (dispatch_checkpoint_spec pg factory keys w id row hashes algo ts now key prev signer
                Hslot H Hs Hp Hk) as Hd.
  destruct (dispatch_checkpoint _ _ _ _ _ _ _ w) as [r w']. by destruct Hd as (? & _ & _ & ?).
Qed.

(** What the inclusion query answers is right: for a stored log it is either
    a database error, an out-of-range error exactly when there is no such leaf, or
    a self-contained view whose proof verifies for the stored leaf against the
    stored root. The query writes nothing. *)
Theorem inclusion_query_verifies pg `{J : Jiff} factory w id row hashes index :
  holds_log (w_committed w) id row hashes → is_slice hashes →
  let leaves := mkDigest (hasher_algo factory) <$> hashes in
  let '(r, w') := dispatch_inclusion pg factory id index w in
  w_committed w' = w_committed w ∧
  match r with
  | Ok v => leaves !! N.to_nat index = Some (ipv_leaf_hash v) ∧ ipv_root v = root factory leaves ∧
      inclusion factory leaves index = Some (ipv_proof v) ∧
      verify_inclusion factory (ipv_proof v) (ipv_leaf_hash v) (ipv_root v) = Some true
  | Err e => db_error pg e ∨
      (e = LeafOutOfRange index (len hashes) ∧ (len hashes ≤ index)%N)
  end.
Proof.
  intros H Hs leaves. unfold dispatch_inclusion, mediator_send, TracingBehavior. cbn [foldr].
  unfold GetInclusionProofHandler. simpl. unfold query_inclusion_proof, mbind at 1, st_bind at 1.
  pose proof (log_exists_held pg id w row hashes H) as He.
  destruct (log_exists pg id w) as [[ex|e] w1]; [|by destruct He; auto].
  destruct He as [-> Hc1]. simpl. unfold mbind, st_bind.
  rewrite <- Hc1 in H. pose proof (load_leaves_held pg factory id w1 row hashes H) as Hl.
  destruct (load_leaves pg factory id w1) as [[ds|e] w2]; destruct Hl as [Hd Hc2];
    [|rewrite Hc2; auto].
  subst ds. fold leaves. rewrite <- Hc1, <- Hc2.
  destruct (leaves !! N.to_nat index) as [lf|] eqn:Hi.
  - destruct (inclusion_at factory leaves index lf) as (proof & Hp & _ & _ & ?);
      [by apply is_slice_fmap|done|]. rewrite Hp. simpl. auto.
  - destruct (inclusion factory leaves index); simpl; (split; [done|]); right;
      apply lookup_ge_None in Hi; unfold leaves in *; rewrite length_fmap in Hi;
      rewrite len_fmap; (split; [done|unfold len; lia]).
Qed.

(** The same for the consistency query: the view relates the root of the
    first [first] stored leaves with the root of all of them, its proof verifies,
    and the out-of-range error is raised exactly for size 0 and sizes beyond the
    log. *)
Theorem consistency_query_verifies pg `{J : Jiff} factory w id row hashes first :
  holds_log (w_committed w) id row hashes → is_slice hashes →
  let leaves := mkDigest (hasher_algo factory) <$> hashes in
  let '(r, w') := dispatch_consistency pg factory id first w in
  w_committed w' = w_committed w ∧
  match r with
  | Ok v => cpv_old_root v = root factory (take (N.to_nat first) leaves) ∧
      cpv_new_root v = root factory leaves ∧
      consistency factory leaves first = Some (cpv_proof v) ∧
      verify_consistency factory (cpv_proof v) (cpv_old_root v) (cpv_new_root v) = Some true
  | Err e => db_error pg e ∨
      (e = SizeOutOfRange first (len hashes) ∧ ¬ (1 ≤ first ≤ len hashes)%N)
  end.
Proof.
  intros H Hs leaves. unfold dispatch_consistency, mediator_send, TracingBehavior. cbn [foldr].
  unfold GetConsistencyProofHandler. simpl. unfold query_consistency_proof, mbind at 1, st_bind at 1.
  pose proof (log_exists_held pg id w row hashes H) as He.
  destruct (log_exists pg id w) as [[ex|e] w1]; [|by destruct He; auto].
  destruct He as [-> Hc1]. simpl. unfold mbind, st_bind.
  rewrite <- Hc1 in H. pose proof (load_leaves_held pg factory id w1 row hashes H) as Hl.
  destruct (load_leaves pg factory id w1) as [[ds|e] w2]; destruct Hl as [Hd Hc2];
    [|rewrite Hc2; auto].
  subst ds. fold leaves. rewrite <- Hc1, <- Hc2.
  assert (len leaves = len hashes) as Hlen by apply len_fmap.
  destruct (decide (1 ≤ first ≤ len hashes)%N) as [Hin|Hout].
  - destruct (consistency_at factory leaves first) as (proof & Hp & _ & _ & ?);
      [by apply is_slice_fmap|by rewrite Hlen|]. rewrite Hp. simpl. auto.
  - assert (consistency factory leaves first = None) as ->.
    { unfold consistency. rewrite Hlen. cbv zeta. decide_cmp. }
    simpl. rewrite Hlen. auto.
Qed.

(** ** Witnesses: one stored log with two leaves, no database failures *)

#[local] Existing Instances demo_jiff demo_jiff_laws.

Definition demo_pg : Pg := mkPg (λ _, None) (lit "fk") (lit "dup") (lit "range") (lit "aborted").

Definition demo_row : LogRow := mkLogRow 7%N 10 20 1.

Definition demo_hashes : list bytes := digest_bytes <$> (leaf demo_hasher <$> [lit "a"; lit "b"]).

Definition demo_tables : Tables := mkTables [demo_row] (leaf_table 7%N 0 demo_hashes) [].

Definition demo_world : World := mkWorld demo_tables None 0 0 0.

Definition demo_open : World := mkWorld demo_tables (Some (mkTx demo_tables false)) 0 0 0.

Definition demo_keys : KeyStore :=
  ed25519_key_store (KeyStore_from_seed ToyBackend.backend (lit "k") (ToyBackend.zeros 32)).

Definition demo_ts : Timestamps := mkTimestamps 10%Z 20%Z.

Lemma demo_held : holds_log demo_tables 7%N demo_row demo_hashes.
Proof. split; vm_compute; reflexivity. Qed.

Lemma demo_parses : row_parses demo_row Sha256 demo_ts.
Proof. split; [reflexivity|]. exists 10%Z, 20%Z. split_and!; reflexivity. Qed.


Definition demo_loaded : TransparencyLog :=
  factory_reconstitute demo_hasher 7%N demo_ts (leaf demo_hasher <$> [lit "a"; lit "b"]).
Definition demo_w1 : World := (gateway_load demo_pg demo_hasher 7%N demo_open).2.
Definition demo_w2 : World := (gateway_append_record demo_pg demo_hasher 7%N (lit "c") demo_w1).2.
Definition demo_w3 : World := (gateway_load demo_pg demo_hasher 7%N demo_w2).2.
Definition demo_loaded' : TransparencyLog :=
  factory_reconstitute demo_hasher 7%N demo_ts (leaf demo_hasher <$> [lit "a"; lit "b"; lit "c"]).

Lemma append_record_refines_aggregate_witness :
  2%N = (log_append demo_loaded (lit "c")).1 ∧
  log_leaves demo_loaded' = log_leaves (log_append demo_loaded (lit "c")).2 ∧
  log_size demo_loaded' = log_size (log_append demo_loaded (lit "c")).2 ∧
  log_root demo_loaded' = log_root (log_append demo_loaded (lit "c")).2.
Proof.
  apply (append_record_refines_aggregate demo_pg demo_hasher 32 demo_open demo_tables demo_row
    demo_hashes 7%N (lit "c") demo_ts demo_loaded demo_w1 2 demo_w2 demo_loaded' demo_w3);
    [reflexivity|apply demo_held|vm_compute; discriminate|apply demo_parses
    |vm_compute; reflexivity..].
Defined.

Lemma checkpoint_end_to_end_witness :
  let hd := mkTreeHead 2 (root demo_hasher (mkDigest Sha256 <$> demo_hashes)) 30%Z in
  let signer := Ed25519Signer ToyBackend.backend (ToyBackend.zeros 32) (lit "k") in
  let '(r, w') := dispatch_checkpoint demo_pg demo_hasher demo_keys 30%Z 7%N (lit "k") (Some 1%N)
                    demo_world in
  w_slot w' = None ∧
  match r with
  | Ok sth => sth = mkSignedTreeHead hd (signer_sign signer (to_canonical_bytes hd)) ∧
      if bool_decide (Some 1%N = Some 2%N) then w_committed w' = demo_tables
      else holds_log (w_committed w') 7%N demo_row demo_hashes ∧
           others_kept 7%N demo_tables (w_committed w') ∧
           t_checkpoints (w_committed w') = anchored demo_tables (checkpoint_row 7%N sth)
  | Err e => db_error demo_pg e ∧ w_committed w' = demo_tables
  end.
Proof.
  apply (checkpoint_end_to_end demo_pg demo_hasher demo_keys demo_world 7%N demo_row demo_hashes
    Sha256 demo_ts 30%Z (lit "k") (Some 1%N));
    [reflexivity|apply demo_held|vm_compute; discriminate|apply demo_parses|reflexivity].
Defined.
