(* ===== verification/Concurrent.v ===== *)
(** * Concurrent: the store under interleaved transactions
    (crates/agate-audit/src: infrastructure/persistence, application/usecases,
    application/common/behaviors, setup/ioc/providers/postgres.rs)

    Requests are served concurrently, each in a scope of its own with a transaction of its
    own.  Here a transaction is a program of SQL statements, and the statements of any
    number of them are interleaved under the rules PostgreSQL documents for its default
    isolation level, READ COMMITTED: a statement sees what is committed when it runs and
    what its own transaction wrote; a write waits for a transaction in progress that wrote
    the same key; a commit publishes the writes at once.  Any statement may fail, a commit
    may fail with or without having taken effect, and a request may be given up. *)
From stdpp Require Import gmap pretty options.
From S2P Require Import Prelude Crypto Merkle TransparencyLog AuditStore AuditApp.

(** ** Programs *)

(** The statements that write, each with its SQL of [AuditStore]. *)
Inductive Write :=
| UpsertLog (row : LogRow)
| InsertLeaf (row : LeafRow)
| InsertLeafOrIgnore (row : LeafRow)
| InsertCheckpointOrIgnore (row : CheckpointRow).

Inductive Prog (A : Type) :=
| Done (r : result AuditError A)
| SelectLog (id : LogId) (k : option LogRow → Prog A)
| SelectLeaves (id : LogId) (k : list bytes → Prog A)
| SelectNext (id : LogId) (k : Z → Prog A)
| Execute (write : Write) (k : Prog A).
Arguments Done {A} _.
Arguments SelectLog {A} _ _.
Arguments SelectLeaves {A} _ _.
Arguments SelectNext {A} _ _.
Arguments Execute {A} _ _.

#[export] Instance prog_ret : MRet Prog := λ A a, Done (Ok a).
#[export] Instance prog_bind : MBind Prog := λ A B f,
  fix bind p :=
    match p with
    | Done (Ok a) => f a
    | Done (Err e) => Done (Err e)
    | SelectLog id k => SelectLog id (λ x, bind (k x))
    | SelectLeaves id k => SelectLeaves id (λ x, bind (k x))
    | SelectNext id k => SelectNext id (λ x, bind (k x))
    | Execute wr k => Execute wr (bind k)
    end.

Section programs.
Context (pg : Pg) `{J : Jiff} (factory : Hasher) (keys : KeyStore).

Definition execute (wr : Write) : Tables → result bytes (unit * Tables) :=
  match wr with
  | UpsertLog row => upsert_log row
  | InsertLeaf row => insert_leaf pg row
  | InsertLeafOrIgnore row => insert_leaf_or_ignore pg row
  | InsertCheckpointOrIgnore row => insert_checkpoint_or_ignore pg row
  end.

(** *** The gateways *)

Definition append_prog (id : LogId) (record : bytes) : Prog (option N) :=
  SelectLog id (λ found,
    match found with
    | None => Done (Ok None)
    | Some _ =>
        SelectNext id (λ next,
          Execute (InsertLeaf (mkLeafRow id next (digest_bytes (leaf (factory_merkle_hasher factory) record))))
            (Done (Ok (Some (as_u64 next)))))
    end).

Definition load_prog (id : LogId) : Prog (option TransparencyLog) :=
  SelectLog id (λ found,
    match found with
    | None => Done (Ok None)
    | Some row =>
        match HashAlgo_from_code (as_u8 (lr_algo row)) with
        | None => Done (Err (Storage (lit "unknown hash algo code " ++ lit (pretty (lr_algo row)))))
        | Some algo =>
            SelectLeaves id (λ hashes,
              Done (map_err Domain (
                c ← Timestamp_from_millis (lr_created row);
                u ← Timestamp_from_millis (lr_updated row);
                ts ← Timestamps_reconstitute c u;
                Ok (Some (factory_reconstitute factory id ts (mkDigest algo <$> hashes))))))
        end
    end).

Fixpoint save_leaves (id : LogId) (leaves : list (nat * Digest)) : Prog unit :=
  match leaves with
  | [] => Done (Ok tt)
  | (index, lf) :: rest =>
      Execute (InsertLeafOrIgnore (mkLeafRow id (as_i64 (N.of_nat index)) (digest_bytes lf)))
        (save_leaves id rest)
  end.

Definition save_prog (log : TransparencyLog) : Prog unit :=
  Execute (UpsertLog (row_of log)) (save_leaves (log_id log) (enumerate (log_leaves log))).

Definition anchor_prog (id : LogId) (sth : SignedTreeHead) : Prog unit :=
  Execute (InsertCheckpointOrIgnore (checkpoint_row id sth)) (Done (Ok tt)).

(** *** The commands *)

Inductive Command :=
| Append (log : LogId) (record : bytes)
| Checkpoint (now : Timestamp) (log : LogId) (key : KeyId) (previous_size : option N)
| Create (id : LogId) (now : Timestamp).

Inductive Reply :=
| Appended (index : N)
| Checkpointed (sth : SignedTreeHead)
| Created (id : LogId).

(** What a command does between [begin] and [commit]. *)
Definition body (c : Command) : Prog Reply :=
  match c with
  | Append log record =>
      r ← append_prog log record;
      match r with
      | Some index => mret (Appended index)
      | None => Done (Err (LogNotFound log))
      end
  | Checkpoint now log key previous_size =>
      loaded ← load_prog log;
      match loaded with
      | None => Done (Err (LogNotFound log))
      | Some l =>
          match ks_signer keys key with
          | Err e => Done (Err e)
          | Ok signer =>
              if bool_decide (previous_size = Some (log_size l)) then
                mret (Checkpointed (CheckpointSigner_sign signer (log_head l now)))
              else
                let '(hd, l') := log_issue_checkpoint l now in
                let sth := CheckpointSigner_sign signer hd in
                _ ← anchor_prog log sth;
                _ ← save_prog l';
                mret (Checkpointed sth)
          end
      end
  | Create id now =>
      _ ← save_prog (factory_create factory id now);
      mret (Created id)
  end.

(** *** One program alone *)

Fixpoint alone {A} (p : Prog A) : Op A :=
  match p with
  | Done r => st_lift r
  | SelectLog id k => x ← statement pg (λ t, Ok (log_row id t, t)); alone (k x)
  | SelectLeaves id k => x ← statement pg (λ t, Ok (select_leaf_hashes id t, t)); alone (k x)
  | SelectNext id k => x ← statement pg (select_next_index pg id); alone (k x)
  | Execute wr k => _ ← statement pg (execute wr); alone k
  end.

(** The handler a command is for. *)
Definition handler (c : Command) : Op Reply :=
  match c with
  | Append log record =>
      index ← AppendRecordHandler (postgres_gateway pg factory) log record; mret (Appended index)
  | Checkpoint now log key prev =>
      sth ← IssueCheckpointHandler (postgres_gateway pg factory) keys (anchor pg) now log key prev;
      mret (Checkpointed sth)
  | Create id now =>
      id ← CreateLogHandler (postgres_gateway pg factory) factory id now; mret (Created id)
  end.

Lemma alone_bind {A B} (p : Prog A) (k : A → Prog B) w :
  alone (p ≫= k) w = match alone p w with (Ok a, w') => alone (k a) w' | (Err e, w') => (Err e, w') end.
Proof.
  revert w. induction p as [[a|e]|id f IH|id f IH|id f IH|wr f IH]; intros w; [done..| | | |];
    cbn [alone mbind prog_bind]; unfold mbind, st_bind in *; fold (mbind (M := Prog) k);
    match goal with |- context [statement pg ?r w] => destruct (statement pg r w) as [[x|e] w'] end;
    try done; apply IH.
Qed.

(** While a transaction is open the [connection] checks of the gateways pass. *)
Lemma connection_open {A} msg (m : Op A) w tx :
  w_slot w = Some tx → (_ ← connection msg; m) w = m w.
Proof. intros H. unfold mbind, st_bind, connection. by rewrite H. Qed.

Lemma alone_append id record w tx :
  w_slot w = Some tx → alone (append_prog id record) w = gateway_append_record pg factory id record w.
Proof.
  intros Hw. unfold gateway_append_record. rewrite (connection_open _ _ _ _ Hw).
  unfold append_prog. cbn [alone]. unfold mbind, st_bind.
  destruct (statement pg _ w) as [[[row|]|e] w1]; [|done..]. cbn [alone]. unfold mbind, st_bind.
  destruct (statement pg (select_next_index pg id) w1) as [[n|e] w2]; done.
Qed.

Lemma alone_load id w tx :
  w_slot w = Some tx → alone (load_prog id) w = gateway_load pg factory id w.
Proof.
  intros Hw. unfold gateway_load. rewrite (connection_open _ _ _ _ Hw).
  unfold load_prog. cbn [alone]. unfold mbind, st_bind.
  destruct (statement pg _ w) as [[[row|]|e] w1]; [|done..].
  destruct (HashAlgo_from_code _) as [algo|]; [|done]. cbn [alone]. unfold mbind, st_bind.
  destruct (statement pg _ w1) as [[hs|e] w2]; [|done]. unfold domain, st_lift. cbn [alone].
  unfold st_lift. simpl. destruct (Timestamp_from_millis (lr_created row)) as [c|]; [|done]. simpl.
  destruct (Timestamp_from_millis (lr_updated row)) as [u|]; [|done]. simpl.
  by destruct (Timestamps_reconstitute c u).
Qed.

Lemma alone_save_leaves id ls w :
  alone (save_leaves id ls) w
  = st_iter (λ '(index, lf), statement pg (insert_leaf_or_ignore pg
      (mkLeafRow id (as_i64 (N.of_nat index)) (digest_bytes lf)))) ls w.
Proof.
  revert w. induction ls as [|[i lf] ls IH]; intros w; [done|]. cbn [save_leaves alone st_iter execute].
  unfold mbind, st_bind. destruct (statement pg _ w) as [[[]|e] w1]; [apply IH|done].
Qed.

Lemma alone_save log w tx : w_slot w = Some tx → alone (save_prog log) w = gateway_save pg log w.
Proof.
  intros Hw. unfold gateway_save. rewrite (connection_open _ _ _ _ Hw). unfold save_prog.
  cbn [alone execute]. unfold mbind, st_bind, row_of.
  destruct (statement pg _ w) as [[[]|e] w1]; [apply alone_save_leaves|done].
Qed.

Lemma alone_anchor id sth w tx : w_slot w = Some tx → alone (anchor_prog id sth) w = anchor pg id sth w.
Proof.
  intros Hw. unfold anchor. rewrite (connection_open _ _ _ _ Hw). unfold anchor_prog.
  cbn [alone execute]. unfold mbind, st_bind, checkpoint_row. by destruct (statement pg _ w) as [[[]|e] w1].
Qed.

Lemma statement_open {A} (run : Tables → result bytes (A * Tables)) w tx :
  w_slot w = Some tx → ∃ tx', w_slot (statement pg run w).2 = Some tx'.
Proof.
  intros Hw. unfold statement. rewrite Hw. destruct (tx_aborted tx); [by eexists|].
  destruct (fault pg _); [by eexists|]. destruct (run _) as [[]|]; by eexists.
Qed.

Lemma alone_open {A} (p : Prog A) w tx : w_slot w = Some tx → ∃ tx', w_slot (alone p w).2 = Some tx'.
Proof.
  revert w tx. induction p as [r|id f IH|id f IH|id f IH|wr f IH]; intros w tx Hw; [by eexists|..];
    cbn [alone]; unfold mbind, st_bind;
    match goal with |- context [statement pg ?r w] =>
      destruct (statement_open r w tx Hw) as [tx' Hw']; destruct (statement pg r w) as [[x|e] w'] end;
    simpl in *; eauto.
Qed.

(** On an open transaction nobody interferes with, the program of a command is its handler. *)
Lemma alone_body c w tx : w_slot w = Some tx → alone (body c) w = handler c w.
Proof.
  intros Hw. destruct c as [log record|now log key prev|id now]; cbn [body handler]; rewrite alone_bind.
  - unfold AppendRecordHandler. rewrite !st_bindE, (alone_append _ _ _ _ Hw).
    cbn [lcg_append_record postgres_gateway].
    by destruct (gateway_append_record pg factory log record w) as [[[i|]|e] w1].
  - unfold IssueCheckpointHandler. rewrite !st_bindE, (alone_load _ _ _ Hw).
    destruct (alone_open (load_prog log) w tx Hw) as [tx1 Hw1].
    rewrite (alone_load _ _ _ Hw) in Hw1. cbn [lcg_load postgres_gateway].
    destruct (gateway_load pg factory log w) as [[[l|]|e] w1]; [|done..]. simpl in Hw1.
    rewrite st_bindE. unfold st_lift. destruct (ks_signer keys key) as [signer|e]; [|done].
    case_bool_decide; [done|]. cbn [log_issue_checkpoint]. rewrite alone_bind, !st_bindE.
    set (sth := CheckpointSigner_sign signer (log_head l now)).
    destruct (alone_open (anchor_prog log sth) w1 tx1 Hw1) as [tx2 Hw2].
    rewrite (alone_anchor _ _ _ _ Hw1) in Hw2 |- *.
    destruct (anchor pg log sth w1) as [[[]|e] w2]; [|done]. simpl in Hw2.
    rewrite alone_bind, !st_bindE, (alone_save _ _ _ Hw2).
    cbn [lcg_save postgres_gateway]. by destruct (gateway_save pg _ w2) as [[[]|e] w3].
  - unfold CreateLogHandler. rewrite !st_bindE, (alone_save _ _ _ Hw). cbn [lcg_save postgres_gateway].
    by destruct (gateway_save pg _ w) as [[[]|e] w1].
Qed.
End programs.

(** ** The database with its transactions *)

(** What a write locks until its transaction ends. *)
Inductive Key :=
| Key_Checkpoint (id : LogId) (size : Z)
| Key_Log (id : LogId)
| Key_Leaf (id : LogId) (index : Z).

#[export] Instance key_eq_dec : EqDecision Key.
Proof. solve_decision. Defined.

Definition key_of (wr : Write) : Key :=
  match wr with
  | UpsertLog row => Key_Log (lr_id row)
  | InsertLeaf row | InsertLeafOrIgnore row => Key_Leaf (lf_log row) (lf_index row)
  | InsertCheckpointOrIgnore row => Key_Checkpoint (cr_log row) (cr_size row)
  end.

(** A transaction in progress, with its writes and the rest of its program, or at its end,
    with what its client was told. *)
Inductive Progress :=
| Running (writes : list Write) (rest : Prog Reply)
| Finished (answer : result AuditError Reply)
| GivenUp.

Record Db := mkDb { db_tables : Tables; db_sessions : gmap nat (Command * Progress) }.

(** What happens to one of the sessions: it begins, it goes on, or it is interrupted. *)
Inductive Label := Begins (i : nat) | Proceeds (i : nat) | Interrupted (i : nat).

Section database.
Context (pg : Pg) `{J : Jiff} (factory : Hasher) (keys : KeyStore).

(** The writes of a transaction on top of [t]. *)
Definition apply_write (t : Tables) (wr : Write) : Tables :=
  match execute pg wr t with Ok (_, t') => t' | Err _ => t end.
Definition apply_writes (ws : list Write) (t : Tables) : Tables := foldl apply_write t ws.

(** An [ON CONFLICT DO NOTHING] that finds its key taken writes nothing. *)
Definition ignored (wr : Write) (t : Tables) : bool :=
  match wr with
  | InsertLeafOrIgnore row => has_leaf (lf_log row) (lf_index row) t
  | InsertCheckpointOrIgnore row => has_checkpoint (cr_log row) (cr_size row) t
  | _ => false
  end.

(** Another transaction in progress wrote the key. *)
Definition blocked (g : Db) (i : nat) (wr : Write) : Prop :=
  ∃ j c ws rest, j ≠ i ∧ db_sessions g !! j = Some (c, Running ws rest) ∧ key_of wr ∈ key_of <$> ws.

(** The next statement of a transaction with writes [ws]: its writes and its program after. *)
Inductive statement_step (t : Tables) (ws : list Write) : Prog Reply → list Write → Prog Reply → Prop :=
| Step_log id k : statement_step t ws (SelectLog id k) ws (k (log_row id (apply_writes ws t)))
| Step_leaves id k :
    is_slice (select_leaf_hashes id (apply_writes ws t)) →
    statement_step t ws (SelectLeaves id k) ws (k (select_leaf_hashes id (apply_writes ws t)))
| Step_next id k n t' :
    select_next_index pg id (apply_writes ws t) = Ok (n, t') →
    statement_step t ws (SelectNext id k) ws (k n)
| Step_next_error id k e :
    select_next_index pg id (apply_writes ws t) = Err e →
    statement_step t ws (SelectNext id k) ws (Done (Err (Storage e)))
| Step_write wr k u :
    execute pg wr (apply_writes ws t) = Ok u →
    statement_step t ws (Execute wr k)
      (if ignored wr (apply_writes ws t) then ws else ws ++ [wr]) k
| Step_write_error wr k e :
    execute pg wr (apply_writes ws t) = Err e →
    statement_step t ws (Execute wr k) ws (Done (Err (Storage e))).

Definition waits (g : Db) (i : nat) (p : Prog Reply) : Prop :=
  match p with Execute wr _ => blocked g i wr | _ => False end.

Inductive db_step (g : Db) : Label → Db → Prop :=
(** A request gets a scope and a transaction, or no connection. *)
| Db_begin i c :
    db_sessions g !! i = None →
    db_step g (Begins i) (mkDb (db_tables g) (<[i := (c, Running [] (body factory keys c))]> (db_sessions g)))
| Db_begin_fails i c e :
    db_sessions g !! i = None →
    db_step g (Begins i) (mkDb (db_tables g) (<[i := (c, Finished (Err (Storage e)))]> (db_sessions g)))
| Db_statement i c ws p ws' p' :
    db_sessions g !! i = Some (c, Running ws p) → ¬ waits g i p →
    statement_step (db_tables g) ws p ws' p' →
    db_step g (Proceeds i) (mkDb (db_tables g) (<[i := (c, Running ws' p')]> (db_sessions g)))
| Db_commit i c ws r :
    db_sessions g !! i = Some (c, Running ws (Done (Ok r))) →
    db_step g (Proceeds i)
      (mkDb (apply_writes ws (db_tables g)) (<[i := (c, Finished (Ok r))]> (db_sessions g)))
| Db_rollback i c ws e :
    db_sessions g !! i = Some (c, Running ws (Done (Err e))) →
    db_step g (Proceeds i) (mkDb (db_tables g) (<[i := (c, Finished (Err e))]> (db_sessions g)))
(** The database fails a statement. *)
| Db_fault i c ws p e :
    db_sessions g !! i = Some (c, Running ws p) → (∀ r, p ≠ Done r) →
    db_step g (Interrupted i)
      (mkDb (db_tables g) (<[i := (c, Running ws (Done (Err (Storage e))))]> (db_sessions g)))
(** A commit fails, and may have taken effect. *)
| Db_commit_fails i c ws r e (applied : bool) :
    db_sessions g !! i = Some (c, Running ws (Done (Ok r))) →
    db_step g (Interrupted i)
      (mkDb (if applied then apply_writes ws (db_tables g) else db_tables g)
         (<[i := (c, Finished (Err (Storage e)))]> (db_sessions g)))
(** The client is gone: the scope closes and its finalizer rolls back, unless a commit was
    under way. *)
| Db_give_up i c ws p (applied : bool) :
    db_sessions g !! i = Some (c, Running ws p) → (applied = true → ∃ r, p = Done (Ok r)) →
    db_step g (Interrupted i)
      (mkDb (if applied then apply_writes ws (db_tables g) else db_tables g)
         (<[i := (c, GivenUp)]> (db_sessions g))).

Definition db_steps : Db → Db → Prop := rtc (λ g g', ∃ l, db_step g l g').

(** *** Running a schedule *)

Definition holds_key (i : nat) (wr : Write) (x : nat * (Command * Progress)) : bool :=
  negb (x.1 =? i) && match x.2.2 with
                     | Running ws _ => bool_decide (key_of wr ∈ key_of <$> ws)
                     | _ => false
                     end.

Definition blockedb (g : Db) (i : nat) (wr : Write) : bool :=
  existsb (holds_key i wr) (map_to_list (db_sessions g)).

(** A statement that does not have to wait. *)
Definition next_statement (t : Tables) (ws : list Write) (p : Prog Reply) : option (list Write * Prog Reply) :=
  let view := apply_writes ws t in
  match p with
  | Done _ => None
  | SelectLog id k => Some (ws, k (log_row id view))
  | SelectLeaves id k =>
      let l := select_leaf_hashes id view in
      if (len l <=? max_len)%N then Some (ws, k l) else None
  | SelectNext id k =>
      Some (ws, match select_next_index pg id view with
                | Ok (n, _) => k n
                | Err e => Done (Err (Storage e))
                end)
  | Execute wr k =>
      Some (match execute pg wr view with
            | Ok _ => (if ignored wr view then ws else ws ++ [wr], k)
            | Err e => (ws, Done (Err (Storage e)))
            end)
  end.

(** The session [i] goes on, if it can. *)
Definition go (g : Db) (i : nat) : option Db :=
  match db_sessions g !! i with
  | Some (c, Running ws p) =>
      match p with
      | Done (Ok r) =>
          Some (mkDb (apply_writes ws (db_tables g)) (<[i := (c, Finished (Ok r))]> (db_sessions g)))
      | Done (Err e) => Some (mkDb (db_tables g) (<[i := (c, Finished (Err e))]> (db_sessions g)))
      | _ =>
          if match p with Execute wr _ => blockedb g i wr | _ => false end then None
          else '(ws', p') ← next_statement (db_tables g) ws p;
               Some (mkDb (db_tables g) (<[i := (c, Running ws' p')]> (db_sessions g)))
      end
  | _ => None
  end.

Inductive Move := Start (i : nat) (c : Command) | Go (i : nat).

Definition move (g : Db) (m : Move) : option Db :=
  match m with
  | Start i c =>
      match db_sessions g !! i with
      | None => Some (mkDb (db_tables g) (<[i := (c, Running [] (body factory keys c))]> (db_sessions g)))
      | Some _ => None
      end
  | Go i => go g i
  end.

Fixpoint run_schedule (g : Db) (ms : list Move) : option Db :=
  match ms with
  | [] => Some g
  | m :: ms => g' ← move g m; run_schedule g' ms
  end.

Lemma blockedb_spec g i wr : blockedb g i wr = true ↔ blocked g i wr.
Proof.
  unfold blockedb. rewrite existsb_exists. split.
  - intros ([j [c a]] & Hin%list_elem_of_In%elem_of_map_to_list & [Hne Ha]%andb_prop). simpl in *.
    destruct a as [ws p| |]; [|done..]. exists j, c, ws, p. split_and!; [|done|by apply bool_decide_eq_true in Ha].
    intros ->. by rewrite Nat.eqb_refl in Hne.
  - intros (j & c & ws & p & Hne & Hj & Hk). exists (j, (c, Running ws p)).
    split; [by apply list_elem_of_In, elem_of_map_to_list|]. unfold holds_key. simpl.
    rewrite (proj2 (Nat.eqb_neq _ _) Hne). by apply bool_decide_eq_true.
Qed.

Lemma next_statement_sound t ws p ws' p' :
  next_statement t ws p = Some (ws', p') → statement_step t ws p ws' p'.
Proof.
  destruct p as [r|id k|id k|id k|wr k]; simpl; [done|..].
  - intros [= <- <-]. constructor.
  - destruct (N.leb_spec (len (select_leaf_hashes id (apply_writes ws t))) max_len); [|done].
    intros [= <- <-]. by constructor.
  - destruct (select_next_index pg id _) as [[n t']|e] eqn:E; intros [= <- <-]; by econstructor.
  - destruct (execute pg wr _) as [u|e] eqn:E; intros [= <- <-]; by econstructor.
Qed.

Lemma go_sound g i g' : go g i = Some g' → db_step g (Proceeds i) g'.
Proof.
  unfold go. destruct (db_sessions g !! i) as [[c [ws p| |]]|] eqn:Hi; [|done..].
  assert (¬ waits g i p → ∀ x, ('(ws', p') ← next_statement (db_tables g) ws p;
      Some (mkDb (db_tables g) (<[i := (c, Running ws' p')]> (db_sessions g)))) = Some x →
    db_step g (Proceeds i) x) as Hst.
  { intros Hw x. destruct (next_statement _ ws p) as [[ws' p']|] eqn:E; [|done]. intros [= <-].
    by eapply Db_statement; [| |apply next_statement_sound]. }
  destruct p as [[r|e]|id k|id k|id k|wr k]; [intros [= <-]; by econstructor..| | | |].
  1-3: by apply Hst; intros [].
  destruct (blockedb g i wr) eqn:E; [done|]. apply Hst. simpl. rewrite <- blockedb_spec. by rewrite E.
Qed.

Lemma run_schedule_sound ms g g' : run_schedule g ms = Some g' → db_steps g g'.
Proof.
  revert g. induction ms as [|m ms IH]; intros g; simpl; [intros [= <-]; apply rtc_refl|].
  destruct (move g m) as [g1|] eqn:E; [|done]. intros Hr. eapply rtc_l; [|by apply IH].
  destruct m as [i c|i]; simpl in E; [|exists (Proceeds i); by apply go_sound].
  destruct (db_sessions g !! i) eqn:Hi; [done|]. injection E as <-. exists (Begins i). by constructor.
Qed.
End database.

(** ** One log, whatever happens around it *)

Section integrity.
Context (pg : Pg) `{J : Jiff} (factory : Hasher) (keys : KeyStore).
Context (id : LogId) (row0 : LogRow) (hs0 : list bytes) (algo : HashAlgo) (cs0 : list CheckpointRow).
Context (Halgo : HashAlgo_from_code (as_u8 (lr_algo row0)) = Some algo).
#[local] Set Default Proof Using "Type*".

Definition leaf_hash (record : bytes) : bytes := digest_bytes (leaf factory record).

(** A head of a prefix of the log, and a row of one. *)
Definition head_ok (hs : list bytes) (hd : TreeHead) : Prop :=
  ∃ pre, pre `prefix_of` hs ∧ head_size hd = len pre ∧ head_root hd = root factory (mkDigest algo <$> pre).

Definition checkpoint_ok (hs : list bytes) (row : CheckpointRow) : Prop :=
  ∃ pre, pre `prefix_of` hs ∧ cr_size row = Z.of_nat (length pre)
         ∧ cr_root_hash row = digest_bytes (root factory (mkDigest algo <$> pre)).

(** The tables hold the log with leaves [hs], under a row with the algorithm and the date
    of birth of [row0]; its checkpoints are old ones or describe prefixes of it. *)
Definition held (hs : list bytes) (t : Tables) : Prop :=
  (∃ row, holds_log t id row hs ∧ lr_algo row = lr_algo row0 ∧ lr_created row = lr_created row0)
  ∧ ∀ r, r ∈ t_checkpoints t → cr_log r = id → r ∈ cs0 ∨ checkpoint_ok hs r.

(** The leaves of the log a transaction is about to add. *)
Definition pin (wr : Write) : option LeafRow :=
  match wr with
  | InsertLeaf row => if decide (lf_log row = id) then Some row else None
  | _ => None
  end.
Definition pins (ws : list Write) : list LeafRow := omap pin ws.

(** What a program may ask to write when the log has the leaves [hs]. *)
Definition allowed (hs : list bytes) (wr : Write) : Prop :=
  match wr with
  | UpsertLog _ => True
  | InsertLeaf row => lf_log row = id → (0 ≤ lf_index row ≤ Z.of_nat (length hs))%Z
  | InsertLeafOrIgnore row => lf_log row = id → (0 ≤ lf_index row < Z.of_nat (length hs))%Z
  | InsertCheckpointOrIgnore row => cr_log row = id → checkpoint_ok hs row
  end.

(** What a write that had an effect is. *)
Definition write_ok (hs : list bytes) (wr : Write) : Prop :=
  allowed hs wr
  ∧ match wr with
    | InsertLeaf row => lf_log row = id → lf_index row = Z.of_nat (length hs)
    | InsertLeafOrIgnore row => lf_log row ≠ id
    | _ => True
    end.

Lemma head_ok_mono hs hs' hd : hs `prefix_of` hs' → head_ok hs hd → head_ok hs' hd.
Proof. intros Hp (pre & ? & ?). exists pre. split; [by etrans|done]. Qed.

Lemma checkpoint_ok_mono hs hs' r : hs `prefix_of` hs' → checkpoint_ok hs r → checkpoint_ok hs' r.
Proof. intros Hp (pre & ? & ?). exists pre. split; [by etrans|done]. Qed.

Lemma allowed_mono hs hs' wr : hs `prefix_of` hs' → allowed hs wr → allowed hs' wr.
Proof.
  intros Hp. pose proof (prefix_length _ _ Hp). destruct wr; simpl; intros Ha; [done|..]; intros E;
    specialize (Ha E); [lia|lia|by eapply checkpoint_ok_mono].
Qed.

Lemma write_ok_mono hs hs' wr : hs `prefix_of` hs' → pin wr = None → write_ok hs wr → write_ok hs' wr.
Proof.
  intros Hp Hn [Ha Hw]. split; [by eapply allowed_mono|].
  destruct wr; simpl in *; try done. by case_decide.
Qed.

Lemma pins_nil ws : pins ws = [] ↔ Forall (λ wr, pin wr = None) ws.
Proof.
  induction ws as [|wr ws IH]; [by split|]. rewrite Forall_cons. unfold pins in *. simpl.
  destruct (pin wr); [|naive_solver]. split; [done|by intros []].
Qed.

Lemma writes_ok_mono hs hs' ws :
  hs `prefix_of` hs' → pins ws = [] → Forall (write_ok hs) ws → Forall (write_ok hs') ws.
Proof.
  intros Hp Hn%pins_nil Hw. rewrite Forall_forall in *. intros wr Hin.
  eapply write_ok_mono; [done|by apply Hn|by apply Hw].
Qed.

(** *** The effect of the writes *)

Lemma push_leaf_held_other t r u t' row hs :
  push_leaf pg r t = Ok (u, t') → lf_log r ≠ id → holds_log t id row hs → holds_log t' id row hs.
Proof.
  unfold push_leaf. destruct (log_row _ t); [|done]. intros [= <- <-] Hne [Hr Hl]. split; [done|].
  unfold leaf_rows in *. simpl. rewrite List.filter_app, Hl. simpl.
  by rewrite bool_decide_eq_false_2, app_nil_r.
Qed.

Lemma push_leaf_checkpoints t r u t' : push_leaf pg r t = Ok (u, t') → t_checkpoints t' = t_checkpoints t.
Proof. unfold push_leaf. destruct (log_row _ t); [|done]. by intros [= <- <-]. Qed.

Lemma upsert_held hs t row : held hs t → held hs (apply_write pg t (UpsertLog row)).
Proof.
  intros [(r & Hh & Ha & Hc) Hcs]. unfold apply_write. cbn [execute].
  destruct (decide (lr_id row = id)) as [E|Hne].
  - destruct Hh as [Hr Hl]. rewrite <- E in Hr. destruct (upsert_log_old t row r Hr) as (t' & -> & Hr' & Hl' & Hk & _).
    split; [|by rewrite Hk]. rewrite E in Hr'. eexists. split; [split; [exact Hr'|]|done]. unfold leaf_rows. by rewrite Hl'.
  - destruct (log_row (lr_id row) t) as [old|] eqn:E.
    + destruct (upsert_log_old t row old E) as (t' & -> & _ & _ & Hk & Ho).
      split; [|by rewrite Hk]. exists r. split; [by apply Ho|done].
    + destruct (upsert_log_new t row E) as (t' & -> & _ & _ & Hk & Ho).
      split; [|by rewrite Hk]. exists r. split; [by apply Ho|done].
Qed.

Lemma push_held hs t r :
  held hs t → lf_log r ≠ id → held hs (match push_leaf pg r t with Ok (_, t') => t' | Err _ => t end).
Proof.
  intros Ht Hne. destruct (push_leaf pg r t) as [[u t']|e] eqn:E; [|done].
  destruct Ht as [(row & Hh & Hl) Hcs]. split; [|by rewrite (push_leaf_checkpoints _ _ _ _ E)].
  exists row. split; [by eapply push_leaf_held_other|done].
Qed.

Lemma write_held hs t wr : held hs t → write_ok hs wr → pin wr = None → held hs (apply_write pg t wr).
Proof.
  intros Ht [Ha Hw] Hp. destruct wr as [row|r|r|r]; [by apply upsert_held|..]; simpl in *;
    unfold apply_write; cbn [execute].
  - case_decide; [done|]. unfold insert_leaf. destruct (has_leaf _ _ t); [done|by apply push_held].
  - unfold insert_leaf_or_ignore. destruct (has_leaf _ _ t); [done|by apply push_held].
  - unfold insert_checkpoint_or_ignore. destruct (has_checkpoint _ _ t); [done|].
    destruct (log_row _ t); [|done]. destruct Ht as [(row & Hh & Hl) Hcs]. split; [by exists row|].
    simpl. intros r' [?| ->%list_elem_of_singleton]%elem_of_app; [by apply Hcs|]. intros E. right. by apply Ha.
Qed.

Lemma writes_held hs t ws :
  held hs t → Forall (write_ok hs) ws → pins ws = [] → held hs (apply_writes pg ws t).
Proof.
  intros Ht Hw Hp%pins_nil. revert t Ht. unfold apply_writes.
  induction ws as [|wr ws IH]; intros t Ht; [done|]. inv Hw. inv Hp. simpl.
  apply IH; [done..|]. by apply write_held.
Qed.

Lemma pin_held hs t h :
  held hs t → held (hs ++ [h]) (apply_writes pg [InsertLeaf (mkLeafRow id (Z.of_nat (length hs)) h)] t).
Proof.
  intros [(row & Hh & Hl) Hcs]. unfold apply_writes, apply_write. cbn [foldl execute].
  unfold insert_leaf. cbn [lf_log lf_index].
  rewrite (has_leaf_held _ _ _ _ _ Hh), (proj2 (Z.ltb_ge _ _)), andb_false_r by lia.
  destruct (push_leaf_held pg t id row hs h Hh) as (t' & -> & Hh' & Hk & _). split; [by exists row|].
  rewrite Hk. intros r Hr E. destruct (Hcs r Hr E) as [?|Hok]; [by left|right].
  eapply checkpoint_ok_mono; [|done]. by eexists.
Qed.

(** *** What the programs do, whatever the others do in between *)

Definition grown (hs hs' : list bytes) : Prop := hs `prefix_of` hs' ∧ is_slice hs'.

Definition ignorable (wr : Write) : Prop :=
  match wr with InsertLeafOrIgnore _ | InsertCheckpointOrIgnore _ => True | _ => False end.

(** A program run from writes [ws], while the log grows from [hs] on, ends in [Q]: before
    every statement the log may have grown, and a program that is to add a leaf has no
    other statement to come. *)
Fixpoint spec {A} (Q : list bytes → list Write → A → Prop) (hs : list bytes) (ws : list Write)
    (p : Prog A) : Prop :=
  match p with
  | Done (Ok a) => Q hs ws a
  | Done (Err _) => True
  | SelectLog log k => pins ws = [] ∧ ∀ hs' found, grown hs hs' →
      (log = id → ∃ row, found = Some row ∧ lr_algo row = lr_algo row0) → spec Q hs' ws (k found)
  | SelectLeaves log k => pins ws = [] ∧ ∀ hs' l, grown hs hs' →
      is_slice l → (log = id → l = hs') → spec Q hs' ws (k l)
  | SelectNext log k => pins ws = [] ∧ ∀ hs' n, grown hs hs' →
      (log = id → n = Z.of_nat (length hs')) → spec Q hs' ws (k n)
  | Execute wr k => pins ws = [] ∧ ∀ hs', grown hs hs' →
      allowed hs' wr ∧ (ignorable wr → spec Q hs' ws k) ∧ (write_ok hs' wr → spec Q hs' (ws ++ [wr]) k)
  end.

Lemma grown_trans hs hs' hs'' : grown hs hs' → grown hs' hs'' → grown hs hs''.
Proof. intros [? _] [? ?]. split; [by etrans|done]. Qed.

Lemma grown_refl hs : is_slice hs → grown hs hs.
Proof. done. Qed.

Lemma spec_mono {A} (Q : list bytes → list Write → A → Prop) hs hs' ws p :
  grown hs hs' → (∀ a, Q hs ws a → Q hs' ws a) → spec Q hs ws p → spec Q hs' ws p.
Proof.
  intros Hg HQ. destruct p as [[a|e]|log k|log k|log k|wr k]; simpl; [by auto|done|..];
    intros [Hn Hk]; (split; [done|]); intros; apply Hk; try done; by eapply grown_trans.
Qed.

Lemma spec_bind {A B} (Q : list bytes → list Write → B → Prop) (p : Prog A) (k : A → Prog B) hs ws :
  spec (λ hs ws a, spec Q hs ws (k a)) hs ws p → spec Q hs ws (p ≫= k).
Proof.
  revert hs ws. induction p as [[a|e]|log f IH|log f IH|log f IH|wr f IH]; intros hs ws; [done..| | | |];
    simpl; intros [Hn Hf]; (split; [done|]); intros; [by apply IH, Hf..|].
  destruct (Hf hs') as (Ha & Hi & Hw); [done|]. naive_solver.
Qed.

Lemma pins_app ws ws' : pins (ws ++ ws') = pins ws ++ pins ws'.
Proof. apply omap_app. Qed.

Lemma save_leaves_ok (Q : list bytes → list Write → unit → Prop) log ls : ∀ k hs ws,
  is_slice hs → pins ws = [] → (log = id → k + length ls ≤ length hs) →
  (∀ hs' ws', grown hs hs' → pins ws' = [] → Q hs' ws' tt) →
  spec Q hs ws (save_leaves log (enumerate_from k ls)).
Proof.
  induction ls as [|l ls IH]; intros k hs ws Hs Hn Hk HQ; simpl; [by apply HQ|].
  split; [done|]. intros hs' Hg. pose proof (prefix_length _ _ (proj1 Hg)) as Hlen.
  assert (∀ ws', pins ws' = [] → spec Q hs' ws' (save_leaves log (enumerate_from (S k) ls))) as Hrest.
  { intros ws' Hn'. apply IH; [apply Hg|done| |].
    - intros E. specialize (Hk E). simpl in Hk. lia.
    - intros. apply HQ; [by eapply grown_trans|done]. }
  split_and!; [|by intros _; apply Hrest|by intros _; apply Hrest; rewrite pins_app, Hn].
  intros E. specialize (Hk E). simpl in Hk. destruct Hg as [_ Hs']. unfold is_slice, len in Hs'.
  rewrite as_i64_small by lia. lia.
Qed.

(** What a command has done when it is about to commit. *)
Definition reply_ok (c : Command) (hs : list bytes) (ws : list Write) (r : Reply) : Prop :=
  match c with
  | Append log record =>
      if decide (log = id)
      then ws = [InsertLeaf (mkLeafRow id (Z.of_nat (length hs)) (leaf_hash record))] ∧ r = Appended (len hs)
      else pins ws = []
  | Checkpoint now log key _ =>
      pins ws = []
      ∧ (log = id → ∃ signer hd, ks_signer keys key = Ok signer
           ∧ r = Checkpointed (CheckpointSigner_sign signer hd) ∧ head_at hd = now ∧ head_ok hs hd)
  | Create _ _ => pins ws = []
  end.

Lemma append_body_ok log record hs :
  is_slice hs → spec (reply_ok (Append log record)) hs [] (body factory keys (Append log record)).
Proof.
  intros Hs. cbn [body]. apply spec_bind. simpl. split; [done|]. intros hs1 [row|] Hg1 Hrow.
  2:{ simpl. done. }
  simpl. split; [done|]. intros hs2 n Hg2 Hn. simpl. split; [done|]. intros hs3 Hg3.
  pose proof (prefix_length _ _ (proj1 Hg3)) as Hlen. split_and!; [|done|].
  { intros E. specialize (Hn E). lia. }
  intros [_ Hw]. simpl in Hw. case_decide as E.
  - rewrite (Hw E), E. split; [done|]. f_equal. apply as_u64_small, Hg3.
  - done.
Qed.

Lemma checkpoint_body_ok now log key prev hs :
  is_slice hs →
  spec (reply_ok (Checkpoint now log key prev)) hs [] (body factory keys (Checkpoint now log key prev)).
Proof.
  intros Hs. cbn [body]. apply spec_bind. simpl. split; [done|]. intros hs1 [row|] Hg1 Hrow; [|done].
  destruct (HashAlgo_from_code (as_u8 (lr_algo row))) as [a|] eqn:Ea; [|done].
  simpl. split; [done|]. intros hs2 l Hg2 Hl Hlog.
  destruct (Timestamp_from_millis (lr_created row)) as [c|]; simpl; [|done].
  destruct (Timestamp_from_millis (lr_updated row)) as [u|]; simpl; [|done].
  destruct (Timestamps_reconstitute c u) as [ts|]; simpl; [|done].
  destruct (ks_signer keys key) as [signer|e] eqn:Ek; [|done].
  set (L := factory_reconstitute factory log ts (mkDigest a <$> l)).
  assert (log = id → head_ok hs2 (log_head L now)) as Hhead.
  { intros E. exists hs2. split; [done|]. destruct (Hrow E) as (r & [= ->] & Hr).
    rewrite Hr, Halgo in Ea. injection Ea as <-. specialize (Hlog E). subst l.
    unfold log_head, log_size. simpl. by rewrite len_fmap. }
  case_bool_decide.
  { split; [done|]. intros E. eexists _, _. split_and!; [done..|]. by apply Hhead. }
  change (log_issue_checkpoint L now) with (log_head L now, (log_issue_checkpoint L now).2). cbv iota.
  set (L2 := (log_issue_checkpoint L now).2).
  assert (∀ hs3 ws, grown hs2 hs3 → pins ws = [] →
    spec (reply_ok (Checkpoint now log key prev)) hs3 ws
      (_ ← save_prog L2; mret (Checkpointed (CheckpointSigner_sign signer (log_head L now))))) as Hsave.
  { intros hs3 ws Hg3 Hn. apply spec_bind. simpl. split; [done|]. intros hs4 Hg4. split_and!; [done..|].
    intros _. apply save_leaves_ok; [apply Hg4|by rewrite pins_app, Hn| |].
    - intros E. specialize (Hlog E). subst l. simpl. rewrite length_fmap.
      pose proof (prefix_length _ _ (proj1 Hg3)). pose proof (prefix_length _ _ (proj1 Hg4)). lia.
    - intros hs5 ws' Hg5 Hn'. split; [done|]. intros E. eexists _, _. split_and!; [done..|].
      eapply head_ok_mono; [|by apply Hhead]. etrans; [apply Hg3|]. etrans; [apply Hg4|apply Hg5]. }
  split; [done|]. intros hs3 Hg3.
  split_and!; [|intros _; exact (Hsave hs3 [] Hg3 eq_refl)|intros _; exact (Hsave hs3 [InsertCheckpointOrIgnore _] Hg3 eq_refl)].
  intros E. destruct (Hhead E) as (pre & Hpre & Hsize & Hroot). exists pre.
  split; [by etrans; [|apply Hg3]|]. unfold checkpoint_row. cbn [cr_size cr_root_hash CheckpointSigner_sign sth_head]. rewrite Hroot, Hsize. split; [|done].
  rewrite as_i64_small; [unfold len; lia|]. pose proof (prefix_length _ _ Hpre).
  destruct Hg2 as [_ Hs2]. unfold is_slice, len in *. lia.
Qed.

Lemma body_ok c hs : is_slice hs → spec (reply_ok c) hs [] (body factory keys c).
Proof.
  intros Hs. destruct c as [log record|now log key prev|log now];
    [by apply append_body_ok|by apply checkpoint_body_ok|].
  cbn [body]. apply spec_bind. simpl. split; [done|]. intros hs' Hg. done.
Qed.

(** *** The invariant *)

Definition ended (a : Progress) : Prop := ∀ ws p, a ≠ Running ws p.

(** What the client of a finished transaction was told: the place of its leaf among those
    added, or a head of the log. *)
Definition told (hs : list bytes) (order : list nat) (i : nat) (c : Command) (r : Reply) : Prop :=
  match c with
  | Append log _ =>
      log = id → ∃ k, order !! k = Some i ∧ r = Appended (len hs0 + N.of_nat k)
  | Checkpoint now log key _ =>
      log = id → ∃ signer hd, ks_signer keys key = Ok signer
        ∧ r = Checkpointed (CheckpointSigner_sign signer hd) ∧ head_at hd = now ∧ head_ok hs hd
  | Create _ _ => True
  end.

(** The leaf [h] was added by the transaction [i], which is over. *)
Definition added_by (sessions : gmap nat (Command * Progress)) (i : nat) (h : bytes) : Prop :=
  ∃ record a, sessions !! i = Some (Append id record, a) ∧ ended a ∧ h = leaf_hash record.

(** [order] are the transactions that added the leaves [news], in their order. *)
Record consistent (g : Db) (order : list nat) (news : list bytes) : Prop := {
  con_held : held (hs0 ++ news) (db_tables g);
  con_order : NoDup order;
  con_news : Forall2 (added_by (db_sessions g)) order news;
  con_running i c ws p : db_sessions g !! i = Some (c, Running ws p) →
    Forall (write_ok (hs0 ++ news)) ws ∧ spec (reply_ok c) (hs0 ++ news) ws p;
  con_pins i j c c' ws ws' p p' : i ≠ j →
    db_sessions g !! i = Some (c, Running ws p) → db_sessions g !! j = Some (c', Running ws' p') →
    pins ws ≠ [] → pins ws' = [];
  con_told i c r : db_sessions g !! i = Some (c, Finished (Ok r)) → told (hs0 ++ news) order i c r;
}.

Lemma reply_ok_mono c hs hs' ws r :
  hs `prefix_of` hs' → pins ws = [] → reply_ok c hs ws r → reply_ok c hs' ws r.
Proof.
  intros Hp Hn. destruct c as [log record|now log key prev|log now]; simpl; [|intros [_ Hr]; split|]; try done.
  - case_decide; [|done]. intros [-> _]. unfold pins in Hn. simpl in Hn. by rewrite decide_True in Hn.
  - intros E. destruct (Hr E) as (signer & hd & ? & ? & ? & ?). exists signer, hd.
    split_and!; [done..|by eapply head_ok_mono].
Qed.

Lemma told_mono hs hs' order order' i c r :
  hs `prefix_of` hs' → order `prefix_of` order' → told hs order i c r → told hs' order' i c r.
Proof.
  intros Hp Ho. destruct c as [log record|now log key prev|log now]; simpl; [intros Ht E|intros Ht E|done].
  - destruct (Ht E) as (k & Hk & ->). exists k. split; [by eapply prefix_lookup_Some|done].
  - destruct (Ht E) as (signer & hd & ? & ? & ? & ?). exists signer, hd.
    split_and!; [done..|by eapply head_ok_mono].
Qed.

Lemma not_in_order g order news i :
  consistent g order news → (∀ x, db_sessions g !! i = Some x → ∃ c ws p, x = (c, Running ws p)) →
  i ∉ order.
Proof.
  intros Hc Hi Hin. apply list_elem_of_lookup_1 in Hin as [k Hk].
  destruct (Forall2_lookup_l _ _ _ _ _ (con_news _ _ _ Hc) Hk) as (h & _ & record & a & Hs & He & _).
  destruct (Hi _ Hs) as (c & ws & p & [= _ ->]). by eapply He.
Qed.

(** A session that is not over takes a step, which adds the leaf [ext], if any. *)
Lemma consistent_set g order news i c a t (ext : option bytes) :
  let news' := news ++ option_list (leaf_hash <$> ext) in
  let order' := order ++ option_list ((λ _, i) <$> ext) in
  let hs := hs0 ++ news' in
  consistent g order news → is_slice hs →
  (∀ x, db_sessions g !! i = Some x → ∃ c ws p, x = (c, Running ws p)) →
  held hs t →
  (∀ record, ext = Some record → c = Append id record ∧ ended a
     ∧ ∀ j cj wsj pj, j ≠ i → db_sessions g !! j = Some (cj, Running wsj pj) → pins wsj = []) →
  (∀ ws p, a = Running ws p → Forall (write_ok hs) ws ∧ spec (reply_ok c) hs ws p
     ∧ (pins ws ≠ [] → ∀ j cj wsj pj, j ≠ i → db_sessions g !! j = Some (cj, Running wsj pj) → pins wsj = [])) →
  (∀ r, a = Finished (Ok r) → told hs order' i c r) →
  consistent (mkDb t (<[i := (c, a)]> (db_sessions g))) order' news'.
Proof.
  intros news' order' hs Hc Hs Hi Ht Hext Hrun Htold.
  assert (hs0 ++ news `prefix_of` hs) as Hp by (unfold hs, news'; rewrite app_assoc; by eexists).
  pose proof (not_in_order _ _ _ _ Hc Hi) as Hni.
  assert (Forall2 (added_by (<[i := (c, a)]> (db_sessions g))) order news) as Hold.
  { apply Forall2_same_length_lookup. pose proof (con_news _ _ _ Hc) as Hn.
    split; [by eapply Forall2_length|]. intros k j h Hj Hh.
    destruct (Forall2_lookup_lr _ _ _ _ _ _ Hn Hj Hh) as (record & b & Hb & ?).
    exists record, b. rewrite lookup_insert_ne; [done|]. intros ->. by apply Hni; eapply list_elem_of_lookup_2. }
  split; simpl; [done| | | | |].
  - destruct ext; simpl; subst order'; simpl; [|rewrite app_nil_r; apply (con_order _ _ _ Hc)].
    apply NoDup_app. split_and!; [apply (con_order _ _ _ Hc)| |apply NoDup_singleton].
    intros j Hj ->%list_elem_of_singleton. done.
  - subst order' news'. destruct ext as [record|]; simpl; [|by rewrite !app_nil_r].
    apply Forall2_app; [done|]. constructor; [|done]. exists record, a.
    destruct (Hext record eq_refl) as (-> & ? & _). by rewrite lookup_insert_eq.
  - intros j cj ws p [[<- [= <- ->]]|[Hne Hj]]%lookup_insert_Some; [by destruct (Hrun ws p eq_refl) as (? & ? & _)|].
    destruct (con_running _ _ _ Hc j cj ws p Hj) as [Hw Hsp]. destruct ext as [record|].
    + destruct (Hext record eq_refl) as (_ & _ & Hothers).
      assert (pins ws = []) as Hn by (eapply Hothers; [by apply not_eq_sym|exact Hj]).
      split; [by eapply writes_ok_mono|]. eapply spec_mono; [split; [exact Hp|exact Hs]| |exact Hsp].
      intros r. by apply reply_ok_mono.
    + subst hs news'. simpl. by rewrite app_nil_r.
  - intros j j' cj cj' ws ws' p p' Hjj Hj Hj' Hn.
    apply lookup_insert_Some in Hj as [[<- [= <- ->]]|[Hne Hj]];
      apply lookup_insert_Some in Hj' as [[<- [= <- ->]]|[Hne' Hj']]; [done|..].
    + destruct (Hrun ws p eq_refl) as (_ & _ & Ho). eapply Ho; [done|by apply not_eq_sym|exact Hj'].
    + destruct (decide (pins ws' = [])) as [?|Hn']; [done|]. destruct (Hrun ws' p' eq_refl) as (_ & _ & Ho).
      destruct Hn. eapply Ho; [done|by apply not_eq_sym|exact Hj].
    + eapply (con_pins _ _ _ Hc j j'); done.
  - intros j cj r [[<- [= <- ->]]|[Hne Hj]]%lookup_insert_Some; [by apply Htold|].
    eapply told_mono; [exact Hp| |by eapply con_told]. by eexists.
Qed.

Lemma length_le_size {B} (l : list nat) (m : gmap nat B) :
  NoDup l → (∀ x, x ∈ l → is_Some (m !! x)) → length l ≤ size m.
Proof.
  intros Hn Hin. rewrite <- size_dom, <- (size_list_to_set (C := gset nat) l) by done.
  apply subseteq_size. intros x Hx%elem_of_list_to_set. by apply elem_of_dom, Hin.
Qed.

Lemma news_length g order news : consistent g order news → length news ≤ size (db_sessions g).
Proof.
  intros Hc. rewrite <- (Forall2_length _ _ _ (con_news _ _ _ Hc)).
  apply length_le_size; [apply (con_order _ _ _ Hc)|]. intros i [k Hk]%list_elem_of_lookup_1.
  destruct (Forall2_lookup_l _ _ _ _ _ (con_news _ _ _ Hc) Hk) as (h & _ & record & a & -> & _). by eexists.
Qed.

Lemma pins_has ws : pins ws ≠ [] → ∃ row, InsertLeaf row ∈ ws ∧ lf_log row = id.
Proof.
  intros Hn. destruct (pins ws) as [|row l] eqn:E; [done|].
  assert (row ∈ pins ws) as Hin by (rewrite E; by left).
  apply list_elem_of_omap in Hin as (wr & Hin & Hw). destruct wr as [|row'| |]; simpl in Hw; try done.
  case_decide; [|done]. injection Hw as ->. by exists row.
Qed.

(** A write on the view of the transaction that took effect. *)
Lemma effective_write_ok hs t wr u :
  held hs t → allowed hs wr → execute pg wr t = Ok u → ignored wr t = false → write_ok hs wr.
Proof.
  intros [(row & Hh & _) _] Ha He Hi. split; [done|]. destruct wr as [r|r|r|r]; simpl in *; [done| | |done].
  - intros E. unfold insert_leaf in He. specialize (Ha E). rewrite E, (has_leaf_held _ _ _ _ _ Hh) in He.
    destruct (Z.leb_spec 0 (lf_index r)); [|lia]. destruct (Z.ltb_spec (lf_index r) (Z.of_nat (length hs))); [done|lia].
  - intros E. specialize (Ha E). rewrite E, (has_leaf_held _ _ _ _ _ Hh) in Hi.
    destruct (Z.leb_spec 0 (lf_index r)); [|lia]. destruct (Z.ltb_spec (lf_index r) (Z.of_nat (length hs))); [done|lia].
Qed.

Lemma statement_ok hs c t ws p ws' p' :
  held hs t → is_slice hs → Forall (write_ok hs) ws → spec (reply_ok c) hs ws p →
  statement_step pg t ws p ws' p' →
  Forall (write_ok hs) ws' ∧ spec (reply_ok c) hs ws' p'
  ∧ (pins ws' ≠ [] → ∃ row k, p = Execute (InsertLeaf row) k ∧ lf_log row = id
                              ∧ lf_index row = Z.of_nat (length hs)).
Proof.
  intros Ht Hs Hw Hsp Hst.
  destruct Hst as [log k|log k Hl|log k n t' Hn|log k e Hn|wr k u He|wr k e He]; simpl in Hsp;
    destruct Hsp as [Hp Hk]; pose proof (writes_held _ _ _ Ht Hw Hp) as Hv;
    pose proof Hv as [(row & Hh & Hra & _) _]; try (split_and!; [done| |by rewrite Hp]).
  - apply Hk; [done|]. intros ->. exists row. split; [apply Hh|done].
  - apply Hk; [done..|]. intros ->. by eapply select_leaf_hashes_held.
  - apply Hk; [done|]. intros ->. rewrite (select_next_index_held pg _ _ _ _ Hh Hs) in Hn. by injection Hn as <-.
  - done.
  - destruct (Hk hs) as (Ha & Hi & Hwr); [done|]. destruct (ignored wr _) eqn:Eig.
    + split_and!; [done|apply Hi; by destruct wr|by rewrite Hp].
    + pose proof (effective_write_ok _ _ _ _ Hv Ha He Eig) as Hok. split_and!; [|by apply Hwr|].
      * apply Forall_app. by split; [|constructor].
      * rewrite pins_app, Hp. destruct wr as [r|r|r|r]; simpl; try done. unfold pins. simpl.
        case_decide as E; [|done]. intros _. exists r, k. split_and!; [done..|]. by apply Hok.
  - done.
Qed.

Definition in_bounds (g : Db) : Prop := (len hs0 + N.of_nat (size (db_sessions g)) ≤ max_len)%N.

Lemma news_slice g order news : consistent g order news → in_bounds g → is_slice (hs0 ++ news).
Proof.
  intros Hc Hb. pose proof (news_length _ _ _ Hc). unfold is_slice, in_bounds in *. rewrite len_app.
  unfold len in *. lia.
Qed.

Lemma step_size g l g' : db_step pg factory keys g l g' → size (db_sessions g) ≤ size (db_sessions g').
Proof.
  destruct 1; simpl; rewrite map_size_insert; case_match; simpl; lia.
Qed.

(** What committing a transaction adds. *)
Lemma commit_effect g order news i c ws r :
  consistent g order news → in_bounds g → db_sessions g !! i = Some (c, Running ws (Done (Ok r))) →
  ∃ ext, let hs := hs0 ++ news ++ option_list (leaf_hash <$> ext) in
    is_slice hs ∧ held hs (apply_writes pg ws (db_tables g))
    ∧ (∀ record, ext = Some record → c = Append id record
         ∧ ∀ j cj wsj pj, j ≠ i → db_sessions g !! j = Some (cj, Running wsj pj) → pins wsj = [])
    ∧ told hs (order ++ option_list ((λ _, i) <$> ext)) i c r.
Proof.
  intros Hc Hb Hi. destruct (con_running _ _ _ Hc _ _ _ _ Hi) as [Hw Hr]. simpl in Hr.
  pose proof (con_held _ _ _ Hc) as Ht. pose proof (news_slice _ _ _ Hc Hb) as Hs.
  assert (pins ws = [] → is_slice (hs0 ++ news ++ []) ∧ held (hs0 ++ news ++ []) (apply_writes pg ws (db_tables g)))
    as Hplain by (intros Hn; rewrite app_nil_r; by split; [|apply writes_held]).
  destruct c as [log record|now log key prev|log now]; simpl in Hr.
  - case_decide as E.
    + exists (Some record). destruct Hr as [-> ->]. simpl. rewrite app_assoc. split_and!.
      * pose proof (news_length _ _ _ Hc) as Hl. unfold is_slice, in_bounds in *. rewrite !len_app.
        assert (length (order ++ [i]) ≤ size (db_sessions g)) as Hle.
        { apply length_le_size.
          - apply NoDup_app. split_and!; [apply (con_order _ _ _ Hc)| |apply NoDup_singleton].
            intros j Hj ->%list_elem_of_singleton. revert Hj. eapply not_in_order; [done|]. rewrite Hi. naive_solver.
          - intros j [[k Hk]%list_elem_of_lookup_1| ->%list_elem_of_singleton]%elem_of_app; [|by eexists].
            destruct (Forall2_lookup_l _ _ _ _ _ (con_news _ _ _ Hc) Hk) as (? & _ & ? & ? & -> & _). by eexists. }
        rewrite length_app, (Forall2_length _ _ _ (con_news _ _ _ Hc)) in Hle. unfold len in *. simpl in *. lia.
      * by apply pin_held.
      * intros record' [= <-]. split; [by rewrite E|]. intros j cj wsj pj Hne Hj.
        eapply (con_pins _ _ _ Hc i j); [by apply not_eq_sym|exact Hi|exact Hj|].
        unfold pins. simpl. by rewrite decide_True.
      * intros _. exists (length order). rewrite lookup_app_r, Nat.sub_diag by done. split; [done|].
        rewrite len_app, (Forall2_length _ _ _ (con_news _ _ _ Hc)). done.
    + exists None. destruct (Hplain Hr). split_and!; [done..|by intros ?].
  - destruct Hr as [Hn Hr]. exists None. destruct (Hplain Hn). split_and!; [done..|]. simpl. by rewrite !app_nil_r.
  - exists None. destruct (Hplain Hr). by split_and!.
Qed.

Lemma consistent_step g order news l g' :
  consistent g order news → db_step pg factory keys g l g' → in_bounds g' →
  ∃ order' news', consistent g' (order ++ order') (news ++ news').
Proof.
  intros Hc Hst Hb'.
  assert (in_bounds g) as Hb by (pose proof (step_size _ _ _ Hst); unfold in_bounds in *; lia).
  pose proof (news_slice _ _ _ Hc Hb) as Hs. pose proof (con_held _ _ _ Hc) as Ht.
  assert (∀ i c a, (∀ x, db_sessions g !! i = Some x → ∃ c ws p, x = (c, Running ws p)) →
    (∀ ws p, a = Running ws p → Forall (write_ok (hs0 ++ news)) ws ∧ spec (reply_ok c) (hs0 ++ news) ws p
      ∧ (pins ws ≠ [] → ∀ j cj wsj pj, j ≠ i → db_sessions g !! j = Some (cj, Running wsj pj) → pins wsj = [])) →
    (∀ r, a ≠ Finished (Ok r)) →
    ∃ order' news', consistent (mkDb (db_tables g) (<[i := (c, a)]> (db_sessions g))) (order ++ order') (news ++ news'))
    as Hlocal.
  { intros i c a Hi Hrun Hfin. exists [], [].
    pose proof (consistent_set g order news i c a (db_tables g) None) as Hset. cbn in Hset.
    rewrite !app_nil_r in *. apply Hset; try done. intros r Hr. by destruct (Hfin r). }
  assert (∀ i c ws r a, db_sessions g !! i = Some (c, Running ws (Done (Ok r))) → ended a →
    (∀ r', a = Finished (Ok r') → r' = r) →
    ∃ order' news', consistent (mkDb (apply_writes pg ws (db_tables g)) (<[i := (c, a)]> (db_sessions g)))
                      (order ++ order') (news ++ news')) as Hcommit.
  { intros i c ws r a Hi Hend Hfin. destruct (commit_effect _ _ _ _ _ _ _ Hc Hb Hi) as (ext & Hsl & Hh & Hext & Htold).
    exists (option_list ((λ _, i) <$> ext)), (option_list (leaf_hash <$> ext)).
    apply consistent_set; [done|done| | | | |].
    - rewrite Hi. naive_solver.
    - done.
    - intros record Hr. by destruct (Hext record Hr).
    - intros ws' p' ->. by destruct (Hend ws' p').
    - intros r' Hr. by rewrite (Hfin r' Hr). }
  destruct Hst as [i c Hi|i c e Hi|i c ws p ws' p' Hi Hnw Hst|i c ws r Hi|i c ws e Hi|i c ws p e Hi Hp|
    i c ws r e [] Hi|i c ws p [] Hi Hp].
  - apply Hlocal; [by rewrite Hi| |done]. intros ws p [= <- <-].
    split_and!; [done|by apply body_ok|done].
  - apply Hlocal; [by rewrite Hi|done..].
  - destruct (con_running _ _ _ Hc _ _ _ _ Hi) as [Hw Hsp].
    destruct (statement_ok _ _ _ _ _ _ _ Ht Hs Hw Hsp Hst) as (Hw' & Hsp' & Hpin).
    apply Hlocal; [rewrite Hi; naive_solver| |done]. intros ? ? [= <- <-]. split_and!; [done..|].
    intros Hn j cj wsj pj Hne Hj. destruct (Hpin Hn) as (row & k & -> & Hrow & Hidx).
    destruct (decide (pins wsj = [])) as [|Hnj]; [done|]. destruct Hnw. simpl.
    destruct (pins_has _ Hnj) as (row' & Hin & Hrow'). exists j, cj, wsj, pj. split_and!; [done..|].
    apply list_elem_of_fmap. exists (InsertLeaf row'). split; [|done]. simpl.
    destruct (con_running _ _ _ Hc _ _ _ _ Hj) as [Hwj _]. rewrite Forall_forall in Hwj.
    destruct (Hwj _ Hin) as [_ Hix]. by rewrite Hrow, Hrow', Hidx, (Hix Hrow').
  - by eapply Hcommit; [exact Hi| |intros r' [= ->]].
  - apply Hlocal; [rewrite Hi; naive_solver|done..].
  - destruct (con_running _ _ _ Hc _ _ _ _ Hi) as [Hw Hsp].
    apply Hlocal; [rewrite Hi; naive_solver| |done]. intros ? ? [= <- <-]. split_and!; [done..|].
    intros Hn. destruct p as [x| | | |]; [by destruct (Hp x)|..]; by destruct Hsp as [Hsp _].
  - by eapply Hcommit; [exact Hi| |].
  - apply Hlocal; [rewrite Hi; naive_solver|done..].
  - destruct (Hp eq_refl) as [r ->]. by eapply Hcommit; [exact Hi| |].
  - apply Hlocal; [rewrite Hi; naive_solver|done..].
Qed.
End integrity.

(** C5: The concurrent store keeps one log. Through any interleaving of any number of appends,
    checkpoints and creations, with failing statements, commits that fail with or without
    having taken effect and requests given up, the leaves of a log only grow at their end,
    without gaps; each new leaf is the record of one append, and each append that reported
    an index has its leaf there, so that no two share one and none is lost; every
    checkpoint handed out or stored describes a prefix of the log. *)
Theorem concurrent_log_integrity pg `{J : Jiff} factory keys id row0 hs0 algo g0 g :
  HashAlgo_from_code (as_u8 (lr_algo row0)) = Some algo →
  db_sessions g0 = ∅ → holds_log (db_tables g0) id row0 hs0 →
  db_steps pg factory keys g0 g → in_bounds hs0 g →
  ∃ row order news,
    holds_log (db_tables g) id row (hs0 ++ news)
    ∧ lr_algo row = lr_algo row0 ∧ lr_created row = lr_created row0
    ∧ NoDup order ∧ Forall2 (added_by factory id (db_sessions g)) order news
    ∧ (∀ i c r, db_sessions g !! i = Some (c, Finished (Ok r)) →
         told factory keys id hs0 algo (hs0 ++ news) order i c r)
    ∧ (∀ r, r ∈ t_checkpoints (db_tables g) → cr_log r = id →
         r ∈ t_checkpoints (db_tables g0) ∨ checkpoint_ok factory algo (hs0 ++ news) r).
Proof.
  intros Halgo Hempty Hheld Hsteps Hb.
  enough (∃ order news, consistent factory keys id row0 hs0 algo (t_checkpoints (db_tables g0)) g order news)
    as (order & news & [[(row & Hh & Ha & Hc) Hcs] Ho Hn _ _ Ht]) by (by exists row, order, news).
  revert Hb. pattern g. eapply rtc_ind_r; [| |exact Hsteps].
  - intros Hb. exists [], []. 
    split; rewrite ?Hempty, ?app_nil_r; try done; [|constructor].
    split; [by exists row0|by left].
  - intros g1 g2 _ [l Hst] IH Hb.
    destruct IH as (order & news & Hc).
    { pose proof (step_size pg factory keys _ _ _ Hst). unfold in_bounds in *. lia. }
    destruct (consistent_step pg factory keys id row0 hs0 algo _ Halgo _ _ _ _ _ Hc Hst Hb) as (order' & news' & Hc').
    by exists (order ++ order'), (news ++ news').
Qed.

(** ** No deadlock

    Every command takes its keys in one order: its checkpoint, its log, its leaves by index. *)

Definition rank (k : Key) : Z :=
  match k with
  | Key_Checkpoint _ _ => 0
  | Key_Log _ => 1
  | Key_Leaf _ index => 2 + index
  end.

Definition rank_of (wr : Write) : Z := rank (key_of wr).

Section progress.
Context (pg : Pg) `{J : Jiff} (factory : Hasher) (keys : KeyStore).

(** A program that holds [ws] asks only for keys after those it holds. *)
Fixpoint ordered {A} (ws : list Write) (p : Prog A) : Prop :=
  match p with
  | Done _ => True
  | SelectLog _ k => ∀ found, ordered ws (k found)
  | SelectLeaves _ k => ∀ l, is_slice l → ordered ws (k l)
  | SelectNext _ k => ∀ n, ordered ws (k n)
  | Execute wr k =>
      Forall (λ w, rank_of w < rank_of wr)%Z ws ∧ ordered ws k ∧ ordered (ws ++ [wr]) k
  end.

Lemma save_leaves_ordered {A} (f : unit → Prog A) log ls : ∀ k ws,
  (N.of_nat (k + length ls) ≤ max_len)%N → Forall (λ w, rank_of w < 2 + Z.of_nat k)%Z ws →
  (∀ ws', ordered ws' (f tt)) → ordered ws (save_leaves log (enumerate_from k ls) ≫= f).
Proof.
  induction ls as [|l ls IH]; intros k ws Hk Hw Hf; [apply Hf|]. simpl in *.
  assert (∀ ws', Forall (λ w, rank_of w < 2 + Z.of_nat (S k))%Z ws' →
    ordered ws' (save_leaves log (enumerate_from (S k) ls) ≫= f)) as Hrest by (intros; apply IH; [lia|done..]).
  set (wr := InsertLeafOrIgnore _).
  assert (rank_of wr = 2 + Z.of_nat k)%Z as Hwr.
  { unfold rank_of, wr. cbn [key_of rank lf_index]. rewrite as_i64_small by lia. lia. }
  assert (Forall (λ w, rank_of w < 2 + Z.of_nat (S k))%Z ws) as Hw'
    by (eapply Forall_impl; [exact Hw|simpl; lia]).
  split_and!; [by rewrite Hwr|by apply Hrest|]. apply Hrest, Forall_app.
  split; [done|]. constructor; [lia|done].
Qed.

Lemma body_ordered c : ordered [] (body factory keys c).
Proof.
  destruct c as [log record|now log key prev|log now]; simpl.
  - by intros [row|]; [intros n|].
  - intros [row|]; [|done]. destruct (HashAlgo_from_code _) as [a|]; [|done]. simpl. intros l Hl.
    destruct (Timestamp_from_millis (lr_created row)) as [c|]; simpl; [|done].
    destruct (Timestamp_from_millis (lr_updated row)) as [u|]; simpl; [|done].
    destruct (Timestamps_reconstitute c u) as [ts|]; simpl; [|done].
    destruct (ks_signer keys key) as [signer|e]; [|done]. case_bool_decide; [done|]. simpl.
    assert (∀ ws, Forall (λ w, rank_of w < 2)%Z ws →
      ordered ws (_ ← save_leaves log (enumerate (mkDigest a <$> l));
                  mret (Checkpointed (CheckpointSigner_sign signer
                    (log_head (factory_reconstitute factory log ts (mkDigest a <$> l)) now))))) as Hsave.
    { intros ws Hw. apply (save_leaves_ordered (λ _, mret _)); [by rewrite length_fmap| |done].
      eapply Forall_impl; [exact Hw|]. simpl. lia. }
    split_and!; first [by repeat constructor|apply Hsave; by repeat constructor].
  - done.
Qed.

Lemma statement_ordered t ws p ws' p' :
  statement_step pg t ws p ws' p' → ordered ws p → ordered ws' p'.
Proof.
  destruct 1; simpl; intros Ho; try done; [by apply Ho..|]. destruct Ho as (_ & ? & ?). by case_match.
Qed.

Definition all_ordered (g : Db) : Prop :=
  ∀ i c ws p, db_sessions g !! i = Some (c, Running ws p) → ordered ws p.

Lemma all_ordered_set g t i c a :
  all_ordered g → (∀ ws p, a = Running ws p → ordered ws p) →
  all_ordered (mkDb t (<[i := (c, a)]> (db_sessions g))).
Proof.
  intros Hg Ha j cj ws p. cbn [db_sessions].
  intros [[<- [= <- ->]]|[_ Hj]]%lookup_insert_Some; [by apply Ha|by eapply Hg].
Qed.

Lemma steps_ordered g0 g : db_steps pg factory keys g0 g → db_sessions g0 = ∅ → all_ordered g.
Proof.
  intros Hs He. pattern g. eapply rtc_ind_r; [| |exact Hs].
  { intros i c ws p. by rewrite He. }
  intros g1 g2 _ [l Hst] IH. destruct Hst; apply all_ordered_set; try done.
  - intros ? ? [= <- <-]. apply body_ordered.
  - intros ? ? [= <- <-]. by eapply statement_ordered; [|eapply IH].
  - by intros ? ? [= <- <-].
Qed.

Lemma order_length l : length (order_by_index l) = length l.
Proof.
  assert (∀ r l, length (insert_by_index r l) = S (length l)) as Hi.
  { intros r k. induction k as [|x k IH]; simpl; [done|]. case_match; simpl; lia. }
  induction l as [|r l IH]; [done|].
  change (order_by_index (r :: l)) with (insert_by_index r (order_by_index l)). by rewrite Hi, IH.
Qed.

Lemma select_leaf_slice id t : is_slice (t_leaves t) → is_slice (select_leaf_hashes id t).
Proof.
  unfold is_slice, len, select_leaf_hashes, leaf_rows. rewrite length_fmap, order_length. intros Ht.
  match goal with |- context [List.filter ?f ?l] => pose proof (List.filter_length_le f l) end. lia.
Qed.

(** The leaf tables the transactions see can be read into memory. *)
Definition fits (g : Db) : Prop :=
  ∀ i c ws p, db_sessions g !! i = Some (c, Running ws p) → is_slice (t_leaves (apply_writes pg ws (db_tables g))).

Lemma unblocked_proceeds g i c ws p :
  fits g → db_sessions g !! i = Some (c, Running ws p) → ¬ waits g i p →
  ∃ g', db_step pg factory keys g (Proceeds i) g'.
Proof.
  intros Hf Hi Hw.
  assert (∀ ws' p', statement_step pg (db_tables g) ws p ws' p' → ∃ g', db_step pg factory keys g (Proceeds i) g')
    as Hst by (intros; eexists; by eapply Db_statement).
  destruct p as [[r|e]|id k|id k|id k|wr k].
  - eexists. by eapply Db_commit.
  - eexists. by eapply Db_rollback.
  - eapply Hst, Step_log.
  - eapply Hst, Step_leaves. by eapply select_leaf_slice, Hf.
  - destruct (select_next_index pg id (apply_writes pg ws (db_tables g))) as [[n t']|e] eqn:E;
      [by eapply Hst, Step_next|by eapply Hst, Step_next_error].
  - destruct (execute pg wr (apply_writes pg ws (db_tables g))) as [u|e] eqn:E;
      [by eapply Hst, Step_write|by eapply Hst, Step_write_error].
Qed.

Lemma exists_max {A} (f : A → Z) (l : list A) : l ≠ [] → ∃ x, x ∈ l ∧ ∀ y, y ∈ l → (f y ≤ f x)%Z.
Proof.
  induction l as [|a l IH]; [done|]. intros _. destruct l as [|b l].
  - exists a. split; [by left|]. by intros y ->%list_elem_of_singleton.
  - destruct IH as (x & Hx & Hm); [done|]. destruct (Z.le_gt_cases (f a) (f x)).
    + exists x. split; [by right|]. intros y [->|Hy]%elem_of_cons; [done|by apply Hm].
    + exists a. split; [by left|]. intros y [->|Hy]%elem_of_cons; [done|]. specialize (Hm y Hy). lia.
Qed.

(** The writes the transactions in progress are about to make. *)
Definition next_write (x : nat * (Command * Progress)) : option (nat * Write) :=
  match x.2.2 with Running _ (Execute wr _) => Some (x.1, wr) | _ => None end.

Definition next_writes (g : Db) : list (nat * Write) := omap next_write (map_to_list (db_sessions g)).

Lemma next_writes_spec g i wr :
  (i, wr) ∈ next_writes g ↔ ∃ c ws k, db_sessions g !! i = Some (c, Running ws (Execute wr k)).
Proof.
  unfold next_writes. rewrite list_elem_of_omap. split.
  - intros ([j [c a]] & Hin%elem_of_map_to_list & Hn). unfold next_write in Hn. simpl in *.
    destruct a as [ws [| | | |wr' k]| |]; simplify_eq. by eexists _, _, _.
  - intros (c & ws & k & Hi). exists (i, (c, Running ws (Execute wr k))).
    split; [by apply elem_of_map_to_list|done].
Qed.

Lemma someone_proceeds g i c ws p :
  all_ordered g → fits g → db_sessions g !! i = Some (c, Running ws p) →
  ∃ j g', db_step pg factory keys g (Proceeds j) g'.
Proof.
  intros Ho Hf Hi. destruct (decide (next_writes g = [])) as [Hn|Hn].
  { exists i. eapply unblocked_proceeds; [done..|]. destruct p as [| | | |wr k]; simpl; try tauto.
    exfalso. assert ((i, wr) ∈ next_writes g) as Hin by (apply next_writes_spec; by eexists _, _, _).
    rewrite Hn in Hin. by apply elem_of_nil in Hin. }
  destruct (exists_max (λ x, rank_of x.2) _ Hn) as ([j wr] & Hj & Hmax).
  apply next_writes_spec in Hj as (cj & wsj & kj & Hj).
  destruct (blockedb g j wr) eqn:Hb.
  2:{ exists j. eapply unblocked_proceeds; [done..|]. simpl. rewrite <- blockedb_spec. by rewrite Hb. }
  apply blockedb_spec in Hb as (h & ch & wsh & ph & _ & Hh & Hk).
  exists h. eapply unblocked_proceeds; [done..|]. destruct ph as [| | | |wr' k]; simpl; try tauto.
  intros _. assert ((h, wr') ∈ next_writes g) as Hin by (apply next_writes_spec; by eexists _, _, _).
  specialize (Hmax _ Hin). simpl in Hmax. pose proof (Ho _ _ _ _ Hh) as (Hlt & _).
  apply list_elem_of_fmap in Hk as (w & Ew & Hw). rewrite Forall_forall in Hlt. specialize (Hlt w Hw).
  unfold rank_of in *. rewrite Ew in Hmax. lia.
Qed.
End progress.

(** C11: The concurrent store never deadlocks. Whatever has happened, while any transaction is
    in progress one of them can go on by itself, without a failure, a rollback by the
    database or a client giving up: a write waits only for a transaction that holds its
    key, and all take their keys in the same order. *)
Theorem transactions_progress pg `{J : Jiff} factory keys g0 g i c ws p :
  db_sessions g0 = ∅ → db_steps pg factory keys g0 g → fits pg g →
  db_sessions g !! i = Some (c, Running ws p) →
  ∃ j g', db_step pg factory keys g (Proceeds j) g'.
Proof. intros He Hs Hf Hi. eapply someone_proceeds; [by eapply steps_ordered|done..]. Qed.

(** ** Witnesses *)

Module ConcurrentDemo.
#[local] Existing Instances demo_jiff.

Definition start : Db := mkDb demo_tables ∅.

(** Two appends read the same next index; the first takes it, and the second finds it
    taken. A checkpoint loads the log in between and is issued after. *)
Definition schedule : list Move :=
  [Start 1 (Append 7%N (lit "c")); Start 2 (Append 7%N (lit "d"));
   Start 3 (Checkpoint 30%Z 7%N (lit "k") None); Go 1; Go 2; Go 1; Go 2; Go 3; Go 1; Go 3; Go 1; Go 2; Go 2;
   Go 3; Go 3; Go 3; Go 3; Go 3].

Definition final : Db := default start (run_schedule demo_pg demo_hasher demo_keys start schedule).

(** The same, stopped while the second append waits for the first. *)
Definition midway : Db :=
  default start (run_schedule demo_pg demo_hasher demo_keys start (take 9 schedule)).
End ConcurrentDemo.

#[local] Existing Instances demo_jiff.

Lemma schedule_runs pg `{J : Jiff} factory keys g ms :
  bool_decide (is_Some (run_schedule pg factory keys g ms)) = true →
  run_schedule pg factory keys g ms = Some (default g (run_schedule pg factory keys g ms)).
Proof. by intros [g' ->]%bool_decide_eq_true. Qed.

Lemma demo_midway :
  db_steps demo_pg demo_hasher demo_keys ConcurrentDemo.start ConcurrentDemo.midway.
Proof.
  apply (run_schedule_sound _ _ _ (take 9 ConcurrentDemo.schedule)), schedule_runs. vm_compute. reflexivity.
Qed.

Lemma demo_final :
  db_steps demo_pg demo_hasher demo_keys ConcurrentDemo.start ConcurrentDemo.final.
Proof.
  apply (run_schedule_sound _ _ _ ConcurrentDemo.schedule), schedule_runs. vm_compute. reflexivity.
Qed.

Lemma concurrent_log_integrity_witness :
  snd <$> db_sessions ConcurrentDemo.final !! 1 = Some (Finished (Ok (Appended 2)))
  ∧ snd <$> db_sessions ConcurrentDemo.final !! 2 = Some (Finished (Err (Storage (lit "dup"))))
  ∧ ∃ row order news,
      holds_log (db_tables ConcurrentDemo.final) 7%N row (demo_hashes ++ news)
      ∧ Forall2 (added_by demo_hasher 7%N (db_sessions ConcurrentDemo.final)) order news.
Proof.
  split; [vm_compute; reflexivity|]. split; [vm_compute; reflexivity|].
  destruct (concurrent_log_integrity demo_pg demo_hasher demo_keys 7%N demo_row demo_hashes Sha256
    ConcurrentDemo.start ConcurrentDemo.final) as (row & order & news & Hh & _ & _ & _ & Hn & _).
  - reflexivity.
  - reflexivity.
  - apply demo_held.
  - apply demo_final.
  - vm_compute. discriminate.
  - exists row, order, news. split; assumption.
Defined.

Lemma demo_fits : fits demo_pg ConcurrentDemo.midway.
Proof.
  intros i c ws p Hi.
  assert (forallb (λ x, match x.2.2 with
    | Running ws _ => (len (t_leaves (apply_writes demo_pg ws (db_tables ConcurrentDemo.midway))) <=? max_len)%N
    | _ => true end) (map_to_list (db_sessions ConcurrentDemo.midway)) = true) as Hf by (vm_compute; reflexivity).
  rewrite forallb_forall in Hf. apply N.leb_le, (Hf (i, (c, Running ws p))).
  by apply list_elem_of_In, elem_of_map_to_list.
Qed.

Lemma transactions_progress_witness :
  (∃ c ws p, db_sessions ConcurrentDemo.midway !! 2 = Some (c, Running ws p))
  ∧ ∃ j g', db_step demo_pg demo_hasher demo_keys ConcurrentDemo.midway (Proceeds j) g'.
Proof.
  assert (∃ c ws p, db_sessions ConcurrentDemo.midway !! 2 = Some (c, Running ws p)) as He.
  { assert (match db_sessions ConcurrentDemo.midway !! 2 with Some (_, Running _ _) => true | _ => false end = true)
      as Hb by (vm_compute; reflexivity).
    destruct (db_sessions ConcurrentDemo.midway !! 2) as [[c [ws p| |]]|]; try discriminate.
    exists c, ws, p. reflexivity. }
  split; [exact He|]. destruct He as (c & ws & p & Hi).
  apply (transactions_progress demo_pg demo_hasher demo_keys ConcurrentDemo.start ConcurrentDemo.midway 2 c ws p);
    [reflexivity|apply demo_midway|apply demo_fits|exact Hi].
Defined.
