(* ===== verification/Messaging.v ===== *)
(** * Messaging: the registry of handlers and behaviours
    (crates/agate-audit/src: application/common/messaging, setup/ioc/registry.rs)

    The routing table: entries of different types kept under the identity of their request
    type and recovered by a checked cast.  The container they resolve from is a parameter;
    the table of the audit service is built and dispatched through. *)
From stdpp Require Import gmap proof_irrel options.
From S2P Require Import Prelude Crypto Merkle TransparencyLog AuditStore AuditApp.

(** ** The table *)

(** The [expect]s of the registry and the dispatcher. *)
Inductive Wiring :=
| Type_collision
| No_handler
| Handler_unresolved
| Behavior_unresolved.

Section registry.
(** [TypeId]s with the request and response types they identify; [C] is the container. *)
Context {TypeId : Type} `{Countable TypeId} (Req Resp : TypeId → Type) (S C : Type).

Abbreviation Handler t := (Req t → ST AuditError S (Resp t)).
Abbreviation Behaviour t := (Behavior (Req t) S (Resp t)).

(** Factories resolve from the container, or panic ([None]). *)
Record RequestEntry (t : TypeId) := mkRequestEntry {
  entry_handler : option (C → option (Handler t));
  entry_behaviors : list (C → option (Behaviour t));
}.
Arguments mkRequestEntry {t} _ _.
Arguments entry_handler {t} _.
Arguments entry_behaviors {t} _.

Definition RequestEntry_default (t : TypeId) : RequestEntry t := mkRequestEntry None [].

(** [Box<dyn Any>] and its [downcast_ref]. *)
Definition Boxed : Type := {t : TypeId & RequestEntry t}.

Definition downcast (t : TypeId) (b : Boxed) : option (RequestEntry t) :=
  match decide (projT1 b = t) with
  | left e => Some (eq_rect (projT1 b) RequestEntry (projT2 b) t e)
  | right _ => None
  end.

Abbreviation Registry := (gmap TypeId Boxed).

Definition entry (t : TypeId) (r : Registry) : result Wiring (RequestEntry t) :=
  ok_or Type_collision (downcast t (default (existT t (RequestEntry_default t)) (r !! t))).

Definition lookup_entry (t : TypeId) (r : Registry) : option (RequestEntry t) :=
  b ← r !! t; downcast t b.

Definition register_handler (t : TypeId) (factory : C → option (Handler t)) (r : Registry) :
    result Wiring Registry :=
  e ← entry t r;
  Ok (<[t := existT t (mkRequestEntry (Some factory) (entry_behaviors e))]> r).

Definition register_behavior (t : TypeId) (factory : C → option (Behaviour t)) (r : Registry) :
    result Wiring Registry :=
  e ← entry t r;
  Ok (<[t := existT t (mkRequestEntry (entry_handler e) (entry_behaviors e ++ [factory]))]> r).

Definition resolve_handler (t : TypeId) (container : C) (r : Registry) :
    result Wiring (option (Handler t)) :=
  match lookup_entry t r ≫= entry_handler with
  | None => Ok None
  | Some factory => Some <$> ok_or Handler_unresolved (factory container)
  end.

Fixpoint resolve_all {t : TypeId} (container : C) (factories : list (C → option (Behaviour t))) :
    result Wiring (list (Behaviour t)) :=
  match factories with
  | [] => Ok []
  | factory :: rest =>
      b ← ok_or Behavior_unresolved (factory container);
      bs ← resolve_all container rest;
      Ok (b :: bs)
  end.

Definition resolve_behaviors (t : TypeId) (container : C) (r : Registry) :
    result Wiring (list (Behaviour t)) :=
  match lookup_entry t r with
  | None => Ok []
  | Some e => resolve_all container (entry_behaviors e)
  end.

(** [Dispatcher::send], up to the chain it runs. *)
Definition dispatcher_send (t : TypeId) (container : C) (r : Registry) (request : Req t) :
    result Wiring (ST AuditError S (Resp t)) :=
  handler ← resolve_handler t container r;
  handler ← ok_or No_handler handler;
  behaviors ← resolve_behaviors t container r;
  Ok (mediator_send handler behaviors request).

(** ** Registrations *)

Inductive Registration :=
| Register_handler t (factory : C → option (Handler t))
| Register_behavior t (factory : C → option (Behaviour t)).

Definition register (x : Registration) (r : Registry) : result Wiring Registry :=
  match x with
  | Register_handler t factory => register_handler t factory r
  | Register_behavior t factory => register_behavior t factory r
  end.

Fixpoint register_each (xs : list Registration) (r : Registry) : result Wiring Registry :=
  match xs with
  | [] => Ok r
  | x :: xs => r' ← register x r; register_each xs r'
  end.

(** What the registrations of one type add up to: the last handler, all behaviours. *)
Definition amend (t : TypeId) (e : RequestEntry t) (x : Registration) : RequestEntry t :=
  match x with
  | Register_handler t' factory =>
      match decide (t' = t) with
      | left E => mkRequestEntry (Some (eq_rect t' (λ t, C → option (Handler t)) factory t E)) (entry_behaviors e)
      | right _ => e
      end
  | Register_behavior t' factory =>
      match decide (t' = t) with
      | left E => mkRequestEntry (entry_handler e)
          (entry_behaviors e ++ [eq_rect t' (λ t, C → option (Behaviour t)) factory t E])
      | right _ => e
      end
  end.

Definition registered (t : TypeId) (xs : list Registration) : RequestEntry t :=
  foldl (amend t) (RequestEntry_default t) xs.

(** ** The casts succeed *)

(** Each entry is stored under the identity of its own type. *)
Definition well_typed (r : Registry) : Prop := ∀ t b, r !! t = Some b → projT1 b = t.

Lemma downcast_same t (e : RequestEntry t) : downcast t (existT t e) = Some e.
Proof.
  unfold downcast. simpl. destruct (decide (t = t)) as [E|]; [|done].
  by rewrite (proof_irrel E eq_refl).
Qed.

Definition entry_of (t : TypeId) (r : Registry) : RequestEntry t :=
  default (RequestEntry_default t) (lookup_entry t r).

Lemma entry_well_typed t r : well_typed r → entry t r = Ok (entry_of t r).
Proof.
  intros Hw. unfold entry, entry_of, lookup_entry. destruct (r !! t) as [[t' e]|] eqn:E; simpl.
  - apply Hw in E. simpl in E. subst t'. by rewrite downcast_same.
  - by rewrite downcast_same.
Qed.

Lemma entry_of_insert_same t e r : entry_of t (<[t := existT t e]> r) = e.
Proof. unfold entry_of, lookup_entry. rewrite lookup_insert_eq. simpl. by rewrite downcast_same. Qed.

Lemma entry_of_insert_other t t' b r : t' ≠ t → entry_of t (<[t' := b]> r) = entry_of t r.
Proof. intros Hne. unfold entry_of, lookup_entry. by rewrite lookup_insert_ne. Qed.

Lemma well_typed_insert t e r : well_typed r → well_typed (<[t := existT t e]> r).
Proof.
  intros Hw t' b [[<- <-]|[_ E]]%lookup_insert_Some; [done|by apply Hw].
Qed.

Lemma register_spec x r :
  well_typed r →
  ∃ r', register x r = Ok r' ∧ well_typed r' ∧ ∀ t, entry_of t r' = amend t (entry_of t r) x.
Proof.
  intros Hw. destruct x as [t' f|t' f]; simpl; unfold register_handler, register_behavior;
    rewrite entry_well_typed by done; simpl; (eexists; split; [done|]);
    (split; [by apply well_typed_insert|]); intros t; (destruct (decide (t' = t)) as [<-|Hne];
      [by rewrite entry_of_insert_same|by rewrite entry_of_insert_other]).
Qed.

Lemma register_each_spec xs r :
  well_typed r →
  ∃ r', register_each xs r = Ok r' ∧ well_typed r' ∧ ∀ t, entry_of t r' = foldl (amend t) (entry_of t r) xs.
Proof.
  revert r. induction xs as [|x xs IH]; intros r Hw; [by exists r|]. simpl.
  destruct (register_spec x r Hw) as (r1 & -> & Hw1 & H1). simpl.
  destruct (IH r1 Hw1) as (r' & -> & Hw' & H'). exists r'. split_and!; [done..|].
  intros t. by rewrite H', H1.
Qed.

(** Dispatching as the registrations of the request's type say. *)
Definition send_registered (xs : list Registration) (t : TypeId) (container : C) (request : Req t) :
    result Wiring (ST AuditError S (Resp t)) :=
  factory ← ok_or No_handler (entry_handler (registered t xs));
  handler ← ok_or Handler_unresolved (factory container);
  behaviors ← resolve_all container (entry_behaviors (registered t xs));
  Ok (mediator_send handler behaviors request).

Lemma dispatch_registered xs :
  ∃ r, register_each xs ∅ = Ok r
    ∧ ∀ t container request, dispatcher_send t container r request = send_registered xs t container request.
Proof.
  destruct (register_each_spec xs ∅) as (r & Hr & _ & He); [by intros ? ? ?%lookup_empty_Some|].
  exists r. split; [done|]. intros t container request.
  unfold dispatcher_send, send_registered, resolve_handler, resolve_behaviors, registered.
  assert (entry_of t r = foldl (amend t) (RequestEntry_default t) xs) as <- by (by rewrite He).
  unfold entry_of. destruct (lookup_entry t r) as [e|]; simpl; [|done].
  destruct (entry_handler e) as [factory|]; simpl; [|done]. by destruct (factory container).
Qed.
End registry.

(** ** The table of the audit service *)

Inductive AuditRequest := CreateLog | AppendRecord | GetInclusionProof | GetConsistencyProof | IssueCheckpoint.

#[export] Instance AuditRequest_eq_dec : EqDecision AuditRequest.
Proof. solve_decision. Defined.

#[export] Instance AuditRequest_countable : Countable AuditRequest.
Proof.
  refine (inj_countable' (λ t, match t with
    | CreateLog => 0 | AppendRecord => 1 | GetInclusionProof => 2 | GetConsistencyProof => 3
    | IssueCheckpoint => 4 end)
    (λ n, match n with
    | 0 => CreateLog | 1 => AppendRecord | 2 => GetInclusionProof | 3 => GetConsistencyProof
    | _ => IssueCheckpoint end) _); by intros [].
Defined.

Definition Request (t : AuditRequest) : Type :=
  match t with
  | CreateLog => unit
  | AppendRecord => LogId * bytes
  | GetInclusionProof | GetConsistencyProof => LogId * N
  | IssueCheckpoint => LogId * KeyId * option N
  end.

Definition Response (t : AuditRequest) : Type :=
  match t with
  | CreateLog => LogId
  | AppendRecord => N
  | GetInclusionProof => InclusionProofView
  | GetConsistencyProof => ConsistencyProofView
  | IssueCheckpoint => SignedTreeHead
  end.

(** What the container resolves, as its providers build it: a handler per request type,
    and the three behaviours. *)
Record AuditContainer := mkAuditContainer {
  provide_handler : ∀ t, option (Request t → Op (Response t));
  provide_tracing : option unit;
  provide_metrics : option unit;
  provide_transaction : option (TransactionManager World);
}.

Definition handler_factory (t : AuditRequest) : AuditContainer → option (Request t → Op (Response t)) :=
  λ c, provide_handler c t.

Definition tracing_factory (t : AuditRequest) : AuditContainer → option (Behavior (Request t) World (Response t)) :=
  λ c, (λ _, TracingBehavior) <$> provide_tracing c.

Definition metrics_factory (t : AuditRequest) : AuditContainer → option (Behavior (Request t) World (Response t)) :=
  λ c, (λ _, MetricsBehavior) <$> provide_metrics c.

Definition transaction_factory (t : AuditRequest) :
    AuditContainer → option (Behavior (Request t) World (Response t)) :=
  λ c, TransactionBehavior <$> provide_transaction c.

(** [build_registry], registration by registration. *)
Definition registrations : list (Registration Request Response World AuditContainer) :=
  let handler t := Register_handler Request Response World AuditContainer t (handler_factory t) in
  let behavior t f := Register_behavior Request Response World AuditContainer t (f t) in
  [ handler CreateLog; handler AppendRecord; handler GetInclusionProof; handler GetConsistencyProof;
    handler IssueCheckpoint;
    behavior CreateLog tracing_factory; behavior AppendRecord tracing_factory;
    behavior GetInclusionProof tracing_factory; behavior GetConsistencyProof tracing_factory;
    behavior IssueCheckpoint tracing_factory;
    behavior CreateLog transaction_factory; behavior IssueCheckpoint transaction_factory;
    behavior AppendRecord metrics_factory; behavior AppendRecord transaction_factory ].

Definition build_registry : result Wiring (gmap AuditRequest (Boxed Request Response World AuditContainer)) :=
  register_each Request Response World AuditContainer registrations ∅.

(** The container over Postgres; [id] and [now] are what its generator and clock give. *)
Definition postgres_container (pg : Pg) `{J : Jiff} (factory : Hasher) (keys : KeyStore) (id : LogId)
    (now : Timestamp) : AuditContainer :=
  let gateway := postgres_gateway pg factory in
  let queries := postgres_queries pg factory in
  mkAuditContainer
    (λ t, match t return option (Request t → Op (Response t)) with
          | CreateLog => Some (λ _, CreateLogHandler gateway factory id now)
          | AppendRecord => Some (λ '(l, r), AppendRecordHandler gateway l r)
          | GetInclusionProof => Some (λ '(l, i), GetInclusionProofHandler queries l i)
          | GetConsistencyProof => Some (λ '(l, f), GetConsistencyProofHandler queries l f)
          | IssueCheckpoint =>
              Some (λ '(l, k, p), IssueCheckpointHandler gateway keys (anchor pg) now l k p)
          end)
    (Some tt) (Some tt) (Some (postgres_tm pg)).

(** The chain the audit service is known to run for a request. *)
Definition pipeline (pg : Pg) `{J : Jiff} (factory : Hasher) (keys : KeyStore) (id : LogId) (now : Timestamp)
    (t : AuditRequest) : Request t → Op (Response t) :=
  match t with
  | CreateLog => λ _, dispatch_create pg factory id now
  | AppendRecord => λ '(l, r), dispatch_append pg factory l r
  | GetInclusionProof => λ '(l, i), dispatch_inclusion pg factory l i
  | GetConsistencyProof => λ '(l, f), dispatch_consistency pg factory l f
  | IssueCheckpoint => λ '(l, k, p), dispatch_checkpoint pg factory keys now l k p
  end.

(** C32: requests are routed as registered, and the casts of the table never fail. Whatever
    is registered in whatever order, building the table succeeds, and a request of a type
    runs through the behaviours registered for that type, in the order they were, to the
    handler registered for it last; nothing registered for other types plays a part, and
    it panics only for want of a handler or of something the container cannot resolve.
    With the registrations of the audit service and its container, every request runs
    the pipeline its use case is proved correct under. *)
Theorem registry_routes :
  (∀ xs : list (Registration Request Response World AuditContainer),
   ∃ r, register_each _ _ _ _ xs ∅ = Ok r
     ∧ ∀ t container request,
       dispatcher_send _ _ _ _ t container r request = send_registered _ _ _ _ xs t container request)
  ∧ ∃ r, build_registry = Ok r
    ∧ ∀ pg `(J : Jiff) factory keys id now t request,
      dispatcher_send _ _ _ _ t (postgres_container pg factory keys id now) r request
      = Ok (pipeline pg factory keys id now t request).
Proof.
  split; [apply dispatch_registered|].
  destruct (dispatch_registered Request Response World AuditContainer registrations) as (r & Hr & Hd).
  exists r. split; [exact Hr|]. intros pg J factory keys id now t request. rewrite Hd.
  destruct t; simpl in request; [destruct request|destruct request..|]; try reflexivity.
  by destruct request as [[l k] p].
Qed.
