(* ===== verification/Text.v ===== *)
(** * Text: the part of Rust's [str] the code relies on

    A [String] is its bytes.  [scan] is one step of the standard library's UTF-8
    decoder (the widths and continuation ranges of [core::str]); from it come the
    splitting of a string into its characters ([chunks]), [String::from_utf8_lossy]
    and [str::trim] with Unicode's White_Space. *)
From stdpp Require Import options.
From S2P Require Import Prelude.

(** ** One step of the decoder *)

Definition byte_at (b : bytes) (i : nat) : N :=
  match b !! i with Some c => N_of_byte c | None => 0 end.

(** A continuation byte: [byte & 192 == 128]. *)
Definition is_cont (n : N) : bool := (128 <=? n)%N && (n <? 192)%N.

Definition in_range (lo hi n : N) : bool := (lo <=? n)%N && (n <=? hi)%N.

(** The second byte allowed after a three- or four-byte lead. *)
Definition second_ok (lead second : N) : bool :=
  if (lead =? 224)%N then in_range 160 191 second
  else if (lead =? 237)%N then in_range 128 159 second
  else if (lead =? 240)%N then in_range 144 191 second
  else if (lead =? 244)%N then in_range 128 143 second
  else in_range 128 191 second.

(** How many bytes the decoder takes at the head of a non-empty string, and
    whether they are a character. An invalid sequence takes the longest prefix
    that could have started one. *)
Definition scan (b : bytes) : bool * nat :=
  let c0 := byte_at b 0 in
  let c1 := byte_at b 1 in
  let c2 := byte_at b 2 in
  let c3 := byte_at b 3 in
  if (c0 <? 128)%N then (true, 1)
  else if in_range 194 223 c0 then if is_cont c1 then (true, 2) else (false, 1)
  else if in_range 224 239 c0 then
    if negb (second_ok c0 c1) then (false, 1)
    else if is_cont c2 then (true, 3) else (false, 2)
  else if in_range 240 244 c0 then
    if negb (second_ok c0 c1) then (false, 1)
    else if negb (is_cont c2) then (false, 2)
    else if is_cont c3 then (true, 4) else (false, 3)
  else (false, 1).

(** ** Characters *)

(** The pieces [scan] cuts a string into, each with its validity. *)
Fixpoint pieces_fuel (fuel : nat) (b : bytes) : list (bool * bytes) :=
  match fuel, b with
  | O, _ => []
  | _, [] => []
  | S fuel', _ =>
      let '(ok, n) := scan b in
      (ok, take n b) :: pieces_fuel fuel' (drop n b)
  end.

Definition pieces (b : bytes) : list (bool * bytes) := pieces_fuel (length b) b.

(** [chars()] of a valid string, each character as its bytes. *)
Definition chunks (b : bytes) : list bytes := snd <$> pieces b.

Definition valid_utf8 (b : bytes) : bool := forallb fst (pieces b).

(** ** from_utf8_lossy *)

Definition REPLACEMENT : bytes := [byte_of_N 239; byte_of_N 191; byte_of_N 189].

Definition from_utf8_lossy (b : bytes) : bytes :=
  concat (map (λ '(ok, c), if (ok : bool) then c else REPLACEMENT) (pieces b)).

(** ** White space *)

(** Unicode White_Space, by encoding. *)
Definition is_whitespace (c : bytes) : bool :=
  match N_of_byte <$> c with
  | [a] => in_range 9 13 a || (a =? 32)%N
  | [a; b] => (a =? 194)%N && ((b =? 133)%N || (b =? 160)%N)
  | [a; b; d] =>
      ((a =? 225)%N && (b =? 154)%N && (d =? 128)%N)
      || ((a =? 226)%N && (b =? 128)%N
          && (in_range 128 138 d || (d =? 168)%N || (d =? 169)%N || (d =? 175)%N))
      || ((a =? 226)%N && (b =? 129)%N && (d =? 159)%N)
      || ((a =? 227)%N && (b =? 128)%N && (d =? 128)%N)
  | _ => false
  end.

Fixpoint drop_whitespace (cs : list bytes) : list bytes :=
  match cs with
  | [] => []
  | c :: cs' => if is_whitespace c then drop_whitespace cs' else cs
  end.

Definition trim (b : bytes) : bytes :=
  concat (rev (drop_whitespace (rev (drop_whitespace (chunks b))))).

(** [s.trim().is_empty()]. *)
Definition is_blank (b : bytes) : bool :=
  match trim b with [] => true | _ => false end.

(** ** ASCII helpers *)

Definition is_ascii (b : bytes) : bool := forallb (λ c, (N_of_byte c <? 128)%N) b.

(** [to_ascii_lowercase], a byte at a time. *)
Definition lower_byte (c : ascii) : ascii :=
  let n := N_of_byte c in if in_range 65 90 n then byte_of_N (n + 32) else c.

Definition to_ascii_lowercase (b : bytes) : bytes := map lower_byte b.

(** ** Searching *)

(** The text before the first [c] and after it. *)
Fixpoint break_at (c : ascii) (b : bytes) : option (bytes * bytes) :=
  match b with
  | [] => None
  | x :: b' =>
      if bool_decide (x = c) then Some ([], b')
      else '(l, r) ← break_at c b'; Some (x :: l, r)
  end.

Fixpoint starts_with (p b : bytes) : bool :=
  match p, b with
  | [], _ => true
  | x :: p', y :: b' => bool_decide (x = y) && starts_with p' b'
  | _ :: _, [] => false
  end.

(** [str::find(needle)]: the byte offset of the first occurrence. *)
Fixpoint find_sub (needle hay : bytes) : option nat :=
  if starts_with needle hay then Some 0
  else match hay with
       | [] => None
       | _ :: hay' => S <$> find_sub needle hay'
       end.

(** [hay.contains(needle)]. *)
Definition contains (hay needle : bytes) : bool :=
  match find_sub needle hay with Some _ => true | None => false end.

(** [strip_prefix]. *)
Definition strip_prefix (p b : bytes) : option bytes :=
  if starts_with p b then Some (drop (length p) b) else None.

(** ** Lemmas *)

Lemma scan_pos b : 1 ≤ (scan b).2.
Proof. unfold scan. cbv zeta. repeat case_match; simpl; lia. Qed.

Lemma pieces_fuel_concat fuel b :
  length b ≤ fuel → concat (map snd (pieces_fuel fuel b)) = b.
Proof.
  revert b. induction fuel as [|fuel IH]; intros b Hf; [by destruct b; [|simpl in Hf; lia]|].
  destruct b as [|c b]; [done|]. cbn [pieces_fuel]. pose proof (scan_pos (c :: b)) as Hp.
  destruct (scan (c :: b)) as [ok n]. cbn [map concat snd] in *.
  rewrite IH by (rewrite length_drop; simpl in *; lia). apply take_drop.
Qed.

(** The characters of a string put together are the string. *)
Lemma chunks_concat b : concat (chunks b) = b.
Proof. apply pieces_fuel_concat. done. Qed.

Lemma from_utf8_lossy_valid b : valid_utf8 b = true → from_utf8_lossy b = b.
Proof.
  intros Hv. unfold from_utf8_lossy. rewrite <- (chunks_concat b) at 2. f_equal.
  unfold chunks, valid_utf8 in *. induction (pieces b) as [|[ok c] ps IH]; [done|].
  simpl in *. apply andb_true_iff in Hv as [-> Hv]. by rewrite IH.
Qed.

Lemma break_at_app c l r :
  c ∉ l → break_at c (l ++ c :: r) = Some (l, r).
Proof.
  induction l as [|x l IH]; intros Hn; simpl.
  - by rewrite bool_decide_eq_true_2.
  - rewrite not_elem_of_cons in Hn. destruct Hn as [Hx Hl].
    rewrite bool_decide_eq_false_2 by congruence. by rewrite IH.
Qed.

Lemma break_at_none c b : break_at c b = None ↔ c ∉ b.
Proof.
  induction b as [|x b IH]; simpl; [split; [by intros _ ?%elem_of_nil|done]|].
  rewrite not_elem_of_cons. case_bool_decide as Hx; [naive_solver|].
  destruct (break_at c b) as [[l r]|]; simpl; naive_solver.
Qed.

Lemma break_at_some c b l r : break_at c b = Some (l, r) → b = l ++ c :: r ∧ c ∉ l.
Proof.
  revert l r. induction b as [|x b IH]; intros l r H; simpl in H; [done|].
  case_bool_decide as Hx.
  - injection H as <- <-. subst x. split; [done|apply not_elem_of_nil].
  - destruct (break_at c b) as [[l' r']|]; [|done]. injection H as <- <-.
    destruct (IH _ _ eq_refl) as [-> Hn]. split; [done|].
    rewrite not_elem_of_cons. naive_solver.
Qed.

Lemma starts_with_app p b : starts_with p b = true ↔ ∃ r, b = p ++ r.
Proof.
  revert b. induction p as [|x p IH]; intros b; simpl; [naive_solver|].
  destruct b as [|y b]; [naive_solver|]. rewrite andb_true_iff, bool_decide_eq_true, IH.
  naive_solver.
Qed.

Lemma find_sub_spec needle hay :
  match find_sub needle hay with
  | Some n => ∃ r, hay = take n hay ++ needle ++ r ∧ n ≤ length hay
  | None => ∀ a r, hay ≠ a ++ needle ++ r
  end.
Proof.
  induction hay as [|c hay IH]; simpl.
  - destruct (starts_with needle []) eqn:E.
    + apply starts_with_app in E as [r E]. exists r. done.
    + intros a r Hr. destruct a; [|done]. apply (proj2 (not_true_iff_false _)) in E. apply E, starts_with_app. eauto.
  - destruct (starts_with needle (c :: hay)) eqn:E.
    + apply starts_with_app in E as [r E]. exists r. split; [done|lia].
    + apply not_true_iff_false in E. destruct (find_sub needle hay) as [n|]; simpl.
      * destruct IH as (r & Hr & Hn). exists r. split; [|lia]. by rewrite <- Hr.
      * intros a r Hr. destruct a as [|x a]; [apply E, starts_with_app; eauto|].
        injection Hr as -> Hr. by eapply IH.
Qed.

Lemma contains_spec hay needle : contains hay needle = true ↔ ∃ a r, hay = a ++ needle ++ r.
Proof.
  unfold contains. pose proof (find_sub_spec needle hay) as H.
  destruct (find_sub needle hay) as [n|].
  - split; [|done]. destruct H as (r & Hr & _). eauto.
  - split; [done|]. intros (a & r & Hr). by apply H in Hr.
Qed.

(** ** Valid strings *)

Lemma byte_at_app a b i : i < length a → byte_at (a ++ b) i = byte_at a i.
Proof. intros Hi. unfold byte_at. by rewrite lookup_app_l. Qed.

Lemma byte_at_pos a i : byte_at a i ≠ 0%N → i < length a.
Proof.
  unfold byte_at. destruct (a !! i) eqn:E; [|done]. intros _. by eapply lookup_lt_Some.
Qed.

Lemma is_cont_pos n : is_cont n = true → n ≠ 0%N.
Proof. intros H ->. done. Qed.

Lemma second_ok_pos c n : second_ok c n = true → n ≠ 0%N.
Proof. unfold second_ok, in_range. intros H ->. repeat case_match; done. Qed.

(** A character is read the same whatever follows it. *)
Lemma scan_app a b n :
  a ≠ [] → scan a = (true, n) → scan (a ++ b) = (true, n) ∧ n ≤ length a.
Proof.
  intros Hne. assert (0 < length a) as H0 by (destruct a; [done|simpl; lia]).
  unfold scan. cbv zeta. rewrite (byte_at_app a b 0) by done.
  repeat case_match; intros Hn; simplify_eq/=;
    repeat match goal with
      | H : negb _ = false |- _ => apply negb_false_iff in H
      | H : negb _ = true |- _ => apply negb_true_iff in H
      | H : is_cont (byte_at a ?i) = true |- _ =>
          let L := fresh "L" in
          pose proof (byte_at_pos a i (is_cont_pos _ H)) as L;
          rewrite <- (byte_at_app a b i L) in H; revert L
      | H : second_ok _ (byte_at a ?i) = true |- _ =>
          let L := fresh "L" in
          pose proof (byte_at_pos a i (second_ok_pos _ _ H)) as L;
          rewrite <- (byte_at_app a b i L) in H; revert L
      end; intros; first [split; [done|lia] | congruence].
Qed.

Lemma pieces_fuel_enough f g b :
  length b ≤ f → length b ≤ g → pieces_fuel f b = pieces_fuel g b.
Proof.
  revert g b. induction f as [|f IH]; intros g b Hf Hg.
  - destruct b; [by destruct g|simpl in Hf; lia].
  - destruct b as [|c b]; [by destruct g|]. destruct g as [|g]; [simpl in Hg; lia|].
    cbn [pieces_fuel]. pose proof (scan_pos (c :: b)) as Hp.
    destruct (scan (c :: b)) as [ok n]. f_equal. simpl in *.
    apply IH; rewrite length_drop; simpl; lia.
Qed.

Lemma pieces_step b :
  b ≠ [] → pieces b = ((scan b).1, take (scan b).2 b) :: pieces (drop (scan b).2 b).
Proof.
  intros Hne. unfold pieces at 1. destruct b as [|c b]; [done|]. cbn [length pieces_fuel].
  pose proof (scan_pos (c :: b)) as Hp. destruct (scan (c :: b)) as [ok n]. f_equal.
  simpl in Hp. apply pieces_fuel_enough; rewrite length_drop; simpl; lia.
Qed.

Lemma pieces_app a b : valid_utf8 a = true → pieces (a ++ b) = pieces a ++ pieces b.
Proof.
  remember (length a) as k eqn:Hk. revert a Hk.
  induction (lt_wf k) as [k _ IH]. intros a -> Hv.
  destruct (decide (a = [])) as [->|Hne]; [done|].
  unfold valid_utf8 in Hv. rewrite (pieces_step a Hne) in *. simpl in Hv.
  apply andb_true_iff in Hv as [Hok Hv]. destruct (scan a) as [ok n] eqn:Hs. simpl in Hok. subst ok.
  pose proof (scan_pos a) as Hp. rewrite Hs in Hp. simpl in Hp.
  destruct (scan_app a b n Hne Hs) as [Hs' Hn].
  rewrite (pieces_step (a ++ b)) by (by destruct a). rewrite Hs'. simpl in *.
  rewrite take_app_le, drop_app_le by done. f_equal.
  apply (IH (length (drop n a))); [rewrite length_drop; lia|done|done].
Qed.

Lemma valid_utf8_app a b : valid_utf8 a = true → valid_utf8 (a ++ b) = valid_utf8 b.
Proof.
  intros Hv. unfold valid_utf8. rewrite pieces_app by done. rewrite forallb_app.
  unfold valid_utf8 in Hv. by rewrite Hv.
Qed.

Lemma chunks_app a b : valid_utf8 a = true → chunks (a ++ b) = chunks a ++ chunks b.
Proof. intros Hv. unfold chunks. by rewrite pieces_app, fmap_app. Qed.

(** ** Characters of a valid string *)

(** The bytes of one character. *)
Definition is_char (c : bytes) : Prop := valid_utf8 c = true ∧ chunks c = [c].

Lemma byte_at_take b n i : i < n → byte_at (take n b) i = byte_at b i.
Proof. intros Hi. unfold byte_at. by rewrite lookup_take_lt. Qed.

Lemma scan_take b n : b ≠ [] → scan b = (true, n) → scan (take n b) = (true, n) ∧ length (take n b) = n.
Proof.
  intros Hne H. pose proof (scan_app b [] n Hne H) as [_ Hl]. split; [|rewrite length_take; lia].
  revert H. unfold scan. cbv zeta.
  destruct (byte_at b 0 <? 128)%N eqn:E0.
  { intros [= <-]. by rewrite byte_at_take, E0 by lia. }
  destruct (in_range 194 223 (byte_at b 0)) eqn:E1.
  { destruct (is_cont (byte_at b 1)) eqn:?; [|done]. intros [= <-].
    rewrite !byte_at_take by lia. by rewrite E0, E1, Heqb0. }
  destruct (in_range 224 239 (byte_at b 0)) eqn:E2.
  { destruct (second_ok (byte_at b 0) (byte_at b 1)) eqn:Es; [|done].
    destruct (is_cont (byte_at b 2)) eqn:Ec; [|done]. intros [= <-].
    rewrite !byte_at_take by lia. by rewrite E0, E1, E2, Es, Ec. }
  destruct (in_range 240 244 (byte_at b 0)) eqn:E3; [|done].
  destruct (second_ok (byte_at b 0) (byte_at b 1)) eqn:Es; [|done].
  destruct (is_cont (byte_at b 2)) eqn:Ec; [|done].
  destruct (is_cont (byte_at b 3)) eqn:Ed; [|done]. intros [= <-].
  rewrite !byte_at_take by lia. by rewrite E0, E1, E2, E3, Es, Ec, Ed.
Qed.

Lemma pieces_nil : pieces [] = [].
Proof. done. Qed.

(** A valid string is a sequence of characters. *)
Lemma chunks_valid b : valid_utf8 b = true → Forall is_char (chunks b).
Proof.
  remember (length b) as k eqn:Hk. revert b Hk. induction (lt_wf k) as [k _ IH]. intros b -> Hv.
  destruct (decide (b = [])) as [->|Hne]; [constructor|].
  unfold chunks, valid_utf8 in *. rewrite pieces_step in Hv |- * by done.
  pose proof (scan_pos b) as Hp. destruct (scan b) as [ok n] eqn:E. simpl in *.
  apply andb_true_iff in Hv as [-> Hv].
  destruct (scan_take b n Hne E) as [Hs Hl].
  assert (take n b ≠ []) as Hn by (intros Hn; rewrite Hn in Hl; simpl in Hl; lia).
  constructor.
  - unfold is_char, chunks, valid_utf8. rewrite pieces_step, Hs by done. simpl.
    rewrite drop_ge, take_ge by lia. by rewrite pieces_nil.
  - eapply IH; [|reflexivity|done]. rewrite length_drop.
    destruct b; [done|]. simpl in *. lia.
Qed.

Lemma concat_chars cs : Forall is_char cs → valid_utf8 (concat cs) = true ∧ chunks (concat cs) = cs.
Proof.
  induction 1 as [|c cs [Hv Hc] _ [IHv IHc]]; [done|]. simpl.
  rewrite valid_utf8_app, chunks_app, Hc, IHc by done. done.
Qed.
