(* ===== verification/Sse.v ===== *)
(** * Sse: the incremental Server-Sent Events decoder
    (crates/agate-proxy/src/infrastructure/sse)

    The decoder with its buffers, the loop of [push], field parsing and
    dispatch, and the encoder.  The reference it is proved against cuts the whole
    byte stream at blank lines and decodes each block on its own. *)
From stdpp Require Import options.
From S2P Require Import Prelude Text.

Definition LF : ascii := byte_of_N 10.
Definition CR : ascii := byte_of_N 13.
Definition COLON : ascii := byte_of_N 58.
Definition SPACE : ascii := byte_of_N 32.

Record SseEvent := mkSseEvent {
  sse_data : bytes;
  sse_event : option bytes;
  sse_id : option bytes;
  sse_raw : bytes;
}.

Record SseDecoder := mkSseDecoder {
  d_buffer : bytes;
  d_raw : bytes;
  d_data : bytes;
  d_event : option bytes;
  d_id : option bytes;
  d_has_data : bool;
}.

Definition SseDecoder_new : SseDecoder := mkSseDecoder [] [] [] None None false.

Definition pending_len (d : SseDecoder) : N := (len (d_buffer d) + len (d_raw d))%N.

(** [parse_field]: the line, decoded lossily, split at its first colon, one
    leading space of the value dropped. *)
Definition split_field (content : bytes) : bytes * bytes :=
  let line := from_utf8_lossy content in
  match break_at COLON line with
  | Some (field, value) => (field, default value (strip_prefix [SPACE] value))
  | None => (line, [])
  end.

Definition parse_field (d : SseDecoder) (content : bytes) : SseDecoder :=
  let '(field, value) := split_field content in
  if bool_decide (field = lit "data") then
    mkSseDecoder (d_buffer d) (d_raw d) (d_data d ++ value ++ [LF]) (d_event d) (d_id d) true
  else if bool_decide (field = lit "event") then
    mkSseDecoder (d_buffer d) (d_raw d) (d_data d) (Some value) (d_id d) (d_has_data d)
  else if bool_decide (field = lit "id") then
    mkSseDecoder (d_buffer d) (d_raw d) (d_data d) (d_event d) (Some value) (d_has_data d)
  else d.

(** [ends_with('\n')] then [pop]. *)
Definition pop_newline (data : bytes) : bytes :=
  match last data with
  | Some c => if bool_decide (c = LF) then take (length data - 1) data else data
  | None => data
  end.

Definition dispatch (d : SseDecoder) : option SseEvent * SseDecoder :=
  let d' := mkSseDecoder (d_buffer d) [] [] None None false in
  if negb (d_has_data d) then (None, d')
  else (Some (mkSseEvent (pop_newline (d_data d)) (d_event d) (d_id d)
                         (from_utf8_lossy (d_raw d))), d').

(** The line without its trailing carriage return. *)
Definition strip_cr (line : bytes) : bytes :=
  match last line with
  | Some c => if bool_decide (c = CR) then take (length line - 1) line else line
  | None => line
  end.

(** One complete line, given without its newline. *)
Definition process_line (d : SseDecoder) (line : bytes) : list SseEvent * SseDecoder :=
  let d := mkSseDecoder (d_buffer d) (d_raw d ++ line ++ [LF]) (d_data d) (d_event d)
             (d_id d) (d_has_data d) in
  let content := strip_cr line in
  match content with
  | [] => let '(e, d') := dispatch d in (option_list e, d')
  | c :: _ => if bool_decide (c = COLON) then ([], d) else ([], parse_field d content)
  end.

Definition set_buffer (d : SseDecoder) (b : bytes) : SseDecoder :=
  mkSseDecoder b (d_raw d) (d_data d) (d_event d) (d_id d) (d_has_data d).

(** The loop [while let Some(newline) = ...]; each round takes at least the
    newline from the buffer. *)
Fixpoint push_loop (fuel : nat) (d : SseDecoder) : list SseEvent * SseDecoder :=
  match fuel with
  | O => ([], d)
  | S fuel' =>
      match break_at LF (d_buffer d) with
      | None => ([], d)
      | Some (line, rest) =>
          let '(es, d1) := process_line (set_buffer d rest) line in
          let '(es', d2) := push_loop fuel' d1 in
          (es ++ es', d2)
      end
  end.

Definition push (d : SseDecoder) (chunk : bytes) : list SseEvent * SseDecoder :=
  let d1 := set_buffer d (d_buffer d ++ chunk) in
  push_loop (S (length (d_buffer d1))) d1.

(** [sse::encode]. *)
Definition encode (data : bytes) : bytes := lit "data: " ++ data ++ [LF; LF].

(** ** Byte-wise reading of the decoder *)

Definition feed (s : list SseEvent * SseDecoder) (c : ascii) : list SseEvent * SseDecoder :=
  let '(es, d) := s in
  if bool_decide (c = LF) then
    let '(es', d') := process_line (set_buffer d []) (d_buffer d) in (es ++ es', d')
  else (es, set_buffer d (d_buffer d ++ [c])).

(** Between pushes the buffer holds no newline. *)
Definition settled (d : SseDecoder) : Prop := LF ∉ d_buffer d.

Lemma process_line_buffer d line :
  d_buffer (process_line d line).2 = d_buffer d.
Proof.
  unfold process_line, parse_field. destruct (strip_cr line) as [|c l]; simpl.
  - unfold dispatch. simpl. by destruct (d_has_data d).
  - case_bool_decide; [done|]. destruct (split_field _). by repeat case_bool_decide.
Qed.

Lemma feed_no_newline es d l :
  LF ∉ l → foldl feed (es, d) l = (es, set_buffer d (d_buffer d ++ l)).
Proof.
  revert d. induction l as [|c l IH]; intros d Hl; simpl.
  - rewrite app_nil_r. by destruct d.
  - rewrite not_elem_of_cons in Hl. destruct Hl as [Hc Hl].
    rewrite bool_decide_eq_false_2 by congruence. rewrite IH by done. simpl.
    by rewrite <- app_assoc.
Qed.

Lemma process_line_set_buffer d b line :
  process_line (set_buffer d b) line =
  ((process_line d line).1, set_buffer (process_line d line).2 b).
Proof.
  unfold process_line, parse_field, set_buffer. destruct (strip_cr line) as [|c l]; simpl.
  - unfold dispatch. simpl. by destruct (d_has_data d).
  - case_bool_decide; [done|]. destruct (split_field _) as [f v].
    by repeat (case_bool_decide; [done|]).
Qed.

Lemma foldl_feed_events es d l :
  foldl feed (es, d) l = (es ++ (foldl feed ([], d) l).1, (foldl feed ([], d) l).2).
Proof.
  revert es d. induction l as [|c l IH]; intros es d; simpl; [by rewrite app_nil_r|].
  case_bool_decide.
  - destruct (process_line (set_buffer d []) (d_buffer d)) as [es1 d1].
    rewrite (IH (es ++ es1)), (IH ([] ++ es1)). simpl. by rewrite app_assoc.
  - apply IH.
Qed.

(** The loop reads its buffer a byte at a time. *)
Lemma push_loop_feed fuel d :
  length (d_buffer d) < fuel →
  push_loop fuel d = foldl feed ([], set_buffer d []) (d_buffer d).
Proof.
  revert d. induction fuel as [|fuel IH]; intros d Hf; [lia|]. cbn [push_loop].
  destruct (break_at LF (d_buffer d)) as [[line rest]|] eqn:Hb.
  - apply break_at_some in Hb as [Hbuf Hline]. rewrite Hbuf, foldl_app, feed_no_newline by done.
    simpl. change (set_buffer (set_buffer (set_buffer d []) line) []) with (set_buffer d []).
    rewrite (process_line_set_buffer d rest), (process_line_set_buffer d []).
    destruct (process_line d line) as [es d1] eqn:Hp. simpl.
    rewrite IH by (rewrite Hbuf, length_app in Hf; simpl in *; lia).
    rewrite (foldl_feed_events es). simpl. by destruct (foldl feed _ rest).
  - apply break_at_none in Hb. rewrite feed_no_newline by done. simpl. by destruct d.
Qed.

Lemma push_feed d chunk :
  settled d → push d chunk = foldl feed ([], d) chunk.
Proof.
  intros Hs. unfold push. rewrite push_loop_feed by lia.
  simpl. rewrite foldl_app, feed_no_newline by done. simpl. by destruct d.
Qed.

Lemma feed_settled es d c : settled d → settled (feed (es, d) c).2.
Proof.
  unfold settled. intros Hd. simpl. case_bool_decide as Hc.
  - pose proof (process_line_buffer (set_buffer d []) (d_buffer d)) as Hb.
    destruct (process_line _ _) as [es' d']. simpl in *. rewrite Hb. simpl. apply not_elem_of_nil.
  - simpl. rewrite elem_of_app, list_elem_of_singleton. naive_solver.
Qed.

Lemma foldl_feed_settled s l : settled s.2 → settled (foldl feed s l).2.
Proof.
  revert s. induction l as [|c l IH]; intros [es d] Hs; simpl; [done|].
  apply IH. by apply feed_settled.
Qed.

Lemma push_settled d chunk : settled d → settled (push d chunk).2.
Proof. intros Hd. rewrite push_feed by done. by apply foldl_feed_settled. Qed.

(** ** Reference: blocks of a stream *)

(** The complete lines of a stream, without their newlines, and the rest. *)
Fixpoint split_lines (b : bytes) : list bytes * bytes :=
  match b with
  | [] => ([], [])
  | c :: b' =>
      let '(ls, t) := split_lines b' in
      if bool_decide (c = LF) then ([] :: ls, t)
      else match ls with
           | [] => ([], c :: t)
           | l :: ls' => ((c :: l) :: ls', t)
           end
  end.

Definition unlines (ls : list bytes) : bytes := concat (map (λ l, l ++ [LF]) ls).

Definition blank_line (l : bytes) : bool := bool_decide (strip_cr l = []).

(** The closed blocks of a list of lines, each with its blank line, and the open
    one; [acc] is the block being read. *)
Fixpoint sse_blocks (acc : list bytes) (ls : list bytes) : list (list bytes) * list bytes :=
  match ls with
  | [] => ([], acc)
  | l :: ls' =>
      if blank_line l then
        let '(bs, o) := sse_blocks [] ls' in ((acc ++ [l]) :: bs, o)
      else sse_blocks (acc ++ [l]) ls'
  end.

(** The field of a line, if it carries one. *)
Definition field_of (l : bytes) : option (bytes * bytes) :=
  match strip_cr l with
  | [] => None
  | c :: _ => if bool_decide (c = COLON) then None else Some (split_field (strip_cr l))
  end.

Definition values_of (name : bytes) (ls : list bytes) : list bytes :=
  omap (λ l, '(f, v) ← field_of l; if bool_decide (f = name) then Some v else None) ls.

(** Join with newlines. *)
Fixpoint join_lines (vs : list bytes) : bytes :=
  match vs with
  | [] => []
  | [v] => v
  | v :: vs' => v ++ LF :: join_lines vs'
  end.

(** One block: no event without a data field; the data fields joined, the last
    event and id fields, and the block's own bytes. *)
Definition decode_block (ls : list bytes) : option SseEvent :=
  match values_of (lit "data") ls with
  | [] => None
  | vs => Some (mkSseEvent (join_lines vs) (last (values_of (lit "event") ls))
                  (last (values_of (lit "id") ls)) (from_utf8_lossy (unlines ls)))
  end.

Definition sse_reference (input : bytes) : list SseEvent :=
  omap decode_block (sse_blocks [] (split_lines input).1).1.

(** The decoder's state while the lines [ls] of an open block have been read. *)
Definition state_of (ls : list bytes) : SseDecoder :=
  mkSseDecoder [] (unlines ls)
    (unlines (values_of (lit "data") ls)) (last (values_of (lit "event") ls))
    (last (values_of (lit "id") ls))
    (match values_of (lit "data") ls with [] => false | _ => true end).

Lemma unlines_app l1 l2 : unlines (l1 ++ l2) = unlines l1 ++ unlines l2.
Proof. unfold unlines. by rewrite map_app, concat_app. Qed.

Lemma values_of_app name l1 l2 : values_of name (l1 ++ l2) = values_of name l1 ++ values_of name l2.
Proof. unfold values_of. by rewrite omap_app. Qed.

Lemma pop_newline_unlines vs : vs ≠ [] → pop_newline (unlines vs) = join_lines vs.
Proof.
  intros Hne. destruct vs as [|v vs _] using rev_ind; [done|]. clear Hne.
  assert (unlines (vs ++ [v]) = join_lines (vs ++ [v]) ++ [LF]) as Hu.
  { induction vs as [|w vs IH]; [by unfold unlines; simpl; rewrite app_nil_r|].
    change (unlines ((w :: vs) ++ [v])) with ((w ++ [LF]) ++ unlines (vs ++ [v])).
    rewrite IH. destruct (vs ++ [v]) eqn:E; [by destruct vs|].
    cbn [join_lines app]. rewrite E. by rewrite <- !app_assoc. }
  rewrite Hu. unfold pop_newline. rewrite last_snoc, bool_decide_eq_true_2 by done.
  rewrite length_app. simpl. by rewrite Nat.add_sub, take_app_length.
Qed.

Lemma values_of_one name l :
  values_of name [l] =
  match field_of l with
  | Some (f, v) => if bool_decide (f = name) then [v] else []
  | None => []
  end.
Proof.
  unfold values_of. simpl. destruct (field_of l) as [[f v]|]; [|done].
  simpl. by case_bool_decide.
Qed.

Lemma unlines_one l : unlines [l] = l ++ [LF].
Proof. unfold unlines. simpl. by rewrite app_nil_r. Qed.

Lemma process_open ls l :
  blank_line l = false → process_line (state_of ls) l = ([], state_of (ls ++ [l])).
Proof.
  unfold blank_line. intros Hb%bool_decide_eq_false. unfold process_line, state_of.
  rewrite unlines_app, !values_of_app, !values_of_one, unlines_one.
  cbn [d_buffer d_raw d_data d_event d_id d_has_data]. unfold field_of.
  destruct (strip_cr l) as [|c x] eqn:Hs; [done|]. case_bool_decide as Hc.
  { by rewrite !app_nil_r. }
  unfold parse_field. destruct (split_field (c :: x)) as [f v].
  cbn [d_buffer d_raw d_data d_event d_id d_has_data].
  repeat case_bool_decide; simplify_eq.
  all: rewrite ?app_nil_r, ?last_snoc, ?unlines_app, ?unlines_one; try done.
  by destruct (values_of _ ls).
Qed.

Lemma process_blank ls l :
  blank_line l = true →
  process_line (state_of ls) l = (option_list (decode_block (ls ++ [l])), state_of []).
Proof.
  unfold blank_line. intros Hb%bool_decide_eq_true. unfold process_line. rewrite Hb.
  unfold decode_block. rewrite !values_of_app.
  assert (∀ name, values_of name [l] = []) as Hv.
  { intros name. rewrite values_of_one. unfold field_of. by rewrite Hb. }
  rewrite !Hv, !app_nil_r, unlines_app, unlines_one. unfold dispatch, state_of.
  cbn [d_buffer d_raw d_data d_event d_id d_has_data].
  destruct (values_of (lit "data") ls) as [|v vs] eqn:Hd; [done|]. cbn [negb].
  by rewrite pop_newline_unlines.
Qed.

Lemma unlines_cons l ls : unlines (l :: ls) = l ++ LF :: unlines ls.
Proof. unfold unlines. simpl. by rewrite <- app_assoc. Qed.

Lemma feed_lines ls acc t :
  Forall (λ l, LF ∉ l) ls → LF ∉ t →
  foldl feed ([], state_of acc) (unlines ls ++ t) =
  (omap decode_block (sse_blocks acc ls).1, set_buffer (state_of (sse_blocks acc ls).2) t).
Proof.
  revert acc. induction ls as [|l ls IH]; intros acc Hls Ht; simpl.
  - by rewrite feed_no_newline.
  - apply Forall_cons in Hls as [Hl Hls]. rewrite unlines_cons, <- app_assoc, foldl_app, feed_no_newline by done.
    simpl.
    change (set_buffer (set_buffer (state_of acc) l) []) with (state_of acc).
    destruct (blank_line l) eqn:Hb.
    + rewrite process_blank by done. rewrite foldl_feed_events, IH by done.
      destruct (sse_blocks [] ls) as [bs o]. simpl. by destruct (decode_block (acc ++ [l])).
    + rewrite process_open by done. by rewrite IH.
Qed.

Lemma split_lines_spec b :
  let '(ls, t) := split_lines b in
  b = unlines ls ++ t ∧ Forall (λ l, LF ∉ l) ls ∧ LF ∉ t.
Proof.
  induction b as [|c b IH]; simpl.
  - split_and!; [done|constructor|apply not_elem_of_nil].
  - destruct (split_lines b) as [ls t]. destruct IH as (-> & Hls & Ht).
    case_bool_decide as Hc.
    + subst c. split_and!; [done| |done]. constructor; [apply not_elem_of_nil|done].
    + destruct ls as [|l ls].
      * split_and!; [done|constructor|]. rewrite not_elem_of_cons. auto.
      * apply Forall_cons in Hls as [Hl Hls]. split_and!; [done| |done].
        constructor; [rewrite not_elem_of_cons; auto|done].
Qed.

(** ** Feeding a stream in chunks *)

(** The caller's loop: the decoder fed one received chunk after another. *)
Fixpoint push_all (d : SseDecoder) (input : list bytes) : list SseEvent * SseDecoder :=
  match input with
  | [] => ([], d)
  | chunk :: input' =>
      let '(es, d1) := push d chunk in
      let '(es', d2) := push_all d1 input' in
      (es ++ es', d2)
  end.

Lemma push_all_feed d input :
  settled d → push_all d input = foldl feed ([], d) (concat input).
Proof.
  revert d. induction input as [|chunk input IH]; intros d Hd; simpl; [done|].
  pose proof (push_settled d chunk Hd) as Hs. rewrite push_feed in * by done.
  rewrite foldl_app. destruct (foldl feed ([], d) chunk) as [es d1]. simpl in Hs.
  rewrite IH by done. rewrite (foldl_feed_events es). by destruct (foldl feed _ _).
Qed.

Lemma new_settled : settled SseDecoder_new.
Proof. apply not_elem_of_nil. Qed.

Lemma push_all_new input :
  let '(ls, t) := split_lines (concat input) in
  push_all SseDecoder_new input =
  (omap decode_block (sse_blocks [] ls).1, set_buffer (state_of (sse_blocks [] ls).2) t).
Proof.
  rewrite push_all_feed by apply new_settled.
  pose proof (split_lines_spec (concat input)) as Hs.
  destruct (split_lines (concat input)) as [ls t]. destruct Hs as (-> & Hls & Ht).
  exact (feed_lines ls [] t Hls Ht).
Qed.

Lemma sse_blocks_unlines acc ls :
  unlines acc ++ unlines ls =
  unlines (concat (sse_blocks acc ls).1) ++ unlines (sse_blocks acc ls).2.
Proof.
  revert acc. induction ls as [|l ls IH]; intros acc; simpl; [by rewrite app_nil_r|].
  destruct (blank_line l).
  - specialize (IH []). destruct (sse_blocks [] ls) as [bs o]. simpl in *.
    change (l :: ls) with ([l] ++ ls). rewrite !unlines_app in *. simpl in IH.
    by rewrite IH, <- !app_assoc.
  - by rewrite <- IH, <- !unlines_app, <- app_assoc.
Qed.


(** ** The encoder *)

Lemma split_field_data data :
  valid_utf8 data = true → split_field (lit "data: " ++ data) = (lit "data", data).
Proof.
  intros Hv. unfold split_field.
  rewrite from_utf8_lossy_valid by (by rewrite valid_utf8_app).
  change (lit "data: " ++ data) with (lit "data" ++ COLON :: SPACE :: data).
  by rewrite break_at_app by (by apply (bool_decide_eq_false_1 _)).
Qed.

(** A payload [encode] can carry: one line of text that does not end in a carriage
    return, as serialised JSON is. *)
Definition encodable (data : bytes) : Prop :=
  (LF ∉ data) ∧ last data ≠ Some CR ∧ valid_utf8 data = true.

Lemma field_of_encoded data :
  encodable data → field_of (lit "data: " ++ data) = Some (lit "data", data)
                   ∧ blank_line (lit "data: " ++ data) = false.
Proof.
  intros (_ & Hcr & Hv). unfold field_of, blank_line.
  assert (strip_cr (lit "data: " ++ data) = lit "data: " ++ data) as ->.
  { unfold strip_cr. rewrite last_app. destruct (last data) as [c|] eqn:E; [|done].
    rewrite bool_decide_eq_false_2 by congruence. done. }
  rewrite <- (split_field_data data Hv). done.
Qed.

Lemma decode_encoded data :
  encodable data →
  decode_block [lit "data: " ++ data; []] = Some (mkSseEvent data None None (encode data)).
Proof.
  intros He. pose proof (field_of_encoded data He) as [Hf _]. destruct He as (_ & _ & Hv).
  assert (∀ name, values_of name [lit "data: " ++ data; []] =
                  if bool_decide (lit "data" = name) then [data] else []) as Hval.
  { intros name. change [lit "data: " ++ data; []] with ([lit "data: " ++ data] ++ [[]]).
    rewrite values_of_app, !values_of_one, Hf. by rewrite app_nil_r. }
  unfold decode_block. rewrite !Hval. simpl. do 2 f_equal.
  rewrite from_utf8_lossy_valid; unfold unlines, encode; simpl; rewrite <- ?app_assoc; [done|].
  change (valid_utf8 (lit "data: " ++ data ++ [LF; LF]) = true).
  by rewrite valid_utf8_app, valid_utf8_app.
Qed.

Lemma sse_blocks_encoded datas :
  Forall encodable datas →
  sse_blocks [] (datas ≫= λ x, [lit "data: " ++ x; []]) =
  ((λ x, [lit "data: " ++ x; []]) <$> datas, []).
Proof.
  induction 1 as [|x xs Hx Hxs IH]; [done|].
  destruct (field_of_encoded x Hx) as [_ Hb].
  rewrite bind_cons. cbn [app sse_blocks]. rewrite Hb. cbn [app sse_blocks].
  change (blank_line []) with true. cbn [app]. by rewrite IH.
Qed.

Lemma unlines_encoded datas :
  concat (encode <$> datas) = unlines (datas ≫= λ x, [lit "data: " ++ x; []]).
Proof.
  induction datas as [|x xs IH]; [done|]. rewrite bind_cons, unlines_app, <- IH.
  rewrite fmap_cons. cbn [concat]. f_equal. unfold unlines, encode.
  cbn [map concat]. by rewrite <- !app_assoc.
Qed.

Lemma encoded_lines datas :
  Forall encodable datas → Forall (λ l, LF ∉ l) (datas ≫= λ x, [lit "data: " ++ x; []]).
Proof.
  induction 1 as [|x xs (Hx & _) Hxs IH]; [constructor|]. rewrite bind_cons.
  apply Forall_app. split; [|done].
  assert (LF ∉ lit "data: ") as Hd by (by apply (bool_decide_eq_false_1 _)).
  constructor; [rewrite elem_of_app; tauto|]. constructor; [apply not_elem_of_nil|done].
Qed.

(** The decoder on a stream of encoded payloads. *)
Lemma feed_encoded datas input :
  Forall encodable datas →
  concat input = concat (encode <$> datas) →
  push_all SseDecoder_new input =
  ((λ x, mkSseEvent x None None (encode x)) <$> datas, SseDecoder_new).
Proof.
  intros Hd Hin. rewrite push_all_feed by apply new_settled.
  rewrite Hin, unlines_encoded, <- (app_nil_r (unlines _)).
  change SseDecoder_new with (state_of []) at 1.
  rewrite feed_lines by (by apply encoded_lines || apply not_elem_of_nil).
  rewrite sse_blocks_encoded by done. simpl. f_equal. clear Hin.
  induction Hd as [|x xs Hx Hxs IH]; [done|]. cbn [fmap list_fmap omap list_omap].
  pose proof (decode_encoded x Hx) as Hdx. simpl in Hdx. by rewrite Hdx, IH.
Qed.

(** Frames written by [encode] come back unchanged, whatever the chunking: the
    decoder returns one event per payload with exactly that payload and those bytes,
    and ends in its initial state. *)
Theorem sse_encode_roundtrip datas input :
  Forall encodable datas →
  concat input = concat (encode <$> datas) →
  push_all SseDecoder_new input =
  ((λ x, mkSseEvent x None None (encode x)) <$> datas, SseDecoder_new).
Proof. apply feed_encoded. Qed.

Lemma sse_encode_roundtrip_witness :
  push_all SseDecoder_new [lit "data: {a"; lit "}" ++ [LF]; LF :: lit "data: b"; [LF; LF]] =
  ([mkSseEvent (lit "{a}") None None (encode (lit "{a}"));
    mkSseEvent (lit "b") None None (encode (lit "b"))], SseDecoder_new).
Proof.
  apply (sse_encode_roundtrip [lit "{a}"; lit "b"]); [|reflexivity].
  repeat constructor; try (by apply (bool_decide_eq_false_1 _)); done.
Defined.

(** Bytes received and not yet part of a complete block never include a complete one:
    a chunk grows [pending_len] by at most its own length. *)
Lemma push_pending d chunk :
  settled d → (pending_len (push d chunk).2 ≤ pending_len d + len chunk)%N.
Proof.
  intros Hs. rewrite push_feed by done. revert d Hs. induction chunk as [|c l IH]; intros d Hs; simpl.
  - lia.
  - rewrite len_cons. case_bool_decide as Hc.
    + pose proof (process_line_buffer (set_buffer d []) (d_buffer d)) as Hb.
      assert (len (d_raw (process_line (set_buffer d []) (d_buffer d)).2) ≤
              len (d_raw d) + len (d_buffer d) + 1)%N as Hr.
      { unfold process_line, parse_field. destruct (strip_cr _) as [|c' x]; simpl.
        - unfold dispatch. simpl. destruct (d_has_data d); simpl; unfold len; simpl; lia.
        - destruct (split_field _) as [f v].
          repeat case_bool_decide; simpl; rewrite !len_app; unfold len; simpl; lia. }
      destruct (process_line _ _) as [es1 d1]. simpl in *. rewrite foldl_feed_events. simpl.
      assert (settled d1) as Hs1 by (unfold settled; rewrite Hb; apply not_elem_of_nil).
      specialize (IH d1 Hs1). unfold pending_len in *. rewrite Hb in IH. simpl in IH.
      change (len (@nil ascii)) with 0%N in IH. lia.
    + assert (settled (set_buffer d (d_buffer d ++ [c]))) as Hs1.
      { unfold settled in *. simpl. rewrite elem_of_app, list_elem_of_singleton. naive_solver. }
      specialize (IH _ Hs1). unfold pending_len in *. simpl in *.
      rewrite len_app in IH. change (len [c]) with 1%N in IH. lia.
Qed.
