(* ===== verification/Run.v ===== *)
(** * Run: the structural inspection of one agent run
    (crates/agate-proxy/src/domain/inspection)

    The values the proxy's domain reasons about (fragments, events, budgets,
    verdicts) and [Run], the state machine that orders a run's lifecycle, assembles
    tool calls from their fragments and enforces the resource budgets.  The maps of
    the source are [gmap]s; the order in which [HashMap::drain] returns its entries
    is a parameter. *)
From stdpp Require Import options.
From S2P Require Import Prelude Text.

(** ** Identifiers *)

(** A UUID, as its 128-bit value. *)
Definition Uuid : Type := N.

Record RunId := mkRunId { run_uuid : Uuid }.
Record SessionId := mkSessionId { session_uuid : Uuid }.
Record ToolCallId := mkToolCallId { tool_call_str : bytes }.
Record MessageId := mkMessageId { message_str : bytes }.

#[export] Instance SessionId_eq_dec : EqDecision SessionId.
Proof. intros [a] [b]. destruct (N.eq_dec a b); [left|right]; congruence. Defined.
#[export] Instance ToolCallId_eq_dec : EqDecision ToolCallId.
Proof. solve_decision. Defined.
#[export] Instance MessageId_eq_dec : EqDecision MessageId.
Proof. solve_decision. Defined.
#[export] Instance ToolCallId_countable : Countable ToolCallId.
Proof. by apply (inj_countable' tool_call_str mkToolCallId); intros []. Defined.
#[export] Instance SessionId_countable : Countable SessionId.
Proof. by apply (inj_countable' (A := N) session_uuid mkSessionId); intros []. Defined.

(** [DomainError::Field]. *)
Inductive DomainError := DomainError_Field (message : bytes).

Definition non_blank (value message : bytes) : result DomainError bytes :=
  if is_blank value then Err (DomainError_Field message) else Ok value.

Definition ToolCallId_new (value : bytes) : result DomainError ToolCallId :=
  mkToolCallId <$> non_blank value (lit "a tool call id must not be blank").

Definition MessageId_new (value : bytes) : result DomainError MessageId :=
  mkMessageId <$> non_blank value (lit "a message id must not be blank").

(** ** Values *)

Definition DenyReason : Type := bytes.

Inductive LifecyclePhase :=
| RunStarted
| RunFinished
| RunError
| StepStarted (name : bytes)
| StepFinished (name : bytes).

Inductive OpaqueKind := Opaque_Raw | Opaque_Custom | Opaque_Encrypted.

Inductive StateMutation :=
| Snapshot (byte_size : N) (payload : bytes)
| Delta (op_count byte_size max_path_depth max_value_bytes : N) (payload : bytes).

Definition byte_size (m : StateMutation) : N :=
  match m with Snapshot b _ => b | Delta _ b _ _ _ => b end.

Definition patch_bounds (m : StateMutation) : option (N * N * N) :=
  match m with
  | Delta op_count _ max_path_depth max_value_bytes _ =>
      Some (op_count, max_path_depth, max_value_bytes)
  | Snapshot _ _ => None
  end.

Definition payload (m : StateMutation) : bytes :=
  match m with Snapshot _ p => p | Delta _ _ _ _ p => p end.

Inductive AgentEvent :=
| Event_MessageChunk (message : MessageId) (text : bytes)
| Event_ToolCall (id : ToolCallId) (name arguments : bytes)
| Event_ToolResult (id : ToolCallId) (name : option bytes) (content : bytes)
| Event_StateMutation (mutation : StateMutation)
| Event_Lifecycle (phase : LifecyclePhase)
| Event_Opaque (kind : OpaqueKind).

Inductive Fragment :=
| ToolCallStarted (id : ToolCallId) (name : bytes)
| ToolCallArgs (id : ToolCallId) (delta : bytes)
| ToolCallEnded (id : ToolCallId)
| ToolResult (id : ToolCallId) (content : bytes)
| MessageChunk (message : MessageId) (text : bytes)
| Fragment_StateMutation (mutation : StateMutation)
| Fragment_Lifecycle (phase : LifecyclePhase)
| Fragment_Opaque (kind : OpaqueKind).

Inductive StructuralOutcome :=
| Ready (event : AgentEvent)
| ResolvedCall (id : ToolCallId) (event : AgentEvent)
| Buffering (id : ToolCallId)
| Reject (reason : DenyReason).

Inductive Verdict (E : Type) :=
| Allow
| Deny (reason : DenyReason)
| Transform (event : E)
| Buffer
| Terminate (reason : DenyReason).
Arguments Allow {E}.
Arguments Deny {E} reason.
Arguments Transform {E} event.
Arguments Buffer {E}.
Arguments Terminate {E} reason.

Definition forwards {E} (v : Verdict E) : bool :=
  match v with Allow | Transform _ => true | _ => false end.

Definition stops {E} (v : Verdict E) : bool :=
  match v with Deny _ | Terminate _ => true | _ => false end.

(** ** Budgets *)

Record PatchBudget := mkPatchBudget {
  max_ops : N;
  max_path_depth : N;
  max_value_bytes : N;
}.

Record Budgets := mkBudgets {
  max_tool_args_bytes : N;
  max_state_bytes : N;
  max_open_tool_calls : N;
  patch : PatchBudget;
}.

Definition PatchBudget_default : PatchBudget := mkPatchBudget 256 32 (64 * 1024).

Definition Budgets_new (tool_args state open_calls : N) : Budgets :=
  mkBudgets tool_args state open_calls PatchBudget_default.

Definition with_patch (b : Budgets) (p : PatchBudget) : Budgets :=
  mkBudgets (max_tool_args_bytes b) (max_state_bytes b) (max_open_tool_calls b) p.

Definition Budgets_default : Budgets := Budgets_new (64 * 1024) (256 * 1024) 16.

(** ** The run *)

Inductive Phase := Pending | Running | Finished.

#[export] Instance Phase_eq_dec : EqDecision Phase.
Proof. solve_decision. Defined.

Record ToolCallBuffer := mkToolCallBuffer {
  buf_name : bytes;
  buf_arguments : bytes;
}.

Record Run := mkRun {
  run_id : RunId;
  run_phase : Phase;
  open_tool_calls : gmap ToolCallId ToolCallBuffer;
  tool_names : gmap ToolCallId bytes;
  run_budgets : Budgets;
}.

Definition Run_new (id : RunId) (budgets : Budgets) : Run :=
  mkRun id Pending ∅ ∅ budgets.

Definition set_phase (r : Run) (p : Phase) : Run :=
  mkRun (run_id r) p (open_tool_calls r) (tool_names r) (run_budgets r).

Definition set_open (r : Run) (m : gmap ToolCallId ToolCallBuffer) : Run :=
  mkRun (run_id r) (run_phase r) m (tool_names r) (run_budgets r).

Definition set_names (r : Run) (m : gmap ToolCallId bytes) : Run :=
  mkRun (run_id r) (run_phase r) (open_tool_calls r) m (run_budgets r).

(** The calls return the outcome and the run they leave. *)
Definition reject (reason : string) (r : Run) : StructuralOutcome * Run :=
  (Reject (lit reason), r).

Definition inspect_lifecycle (r : Run) (phase : LifecyclePhase) : StructuralOutcome * Run :=
  match phase with
  | RunStarted =>
      if bool_decide (run_phase r ≠ Pending) then reject "run started more than once" r
      else (Ready (Event_Lifecycle phase), set_phase r Running)
  | RunFinished | RunError =>
      if bool_decide (run_phase r ≠ Running) then reject "run ended without being active" r
      else (Ready (Event_Lifecycle phase), set_phase r Finished)
  | StepStarted _ | StepFinished _ =>
      if bool_decide (run_phase r ≠ Running) then reject "step outside an active run" r
      else (Ready (Event_Lifecycle phase), r)
  end.

(** [open_tool_calls.len()]. *)
Definition open_count (r : Run) : N := N.of_nat (size (open_tool_calls r)).

Definition tool_call_started (r : Run) (id : ToolCallId) (name : bytes) :
    StructuralOutcome * Run :=
  match open_tool_calls r !! id with
  | Some _ => reject "tool call started twice" r
  | None =>
      if (max_open_tool_calls (run_budgets r) <=? open_count r)%N then
        reject "too many concurrent tool calls" r
      else
        let r := set_names r (<[id := name]> (tool_names r)) in
        let r := set_open r (<[id := mkToolCallBuffer name []]> (open_tool_calls r)) in
        (Buffering id, r)
  end.

(** The two lengths are at most [isize::MAX], so their [usize] sum is exact. *)
Definition tool_call_args (r : Run) (id : ToolCallId) (delta : bytes) :
    StructuralOutcome * Run :=
  match open_tool_calls r !! id with
  | None => reject "arguments for an unknown tool call" r
  | Some buffer =>
      if (max_tool_args_bytes (run_budgets r) <? len (buf_arguments buffer) + len delta)%N then
        reject "tool call arguments exceed budget" r
      else
        let buffer := mkToolCallBuffer (buf_name buffer) (buf_arguments buffer ++ delta) in
        (Buffering id, set_open r (<[id := buffer]> (open_tool_calls r)))
  end.

Definition tool_call_ended (r : Run) (id : ToolCallId) : StructuralOutcome * Run :=
  match open_tool_calls r !! id with
  | Some buffer =>
      (ResolvedCall id (Event_ToolCall id (buf_name buffer) (buf_arguments buffer)),
       set_open r (delete id (open_tool_calls r)))
  | None => reject "end of an unknown tool call" r
  end.

Definition state_mutation (r : Run) (mutation : StateMutation) : StructuralOutcome * Run :=
  let ready := (Ready (Event_StateMutation mutation), r) in
  if (max_state_bytes (run_budgets r) <? byte_size mutation)%N then
    reject "state mutation exceeds budget" r
  else
    match patch_bounds mutation with
    | None => ready
    | Some (op_count, path_depth, value_bytes) =>
        let patch := patch (run_budgets r) in
        if (max_ops patch <? op_count)%N then
          reject "state delta has too many operations" r
        else if (max_path_depth patch <? path_depth)%N then
          reject "state delta operation path is too deep" r
        else if (max_value_bytes patch <? value_bytes)%N then
          reject "state delta operation value exceeds budget" r
        else ready
    end.

Definition inspect_content (r : Run) (fragment : Fragment) : StructuralOutcome * Run :=
  match fragment with
  | ToolCallStarted id name => tool_call_started r id name
  | ToolCallArgs id delta => tool_call_args r id delta
  | ToolCallEnded id => tool_call_ended r id
  | ToolResult id content =>
      (Ready (Event_ToolResult id (tool_names r !! id) content),
       set_names r (delete id (tool_names r)))
  | MessageChunk message text => (Ready (Event_MessageChunk message text), r)
  | Fragment_StateMutation mutation => state_mutation r mutation
  | Fragment_Opaque kind => (Ready (Event_Opaque kind), r)
  | Fragment_Lifecycle _ => reject "unexpected lifecycle event in content position" r
  end.

(** [Run::inspect]. *)
Definition Run_inspect (r : Run) (fragment : Fragment) : StructuralOutcome * Run :=
  match fragment with
  | Fragment_Lifecycle phase => inspect_lifecycle r phase
  | other =>
      if bool_decide (run_phase r ≠ Running) then reject "event outside an active run" r
      else inspect_content r other
  end.

Definition call_event (e : ToolCallId * ToolCallBuffer) : ToolCallId * AgentEvent :=
  (e.1, Event_ToolCall e.1 (buf_name e.2) (buf_arguments e.2)).

(** [drain_open]; [order] is the order in which the map gives up its entries. *)
Definition drain_open
    (order : gmap ToolCallId ToolCallBuffer → list (ToolCallId * ToolCallBuffer))
    (r : Run) : list (ToolCallId * AgentEvent) * Run :=
  (map call_event (order (open_tool_calls r)), set_open r ∅).

(** ** Histories *)

Definition is_reject (o : StructuralOutcome) : bool :=
  match o with Reject _ => true | _ => false end.

(** Feeding a sequence of fragments: the accepted ones, and the run reached. *)
Fixpoint run_all (r : Run) (frs : list Fragment) : list Fragment * Run :=
  match frs with
  | [] => ([], r)
  | f :: frs' =>
      let '(o, r1) := Run_inspect r f in
      let '(acc, r2) := run_all r1 frs' in
      (if is_reject o then acc else f :: acc, r2)
  end.

Lemma run_all_snoc r frs f :
  run_all r (frs ++ [f]) =
  let '(acc, r1) := run_all r frs in
  let '(o, r2) := Run_inspect r1 f in
  (if is_reject o then acc else acc ++ [f], r2).
Proof.
  revert r. induction frs as [|g frs IH]; intros r; simpl.
  - destruct (Run_inspect r f) as [o r1]. by destruct (is_reject o).
  - destruct (Run_inspect r g) as [o r1]. rewrite IH. destruct (run_all r1 frs) as [acc r2].
    destruct (Run_inspect r2 f) as [o' r3]. by destruct (is_reject o), (is_reject o').
Qed.

(** A rejected fragment leaves the run as it was. *)
Lemma reject_keeps r f o r' :
  Run_inspect r f = (o, r') → is_reject o = true → r' = r.
Proof.
  unfold Run_inspect, inspect_lifecycle, inspect_content, tool_call_started, tool_call_args,
    tool_call_ended, state_mutation, reject.
  intros H Ho. destruct f; cases; done.
Qed.

(** What the accepted fragments say of one call: its name and the argument deltas
    since its latest start, unless it has ended. *)
Definition call_step (id : ToolCallId) (st : option (bytes * list bytes)) (f : Fragment) :
    option (bytes * list bytes) :=
  match f with
  | ToolCallStarted i n => if decide (i = id) then Some (n, []) else st
  | ToolCallArgs i d =>
      if decide (i = id) then '(n, ds) ← st; Some (n, ds ++ [d]) else st
  | ToolCallEnded i => if decide (i = id) then None else st
  | _ => st
  end.

Definition call_of (id : ToolCallId) (acc : list Fragment) : option (bytes * list bytes) :=
  foldl (call_step id) None acc.

(** The tool awaiting its result under an id: started, and no result since. *)
Definition name_step (id : ToolCallId) (st : option bytes) (f : Fragment) : option bytes :=
  match f with
  | ToolCallStarted i n => if decide (i = id) then Some n else st
  | ToolResult i _ => if decide (i = id) then None else st
  | _ => st
  end.

Definition awaiting (id : ToolCallId) (acc : list Fragment) : option bytes :=
  foldl (name_step id) None acc.

Definition buffer_of (c : bytes * list bytes) : ToolCallBuffer :=
  mkToolCallBuffer c.1 (concat c.2).

(** The phase the accepted fragments put a run in. *)
Definition phase_step (p : Phase) (f : Fragment) : Phase :=
  match f with
  | Fragment_Lifecycle RunStarted => Running
  | Fragment_Lifecycle (RunFinished | RunError) => Finished
  | _ => p
  end.

(** The state of a run as a function of what it accepted, with its budgets kept. *)
Record run_inv (b : Budgets) (acc : list Fragment) (r : Run) : Prop := mkRunInv {
  inv_budgets : run_budgets r = b;
  inv_phase : run_phase r = foldl phase_step Pending acc;
  inv_open id : open_tool_calls r !! id = buffer_of <$> call_of id acc;
  inv_names id : tool_names r !! id = awaiting id acc;
  inv_count : (open_count r ≤ max_open_tool_calls b)%N;
  inv_args id buf :
    open_tool_calls r !! id = Some buf → (len (buf_arguments buf) ≤ max_tool_args_bytes b)%N;
}.

Lemma call_of_snoc id acc f : call_of id (acc ++ [f]) = call_step id (call_of id acc) f.
Proof. unfold call_of. by rewrite foldl_app. Qed.

Lemma awaiting_snoc id acc f : awaiting id (acc ++ [f]) = name_step id (awaiting id acc) f.
Proof. unfold awaiting. by rewrite foldl_app. Qed.

Lemma phase_snoc acc f :
  foldl phase_step Pending (acc ++ [f]) = phase_step (foldl phase_step Pending acc) f.
Proof. by rewrite foldl_app. Qed.

(** Fragments that touch no tool call and no phase. *)
Definition neutral (f : Fragment) : bool :=
  match f with
  | MessageChunk _ _ | Fragment_StateMutation _ | Fragment_Opaque _
  | Fragment_Lifecycle (StepStarted _ | StepFinished _) => true
  | _ => false
  end.

Lemma inv_neutral b acc r f : neutral f = true → run_inv b acc r → run_inv b (acc ++ [f]) r.
Proof.
  intros Hn [Hb Hp Ho Hm Hc Ha]. constructor; try done.
  - rewrite phase_snoc, Hp. by destruct f as [| | | | | |[]|].
  - intros id. rewrite call_of_snoc, Ho. by destruct f as [| | | | | |[]|].
  - intros id. rewrite awaiting_snoc, Hm. by destruct f as [| | | | | |[]|].
Qed.

Lemma inv_phase_change b acc r p :
  p = RunStarted ∨ p = RunFinished ∨ p = RunError → run_inv b acc r →
  run_inv b (acc ++ [Fragment_Lifecycle p])
    (set_phase r (if p is RunStarted then Running else Finished)).
Proof.
  intros Hcase [Hb Hp Ho Hm Hc Ha]. constructor; simpl; try done.
  - rewrite phase_snoc. by destruct Hcase as [->|[->| ->]].
  - intros id. by rewrite call_of_snoc, Ho.
  - intros id. by rewrite awaiting_snoc, Hm.
Qed.

Lemma inv_started b acc r id name :
  open_tool_calls r !! id = None →
  (open_count r < max_open_tool_calls b)%N → run_inv b acc r →
  run_inv b (acc ++ [ToolCallStarted id name])
    (set_open (set_names r (<[id := name]> (tool_names r)))
       (<[id := mkToolCallBuffer name []]> (open_tool_calls r))).
Proof.
  intros Hid Hlt [Hb Hp Ho Hm Hc Ha]. constructor; simpl; try done.
  - by rewrite phase_snoc, Hp.
  - intros i. rewrite call_of_snoc. simpl. case_decide as Hi.
    + subst i. by rewrite lookup_insert_eq.
    + by rewrite lookup_insert_ne.
  - intros i. rewrite awaiting_snoc. simpl. case_decide as Hi.
    + subst i. by rewrite lookup_insert_eq.
    + by rewrite lookup_insert_ne.
  - unfold open_count in *. simpl. rewrite map_size_insert_None by done. lia.
  - intros i buf. rewrite lookup_insert. case_decide; [|apply Ha]. intros [= <-].
    unfold len. simpl. lia.
Qed.

Lemma inv_args_appended b acc r id buf delta :
  open_tool_calls r !! id = Some buf →
  (len (buf_arguments buf) + len delta ≤ max_tool_args_bytes b)%N → run_inv b acc r →
  run_inv b (acc ++ [ToolCallArgs id delta])
    (set_open r (<[id := mkToolCallBuffer (buf_name buf) (buf_arguments buf ++ delta)]>
                   (open_tool_calls r))).
Proof.
  intros Hid Hle [Hb Hp Ho Hm Hc Ha]. constructor; simpl; try done.
  - by rewrite phase_snoc, Hp.
  - intros i. rewrite call_of_snoc. simpl. case_decide as Hi.
    + subst i. rewrite lookup_insert_eq. rewrite Ho in Hid.
      destruct (call_of id acc) as [[n ds]|]; [|done]. injection Hid as <-. simpl.
      unfold buffer_of. simpl. rewrite concat_app. simpl. by rewrite app_nil_r.
    + by rewrite lookup_insert_ne.
  - intros i. by rewrite awaiting_snoc, Hm.
  - unfold open_count in *. simpl. by rewrite map_size_insert_Some by eauto.
  - intros i buf'. rewrite lookup_insert. case_decide; [|apply Ha]. intros [= <-].
    simpl. by rewrite len_app.
Qed.

Lemma inv_ended b acc r id buf :
  open_tool_calls r !! id = Some buf → run_inv b acc r →
  run_inv b (acc ++ [ToolCallEnded id]) (set_open r (delete id (open_tool_calls r))).
Proof.
  intros Hid [Hb Hp Ho Hm Hc Ha]. constructor; simpl; try done.
  - by rewrite phase_snoc, Hp.
  - intros i. rewrite call_of_snoc. simpl. case_decide as Hi.
    + subst i. by rewrite lookup_delete_eq.
    + by rewrite lookup_delete_ne.
  - intros i. by rewrite awaiting_snoc, Hm.
  - unfold open_count in *. simpl. rewrite map_size_delete_Some by eauto. lia.
  - intros i buf' Hi%lookup_delete_Some. by apply (Ha i), Hi.
Qed.

Lemma inv_result b acc r id content :
  run_inv b acc r →
  run_inv b (acc ++ [ToolResult id content]) (set_names r (delete id (tool_names r))).
Proof.
  intros [Hb Hp Ho Hm Hc Ha]. constructor; simpl; try done.
  - by rewrite phase_snoc, Hp.
  - intros i. by rewrite call_of_snoc, Ho.
  - intros i. rewrite awaiting_snoc. simpl. case_decide as Hi.
    + subst i. by rewrite lookup_delete_eq.
    + by rewrite lookup_delete_ne.
Qed.

Lemma state_mutation_run r m : (state_mutation r m).2 = r.
Proof. unfold state_mutation, reject. by repeat case_match. Qed.

Lemma inspect_content_inv b acc r f :
  run_inv b acc r →
  let '(o, r') := inspect_content r f in
  run_inv b (if is_reject o then acc else acc ++ [f]) r'.
Proof.
  intros Hi. pose proof (inv_budgets _ _ _ Hi) as Hb. destruct f; simpl.
  - unfold tool_call_started. destruct (open_tool_calls r !! id) eqn:E; [done|].
    rewrite Hb. destruct (N.leb_spec (max_open_tool_calls b) (open_count r)); [done|].
    exact (inv_started b acc r id name E H Hi).
  - unfold tool_call_args. destruct (open_tool_calls r !! id) as [buf|] eqn:E; [|done].
    rewrite Hb. destruct (N.ltb_spec (max_tool_args_bytes b) (len (buf_arguments buf) + len delta));
      [done|]. by apply inv_args_appended.
  - unfold tool_call_ended. destruct (open_tool_calls r !! id) as [buf|] eqn:E; [|done].
    by eapply inv_ended.
  - by apply inv_result.
  - by apply inv_neutral.
  - pose proof (state_mutation_run r mutation) as Hr.
    destruct (state_mutation r mutation) as [o r']. simpl in Hr. subst r'.
    destruct (is_reject o); [done|]. by apply inv_neutral.
  - done.
  - by apply inv_neutral.
Qed.

Lemma inspect_inv b acc r f :
  run_inv b acc r →
  let '(o, r') := Run_inspect r f in
  run_inv b (if is_reject o then acc else acc ++ [f]) r'.
Proof.
  intros Hi. unfold Run_inspect.
  destruct f as [| | | | | |p|]; try (case_bool_decide; [done|by apply inspect_content_inv]).
  unfold inspect_lifecycle. destruct p; case_bool_decide; try done; simpl.
  - apply (inv_phase_change b acc r RunStarted); auto.
  - apply (inv_phase_change b acc r RunFinished); auto.
  - apply (inv_phase_change b acc r RunError); auto.
  - by apply inv_neutral.
  - by apply inv_neutral.
Qed.

Lemma new_inv id b : run_inv b [] (Run_new id b).
Proof. constructor; simpl; try done. - unfold open_count. simpl. rewrite map_size_empty. lia. Qed.

Lemma run_all_inv id b frs :
  let '(acc, r) := run_all (Run_new id b) frs in run_inv b acc r.
Proof.
  induction frs as [|f frs IH] using rev_ind; [apply new_inv|].
  rewrite run_all_snoc. destruct (run_all (Run_new id b) frs) as [acc r].
  pose proof (inspect_inv b acc r f IH) as H. destruct (Run_inspect r f) as [o r']. done.
Qed.

(** ** What the accepted fragments look like *)

Definition concerns (id : ToolCallId) (f : Fragment) : bool :=
  match f with
  | ToolCallStarted i _ | ToolCallEnded i => bool_decide (i = id)
  | _ => false
  end.

(** The argument deltas of one call in a list of fragments. *)
Definition deltas (id : ToolCallId) (frs : list Fragment) : list bytes :=
  omap (λ f, match f with
             | ToolCallArgs i d => if decide (i = id) then Some d else None
             | _ => None
             end) frs.

(** An open call was started, and since then neither restarted nor ended. *)
Lemma call_of_shape id acc name ds :
  call_of id acc = Some (name, ds) →
  ∃ pre mid, acc = pre ++ ToolCallStarted id name :: mid
             ∧ Forall (λ f, concerns id f = false) mid ∧ ds = deltas id mid.
Proof.
  revert name ds. induction acc as [|f acc IH] using rev_ind; intros name ds; [done|].
  rewrite call_of_snoc.
  assert (∀ n l, call_of id acc = Some (n, l) → concerns id f = false →
          ∃ pre mid, acc ++ [f] = pre ++ ToolCallStarted id n :: mid
                     ∧ Forall (λ f, concerns id f = false) mid ∧ l ++ deltas id [f] = deltas id mid)
    as Hkeep.
  { intros n l Hc Hf. destruct (IH n l Hc) as (pre & mid & -> & Hm & ->).
    exists pre, (mid ++ [f]). rewrite <- app_assoc. split_and!; [done| |].
    - apply Forall_app. by repeat constructor.
    - unfold deltas. by rewrite omap_app. }
  destruct f as [i n|i d|i|i c|m t|m|p|k]; simpl;
    try (intros Hc; destruct (Hkeep name ds Hc eq_refl) as (pre & mid & ? & ? & Hd);
         rewrite app_nil_r in Hd; eauto; done).
  - case_decide as Hi; [|intros Hc].
    + intros [= <- <-]. subst i. by exists acc, [].
    + destruct (Hkeep name ds Hc) as (pre & mid & ? & ? & Hd);
        [by apply bool_decide_eq_false|]. rewrite app_nil_r in Hd. eauto.
  - case_decide as Hi.
    + destruct (call_of id acc) as [[n l]|]; [|done]. intros [= -> <-]. subst i.
      destruct (Hkeep name l eq_refl eq_refl) as (pre & mid & ? & ? & Hd).
      unfold deltas in Hd at 1. simpl in Hd. rewrite decide_True in Hd by done. eauto.
    + intros Hc. destruct (Hkeep name ds Hc eq_refl) as (pre & mid & ? & ? & Hd).
      unfold deltas in Hd at 1. simpl in Hd. rewrite decide_False in Hd by done.
      rewrite app_nil_r in Hd. eauto.
  - case_decide as Hi; [done|]. intros Hc.
    destruct (Hkeep name ds Hc) as (pre & mid & ? & ? & Hd);
      [by apply bool_decide_eq_false|]. rewrite app_nil_r in Hd. eauto.
Qed.

(** C13: a resolved tool call carries what the agent streamed for it: the name of its
    start and the concatenation, in order, of the argument deltas accepted since, with
    no start or end of the same id in between, whatever fragments of other calls are
    interleaved; and it fits the argument budget. *)
Theorem tool_call_assembly rid b frs id o r' :
  is_reject o = false →
  Run_inspect (run_all (Run_new rid b) frs).2 (ToolCallEnded id) = (o, r') →
  ∃ pre mid name,
    (run_all (Run_new rid b) frs).1 = pre ++ ToolCallStarted id name :: mid
    ∧ Forall (λ f, concerns id f = false) mid
    ∧ o = ResolvedCall id (Event_ToolCall id name (concat (deltas id mid)))
    ∧ (len (concat (deltas id mid)) ≤ max_tool_args_bytes b)%N.
Proof.
  intros Ho. pose proof (run_all_inv rid b frs) as Hi.
  destruct (run_all (Run_new rid b) frs) as [acc r]. simpl. unfold Run_inspect, inspect_content.
  case_bool_decide; [by intros [= <- _]|]. unfold tool_call_ended.
  destruct (open_tool_calls r !! id) as [buf|] eqn:E; [|by intros [= <- _]].
  intros [= <- _]. pose proof (inv_args _ _ _ Hi id buf E) as Hlen.
  rewrite (inv_open _ _ _ Hi) in E. destruct (call_of id acc) as [[name ds]|] eqn:Hc; [|done].
  injection E as <-. destruct (call_of_shape id acc name ds Hc) as (pre & mid & Hacc & Hm & ->).
  by exists pre, mid, name.
Qed.

Definition demo_call : ToolCallId := mkToolCallId (lit "c1").
Definition demo_other : ToolCallId := mkToolCallId (lit "c2").

(** Two interleaved calls. *)
Definition demo_fragments : list Fragment :=
  [Fragment_Lifecycle RunStarted; ToolCallStarted demo_call (lit "read");
   ToolCallArgs demo_call (lit "{x"); ToolCallStarted demo_other (lit "write");
   ToolCallArgs demo_other (lit "q"); ToolCallArgs demo_call (lit "}")].

Lemma tool_call_assembly_witness :
  ∃ pre mid name,
    (run_all (Run_new (mkRunId 1%N) Budgets_default) demo_fragments).1 = pre ++ ToolCallStarted demo_call name :: mid
    ∧ Forall (λ f, concerns demo_call f = false) mid
    ∧ ResolvedCall demo_call (Event_ToolCall demo_call (lit "read") (lit "{x}")) =
      ResolvedCall demo_call (Event_ToolCall demo_call name (concat (deltas demo_call mid)))
    ∧ (len (concat (deltas demo_call mid)) ≤ max_tool_args_bytes Budgets_default)%N.
Proof.
  apply (tool_call_assembly (mkRunId 1%N) Budgets_default demo_fragments demo_call
           (ResolvedCall demo_call (Event_ToolCall demo_call (lit "read") (lit "{x}")))
           (Run_inspect (run_all (Run_new (mkRunId 1%N) Budgets_default) demo_fragments).2
              (ToolCallEnded demo_call)).2).
  - reflexivity.
  - vm_compute. reflexivity.
Defined.

(** [drain_open] at the end of a stream returns every call that was started and not
    ended, each exactly once, assembled as it would have been had it ended, and leaves
    none open: an unterminated call does not escape judgement. *)
Theorem drain_open_complete order rid b frs :
  (∀ m, order m ≡ₚ map_to_list m) →
  let '(acc, r) := run_all (Run_new rid b) frs in
  let '(drained, r') := drain_open order r in
  NoDup drained.*1
  ∧ (∀ id e, (id, e) ∈ drained ↔
       ∃ name ds, call_of id acc = Some (name, ds) ∧ e = Event_ToolCall id name (concat ds))
  ∧ open_tool_calls r' = ∅.
Proof.
  intros Hord. pose proof (run_all_inv rid b frs) as Hi.
  destruct (run_all (Run_new rid b) frs) as [acc r]. simpl. split_and!; [| |done].
  - assert ((map call_event (order (open_tool_calls r))).*1 = (order (open_tool_calls r)).*1) as ->.
    { rewrite <- list_fmap_compose. by apply list_fmap_ext. }
    rewrite Hord. apply NoDup_fst_map_to_list.
  - intros id e. rewrite list_elem_of_In, in_map_iff.
    setoid_rewrite <- list_elem_of_In. setoid_rewrite Hord.
    split.
    + intros [[i buf] [[= -> <-] Hin%elem_of_map_to_list]]. simpl in *.
      rewrite (inv_open _ _ _ Hi) in Hin. destruct (call_of id acc) as [[name ds]|]; [|done].
      injection Hin as <-. eauto.
    + intros (name & ds & Hc & ->). exists (id, buffer_of (name, ds)). split; [done|].
      apply elem_of_map_to_list. by rewrite (inv_open _ _ _ Hi), Hc.
Qed.

Lemma drain_open_complete_witness :
  let '(acc, r) := run_all (Run_new (mkRunId 1%N) Budgets_default) demo_fragments in
  let '(drained, r') := drain_open map_to_list r in
  NoDup drained.*1
  ∧ (∀ id e, (id, e) ∈ drained ↔
       ∃ name ds, call_of id acc = Some (name, ds) ∧ e = Event_ToolCall id name (concat ds))
  ∧ open_tool_calls r' = ∅.
Proof. apply (drain_open_complete map_to_list). intros m. reflexivity. Defined.

(** Lifecycle transitions of the whole run. *)
Definition run_level (f : Fragment) : bool :=
  match f with
  | Fragment_Lifecycle (RunStarted | RunFinished | RunError) => true
  | _ => false
  end.

Definition is_end (f : Fragment) : Prop :=
  f = Fragment_Lifecycle RunFinished ∨ f = Fragment_Lifecycle RunError.

(** The accepted fragments of a run by its phase. *)
Definition lifecycle_shape (p : Phase) (acc : list Fragment) : Prop :=
  match p with
  | Pending => acc = []
  | Running => ∃ mid, acc = Fragment_Lifecycle RunStarted :: mid
                      ∧ Forall (λ f, run_level f = false) mid
  | Finished => ∃ mid e, acc = Fragment_Lifecycle RunStarted :: mid ++ [e]
                         ∧ Forall (λ f, run_level f = false) mid ∧ is_end e
  end.

Lemma inspect_content_phase r f : run_phase (inspect_content r f).2 = run_phase r.
Proof.
  destruct f; simpl; unfold tool_call_started, tool_call_args, tool_call_ended;
    rewrite ?state_mutation_run; by repeat case_match.
Qed.

Lemma lifecycle_step r f acc :
  lifecycle_shape (run_phase r) acc →
  let '(o, r') := Run_inspect r f in
  lifecycle_shape (run_phase r') (if is_reject o then acc else acc ++ [f]).
Proof.
  intros Hs. unfold Run_inspect.
  assert (∀ o r', run_level f = false → run_phase r = Running → run_phase r' = run_phase r →
          lifecycle_shape (run_phase r') (if is_reject o then acc else acc ++ [f])) as Hmid.
  { intros o r' Hf Hr Hr'. rewrite Hr', Hr in *. destruct (is_reject o); [done|].
    destruct Hs as (mid & -> & Hm). exists (mid ++ [f]). split; [done|].
    apply Forall_app. by repeat constructor. }
  destruct f as [| | | | | |p|];
    try (case_bool_decide as Hr; [done|];
         match goal with |- context [inspect_content r ?f] =>
           pose proof (inspect_content_phase r f); destruct (inspect_content r f) end;
         by apply Hmid).
  unfold inspect_lifecycle. destruct p; case_bool_decide as Hr; try done.
  - simpl. rewrite Hr in Hs. simpl in Hs. subst acc. by exists [].
  - simpl. rewrite Hr in Hs. destruct Hs as (mid & -> & Hm). exists mid, (Fragment_Lifecycle RunFinished).
    split_and!; [done|done|by left].
  - simpl. rewrite Hr in Hs. destruct Hs as (mid & -> & Hm). exists mid, (Fragment_Lifecycle RunError).
    split_and!; [done|done|by right].
  - by apply Hmid.
  - by apply Hmid.
Qed.

(** C37: whatever fragments arrive and in whatever order, those a run accepts form one
    well-ordered run: nothing before its start, exactly one start, at most one end, and
    nothing after the end. *)
Theorem run_lifecycle_ordered rid b frs :
  let '(acc, r) := run_all (Run_new rid b) frs in lifecycle_shape (run_phase r) acc.
Proof.
  induction frs as [|f frs IH] using rev_ind; [done|]. rewrite run_all_snoc.
  destruct (run_all (Run_new rid b) frs) as [acc r].
  pose proof (lifecycle_step r f acc IH) as H. by destruct (Run_inspect r f).
Qed.

(** A state mutation within every budget of [b]. *)
Definition mutation_within (b : Budgets) (m : StateMutation) : Prop :=
  (byte_size m ≤ max_state_bytes b)%N
  ∧ match patch_bounds m with
    | Some (ops, depth, value) =>
        (ops ≤ max_ops (patch b))%N ∧ (depth ≤ max_path_depth (patch b))%N
        ∧ (value ≤ max_value_bytes (patch b))%N
    | None => True
    end.

Lemma state_mutation_ready r m :
  is_reject (state_mutation r m).1 = false ↔ mutation_within (run_budgets r) m.
Proof.
  unfold state_mutation, mutation_within, reject.
  destruct (patch_bounds m) as [[[ops depth] value]|]; decide_cmp; split; try done; lia.
Qed.

(** C38: at every point of every history a run holds at most the budgeted number of open
    calls, each within the argument budget, and hands on a state mutation exactly when
    it is running and the mutation is within the size, operation, depth and value
    budgets. *)
Theorem run_within_budgets rid b frs :
  let r := (run_all (Run_new rid b) frs).2 in
  (open_count r ≤ max_open_tool_calls b)%N
  ∧ (∀ id buf, open_tool_calls r !! id = Some buf →
       (len (buf_arguments buf) ≤ max_tool_args_bytes b)%N)
  ∧ (∀ m, is_reject (Run_inspect r (Fragment_StateMutation m)).1 = false ↔
       run_phase r = Running ∧ mutation_within b m).
Proof.
  pose proof (run_all_inv rid b frs) as Hi. destruct (run_all (Run_new rid b) frs) as [acc r].
  destruct Hi as [Hb Hp Ho Hm Hc Ha]. simpl. split_and!; [done|done|]. intros m.
  case_bool_decide as Hr; [naive_solver|].
  rewrite state_mutation_ready, Hb. naive_solver.
Qed.

(** A result is attributed to the tool that was started under its id and has had no
    result since, and to none otherwise. *)
Lemma tool_result_attribution rid b frs id content :
  let '(acc, r) := run_all (Run_new rid b) frs in
  run_phase r = Running →
  (Run_inspect r (ToolResult id content)).1 =
  Ready (Event_ToolResult id (awaiting id acc) content).
Proof.
  pose proof (run_all_inv rid b frs) as Hi. destruct (run_all (Run_new rid b) frs) as [acc r].
  intros Hr. simpl. rewrite bool_decide_eq_false_2 by tauto. simpl.
  by rewrite (inv_names _ _ _ Hi).
Qed.

(** ** The names of ended calls *)

Definition nth_call (k : nat) : ToolCallId := mkToolCallId (replicate (S k) (byte_of_N 97)).

(** [n] calls, each ended at once and none given a result. *)
Fixpoint unanswered (n : nat) : list Fragment :=
  match n with
  | O => [Fragment_Lifecycle RunStarted]
  | S n' => unanswered n' ++ [ToolCallStarted (nth_call n') []; ToolCallEnded (nth_call n')]
  end.

Lemma nth_call_inj k l : nth_call k = nth_call l → k = l.
Proof.
  intros [= H]. apply (f_equal length) in H. rewrite !length_replicate in H. done.
Qed.

Lemma run_all_app r f g :
  (run_all r (f ++ g)).2 = (run_all (run_all r f).2 g).2.
Proof.
  revert r. induction f as [|x f IH]; intros r; [done|]. simpl.
  destruct (Run_inspect r x) as [o r1]. specialize (IH r1).
  destruct (run_all r1 (f ++ g)), (run_all r1 f). done.
Qed.

(** The names recorded at the starts stay until a result takes them: calls that are
    never answered leave one entry each, however few are open at once. *)
Theorem tool_names_grow rid b n :
  (1 ≤ max_open_tool_calls b)%N →
  let r := (run_all (Run_new rid b) (unanswered n)).2 in
  open_tool_calls r = ∅ ∧ size (tool_names r) = n.
Proof.
  intros Hb.
  assert (∃ names, (run_all (Run_new rid b) (unanswered n)).2 = mkRun rid Running ∅ names b
                   ∧ size names = n ∧ ∀ k, n ≤ k → names !! nth_call k = None) as (m & -> & Hs & _);
    [|done].
  induction n as [|n (m & Hr & Hs & Hn)].
  - exists ∅. split_and!; [done|apply map_size_empty|done].
  - cbn [unanswered]. rewrite run_all_app, Hr. exists (<[nth_call n := []]> m). split_and!.
    + cbn [run_all Run_inspect run_phase]. rewrite bool_decide_eq_false_2 by tauto.
      cbn [inspect_content]. unfold tool_call_started, open_count. cbn [open_tool_calls run_budgets].
      rewrite lookup_empty, map_size_empty. destruct (N.leb_spec (max_open_tool_calls b) (N.of_nat 0)); [lia|].
      cbn [set_names set_open run_id run_phase open_tool_calls tool_names run_budgets].
      rewrite bool_decide_eq_false_2 by tauto. unfold tool_call_ended. unfold set_names, set_open. cbn [run_id run_phase open_tool_calls tool_names run_budgets].
      rewrite lookup_insert_eq. cbn. by rewrite delete_insert_id.
    + rewrite map_size_insert_None by auto. lia.
    + intros k Hk. rewrite lookup_insert_ne; [apply Hn; lia|]. intros ->%nth_call_inj. lia.
Qed.
