(* ===== verification/Json.v ===== *)
(** * Json: serde_json's [Value] and the accessors the code uses

    [Value] with its constructors; an object is its entries in key order, the
    iteration order of serde_json's map.  Parsing and printing are not part of the
    sources: they are the fields of [SerdeJson], with the documented behaviour the
    code relies on stated in [SerdeJsonLaws]. *)
From stdpp Require Import options.
From S2P Require Import Prelude Text.

#[local] Unset Elimination Schemes.
Inductive Value :=
| Null
| Bool (b : bool)
| Number (repr : bytes)
| String_ (s : bytes)
| Array (items : list Value)
| Object (fields : list (bytes * Value)).
#[local] Set Elimination Schemes.

(** [Map::get]. *)
Fixpoint map_get (key : bytes) (fields : list (bytes * Value)) : option Value :=
  match fields with
  | [] => None
  | (k, v) :: fields' => if bool_decide (k = key) then Some v else map_get key fields'
  end.

(** [Value::get] with a string index: [None] on anything but an object. *)
Definition get (key : bytes) (v : Value) : option Value :=
  match v with Object fields => map_get key fields | _ => None end.

Definition as_str (v : Value) : option bytes :=
  match v with String_ s => Some s | _ => None end.

Definition as_array (v : Value) : option (list Value) :=
  match v with Array items => Some items | _ => None end.

Definition as_object (v : Value) : option (list (bytes * Value)) :=
  match v with Object fields => Some fields | _ => None end.

(** The crate's entry points. *)
Record SerdeJson := mkSerdeJson {
  from_str : bytes → option Value;
  from_slice : bytes → option Value;
  to_string : Value → bytes;
}.

(** ** Induction over a value's parts *)

Fixpoint Value_rect' (P : Value → Prop)
    (Hnull : P Null) (Hbool : ∀ b, P (Bool b)) (Hnum : ∀ r, P (Number r))
    (Hstr : ∀ s, P (String_ s))
    (Harr : ∀ items, Forall P items → P (Array items))
    (Hobj : ∀ fields, Forall (λ f, P f.2) fields → P (Object fields)) (v : Value) : P v :=
  let rec := Value_rect' P Hnull Hbool Hnum Hstr Harr Hobj in
  match v with
  | Null => Hnull
  | Bool b => Hbool b
  | Number r => Hnum r
  | String_ s => Hstr s
  | Array items =>
      Harr items ((fix go (l : list Value) : Forall P l :=
                     match l with
                     | [] => Forall_nil_2 P
                     | x :: l' => Forall_cons_2 P x l' (rec x) (go l')
                     end) items)
  | Object fields =>
      Hobj fields ((fix go (l : list (bytes * Value)) : Forall (λ f, P f.2) l :=
                      match l with
                      | [] => Forall_nil_2 _
                      | (k, x) :: l' => Forall_cons_2 (λ f, P f.2) (k, x) l' (rec x) (go l')
                      end) fields)
  end.

(** ** Well-formed values and the crate's behaviour *)

(** Byte-wise order of keys, the order of the map. *)
Fixpoint bytes_ltb (a b : bytes) : bool :=
  match a, b with
  | _, [] => false
  | [], _ :: _ => true
  | x :: a', y :: b' =>
      (N_of_byte x <? N_of_byte y)%N || (bool_decide (x = y) && bytes_ltb a' b')
  end.

Fixpoint sorted_keys (ks : list bytes) : bool :=
  match ks with
  | k :: ((k' :: _) as ks') => bytes_ltb k k' && sorted_keys ks'
  | _ => true
  end.

(** An object with string fields, as [json!] builds one from strings. *)
Definition string_object (v : Value) : bool :=
  match v with
  | Object fields =>
      sorted_keys (fst <$> fields)
      && forallb (λ '(k, x), valid_utf8 k
                   && match x with String_ s => valid_utf8 s | _ => false end) fields
  | _ => false
  end.

(** What the code relies on when it writes an object of strings: the text parses back
    to it, is one line of UTF-8 (the compact writer escapes control characters) and
    does not end in a carriage return. *)
Class SerdeJsonLaws (json : SerdeJson) : Prop := {
  json_roundtrip v : string_object v = true → from_str json (to_string json v) = Some v;
  json_one_line v : string_object v = true → byte_of_N 10 ∉ to_string json v;
  json_no_cr v : string_object v = true → last (to_string json v) ≠ Some (byte_of_N 13);
  json_utf8 v : string_object v = true → valid_utf8 (to_string json v) = true;
}.

Lemma map_get_elem key fields v : map_get key fields = Some v → (key, v) ∈ fields.
Proof.
  induction fields as [|[k x] fs IH]; simpl; [done|]. case_bool_decide as Hk.
  - intros [= ->]. subst k. left.
  - intros H. right. auto.
Qed.

(** ** An instance of the laws *)

Module ToyJson.

(** A writer for objects of strings: every byte as two letters, every string closed
    by a semicolon. *)
Definition letter (n : N) : ascii := byte_of_N (97 + n).
Definition hex_byte (c : ascii) : bytes :=
  [letter (N_of_byte c / 16)%N; letter (N_of_byte c `mod` 16)%N].
Definition semi : ascii := byte_of_N 59.
Definition write_str (s : bytes) : bytes := flat_map hex_byte s ++ [semi].

Definition write (v : Value) : bytes :=
  match v with
  | Object fields =>
      flat_map (λ '(k, x), match x with
                           | String_ s => write_str k ++ write_str s
                           | _ => []
                           end) fields
  | _ => []
  end.

Definition unletter (c : ascii) : N := (N_of_byte c - 97)%N.

Fixpoint read_str (b : bytes) : option (bytes * bytes) :=
  match b with
  | [] => None
  | c :: b' =>
      if bool_decide (c = semi) then Some ([], b')
      else match b' with
           | [] => None
           | d :: b'' =>
               '(s, r) ← read_str b'';
               Some (byte_of_N (unletter c * 16 + unletter d) :: s, r)
           end
  end.

Fixpoint read_fields (fuel : nat) (b : bytes) : option (list (bytes * Value)) :=
  match fuel, b with
  | _, [] => Some []
  | O, _ => None
  | S fuel', _ =>
      '(k, b1) ← read_str b;
      '(s, b2) ← read_str b1;
      fs ← read_fields fuel' b2;
      Some ((k, String_ s) :: fs)
  end.

Definition read (b : bytes) : option Value := Object <$> read_fields (length b) b.

Definition toy_json : SerdeJson := mkSerdeJson read read write.

Lemma nibbles c :
  ∃ h l, (N_of_byte c / 16 = h)%N ∧ (N_of_byte c `mod` 16 = l)%N
         ∧ (h < 16)%N ∧ (l < 16)%N ∧ (N_of_byte c = 16 * h + l)%N.
Proof.
  exists (N_of_byte c / 16)%N, (N_of_byte c `mod` 16)%N.
  assert (N_of_byte c < 256)%N as Hc by apply N_ascii_bounded.
  split_and!; [done|done|by apply N.Div0.div_lt_upper_bound|by apply N.mod_lt|by apply N.div_mod].
Qed.

Lemma hex_range c n : n ∈ hex_byte c → (97 ≤ N_of_byte n < 113)%N.
Proof.
  destruct (nibbles c) as (h & l & Hh & Hl & ? & ? & _). unfold hex_byte, letter.
  rewrite Hh, Hl, !elem_of_cons, elem_of_nil.
  intros [->|[->|[]]]; rewrite N_ascii_embedding; lia.
Qed.

Lemma unhex c :
  byte_of_N (unletter (letter (N_of_byte c / 16)) * 16 + unletter (letter (N_of_byte c `mod` 16)))
  = c.
Proof.
  destruct (nibbles c) as (h & l & -> & -> & ? & ? & Hc). unfold unletter, letter.
  rewrite !N_ascii_embedding by lia. rewrite <- (ascii_N_embedding c), Hc. f_equal. lia.
Qed.

Lemma letter_not_semi n : (n < 16)%N → letter n ≠ semi.
Proof.
  intros Hn H. apply (f_equal N_of_byte) in H. unfold letter, semi in H.
  rewrite !N_ascii_embedding in H by lia. lia.
Qed.

Lemma read_write_str s r : read_str (write_str s ++ r) = Some (s, r).
Proof.
  unfold write_str. rewrite <- app_assoc. induction s as [|c s IH]; [done|].
  assert (N_of_byte c < 256)%N as Hc by apply N_ascii_bounded.
  cbn [flat_map hex_byte app read_str].
  rewrite bool_decide_eq_false_2
    by (apply letter_not_semi; apply N.Div0.div_lt_upper_bound; lia).
  simpl in IH. simpl. rewrite IH. cbn. by rewrite unhex.
Qed.

Lemma write_fields_read fields fuel :
  forallb (λ '(k, x), valid_utf8 k
             && match x with String_ s => valid_utf8 s | _ => false end) fields = true →
  length fields ≤ fuel →
  read_fields fuel (write (Object fields)) = Some fields.
Proof.
  revert fuel. induction fields as [|[k x] fs IH]; intros fuel Hv Hf; [by destruct fuel|].
  simpl in Hv. apply andb_true_iff in Hv as [Hx Hv]. apply andb_true_iff in Hx as [_ Hx].
  destruct x as [| | |s| |]; try done. destruct fuel as [|fuel]; [simpl in Hf; lia|].
  change (write (Object ((k, String_ s) :: fs))) with
    ((write_str k ++ write_str s) ++ write (Object fs)). rewrite <- app_assoc.
  assert (∀ t, write_str k ++ t ≠ []) as Hne.
  { intros t. unfold write_str. by destruct (flat_map hex_byte k). }
  cbn [read_fields]. destruct (write_str k ++ _) eqn:E; [by apply Hne in E|].
  rewrite <- E, read_write_str. cbn. rewrite read_write_str. cbn.
  rewrite IH by (simpl in *; lia || done). done.
Qed.

Lemma length_write fields :
  forallb (λ '(k, x), valid_utf8 k
             && match x with String_ s => valid_utf8 s | _ => false end) fields = true →
  length fields ≤ length (write (Object fields)).
Proof.
  induction fields as [|[k x] fs IH]; intros Hv; [simpl; lia|].
  simpl in Hv. apply andb_true_iff in Hv as [Hx Hv]. apply andb_true_iff in Hx as [_ Hx].
  destruct x as [| | |s| |]; try done. specialize (IH Hv).
  change (write (Object ((k, String_ s) :: fs))) with
    ((write_str k ++ write_str s) ++ write (Object fs)).
  unfold write_str. rewrite !length_app. cbn [length]. lia.
Qed.

(** Every byte written is a letter or a semicolon. *)
Lemma write_plain v c : c ∈ write v → (59 ≤ N_of_byte c < 113)%N.
Proof.
  destruct v as [| | | | |fields]; try (by intros ?%elem_of_nil).
  assert (∀ s, c ∈ write_str s → (59 ≤ N_of_byte c < 113)%N) as Hs.
  { intros s. unfold write_str. rewrite elem_of_app, list_elem_of_singleton. intros [H| ->]; [|done].
    apply list_elem_of_In, in_flat_map in H as (x & _ & Hx%list_elem_of_In).
    apply hex_range in Hx. lia. }
  intros H. apply list_elem_of_In, in_flat_map in H as ([k x] & _ & Hx%list_elem_of_In).
  destruct x; try (by apply elem_of_nil in Hx). apply elem_of_app in Hx as [Hx|Hx]; eauto.
Qed.

Lemma plain_utf8 b : (∀ c, c ∈ b → (N_of_byte c < 128)%N) → valid_utf8 b = true.
Proof.
  induction b as [|c b IH]; intros H; [done|].
  change (c :: b) with ([c] ++ b). rewrite valid_utf8_app.
  - apply IH. intros d Hd. apply H. by right.
  - unfold valid_utf8, pieces. simpl. unfold scan, byte_at. simpl.
    destruct (N.ltb_spec (N_of_byte c) 128) as [|Hc]; [done|].
    specialize (H c (list_elem_of_here _ _)). lia.
Qed.

#[global] Instance toy_json_laws : SerdeJsonLaws toy_json.
Proof.
  split.
  - intros v Hv. destruct v as [| | | | |fields]; try done.
    apply andb_true_iff in Hv as [_ Hv]. cbn [toy_json from_str to_string].
    unfold read. by rewrite write_fields_read by (done || by apply length_write).
  - intros v _ H. apply write_plain in H. vm_compute in H. naive_solver.
  - intros v _ H. apply last_Some_elem_of, write_plain in H. vm_compute in H. naive_solver.
  - intros v _. apply plain_utf8. intros c Hc%write_plain. lia.
Qed.

End ToyJson.
