(* ===== verification/AgUi.v ===== *)
(** * AgUi: the AG-UI protocol adapter
    (crates/agate-proxy/src/infrastructure/ag_ui)

    [to_fragment] and [to_event] between wire JSON and the domain's fragments and
    events, the measuring of state deltas, and the parsing of a request body into
    the content the request leg screens. *)
From stdpp Require Import options.
From S2P Require Import Prelude Text Sse Json Run.

(** ** Errors *)

Inductive AgUiError :=
| NotAnObject
| MissingType
| MissingField (event field : bytes)
| BlankField (event field : bytes)
| MalformedRequest.

Definition is_malformed_known (e : AgUiError) : bool :=
  match e with MissingField _ _ | BlankField _ _ => true | _ => false end.

Definition missing (kind field : bytes) : AgUiError := MissingField kind field.
Definition blank (kind field : bytes) : AgUiError := BlankField kind field.

(** ** Event types *)

Definition RUN_STARTED : bytes := lit "RUN_STARTED".
Definition RUN_FINISHED : bytes := lit "RUN_FINISHED".
Definition RUN_ERROR : bytes := lit "RUN_ERROR".
Definition STEP_STARTED : bytes := lit "STEP_STARTED".
Definition STEP_FINISHED : bytes := lit "STEP_FINISHED".
Definition TEXT_MESSAGE_CONTENT : bytes := lit "TEXT_MESSAGE_CONTENT".
Definition TEXT_MESSAGE_CHUNK : bytes := lit "TEXT_MESSAGE_CHUNK".
Definition TOOL_CALL_START : bytes := lit "TOOL_CALL_START".
Definition TOOL_CALL_ARGS : bytes := lit "TOOL_CALL_ARGS".
Definition TOOL_CALL_END : bytes := lit "TOOL_CALL_END".
Definition TOOL_CALL_RESULT : bytes := lit "TOOL_CALL_RESULT".
Definition STATE_SNAPSHOT : bytes := lit "STATE_SNAPSHOT".
Definition STATE_DELTA : bytes := lit "STATE_DELTA".
Definition RAW : bytes := lit "RAW".
Definition CUSTOM : bytes := lit "CUSTOM".
Definition REASONING_ENCRYPTED_VALUE : bytes := lit "REASONING_ENCRYPTED_VALUE".

Section adapter.
Context (json : SerdeJson).

(** ** Wire event to fragment *)

Definition string (value : Value) (kind field : bytes) : result AgUiError bytes :=
  ok_or (missing kind field) (get field value ≫= as_str).

Definition message_id (value : Value) (kind : bytes) : result AgUiError MessageId :=
  s ← string value kind (lit "messageId");
  map_err (λ _, blank kind (lit "messageId")) (MessageId_new s).

Definition tool_call_id (value : Value) (kind : bytes) : result AgUiError ToolCallId :=
  s ← string value kind (lit "toolCallId");
  map_err (λ _, blank kind (lit "toolCallId")) (ToolCallId_new s).

Definition PATCH_OPS : list bytes :=
  [lit "add"; lit "remove"; lit "replace"; lit "move"; lit "copy"; lit "test"].

Record DeltaMeasure := mkDeltaMeasure {
  dm_op_count : N;
  dm_max_path_depth : N;
  dm_max_value_bytes : N;
}.

Definition pointer_depth (path : bytes) : N :=
  len (filter (λ c, N_of_byte c = 47%N) path).

(** One round of the loop over the operations: the two running maxima. *)
Definition measure_op (kind : bytes) (acc : N * N) (op : Value) : result AgUiError (N * N) :=
  let '(depth, value_bytes) := acc in
  fields ← ok_or (missing kind (lit "delta")) (as_object op);
  op_kind ← ok_or (missing kind (lit "op")) (map_get (lit "op") fields ≫= as_str);
  if bool_decide (op_kind ∉ PATCH_OPS) then Err (missing kind (lit "op")) else
  path ← ok_or (missing kind (lit "path")) (map_get (lit "path") fields ≫= as_str);
  let depth := N.max depth (pointer_depth path) in
  if bool_decide (op_kind ∈ [lit "add"; lit "replace"; lit "test"]) then
    value ← ok_or (missing kind (lit "value")) (map_get (lit "value") fields);
    Ok (depth, N.max value_bytes (len (to_string json value)))
  else if bool_decide (op_kind ∈ [lit "move"; lit "copy"]) then
    from ← ok_or (missing kind (lit "from")) (map_get (lit "from") fields ≫= as_str);
    Ok (N.max depth (pointer_depth from), value_bytes)
  else Ok (depth, value_bytes).

Fixpoint measure_ops (kind : bytes) (acc : N * N) (ops : list Value) :
    result AgUiError (N * N) :=
  match ops with
  | [] => Ok acc
  | op :: ops' => acc' ← measure_op kind acc op; measure_ops kind acc' ops'
  end.

Definition measure_delta (delta : Value) (kind : bytes) : result AgUiError DeltaMeasure :=
  ops ← ok_or (missing kind (lit "delta")) (as_array delta);
  '(depth, value_bytes) ← measure_ops kind (0, 0)%N ops;
  Ok (mkDeltaMeasure (len ops) depth value_bytes).

Definition to_fragment (value : Value) : result AgUiError (option Fragment) :=
  object ← ok_or NotAnObject (as_object value);
  kind ← ok_or MissingType (map_get (lit "type") object ≫= as_str);
  let kind_is k := bool_decide (kind = k) in
  if kind_is RUN_STARTED then Ok (Some (Fragment_Lifecycle RunStarted))
  else if kind_is RUN_FINISHED then Ok (Some (Fragment_Lifecycle RunFinished))
  else if kind_is RUN_ERROR then Ok (Some (Fragment_Lifecycle RunError))
  else if kind_is STEP_STARTED then
    step ← string value kind (lit "stepName"); Ok (Some (Fragment_Lifecycle (StepStarted step)))
  else if kind_is STEP_FINISHED then
    step ← string value kind (lit "stepName"); Ok (Some (Fragment_Lifecycle (StepFinished step)))
  else if kind_is TEXT_MESSAGE_CONTENT || kind_is TEXT_MESSAGE_CHUNK then
    message ← message_id value kind;
    text ← string value kind (lit "delta");
    Ok (Some (MessageChunk message text))
  else if kind_is TOOL_CALL_START then
    id ← tool_call_id value kind;
    name ← string value kind (lit "toolCallName");
    Ok (Some (ToolCallStarted id name))
  else if kind_is TOOL_CALL_ARGS then
    id ← tool_call_id value kind;
    delta ← string value kind (lit "delta");
    Ok (Some (ToolCallArgs id delta))
  else if kind_is TOOL_CALL_END then
    id ← tool_call_id value kind; Ok (Some (ToolCallEnded id))
  else if kind_is TOOL_CALL_RESULT then
    id ← tool_call_id value kind;
    content ← string value kind (lit "content");
    Ok (Some (ToolResult id content))
  else if kind_is STATE_SNAPSHOT then
    snapshot ← ok_or (missing kind (lit "snapshot")) (get (lit "snapshot") value);
    let payload := to_string json snapshot in
    Ok (Some (Fragment_StateMutation (Snapshot (len payload) payload)))
  else if kind_is STATE_DELTA then
    delta ← ok_or (missing kind (lit "delta")) (get (lit "delta") value);
    measured ← measure_delta delta kind;
    let payload := to_string json delta in
    Ok (Some (Fragment_StateMutation
      (Delta (dm_op_count measured) (len payload) (dm_max_path_depth measured)
         (dm_max_value_bytes measured) payload)))
  else if kind_is RAW then Ok (Some (Fragment_Opaque Opaque_Raw))
  else if kind_is CUSTOM then Ok (Some (Fragment_Opaque Opaque_Custom))
  else if kind_is REASONING_ENCRYPTED_VALUE then Ok (Some (Fragment_Opaque Opaque_Encrypted))
  else Ok None.

(** ** Event to wire event *)

(** The object's fields in the map's key order. *)
Definition to_event (event : AgentEvent) : option Value :=
  match event with
  | Event_MessageChunk message text =>
      Some (Object [(lit "delta", String_ text);
                    (lit "messageId", String_ (message_str message));
                    (lit "type", String_ TEXT_MESSAGE_CONTENT)])
  | Event_ToolResult id _ content =>
      Some (Object [(lit "content", String_ content);
                    (lit "toolCallId", String_ (tool_call_str id));
                    (lit "type", String_ TOOL_CALL_RESULT)])
  | Event_ToolCall _ _ _ | Event_StateMutation _ | Event_Lifecycle _ | Event_Opaque _ => None
  end.

(** ** Requests *)

Record RequestContent := mkRequestContent {
  thread_id : option bytes;
  rc_run_id : option bytes;
  offered_tools : list bytes;
  user_messages : list bytes;
  hidden_fields : list bytes;
}.

Definition parse_identifier (object : list (bytes * Value)) (key : bytes) : option bytes :=
  s ← map_get key object ≫= as_str;
  let id := trim s in
  if bool_decide (id = []) then None else Some id.

(** [collect] of an iterator of results: the first error, or all the values. *)
Fixpoint collect {E A B} (f : A → result E B) (l : list A) : result E (list B) :=
  match l with
  | [] => Ok []
  | x :: l' => y ← f x; ys ← collect f l'; Ok (y :: ys)
  end.

Definition parse_offered_tools (object : list (bytes * Value)) : result AgUiError (list bytes) :=
  match map_get (lit "tools") object with
  | None => Ok []
  | Some tools =>
      tools ← ok_or MalformedRequest (as_array tools);
      collect (λ tool, ok_or MalformedRequest (get (lit "name") tool ≫= as_str)) tools
  end.

(** The leaves pushed to [out], in order. *)
Fixpoint collect_string_leaves (value : Value) : list bytes :=
  match value with
  | String_ text => [text]
  | Array items => flat_map collect_string_leaves items
  | Object fields => flat_map (λ '(_, field), collect_string_leaves field) fields
  | Null | Bool _ | Number _ => []
  end.

(** One round of the loop over the messages. *)
Definition parse_message (acc : list bytes * list bytes) (message : Value) :
    result AgUiError (list bytes * list bytes) :=
  let '(user, system) := acc in
  fields ← ok_or MalformedRequest (as_object message);
  role ← ok_or MalformedRequest (map_get (lit "role") fields ≫= as_str);
  let content := ok_or MalformedRequest (map_get (lit "content") fields ≫= as_str) in
  if bool_decide (role = lit "user") then c ← content; Ok (user ++ [c], system)
  else if bool_decide (role = lit "system") then c ← content; Ok (user, system ++ [c])
  else Ok (user, system).

Fixpoint parse_message_list (acc : list bytes * list bytes) (messages : list Value) :
    result AgUiError (list bytes * list bytes) :=
  match messages with
  | [] => Ok acc
  | m :: ms => acc' ← parse_message acc m; parse_message_list acc' ms
  end.

Definition parse_messages (object : list (bytes * Value)) :
    result AgUiError (list bytes * list bytes) :=
  match map_get (lit "messages") object with
  | None => Ok ([], [])
  | Some messages =>
      messages ← ok_or MalformedRequest (as_array messages);
      parse_message_list ([], []) messages
  end.

(** The loop over the structured fields, starting from the system messages. *)
Definition collect_hidden (object : list (bytes * Value)) (system : list bytes) : list bytes :=
  foldl (λ out key, match map_get key object with
                    | Some v => out ++ collect_string_leaves v
                    | None => out
                    end) system [lit "context"; lit "forwardedProps"; lit "state"].

Definition parse_request (body : bytes) : result AgUiError RequestContent :=
  value ← ok_or MalformedRequest (from_slice json body);
  object ← ok_or MalformedRequest (as_object value);
  '(user, system) ← parse_messages object;
  let hidden := collect_hidden object system in
  offered ← parse_offered_tools object;
  Ok (mkRequestContent (parse_identifier object (lit "threadId"))
        (parse_identifier object (lit "runId")) offered user hidden).
End adapter.

(** ** What a delta's measure means *)

Section measure.
Context (json : SerdeJson).
#[local] Arguments lit : simpl never.

(** A well-formed operation, with the deepest pointer it names and the size of the
    value it carries. *)
Inductive op_measure : Value → N → N → Prop :=
| op_with_value fields op path value :
    op ∈ [lit "add"; lit "replace"; lit "test"] →
    map_get (lit "op") fields = Some (String_ op) →
    map_get (lit "path") fields = Some (String_ path) →
    map_get (lit "value") fields = Some value →
    op_measure (Object fields) (pointer_depth path) (len (to_string json value))
| op_with_from fields op path from :
    op ∈ [lit "move"; lit "copy"] →
    map_get (lit "op") fields = Some (String_ op) →
    map_get (lit "path") fields = Some (String_ path) →
    map_get (lit "from") fields = Some (String_ from) →
    op_measure (Object fields) (N.max (pointer_depth path) (pointer_depth from)) 0
| op_remove fields path :
    map_get (lit "op") fields = Some (String_ (lit "remove")) →
    map_get (lit "path") fields = Some (String_ path) →
    op_measure (Object fields) (pointer_depth path) 0.

Lemma bind_as_str_Some o s : o ≫= as_str = Some s ↔ o = Some (String_ s).
Proof. destruct o as [[]|]; naive_solver. Qed.

Lemma ok_or_Ok {E A} (e : E) (o : option A) a : ok_or e o = Ok a ↔ o = Some a.
Proof. destruct o; naive_solver. Qed.

Lemma result_bind_Ok {E A B} (m : result E A) (f : A → result E B) b :
  m ≫= f = Ok b ↔ ∃ a, m = Ok a ∧ f a = Ok b.
Proof. destruct m; simpl; naive_solver. Qed.

Lemma measure_op_spec kind d b op d' b' :
  measure_op json kind (d, b) op = Ok (d', b') ↔
  ∃ x y, op_measure op x y ∧ d' = N.max d x ∧ b' = N.max b y.
Proof.
  unfold measure_op. rewrite result_bind_Ok. split.
  - intros (fields & Hf%ok_or_Ok & H). destruct op; try done. injection Hf as ->.
    apply result_bind_Ok in H as (opk & Hop%ok_or_Ok%bind_as_str_Some & H).
    case_bool_decide as Hin; [done|].
    apply result_bind_Ok in H as (path & Hp%ok_or_Ok%bind_as_str_Some & H).
    case_bool_decide as Hv.
    { apply result_bind_Ok in H as (value & Hval%ok_or_Ok & [= <- <-]).
      do 2 eexists. split; [by econstructor|]. lia. }
    case_bool_decide as Hm.
    { apply result_bind_Ok in H as (from & Hfr%ok_or_Ok%bind_as_str_Some & [= <- <-]).
      do 2 eexists. split; [by eapply op_with_from|]. lia. }
    injection H as <- <-. do 2 eexists. split; [eapply op_remove; [|done]|lia].
    assert (opk = lit "remove") as ->; [|done].
    unfold PATCH_OPS in Hin. rewrite !elem_of_cons in *. naive_solver.
  - intros (x & y & Hm & -> & ->).
    destruct Hm as [fields op path value Hin Ho Hp Hv|fields op path from Hin Ho Hp Hf|fields path Ho Hp];
      exists fields; (split; [done|]); rewrite Ho; simpl.
    + assert (op ∈ PATCH_OPS) as Hpo.
      { unfold PATCH_OPS. rewrite !elem_of_cons in *. naive_solver. }
      rewrite bool_decide_eq_false_2 by tauto. rewrite Hp. simpl.
      rewrite (bool_decide_eq_true_2 _ Hin), Hv. done.
    + assert (op ∈ PATCH_OPS ∧ op ∉ [lit "add"; lit "replace"; lit "test"]) as [Hpo Hno].
      { unfold PATCH_OPS. rewrite !elem_of_cons in *. split; [naive_solver|].
        destruct Hin as [->|[->|[]%elem_of_nil]]; rewrite elem_of_nil; naive_solver. }
      rewrite bool_decide_eq_false_2 by tauto. rewrite Hp. simpl.
      rewrite (bool_decide_eq_false_2 _ Hno), (bool_decide_eq_true_2 _ Hin), Hf. simpl.
      by rewrite N.max_assoc, N.max_0_r.
    + change (bool_decide (lit "remove" ∉ PATCH_OPS)) with false. rewrite Hp. simpl.
      by rewrite N.max_0_r.
Qed.

Definition max_of (l : list N) : N := foldr N.max 0%N l.

Lemma measure_ops_spec kind ops d b d' b' :
  measure_ops json kind (d, b) ops = Ok (d', b') ↔
  ∃ ms, Forall2 (λ op m, op_measure op m.1 m.2) ops ms
        ∧ d' = N.max d (max_of ms.*1) ∧ b' = N.max b (max_of ms.*2).
Proof.
  revert d b. induction ops as [|op ops IH]; intros d b; simpl.
  - split.
    + intros [= <- <-]. exists []. split_and!; [constructor|unfold max_of; simpl; lia..].
    + intros (ms & Hf & -> & ->). apply Forall2_nil_inv_l in Hf as ->. simpl. do 2 f_equal; lia.
  - rewrite result_bind_Ok. split.
    + intros ([d1 b1] & (x & y & Hm & -> & ->)%measure_op_spec & (ms & Hf & -> & ->)%IH).
      exists ((x, y) :: ms). split_and!; [by constructor|symmetry; apply N.max_assoc..].
    + intros (ms & Hf & -> & ->). apply Forall2_cons_inv_l in Hf as ([x y] & ms' & Hm & Hf & ->).
      exists (N.max d x, N.max b y). split; [apply measure_op_spec; eauto|].
      apply IH. exists ms'. split_and!; [done|apply N.max_assoc..].
Qed.

(** The measure exists exactly when every operation is well formed, and is then the
    number of operations, the deepest pointer and the largest value. *)
Lemma measure_delta_spec delta kind m :
  measure_delta json delta kind = Ok m ↔
  ∃ ops ms, delta = Array ops ∧ Forall2 (λ op m, op_measure op m.1 m.2) ops ms
            ∧ m = mkDeltaMeasure (len ops) (max_of ms.*1) (max_of ms.*2).
Proof.
  unfold measure_delta. rewrite result_bind_Ok. split.
  - intros (ops & Hops%ok_or_Ok & H). destruct delta; try done. injection Hops as ->.
    apply result_bind_Ok in H as ([d b] & (ms & Hf & -> & ->)%measure_ops_spec & [= <-]).
    exists ops, ms. split_and!; [done|done|]. f_equal; lia.
  - intros (ops & ms & -> & Hf & ->). exists ops. split; [done|].
    rewrite result_bind_Ok. exists (max_of ms.*1, max_of ms.*2). split; [|done].
    apply measure_ops_spec. exists ms. split_and!; [done|lia..].
Qed.

Lemma max_of_le l n x : (max_of l ≤ n)%N → x ∈ l → (x ≤ n)%N.
Proof.
  induction l as [|y l IH]; simpl; intros Hm Hx; [by apply elem_of_nil in Hx|].
  apply elem_of_cons in Hx as [->|Hx]; [lia|]. apply IH; [lia|done].
Qed.
End measure.

(** ** Reading one kind of event *)

Section reading.
Context (json : SerdeJson).
#[local] Arguments lit : simpl never.

(** A fragment that is a delta comes from a [STATE_DELTA] event whose operations were
    all measured. *)
Lemma to_fragment_delta v n size depth value text :
  to_fragment json v = Ok (Some (Fragment_StateMutation (Delta n size depth value text))) →
  ∃ delta, get (lit "delta") v = Some delta
    ∧ measure_delta json delta STATE_DELTA = Ok (mkDeltaMeasure n depth value)
    ∧ text = to_string json delta ∧ size = len text.
Proof.
  unfold to_fragment. intros H.
  apply result_bind_Ok in H as (obj & _ & H). apply result_bind_Ok in H as (kind & _ & H).
  repeat match type of H with
    | (if bool_decide (kind = STATE_DELTA) then _ else _) = _ => fail 1
    | (if ?b then _ else _) = _ =>
        destruct b;
        [repeat (apply result_bind_Ok in H as (? & _ & H)); simplify_eq|]
    end.
  case_bool_decide as Hk.
  - subst kind. apply result_bind_Ok in H as (delta & Hd%ok_or_Ok & H).
    apply result_bind_Ok in H as ([a b c] & Hm & H). simplify_eq/=. eauto.
  - repeat case_bool_decide; simplify_eq.
Qed.

(** A state delta the run hands on is one whose every operation is well formed and
    within budget: so many operations, no [path] or [from] pointer deeper, no value's
    text longer and the whole patch's text not longer than the budgets allow. *)
Theorem state_delta_bounded v r n size depth value text :
  to_fragment json v = Ok (Some (Fragment_StateMutation (Delta n size depth value text))) →
  is_reject (Run_inspect r (Fragment_StateMutation (Delta n size depth value text))).1 = false →
  ∃ ops, get (lit "delta") v = Some (Array ops)
    ∧ (len ops ≤ max_ops (patch (run_budgets r)))%N
    ∧ (len (to_string json (Array ops)) ≤ max_state_bytes (run_budgets r))%N
    ∧ Forall (λ op, ∃ d b, op_measure json op d b
                ∧ (d ≤ max_path_depth (patch (run_budgets r)))%N
                ∧ (b ≤ max_value_bytes (patch (run_budgets r)))%N) ops.
Proof.
  intros (delta & Hd & Hm & -> & ->)%to_fragment_delta Hr.
  apply measure_delta_spec in Hm as (ops & ms & -> & Hf & [= -> -> ->]).
  unfold Run_inspect in Hr. case_bool_decide; [done|].
  apply state_mutation_ready in Hr as (Hs & Hn & Hdepth & Hval). simpl in *.
  exists ops. split_and!; [done..|].
  apply Forall_forall. intros op (i & Hi)%list_elem_of_lookup.
  destruct (Forall2_lookup_l _ _ _ _ _ Hf Hi) as ([d b] & Hi' & Hop). exists d, b.
  split_and!; [done| |].
  - apply (max_of_le ms.*1); [done|]. apply list_elem_of_lookup. exists i. by rewrite list_lookup_fmap, Hi'.
  - apply (max_of_le ms.*2); [done|]. apply list_elem_of_lookup. exists i. by rewrite list_lookup_fmap, Hi'.
Qed.
End reading.

(** ** Transformed events on the wire *)

Section wire.
Context (json : SerdeJson) `{!SerdeJsonLaws json}.
#[local] Set Default Proof Using "Type*".

(** The fragment a content event came from. *)
Definition fragment_of (event : AgentEvent) : option Fragment :=
  match event with
  | Event_MessageChunk message text => Some (MessageChunk message text)
  | Event_ToolResult id _ content => Some (ToolResult id content)
  | _ => None
  end.

(** An event whose strings are strings and whose id is not blank. *)
Definition wire_ready (event : AgentEvent) : bool :=
  match event with
  | Event_MessageChunk m text =>
      valid_utf8 text && valid_utf8 (message_str m) && negb (is_blank (message_str m))
  | Event_ToolResult id _ content =>
      valid_utf8 content && valid_utf8 (tool_call_str id) && negb (is_blank (tool_call_str id))
  | _ => false
  end.

Lemma to_event_string_object event v :
  wire_ready event = true → to_event event = Some v → string_object v = true.
Proof.
  intros Hw Hv. destruct event as [m text| |id nm content| | |]; try done; injection Hv as <-;
    apply andb_true_iff in Hw as [Hw _]; apply andb_true_iff in Hw as [Ha Hb];
    unfold string_object; rewrite andb_true_iff; (split; [done|]);
    cbn [forallb]; rewrite Ha, Hb; done.
Qed.

Lemma to_fragment_to_event event v :
  wire_ready event = true → to_event event = Some v →
  to_fragment json v = Ok (fragment_of event).
Proof.
  intros Hw Hv. destruct event as [[m] text| |[id] nm content| | |]; try done; injection Hv as <-;
    apply andb_true_iff in Hw as [_ Hb%negb_true_iff]; simpl in Hb.
  - unfold to_fragment. simpl. unfold message_id, MessageId_new, non_blank, string. simpl.
    by rewrite Hb.
  - unfold to_fragment. simpl. unfold tool_call_id, ToolCallId_new, non_blank, string. simpl.
    by rewrite Hb.
Qed.

(** An event rewritten by a policy reaches the client as that event: the frame
    written for it decodes, whatever the chunking, to one SSE event whose data parses
    and maps back to the rewritten fragment. *)
Theorem transformed_event_roundtrip event v input :
  wire_ready event = true →
  to_event event = Some v →
  concat input = encode (to_string json v) →
  ∃ e, push_all SseDecoder_new input = ([e], SseDecoder_new)
       ∧ (from_str json (sse_data e) = Some v)
       ∧ to_fragment json v = Ok (fragment_of event).
Proof.
  intros Hw Hv Hin. pose proof (to_event_string_object event v Hw Hv) as Hs.
  exists (mkSseEvent (to_string json v) None None (encode (to_string json v))).
  split_and!.
  - apply (feed_encoded [to_string json v]).
    + constructor; [|done]. unfold encodable.
      split_and!; [by apply json_one_line|by apply json_no_cr|by apply json_utf8].
    + by rewrite Hin, fmap_cons, concat_cons, app_nil_r.
  - simpl. by apply json_roundtrip.
  - by apply to_fragment_to_event.
Qed.
End wire.

(** ** What a parsed request covers *)

(** A string anywhere inside a value. *)
Inductive leaf : Value → bytes → Prop :=
| leaf_string s : leaf (String_ s) s
| leaf_array items x s : x ∈ items → leaf x s → leaf (Array items) s
| leaf_object fields k x s : (k, x) ∈ fields → leaf x s → leaf (Object fields) s.

Lemma collect_string_leaves_spec v s : s ∈ collect_string_leaves v ↔ leaf v s.
Proof.
  split.
  - revert s. induction v using Value_rect'; intros t Ht; simpl in Ht;
      try (by apply elem_of_nil in Ht).
    + apply list_elem_of_singleton in Ht as ->. constructor.
    + apply list_elem_of_In, in_flat_map in Ht as (x & Hx%list_elem_of_In & Ht%list_elem_of_In).
      rewrite Forall_forall in H. by eapply leaf_array; [|apply H].
    + apply list_elem_of_In, in_flat_map in Ht as ([k x] & Hx%list_elem_of_In & Ht%list_elem_of_In).
      rewrite Forall_forall in H. eapply leaf_object; [done|]. by apply (H (k, x)).
  - induction 1 as [s|items x s Hx _ IH|fields k x s Hx _ IH]; simpl.
    + by apply list_elem_of_singleton.
    + apply list_elem_of_In, in_flat_map. exists x. by split; apply list_elem_of_In.
    + apply list_elem_of_In, in_flat_map. exists (k, x). by split; apply list_elem_of_In.
Qed.

Lemma collect_Ok {E A B} (f : A → result E B) l ys :
  collect f l = Ok ys ↔ Forall2 (λ x y, f x = Ok y) l ys.
Proof.
  revert ys. induction l as [|x l IH]; intros ys; simpl.
  - split; [by intros [= <-]|]. by intros ->%Forall2_nil_inv_l.
  - rewrite result_bind_Ok. setoid_rewrite result_bind_Ok. setoid_rewrite IH. split.
    + intros (y & Hy & zs & Hzs & [= <-]). by constructor.
    + intros (y & zs & Hy & Hzs & ->)%Forall2_cons_inv_l. eauto.
Qed.

(** The messages of one role, every one of them an object with a string role. *)
Definition message_ok (user system : list bytes) (m : Value) : Prop :=
  ∃ fields role, m = Object fields ∧ map_get (lit "role") fields = Some (String_ role)
    ∧ (role = lit "user" → ∃ c, map_get (lit "content") fields = Some (String_ c) ∧ c ∈ user)
    ∧ (role = lit "system" → ∃ c, map_get (lit "content") fields = Some (String_ c) ∧ c ∈ system).

Lemma parse_message_spec u s m u' s' :
  parse_message (u, s) m = Ok (u', s') → message_ok u' s' m ∧ u ⊆ u' ∧ s ⊆ s'.
Proof.
  unfold parse_message. intros (fields & Hf%ok_or_Ok & H)%result_bind_Ok.
  destruct m; try done. injection Hf as ->.
  apply result_bind_Ok in H as (role & Hr%ok_or_Ok%bind_as_str_Some & H).
  case_bool_decide as Hu; [|case_bool_decide as Hs].
  - apply result_bind_Ok in H as (c & Hc%ok_or_Ok%bind_as_str_Some & [= <- <-]).
    split_and!; [|set_solver..]. exists fields, role. subst role. split_and!; [done..| |done].
    intros _. exists c. set_solver.
  - apply result_bind_Ok in H as (c & Hc%ok_or_Ok%bind_as_str_Some & [= <- <-]).
    split_and!; [|set_solver..]. exists fields, role. subst role. split_and!; [done..|].
    intros _. exists c. set_solver.
  - injection H as <- <-. split_and!; [|done..]. exists fields, role. by split_and!.
Qed.

Lemma message_ok_mono u s u' s' m : u ⊆ u' → s ⊆ s' → message_ok u s m → message_ok u' s' m.
Proof.
  intros Hu Hs (fields & role & -> & Hr & HU & HS). exists fields, role. split_and!; [done..| |].
  - intros E. destruct (HU E) as (c & ? & ?). eauto.
  - intros E. destruct (HS E) as (c & ? & ?). eauto.
Qed.

Lemma parse_message_list_spec u s ms u' s' :
  parse_message_list (u, s) ms = Ok (u', s') →
  Forall (message_ok u' s') ms ∧ u ⊆ u' ∧ s ⊆ s'.
Proof.
  revert u s. induction ms as [|m ms IH]; intros u s; simpl.
  - intros [= -> ->]. by split_and!; [constructor| |].
  - intros ([u1 s1] & Hm%parse_message_spec & (Hf & Hu & Hs)%IH)%result_bind_Ok.
    destruct Hm as (Hm & ? & ?). split_and!; [|by etrans..].
    constructor; [by eapply message_ok_mono|done].
Qed.

Section request.
Context (json : SerdeJson).
#[local] Arguments lit : simpl never.

End request.

(** ** Witnesses *)

Definition demo_delta : Value :=
  Array [Object [(lit "op", String_ (lit "add")); (lit "path", String_ (lit "/a/b"));
                 (lit "value", Number (lit "1"))];
         Object [(lit "from", String_ (lit "/a/b/c")); (lit "op", String_ (lit "move"));
                 (lit "path", String_ (lit "/d"))]].

Definition demo_delta_event : Value :=
  Object [(lit "delta", demo_delta); (lit "type", String_ STATE_DELTA)].

Definition demo_run : Run :=
  (Run_inspect (Run_new (mkRunId 1%N) Budgets_default) (Fragment_Lifecycle RunStarted)).2.

Lemma state_delta_bounded_witness :
  ∃ ops, get (lit "delta") demo_delta_event = Some (Array ops)
    ∧ (len ops ≤ max_ops (patch (run_budgets demo_run)))%N
    ∧ (len (to_string ToyJson.toy_json (Array ops)) ≤ max_state_bytes (run_budgets demo_run))%N
    ∧ Forall (λ op, ∃ d b, op_measure ToyJson.toy_json op d b
                ∧ (d ≤ max_path_depth (patch (run_budgets demo_run)))%N
                ∧ (b ≤ max_value_bytes (patch (run_budgets demo_run)))%N) ops.
Proof.
  apply (state_delta_bounded ToyJson.toy_json demo_delta_event demo_run 2 0 3 0 []).
  - vm_compute. reflexivity.
  - vm_compute. reflexivity.
Defined.

Definition demo_chunk : AgentEvent :=
  Event_MessageChunk (mkMessageId (lit "m1")) (lit "[redacted]").

Definition demo_chunk_value : Value :=
  Object [(lit "delta", String_ (lit "[redacted]"));
          (lit "messageId", String_ (lit "m1"));
          (lit "type", String_ TEXT_MESSAGE_CONTENT)].

Lemma transformed_event_roundtrip_witness :
  ∃ e, push_all SseDecoder_new [encode (to_string ToyJson.toy_json demo_chunk_value)] =
         ([e], SseDecoder_new)
       ∧ (from_str ToyJson.toy_json (sse_data e) = Some demo_chunk_value)
       ∧ to_fragment ToyJson.toy_json demo_chunk_value = Ok (fragment_of demo_chunk).
Proof.
  apply (transformed_event_roundtrip ToyJson.toy_json demo_chunk demo_chunk_value).
  - vm_compute. reflexivity.
  - reflexivity.
  - cbn [concat]. apply app_nil_r.
Defined.

(** A body with a tool, a user and a system message and a nested string. *)
Definition demo_body : Value :=
  Object [(lit "context", Array [Object [(lit "url", String_ (lit "http://h/"))]]);
          (lit "messages", Array [Object [(lit "content", String_ (lit "hi")); (lit "role", String_ (lit "user"))];
                                  Object [(lit "content", String_ (lit "sys")); (lit "role", String_ (lit "system"))]]);
          (lit "tools", Array [Object [(lit "name", String_ (lit "read"))]])].

Definition demo_body_json : SerdeJson := mkSerdeJson (λ _, None) (λ _, Some demo_body) (λ _, []).

