(* ===== verification/Ssrf.v ===== *)
(** * Ssrf: the URL guard (crates/agate-proxy/src/application/inspection/request.rs)

    The tokens of a text that look like URLs, their classification, the address
    rules, and the loop that resolves domain hosts.  Parsing a URL is the [url]
    crate's: a parameter.  Resolving a host is the resolver port's, an effect. *)
From stdpp Require Import options.
From S2P Require Import Prelude Text.

(** ** Effects *)

(** A call that may change the world behind the ports. *)
Definition Eff (W A : Type) : Type := W → A * W.

#[export] Instance eff_ret {W} : MRet (Eff W) := λ A a w, (a, w).
#[export] Instance eff_bind {W} : MBind (Eff W) := λ A B f m w, let '(a, w') := m w in f a w'.

(** ** Addresses (std::net) *)

Record Ipv4Addr := mkIpv4 { o0 : N; o1 : N; o2 : N; o3 : N }.
Record Ipv6Addr := mkIpv6 { s0 : N; s1 : N; s2 : N; s3 : N; s4 : N; s5 : N; s6 : N; s7 : N }.
Inductive IpAddr := V4 (ip : Ipv4Addr) | V6 (ip : Ipv6Addr).

Definition v4_is_loopback (ip : Ipv4Addr) : bool := (o0 ip =? 127)%N.
Definition v4_is_private (ip : Ipv4Addr) : bool :=
  (o0 ip =? 10)%N
  || ((o0 ip =? 172)%N && (16 <=? o1 ip)%N && (o1 ip <=? 31)%N)
  || ((o0 ip =? 192)%N && (o1 ip =? 168)%N).
Definition v4_is_link_local (ip : Ipv4Addr) : bool := (o0 ip =? 169)%N && (o1 ip =? 254)%N.
Definition v4_is_unspecified (ip : Ipv4Addr) : bool :=
  (o0 ip =? 0)%N && (o1 ip =? 0)%N && (o2 ip =? 0)%N && (o3 ip =? 0)%N.
Definition v4_is_broadcast (ip : Ipv4Addr) : bool :=
  (o0 ip =? 255)%N && (o1 ip =? 255)%N && (o2 ip =? 255)%N && (o3 ip =? 255)%N.

Definition segments (ip : Ipv6Addr) : list N :=
  [s0 ip; s1 ip; s2 ip; s3 ip; s4 ip; s5 ip; s6 ip; s7 ip].
Definition v6_is_loopback (ip : Ipv6Addr) : bool :=
  bool_decide (segments ip = [0; 0; 0; 0; 0; 0; 0; 1]%N).
Definition v6_is_unspecified (ip : Ipv6Addr) : bool :=
  bool_decide (segments ip = [0; 0; 0; 0; 0; 0; 0; 0]%N).
Definition to_ipv4_mapped (ip : Ipv6Addr) : option Ipv4Addr :=
  if bool_decide (take 6 (segments ip) = [0; 0; 0; 0; 0; 65535]%N) then
    Some (mkIpv4 (s6 ip / 256) (s6 ip `mod` 256) (s7 ip / 256) (s7 ip `mod` 256))
  else None.

Definition is_blocked_v4 (ip : Ipv4Addr) : bool :=
  v4_is_loopback ip || v4_is_private ip || v4_is_link_local ip
  || v4_is_unspecified ip || v4_is_broadcast ip.

Definition is_blocked_v6 (ip : Ipv6Addr) : bool :=
  match to_ipv4_mapped ip with
  | Some mapped => is_blocked_v4 mapped
  | None =>
      let first := s0 ip in
      v6_is_loopback ip || v6_is_unspecified ip
      || (N.land first 0xfe00 =? 0xfc00)%N
      || (N.land first 0xffc0 =? 0xfe80)%N
  end.

Definition is_blocked (ip : IpAddr) : bool :=
  match ip with V4 ip => is_blocked_v4 ip | V6 ip => is_blocked_v6 ip end.

(** ** Displaying addresses (std's [fmt::Display]) *)

Definition digit (n : N) : ascii := byte_of_N (if (n <? 10)%N then 48 + n else 87 + n).

(** A number in base [b], most significant digit first. *)
Fixpoint digits (fuel : nat) (b n : N) : bytes :=
  match fuel with
  | O => []
  | S fuel' => (if (n <? b)%N then [] else digits fuel' b (n / b)) ++ [digit (n `mod` b)%N]
  end.

Definition decimal (n : N) : bytes := digits (S (N.to_nat (N.size n))) 10 n.
Definition hexadecimal (n : N) : bytes := digits (S (N.to_nat (N.size n))) 16 n.

Fixpoint join (sep : bytes) (parts : list bytes) : bytes :=
  match parts with
  | [] => []
  | [p] => p
  | p :: ps => p ++ sep ++ join sep ps
  end.

Definition v4_display (ip : Ipv4Addr) : bytes :=
  join (lit ".") (map decimal [o0 ip; o1 ip; o2 ip; o3 ip]).

(** The first longest run of zero segments: its start and length. *)
Fixpoint longest_zeros (i : nat) (cur best : nat * nat) (segs : list N) : nat * nat :=
  match segs with
  | [] => best
  | x :: segs' =>
      if (x =? 0)%N then
        let cur := (if Nat.eqb cur.2 0 then i else cur.1, S cur.2) in
        longest_zeros (S i) cur (if best.2 <? cur.2 then cur else best) segs'
      else longest_zeros (S i) (0, 0) best segs'
  end.

Definition v6_display (ip : Ipv6Addr) : bytes :=
  match to_ipv4_mapped ip with
  | Some ipv4 => lit "::ffff:" ++ v4_display ipv4
  | None =>
      let segs := segments ip in
      let '(start, n) := longest_zeros 0 (0, 0) (0, 0) segs in
      if 1 <? n then
        join (lit ":") (map hexadecimal (take start segs)) ++ lit "::"
        ++ join (lit ":") (map hexadecimal (drop (start + n) segs))
      else join (lit ":") (map hexadecimal segs)
  end.

Definition ip_display (ip : IpAddr) : bytes :=
  match ip with V4 ip => v4_display ip | V6 ip => v6_display ip end.

(** ** Tokens *)

(** White space, a double or single quote, a brace or a comma. *)
Definition is_delimiter (c : bytes) : bool :=
  is_whitespace c
  || bool_decide (c ∈ [[byte_of_N 34]; [byte_of_N 39]; [byte_of_N 123]; [byte_of_N 125]; [byte_of_N 44]]).

(** [str::split] on a predicate over characters. *)
Fixpoint split_chars (p : bytes → bool) (cs : list bytes) : list (list bytes) :=
  match cs with
  | [] => [[]]
  | c :: cs' =>
      if p c then [] :: split_chars p cs'
      else match split_chars p cs' with
           | [] => [[c]]
           | t :: ts => (c :: t) :: ts
           end
  end.

Definition tokens (text : bytes) : list bytes :=
  List.filter (λ t, contains t (lit "://"))
    (map (@concat ascii) (split_chars is_delimiter (chunks text))).

(** The characters [trim_matches] strips from both ends of a token. *)
Definition trim_set : list bytes :=
  map (λ n, [byte_of_N n]) [46; 44; 40; 41; 91; 93; 123; 125; 34; 39; 60; 62]%N.

Fixpoint drop_matches (cs : list bytes) : list bytes :=
  match cs with
  | [] => []
  | c :: cs' => if bool_decide (c ∈ trim_set) then drop_matches cs' else cs
  end.

Definition trim_matches (token : bytes) : bytes :=
  concat (rev (drop_matches (rev (drop_matches (chunks token))))).

(** ** Classification *)

Inductive Host := Domain (d : bytes) | Host_Ipv4 (ip : Ipv4Addr) | Host_Ipv6 (ip : Ipv6Addr).

Record Url := mkUrl { scheme : bytes; host : option Host }.

Inductive UrlVerdict :=
| Allowed
| Blocked (reason : bytes)
| Resolve (host : bytes).

Definition ends_with (b suffix : bytes) : bool :=
  starts_with (rev suffix) (rev b).

Section guard.
Context (url_parse : bytes → option Url).

Definition classify_url (token : bytes) : UrlVerdict :=
  match url_parse (trim_matches token) with
  | None => Allowed
  | Some url =>
      if negb (bool_decide (scheme url = lit "http") || bool_decide (scheme url = lit "https")) then
        Blocked (lit "disallowed URL scheme `" ++ scheme url ++ lit "`")
      else
        match host url with
        | None => Allowed
        | Some (Domain domain) =>
            let domain := to_ascii_lowercase domain in
            if bool_decide (domain = lit "localhost") || ends_with domain (lit ".localhost")
               || bool_decide (domain = lit "metadata.google.internal")
            then Blocked (lit "URL host `" ++ domain ++ lit "` is not allowed")
            else Resolve domain
        | Some (Host_Ipv4 ip) =>
            if is_blocked_v4 ip then
              Blocked (lit "URL host " ++ v4_display ip ++ lit " is a private/loopback address")
            else Allowed
        | Some (Host_Ipv6 ip) =>
            if is_blocked_v6 ip then
              Blocked (lit "URL host [" ++ v6_display ip ++ lit "] is a private/loopback address")
            else Allowed
        end
  end.

(** The resolver port. *)
Class HostResolver (W : Type) := resolve : bytes → Eff W (list IpAddr).

Section loop.
Context {W : Type} `{!HostResolver W}.

(** The inner loop: the first blocked address a host resolves to. *)
Definition first_blocked (ips : list IpAddr) : option IpAddr := List.find is_blocked ips.

Definition resolves_reason (host : bytes) (ip : IpAddr) : bytes :=
  lit "URL host `" ++ host ++ lit "` resolves to private/loopback address " ++ ip_display ip.

Fixpoint first_disallowed (tokens : list bytes) : Eff W (option bytes) :=
  match tokens with
  | [] => mret None
  | token :: rest =>
      match classify_url token with
      | Allowed => first_disallowed rest
      | Blocked reason => mret (Some reason)
      | Resolve host =>
          ips ← resolve host;
          match first_blocked ips with
          | Some ip => mret (Some (resolves_reason host ip))
          | None => first_disallowed rest
          end
      end
  end.

Definition first_disallowed_url (text : bytes) : Eff W (option bytes) :=
  first_disallowed (tokens text).
End loop.
End guard.

(** ** The address rules as ranges *)

Definition octets_ok (ip : Ipv4Addr) : Prop :=
  (o0 ip < 256 ∧ o1 ip < 256 ∧ o2 ip < 256 ∧ o3 ip < 256)%N.

(** The address as a 32-bit number. *)
Definition v4_value (ip : Ipv4Addr) : N :=
  (o0 ip * 16777216 + o1 ip * 65536 + o2 ip * 256 + o3 ip)%N.

(** [base/prefix] holds the address. *)
Definition in_net (base : Ipv4Addr) (prefix : N) (ip : Ipv4Addr) : Prop :=
  (v4_value base ≤ v4_value ip < v4_value base + 2 ^ (32 - prefix))%N.

(** Loopback, the three private networks, link-local (with the cloud metadata
    address), the unspecified and the broadcast address. *)
Definition blocked_nets : list (Ipv4Addr * N) :=
  [(mkIpv4 127 0 0 0, 8); (mkIpv4 10 0 0 0, 8); (mkIpv4 172 16 0 0, 12);
   (mkIpv4 192 168 0 0, 16); (mkIpv4 169 254 0 0, 16); (mkIpv4 0 0 0 0, 32);
   (mkIpv4 255 255 255 255, 32)]%N.

Section nets.
Context (a b c d : N) (Ha : (a < 256)%N) (Hb : (b < 256)%N) (Hc : (c < 256)%N) (Hd : (d < 256)%N).
#[local] Set Default Proof Using "Type*".

Lemma in_net_8 x : in_net (mkIpv4 x 0 0 0) 8 (mkIpv4 a b c d) ↔ a = x.
Proof.
  unfold in_net, v4_value. cbn [o0 o1 o2 o3]. change (2 ^ (32 - 8))%N with 16777216%N. lia.
Qed.

Lemma in_net_16 x y : (y < 256)%N → in_net (mkIpv4 x y 0 0) 16 (mkIpv4 a b c d) ↔ a = x ∧ b = y.
Proof.
  unfold in_net, v4_value. cbn [o0 o1 o2 o3]. change (2 ^ (32 - 16))%N with 65536%N. lia.
Qed.

Lemma in_net_12 x : in_net (mkIpv4 x 16 0 0) 12 (mkIpv4 a b c d) ↔ a = x ∧ (16 ≤ b ≤ 31)%N.
Proof.
  unfold in_net, v4_value. cbn [o0 o1 o2 o3]. change (2 ^ (32 - 12))%N with 1048576%N. lia.
Qed.

Lemma in_net_32 x :
  (x < 256)%N → in_net (mkIpv4 x x x x) 32 (mkIpv4 a b c d) ↔ a = x ∧ b = x ∧ c = x ∧ d = x.
Proof.
  unfold in_net, v4_value. cbn [o0 o1 o2 o3]. change (2 ^ (32 - 32))%N with 1%N. lia.
Qed.
End nets.

Lemma is_blocked_v4_nets ip :
  octets_ok ip →
  is_blocked_v4 ip = true ↔ ∃ base prefix, (base, prefix) ∈ blocked_nets ∧ in_net base prefix ip.
Proof.
  destruct ip as [a b c d]. unfold octets_ok. cbn [o0 o1 o2 o3]. intros (Ha & Hb & Hc & Hd).
  transitivity (Exists (λ n, in_net n.1 n.2 (mkIpv4 a b c d)) blocked_nets).
  - unfold blocked_nets. rewrite !Exists_cons, Exists_nil. cbn [fst snd].
    rewrite !in_net_8, !in_net_16, in_net_12, !in_net_32 by done.
    unfold is_blocked_v4, v4_is_loopback, v4_is_private, v4_is_link_local, v4_is_unspecified,
      v4_is_broadcast. cbn [o0 o1 o2 o3].
    rewrite !orb_true_iff, !andb_true_iff, !N.eqb_eq, !N.leb_le. tauto.
  - rewrite Exists_exists. split; [intros ([base p] & ? & ?); eauto|].
    intros (base & p & ? & ?). by exists (base, p).
Qed.

(** Keeping the bits from [k] up: the multiple of [2^k] below. *)
Lemma land_high x k b :
  (x < 2 ^ (k + b))%N → N.land x (N.shiftl (N.ones b) k) = (x / 2 ^ k * 2 ^ k)%N.
Proof.
  intros Hx. rewrite <- N.shiftl_mul_pow2, <- N.shiftr_div_pow2. apply N.bits_inj. intros i.
  rewrite N.land_spec. destruct (N.lt_ge_cases i k) as [Hi|Hi].
  - by rewrite !N.shiftl_spec_low, andb_false_r by done.
  - rewrite !N.shiftl_spec_high' by done. rewrite N.shiftr_spec', N.sub_add by done.
    destruct (N.lt_ge_cases (i - k) b) as [Hb|Hb].
    + by rewrite N.ones_spec_low, andb_true_r by done.
    + rewrite N.ones_spec_high, andb_false_r by done. symmetry.
      destruct (decide (x = 0%N)) as [->|Hx0]; [apply N.bits_0|].
      apply N.bits_above_log2. apply N.log2_lt_pow2; [lia|].
      eapply N.lt_le_trans; [done|]. apply N.pow_le_mono_r; lia.
Qed.

Lemma mask_range x k b q :
  (x < 2 ^ (k + b))%N →
  (N.land x (N.shiftl (N.ones b) k) =? q * 2 ^ k)%N
  = ((q * 2 ^ k <=? x) && (x <=? q * 2 ^ k + (2 ^ k - 1)))%N.
Proof.
  intros Hx. rewrite land_high by done. assert (2 ^ k ≠ 0)%N as Hk by (by apply N.pow_nonzero).
  pose proof (N.div_mod x (2 ^ k) Hk) as Hd. pose proof (N.mod_lt x (2 ^ k) Hk) as Hm.
  clear Hx. revert Hk Hd Hm. set (h := (x / 2 ^ k)%N). set (l := (x `mod` 2 ^ k)%N).
  generalize (2 ^ k)%N. clearbody h l. intros p Hk Hd Hm. apply eq_true_iff_eq. rewrite andb_true_iff, N.eqb_eq, !N.leb_le. split.
  - intros ->%N.mul_cancel_r; nia.
  - intros [H1 H2]. f_equal. nia.
Qed.

Lemma unique_local_range x :
  (x < 65536)%N → (N.land x 0xfe00 =? 0xfc00)%N = ((0xfc00 <=? x) && (x <=? 0xfdff))%N.
Proof. exact (mask_range x 9 7 126). Qed.

Lemma link_local_range x :
  (x < 65536)%N → (N.land x 0xffc0 =? 0xfe80)%N = ((0xfe80 <=? x) && (x <=? 0xfebf))%N.
Proof. exact (mask_range x 6 10 1018). Qed.

Definition segments_ok (ip : Ipv6Addr) : Prop := Forall (λ s, (s < 65536)%N) (segments ip).

(** The addresses the proxy refuses are exactly those of the listed IPv4 networks,
    the same networks mapped into IPv6, the IPv6 loopback and unspecified addresses,
    and the networks fc00::/7 and fe80::/10. *)
Theorem blocked_addresses_exact ip4 ip6 :
  octets_ok ip4 → segments_ok ip6 →
  (is_blocked (V4 ip4) = true ↔
     ∃ base prefix, (base, prefix) ∈ blocked_nets ∧ in_net base prefix ip4)
  ∧ (is_blocked (V6 ip6) = true ↔
     match to_ipv4_mapped ip6 with
     | Some ip => ∃ base prefix, (base, prefix) ∈ blocked_nets ∧ in_net base prefix ip
     | None => segments ip6 = [0; 0; 0; 0; 0; 0; 0; 1]%N ∨ segments ip6 = replicate 8 0%N
               ∨ (0xfc00 ≤ s0 ip6 ≤ 0xfdff)%N ∨ (0xfe80 ≤ s0 ip6 ≤ 0xfebf)%N
     end).
Proof.
  intros H4 H6. split; [by apply is_blocked_v4_nets|]. cbn [is_blocked]. unfold is_blocked_v6.
  unfold segments_ok, segments in H6. rewrite !Forall_cons in H6.
  destruct H6 as (H0 & _ & _ & _ & _ & _ & H6 & H7 & _).
  destruct (to_ipv4_mapped ip6) as [ip|] eqn:Hm.
  - apply is_blocked_v4_nets. unfold to_ipv4_mapped in Hm. case_bool_decide; [|done].
    injection Hm as <-. unfold octets_ok. cbn [o0 o1 o2 o3].
    split_and!; by first [apply N.Div0.div_lt_upper_bound | apply N.mod_lt].
  - cbv zeta. rewrite unique_local_range, link_local_range by done.
    unfold v6_is_loopback, v6_is_unspecified.
    rewrite !orb_true_iff, !andb_true_iff, !bool_decide_eq_true, !N.leb_le. cbn [replicate]. tauto.
Qed.

Lemma blocked_addresses_exact_witness :
  is_blocked (V4 (mkIpv4 169 254 169 254)) = true
  ∧ ∃ base prefix, (base, prefix) ∈ blocked_nets ∧ in_net base prefix (mkIpv4 169 254 169 254).
Proof.
  split; [reflexivity|].
  apply (blocked_addresses_exact (mkIpv4 169 254 169 254) (mkIpv6 0 0 0 0 0 0 0 1)).
  - unfold octets_ok. simpl. lia.
  - unfold segments_ok. simpl. repeat constructor; done.
  - reflexivity.
Defined.

(** ** The guard as a predicate on tokens *)

Section guard_spec.
#[local] Arguments lit : simpl never.
Context (url_parse : bytes → option Url).
Context {W : Type} `{!HostResolver W} (dns : bytes → list IpAddr).
Context (Hdns : ∀ h w, (resolve h w).1 = dns h).
#[local] Set Default Proof Using "Type*".

(** A host the proxy may let through: not a local name, and no address it is or
    resolves to is blocked. *)
Definition host_safe (h : Host) : Prop :=
  match h with
  | Domain d =>
      let d := to_ascii_lowercase d in
      d ≠ lit "localhost" ∧ ends_with d (lit ".localhost") = false
      ∧ d ≠ lit "metadata.google.internal" ∧ Forall (λ ip, is_blocked ip = false) (dns d)
  | Host_Ipv4 ip => is_blocked_v4 ip = false
  | Host_Ipv6 ip => is_blocked_v6 ip = false
  end.

Definition token_safe (token : bytes) : Prop :=
  ∀ url, url_parse (trim_matches token) = Some url →
    (scheme url = lit "http" ∨ scheme url = lit "https")
    ∧ ∀ h, host url = Some h → host_safe h.

Lemma first_blocked_none ips :
  first_blocked ips = None ↔ Forall (λ ip, is_blocked ip = false) ips.
Proof.
  unfold first_blocked. induction ips as [|ip ips IH]; simpl; [by split; [constructor|]|].
  rewrite Forall_cons. destruct (is_blocked ip); [split; naive_solver|]. rewrite IH. naive_solver.
Qed.

Lemma classify_safe token :
  token_safe token ↔
  match classify_url url_parse token with
  | Allowed => True
  | Blocked _ => False
  | Resolve h => Forall (λ ip, is_blocked ip = false) (dns h)
  end.
Proof.
  unfold token_safe, classify_url.
  destruct (url_parse (trim_matches token)) as [url|]; [|by split].
  destruct (bool_decide (scheme url = lit "http") || bool_decide (scheme url = lit "https"))
    eqn:Hs; simpl.
  - assert (scheme url = lit "http" ∨ scheme url = lit "https") as Hs'.
    { apply orb_true_iff in Hs as [?%bool_decide_eq_true|?%bool_decide_eq_true]; auto. }
    transitivity (∀ h, host url = Some h → host_safe h); [naive_solver|].
    destruct (host url) as [[d|ip|ip]|]; cbv beta iota zeta.
    + destruct (_ || _ || _) eqn:Hl.
      * apply orb_true_iff in Hl as [[?%bool_decide_eq_true|?]%orb_true_iff|?%bool_decide_eq_true];
          split; try done; intros HH; destruct (HH _ eq_refl) as (? & ? & ? & ?); congruence.
      * apply orb_false_iff in Hl as [[?%bool_decide_eq_false ?]%orb_false_iff ?%bool_decide_eq_false].
        split; [intros HH; by destruct (HH _ eq_refl) as (? & ? & ? & ?)|].
        intros Hf h [= <-]. by split_and!.
    + destruct (is_blocked_v4 ip) eqn:E; split; try done.
      * intros H. specialize (H _ eq_refl). simpl in H. congruence.
      * by intros _ h [= <-].
    + destruct (is_blocked_v6 ip) eqn:E; split; try done.
      * intros H. specialize (H _ eq_refl). simpl in H. congruence.
      * by intros _ h [= <-].
    + by split.
  - apply orb_false_iff in Hs as [?%bool_decide_eq_false ?%bool_decide_eq_false].
    split; [|done]. intros HH. destruct (HH _ eq_refl) as [[]]; done.
Qed.

Lemma first_disallowed_spec ts w :
  (first_disallowed url_parse ts w).1 = None ↔ Forall token_safe ts.
Proof.
  revert w. induction ts as [|t ts IH]; intros w; simpl; [by split; [constructor|]|].
  rewrite Forall_cons, classify_safe. destruct (classify_url url_parse t) as [|r|h].
  - rewrite IH. naive_solver.
  - simpl. naive_solver.
  - unfold mbind, eff_bind. pose proof (Hdns h w) as Hd. destruct (resolve h w) as [ips w'].
    simpl in Hd. subst ips. destruct (first_blocked (dns h)) as [ip|] eqn:Hb.
    + simpl. split; [done|]. intros [Hf%first_blocked_none _]. congruence.
    + apply first_blocked_none in Hb. rewrite IH. naive_solver.
Qed.

Lemma split_chars_app p a d b :
  p d = true → split_chars p (a ++ d :: b) = split_chars p a ++ split_chars p b.
Proof.
  intros Hd. induction a as [|c a IH]; simpl; [by rewrite Hd|].
  destruct (p c); [by rewrite IH|]. rewrite IH.
  assert (split_chars p a ≠ []) as Hne.
  { destruct a as [|x a']; simpl; [done|]. destruct (p x); [done|]. by destruct (split_chars p a'). }
  by destruct (split_chars p a).
Qed.

Lemma split_chars_none p a : forallb (λ c, negb (p c)) a = true → split_chars p a = [a].
Proof.
  induction a as [|c a IH]; simpl; [done|]. intros [Hc%negb_true_iff Ha]%andb_true_iff.
  by rewrite Hc, IH.
Qed.

(** A text between delimiters is one of the tokens. *)
Lemma embedded_token pre d1 u d2 post :
  valid_utf8 pre = true → valid_utf8 u = true → valid_utf8 d1 = true → valid_utf8 d2 = true →
  chunks d1 = [d1] → chunks d2 = [d2] →
  is_delimiter d1 = true → is_delimiter d2 = true →
  forallb (λ c, negb (is_delimiter c)) (chunks u) = true →
  contains u (lit "://") = true →
  u ∈ tokens (pre ++ d1 ++ u ++ d2 ++ post).
Proof.
  intros Hpre Hu Hv1 Hv2 H1 H2 Hd1 Hd2 Hno Hc. unfold tokens.
  apply list_elem_of_In, filter_In. split; [|done].
  apply in_map_iff. exists (chunks u). split; [apply chunks_concat|].
  rewrite !chunks_app, H1, H2 by done. cbn [app].
  rewrite split_chars_app by done. rewrite split_chars_app by done.
  rewrite (split_chars_none _ (chunks u)) by done. apply in_app_iff. right. apply in_app_iff. left. by left.
Qed.
End guard_spec.

Section guard_properties.
Context (url_parse : bytes → option Url).
Context {W : Type} `{!HostResolver W} (dns : bytes → list IpAddr).
#[local] Set Default Proof Using "Type*".


(** An unsafe URL written inside a text between delimiters, as a JSON string value
    is, does not pass the guard, whatever surrounds it. *)
Theorem embedded_url_blocked pre d1 u d2 post w :
  (∀ h w, (resolve h w).1 = dns h) →
  valid_utf8 pre = true → valid_utf8 u = true →
  d1 ∈ [lit " "; [byte_of_N 34]; lit "'"; lit "{"; lit "}"; lit ","] →
  d2 ∈ [lit " "; [byte_of_N 34]; lit "'"; lit "{"; lit "}"; lit ","] →
  forallb (λ c, negb (is_delimiter c)) (chunks u) = true →
  contains u (lit "://") = true →
  ¬ token_safe url_parse dns u →
  (first_disallowed_url url_parse (pre ++ d1 ++ u ++ d2 ++ post) w).1 ≠ None.
Proof.
  intros Hdns Hpre Hu Hd1 Hd2 Hno Hc Hbad Hnone. apply Hbad.
  unfold first_disallowed_url in Hnone. rewrite (first_disallowed_spec url_parse dns Hdns) in Hnone.
  rewrite Forall_forall in Hnone. apply Hnone.
  assert (∀ d, d ∈ [lit " "; [byte_of_N 34]; lit "'"; lit "{"; lit "}"; lit ","] →
          valid_utf8 d = true ∧ chunks d = [d] ∧ is_delimiter d = true) as Hdel.
  { intros d Hd. rewrite !elem_of_cons, elem_of_nil in Hd.
    by destruct Hd as [->|[->|[->|[->|[->|[->|[]]]]]]]. }
  destruct (Hdel d1 Hd1) as (? & ? & ?), (Hdel d2 Hd2) as (? & ? & ?).
  by apply embedded_token.
Qed.
End guard_properties.

(** ** A resolver and a parser to run the guard with *)

#[local] Instance demo_resolver : HostResolver unit := λ h w,
  (if bool_decide (h = lit "evil.test") then [V4 (mkIpv4 10 0 0 7)] else [V4 (mkIpv4 93 184 216 34)], w).

Definition demo_dns (h : bytes) : list IpAddr := (demo_resolver h tt).1.

Definition demo_url_parse (t : bytes) : option Url :=
  if bool_decide (t = lit "http://evil.test/x") then
    Some (mkUrl (lit "http") (Some (Domain (lit "EVIL.test"))))
  else if bool_decide (t = lit "http://[::ffff:127.0.0.1]/") then
    Some (mkUrl (lit "http") (Some (Host_Ipv6 (mkIpv6 0 0 0 0 0 65535 32512 1))))
  else if bool_decide (t = lit "https://ok.test") then
    Some (mkUrl (lit "https") (Some (Domain (lit "ok.test"))))
  else None.


(** A domain that resolves to a private address, inside a tool call's arguments. *)
Lemma embedded_url_blocked_witness :
  (first_disallowed_url demo_url_parse
     (lit "{" ++ [byte_of_N 34] ++ lit "http://evil.test/x" ++ [byte_of_N 34] ++ lit "}") tt).1 ≠ None.
Proof.
  apply (embedded_url_blocked demo_url_parse demo_dns).
  - intros h []. reflexivity.
  - vm_compute. reflexivity.
  - vm_compute. reflexivity.
  - set_solver.
  - set_solver.
  - vm_compute. reflexivity.
  - vm_compute. reflexivity.
  - intros Hs. destruct (Hs _ eq_refl) as [_ Hh].
    destruct (Hh _ eq_refl) as (_ & _ & _ & Hf). vm_compute in Hf.
    apply Forall_cons in Hf as [? _]. done.
Defined.
