(* ===== verification/Ports.v ===== *)
(** * Ports: the interfaces between the proxy's parts
    (crates/agate-proxy/src/application/common/ports)

    One class per port, over the world [W] its adapters change.  The inspection
    pipeline and the response stream are written against these classes; the policy,
    the replay memory and the audit sink are proved to implement them in their own
    files. *)
From stdpp Require Import options.
From S2P Require Import Prelude Text Ssrf Run.

Record InspectionContext := mkInspectionContext {
  ctx_session : SessionId;
  ctx_run : RunId;
}.

(** [PolicyPort::decide]. *)
Class PolicyPort (W : Type) :=
  decide_event : InspectionContext → AgentEvent → Eff W (Verdict AgentEvent).

(** [AuditSink::record]. *)
Class AuditSink (W : Type) :=
  record_event : InspectionContext → AgentEvent → Verdict AgentEvent → Eff W unit.

(** [SessionMemory]. *)
Class SessionMemory (W : Type) := {
  recall : SessionId → bytes → Eff W (option DenyReason);
  remember : SessionId → bytes → DenyReason → Eff W unit;
}.

Inductive InspectionOutcome :=
| Outcome_Forward
| Outcome_Buffer
| Outcome_Transform
| Outcome_Deny
| Outcome_Terminate.

Definition outcome_label (o : InspectionOutcome) : bytes :=
  match o with
  | Outcome_Forward => lit "forward"
  | Outcome_Buffer => lit "buffer"
  | Outcome_Transform => lit "transform"
  | Outcome_Deny => lit "deny"
  | Outcome_Terminate => lit "terminate"
  end.

Inductive UpstreamError :=
| Connect (message : bytes)
| Timeout
| Status (code : N)
| Stream_ (message : bytes).

Definition upstream_label (e : UpstreamError) : bytes :=
  match e with
  | Connect _ => lit "connect"
  | Timeout => lit "timeout"
  | Status _ => lit "status"
  | Stream_ _ => lit "stream"
  end.

(** [Display for UpstreamError]. *)
Definition upstream_display (e : UpstreamError) : bytes :=
  match e with
  | Connect message => lit "could not connect to the upstream agent: " ++ message
  | Timeout => lit "the upstream agent timed out"
  | Status code => lit "the upstream agent answered HTTP " ++ decimal code
  | Stream_ message => lit "the upstream response stream failed: " ++ message
  end.

(** [ProxyMetrics]. *)
Class ProxyMetrics (W : Type) := {
  record_run : Eff W unit;
  record_upstream_error : UpstreamError → Eff W unit;
  record_inspected : InspectionOutcome → Eff W unit;
}.

(** ** What the ports promise each other *)

(** The replay ledger a memory keeps, as its clients see it: a denial is recalled with
    the first reason given, recalling changes nothing, and no other port touches it. *)
Class SessionMemoryLaws (W : Type) `{!SessionMemory W} := {
  quarantined : W → SessionId → bytes → option DenyReason;
  recall_spec s t w :
    (recall s t w).1 = quarantined w s t
    ∧ ∀ s' t', quarantined (recall s t w).2 s' t' = quarantined w s' t';
  remember_spec s t r w s' t' :
    quarantined (remember s t r w).2 s' t' =
    if decide (s' = s ∧ t' = t) then Some (default r (quarantined w s t))
    else quarantined w s' t';
}.

(** An effect that leaves the ledger alone. *)
Definition keeps_ledger {W} `{!SessionMemory W, !SessionMemoryLaws W} {A} (m : Eff W A) : Prop :=
  ∀ w s t, quarantined (m w).2 s t = quarantined w s t.

Class PortFrames (W : Type) `{!PolicyPort W, !AuditSink W, !HostResolver W, !SessionMemory W,
    !SessionMemoryLaws W} : Prop := {
  decide_frame ctx e : keeps_ledger (decide_event ctx e);
  record_frame ctx e v : keeps_ledger (record_event ctx e v);
  resolve_frame h : keeps_ledger (resolve h);
}.
