(* ===== verification/SessionMemory.v ===== *)
(** * SessionMemory: the replay ledger
    (crates/agate-proxy/src/infrastructure/policy/session_memory.rs)

    The process-local ledger with its sliding time-to-live: [recall], [remember] and
    one round of the background pruner, each at the instant it reads from the clock.
    It is proved against a ledger that forgets a session the moment its time is up,
    and to implement the interface the inspector is written against. *)
From stdpp Require Import options.
From S2P Require Import Prelude Text Ssrf Run Ports.

(** Instants and durations are nanosecond counts. *)
Record SessionLedger := mkSessionLedger {
  expires_at : N;
  denied_tools : gmap bytes DenyReason;
}.

Abbreviation Sessions := (gmap SessionId SessionLedger).

(** [NoopSessionMemory]. *)
Definition noop_memory (W : Type) : SessionMemory W :=
  {| recall _ _ := mret None; remember _ _ _ := mret tt |}.

Section memory.
Context (ttl : N).

Definition recall_at (now : N) (session : SessionId) (tool : bytes) (sessions : Sessions) :
    option DenyReason * Sessions :=
  match sessions !! session with
  | None => (None, sessions)
  | Some ledger =>
      if (expires_at ledger <=? now)%N then (None, delete session sessions)
      else
        let ledger := mkSessionLedger (now + ttl) (denied_tools ledger) in
        (denied_tools ledger !! tool, <[session := ledger]> sessions)
  end.

(** [or_insert_with], the refreshed expiry, and the first reason kept. *)
Definition remember_at (now : N) (session : SessionId) (tool : bytes) (reason : DenyReason)
    (sessions : Sessions) : Sessions :=
  let ledger := default (mkSessionLedger (now + ttl) ∅) (sessions !! session) in
  let tools := denied_tools ledger in
  let tools := match tools !! tool with
               | Some _ => tools
               | None => <[tool := reason]> tools
               end in
  <[session := mkSessionLedger (now + ttl) tools]> sessions.

(** One round of [spawn_pruner]. *)
Definition prune_at (now : N) (sessions : Sessions) : Sessions :=
  filter (λ '(_, ledger), now < expires_at ledger)%N sessions.
End memory.

(** ** The ledger of one session, forgotten when its time is up *)

(** What is left of a session at [now]. *)
Definition live (now : N) (o : option SessionLedger) : option SessionLedger :=
  match o with
  | Some l => if (expires_at l <=? now)%N then None else Some l
  | None => None
  end.

(** One use of the memory by the inspector, with the instants it reads: a question, or
    a question answered with nothing and followed by a denial. *)
Inductive use :=
| Ask (now : N) (session : SessionId) (tool : bytes)
| AskThenDeny (now later : N) (session : SessionId) (tool : bytes) (reason : DenyReason)
| Prune (now : N).

Section uses.
Context (ttl : N).

(** The implementation. *)
Definition do_use (u : use) (m : Sessions) : option DenyReason * Sessions :=
  match u with
  | Ask now s t => recall_at ttl now s t m
  | AskThenDeny now later s t r =>
      match recall_at ttl now s t m with
      | (Some r0, m') => (Some r0, m')
      | (None, m') => (None, remember_at ttl later s t r m')
      end
  | Prune now => (None, prune_at now m)
  end.

(** The reference: a session is a function of the uses of it alone, and a ledger whose
    time is up is no ledger. *)
Definition spec_use (u : use) (s : SessionId) (o : option SessionLedger) :
    option DenyReason * option SessionLedger :=
  match u with
  | Ask now s' t =>
      if decide (s' = s) then
        match live now o with
        | None => (None, None)
        | Some l => (denied_tools l !! t, Some (mkSessionLedger (now + ttl) (denied_tools l)))
        end
      else (None, o)
  | AskThenDeny now later s' t r =>
      if decide (s' = s) then
        match live now o with
        | None => (None, Some (mkSessionLedger (later + ttl) {[t := r]}))
        | Some l =>
            match denied_tools l !! t with
            | Some r0 => (Some r0, Some (mkSessionLedger (now + ttl) (denied_tools l)))
            | None => (None, Some (mkSessionLedger (later + ttl) (<[t := r]> (denied_tools l))))
            end
        end
      else (None, o)
  | Prune _ => (None, o)
  end.

Definition use_session (u : use) : option SessionId :=
  match u with Ask _ s _ | AskThenDeny _ _ s _ _ => Some s | Prune _ => None end.

Definition use_start (u : use) : N :=
  match u with Ask now _ _ | AskThenDeny now _ _ _ _ | Prune now => now end.

Definition use_end (u : use) : N :=
  match u with Ask now _ _ | Prune now => now | AskThenDeny _ later _ _ _ => later end.

(** The clock does not go back. *)
Fixpoint monotone (now : N) (us : list use) : Prop :=
  match us with
  | [] => True
  | u :: us' => (now ≤ use_start u ≤ use_end u)%N ∧ monotone (use_end u) us'
  end.

Fixpoint do_uses (us : list use) (m : Sessions) : list (option DenyReason) * Sessions :=
  match us with
  | [] => ([], m)
  | u :: us' =>
      let '(a, m1) := do_use u m in
      let '(answers, m2) := do_uses us' m1 in
      (a :: answers, m2)
  end.

(** The answers the reference gives, each from the uses of its own session. *)
Fixpoint spec_uses (us : list use) (st : SessionId → option SessionLedger) :
    list (option DenyReason) :=
  match us with
  | [] => []
  | u :: us' =>
      let a := match use_session u with
               | Some s => (spec_use u s (st s)).1
               | None => None
               end in
      a :: spec_uses us' (λ s, (spec_use u s (st s)).2)
  end.

(** Two ledgers that agree from [now] on. *)
Definition agree (now : N) (o o' : option SessionLedger) : Prop :=
  ∀ t, (now ≤ t)%N → live t o = live t o'.

Lemma agree_refl now o : agree now o o.
Proof. by intros t _. Qed.

Lemma agree_later now later o o' : (now ≤ later)%N → agree now o o' → agree later o o'.
Proof. intros Hle H t Ht. apply H. lia. Qed.

Lemma agree_none now o : live now o = None → agree now None o.
Proof.
  intros H t Ht. destruct o as [l|]; [|done]. simpl in *.
  destruct (N.leb_spec (expires_at l) now); [|done]. by rewrite (proj2 (N.leb_le _ _)) by lia.
Qed.

Lemma recall_at_spec now s t m :
  recall_at ttl now s t m =
  match live now (m !! s) with
  | None => (None, delete s m)
  | Some l => (denied_tools l !! t, <[s := mkSessionLedger (now + ttl) (denied_tools l)]> m)
  end.
Proof.
  unfold recall_at, live. destruct (m !! s) as [l|] eqn:E; [|by f_equal; symmetry; apply delete_id].
  by destruct (expires_at l <=? now)%N.
Qed.

Lemma remember_at_lookup later s t r m s' :
  remember_at ttl later s t r m !! s' =
  if decide (s' = s) then
    Some (mkSessionLedger (later + ttl)
      (let tools := denied_tools (default (mkSessionLedger (later + ttl) ∅) (m !! s)) in
       match tools !! t with Some _ => tools | None => <[t := r]> tools end))
  else m !! s'.
Proof.
  unfold remember_at. rewrite lookup_insert. repeat case_decide; congruence.
Qed.

(** One use: the same answer, and the states still agree. *)
Lemma do_use_refines now u m (st : SessionId → option SessionLedger) :
  (now ≤ use_start u ≤ use_end u)%N →
  (∀ s, agree now (m !! s) (st s)) →
  let '(a, m') := do_use u m in
  (∀ s, use_session u = Some s → a = (spec_use u s (st s)).1)
  ∧ ∀ s, agree (use_end u) (m' !! s) ((spec_use u s (st s)).2).
Proof.
  intros Ht Hag. destruct u as [t0 s0 tool|t0 t1 s0 tool r|t0]; cbn [do_use use_session use_end use_start] in *.
  - rewrite recall_at_spec. pose proof (Hag s0 t0 ltac:(lia)) as Hl. rewrite Hl.
    destruct (live t0 (st s0)) as [l|] eqn:El; (split; [intros s [= <-]|intros s]); cbn [spec_use].
    + by rewrite decide_True, El.
    + rewrite lookup_insert. repeat case_decide; simplify_eq; try done.
      * rewrite El. apply agree_refl.
      * eapply agree_later; [|apply Hag]. lia.
    + by rewrite decide_True, El.
    + case_decide as Hs.
      * subst. rewrite El, lookup_delete_eq. apply agree_refl.
      * rewrite lookup_delete_ne by done. eapply agree_later; [|apply Hag]. lia.
  - rewrite recall_at_spec. pose proof (Hag s0 t0 ltac:(lia)) as Hl. rewrite Hl.
    destruct (live t0 (st s0)) as [l|] eqn:El; [destruct (denied_tools l !! tool) as [r0|] eqn:Ed|];
      (split; [intros s [= <-]|intros s]); cbn [spec_use];
      try (by rewrite decide_True by done; rewrite ?El, ?Ed).
    + rewrite lookup_insert. repeat case_decide; simplify_eq; try done.
      * rewrite El, Ed. apply agree_refl.
      * eapply agree_later; [|apply Hag]. lia.
    + rewrite remember_at_lookup, lookup_insert_eq. cbn [from_option id denied_tools]. rewrite Ed.
      repeat case_decide; simplify_eq; try done.
      * rewrite El, Ed. apply agree_refl.
      * rewrite lookup_insert_ne by congruence. eapply agree_later; [|apply Hag]. lia.
    + rewrite remember_at_lookup, lookup_delete_eq. cbn [from_option id denied_tools]. rewrite lookup_empty.
      repeat case_decide; simplify_eq; try done.
      * rewrite El. apply agree_refl.
      * rewrite lookup_delete_ne by congruence. eapply agree_later; [|apply Hag]. lia.
  - split; [done|]. intros s. cbn [spec_use].
    assert (agree t0 (prune_at t0 m !! s) (m !! s)) as Hp.
    { unfold prune_at. intros t Hle. rewrite map_lookup_filter. destruct (m !! s) as [l|]; [|done].
      simpl. case_guard as Hg; [done|]. simpl. by rewrite (proj2 (N.leb_le _ _)) by lia. }
    intros t Hle. rewrite (Hp t Hle). apply (Hag s t). lia.
Qed.

Lemma do_uses_refine us now m st :
  monotone now us → (∀ s, agree now (m !! s) (st s)) →
  (do_uses us m).1 = spec_uses us st.
Proof.
  revert now m st. induction us as [|u us IH]; intros now m st Hm Hag; [done|].
  destruct Hm as [Ht Hm]. cbn [do_uses spec_uses].
  pose proof (do_use_refines now u m st Ht Hag) as H. destruct (do_use u m) as [a m1] eqn:Eu.
  destruct H as [Ha Hag']. specialize (IH _ _ _ Hm Hag').
  destruct (do_uses us m1) as [answers m2]. cbn [fst] in *. f_equal; [|done].
  destruct u as [| |]; cbn [use_session] in *; [by apply Ha..|].
  cbn [do_use] in Eu. congruence.
Qed.


(** Every use of [s] comes before the deadline the previous one set. *)
Fixpoint warm (s : SessionId) (deadline : N) (us : list use) : Prop :=
  match us with
  | [] => True
  | u :: us' =>
      if decide (use_session u = Some s) then
        (use_start u < deadline)%N ∧ warm s (use_start u + ttl) us'
      else warm s deadline us'
  end.

Definition untouched (s : SessionId) (u : use) : Prop := use_session u ≠ Some s.

Lemma spec_use_other u s o : untouched s u → (spec_use u s o).2 = o.
Proof.
  unfold untouched. destruct u as [now s' t|now later s' t r|now]; cbn [use_session spec_use];
    intros Hu; try done; by rewrite decide_False by congruence.
Qed.

(** A session that holds a denial, with a known lower bound on its expiry. *)
Definition holds (o : option SessionLedger) (t : bytes) (r : DenyReason) (deadline : N) : Prop :=
  ∃ l, o = Some l ∧ denied_tools l !! t = Some r ∧ (deadline ≤ expires_at l)%N.

Lemma spec_use_holds u s o t r deadline :
  (use_start u ≤ use_end u)%N → holds o t r deadline →
  use_session u = Some s → (use_start u < deadline)%N →
  holds (spec_use u s o).2 t r (use_start u + ttl).
Proof.
  intros Hle (l & -> & Ht & Hd) Hu Hlt.
  destruct u as [now s' t'|now later s' t' r'|now]; cbn [use_session use_start use_end spec_use] in *;
    simplify_eq; try done; rewrite decide_True by done; cbn [live];
    rewrite (proj2 (N.leb_gt _ _)) by lia.
  - eexists. split; [done|]. split; [done|simpl; lia].
  - destruct (denied_tools l !! t') as [r0|] eqn:E; eexists; (split; [done|]); simpl;
      (split; [|lia]); [done|]. by rewrite lookup_insert_ne by congruence.
Qed.

(** The answer to a question after some uses. *)
Fixpoint spec_final (us : list use) (s : SessionId) (o : option SessionLedger) :
    option SessionLedger :=
  match us with [] => o | u :: us' => spec_final us' s (spec_use u s o).2 end.

Lemma spec_uses_last us now s t st :
  last (spec_uses (us ++ [Ask now s t]) st) = Some (spec_use (Ask now s t) s (spec_final us s (st s))).1.
Proof.
  revert st. induction us as [|u us IH]; intros st; [done|].
  cbn [app spec_uses spec_final]. specialize (IH (λ s, (spec_use u s (st s)).2)). cbn [spec_use] in IH |- *.
  destruct (spec_uses (us ++ [Ask now s t]) _) eqn:E; [by destruct us|]. done.
Qed.

(** The deadline the uses of [s] leave. *)
Definition deadline_after (s : SessionId) (deadline : N) (us : list use) : N :=
  foldl (λ d u, if decide (use_session u = Some s) then use_start u + ttl else d)%N deadline us.

Lemma spec_final_holds us s t r now deadline o :
  monotone now us → warm s deadline us → holds o t r deadline →
  ∀ ask, (ask < deadline_after s deadline us)%N →
  (spec_use (Ask ask s t) s (spec_final us s o)).1 = Some r.
Proof.
  revert now deadline o. induction us as [|u us IH]; intros now deadline o Hm Hw Ho ask Hask.
  - destruct Ho as (l & -> & Ht & Hd). cbn [spec_final spec_use]. rewrite decide_True by done.
    cbn [live]. cbn in Hask. by rewrite (proj2 (N.leb_gt _ _)) by lia.
  - destruct Hm as [Hu Hm]. unfold deadline_after in Hask. cbn [warm spec_final foldl] in *.
    destruct (decide (use_session u = Some s)) as [Hs|Hs].
    + destruct Hw as [Hlt Hw]. eapply IH; [done|done| |done]. eapply spec_use_holds; [lia|done..].
    + rewrite (spec_use_other u s o Hs). by eapply IH.
Qed.

Lemma spec_final_untouched us s o : Forall (untouched s) us → spec_final us s o = o.
Proof.
  induction 1 as [|u us Hu _ IH]; [done|]. cbn [spec_final]. by rewrite spec_use_other.
Qed.

Lemma spec_final_app us us' s o : spec_final (us ++ us') s o = spec_final us' s (spec_final us s o).
Proof. revert o. induction us as [|u us IH]; intros o; [done|]. apply IH. Qed.

Lemma monotone_app us us' now :
  monotone now (us ++ us') → ∃ t, (now ≤ t)%N ∧ monotone t us'.
Proof.
  revert now. induction us as [|u us IH]; intros now Hm; [eauto using N.le_refl|].
  destruct Hm as [Hu Hm]. destruct (IH _ Hm) as (t & Ht & Hm'). exists t. split; [lia|done].
Qed.

Lemma monotone_prefix us us' now : monotone now (us ++ us') → monotone now us.
Proof.
  revert now. induction us as [|u us IH]; intros now Hm; [done|].
  destruct Hm as [Hu Hm]. split; [done|]. by apply IH.
Qed.

(** After a denial the tool is in the ledger, which expires no earlier than a
    time-to-live from the question and no later than one from the denial. *)
Lemma deny_holds now later s t r o :
  (now ≤ later)%N →
  ∃ l r', (spec_use (AskThenDeny now later s t r) s o).2 = Some l
          ∧ denied_tools l !! t = Some r'
          ∧ (now + ttl ≤ expires_at l ≤ later + ttl)%N.
Proof.
  intros Hle. cbn [spec_use]. rewrite decide_True by done. destruct (live now o) as [l|].
  - destruct (denied_tools l !! t) as [r0|] eqn:E; do 2 eexists; (split; [done|]); simpl.
    + split; [done|lia].
    + split; [by rewrite lookup_insert_eq|lia].
  - do 2 eexists. split; [done|]. simpl. split; [by rewrite lookup_singleton_eq|lia].
Qed.

(** The quarantine slides. A tool denied in a session is still denied at any later
    question as long as the session is used again before each time-to-live runs out,
    whatever the uses; left alone for a whole time-to-live, it is forgotten. *)
Theorem quarantine_slides us1 now later s t r us2 ask :
  monotone 0 (us1 ++ AskThenDeny now later s t r :: us2 ++ [Ask ask s t]) →
  let answers := (do_uses (us1 ++ AskThenDeny now later s t r :: us2 ++ [Ask ask s t]) ∅).1 in
  (warm s (now + ttl) us2 → (ask < deadline_after s (now + ttl) us2)%N →
     ∃ r', last answers = Some (Some r'))
  ∧ (Forall (untouched s) us2 → (later + ttl ≤ ask)%N → last answers = Some None).
Proof.
  intros Hm. cbv zeta. rewrite (do_uses_refine _ 0%N _ (λ _, None)); [|done|intros; apply agree_refl].
  destruct (monotone_app _ _ _ Hm) as (t0 & _ & Hm'). destruct Hm' as [Hu Hm2].
  apply monotone_prefix in Hm2. cbn [use_start use_end] in *.
  change (AskThenDeny now later s t r :: us2 ++ [Ask ask s t])
    with ((AskThenDeny now later s t r :: us2) ++ [Ask ask s t]).
  rewrite app_assoc, spec_uses_last, spec_final_app. cbn [spec_final].
  destruct (deny_holds now later s t r (spec_final us1 s None) ltac:(lia)) as (l & r' & -> & Hl & He).
  split.
  - intros Hw Hask. exists r'. f_equal. eapply spec_final_holds; [done|done| |done].
    exists l. split_and!; [done|done|lia].
  - intros Hf Hask. rewrite spec_final_untouched by done. cbn [spec_use].
    rewrite decide_True by done. cbn [live]. by rewrite (proj2 (N.leb_le _ _)) by lia.
Qed.
End uses.

(** ** Witnesses *)

Definition demo_session : SessionId := mkSessionId 7%N.


Lemma quarantine_slides_witness :
  ∃ r', last (do_uses 10 ([] ++ AskThenDeny 0 1 demo_session (lit "rm") (lit "no") ::
                [Ask 9 demo_session (lit "ls")] ++ [Ask 18 demo_session (lit "rm")])%N ∅).1 =
        Some (Some r').
Proof.
  apply (quarantine_slides 10%N [] 0 1 demo_session (lit "rm") (lit "no")
           [Ask 9 demo_session (lit "ls")]%N 18).
  - simpl. lia.
  - vm_compute. done.
  - vm_compute. done.
Defined.

(** ** Denying without asking first *)

(** [remember] does not look at the expiry: on a session whose time is up and which the
    pruner has not reached, a denial brings the forgotten ones back. *)
Lemma remember_revives :
  let m := remember_at 10 0 demo_session (lit "rm") (lit "no") ∅ in
  let lapsed := remember_at 10 100 demo_session (lit "ls") (lit "no") m in
  let pruned := remember_at 10 100 demo_session (lit "ls") (lit "no") (prune_at 100 m) in
  (recall_at 10 100 demo_session (lit "rm") lapsed).1 = Some (lit "no")
  ∧ (recall_at 10 100 demo_session (lit "rm") pruned).1 = None.
Proof. vm_compute. done. Qed.

(** ** The interface, between two clock ticks *)

Section instant.
Context (ttl now : N) (Httl : (0 < ttl)%N).

Definition all_live (m : Sessions) : Prop := map_Forall (λ _ l, now < expires_at l)%N m.

(** A memory none of whose ledgers has run out at [now]. *)
Record memory_at := mkMemoryAt { ma_sessions : Sessions; ma_live : all_live ma_sessions }.

Lemma recall_live s t m : all_live m → all_live (recall_at ttl now s t m).2.
Proof using Httl.
  intros Hm. rewrite recall_at_spec. destruct (live now (m !! s)) as [l|]; simpl.
  - apply map_Forall_insert_2; [simpl; lia|done].
  - by apply map_Forall_delete.
Qed.

Lemma remember_live s t r m : all_live m → all_live (remember_at ttl now s t r m).
Proof using Httl. intros Hm. apply map_Forall_insert_2; [simpl; lia|done]. Qed.

Definition memory_port : SessionMemory memory_at := {|
  recall s t w := ((recall_at ttl now s t (ma_sessions w)).1,
                   mkMemoryAt _ (recall_live s t _ (ma_live w)));
  remember s t r w := (tt, mkMemoryAt _ (remember_live s t r _ (ma_live w)));
|}.

(** The denial the ledger holds. *)
Definition ledger_entry (w : memory_at) (s : SessionId) (t : bytes) : option DenyReason :=
  l ← ma_sessions w !! s; denied_tools l !! t.

Lemma memory_recall s t w :
  (@recall _ memory_port s t w).1 = ledger_entry w s t
  ∧ ∀ s' t', ledger_entry (@recall _ memory_port s t w).2 s' t' = ledger_entry w s' t'.
Proof using Httl.
  destruct w as [m Hm]. cbn [recall memory_port fst snd ma_sessions]. unfold ledger_entry.
  cbn [ma_sessions]. rewrite recall_at_spec. unfold live.
  destruct (m !! s) as [l|] eqn:E; cbn [fst snd mbind option_bind].
  - pose proof (Hm s l E) as Hl. rewrite (proj2 (N.leb_gt _ _)) by done.
    split; [done|]. intros s' t'. cbn [snd]. rewrite lookup_insert. case_decide as Hs; [|done].
    subst. by rewrite E.
  - split; [done|]. intros s' t'. rewrite lookup_delete. case_decide as Hs; [|done].
    subst. by rewrite E.
Qed.

Lemma memory_remember s t r w s' t' :
  ledger_entry (@remember _ memory_port s t r w).2 s' t' =
  if decide (s' = s ∧ t' = t) then Some (default r (ledger_entry w s t)) else ledger_entry w s' t'.
Proof using Httl.
  destruct w as [m Hm]. cbn [remember memory_port snd]. unfold ledger_entry. cbn [ma_sessions].
  rewrite remember_at_lookup. destruct (decide (s' = s)) as [->|Hs].
  - cbn [mbind option_bind denied_tools]. destruct (m !! s) as [l|]; cbn [from_option id denied_tools mbind option_bind].
    + destruct (denied_tools l !! t) as [r0|] eqn:E.
      * case_decide as Ht; [destruct Ht as [_ ->]; by rewrite E|done].
      * rewrite lookup_insert. repeat case_decide; naive_solver.
    + rewrite lookup_empty, lookup_insert. repeat case_decide; naive_solver.
  - case_decide; naive_solver.
Qed.

(** The ledger implements the interface the inspector is proved against. *)
Definition memory_laws : @SessionMemoryLaws memory_at memory_port :=
  @Build_SessionMemoryLaws memory_at memory_port ledger_entry memory_recall memory_remember.
End instant.
