(* ===== verification/Inspector.v ===== *)
(** * Inspector: the inspection use case
    (crates/agate-proxy/src/application/inspection)

    [Inspector] drives a fragment through the run's state machine and then through
    the replay guard, the URL guard, the policy and the audit sink, and judges a
    request before it is forwarded.  Everything is written against the port classes. *)
From stdpp Require Import options.
From S2P Require Import Prelude Text Json Run Ssrf AgUi Ports SessionMemory.

(** ** Actions and settings *)

Inductive InspectionAction :=
| Forward
| ForwardTransformed (event : AgentEvent)
| Hold (id : ToolCallId)
| FlushCall (id : ToolCallId)
| DropCall (id : ToolCallId) (reason : DenyReason)
| Drop (reason : DenyReason)
| Action_Terminate (reason : DenyReason).

Inductive MalformedEventMode := Mode_Forward | Mode_Drop | Mode_Terminate.

Record ResponseBudget := mkResponseBudget { max_events : N; max_bytes : N }.

Definition unlimited : ResponseBudget := mkResponseBudget 0 0.

Definition exceeded (b : ResponseBudget) (events bytes_ : N) : option bytes :=
  if negb (max_events b =? 0)%N && (max_events b <? events)%N then
    Some (lit "response event budget exceeded")
  else if negb (max_bytes b =? 0)%N && (max_bytes b <? bytes_)%N then
    Some (lit "response byte budget exceeded")
  else None.

Record InspectionSettings := mkInspectionSettings {
  budgets : Budgets;
  malformed_mode : MalformedEventMode;
  response_budget : ResponseBudget;
  max_frame_bytes : N;
}.

Inductive RequestDecision := Request_Allow | Request_Reject (reason : DenyReason).

Definition REQUEST_ORIGIN : bytes := lit "request".

Definition url_bearing_text (event : AgentEvent) : option bytes :=
  match event with
  | Event_ToolCall _ _ arguments => Some arguments
  | Event_MessageChunk _ text => Some text
  | Event_ToolResult _ _ content => Some content
  | Event_StateMutation _ | Event_Lifecycle _ | Event_Opaque _ => None
  end.

Definition tool_name (event : AgentEvent) : option bytes :=
  match event with
  | Event_ToolCall _ name _ => Some name
  | Event_MessageChunk _ _ | Event_ToolResult _ _ _ | Event_StateMutation _
  | Event_Lifecycle _ | Event_Opaque _ => None
  end.

Section inspector.
Context (url_parse : bytes → option Url).
Context {W : Type} `{!PolicyPort W, !AuditSink W, !HostResolver W, !SessionMemory W}.

Definition record_deny (context : InspectionContext) (event : AgentEvent) (reason : DenyReason) :
    Eff W unit :=
  record_event context event (Deny reason).

Definition remember_tool_denial (context : InspectionContext) (event : AgentEvent)
    (reason : DenyReason) : Eff W unit :=
  match tool_name event with
  | Some name => remember (ctx_session context) name reason
  | None => mret tt
  end.

(** [if let Some(name) = ... && let Some(reason) = ...]: the ledger is asked only for
    an event that names a tool. *)
Definition recall_tool (context : InspectionContext) (event : AgentEvent) :
    Eff W (option DenyReason) :=
  match tool_name event with
  | Some name => recall (ctx_session context) name
  | None => mret None
  end.

Definition screen_urls (event : AgentEvent) : Eff W (option DenyReason) :=
  match url_bearing_text event with
  | Some text => first_disallowed_url url_parse text
  | None => mret None
  end.

Definition judge (context : InspectionContext) (event : AgentEvent) :
    Eff W (Verdict AgentEvent) :=
  replayed ← recall_tool context event;
  match replayed with
  | Some reason => _ ← record_deny context event reason; mret (Deny reason)
  | None =>
      url ← screen_urls event;
      match url with
      | Some reason =>
          _ ← record_deny context event reason;
          _ ← remember_tool_denial context event reason;
          mret (Deny reason)
      | None =>
          verdict ← decide_event context event;
          _ ← record_event context event verdict;
          _ ← match verdict with
              | Deny reason => remember_tool_denial context event reason
              | _ => mret tt
              end;
          mret verdict
      end
  end.

(** The action a verdict means for an assembled call and for a standalone event. *)
Definition call_action (id : ToolCallId) (verdict : Verdict AgentEvent) : InspectionAction :=
  match verdict with
  | Allow | Transform _ | Buffer => FlushCall id
  | Deny reason => DropCall id reason
  | Terminate reason => Action_Terminate reason
  end.

Definition ready_action (verdict : Verdict AgentEvent) : InspectionAction :=
  match verdict with
  | Allow | Buffer => Forward
  | Transform replacement => ForwardTransformed replacement
  | Deny reason => Drop reason
  | Terminate reason => Action_Terminate reason
  end.

Definition authorize_call (context : InspectionContext) (id : ToolCallId) (event : AgentEvent) :
    Eff W InspectionAction :=
  verdict ← judge context event; mret (call_action id verdict).

(** [Inspector::inspect]; the run is passed and returned. *)
Definition inspect (run : Run) (context : InspectionContext) (fragment : Fragment) :
    Eff W (InspectionAction * Run) :=
  let '(outcome, run') := Run_inspect run fragment in
  action ← match outcome with
           | Buffering id => mret (Hold id)
           | Reject reason => mret (Action_Terminate reason)
           | Ready event => verdict ← judge context event; mret (ready_action verdict)
           | ResolvedCall id event => authorize_call context id event
           end;
  mret (action, run').

(** ** The request leg *)

Definition reject_reason (context : InspectionContext) (event : AgentEvent) :
    Eff W (option DenyReason) :=
  verdict ← decide_event context event;
  match verdict with
  | Allow | Buffer => mret None
  | Deny reason | Terminate reason =>
      _ ← record_deny context event reason; mret (Some reason)
  | Transform _ =>
      let reason := lit "request content matched a redaction rule" in
      _ ← record_deny context event reason; mret (Some reason)
  end.

(** The events an offered tool and a text are judged as; the origin is not blank. *)
Definition offered_event (name : bytes) : AgentEvent :=
  Event_ToolCall (mkToolCallId REQUEST_ORIGIN) name [].

Definition text_event (text : bytes) : AgentEvent :=
  Event_MessageChunk (mkMessageId REQUEST_ORIGIN) text.

Definition screen_text (context : InspectionContext) (text : bytes) : Eff W (option DenyReason) :=
  let event := text_event text in
  url ← first_disallowed_url url_parse text;
  match url with
  | Some reason => _ ← record_deny context event reason; mret (Some reason)
  | None => reject_reason context event
  end.

Fixpoint screen_tools (context : InspectionContext) (names : list bytes) :
    Eff W (option DenyReason) :=
  match names with
  | [] => mret None
  | name :: rest =>
      let event := offered_event name in
      replayed ← recall (ctx_session context) name;
      match replayed with
      | Some reason => _ ← record_deny context event reason; mret (Some reason)
      | None =>
          rejected ← reject_reason context event;
          match rejected with
          | Some reason => _ ← remember (ctx_session context) name reason; mret (Some reason)
          | None => screen_tools context rest
          end
      end
  end.

Fixpoint screen_texts (context : InspectionContext) (texts : list bytes) :
    Eff W (option DenyReason) :=
  match texts with
  | [] => mret None
  | text :: rest =>
      rejected ← screen_text context text;
      match rejected with
      | Some reason => mret (Some reason)
      | None => screen_texts context rest
      end
  end.

Definition inspect_request (context : InspectionContext) (request : RequestContent) :
    Eff W RequestDecision :=
  tools ← screen_tools context (offered_tools request);
  match tools with
  | Some reason => mret (Request_Reject reason)
  | None =>
      texts ← screen_texts context (user_messages request ++ hidden_fields request);
      mret (match texts with
            | Some reason => Request_Reject reason
            | None => Request_Allow
            end)
  end.
End inspector.

(** ** The replay ledger *)

Section ledger.
Context (url_parse : bytes → option Url).
Context {W : Type} `{!PolicyPort W, !AuditSink W, !HostResolver W, !SessionMemory W,
  !SessionMemoryLaws W, !PortFrames W}.
#[local] Set Default Proof Using "Type*".

(** A denial in the ledger stays, with its reason. *)
Definition grows {A} (m : Eff W A) : Prop :=
  ∀ w s t r, quarantined w s t = Some r → quarantined (m w).2 s t = Some r.

Lemma grows_ret {A} (a : A) : grows (mret a).
Proof. by intros w s t r. Qed.

Lemma grows_bind {A B} (m : Eff W A) (f : A → Eff W B) :
  grows m → (∀ a, grows (f a)) → grows (m ≫= f).
Proof.
  intros Hm Hf w s t r Hq. unfold mbind, eff_bind. pose proof (Hm w s t r Hq) as H.
  destruct (m w) as [a w']. by apply Hf.
Qed.

Lemma grows_keeps {A} (m : Eff W A) : keeps_ledger m → grows m.
Proof. intros Hk w s t r Hq. by rewrite Hk. Qed.

Lemma grows_recall s t : grows (recall s t).
Proof. intros w s' t' r Hq. by rewrite (proj2 (recall_spec s t w)). Qed.

Lemma grows_remember s t x : grows (remember s t x).
Proof.
  intros w s' t' r Hq. rewrite remember_spec. case_decide as H; [|done].
  destruct H as [-> ->]. by rewrite Hq.
Qed.

Lemma keeps_first_disallowed ts : keeps_ledger (first_disallowed url_parse ts).
Proof.
  induction ts as [|t ts IH]; intros w s n; simpl; [done|].
  destruct (classify_url url_parse t) as [|r|h]; [apply IH|done|].
  unfold mbind, eff_bind. pose proof (resolve_frame h w s n) as Hr.
  destruct (resolve h w) as [ips w']. simpl in Hr. rewrite <- Hr.
  destruct (first_blocked ips); [done|apply IH].
Qed.

(** Compositions of port calls only add to the ledger. *)
Ltac ledger :=
  repeat first
    [ progress intros
    | apply grows_ret | apply grows_recall | apply grows_remember
    | apply grows_keeps; first [apply decide_frame | apply record_frame | apply keeps_first_disallowed]
    | apply grows_bind
    | case_match ].

Lemma grows_judge ctx e : grows (judge url_parse ctx e).
Proof.
  unfold judge, recall_tool, screen_urls, record_deny, remember_tool_denial, first_disallowed_url.
  ledger.
Qed.

Lemma grows_reject_reason ctx e : grows (reject_reason ctx e).
Proof. unfold reject_reason, record_deny. ledger. Qed.

Lemma grows_screen_tools ctx names : grows (screen_tools ctx names).
Proof.
  induction names as [|n ns IH]; cbn [screen_tools]; unfold record_deny; [ledger|].
  apply grows_bind; [apply grows_recall|]. intros [r|]; [ledger|].
  apply grows_bind; [apply grows_reject_reason|]. intros [r|]; [ledger|done].
Qed.

Lemma grows_screen_texts ctx texts : grows (screen_texts url_parse ctx texts).
Proof.
  induction texts as [|n ns IH]; cbn [screen_texts]; [ledger|].
  apply grows_bind; [|intros [r|]; [ledger|done]].
  unfold screen_text, first_disallowed_url, record_deny.
  apply grows_bind; [ledger|]. intros [r|]; [ledger|apply grows_reject_reason].
Qed.

(** One thing the proxy does on behalf of a session. *)
Inductive activity :=
| Judge (ctx : InspectionContext) (event : AgentEvent)
| Request (ctx : InspectionContext) (request : RequestContent).

Definition act (a : activity) : Eff W unit :=
  match a with
  | Judge ctx event => _ ← judge url_parse ctx event; mret tt
  | Request ctx request => _ ← inspect_request url_parse ctx request; mret tt
  end.

Fixpoint act_all (l : list activity) : Eff W unit :=
  match l with
  | [] => mret tt
  | a :: l' => _ ← act a; act_all l'
  end.

Lemma grows_act a : grows (act a).
Proof.
  destruct a; apply grows_bind; try (intros; apply grows_ret); [apply grows_judge|].
  unfold inspect_request. apply grows_bind; [apply grows_screen_tools|].
  intros [r|]; [apply grows_ret|]. apply grows_bind; [apply grows_screen_texts|].
  intros; apply grows_ret.
Qed.

Lemma grows_act_all l : grows (act_all l).
Proof.
  induction l as [|a l IH]; [apply grows_ret|]. apply grows_bind; [apply grows_act|done].
Qed.

(** A quarantined tool is refused before anything else is asked. *)
Lemma judge_quarantined ctx id name args w r :
  quarantined w (ctx_session ctx) name = Some r →
  (judge url_parse ctx (Event_ToolCall id name args) w).1 = Deny r.
Proof.
  intros Hq. unfold judge, recall_tool. cbn [tool_name]. unfold mbind, eff_bind.
  destruct (recall_spec (ctx_session ctx) name w) as [Hr _].
  destruct (recall (ctx_session ctx) name w) as [o w']. simpl in Hr. subst o. rewrite Hq.
  by destruct (record_deny ctx _ r w').
Qed.

(** A denied call leaves its tool in the ledger, under the reason given. *)
Lemma judge_deny_quarantines ctx id name args w r w' :
  judge url_parse ctx (Event_ToolCall id name args) w = (Deny r, w') →
  quarantined w' (ctx_session ctx) name = Some r.
Proof.
  unfold judge, recall_tool, screen_urls, record_deny, remember_tool_denial.
  cbn [tool_name url_bearing_text]. unfold mbind, eff_bind, mret, eff_ret.
  destruct (recall_spec (ctx_session ctx) name w) as [Hr Hk].
  destruct (recall (ctx_session ctx) name w) as [o w1]. simpl in Hr, Hk. subst o.
  destruct (quarantined w (ctx_session ctx) name) as [r0|] eqn:Hq.
  { match goal with |- context [record_event ?c ?e ?v w1] =>
      pose proof (record_frame c e v w1) as Hf; destruct (record_event c e v w1) as [[] w2] end.
    intros [= -> <-]. simpl in Hf. by rewrite Hf, Hk. }
  pose proof (keeps_first_disallowed (tokens args) w1) as Hu. unfold first_disallowed_url.
  destruct (first_disallowed url_parse (tokens args) w1) as [[ru|] w2]; simpl in Hu.
  - match goal with |- context [record_event ?c ?e ?v w2] =>
      pose proof (record_frame c e v w2) as Hf; destruct (record_event c e v w2) as [[] w3] end.
    simpl in Hf. pose proof (remember_spec (ctx_session ctx) name ru w3) as Hm.
    destruct (remember (ctx_session ctx) name ru w3) as [[] w4]. intros [= <- <-]. simpl in Hm.
    rewrite Hm, decide_True by done. by rewrite Hf, Hu, Hk, Hq.
  - match goal with |- context [decide_event ?c ?e w2] =>
      pose proof (decide_frame c e w2) as Hd; destruct (decide_event c e w2) as [v w3] end.
    match goal with |- context [record_event ?c ?e ?v w3] =>
      pose proof (record_frame c e v w3) as Hf; destruct (record_event c e v w3) as [[] w4] end.
    simpl in Hd, Hf. destruct v as [|rv|e'| |rt]; try (by intros [=]).
    pose proof (remember_spec (ctx_session ctx) name rv w4) as Hm.
    destruct (remember (ctx_session ctx) name rv w4) as [[] w5]. intros [= <- <-]. simpl in Hm.
    rewrite Hm, decide_True by done. by rewrite Hf, Hd, Hu, Hk, Hq.
Qed.

(** Once a call of a tool is denied in a session, whether by the policy, the URL
    guard or the ledger itself, every later call of the same tool in that session is
    denied with the same reason, whatever its id and arguments, after any number of
    other judgements and requests of any session. *)
Theorem denied_tool_stays_denied ctx id name args w r w' l ctx' id' args' :
  judge url_parse ctx (Event_ToolCall id name args) w = (Deny r, w') →
  ctx_session ctx' = ctx_session ctx →
  (judge url_parse ctx' (Event_ToolCall id' name args') (act_all l w').2).1 = Deny r.
Proof.
  intros Hj Hs. apply judge_quarantined. rewrite Hs. apply grows_act_all.
  by eapply judge_deny_quarantines.
Qed.
End ledger.

(** ** The audit trail *)

(** The trail an audit sink keeps: a record is one more entry at its end, and no other
    port writes it. *)
Class AuditSinkLaws (W : Type) `{!PolicyPort W, !AuditSink W, !HostResolver W, !SessionMemory W} := {
  trail : W → list (InspectionContext * AgentEvent * Verdict AgentEvent);
  record_appends ctx e v w : trail (record_event ctx e v w).2 = trail w ++ [(ctx, e, v)];
  decide_silent ctx e w : trail (decide_event ctx e w).2 = trail w;
  resolve_silent h w : trail (resolve h w).2 = trail w;
  recall_silent s t w : trail (recall s t w).2 = trail w;
  remember_silent s t r w : trail (remember s t r w).2 = trail w;
}.

Section audit.
Context (url_parse : bytes → option Url).
Context {W : Type} `{!PolicyPort W, !AuditSink W, !HostResolver W, !SessionMemory W,
  !AuditSinkLaws W}.
#[local] Set Default Proof Using "Type*".

Lemma first_disallowed_silent ts w : trail (first_disallowed url_parse ts w).2 = trail w.
Proof.
  revert w. induction ts as [|t ts IH]; intros w; simpl; [done|].
  destruct (classify_url url_parse t) as [|r|h]; [apply IH|done|].
  unfold mbind, eff_bind. pose proof (resolve_silent h w) as Hr.
  destruct (resolve h w) as [ips w']. simpl in Hr. rewrite <- Hr.
  destruct (first_blocked ips); [done|apply IH].
Qed.

(** Run the next port call of the goal and keep what it does to the trail. *)
Ltac call :=
  let step m w H := is_var w; pose proof H; destruct (m w); cbn [snd fst] in * in
  match goal with
  | |- context [recall ?s ?t ?w] => step (recall s t) w (recall_silent s t w)
  | |- context [remember ?s ?t ?r ?w] => step (remember s t r) w (remember_silent s t r w)
  | |- context [decide_event ?c ?e ?w] => step (decide_event c e) w (decide_silent c e w)
  | |- context [record_event ?c ?e ?v ?w] => step (record_event c e v) w (record_appends c e v w)
  | |- context [first_disallowed ?u ?ts ?w] =>
      step (first_disallowed u ts) w (first_disallowed_silent ts w)
  end.

Ltac run_calls :=
  unfold mbind, eff_bind, mret, eff_ret; cbv beta;
  repeat first
    [ call
    | match goal with |- context [match ?x with _ => _ end] => is_var x; destruct x end ];
  cbn [fst snd]; simplify_eq; try congruence.

Lemma judge_trail ctx e w :
  trail (judge url_parse ctx e w).2 = trail w ++ [(ctx, e, (judge url_parse ctx e w).1)].
Proof.
  unfold judge, recall_tool, screen_urls, record_deny, remember_tool_denial, first_disallowed_url.
  destruct (tool_name e), (url_bearing_text e); run_calls.
Qed.

Lemma reject_reason_trail ctx e w :
  trail (reject_reason ctx e w).2 =
  trail w ++ match (reject_reason ctx e w).1 with Some r => [(ctx, e, Deny r)] | None => [] end.
Proof. unfold reject_reason, record_deny. run_calls. all: by rewrite app_nil_r. Qed.

Lemma screen_text_trail ctx text w :
  trail (screen_text url_parse ctx text w).2 =
  trail w ++ match (screen_text url_parse ctx text w).1 with
             | Some r => [(ctx, text_event text, Deny r)]
             | None => []
             end.
Proof.
  unfold screen_text, first_disallowed_url, record_deny, mbind, eff_bind.
  pose proof (first_disallowed_silent (tokens text) w) as Hf.
  destruct (first_disallowed url_parse (tokens text) w) as [[r|] w1]; cbn [snd] in Hf; rewrite <- Hf.
  - pose proof (record_appends ctx (text_event text) (Deny r) w1) as Hr.
    by destruct (record_event ctx (text_event text) (Deny r) w1).
  - apply reject_reason_trail.
Qed.

(** A reason comes with one entry, for one of the events judged. *)
Definition one_denial (ctx : InspectionContext) (events : list AgentEvent) (w w' : W)
    (o : option DenyReason) : Prop :=
  match o with
  | Some r => ∃ e, e ∈ events ∧ trail w' = trail w ++ [(ctx, e, Deny r)]
  | None => trail w' = trail w
  end.

Lemma screen_tools_trail ctx names w :
  let '(o, w') := screen_tools ctx names w in
  one_denial ctx (offered_event <$> names) w w' o.
Proof.
  revert w. induction names as [|n ns IH]; intros w; [done|]. cbn [screen_tools].
  unfold mbind at 1, eff_bind at 1. pose proof (recall_silent (ctx_session ctx) n w) as Hr.
  destruct (recall (ctx_session ctx) n w) as [[r|] w1]; cbn [snd] in Hr.
  - unfold record_deny, mbind, eff_bind.
    pose proof (record_appends ctx (offered_event n) (Deny r) w1) as Ha.
    destruct (record_event _ _ _ w1) as [[] w2]. simpl in *. exists (offered_event n).
    split; [left|congruence].
  - unfold mbind at 1, eff_bind at 1. pose proof (reject_reason_trail ctx (offered_event n) w1) as Hj.
    destruct (reject_reason ctx (offered_event n) w1) as [[r|] w2]; cbn [fst snd] in Hj.
    + unfold mbind, eff_bind. pose proof (remember_silent (ctx_session ctx) n r w2) as Hm.
      destruct (remember (ctx_session ctx) n r w2) as [[] w3]. simpl in *. exists (offered_event n).
      split; [left|congruence].
    + specialize (IH w2). destruct (screen_tools ctx ns w2) as [[r|] w3]; simpl in *.
      * destruct IH as (e & He & ->). exists e. split; [by right|]. rewrite Hj, app_nil_r. congruence.
      * rewrite IH, Hj, app_nil_r. done.
Qed.

Lemma screen_texts_trail ctx texts w :
  let '(o, w') := screen_texts url_parse ctx texts w in
  one_denial ctx (text_event <$> texts) w w' o.
Proof.
  revert w. induction texts as [|t ts IH]; intros w; [done|]. cbn [screen_texts].
  unfold mbind at 1, eff_bind at 1. pose proof (screen_text_trail ctx t w) as Ht.
  destruct (screen_text url_parse ctx t w) as [[r|] w1]; cbn [fst snd] in Ht.
  - exists (text_event t). split; [left|done].
  - rewrite app_nil_r in Ht. specialize (IH w1).
    destruct (screen_texts url_parse ctx ts w1) as [[r|] w2]; simpl in *.
    + destruct IH as (e & He & ->). exists e. split; [by right|congruence].
    + congruence.
Qed.

Lemma inspect_request_trail ctx rc w :
  let '(decision, w') := inspect_request url_parse ctx rc w in
  match decision with
  | Request_Allow => trail w' = trail w
  | Request_Reject r =>
      ∃ e, e ∈ (offered_event <$> offered_tools rc)
               ++ (text_event <$> user_messages rc ++ hidden_fields rc)
           ∧ trail w' = trail w ++ [(ctx, e, Deny r)]
  end.
Proof.
  unfold inspect_request, mbind, eff_bind. pose proof (screen_tools_trail ctx (offered_tools rc) w) as Ht.
  destruct (screen_tools ctx (offered_tools rc) w) as [[r|] w1]; simpl in *.
  - destruct Ht as (e & He & ->). exists e. split; [by apply elem_of_app; left|done].
  - pose proof (screen_texts_trail ctx (user_messages rc ++ hidden_fields rc) w1) as Hx.
    destruct (screen_texts url_parse ctx _ w1) as [[r|] w2]; simpl in *; [|congruence].
    destruct Hx as (e & He & ->). exists e. split; [by apply elem_of_app; right|congruence].
Qed.

(** C19: no content decision goes unrecorded. Judging a complete event adds exactly one
    entry to the audit trail, the event with the very verdict the action carries out;
    a buffered or structurally rejected fragment adds none. On the request leg a
    rejection adds exactly one entry, a denial with the reason given to the client, and
    an allowed request adds none. *)
Theorem decisions_audited run ctx f rc w :
  (let '(action, _, w') := inspect url_parse run ctx f w in
   match (Run_inspect run f).1 with
   | Ready e => ∃ v, trail w' = trail w ++ [(ctx, e, v)] ∧ action = ready_action v
   | ResolvedCall id e => ∃ v, trail w' = trail w ++ [(ctx, e, v)] ∧ action = call_action id v
   | Buffering _ | Reject _ => trail w' = trail w
   end)
  ∧ (let '(decision, w') := inspect_request url_parse ctx rc w in
     match decision with
     | Request_Allow => trail w' = trail w
     | Request_Reject r =>
         ∃ e, e ∈ (offered_event <$> offered_tools rc)
                  ++ (text_event <$> user_messages rc ++ hidden_fields rc)
              ∧ trail w' = trail w ++ [(ctx, e, Deny r)]
     end).
Proof.
  split.
  - unfold inspect. destruct (Run_inspect run f) as [o run']. cbn [fst].
    destruct o as [e|id e|id|r]; unfold authorize_call, mbind, eff_bind; try done;
      pose proof (judge_trail ctx e w) as Hj; destruct (judge url_parse ctx e w) as [v w'];
      simpl in *; eauto.
  - apply inspect_request_trail.
Qed.
End audit.

(** ** The request leg *)

Section request_leg.
Context {W : Type} `{!PolicyPort W, !AuditSink W, !HostResolver W, !SessionMemory W,
  !SessionMemoryLaws W, !PortFrames W}.
Context (pol : InspectionContext → AgentEvent → Verdict AgentEvent).
Context (Hpol : ∀ ctx e w, (decide_event ctx e w).1 = pol ctx e).
#[local] Set Default Proof Using "Type*".

(** A verdict that lets request content through. *)
Definition passes (v : Verdict AgentEvent) : bool :=
  match v with Allow | Buffer => true | _ => false end.

Lemma reject_reason_spec ctx e w :
  (reject_reason ctx e w).1 = None ↔ passes (pol ctx e) = true.
Proof using Hpol.
  unfold reject_reason, record_deny, mbind, eff_bind. pose proof (Hpol ctx e w) as Hp.
  destruct (decide_event ctx e w) as [v w']. simpl in Hp. subst v.
  destruct (pol ctx e); simpl; try (by split);
    match goal with |- context [record_event ?c ?e ?v ?w] => destruct (record_event c e v w) end;
    simpl; split; done.
Qed.

Lemma reject_reason_none_keeps ctx e w s t :
  (reject_reason ctx e w).1 = None →
  quarantined (reject_reason ctx e w).2 s t = quarantined w s t.
Proof using PortFrames0.
  unfold reject_reason, record_deny, mbind, eff_bind. pose proof (decide_frame ctx e w s t) as Hf.
  destruct (decide_event ctx e w) as [v w']. simpl in Hf.
  destruct v; try done; match goal with |- context [record_event ?c ?e ?v ?w] =>
    destruct (record_event c e v w) end; done.
Qed.

Lemma screen_tools_spec ctx names w :
  (screen_tools ctx names w).1 = None ↔
  Forall (λ n, quarantined w (ctx_session ctx) n = None ∧ passes (pol ctx (offered_event n)) = true)
    names.
Proof using Hpol PortFrames0.
  revert w. induction names as [|n ns IH]; intros w; [by split; [constructor|]|].
  cbn [screen_tools]. rewrite Forall_cons. unfold mbind at 1, eff_bind at 1.
  destruct (recall_spec (ctx_session ctx) n w) as [Hr Hk].
  destruct (recall (ctx_session ctx) n w) as [o w1]. simpl in Hr, Hk. subst o.
  destruct (quarantined w (ctx_session ctx) n) as [r|] eqn:Hq.
  { unfold record_deny, mbind, eff_bind. destruct (record_event _ _ _ w1). simpl. naive_solver. }
  unfold mbind at 1, eff_bind at 1.
  pose proof (reject_reason_spec ctx (offered_event n) w1) as Hj.
  pose proof (reject_reason_none_keeps ctx (offered_event n) w1) as Hkeep.
  destruct (reject_reason ctx (offered_event n) w1) as [[r|] w2]; simpl in Hj, Hkeep.
  - unfold mbind, eff_bind. destruct (remember _ _ _ w2). simpl. naive_solver.
  - rewrite IH. assert (∀ m, quarantined w2 (ctx_session ctx) m = quarantined w (ctx_session ctx) m) as Heq.
    { intros m. by rewrite Hkeep, Hk. }
    setoid_rewrite Heq. naive_solver.
Qed.

Context (url_parse : bytes → option Url) (dns : bytes → list IpAddr).
Context (Hdns : ∀ h w, (resolve h w).1 = dns h).

Lemma screen_text_spec ctx t w :
  (screen_text url_parse ctx t w).1 = None ↔
  Forall (token_safe url_parse dns) (tokens t) ∧ passes (pol ctx (text_event t)) = true.
Proof using Hpol Hdns.
  unfold screen_text, first_disallowed_url, record_deny, mbind at 1, eff_bind at 1.
  pose proof (first_disallowed_spec url_parse dns Hdns (tokens t) w) as Hf.
  destruct (first_disallowed url_parse (tokens t) w) as [[r|] w1]; simpl in Hf.
  - unfold mbind, eff_bind. destruct (record_event _ _ _ w1). simpl. naive_solver.
  - rewrite reject_reason_spec. naive_solver.
Qed.

Lemma screen_texts_spec ctx ts w :
  (screen_texts url_parse ctx ts w).1 = None ↔
  Forall (λ t, Forall (token_safe url_parse dns) (tokens t)
               ∧ passes (pol ctx (text_event t)) = true) ts.
Proof using Hpol Hdns.
  revert w. induction ts as [|t ts IH]; intros w; [by split; [constructor|]|].
  cbn [screen_texts]. rewrite Forall_cons, <- (screen_text_spec ctx t w). unfold mbind, eff_bind.
  destruct (screen_text url_parse ctx t w) as [[r|] w1]; simpl; [naive_solver|].
  rewrite IH. naive_solver.
Qed.
End request_leg.

(** C20: a request is forwarded exactly when no tool it offers is quarantined in its
    session, the policy passes every offered tool, and every user, system and
    structured-field text passes both the URL guard and the policy; a text the policy
    would only redact is refused. *)
Theorem request_allowed_exact url_parse {W : Type} `{!PolicyPort W, !AuditSink W,
    !HostResolver W, !SessionMemory W, !SessionMemoryLaws W, !PortFrames W} pol dns ctx rc w :
  (∀ ctx e w, (decide_event ctx e w).1 = pol ctx e) →
  (∀ h w, (resolve h w).1 = dns h) →
  (inspect_request url_parse ctx rc w).1 = Request_Allow ↔
  Forall (λ n, quarantined w (ctx_session ctx) n = None
               ∧ passes (pol ctx (offered_event n)) = true) (offered_tools rc)
  ∧ Forall (λ t, Forall (token_safe url_parse dns) (tokens t)
                 ∧ passes (pol ctx (text_event t)) = true) (user_messages rc ++ hidden_fields rc).
Proof.
  intros Hpol Hdns. unfold inspect_request, mbind at 1, eff_bind at 1.
  rewrite <- (screen_tools_spec pol Hpol ctx (offered_tools rc) w).
  destruct (screen_tools ctx (offered_tools rc) w) as [[r|] w1]; cbn [fst].
  { simpl. naive_solver. }
  unfold mbind, eff_bind.
  rewrite <- (screen_texts_spec pol Hpol url_parse dns Hdns ctx (user_messages rc ++ hidden_fields rc) w1).
  destruct (screen_texts url_parse ctx _ w1) as [[r|] w2]; simpl; naive_solver.
Qed.

(** ** A world to run the pipeline in *)

Module DemoPorts.

(** The replay ledger at one instant, with a time-to-live of ten, and the trail. *)
Definition world : Type :=
  memory_at 0 * list (InspectionContext * AgentEvent * Verdict AgentEvent).

Lemma ttl_pos : (0 < 10)%N.
Proof. lia. Qed.

Definition memory : SessionMemory (memory_at 0) := memory_port 10 0 ttl_pos.

(** One tool is denied, everything else allowed. *)
Definition pol (ctx : InspectionContext) (e : AgentEvent) : Verdict AgentEvent :=
  match e with
  | Event_ToolCall _ name _ =>
      if bool_decide (name = lit "rm") then Deny (lit "tool is not permitted") else Allow
  | _ => Allow
  end.

#[export] Instance demo_policy : PolicyPort world := λ ctx e w, (pol ctx e, w).
#[export] Instance demo_audit : AuditSink world := λ ctx e v w, (tt, (w.1, w.2 ++ [(ctx, e, v)])).
#[export] Instance demo_dns_port : HostResolver world := λ h w, (demo_dns h, w).
#[export] Instance demo_memory : SessionMemory world := {|
  recall s t w := let '(a, m) := @recall _ memory s t w.1 in (a, (m, w.2));
  remember s t r w := let '(_, m) := @remember _ memory s t r w.1 in (tt, (m, w.2));
|}.

#[export] Instance demo_memory_laws : SessionMemoryLaws world.
Proof.
  refine {| quarantined w s t := ledger_entry 0 w.1 s t |}.
  - intros s t [m l]. exact (memory_recall 10 0 ttl_pos s t m).
  - intros s t r [m l] s' t'. exact (memory_remember 10 0 ttl_pos s t r m s' t').
Defined.

#[export] Instance demo_frames : PortFrames world.
Proof. by split. Qed.

#[export] Instance demo_trail : AuditSinkLaws world.
Proof. by refine {| trail w := w.2 |}. Defined.

Definition start : world := (mkMemoryAt 0 ∅ (map_Forall_empty _), []).
Definition ctx : InspectionContext := mkInspectionContext demo_session (mkRunId 1%N).
Definition call (args : bytes) : AgentEvent := Event_ToolCall demo_call (lit "rm") args.
End DemoPorts.

#[local] Existing Instances DemoPorts.demo_policy DemoPorts.demo_audit DemoPorts.demo_dns_port
  DemoPorts.demo_memory DemoPorts.demo_memory_laws DemoPorts.demo_frames DemoPorts.demo_trail.

Lemma denied_tool_stays_denied_witness :
  (judge demo_url_parse DemoPorts.ctx (DemoPorts.call (lit "other"))
     (act_all demo_url_parse [Judge DemoPorts.ctx (text_event (lit "hi"))]
        (judge demo_url_parse DemoPorts.ctx (DemoPorts.call []) DemoPorts.start).2).2).1
  = Deny (lit "tool is not permitted").
Proof.
  apply (denied_tool_stays_denied demo_url_parse DemoPorts.ctx demo_call (lit "rm") []
           DemoPorts.start (lit "tool is not permitted") _
           [Judge DemoPorts.ctx (text_event (lit "hi"))] DemoPorts.ctx demo_call (lit "other")).
  - reflexivity.
  - reflexivity.
Defined.

Lemma decisions_audited_witness :
  ∃ v, trail (inspect demo_url_parse demo_run DemoPorts.ctx
                (MessageChunk (mkMessageId (lit "m")) (lit "hi")) DemoPorts.start).2 =
       trail DemoPorts.start ++ [(DemoPorts.ctx, Event_MessageChunk (mkMessageId (lit "m")) (lit "hi"), v)]
       ∧ Forward = ready_action v.
Proof.
  exact (proj1 (decisions_audited demo_url_parse demo_run DemoPorts.ctx
           (MessageChunk (mkMessageId (lit "m")) (lit "hi"))
           (mkRequestContent None None [] [] []) DemoPorts.start)).
Defined.

Lemma request_allowed_exact_witness :
  (inspect_request demo_url_parse DemoPorts.ctx
     (mkRequestContent None None [lit "read"] [lit "see https://ok.test"] []) DemoPorts.start).1
  = Request_Allow.
Proof.
  apply (request_allowed_exact demo_url_parse DemoPorts.pol demo_dns DemoPorts.ctx
           (mkRequestContent None None [lit "read"] [lit "see https://ok.test"] []) DemoPorts.start).
  - intros c e w. reflexivity.
  - intros h w. reflexivity.
  - cbn [offered_tools user_messages hidden_fields app]. split; [by repeat constructor|].
    constructor; [|done]. split; [|reflexivity]. vm_compute tokens. constructor; [|done].
    intros url Hu. vm_compute in Hu. injection Hu as <-. split; [by right|].
    intros h [= <-]. vm_compute. split_and!; try done. by repeat constructor.
Defined.

(** The synthetic origin the request leg gives its events is a valid identifier. *)
Lemma request_origin_valid :
  ToolCallId_new REQUEST_ORIGIN = Ok (mkToolCallId REQUEST_ORIGIN)
  ∧ MessageId_new REQUEST_ORIGIN = Ok (mkMessageId REQUEST_ORIGIN).
Proof. by vm_compute. Qed.
