(* ===== verification/Quarantine.v ===== *)
(** * Quarantine: the replay ledger under concurrent runs and a running clock

    The inspector over the process-local ledger of [SessionMemory], shared by all runs of
    the process.  While one run waits for a port, the others, the pruner and the clock go
    on: a port call leaves the ledger in any state they can bring it to.  Each operation
    reads the clock before it has the lock, and so works with an instant that may be
    behind by what it waited for the lock, at most [lag]. *)
From stdpp Require Import options.
From S2P Require Import Prelude Text Ssrf Run AgUi Ports SessionMemory Inspector.

Section quarantine.
Context {W : Type} (clock : W → N) (sessions : W → Sessions) (ttl lag : N).

(** One operation under the lock, with the instant [now] it read. *)
Inductive ledger_op (now : N) (m : Sessions) : Sessions → Prop :=
| Op_recall s t : ledger_op now m (recall_at ttl now s t m).2
| Op_remember s t r : ledger_op now m (remember_at ttl now s t r m)
| Op_prune : ledger_op now m (prune_at now m).

(** Time passes, and at most one operation takes place. *)
Definition tick (w w' : W) : Prop :=
  (clock w ≤ clock w')%N
  ∧ (sessions w' = sessions w
     ∨ ∃ now, (now ≤ clock w' ∧ clock w ≤ now + lag)%N ∧ ledger_op now (sessions w) (sessions w')).

Definition evolves : W → W → Prop := rtc tick.

(** An effect during which anything may happen. *)
Definition evolving {A} (m : Eff W A) : Prop := ∀ w, evolves w (m w).2.

(** The ports of the inspector over the shared ledger: the ledger operations take place,
    after others did, at an instant read since the call; the other ports know nothing of
    the ledger. *)
Class SharedLedger `{!PolicyPort W, !AuditSink W, !HostResolver W, !SessionMemory W} : Prop := {
  decide_evolves ctx e : evolving (decide_event ctx e);
  record_evolves ctx e v : evolving (record_event ctx e v);
  resolve_evolves h : evolving (resolve h);
  recall_shared s t w : let '(r, w') := recall s t w in
    ∃ v now, evolves w v ∧ (clock w ≤ now ≤ clock w' ∧ clock v ≤ now + lag ∧ clock v ≤ clock w')%N
             ∧ recall_at ttl now s t (sessions v) = (r, sessions w');
  remember_shared s t r w : let '(_, w') := remember s t r w in
    ∃ v now, evolves w v ∧ (clock w ≤ now ≤ clock w' ∧ clock v ≤ now + lag ∧ clock v ≤ clock w')%N
             ∧ remember_at ttl now s t r (sessions v) = sessions w';
}.

(** The denial of a tool is in the ledger, which will not run out before [deadline]. *)
Definition kept (deadline : N) (s : SessionId) (t : bytes) (m : Sessions) : Prop :=
  ∃ l r, m !! s = Some l ∧ denied_tools l !! t = Some r ∧ (deadline ≤ expires_at l)%N.

Lemma recall_kept now s t m deadline :
  (now < deadline)%N → kept deadline s t m → ∃ r, (recall_at ttl now s t m).1 = Some r.
Proof.
  intros Hn (l & r & Hl & Ht & Hd). exists r. rewrite recall_at_spec, Hl. cbn [live].
  by rewrite (proj2 (N.leb_gt _ _)) by lia.
Qed.

Lemma recall_found now s t m r m' deadline :
  (deadline ≤ now + ttl)%N → recall_at ttl now s t m = (Some r, m') → kept deadline s t m'.
Proof.
  intros Hd. rewrite recall_at_spec. destruct (live now (m !! s)) as [l|]; [|done].
  intros [= Ht <-]. eexists _, r. by rewrite lookup_insert_eq.
Qed.

Lemma remember_kept now s t r m deadline :
  (deadline ≤ now + ttl)%N → kept deadline s t (remember_at ttl now s t r m).
Proof.
  intros Hd. unfold remember_at. set (l := default _ (m !! s)).
  destruct (denied_tools l !! t) as [r0|] eqn:E; eexists _, _; (split; [apply lookup_insert_eq|]);
    simpl; [done|]. split; [apply lookup_insert_eq|done].
Qed.

Lemma ledger_op_kept now m m' deadline s t :
  ledger_op now m m' → (now < deadline ≤ now + ttl)%N → kept deadline s t m → kept deadline s t m'.
Proof.
  intros Hop Hn (l & r & Hl & Ht & Hd). destruct Hop as [s' t'|s' t' r'|].
  - rewrite recall_at_spec. destruct (decide (s' = s)) as [->|Hne].
    + rewrite Hl. cbn [live]. rewrite (proj2 (N.leb_gt _ _)) by lia. simpl.
      eexists _, r. rewrite lookup_insert_eq. split_and!; [done|done|simpl; lia].
    + exists l, r. destruct (live now (m !! s')); simpl; [by rewrite lookup_insert_ne|].
      by rewrite lookup_delete_ne.
  - destruct (decide (s' = s)) as [->|Hne].
    + unfold remember_at. rewrite Hl. simpl. eexists _, r. rewrite lookup_insert_eq.
      split_and!; [done| |simpl; lia]. simpl. destruct (denied_tools l !! t') eqn:E; [done|].
      by rewrite lookup_insert_ne by congruence.
    + exists l, r. unfold remember_at. by rewrite lookup_insert_ne.
  - exists l, r. split_and!; [|done|done]. unfold prune_at. apply map_lookup_filter_Some.
    split; [done|simpl; lia].
Qed.

Lemma evolves_clock w w' : evolves w w' → (clock w ≤ clock w')%N.
Proof. induction 1 as [|w v w' [Hc _] _ IH]; lia. Qed.

(** It stays through whatever happens before the deadline. *)
Lemma evolves_kept deadline s t start w w' :
  evolves w w' → (start ≤ clock w)%N → (clock w' < deadline)%N → (deadline + lag ≤ start + ttl)%N →
  kept deadline s t (sessions w) → kept deadline s t (sessions w').
Proof.
  induction 1 as [|w v w' [Hc Ht] Hv IH]; [done|]. intros Hs Hd Hl Hk.
  pose proof (evolves_clock _ _ Hv). apply IH; [lia|done|done|].
  destruct Ht as [->|(now & Hn & Hop)]; [done|]. eapply ledger_op_kept; [done|lia|done].
Qed.

(** ** The inspector's effects *)

Lemma evolving_ret {A} (a : A) : evolving (mret a).
Proof. intros w. apply rtc_refl. Qed.

Lemma evolving_bind {A B} (m : Eff W A) (f : A → Eff W B) :
  evolving m → (∀ a, evolving (f a)) → evolving (m ≫= f).
Proof.
  intros Hm Hf w. unfold mbind, eff_bind. specialize (Hm w). destruct (m w) as [a w'].
  etrans; [exact Hm|apply Hf].
Qed.

Section ports.
Context (url_parse : bytes → option Url).
Context `{!PolicyPort W, !AuditSink W, !HostResolver W, !SessionMemory W, !SharedLedger}.
#[local] Set Default Proof Using "Type*".

Lemma recall_evolving s t : evolving (recall s t).
Proof.
  intros w. pose proof (recall_shared s t w) as Hr. destruct (recall s t w) as [r w'].
  destruct Hr as (v & now & Hv & Hc & E). etrans; [exact Hv|]. apply rtc_once. cbn [snd]. split; [lia|].
  right. exists now. split; [lia|]. change (sessions w') with (r, sessions w').2. rewrite <- E. constructor.
Qed.

Lemma remember_evolving s t r : evolving (remember s t r).
Proof.
  intros w. pose proof (remember_shared s t r w) as Hr. destruct (remember s t r w) as [u w'].
  destruct Hr as (v & now & Hv & Hc & E). etrans; [exact Hv|]. apply rtc_once. cbn [snd]. split; [lia|].
  right. exists now. split; [lia|]. cbn [snd]. rewrite <- E. constructor.
Qed.

Lemma first_disallowed_evolving ts : evolving (first_disallowed url_parse ts).
Proof.
  induction ts as [|t ts IH]; [apply evolving_ret|]. cbn [first_disallowed].
  destruct (classify_url url_parse t) as [|r|h]; [done|apply evolving_ret|].
  apply evolving_bind; [apply resolve_evolves|]. intros ips. case_match; [apply evolving_ret|done].
Qed.

Ltac evolve :=
  repeat first
    [ progress intros
    | apply evolving_ret | apply recall_evolving | apply remember_evolving
    | apply decide_evolves | apply record_evolves | apply first_disallowed_evolving
    | apply evolving_bind
    | case_match ].

Lemma judge_evolving ctx e : evolving (judge url_parse ctx e).
Proof.
  unfold judge, recall_tool, screen_urls, record_deny, remember_tool_denial, first_disallowed_url. evolve.
Qed.

Lemma reject_reason_evolving ctx e : evolving (reject_reason ctx e).
Proof. unfold reject_reason, record_deny. evolve. Qed.

Lemma screen_tools_evolving ctx names : evolving (screen_tools ctx names).
Proof.
  induction names as [|n ns IH]; cbn [screen_tools]; unfold record_deny; [evolve|].
  apply evolving_bind; [apply recall_evolving|]. intros [r|]; [evolve|].
  apply evolving_bind; [apply reject_reason_evolving|]. intros [r|]; [evolve|done].
Qed.

Lemma screen_texts_evolving ctx texts : evolving (screen_texts url_parse ctx texts).
Proof.
  induction texts as [|n ns IH]; cbn [screen_texts]; [evolve|].
  apply evolving_bind; [|intros [r|]; [evolve|done]].
  unfold screen_text, first_disallowed_url, record_deny.
  apply evolving_bind; [evolve|]. intros [r|]; [evolve|apply reject_reason_evolving].
Qed.

Lemma inspect_request_evolving ctx rc : evolving (inspect_request url_parse ctx rc).
Proof.
  unfold inspect_request. apply evolving_bind; [apply screen_tools_evolving|].
  intros [r|]; [evolve|]. apply evolving_bind; [apply screen_texts_evolving|evolve].
Qed.

(** ** A denial is found again *)

Lemma evolving_clock {A} (m : Eff W A) w : evolving m → (clock w ≤ clock (m w).2)%N.
Proof. intros Hm. apply evolves_clock, Hm. Qed.

Lemma recall_finds deadline start s t w :
  kept deadline s t (sessions w) → (start ≤ clock w)%N → (clock (recall s t w).2 < deadline)%N →
  (deadline + lag ≤ start + ttl)%N → ∃ r, (recall s t w).1 = Some r.
Proof.
  intros Hk Hs Hd Hl. pose proof (recall_shared s t w) as Hr. destruct (recall s t w) as [o w'].
  destruct Hr as (v & now & Hv & Hc & E). cbn [snd fst] in *.
  destruct (recall_kept now s t (sessions v) deadline) as [r Hr]; [lia| |].
  - eapply evolves_kept; [exact Hv|exact Hs|lia|exact Hl|exact Hk].
  - exists r. by rewrite E in Hr.
Qed.

(** What follows a recall in a composed effect takes its time. *)
Lemma bind_clock {A B} (m : Eff W A) (f : A → Eff W B) w :
  (∀ a, evolving (f a)) → (clock (m w).2 ≤ clock ((m ≫= f) w).2)%N.
Proof.
  intros Hf. unfold mbind, eff_bind. destruct (m w) as [a w']. apply (evolving_clock _ w' (Hf a)).
Qed.

Lemma judge_denies_kept deadline start ctx id name args w :
  kept deadline (ctx_session ctx) name (sessions w) → (start ≤ clock w)%N →
  (clock (judge url_parse ctx (Event_ToolCall id name args) w).2 < deadline)%N →
  (deadline + lag ≤ start + ttl)%N →
  ∃ r, (judge url_parse ctx (Event_ToolCall id name args) w).1 = Deny r.
Proof.
  intros Hk Hs Hd Hl.
  assert (clock (recall (ctx_session ctx) name w).2
          ≤ clock (judge url_parse ctx (Event_ToolCall id name args) w).2)%N as Hc.
  { unfold judge. apply (bind_clock (recall (ctx_session ctx) name)). intros a.
    unfold screen_urls, record_deny, remember_tool_denial, first_disallowed_url. evolve. }
  destruct (recall_finds deadline start (ctx_session ctx) name w) as [r Hr]; [done|done|lia|done|].
  exists r. unfold judge, recall_tool. cbn [tool_name]. unfold mbind, eff_bind.
  destruct (recall (ctx_session ctx) name w) as [o w']. simpl in Hr. subst o.
  by destruct (record_deny ctx _ r w').
Qed.

Lemma screen_tools_finds deadline start ctx name names w :
  name ∈ names → kept deadline (ctx_session ctx) name (sessions w) → (start ≤ clock w)%N →
  (clock (screen_tools ctx names w).2 < deadline)%N → (deadline + lag ≤ start + ttl)%N →
  ∃ r, (screen_tools ctx names w).1 = Some r.
Proof.
  intros Hin Hk Hs Hd Hl. revert w Hk Hs Hd. induction names as [|n ns IH]; intros w Hk Hs Hd.
  { by apply elem_of_nil in Hin. }
  revert Hd. cbn [screen_tools]. unfold record_deny, mbind, eff_bind, mret, eff_ret.
  pose proof (recall_evolving (ctx_session ctx) n w) as He.
  pose proof (recall_finds deadline start (ctx_session ctx) n w) as Hf.
  destruct (recall (ctx_session ctx) n w) as [[r|] w1]; cbn [snd fst] in *.
  { destruct (record_event _ _ _ w1) as [? ?]. by eauto. }
  pose proof (reject_reason_evolving ctx (offered_event n) w1) as He2.
  destruct (reject_reason ctx (offered_event n) w1) as [[r|] w2]; cbn [snd fst] in *.
  { destruct (remember _ _ _ w2) as [? ?]. by eauto. }
  intros Hd. pose proof (evolving_clock _ w2 (screen_tools_evolving ctx ns)).
  pose proof (evolves_clock _ _ He). pose proof (evolves_clock _ _ He2).
  assert (n ≠ name) as Hne by (intros ->; destruct Hf as [? [=]]; [done|done|lia|done]).
  apply elem_of_cons in Hin as [?|Hin]; [done|].
  apply IH; [done| |lia|done]. eapply evolves_kept; [etrans; [exact He|exact He2]|done|lia|done|done].
Qed.

Lemma judge_deny_kept deadline ctx id name args w r w' :
  judge url_parse ctx (Event_ToolCall id name args) w = (Deny r, w') →
  (clock w' < deadline)%N → (deadline + lag ≤ clock w + ttl)%N →
  kept deadline (ctx_session ctx) name (sessions w').
Proof.
  unfold judge, recall_tool, screen_urls, record_deny, remember_tool_denial, first_disallowed_url.
  cbn [tool_name url_bearing_text]. unfold mbind, eff_bind, mret, eff_ret. intros Hj Hd Hl.
  pose proof (recall_evolving (ctx_session ctx) name w) as He1.
  pose proof (recall_shared (ctx_session ctx) name w) as Hr.
  destruct (recall (ctx_session ctx) name w) as [[r0|] w1]; cbn [snd] in He1;
    pose proof (evolves_clock _ _ He1).
  { destruct Hr as (v & now & _ & Hc & E). revert Hj.
    match goal with |- context [record_event ?c ?e ?v w1] =>
      pose proof (record_evolves c e v w1) as He2; destruct (record_event c e v w1) as [[] w2] end.
    intros [= _ ->]. eapply evolves_kept; [exact He2| |exact Hd|exact Hl|]; [done|].
    eapply recall_found; [|exact E]. lia. }
  clear Hr. pose proof (first_disallowed_evolving (tokens args) w1) as He2.
  destruct (first_disallowed url_parse (tokens args) w1) as [[ru|] w2]; cbn [snd] in He2;
    pose proof (evolves_clock _ _ He2); revert Hj.
  - match goal with |- context [record_event ?c ?e ?v w2] =>
      pose proof (record_evolves c e v w2) as He3; destruct (record_event c e v w2) as [[] w3] end.
    cbn [snd] in He3. pose proof (evolves_clock _ _ He3).
    pose proof (remember_shared (ctx_session ctx) name ru w3) as Hr.
    destruct (remember (ctx_session ctx) name ru w3) as [[] w4]. intros [= _ <-].
    destruct Hr as (v & now & _ & Hc & <-). apply remember_kept. lia.
  - match goal with |- context [decide_event ?c ?e w2] =>
      pose proof (decide_evolves c e w2) as He3; destruct (decide_event c e w2) as [v w3] end.
    match goal with |- context [record_event ?c ?e ?v w3] =>
      pose proof (record_evolves c e v w3) as He4; destruct (record_event c e v w3) as [[] w4] end.
    cbn [snd] in He3, He4. pose proof (evolves_clock _ _ He3). pose proof (evolves_clock _ _ He4).
    destruct v as [|rv|e'| |rt]; try (by intros [=]).
    pose proof (remember_shared (ctx_session ctx) name rv w4) as Hr.
    destruct (remember (ctx_session ctx) name rv w4) as [[] w5]. intros [= _ <-].
    destruct Hr as (u & now & _ & Hc & <-). apply remember_kept. lia.
Qed.

(** C8: a tool denied in a session stays denied in it for a time-to-live, under concurrent
    runs. When a call of the tool is denied, by the policy, the URL guard or the ledger,
    then after anything other runs, requests and the pruner do, in any interleaving with
    this one, every call of the tool in a run of the session is denied whatever its id and
    arguments, and every request of the session that offers it is refused, if answered
    within a time-to-live of the call, less what an operation can wait for the lock. *)
Theorem quarantine_holds ctx id name args w r w' w'' ctx' :
  judge url_parse ctx (Event_ToolCall id name args) w = (Deny r, w') →
  evolves w' w'' → ctx_session ctx' = ctx_session ctx →
  (∀ id' args', let '(verdict, w3) := judge url_parse ctx' (Event_ToolCall id' name args') w'' in
     (clock w3 + lag < clock w + ttl)%N → ∃ r', verdict = Deny r')
  ∧ (∀ rc, name ∈ offered_tools rc →
     let '(decision, w3) := inspect_request url_parse ctx' rc w'' in
     (clock w3 + lag < clock w + ttl)%N → ∃ r', decision = Request_Reject r').
Proof.
  intros Hj He Hs.
  assert (clock w ≤ clock w')%N as Hcw.
  { change w' with (Deny r : Verdict AgentEvent, w').2. rewrite <- Hj.
    apply evolving_clock, judge_evolving. }
  assert (∀ deadline, (clock w'' < deadline)%N → (deadline + lag ≤ clock w + ttl)%N →
    kept deadline (ctx_session ctx') name (sessions w'')) as Hk.
  { intros deadline Hd Hl. rewrite Hs. pose proof (evolves_clock _ _ He).
    eapply evolves_kept; [exact He|exact Hcw|exact Hd|exact Hl|].
    eapply judge_deny_kept; [exact Hj|lia|exact Hl]. }
  pose proof (evolves_clock _ _ He). split.
  - intros id' args'. pose proof (judge_evolving ctx' (Event_ToolCall id' name args') w'') as Hv%evolves_clock.
    pose proof (judge_denies_kept (clock w + ttl - lag) (clock w) ctx' id' name args' w'') as Hdeny.
    destruct (judge url_parse ctx' (Event_ToolCall id' name args') w'') as [v w3]. cbn [snd fst] in *.
    intros Hlt. apply Hdeny; [apply Hk; lia|lia..].
  - intros rc Hin. pose proof (inspect_request_evolving ctx' rc w'') as Hv%evolves_clock.
    revert Hv. unfold inspect_request, mbind, eff_bind.
    pose proof (screen_tools_finds (clock w + ttl - lag) (clock w) ctx' name (offered_tools rc) w'' Hin) as Hf.
    pose proof (screen_tools_evolving ctx' (offered_tools rc) w'') as Ht%evolves_clock.
    destruct (screen_tools ctx' (offered_tools rc) w'') as [[r'|] w2]; cbn [snd fst] in *; [by intros; eexists|].
    pose proof (screen_texts_evolving ctx' (user_messages rc ++ hidden_fields rc) w2) as Hx%evolves_clock.
    destruct (screen_texts _ _ _ w2) as [o w3]. cbn [snd] in *. intros _ Hlt.
    destruct Hf as [? [=]]; [apply Hk; lia|lia..].
Qed.
End ports.
End quarantine.

(** ** A run of the clock *)

Module DemoClock.

(** Every port call takes a millisecond; a session is kept for a hundred. *)
Definition world : Type := N * Sessions.

(** The policy refuses one call of the tool, for its arguments. *)
Definition pol (e : AgentEvent) : Verdict AgentEvent :=
  match e with
  | Event_ToolCall _ name args =>
      if bool_decide (name = lit "rm" ∧ args = lit "/") then Deny (lit "not permitted") else Allow
  | _ => Allow
  end.

#[export] Instance policy : PolicyPort world := λ ctx e w, (pol e, (w.1 + 1, w.2)%N).
#[export] Instance audit : AuditSink world := λ ctx e v w, (tt, (w.1 + 1, w.2)%N).
#[export] Instance dns : HostResolver world := λ h w, (demo_dns h, (w.1 + 1, w.2)%N).
#[export] Instance memory : SessionMemory world := {|
  recall s t w := let '(a, m) := recall_at 100 w.1 s t w.2 in (a, (w.1 + 1, m)%N);
  remember s t r w := (tt, (w.1 + 1, remember_at 100 w.1 s t r w.2)%N);
|}.

#[export] Instance shared : SharedLedger fst snd 100 5.
Proof.
  split.
  1-3: intros; intros [now m]; apply rtc_once; split; simpl; [lia|by left].
  - intros s t [now m]. simpl. destruct (recall_at 100 now s t m) as [r m'] eqn:E.
    exists (now, m), now. split_and!; [apply rtc_refl|simpl; lia..|exact E].
  - intros s t r [now m]. exists (now, m), now. split_and!; [apply rtc_refl|simpl; lia..|done].
Qed.

Definition ctx (n : N) : InspectionContext := mkInspectionContext demo_session (mkRunId n).
Definition start : world := (0%N, ∅).
Definition call (args : bytes) : AgentEvent := Event_ToolCall demo_call (lit "rm") args.
Definition refused : world := (judge demo_url_parse (ctx 1) (call (lit "/")) start).2.
(** The pruner comes by forty milliseconds later. *)
Definition pruned : world := (refused.1 + 40, prune_at (refused.1 + 40) refused.2)%N.
End DemoClock.

#[local] Existing Instances DemoClock.policy DemoClock.audit DemoClock.dns DemoClock.memory DemoClock.shared.

Lemma pruned_evolves : evolves fst snd 100 5 DemoClock.refused DemoClock.pruned.
Proof.
  apply rtc_once. split; [simpl; lia|]. right. exists (DemoClock.refused.1 + 40)%N.
  split; [unfold DemoClock.pruned; cbn [fst]; lia|constructor].
Qed.

Lemma call_refused :
  judge demo_url_parse (DemoClock.ctx 1) (DemoClock.call (lit "/")) DemoClock.start
  = (Deny (lit "not permitted"), DemoClock.refused).
Proof.
  unfold DemoClock.refused. rewrite (surjective_pairing (judge _ _ _ _)) at 1. f_equal.
Qed.

Lemma quarantine_holds_witness :
  (judge demo_url_parse (DemoClock.ctx 2) (DemoClock.call (lit "x")) DemoClock.start).1 = Allow
  ∧ ∃ r, (judge demo_url_parse (DemoClock.ctx 2) (DemoClock.call (lit "x")) DemoClock.pruned).1 = Deny r.
Proof.
  split; [vm_compute; reflexivity|].
  pose proof (quarantine_holds (W := DemoClock.world) fst snd 100 5 demo_url_parse (DemoClock.ctx 1) demo_call (lit "rm")
    (lit "/") DemoClock.start (lit "not permitted") DemoClock.refused DemoClock.pruned (DemoClock.ctx 2)
    call_refused pruned_evolves eq_refl) as [Hw _].
  specialize (Hw demo_call (lit "x")). unfold DemoClock.call.
  assert ((judge demo_url_parse (DemoClock.ctx 2) (DemoClock.call (lit "x")) DemoClock.pruned).2.1 = 46%N)
    as Hc by (vm_compute; reflexivity). unfold DemoClock.call in Hc.
  destruct (judge demo_url_parse (DemoClock.ctx 2) _ DemoClock.pruned) as [v w3].
  apply Hw. cbn [fst snd] in *. rewrite Hc. reflexivity.
Defined.
