(* ===== verification/Stream.v ===== *)
(** * Stream: the guarded response stream
    (crates/agate-proxy/src/presentation/stream.rs)

    [inspect_stream] over the chunks received from the agent: decoding, the frame and
    response budgets, the classification of events, the per-call hold buffers, the
    sweep of calls left open, and the frames yielded to the client, in order.
    A stream is a function of the list of received items; it yields a list. *)
From stdpp Require Import options.
From S2P Require Import Prelude Text Sse Json Run AgUi Ssrf Ports Inspector.

Inductive Decoded :=
| Decoded_Inspect (fragment : Fragment)
| PassThrough
| MalformedDrop (error : AgUiError)
| MalformedTerminate (error : AgUiError).

Abbreviation Holds := (gmap ToolCallId (list bytes)).

(** [is_run_end]. *)
Definition is_run_end (fragment : Fragment) : bool :=
  match fragment with
  | Fragment_Lifecycle (RunFinished | RunError) => true
  | _ => false
  end.

Record Emit := mkEmit { frames : list bytes; terminate : bool }.

(** The loop's variables. *)
Record StreamState := mkStreamState {
  ss_decoder : SseDecoder;
  ss_run : Run;
  ss_holds : Holds;
  ss_events : N;
  ss_bytes : N;
}.

Section stream.
Context (json : SerdeJson) (url_parse : bytes → option Url).
Context (order : gmap ToolCallId ToolCallBuffer → list (ToolCallId * ToolCallBuffer)).
Context {W : Type} `{!PolicyPort W, !AuditSink W, !HostResolver W, !SessionMemory W,
  !ProxyMetrics W}.

Definition decode (data : bytes) (mode : MalformedEventMode) : Decoded :=
  match from_str json data with
  | None => PassThrough
  | Some value =>
      match to_fragment json value with
      | Ok (Some fragment) => Decoded_Inspect fragment
      | Ok None => PassThrough
      | Err error =>
          if is_malformed_known error then
            match mode with
            | Mode_Forward => PassThrough
            | Mode_Drop => MalformedDrop error
            | Mode_Terminate => MalformedTerminate error
            end
          else PassThrough
      end
  end.

(** The fields in the map's key order. *)
Definition run_error (message : bytes) : bytes :=
  encode (to_string json (Object [(lit "message", String_ message);
                                  (lit "type", String_ (lit "RUN_ERROR"))])).

(** [apply_action]: the frames to relay and the hold buffers left. *)
Definition apply_action (action : InspectionAction) (raw : bytes) (holds : Holds) :
    Eff W (Emit * Holds) :=
  match action with
  | Forward =>
      _ ← record_inspected Outcome_Forward; mret (mkEmit [raw] false, holds)
  | Hold id =>
      _ ← record_inspected Outcome_Buffer;
      mret (mkEmit [] false, <[id := default [] (holds !! id) ++ [raw]]> holds)
  | FlushCall id =>
      _ ← record_inspected Outcome_Forward;
      mret (mkEmit (default [] (holds !! id) ++ [raw]) false, delete id holds)
  | DropCall id _ =>
      _ ← record_inspected Outcome_Deny; mret (mkEmit [] false, delete id holds)
  | ForwardTransformed replacement =>
      _ ← record_inspected Outcome_Transform;
      let frame := match to_event replacement with
                   | Some value => encode (to_string json value)
                   | None => raw
                   end in
      mret (mkEmit [frame] false, holds)
  | Drop _ =>
      _ ← record_inspected Outcome_Deny; mret (mkEmit [] false, holds)
  | Action_Terminate reason =>
      _ ← record_inspected Outcome_Terminate; mret (mkEmit [run_error reason] true, ∅)
  end.

(** The loop of [sweep_open_calls] over the drained calls. *)
Fixpoint sweep (context : InspectionContext) (calls : list (ToolCallId * AgentEvent))
    (holds : Holds) : Eff W (list bytes * option bytes * Holds) :=
  match calls with
  | [] => mret ([], None, holds)
  | (id, call) :: rest =>
      action ← authorize_call url_parse context id call;
      match action with
      | FlushCall id =>
          _ ← record_inspected Outcome_Forward;
          '(flushed, terminate, holds') ← sweep context rest (delete id holds);
          mret (default [] (holds !! id) ++ flushed, terminate, holds')
      | DropCall id _ =>
          _ ← record_inspected Outcome_Deny;
          sweep context rest (delete id holds)
      | Action_Terminate reason =>
          _ ← record_inspected Outcome_Terminate;
          mret ([], Some reason, holds)
      | _ => sweep context rest holds
      end
  end.

Definition sweep_open_calls (run : Run) (context : InspectionContext) (holds : Holds) :
    Eff W (list bytes * option bytes * Run * Holds) :=
  let '(calls, run') := drain_open order run in
  '(flushed, terminate, holds') ← sweep context calls holds;
  mret (flushed, terminate, run', holds').

(** What a step of the stream yields, and the state it goes on in unless it returned. *)
Definition Step : Type := list bytes * option StreamState.

Definition set_run_holds (st : StreamState) (run : Run) (holds : Holds) : StreamState :=
  mkStreamState (ss_decoder st) run holds (ss_events st) (ss_bytes st).

(** Judging one fragment and emitting its frames. *)
Definition inspect_fragment (context : InspectionContext) (fragment : Fragment) (raw : bytes)
    (st : StreamState) : Eff W Step :=
  '(action, run) ← inspect url_parse (ss_run st) context fragment;
  '(emit, holds) ← apply_action action raw (ss_holds st);
  mret (frames emit, if terminate emit then None else Some (set_run_holds st run holds)).

(** The body of the loop over decoded events. *)
Definition process_event (settings : InspectionSettings) (context : InspectionContext)
    (event : SseEvent) (st : StreamState) : Eff W Step :=
  let st := mkStreamState (ss_decoder st) (ss_run st) (ss_holds st)
              (ss_events st + 1) (ss_bytes st + len (sse_raw event)) in
  match exceeded (response_budget settings) (ss_events st) (ss_bytes st) with
  | Some reason =>
      _ ← record_inspected Outcome_Terminate; mret ([run_error reason], None)
  | None =>
      match decode (sse_data event) (malformed_mode settings) with
      | PassThrough => mret ([sse_raw event], Some st)
      | MalformedDrop _ => _ ← record_inspected Outcome_Deny; mret ([], Some st)
      | MalformedTerminate _ =>
          _ ← record_inspected Outcome_Terminate;
          mret ([run_error (lit "malformed protocol event")], None)
      | Decoded_Inspect fragment =>
          if is_run_end fragment then
            '(flushed, stop, run, holds) ← sweep_open_calls (ss_run st) context (ss_holds st);
            match stop with
            | Some reason => mret (flushed ++ [run_error reason], None)
            | None =>
                '(ys, st') ← inspect_fragment context fragment (sse_raw event)
                               (set_run_holds st run holds);
                mret (flushed ++ ys, st')
            end
          else inspect_fragment context fragment (sse_raw event) st
      end
  end.

Fixpoint process_events (settings : InspectionSettings) (context : InspectionContext)
    (events : list SseEvent) (st : StreamState) : Eff W Step :=
  match events with
  | [] => mret ([], Some st)
  | event :: rest =>
      '(ys, next) ← process_event settings context event st;
      match next with
      | None => mret (ys, None)
      | Some st' =>
          '(ys', next') ← process_events settings context rest st';
          mret (ys ++ ys', next')
      end
  end.

(** One item received from upstream. *)
Definition process_item (settings : InspectionSettings) (context : InspectionContext)
    (item : result UpstreamError bytes) (st : StreamState) : Eff W Step :=
  match item with
  | Err error =>
      _ ← record_upstream_error error; mret ([run_error (upstream_display error)], None)
  | Ok chunk =>
      let '(events, decoder) := push (ss_decoder st) chunk in
      let st := mkStreamState decoder (ss_run st) (ss_holds st) (ss_events st) (ss_bytes st) in
      if negb (max_frame_bytes settings =? 0)%N
         && (max_frame_bytes settings <? pending_len decoder)%N then
        _ ← record_inspected Outcome_Terminate;
        mret ([run_error (lit "response frame exceeded the size limit")], None)
      else process_events settings context events st
  end.

(** The rest of the stream: the remaining items, then the final sweep. *)
Fixpoint stream_from (settings : InspectionSettings) (context : InspectionContext)
    (items : list (result UpstreamError bytes)) (st : StreamState) : Eff W (list bytes) :=
  match items with
  | [] =>
      '(flushed, stop, _, _) ← sweep_open_calls (ss_run st) context (ss_holds st);
      mret (flushed ++ match stop with Some reason => [run_error reason] | None => [] end)
  | item :: rest =>
      '(ys, next) ← process_item settings context item st;
      match next with
      | None => mret ys
      | Some st' => ys' ← stream_from settings context rest st'; mret (ys ++ ys')
      end
  end.

Definition initial_state (settings : InspectionSettings) (context : InspectionContext) :
    StreamState :=
  mkStreamState SseDecoder_new (Run_new (ctx_run context) (budgets settings)) ∅ 0 0.

Definition inspect_stream (items : list (result UpstreamError bytes))
    (context : InspectionContext) (settings : InspectionSettings) : Eff W (list bytes) :=
  stream_from settings context items (initial_state settings context).
End stream.

(** ** What a run does with a fragment *)

(** The call a fragment is part of. *)
Definition call_id (f : Fragment) : option ToolCallId :=
  match f with
  | ToolCallStarted id _ | ToolCallArgs id _ | ToolCallEnded id => Some id
  | _ => None
  end.

(** The complete event a standalone fragment is. *)
Definition ready_event (f : Fragment) (e : AgentEvent) : Prop :=
  match f with
  | MessageChunk m t => e = Event_MessageChunk m t
  | ToolResult id c => ∃ n, e = Event_ToolResult id n c
  | Fragment_StateMutation m => e = Event_StateMutation m
  | Fragment_Lifecycle p => e = Event_Lifecycle p
  | Fragment_Opaque k => e = Event_Opaque k
  | _ => False
  end.

(** The name a start gives its call. *)
Definition starts_as (f : Fragment) (name : bytes) : Prop :=
  ∀ id n, f = ToolCallStarted id n → n = name.

Lemma inspect_cases r f o r' :
  Run_inspect r f = (o, r') →
  match o with
  | Buffering id =>
      call_id f = Some id
      ∧ ∃ name args, starts_as f name
          ∧ open_tool_calls r' = <[id := mkToolCallBuffer name args]> (open_tool_calls r)
          ∧ ∀ buf, open_tool_calls r !! id = Some buf → buf_name buf = name
  | ResolvedCall id e =>
      f = ToolCallEnded id
      ∧ ∃ buf, open_tool_calls r !! id = Some buf
          ∧ e = Event_ToolCall id (buf_name buf) (buf_arguments buf)
          ∧ open_tool_calls r' = delete id (open_tool_calls r)
  | Ready e => ready_event f e ∧ call_id f = None ∧ open_tool_calls r' = open_tool_calls r
  | Reject _ => True
  end.
Proof.
  unfold Run_inspect. destruct f as [id name|id delta|id|id content|m t|m|p|k];
    try (case_bool_decide; [by intros [= <- <-]|]); cbn [inspect_content].
  - unfold tool_call_started. destruct (open_tool_calls r !! id) eqn:E; [by intros [= <- <-]|].
    destruct (_ <=? _)%N; [by intros [= <- <-]|]. intros [= <- <-]. split; [done|].
    exists name, []. split_and!; [by intros ? ? [= _ ->]|done|congruence].
  - unfold tool_call_args. destruct (open_tool_calls r !! id) as [buf|] eqn:E; [|by intros [= <- <-]].
    destruct (_ <? _)%N; [by intros [= <- <-]|]. intros [= <- <-]. split; [done|].
    exists (buf_name buf), (buf_arguments buf ++ delta). split_and!; [done|done|congruence].
  - unfold tool_call_ended. destruct (open_tool_calls r !! id) as [buf|] eqn:E; [|by intros [= <- <-]].
    intros [= <- <-]. eauto 10.
  - intros [= <- <-]. simpl. eauto.
  - by intros [= <- <-].
  - unfold state_mutation, reject. intros Hm. cases; done.
  - unfold inspect_lifecycle, reject. destruct p; case_bool_decide; by intros [= <- <-].
  - by intros [= <- <-].
Qed.

(** The counters of the metrics port do not write the audit trail. *)
Class MetricsFrames (W : Type) `{!PolicyPort W, !AuditSink W, !HostResolver W,
    !SessionMemory W, !AuditSinkLaws W, !ProxyMetrics W} : Prop := {
  inspected_silent o w : trail (record_inspected o w).2 = trail w;
  upstream_silent e w : trail (record_upstream_error e w).2 = trail w;
}.

(** ** Complete mediation *)

Section mediation.
Context (json : SerdeJson) (url_parse : bytes → option Url).
Context {W : Type} `{!PolicyPort W, !AuditSink W, !HostResolver W, !SessionMemory W,
  !AuditSinkLaws W, !ProxyMetrics W, !MetricsFrames W}.
Context (settings : InspectionSettings) (ctx : InspectionContext).
#[local] Set Default Proof Using "Type*".

Abbreviation Trail := (list (InspectionContext * AgentEvent * Verdict AgentEvent)).
Abbreviation reads ev f := (decode json (sse_data ev) (malformed_mode settings) = Decoded_Inspect f).

(** Why a frame may reach the client, given the events received and the audit trail. *)
Inductive justified (evs : list SseEvent) (tr : Trail) : bytes → Prop :=
| just_uninspected ev :
    ev ∈ evs → decode json (sse_data ev) (malformed_mode settings) = PassThrough →
    justified evs tr (sse_raw ev)
| just_allowed ev f e v :
    ev ∈ evs → reads ev f → ready_event f e → (ctx, e, v) ∈ tr → stops v = false →
    (∀ x, v = Transform x → to_event x = None) →
    justified evs tr (sse_raw ev)
| just_call ev f id name args v :
    ev ∈ evs → reads ev f → call_id f = Some id → starts_as f name →
    (ctx, Event_ToolCall id name args, v) ∈ tr → stops v = false →
    justified evs tr (sse_raw ev)
| just_rewritten e e' value :
    (ctx, e, Transform e') ∈ tr → to_event e' = Some value →
    justified evs tr (encode (to_string json value)).

Lemma justified_mono evs evs' tr tr' b :
  evs ⊆ evs' → tr ⊆ tr' → justified evs tr b → justified evs' tr' b.
Proof.
  intros He Ht H. assert (∀ x, x ∈ evs → x ∈ evs') as He' by (intros; by apply He).
  assert (∀ x, x ∈ tr → x ∈ tr') as Ht' by (intros; by apply Ht).
  destruct H; [eapply just_uninspected|eapply just_allowed|eapply just_call|eapply just_rewritten];
    eauto.
Qed.

(** A held frame is part of the call it is held under. *)
Definition held_frame (evs : list SseEvent) (id : ToolCallId) (name b : bytes) : Prop :=
  ∃ ev f, ev ∈ evs ∧ b = sse_raw ev ∧ reads ev f ∧ call_id f = Some id ∧ starts_as f name.

(** Frames are held only for open calls, and belong to them. *)
Definition holds_ok (evs : list SseEvent) (r : Run) (holds : Holds) : Prop :=
  ∀ id fs, holds !! id = Some fs →
    ∃ buf, open_tool_calls r !! id = Some buf ∧ Forall (held_frame evs id (buf_name buf)) fs.

Lemma held_frame_mono evs evs' id name b :
  evs ⊆ evs' → held_frame evs id name b → held_frame evs' id name b.
Proof. intros He (ev & f & Hev & Hf). exists ev, f. split; [by apply He|done]. Qed.

Lemma holds_ok_mono evs evs' r holds : evs ⊆ evs' → holds_ok evs r holds → holds_ok evs' r holds.
Proof.
  intros He H id fs Hid. destruct (H id fs Hid) as (buf & Hb & Hf). exists buf. split; [done|].
  eapply Forall_impl; [done|]. intros b. by apply held_frame_mono.
Qed.

Lemma held_justified evs tr id name args v b :
  held_frame evs id name b → (ctx, Event_ToolCall id name args, v) ∈ tr → stops v = false →
  justified evs tr b.
Proof. intros (ev & f & ? & -> & ? & ? & ?) ? ?. by eapply just_call. Qed.

(** The output of a step: justified frames, then at most one error, and only if the
    stream ends there. *)
Definition out_ok (evs : list SseEvent) (tr : Trail) (ys : list bytes) (ended : bool) : Prop :=
  ∃ body tail, ys = body ++ tail ∧ Forall (justified evs tr) body
    ∧ (tail = [] ∨ (ended = true ∧ ∃ r, tail = [run_error json r])).

Lemma out_ok_body evs tr ys b : Forall (justified evs tr) ys → out_ok evs tr ys b.
Proof. intros H. exists ys, []. rewrite app_nil_r. auto. Qed.

Lemma out_ok_error evs tr r : out_ok evs tr [run_error json r] true.
Proof. exists [], [run_error json r]. simpl. split_and!; [done|constructor|eauto]. Qed.

Lemma out_ok_app evs evs' tr tr' ys ys' b :
  evs ⊆ evs' → tr ⊆ tr' → out_ok evs tr ys false → out_ok evs' tr' ys' b →
  out_ok evs' tr' (ys ++ ys') b.
Proof.
  intros He Ht (b1 & t1 & -> & H1 & Ht1) (b2 & t2 & -> & H2 & Ht2).
  destruct Ht1 as [->|[? _]]; [|done]. rewrite app_nil_r.
  exists (b1 ++ b2), t2. rewrite app_assoc. split_and!; [done| |done].
  apply Forall_app. split; [|done]. eapply Forall_impl; [done|]. intros x. by apply justified_mono.
Qed.

Definition ended {A} (o : option A) : bool := match o with None => true | Some _ => false end.

(** A step from [w] to [w'] is sound. *)
Definition step_ok (evs : list SseEvent) (w w' : W) (ys : list bytes) (next : option StreamState) : Prop :=
  trail w ⊆ trail w' ∧ out_ok evs (trail w') ys (ended next)
  ∧ ∀ st', next = Some st' → holds_ok evs (ss_run st') (ss_holds st').

(** Recording a metric yields the same trail. *)
Ltac metric :=
  match goal with
  | |- context [record_inspected ?o ?w] =>
      let H := fresh "Hm" in
      pose proof (inspected_silent o w) as H; destruct (record_inspected o w) as [[] ?];
      cbn [snd] in H
  end.

(** [apply_action] as a function of the action. *)
Definition action_emit (action : InspectionAction) (raw : bytes) (holds : Holds) : Emit * Holds :=
  match action with
  | Forward => (mkEmit [raw] false, holds)
  | Hold id => (mkEmit [] false, <[id := default [] (holds !! id) ++ [raw]]> holds)
  | FlushCall id => (mkEmit (default [] (holds !! id) ++ [raw]) false, delete id holds)
  | DropCall id _ => (mkEmit [] false, delete id holds)
  | ForwardTransformed e =>
      (mkEmit [match to_event e with Some v => encode (to_string json v) | None => raw end] false, holds)
  | Drop _ => (mkEmit [] false, holds)
  | Action_Terminate reason => (mkEmit [run_error json reason] true, ∅)
  end.

Lemma apply_action_spec action raw holds w :
  ∃ w', apply_action json action raw holds w = (action_emit action raw holds, w')
        ∧ trail w' = trail w.
Proof.
  destruct action; cbn [apply_action action_emit]; unfold mbind, eff_bind; metric;
    eexists; (split; [reflexivity|done]).
Qed.

Lemma judge_extends e w :
  trail w ⊆ trail (judge url_parse ctx e w).2
  ∧ (ctx, e, (judge url_parse ctx e w).1) ∈ trail (judge url_parse ctx e w).2.
Proof.
  rewrite judge_trail. split; [intros x Hx; apply elem_of_app; by left|].
  apply elem_of_app. right. by apply list_elem_of_singleton.
Qed.

Lemma holds_ok_delete evs r r' holds id :
  open_tool_calls r' = delete id (open_tool_calls r) →
  holds_ok evs r holds → holds_ok evs r' (delete id holds).
Proof.
  intros Ho H i fs Hi. apply lookup_delete_Some in Hi as [Hne Hi]. destruct (H i fs Hi) as (buf & Hb & Hf).
  exists buf. by rewrite Ho, lookup_delete_ne.
Qed.

Lemma holds_ok_same evs r r' holds :
  open_tool_calls r' = open_tool_calls r → holds_ok evs r holds → holds_ok evs r' holds.
Proof. unfold holds_ok. intros ->. done. Qed.

Lemma holds_ok_hold evs r r' holds id name args b :
  open_tool_calls r' = <[id := mkToolCallBuffer name args]> (open_tool_calls r) →
  (∀ buf, open_tool_calls r !! id = Some buf → buf_name buf = name) →
  held_frame evs id name b →
  holds_ok evs r holds → holds_ok evs r' (<[id := default [] (holds !! id) ++ [b]]> holds).
Proof.
  intros Ho Hname Hb H i fs Hi. rewrite Ho. apply lookup_insert_Some in Hi as [[<- <-]|[Hne Hi]].
  - exists (mkToolCallBuffer name args). rewrite lookup_insert_eq. split; [done|]. apply Forall_app.
    split; [|by constructor]. destruct (holds !! id) as [l|] eqn:E; [|by constructor].
    destruct (H id l E) as (buf & Hbuf & Hl). by rewrite <- (Hname buf Hbuf).
  - destruct (H i fs Hi) as (buf & Hbuf & Hf). exists buf. by rewrite lookup_insert_ne.
Qed.

Lemma flushed_justified evs tr r holds id buf args v :
  holds_ok evs r holds → open_tool_calls r !! id = Some buf →
  (ctx, Event_ToolCall id (buf_name buf) args, v) ∈ tr → stops v = false →
  Forall (justified evs tr) (default [] (holds !! id)).
Proof.
  intros Hok Hopen Htr Hv. destruct (holds !! id) as [fs|] eqn:E; [|by constructor].
  destruct (Hok id fs E) as (buf' & Hb & Hf). rewrite Hopen in Hb. injection Hb as <-.
  eapply Forall_impl; [done|]. intros b Hheld. by eapply held_justified.
Qed.

(** Carrying out a sound action is a sound step. *)
Lemma finish_ok evs st run' raw a w w1 :
  trail w ⊆ trail w1 →
  out_ok evs (trail w1) (frames (action_emit a raw (ss_holds st)).1)
    (terminate (action_emit a raw (ss_holds st)).1) →
  (terminate (action_emit a raw (ss_holds st)).1 = false →
   holds_ok evs run' (action_emit a raw (ss_holds st)).2) →
  let '(emit, holds, w2) := apply_action json a raw (ss_holds st) w1 in
  step_ok evs w w2 (frames emit) (if terminate emit then None else Some (set_run_holds st run' holds)).
Proof.
  intros Ht Hout Hh. destruct (apply_action_spec a raw (ss_holds st) w1) as (w2 & -> & Hw2).
  destruct (action_emit a raw (ss_holds st)) as [emit holds]. cbn [fst snd] in *.
  unfold step_ok. rewrite Hw2. split_and!; [done|by destruct (terminate emit)|].
  destruct (terminate emit); [done|]. intros st' [= <-]. by apply Hh.
Qed.

(** Apply [finish_ok] to the action of the goal. *)
Ltac finish evs run' w :=
  cbv beta iota zeta;
  match goal with
  | |- context [apply_action _ ?a ?raw (ss_holds ?st) ?w1] =>
      let H := fresh "Hfin" in
      pose proof (finish_ok evs st run' raw a w w1) as H;
      destruct (apply_action json a raw (ss_holds st) w1) as [[? ?] ?]; apply H; clear H
  end.

Lemma ready_ok evs st run' ev f e w w1 v :
  ev ∈ evs → reads ev f → ready_event f e → trail w ⊆ trail w1 → (ctx, e, v) ∈ trail w1 →
  out_ok evs (trail w1) (frames (action_emit (ready_action v) (sse_raw ev) (ss_holds st)).1)
    (terminate (action_emit (ready_action v) (sse_raw ev) (ss_holds st)).1)
  ∧ (holds_ok evs run' (ss_holds st) →
     terminate (action_emit (ready_action v) (sse_raw ev) (ss_holds st)).1 = false →
     holds_ok evs run' (action_emit (ready_action v) (sse_raw ev) (ss_holds st)).2).
Proof.
  intros Hev Hf Hready Hext Hin. split; [|by destruct v].
  destruct v as [|r|x| |r]; cbn [ready_action action_emit fst snd frames terminate];
    try apply out_ok_error; apply out_ok_body; try (by constructor); (constructor; [|done]).
  - by eapply just_allowed.
  - destruct (to_event x) as [value|] eqn:Ex; [by eapply just_rewritten|].
    eapply just_allowed; eauto. by intros y [= <-].
  - by eapply just_allowed.
Qed.

Lemma inspect_fragment_ok evs st ev f w :
  ev ∈ evs → reads ev f → holds_ok evs (ss_run st) (ss_holds st) →
  let '(ys, next, w') := inspect_fragment json url_parse ctx f (sse_raw ev) st w in
  step_ok evs w w' ys next.
Proof.
  intros Hev Hf Hok. unfold inspect_fragment, inspect.
  destruct (Run_inspect (ss_run st) f) as [o run'] eqn:Ho. apply inspect_cases in Ho.
  unfold authorize_call, mbind, eff_bind, mret, eff_ret.
  destruct o as [e|id e|id|r].
  - destruct Ho as (Hready & Hcall & Hopen). destruct (judge_extends e w) as [Hext Hin].
    unfold mbind, eff_bind. destruct (judge url_parse ctx e w) as [v w1]. cbn [fst snd] in *.
    destruct (ready_ok evs st run' ev f e w w1 v) as [H1 H2]; [done..|].
    finish evs run' w; [done..|]. apply H2. by eapply holds_ok_same.
  - destruct Ho as (-> & buf & Hopen & -> & Hrun').
    set (e := Event_ToolCall id (buf_name buf) (buf_arguments buf)).
    destruct (judge_extends e w) as [Hext Hin].
    unfold mbind, eff_bind. destruct (judge url_parse ctx e w) as [v w1]. cbn [fst snd] in *.
    finish evs run' w; [done| |].
    + destruct (stops v) eqn:Hv.
      { destruct v; try done; [by apply out_ok_body; constructor|apply out_ok_error]. }
      assert (call_action id v = FlushCall id) as -> by (by destruct v).
      apply out_ok_body. cbn. apply Forall_app. split; [by eapply flushed_justified|].
      constructor; [|done]. by eapply just_call.
    + intros Hterm. destruct v; try done; by eapply holds_ok_delete.
  - destruct Ho as (Hcall & name & args & Hs & Hopen & Hname).
    finish evs run' w; [done| |]; cbn.
    + by apply out_ok_body; constructor.
    + intros _. eapply holds_ok_hold; [done|done| |done]. by exists ev, f.
  - finish evs run' w; [done|apply out_ok_error|done].
Qed.

Lemma holds_ok_less evs r holds id : holds_ok evs r holds → holds_ok evs r (delete id holds).
Proof. intros H i fs Hi. apply lookup_delete_Some in Hi as [_ Hi]. by apply H. Qed.

Definition open_call (r : Run) (c : ToolCallId * AgentEvent) : Prop :=
  ∃ buf, open_tool_calls r !! c.1 = Some buf
         ∧ c.2 = Event_ToolCall c.1 (buf_name buf) (buf_arguments buf).

(** What a sweep leaves of the holds: nothing for the calls judged. *)
Definition swept (calls : list (ToolCallId * AgentEvent)) (stop : option bytes) (holds holds' : Holds) : Prop :=
  (∀ id, holds !! id = None → holds' !! id = None)
  ∧ (stop = None → ∀ id, id ∈ calls.*1 → holds' !! id = None).

Lemma swept_cons id e rest stop holds holds' :
  swept rest stop (delete id holds) holds' → swept ((id, e) :: rest) stop holds holds'.
Proof.
  intros [H1 H2]. split.
  - intros i Hi. apply H1. by rewrite lookup_delete_None; right.
  - intros Hs i. rewrite fmap_cons, elem_of_cons. intros [->|Hi]; [|by apply H2].
    apply H1. apply lookup_delete_eq.
Qed.

Lemma sweep_ok evs r calls holds w :
  holds_ok evs r holds → Forall (open_call r) calls →
  let '(flushed, stop, holds', w') := sweep url_parse ctx calls holds w in
  trail w ⊆ trail w' ∧ Forall (justified evs (trail w')) flushed ∧ swept calls stop holds holds'.
Proof.
  revert holds w. induction calls as [|[id e] rest IH]; intros holds w Hok Hcalls.
  { split_and!; [done|constructor|]. split; [done|]. intros _ i Hi. by apply elem_of_nil in Hi. }
  apply Forall_cons in Hcalls as [(buf & Hopen & He) Hrest]. cbn [fst snd] in Hopen, He.
  cbn [sweep]. unfold authorize_call, mbind, eff_bind, mret, eff_ret.
  destruct (judge_extends e w) as [Hext Hin].
  destruct (judge url_parse ctx e w) as [v w1]. cbn [fst snd] in *.
  destruct (stops v) eqn:Hv.
  - destruct v as [|reason|x| |reason]; try done; cbn [call_action]; cbv beta iota zeta; metric.
    + specialize (IH (delete id holds) w0 (holds_ok_less _ _ _ id Hok) Hrest).
      destruct (sweep url_parse ctx rest (delete id holds) w0) as [[[flushed stop] holds'] w'].
      destruct IH as (Ht & Hj & Hs). split_and!; [|done|by apply swept_cons].
      etrans; [exact Hext|]. by rewrite <- Hm.
    + split_and!; [by rewrite Hm|constructor|]. split; [done|by intros [=]].
  - assert (call_action id v = FlushCall id) as -> by (by destruct v). cbv beta iota zeta. metric.
    specialize (IH (delete id holds) w0 (holds_ok_less _ _ _ id Hok) Hrest).
    destruct (sweep url_parse ctx rest (delete id holds) w0) as [[[flushed stop] holds'] w'].
    destruct IH as (Ht & Hj & Hs). rewrite Hm in Ht.
    split_and!; [by etrans| |by apply swept_cons].
    apply Forall_app. split; [|done]. subst e. eapply flushed_justified; [done|done| |done].
    by apply Ht.
Qed.

(** The events decoded from what upstream sent, up to its first error. *)
Fixpoint received (d : SseDecoder) (items : list (result UpstreamError bytes)) : list SseEvent :=
  match items with
  | Ok chunk :: rest => (push d chunk).1 ++ received (push d chunk).2 rest
  | _ => []
  end.

Context (order : gmap ToolCallId ToolCallBuffer → list (ToolCallId * ToolCallBuffer)).
Context (Horder : ∀ m, order m ≡ₚ map_to_list m).

(** Once the open calls are swept no frame is held. *)
Lemma sweep_open_ok evs r holds w :
  holds_ok evs r holds →
  let '(flushed, stop, r', holds', w') := sweep_open_calls url_parse order r ctx holds w in
  trail w ⊆ trail w' ∧ Forall (justified evs (trail w')) flushed
  ∧ (stop = None → holds_ok evs r' holds').
Proof.
  intros Hok. unfold sweep_open_calls, drain_open, mbind, eff_bind, mret, eff_ret.
  set (calls := map call_event (order (open_tool_calls r))).
  assert (Forall (open_call r) calls) as Hcalls.
  { apply Forall_forall. intros c Hc. subst calls.
    apply list_elem_of_In, in_map_iff in Hc as ([id buf] & <- & Hc%list_elem_of_In).
    rewrite Horder in Hc. apply elem_of_map_to_list in Hc. by exists buf. }
  pose proof (sweep_ok evs r calls holds w Hok Hcalls) as H.
  destruct (sweep url_parse ctx calls holds w) as [[[flushed stop] holds'] w'].
  destruct H as (Ht & Hj & Hs & Hempty). split_and!; [done|done|].
  intros -> id fs Hid. exfalso.
  destruct (holds !! id) as [fs0|] eqn:E; [|by rewrite (Hs id E) in Hid].
  destruct (Hok id fs0 E) as (buf & Hopen & _).
  rewrite (Hempty eq_refl id) in Hid; [done|]. subst calls.
  apply list_elem_of_fmap. exists (call_event (id, buf)). split; [done|].
  apply list_elem_of_In, in_map_iff. exists (id, buf). split; [done|].
  apply list_elem_of_In. rewrite Horder. by apply elem_of_map_to_list.
Qed.

Lemma process_event_ok evs st ev w :
  ev ∈ evs → holds_ok evs (ss_run st) (ss_holds st) →
  let '(ys, next, w') := process_event json url_parse order settings ctx ev st w in
  step_ok evs w w' ys next.
Proof.
  intros Hev Hok. unfold process_event. cbv zeta. cbn [ss_decoder ss_run ss_holds ss_events ss_bytes].
  destruct (exceeded _ _ _) as [reason|].
  { unfold mbind, eff_bind. metric. split_and!; [by rewrite Hm|apply out_ok_error|done]. }
  destruct (decode json (sse_data ev) (malformed_mode settings)) as [f| |e|e] eqn:Hd.
  - destruct (is_run_end f).
    + unfold mbind, eff_bind.
      pose proof (sweep_open_ok evs (ss_run st) (ss_holds st) w Hok) as H.
      destruct (sweep_open_calls url_parse order (ss_run st) ctx (ss_holds st) w)
        as [[[[flushed stop] run] holds] w1]. destruct H as (Ht & Hj & Hs).
      destruct stop as [reason|].
      * split_and!; [done| |done]. exists flushed, [run_error json reason]. split_and!; [done|done|].
        right. eauto.
      * match goal with |- context [inspect_fragment json url_parse ctx f (sse_raw ev) ?st' w1] =>
          pose proof (inspect_fragment_ok evs st' ev f w1 Hev Hd (Hs eq_refl)) as H;
          destruct (inspect_fragment json url_parse ctx f (sse_raw ev) st' w1) as [[ys next] w2]
        end.
        destruct H as (Ht2 & Ho & Hn). split_and!; [by etrans| |done].
        eapply (out_ok_app evs evs (trail w1)); [done|done|by apply out_ok_body|done].
    + by apply inspect_fragment_ok.
  - split_and!; [done| |by intros st' [= <-]]. apply out_ok_body. constructor; [|done].
    by eapply just_uninspected.
  - unfold mbind, eff_bind. metric. split_and!; [by rewrite Hm|by apply out_ok_body; constructor|].
    by intros st' [= <-].
  - unfold mbind, eff_bind. metric. split_and!; [by rewrite Hm|apply out_ok_error|done].
Qed.

(** A sound step followed by a sound rest. *)
Lemma step_ok_app evs w w1 w2 ys ys' st next :
  step_ok evs w w1 ys (Some st) → step_ok evs w1 w2 ys' next → step_ok evs w w2 (ys ++ ys') next.
Proof.
  intros (H1 & H2 & H3) (H4 & H5 & H6). split_and!; [by etrans| |done].
  by eapply (out_ok_app evs evs (trail w1)).
Qed.

(** Processing an event leaves the decoder alone. *)
Lemma process_event_decoder ev st w ys st' w' :
  process_event json url_parse order settings ctx ev st w = (ys, Some st', w') →
  ss_decoder st' = ss_decoder st.
Proof.
  unfold process_event, inspect_fragment, mbind, eff_bind, mret, eff_ret. cbv zeta.
  cbn [ss_decoder ss_run ss_holds ss_events ss_bytes].
  intros H. repeat (case_match; simplify_eq/=; try done).
Qed.

Lemma process_events_ok evs events st w :
  events ⊆ evs → holds_ok evs (ss_run st) (ss_holds st) →
  let '(ys, next, w') := process_events json url_parse order settings ctx events st w in
  step_ok evs w w' ys next
  ∧ ∀ st', next = Some st' → ss_decoder st' = ss_decoder st.
Proof.
  revert st w. induction events as [|ev events IH]; intros st w Hsub Hok.
  { split; [|by intros st' [= <-]]. split_and!; [done|by apply out_ok_body; constructor|].
    by intros st' [= <-]. }
  cbn [process_events]. unfold mbind, eff_bind, mret, eff_ret.
  assert (ev ∈ evs) as Hev by (apply Hsub; by left).
  assert (events ⊆ evs) as Hsub' by (intros x Hx; apply Hsub; by right).
  pose proof (process_event_ok evs st ev w Hev Hok) as H.
  destruct (process_event json url_parse order settings ctx ev st w) as [[ys [st1|]] w1] eqn:Ep; [|by split].
  apply process_event_decoder in Ep. specialize (IH st1 w1 Hsub' (proj2 (proj2 H) st1 eq_refl)).
  destruct (process_events json url_parse order settings ctx events st1 w1) as [[ys' next] w2].
  destruct IH as [IH Hd]. split; [by eapply step_ok_app|]. intros st' Hn. by rewrite <- Ep, Hd.
Qed.

Lemma process_item_ok evs item st w :
  received (ss_decoder st) [item] ⊆ evs → holds_ok evs (ss_run st) (ss_holds st) →
  let '(ys, next, w') := process_item json url_parse order settings ctx item st w in
  step_ok evs w w' ys next
  ∧ ∀ st', next = Some st' → ∃ chunk, item = Ok chunk ∧ ss_decoder st' = (push (ss_decoder st) chunk).2.
Proof.
  intros Hsub Hok. destruct item as [chunk|error]; cbn [process_item received] in *.
  - destruct (push (ss_decoder st) chunk) as [events d] eqn:Hpush. cbn [fst snd] in *.
    rewrite app_nil_r in Hsub. destruct (_ && _).
    + unfold mbind, eff_bind. metric. split; [|done].
      split_and!; [by rewrite Hm|apply out_ok_error|done].
    + match goal with |- context [process_events _ _ _ _ _ events ?st' w] =>
        pose proof (process_events_ok evs events st' w Hsub Hok) as H;
        destruct (process_events json url_parse order settings ctx events st' w) as [[ys next] w'] end.
      destruct H as [H Hd]. split; [done|]. intros st' Hn. exists chunk. rewrite Hpush. by rewrite (Hd st' Hn).
  - unfold mbind, eff_bind. pose proof (upstream_silent error w) as Hu.
    destruct (record_upstream_error error w) as [[] w1]. cbn [snd] in Hu. split; [|done].
    split_and!; [by rewrite Hu|apply out_ok_error|done].
Qed.

Lemma stream_from_ok evs items st w :
  received (ss_decoder st) items ⊆ evs → holds_ok evs (ss_run st) (ss_holds st) →
  let '(ys, w') := stream_from json url_parse order settings ctx items st w in
  trail w ⊆ trail w' ∧ out_ok evs (trail w') ys true.
Proof.
  revert st w. induction items as [|item items IH]; intros st w Hsub Hok; cbn [stream_from];
    unfold mbind, eff_bind, mret, eff_ret.
  - pose proof (sweep_open_ok evs (ss_run st) (ss_holds st) w Hok) as H.
    destruct (sweep_open_calls url_parse order (ss_run st) ctx (ss_holds st) w)
      as [[[[flushed stop] run] holds] w1]. destruct H as (Ht & Hj & _). split; [done|].
    exists flushed, (match stop with Some reason => [run_error json reason] | None => [] end).
    split_and!; [done|done|]. destruct stop; [right; eauto|by left].
  - assert (received (ss_decoder st) [item] ⊆ evs) as Hone.
    { intros x Hx. apply Hsub. destruct item as [chunk|]; cbn [received] in *; [|done].
      rewrite app_nil_r in Hx. apply elem_of_app. by left. }
    pose proof (process_item_ok evs item st w Hone Hok) as H.
    destruct (process_item json url_parse order settings ctx item st w) as [[ys [st1|]] w1].
    + destruct H as [H Hd]. destruct (Hd st1 eq_refl) as (chunk & -> & Hd1).
      destruct H as (Ht & Ho & Hn). cbn [received] in Hsub.
      assert (received (ss_decoder st1) items ⊆ evs) as Hrest.
      { intros x Hx. apply Hsub. rewrite <- Hd1. apply elem_of_app. by right. }
      specialize (IH st1 w1 Hrest (Hn st1 eq_refl)).
      destruct (stream_from json url_parse order settings ctx items st1 w1) as [ys' w2].
      destruct IH as [Ht2 Ho2]. split; [by etrans|].
      by eapply (out_ok_app evs evs (trail w1)).
    + destruct H as [(Ht & Ho & _) _]. by split.
Qed.
End mediation.

(** C3: complete mediation of the response stream. Whatever the agent sends and however
    it is cut into chunks, every frame the client receives is justified: the raw frame
    of a received event that carries nothing to inspect, or of one whose event the
    audit trail shows as judged and not stopped; a frame of a tool call only if the
    whole assembled call of that id (under the name its start announced) was judged and
    not stopped; or a policy's rewritten event. The only other frame is one [RUN_ERROR],
    at the very end. *)
Theorem stream_mediation json url_parse order {W : Type} `{!PolicyPort W, !AuditSink W,
    !HostResolver W, !SessionMemory W, !AuditSinkLaws W, !ProxyMetrics W, !MetricsFrames W}
    items ctx settings w :
  (∀ m, order m ≡ₚ map_to_list m) →
  let '(ys, w') := inspect_stream json url_parse order items ctx settings w in
  ∃ body tail, ys = body ++ tail
    ∧ Forall (justified json settings ctx (received SseDecoder_new items) (trail w')) body
    ∧ (tail = [] ∨ ∃ r, tail = [run_error json r]).
Proof.
  intros Horder. unfold inspect_stream.
  pose proof (stream_from_ok json url_parse settings ctx order Horder (received SseDecoder_new items)
                items (initial_state settings ctx) w) as H.
  destruct (stream_from json url_parse order settings ctx items _ w) as [ys w'].
  destruct H as [_ (body & tail & -> & Hb & Ht)]; [done|intros id fs Hid; simpl in Hid; by rewrite lookup_empty in Hid|].
  exists body, tail. split_and!; [done|done|]. destruct Ht as [->|[_ Hr]]; auto.
Qed.

(** ** Transparency *)

(** Every frame held, over all calls. *)
Definition held (holds : Holds) : list bytes := concat (map_to_list holds).*2.

Lemma held_insert_None holds id l : holds !! id = None → held (<[id := l]> holds) ≡ₚ l ++ held holds.
Proof. intros H. unfold held. by rewrite map_to_list_insert. Qed.

Lemma held_delete holds id : held holds ≡ₚ default [] (holds !! id) ++ held (delete id holds).
Proof.
  destruct (holds !! id) as [l|] eqn:E; simpl.
  - rewrite <- (insert_delete_id holds id l E) at 1. apply held_insert_None, lookup_delete_eq.
  - by rewrite delete_id.
Qed.

Lemma held_hold holds id raw :
  held (<[id := default [] (holds !! id) ++ [raw]]> holds) ≡ₚ raw :: held holds.
Proof.
  rewrite <- insert_delete_eq, held_insert_None by apply lookup_delete_eq.
  rewrite (held_delete holds id). rewrite <- app_assoc. simpl. by rewrite <- Permutation_middle.
Qed.

(** A run in which no fragment is structurally rejected and every complete event is one of
    [ok], with the open calls drained before its end as the stream does. *)
Definition accepted (ok : AgentEvent → Prop) (o : StructuralOutcome) : Prop :=
  match o with
  | Ready e => ok e
  | ResolvedCall _ e => ok e
  | Buffering _ => True
  | Reject _ => False
  end.

Definition drained (order : gmap ToolCallId ToolCallBuffer → list (ToolCallId * ToolCallBuffer))
    (ok : AgentEvent → Prop) (r : Run) : Prop :=
  Forall (λ call, ok call.2) (drain_open order r).1.

Fixpoint clean (order : gmap ToolCallId ToolCallBuffer → list (ToolCallId * ToolCallBuffer))
    (ok : AgentEvent → Prop) (r : Run) (frs : list Fragment) : Prop :=
  match frs with
  | [] => drained order ok r
  | f :: rest =>
      (if is_run_end f then drained order ok r else True)
      ∧ let r := if is_run_end f then (drain_open order r).2 else r in
        accepted ok (Run_inspect r f).1 ∧ clean order ok (Run_inspect r f).2 rest
  end.

Lemma clean_mono order (ok ok' : AgentEvent → Prop) r frs :
  (∀ e, ok e → ok' e) → clean order ok r frs → clean order ok' r frs.
Proof.
  intros Hi. assert (∀ r, drained order ok r → drained order ok' r) as Hd.
  { intros r'. unfold drained. intros H. eapply Forall_impl; [exact H|]. intros c. apply Hi. }
  revert r. induction frs as [|f frs IH]; intros r; cbn [clean]; [apply Hd|].
  intros (H1 & H2 & H3). split; [destruct (is_run_end f); auto|]. split; [|by apply IH].
  unfold accepted in *. destruct (Run_inspect _ f).1; auto.
Qed.

(** Structural soundness alone, as a test. *)
Fixpoint sound (order : gmap ToolCallId ToolCallBuffer → list (ToolCallId * ToolCallBuffer))
    (r : Run) (frs : list Fragment) : bool :=
  match frs with
  | [] => true
  | f :: rest =>
      let '(o, r') := Run_inspect (if is_run_end f then (drain_open order r).2 else r) f in
      negb (is_reject o) && sound order r' rest
  end.

Lemma sound_clean order (ok : AgentEvent → Prop) r frs :
  (∀ e, ok e) → sound order r frs = true → clean order ok r frs.
Proof.
  intros Hok. assert (∀ r, drained order ok r) as Hd by (intros r'; apply Forall_forall; auto).
  revert r. induction frs as [|f frs IH]; intros r; cbn [clean sound]; [auto|]. cbv zeta.
  destruct (Run_inspect _ f) as [o r'].
  intros [Ho Hs]%andb_true_iff. split; [by destruct (is_run_end f)|]. split; [|by apply IH].
  by destruct o; simpl; auto.
Qed.

(** The fragments of the events read so far. *)
Definition fragments_of (json : SerdeJson) (mode : MalformedEventMode) (evs : list SseEvent) :
    list Fragment :=
  omap (λ ev, match decode json (sse_data ev) mode with
              | Decoded_Inspect f => Some f
              | _ => None
              end) evs.

(** An event the stream can read or need not. *)
Definition readable (json : SerdeJson) (mode : MalformedEventMode) (ev : SseEvent) : Prop :=
  match decode json (sse_data ev) mode with
  | Decoded_Inspect _ | PassThrough => True
  | _ => False
  end.

(** The limits of a run: a limit of zero is none. *)
Definition within (limit n : N) : Prop := limit = 0%N ∨ (n ≤ limit)%N.

(** After no chunk is more than the limit left of an event still incomplete. *)
Fixpoint frames_fit (limit : N) (d : SseDecoder) (chunks : list bytes) : Prop :=
  match chunks with
  | [] => True
  | chunk :: rest => within limit (pending_len (push d chunk).2) ∧ frames_fit limit (push d chunk).2 rest
  end.

(** The response budget covers what a stream has charged and the events to come. *)
Definition affords (b : ResponseBudget) (st : StreamState) (evs : list SseEvent) : Prop :=
  within (max_events b) (ss_events st + len evs)
  ∧ within (max_bytes b) (ss_bytes st + len (concat (sse_raw <$> evs))).

Lemma affords_next b st ev rest :
  affords b st (ev :: rest) →
  exceeded b (ss_events st + 1) (ss_bytes st + len (sse_raw ev)) = None
  ∧ ∀ st', ss_events st' = (ss_events st + 1)%N → ss_bytes st' = (ss_bytes st + len (sse_raw ev))%N →
           affords b st' rest.
Proof.
  unfold affords, within, exceeded. rewrite fmap_cons. cbn [concat]. rewrite len_cons, len_app.
  intros [He Hb]. split.
  - destruct (N.eqb_spec (max_events b) 0), (N.eqb_spec (max_bytes b) 0),
      (N.ltb_spec (max_events b) (ss_events st + 1)),
      (N.ltb_spec (max_bytes b) (ss_bytes st + len (sse_raw ev))); simpl; done || lia.
  - intros st' -> ->. rewrite <- !N.add_assoc. done.
Qed.

(** Every call with a frame held is open. *)
Definition held_by (holds : Holds) (r : Run) : Prop :=
  ∀ id, is_Some (holds !! id) → is_Some (open_tool_calls r !! id).

Section transparency.
Context (json : SerdeJson) (url_parse : bytes → option Url).
Context (order : gmap ToolCallId ToolCallBuffer → list (ToolCallId * ToolCallBuffer)).
Context (Horder : ∀ m, order m ≡ₚ map_to_list m).
Context {W : Type} `{!PolicyPort W, !AuditSink W, !HostResolver W, !SessionMemory W, !ProxyMetrics W}.
Context (settings : InspectionSettings) (ctx : InspectionContext).

(** The policy, the URL guard and the replay memory have nothing against an event. *)
Definition allowed (e : AgentEvent) : Prop := ∀ w, (judge url_parse ctx e w).1 = Allow.

(** A stream the guards have nothing against, with the events to come. *)
Record in_order (rest : list SseEvent) (st : StreamState) : Prop := {
  io_clean : clean order allowed (ss_run st) (fragments_of json (malformed_mode settings) rest);
  io_affords : affords (response_budget settings) st rest;
  io_held : held_by (ss_holds st) (ss_run st);
}.

#[local] Set Default Proof Using "Type*".

Lemma sweep_all calls holds w :
  Forall (λ call, allowed call.2) calls →
  let '(flushed, stop, holds', _) := sweep url_parse ctx calls holds w in
  stop = None ∧ held holds ≡ₚ flushed ++ held holds'
  ∧ ∀ id, is_Some (holds' !! id) → is_Some (holds !! id) ∧ id ∉ calls.*1.
Proof.
  revert holds w. induction calls as [|[id e] rest IH]; intros holds w Hall.
  { cbn. split_and!; [done..|]. intros id Hid. split; [done|apply not_elem_of_nil]. }
  apply Forall_cons in Hall as [Hallow Hall]. cbn [snd] in Hallow.
  cbn [sweep]. unfold authorize_call, mbind, eff_bind, mret, eff_ret.
  pose proof (Hallow w) as Hv. destruct (judge url_parse ctx e w) as [v w1]. cbn [fst] in Hv. subst v.
  cbn [call_action]. cbv beta iota zeta. destruct (record_inspected Outcome_Forward w1) as [[] w2].
  specialize (IH (delete id holds) w2 Hall).
  destruct (sweep url_parse ctx rest (delete id holds) w2) as [[[flushed stop] holds'] w'].
  destruct IH as (-> & Hp & Hk). split; [done|]. split; [by rewrite (held_delete holds id), Hp, app_assoc|].
  intros id' [[Hs Hd]%lookup_delete_is_Some Hn]%Hk. split; [done|]. rewrite fmap_cons. cbn [fst].
  rewrite not_elem_of_cons. naive_solver.
Qed.

Lemma sweep_open_all r holds w :
  drained order allowed r → held_by holds r →
  let '(flushed, stop, r', holds', _) := sweep_open_calls url_parse order r ctx holds w in
  stop = None ∧ r' = (drain_open order r).2 ∧ holds' = ∅ ∧ held holds ≡ₚ flushed.
Proof.
  unfold drained, sweep_open_calls, mbind, eff_bind, mret, eff_ret. cbn [drain_open fst]. intros Hd Hh.
  match goal with |- context [sweep url_parse ctx ?c holds w] =>
    pose proof (sweep_all c holds w Hd) as H; destruct (sweep url_parse ctx c holds w) as [[[? ?] holds'] ?] end.
  destruct H as (-> & Hp & Hk).
  assert (holds' = ∅) as ->; [|split_and!; [done..|]; by rewrite Hp, app_nil_r].
  apply map_empty. intros id. apply eq_None_not_Some. intros [Hs Hn]%Hk. apply Hn.
  destruct (Hh id Hs) as [buf Hb]. apply list_elem_of_fmap. exists (call_event (id, buf)). split; [done|].
  apply list_elem_of_fmap. exists (id, buf). split; [done|]. rewrite Horder. by apply elem_of_map_to_list.
Qed.

(** One readable fragment of a clean run: its frame is relayed or held, with whatever
    it released. *)
Lemma inspect_fragment_all f raw st w :
  accepted allowed (Run_inspect (ss_run st) f).1 → held_by (ss_holds st) (ss_run st) →
  let '(ys, next, _) := inspect_fragment json url_parse ctx f raw st w in
  ∃ run holds, next = Some (set_run_holds st run holds) ∧ run = (Run_inspect (ss_run st) f).2
         ∧ held_by holds run ∧ raw :: held (ss_holds st) ≡ₚ ys ++ held holds.
Proof.
  intros Hr Hh. unfold inspect_fragment, inspect.
  pose proof (inspect_cases (ss_run st) f) as Hcases.
  destruct (Run_inspect (ss_run st) f) as [o run']. specialize (Hcases o run' eq_refl). cbn [fst snd] in *.
  unfold authorize_call, mbind, eff_bind, mret, eff_ret.
  destruct o as [e|id e|id|r]; try done;
    try (pose proof (Hr w) as Hv; destruct (judge url_parse ctx e w) as [v w1];
         cbn [fst] in Hv; subst v);
    cbn [ready_action call_action apply_action]; unfold mbind, eff_bind, mret, eff_ret;
    cbv beta iota zeta;
    match goal with |- context [record_inspected ?o ?w] => destruct (record_inspected o w) as [[] w2] end;
    cbn [frames terminate]; eexists _, _; do 2 (split; [done|]); unfold held_by in *.
  - destruct Hcases as (_ & _ & ->). done.
  - destruct Hcases as (_ & buf & _ & _ & ->). split.
    + intros id'. rewrite !lookup_delete_is_Some. naive_solver.
    + rewrite (held_delete (ss_holds st) id), <- app_assoc. simpl. by rewrite Permutation_middle.
  - destruct Hcases as (_ & name & args & _ & -> & _). split.
    + intros id'. rewrite !lookup_insert_is_Some. naive_solver.
    + simpl. by rewrite held_hold.
Qed.

Lemma process_event_all ev rest st w :
  readable json (malformed_mode settings) ev → in_order (ev :: rest) st →
  let '(ys, next, _) := process_event json url_parse order settings ctx ev st w in
  ∃ st', next = Some st' ∧ in_order rest st' ∧ ss_decoder st' = ss_decoder st
         ∧ sse_raw ev :: held (ss_holds st) ≡ₚ ys ++ held (ss_holds st').
Proof.
  unfold readable, process_event. cbv zeta.
  intros Hr [Hc [Hin Hnext]%affords_next Hh]. revert Hr Hc. unfold fragments_of. cbn [omap list_omap].
  cbn [ss_decoder ss_run ss_holds ss_events ss_bytes]. rewrite Hin.
  destruct (decode json (sse_data ev) (malformed_mode settings)) as [f| | |]; try done.
  - intros _ (Hdr & Hacc & Hclean). destruct (is_run_end f).
    + unfold mbind, eff_bind, mret, eff_ret.
      pose proof (sweep_open_all (ss_run st) (ss_holds st) w Hdr Hh) as H.
      destruct (sweep_open_calls url_parse order (ss_run st) ctx (ss_holds st) w)
        as [[[[flushed stop] run] holds] w1]. destruct H as (-> & -> & -> & Hp).
      match goal with |- context [inspect_fragment json url_parse ctx f (sse_raw ev) ?st' w1] =>
        pose proof (inspect_fragment_all f (sse_raw ev) st' w1 Hacc) as H;
        destruct (inspect_fragment json url_parse ctx f (sse_raw ev) st' w1) as [[ys next] w2] end.
      destruct H as (run & holds & -> & -> & Hh' & Hp'); [intros id [? Hid]; discriminate Hid|].
      eexists. split_and!; [done|split; [done|by apply Hnext|done]|done|].
      cbn [set_run_holds ss_holds] in Hp' |- *. rewrite Hp, <- app_assoc, <- Hp'. simpl.
      by rewrite <- Permutation_cons_append.
    + match goal with |- context [inspect_fragment json url_parse ctx f (sse_raw ev) ?st' w] =>
        pose proof (inspect_fragment_all f (sse_raw ev) st' w Hacc Hh) as H;
        destruct (inspect_fragment json url_parse ctx f (sse_raw ev) st' w) as [[ys next] w2] end.
      destruct H as (run & holds & -> & -> & Hh' & Hp').
      eexists. split_and!; [done|split; [done|by apply Hnext|done]|done|done].
  - intros _ Hclean. eexists. split_and!; [done|split; [done|by apply Hnext|done]|done|done].
Qed.

Lemma process_events_all events rest st w :
  Forall (readable json (malformed_mode settings)) events → in_order (events ++ rest) st →
  let '(ys, next, _) := process_events json url_parse order settings ctx events st w in
  ∃ st', next = Some st' ∧ in_order rest st' ∧ ss_decoder st' = ss_decoder st
         ∧ (sse_raw <$> events) ++ held (ss_holds st) ≡ₚ ys ++ held (ss_holds st').
Proof.
  revert st w. induction events as [|ev events IH]; intros st w Hr Ho.
  { by exists st. }
  apply Forall_cons in Hr as [Hev Hr]. cbn [process_events app] in *.
  unfold mbind, eff_bind, mret, eff_ret.
  pose proof (process_event_all ev (events ++ rest) st w Hev Ho) as H.
  destruct (process_event json url_parse order settings ctx ev st w) as [[ys next] w1].
  destruct H as (st1 & -> & Ho1 & Hd1 & Hp). specialize (IH st1 w1 Hr Ho1).
  destruct (process_events json url_parse order settings ctx events st1 w1) as [[ys' next'] w2].
  destruct IH as (st2 & -> & Ho2 & Hd2 & Hp2). exists st2. split_and!; [done|done|congruence|].
  rewrite fmap_cons. simpl. rewrite <- app_assoc, <- Hp2.
  rewrite (Permutation_middle (sse_raw <$> events)), Hp.
  by rewrite Permutation_app_comm, <- app_assoc, (Permutation_app_comm (held _)).
Qed.

Lemma stream_from_all chunks st w :
  let evs := received (ss_decoder st) (Ok <$> chunks) in
  Forall (readable json (malformed_mode settings)) evs → in_order evs st →
  frames_fit (max_frame_bytes settings) (ss_decoder st) chunks →
  (sse_raw <$> evs) ++ held (ss_holds st) ≡ₚ
  (stream_from json url_parse order settings ctx (Ok <$> chunks) st w).1.
Proof.
  revert st w. induction chunks as [|chunk chunks IH]; intros st w evs Hr Ho Hf; subst evs.
  - cbn [fmap list_fmap stream_from received]. unfold mbind, eff_bind, mret, eff_ret.
    pose proof (sweep_open_all (ss_run st) (ss_holds st) w (io_clean _ _ Ho) (io_held _ _ Ho)) as Ha.
    destruct (sweep_open_calls url_parse order (ss_run st) ctx (ss_holds st) w)
      as [[[[flushed stop] run] holds] w1]. destruct Ha as (-> & _ & _ & Hp).
    cbn [fst]. by rewrite app_nil_r.
  - rewrite fmap_cons in *. cbn [received] in Hr, Ho |- *. apply Forall_app in Hr as [Hr1 Hr2].
    cbn [stream_from process_item frames_fit] in *. unfold mbind, eff_bind, mret, eff_ret.
    destruct (push (ss_decoder st) chunk) as [events d]. cbn [fst snd] in *. destruct Hf as [Hfit Hf].
    assert (negb (max_frame_bytes settings =? 0)%N && (max_frame_bytes settings <? pending_len d)%N = false)
      as -> by (unfold within in Hfit; destruct (N.eqb_spec (max_frame_bytes settings) 0); simpl; [done|];
                  apply N.ltb_ge; lia).
    match goal with |- context [process_events json url_parse order settings ctx events ?st' w] =>
      pose proof (process_events_all events (received d (Ok <$> chunks)) st' w Hr1) as H;
      destruct (process_events json url_parse order settings ctx events st' w) as [[ys next] w1] end.
    destruct H as (st1 & -> & Ho1 & Hd & Hp); [by destruct Ho; split|].
    cbn [ss_decoder] in Hd. subst d. specialize (IH st1 w1 Hr2 Ho1 Hf).
    destruct (stream_from json url_parse order settings ctx _ st1 w1) as [ys' w2].
    cbn [fst] in *. rewrite <- IH.
    rewrite fmap_app, <- app_assoc. rewrite (Permutation_app_comm (sse_raw <$> received _ _)).
    rewrite app_assoc. cbn [ss_holds] in Hp. rewrite Hp, <- app_assoc.
    by rewrite (Permutation_app_comm (held _)).
Qed.

Lemma inspect_stream_all chunks w :
  let evs := received SseDecoder_new (Ok <$> chunks) in
  affords (response_budget settings) (initial_state settings ctx) evs →
  frames_fit (max_frame_bytes settings) SseDecoder_new chunks →
  Forall (readable json (malformed_mode settings)) evs →
  clean order allowed (Run_new (ctx_run ctx) (budgets settings)) (fragments_of json (malformed_mode settings) evs) →
  sse_raw <$> evs ≡ₚ (inspect_stream json url_parse order (Ok <$> chunks) ctx settings w).1.
Proof.
  intros evs Hb Hf Hr Hc. unfold inspect_stream.
  rewrite <- (stream_from_all chunks (initial_state settings ctx) w); [by rewrite app_nil_r|done| |done].
  split; [done..|]. intros id [fs Hid]. discriminate Hid.
Qed.
End transparency.


(** ** Witnesses *)

(** A run with one tool call, by the texts of its events. *)
Definition demo_event (kind : bytes) (fields : list (bytes * Value)) : Value :=
  Object (fields ++ [(lit "type", String_ kind)]).

Definition demo_stream_json : SerdeJson :=
  mkSerdeJson
    (λ s, if bool_decide (s = lit "run") then Some (demo_event (lit "RUN_STARTED") [])
          else if bool_decide (s = lit "call") then
            Some (demo_event (lit "TOOL_CALL_START") [(lit "toolCallId", String_ (lit "c1"));
                                                (lit "toolCallName", String_ (lit "rm"))])
          else if bool_decide (s = lit "hi") then
            Some (demo_event (lit "TEXT_MESSAGE_CONTENT") [(lit "delta", String_ (lit "hello"));
                                                     (lit "messageId", String_ (lit "m1"))])
          else if bool_decide (s = lit "end") then
            Some (demo_event (lit "TOOL_CALL_END") [(lit "toolCallId", String_ (lit "c1"))])
          else if bool_decide (s = lit "done") then Some (demo_event (lit "RUN_FINISHED") [])
          else None)
    (λ _, None) (λ _, lit "json").

Definition demo_chunks : list bytes :=
  map encode [lit "run"; lit "call"; lit "hi"; lit "end"; lit "done"].

Definition demo_settings : InspectionSettings :=
  mkInspectionSettings Budgets_default Mode_Terminate (mkResponseBudget 8 0) 1048576.

Module DemoMetrics.
#[export] Instance demo_metrics : ProxyMetrics DemoPorts.world :=
  {| record_run := mret tt; record_upstream_error _ := mret tt; record_inspected _ := mret tt |}.
End DemoMetrics.

#[local] Existing Instances DemoPorts.demo_policy DemoPorts.demo_audit DemoPorts.demo_dns_port
  DemoPorts.demo_memory DemoPorts.demo_trail DemoMetrics.demo_metrics.

#[local] Instance demo_metrics_frames : MetricsFrames DemoPorts.world.
Proof. by split. Qed.

(** The denied call's frames are withheld, the rest relayed. *)
Lemma demo_stream_frames :
  (inspect_stream demo_stream_json demo_url_parse map_to_list (Ok <$> demo_chunks) DemoPorts.ctx
     demo_settings DemoPorts.start).1 =
  [encode (lit "run"); encode (lit "hi"); encode (lit "done")].
Proof. vm_compute. reflexivity. Qed.

Lemma stream_mediation_witness :
  let '(ys, w') := inspect_stream demo_stream_json demo_url_parse map_to_list
                     (Ok <$> demo_chunks) DemoPorts.ctx demo_settings DemoPorts.start in
  ∃ body tail, ys = body ++ tail
    ∧ Forall (justified demo_stream_json demo_settings DemoPorts.ctx
                (received SseDecoder_new (Ok <$> demo_chunks)) (trail w')) body
    ∧ (tail = [] ∨ ∃ r, tail = [run_error demo_stream_json r]).
Proof.
  apply (stream_mediation demo_stream_json demo_url_parse map_to_list (Ok <$> demo_chunks)
           DemoPorts.ctx demo_settings DemoPorts.start).
  intros m. reflexivity.
Defined.

(** The same run under a policy that allows everything and no replay memory. *)
Module AllowAll.
Definition world : Type := list (InspectionContext * AgentEvent * Verdict AgentEvent).
#[export] Instance policy : PolicyPort world := λ _ _ w, (Allow, w).
#[export] Instance audit : AuditSink world := λ ctx e v w, (tt, w ++ [(ctx, e, v)]).
#[export] Instance resolver : HostResolver world := λ _ w, ([], w).
#[export] Instance memory : SessionMemory world :=
  {| recall _ _ := mret None; remember _ _ _ := mret tt |}.
#[export] Instance metrics : ProxyMetrics world :=
  {| record_run := mret tt; record_upstream_error _ := mret tt; record_inspected _ := mret tt |}.
#[export] Instance trail_laws : AuditSinkLaws world.
Proof. by refine {| trail w := w |}. Defined.
#[export] Instance metrics_frames : MetricsFrames world.
Proof. by split. Qed.

Lemma judge_allows ctx e w : (judge (λ _, None) ctx e w).1 = Allow.
Proof.
  assert (∀ ts w, first_disallowed (W := world) (λ _, None) ts w = (None, w)) as Hf.
  { intros ts. induction ts as [|t ts IH]; intros w'; [done|]. cbn [first_disallowed].
    unfold classify_url. apply IH. }
  unfold judge, recall_tool, screen_urls, first_disallowed_url.
  destruct (tool_name e), (url_bearing_text e); unfold mbind, eff_bind, mret, eff_ret; simpl;
    rewrite ?Hf; done.
Qed.
End AllowAll.

#[local] Existing Instances AllowAll.policy AllowAll.audit AllowAll.resolver AllowAll.memory
  AllowAll.metrics AllowAll.trail_laws AllowAll.metrics_frames.

Lemma demo_stream_received :
  received SseDecoder_new (Ok <$> demo_chunks)
  = (λ d, mkSseEvent d None None (encode d))
      <$> [lit "run"; lit "call"; lit "hi"; lit "end"; lit "done"].
Proof. vm_compute. reflexivity. Qed.

Lemma demo_stream_fragments :
  fragments_of demo_stream_json (malformed_mode demo_settings)
    (received SseDecoder_new (Ok <$> demo_chunks))
  = [Fragment_Lifecycle RunStarted; ToolCallStarted (mkToolCallId (lit "c1")) (lit "rm");
     MessageChunk (mkMessageId (lit "m1")) (lit "hello"); ToolCallEnded (mkToolCallId (lit "c1"));
     Fragment_Lifecycle RunFinished].
Proof. vm_compute. reflexivity. Qed.


(** ** What the budgets leave open *)

Section growth.
Context (json : SerdeJson) (url_parse : bytes → option Url).
Context (order : gmap ToolCallId ToolCallBuffer → list (ToolCallId * ToolCallBuffer)).
Context {W : Type} `{!PolicyPort W, !AuditSink W, !HostResolver W, !SessionMemory W,
  !ProxyMetrics W}.

Lemma empty_args_buffered r id buffer :
  run_phase r = Running → open_tool_calls r !! id = Some buffer →
  (len (buf_arguments buffer) ≤ max_tool_args_bytes (run_budgets r))%N →
  Run_inspect r (ToolCallArgs id []) = (Buffering id, r).
Proof.
  intros Hp Ho Hb. cbn [Run_inspect]. rewrite Hp, bool_decide_eq_false_2 by tauto.
  cbn [inspect_content]. unfold tool_call_args. rewrite Ho.
  replace (_ <? _)%N with false; [|symmetry; apply N.ltb_ge; unfold len in *; simpl; lia].
  rewrite app_nil_r. destruct buffer, r as [rid ph opened names bs]. unfold set_open. simpl in *.
  by rewrite insert_id.
Qed.

(** An argument frame without text is charged to no budget of the call but its bytes are
    kept: with the response budget switched off, the frames held for one open call grow
    with every such frame received, while the run stays as it was. *)
Theorem held_frames_grow settings context ev id buffer n st w :
  response_budget settings = unlimited →
  decode json (sse_data ev) (malformed_mode settings) = Decoded_Inspect (ToolCallArgs id []) →
  run_phase (ss_run st) = Running → open_tool_calls (ss_run st) !! id = Some buffer →
  (len (buf_arguments buffer) ≤ max_tool_args_bytes (run_budgets (ss_run st)))%N →
  ∃ st', (process_events json url_parse order settings context (replicate n ev) st w).1 = ([], Some st')
    ∧ ss_run st' = ss_run st ∧ ss_decoder st' = ss_decoder st
    ∧ default [] (ss_holds st' !! id) = default [] (ss_holds st !! id) ++ replicate n (sse_raw ev).
Proof.
  intros Hu Hd Hp Ho Hb. revert st w Hp Ho Hb. induction n as [|n IH]; intros st w Hp Ho Hb.
  { exists st. by rewrite app_nil_r. }
  cbn [replicate process_events]. unfold process_event. rewrite Hu, Hd.
  unfold unlimited, exceeded, inspect_fragment, inspect. cbn [max_events max_bytes N.eqb negb andb is_run_end].
  cbn [ss_run]. rewrite (empty_args_buffered _ _ _ Hp Ho Hb).
  unfold mbind, eff_bind, mret, eff_ret. cbn [apply_action].
  unfold mbind, eff_bind, mret, eff_ret. destruct (record_inspected Outcome_Buffer w) as [[] w1].
  cbn [frames terminate].
  cbn [ss_holds]. set (st1 := set_run_holds _ _ _).
  destruct (IH st1 w1 Hp Ho Hb) as (st' & He & Hr & Hdec & Hh). exists st'.
  destruct (process_events _ _ _ _ _ _ st1 w1) as [a w2]. simpl in He. subst a.
  split_and!; [done..|]. rewrite Hh. unfold st1. simpl. rewrite lookup_insert_eq. simpl.
  by rewrite <-app_assoc.
Qed.
End growth.
