(* ===== verification/Policy.v ===== *)
(** * Policy: the decision rules (crates/agate-policy)

    Tool matchers, patterns, JSON paths, the argument and result rules, the ruleset
    and the services that evaluate it.  The [regex] crate is a parameter
    ([RegexCrate]); what the code relies on of its syntax, for the expressions it
    builds itself, is stated in [RegexLaws] over a small expression type. *)
From stdpp Require Import options.
From S2P Require Import Prelude Text Json.

(** ** The regex crate *)

(** A compiled expression and the calls made on it; [Err] carries the text of
    [regex::Error]. *)
Record RegexCrate := mkRegexCrate {
  Regex : Type;
  Regex_new : bytes → result bytes Regex;
  is_match : Regex → bytes → bool;
  replace_all : Regex → bytes → bytes → bytes;
  Regex_as_str : Regex → bytes;
  regex_escape : bytes → bytes;
}.

(** ** Errors *)

Inductive ToolMatcherError :=
| BlankExact
| BlankGlob
| InvalidGlob (error : bytes)
| BlankRegex
| InvalidRegex (error : bytes).

Inductive PatternError :=
| Pattern_Blank
| Pattern_BlankRegex
| Pattern_InvalidRegex (error : bytes).

Inductive JsonPathError :=
| Path_Blank
| EmptySegment (path : bytes)
| ArrayIndexing (path : bytes).

Inductive ToolNameError := ToolName_Blank.

Inductive PolicyError :=
| Error_Pattern (e : PatternError)
| Error_ToolName (e : ToolNameError)
| Error_JsonPath (e : JsonPathError)
| Error_ToolMatcher (e : ToolMatcherError).

Definition tool_matcher_error_display (e : ToolMatcherError) : bytes :=
  match e with
  | BlankExact => lit "tool name must not be blank"
  | BlankGlob => lit "tool glob must not be blank"
  | InvalidGlob error => lit "invalid tool glob: " ++ error
  | BlankRegex => lit "tool regex must not be blank"
  | InvalidRegex error => lit "invalid tool regex: " ++ error
  end.

Definition pattern_error_display (e : PatternError) : bytes :=
  match e with
  | Pattern_Blank => lit "pattern must not be blank"
  | Pattern_BlankRegex => lit "pattern regex must not be blank"
  | Pattern_InvalidRegex error => lit "invalid pattern regex: " ++ error
  end.

Definition json_path_error_display (e : JsonPathError) : bytes :=
  match e with
  | Path_Blank => lit "rule path must not be blank"
  | EmptySegment path => lit "rule path '" ++ path ++ lit "' has an empty segment"
  | ArrayIndexing path =>
      lit "rule path '" ++ path
      ++ lit "' uses array indexing, which is not supported (object keys only)"
  end.

Definition tool_name_error_display (e : ToolNameError) : bytes :=
  match e with ToolName_Blank => lit "tool name must not be blank" end.

Definition policy_error_display (e : PolicyError) : bytes :=
  match e with
  | Error_Pattern e => pattern_error_display e
  | Error_ToolName e => tool_name_error_display e
  | Error_JsonPath e => json_path_error_display e
  | Error_ToolMatcher e => tool_matcher_error_display e
  end.

Section policy.
Context (rx : RegexCrate) (json : SerdeJson).

(** ** Tool matchers *)

Inductive ToolMatcher :=
| Exact (name : bytes)
| Glob (source : bytes) (regex : Regex rx)
| ToolRegex (source : bytes) (regex : Regex rx).

Definition ToolMatcher_exact (name : bytes) : result PolicyError ToolMatcher :=
  let normalized := trim name in
  match normalized with
  | [] => Err (Error_ToolMatcher BlankExact)
  | _ => Ok (Exact normalized)
  end.

(** [flush]: the literal run escaped onto the expression, if there is one. *)
Definition glob_flush (literal regex : bytes) : bytes :=
  match literal with [] => regex | _ => regex ++ regex_escape rx literal end.

Definition STAR : bytes := lit "*".
Definition QUESTION : bytes := lit "?".

(** The loop over [glob.chars()] with its two buffers. *)
Fixpoint glob_loop (chars : list bytes) (literal regex : bytes) : bytes :=
  match chars with
  | [] => glob_flush literal regex
  | c :: chars' =>
      if bool_decide (c = STAR) then glob_loop chars' [] (glob_flush literal regex ++ lit ".*")
      else if bool_decide (c = QUESTION) then glob_loop chars' [] (glob_flush literal regex ++ lit ".")
      else glob_loop chars' (literal ++ c) regex
  end.

Definition glob_to_regex (glob : bytes) : bytes :=
  glob_loop (chunks glob) [] (lit "^") ++ lit "$".

Definition ToolMatcher_glob (source : bytes) : result PolicyError ToolMatcher :=
  if is_blank source then Err (Error_ToolMatcher BlankGlob)
  else
    regex ← map_err (λ e, Error_ToolMatcher (InvalidGlob e)) (Regex_new rx (glob_to_regex source));
    Ok (Glob source regex).

Definition ToolMatcher_regex (source : bytes) : result PolicyError ToolMatcher :=
  if is_blank source then Err (Error_ToolMatcher BlankRegex)
  else
    let anchored := lit "^(?:" ++ source ++ lit ")$" in
    regex ← map_err (λ e, Error_ToolMatcher (InvalidRegex e)) (Regex_new rx anchored);
    Ok (ToolRegex source regex).

Definition ToolMatcher_matches (m : ToolMatcher) (tool : bytes) : bool :=
  match m with
  | Exact name => bool_decide (name = tool)
  | Glob _ regex | ToolRegex _ regex => is_match rx regex tool
  end.

Definition ToolMatcher_source (m : ToolMatcher) : bytes :=
  match m with Exact name => name | Glob source _ | ToolRegex source _ => source end.

Definition ToolMatcher_tag (m : ToolMatcher) : N :=
  match m with Exact _ => 0 | Glob _ _ => 1 | ToolRegex _ _ => 2 end.

(** [PartialEq]. *)
Definition ToolMatcher_eq (a b : ToolMatcher) : bool :=
  (ToolMatcher_tag a =? ToolMatcher_tag b)%N
  && bool_decide (ToolMatcher_source a = ToolMatcher_source b).

(** ** Tool policy *)

Inductive ToolPolicy :=
| AllowAllTools
| Allowlist (matchers : list ToolMatcher)
| Denylist (matchers : list ToolMatcher).

Definition matches_any (matchers : list ToolMatcher) (name : bytes) : bool :=
  existsb (λ m, ToolMatcher_matches m name) matchers.

Definition permits (p : ToolPolicy) (name : bytes) : bool :=
  match p with
  | AllowAllTools => true
  | Allowlist matchers => matches_any matchers name
  | Denylist matchers => is_ascii name && negb (matches_any matchers name)
  end.

(** ** Patterns *)

Inductive Pattern :=
| Literal (needle : bytes)
| PatternRegex (regex : Regex rx).

Definition REDACTION_MASK : bytes := lit "[REDACTED]".

Definition Pattern_literal (needle : bytes) : result PolicyError Pattern :=
  if is_blank needle then Err (Error_Pattern Pattern_Blank) else Ok (Literal needle).

Definition Pattern_regex (source : bytes) : result PolicyError Pattern :=
  if is_blank source then Err (Error_Pattern Pattern_BlankRegex)
  else
    regex ← map_err (λ e, Error_Pattern (Pattern_InvalidRegex e)) (Regex_new rx source);
    Ok (PatternRegex regex).

Definition Pattern_matches (p : Pattern) (text : bytes) : bool :=
  match p with
  | Literal needle => contains (to_ascii_lowercase text) (to_ascii_lowercase needle)
  | PatternRegex re => is_match rx re text
  end.

(** The loop of [mask_literal] on [haystack[cursor..]]; each round moves the cursor
    past a match. *)
Fixpoint mask_loop (fuel : nat) (haystack lower_needle : bytes) : bytes * bool :=
  match fuel with
  | O => (haystack, false)
  | S fuel' =>
      match find_sub lower_needle (to_ascii_lowercase haystack) with
      | None => (haystack, false)
      | Some offset =>
          let rest := drop (offset + length lower_needle) haystack in
          let '(masked, _) := mask_loop fuel' rest lower_needle in
          (take offset haystack ++ REDACTION_MASK ++ masked, true)
      end
  end.

Definition mask_literal (haystack needle : bytes) : bytes * bool :=
  mask_loop (S (length haystack)) haystack (to_ascii_lowercase needle).

Definition Pattern_mask (p : Pattern) (text : bytes) : bytes * bool :=
  match p with
  | Literal needle => mask_literal text needle
  | PatternRegex re =>
      if is_match rx re text then (replace_all rx re text REDACTION_MASK, true) else (text, false)
  end.

Definition Pattern_source (p : Pattern) : bytes :=
  match p with Literal needle => needle | PatternRegex re => Regex_as_str rx re end.

Definition Pattern_tag (p : Pattern) : N :=
  match p with Literal _ => 0 | PatternRegex _ => 1 end.

Definition Pattern_eq (a b : Pattern) : bool :=
  (Pattern_tag a =? Pattern_tag b)%N && bool_decide (Pattern_source a = Pattern_source b).

(** ** JSON paths *)

Record JsonPath := mkJsonPath { path_segments : list bytes; path_source : bytes }.

Definition DOT : ascii := byte_of_N 46.

(** [str::split('.')]. *)
Fixpoint split_on (sep : ascii) (b : bytes) : list bytes :=
  match b with
  | [] => [[]]
  | c :: b' =>
      if bool_decide (c = sep) then [] :: split_on sep b'
      else match split_on sep b' with
           | [] => [[c]]
           | s :: ss => (c :: s) :: ss
           end
  end.

Definition JsonPath_parse (source : bytes) : result PolicyError JsonPath :=
  let trimmed := trim source in
  match trimmed with
  | [] => Err (Error_JsonPath Path_Blank)
  | _ =>
      let segments := map trim (split_on DOT trimmed) in
      if existsb (λ s, match s with [] => true | _ => false end) segments then
        Err (Error_JsonPath (EmptySegment trimmed))
      else if existsb (λ s, contains s (lit "[") || contains s (lit "]")) segments then
        Err (Error_JsonPath (ArrayIndexing trimmed))
      else Ok (mkJsonPath segments trimmed)
  end.

Fixpoint get_segments (segments : list bytes) (current : Value) : option Value :=
  match segments with
  | [] => Some current
  | s :: rest => next ← get s current; get_segments rest next
  end.

Definition JsonPath_get (p : JsonPath) (value : Value) : option Value :=
  get_segments (path_segments p) value.

Definition get_text (p : JsonPath) (value : Value) : option bytes :=
  node ← JsonPath_get p value;
  Some (match node with String_ text => text | other => to_string json other end).

Definition JsonPath_eq (a b : JsonPath) : bool := bool_decide (path_segments a = path_segments b).

(** ** Rules *)

Record ToolName := mkToolName { tool_name_str : bytes }.

Definition ToolName_new (name : bytes) : result PolicyError ToolName :=
  let normalized := trim name in
  match normalized with
  | [] => Err (Error_ToolName ToolName_Blank)
  | _ => Ok (mkToolName normalized)
  end.

Record ContentMatch := mkContentMatch {
  cm_tool : option ToolName;
  cm_path : option JsonPath;
  cm_marker : Pattern;
}.

Definition ContentMatch_new (tool : option ToolName) (marker : Pattern) : ContentMatch :=
  mkContentMatch tool None marker.

Definition with_path (m : ContentMatch) (path : JsonPath) : ContentMatch :=
  mkContentMatch (cm_tool m) (Some path) (cm_marker m).

(** The guard [if let Some(tool) = &self.tool && name != Some(tool.as_str())]. *)
Definition scope_differs (m : ContentMatch) (name : option bytes) : bool :=
  match cm_tool m with
  | Some tool => negb (bool_decide (name = Some (tool_name_str tool)))
  | None => false
  end.

Definition ContentMatch_matches (m : ContentMatch) (name : option bytes) (content : bytes)
    (parsed : option Value) : bool :=
  if scope_differs m name then false
  else
    match cm_path m with
    | None => Pattern_matches (cm_marker m) content
    | Some path =>
        match value ← parsed; get_text path value with
        | Some text => Pattern_matches (cm_marker m) text
        | None => false
        end
    end.

(** [ArgumentRule] and [ResultRule], thin wrappers of the same match. *)
Record ArgumentRule := mkArgumentRule { ar_match : ContentMatch }.
Record ResultRule := mkResultRule { rr_match : ContentMatch }.

Definition ArgumentRule_matches (r : ArgumentRule) (name arguments : bytes)
    (parsed : option Value) : bool :=
  ContentMatch_matches (ar_match r) (Some name) arguments parsed.

Definition ResultRule_matches (r : ResultRule) (name : option bytes) (content : bytes)
    (parsed : option Value) : bool :=
  ContentMatch_matches (rr_match r) name content parsed.

Record PolicyRuleset := mkPolicyRuleset {
  rs_tools : ToolPolicy;
  rs_argument_rules : list ArgumentRule;
  rs_result_rules : list ResultRule;
  rs_secrets : list Pattern;
}.

Definition PolicyRuleset_new (tools : ToolPolicy) (argument_rules : list ArgumentRule)
    (secrets : list Pattern) : PolicyRuleset :=
  mkPolicyRuleset tools argument_rules [] secrets.

Definition with_result_rules (r : PolicyRuleset) (rules : list ResultRule) : PolicyRuleset :=
  mkPolicyRuleset (rs_tools r) (rs_argument_rules r) rules (rs_secrets r).

Definition PolicyRuleset_allow_all : PolicyRuleset := PolicyRuleset_new AllowAllTools [] [].

(** ** Decisions *)

Inductive InspectedAction :=
| Action_ToolCall (name arguments : bytes)
| Action_Message (text : bytes)
| Action_ToolResult (name : option bytes) (content : bytes)
| Action_StateMutation (content : bytes)
| Action_Other.

Inductive PolicyDecision :=
| Decision_Allow
| Decision_Deny (reason : bytes)
| RedactText (text : bytes).

Definition authorize (policy : ToolPolicy) (name : bytes) : PolicyDecision :=
  if permits policy name then Decision_Allow
  else Decision_Deny (lit "tool '" ++ name ++ lit "' is not permitted").

(** [any(path is some).then(parse).flatten()]: the payload is parsed only for a path rule. *)
Definition parse_if (needed : bool) (content : bytes) : option Value :=
  if needed then from_str json content else None.

Definition has_path (m : ContentMatch) : bool :=
  match cm_path m with Some _ => true | None => false end.

Definition ArgumentInspector_inspect (rules : list ArgumentRule) (name arguments : bytes) :
    PolicyDecision :=
  let parsed := parse_if (existsb (λ r, has_path (ar_match r)) rules) arguments in
  if existsb (λ r, ArgumentRule_matches r name arguments parsed) rules then
    Decision_Deny (lit "tool '" ++ name ++ lit "' arguments matched a blocked pattern")
  else Decision_Allow.

Definition ResultInspector_inspect (rules : list ResultRule) (name : option bytes)
    (content : bytes) : PolicyDecision :=
  let parsed := parse_if (existsb (λ r, has_path (rr_match r)) rules) content in
  if existsb (λ r, ResultRule_matches r name content parsed) rules then
    let tool := default (lit "unknown") name in
    Decision_Deny (lit "tool '" ++ tool ++ lit "' result matched a blocked pattern")
  else Decision_Allow.

Definition detects (patterns : list Pattern) (text : bytes) : bool :=
  existsb (λ p, Pattern_matches p text) patterns.

(** The loop of [redact] over the patterns. *)
Fixpoint redact_loop (patterns : list Pattern) (current : bytes) (redacted : bool) : bytes * bool :=
  match patterns with
  | [] => (current, redacted)
  | p :: rest =>
      let '(next, hit) := Pattern_mask p current in
      if (hit : bool) then redact_loop rest next true else redact_loop rest current redacted
  end.

Definition redact (patterns : list Pattern) (text : bytes) : PolicyDecision :=
  let '(current, redacted) := redact_loop patterns text false in
  if (redacted : bool) then RedactText current else Decision_Allow.

Definition evaluate (ruleset : PolicyRuleset) (action : InspectedAction) : PolicyDecision :=
  match action with
  | Action_ToolCall name arguments =>
      match authorize (rs_tools ruleset) name with
      | Decision_Allow => ArgumentInspector_inspect (rs_argument_rules ruleset) name arguments
      | denied => denied
      end
  | Action_ToolResult name content =>
      match ResultInspector_inspect (rs_result_rules ruleset) name content with
      | Decision_Allow => redact (rs_secrets ruleset) content
      | denied => denied
      end
  | Action_Message text => redact (rs_secrets ruleset) text
  | Action_StateMutation content =>
      if detects (rs_secrets ruleset) content then
        Decision_Deny (lit "state mutation contains a secret pattern that cannot be masked in place")
      else Decision_Allow
  | Action_Other => Decision_Allow
  end.
End policy.

(** ** What the code relies on of the regex syntax *)

(** The pieces a glob is translated to: a literal run, [.*] and [.]. *)
Inductive Atom :=
| AtomLit (text : bytes)
| AtomRun
| AtomOne.

Definition NEWLINE : bytes := [byte_of_N 10].

Definition atom_source (rx : RegexCrate) (a : Atom) : bytes :=
  match a with
  | AtomLit text => regex_escape rx text
  | AtomRun => lit ".*"
  | AtomOne => lit "."
  end.

Definition atom_valid (a : Atom) : Prop :=
  match a with AtomLit text => valid_utf8 text = true | _ => True end.

(** The documented meaning of a concatenation of such pieces over a whole text: an
    escaped text matches itself, [.] one character other than a newline, and [.*] any
    number of those. *)
Fixpoint atoms_match (atoms : list Atom) (cs : list bytes) : Prop :=
  match atoms with
  | [] => cs = []
  | AtomLit text :: atoms => ∃ rest, cs = chunks text ++ rest ∧ atoms_match atoms rest
  | AtomOne :: atoms => ∃ c rest, cs = c :: rest ∧ c ≠ NEWLINE ∧ atoms_match atoms rest
  | AtomRun :: atoms =>
      ∃ run rest, cs = run ++ rest ∧ Forall (λ c, c ≠ NEWLINE) run ∧ atoms_match atoms rest
  end.

(** An expression that compiled and is anchored at both ends matches so. *)
Class RegexLaws (rx : RegexCrate) : Prop :=
  regex_anchored atoms re text :
    Forall atom_valid atoms → valid_utf8 text = true →
    Regex_new rx (lit "^" ++ concat (atom_source rx <$> atoms) ++ lit "$") = Ok re →
    (is_match rx re text = true ↔ atoms_match atoms (chunks text)).

(** ** Globs *)

(** Reference glob matching, a character at a time: [?] is one character, [*] any run,
    neither of them a newline, and every other character itself. *)
Fixpoint glob_matches (glob text : list bytes) : bool :=
  match glob with
  | [] => match text with [] => true | _ => false end
  | g :: glob' =>
      if bool_decide (g = STAR) then
        (fix star (text : list bytes) : bool :=
           glob_matches glob' text
           || match text with [] => false | c :: text' => negb (bool_decide (c = NEWLINE)) && star text' end)
          text
      else
        match text with
        | [] => false
        | c :: text' =>
            (if bool_decide (g = QUESTION) then negb (bool_decide (c = NEWLINE)) else bool_decide (c = g))
            && glob_matches glob' text'
        end
  end.

Lemma glob_matches_star glob text :
  glob_matches (STAR :: glob) text = true
  ↔ ∃ run rest, text = run ++ rest ∧ Forall (λ c, c ≠ NEWLINE) run ∧ glob_matches glob rest = true.
Proof.
  cbn [glob_matches]. rewrite bool_decide_eq_true_2 by done.
  induction text as [|c text IH].
  - rewrite orb_false_r. split.
    + intros H. by exists [], [].
    + intros (run & rest & E & _ & H). symmetry in E. by apply app_eq_nil in E as [-> ->].
  - rewrite orb_true_iff, andb_true_iff, negb_true_iff, bool_decide_eq_false, IH. split.
    + intros [H|(Hc & run & rest & -> & Hr & H)]; [by exists [], (c :: text)|].
      exists (c :: run), rest. by repeat constructor.
    + intros (run & rest & E & Hr & H). destruct run as [|c' run]; simpl in E; [subst; by left|].
      injection E as -> ->. apply Forall_cons in Hr as [? ?]. right. eauto 6.
Qed.

Section glob.
Context (rx : RegexCrate).

Definition flush_atoms (literal : bytes) : list Atom :=
  match literal with [] => [] | _ => [AtomLit literal] end.

(** The pieces the translation writes. *)
Fixpoint glob_atoms (chars : list bytes) (literal : bytes) : list Atom :=
  match chars with
  | [] => flush_atoms literal
  | c :: chars' =>
      if bool_decide (c = STAR) then flush_atoms literal ++ AtomRun :: glob_atoms chars' []
      else if bool_decide (c = QUESTION) then flush_atoms literal ++ AtomOne :: glob_atoms chars' []
      else glob_atoms chars' (literal ++ c)
  end.

Lemma glob_flush_atoms literal regex :
  glob_flush rx literal regex = regex ++ concat (atom_source rx <$> flush_atoms literal).
Proof. destruct literal; simpl; by rewrite ?app_nil_r. Qed.

Lemma glob_loop_atoms chars literal regex :
  glob_loop rx chars literal regex = regex ++ concat (atom_source rx <$> glob_atoms chars literal).
Proof.
  revert literal regex. induction chars as [|c chars IH]; intros literal regex;
    cbn [glob_loop glob_atoms]; [apply glob_flush_atoms|].
  repeat case_bool_decide; rewrite IH; [| |done];
    by rewrite glob_flush_atoms, fmap_app, concat_app, <- !app_assoc.
Qed.

Lemma glob_atoms_valid chars literal :
  Forall is_char chars → valid_utf8 literal = true → Forall atom_valid (glob_atoms chars literal).
Proof.
  intros Hc. revert literal. induction Hc as [|c chars [Hv _] _ IH]; intros literal Hl;
    cbn [glob_atoms].
  - destruct literal; repeat constructor; done.
  - assert (Forall atom_valid (flush_atoms literal)) as Hf by (destruct literal; repeat constructor; done).
    repeat case_bool_decide.
    + apply Forall_app. split; [done|]. constructor; [done|by apply IH].
    + apply Forall_app. split; [done|]. constructor; [done|by apply IH].
    + apply IH. by rewrite valid_utf8_app.
Qed.

Lemma flush_atoms_match literal atoms cs :
  atoms_match (flush_atoms literal ++ atoms) cs
  ↔ ∃ rest, cs = chunks literal ++ rest ∧ atoms_match atoms rest.
Proof. destruct literal; simpl; [|done]. split; [eauto|]. by intros (? & -> & ?). Qed.

Lemma glob_atoms_match chars literal cs :
  Forall is_char chars → valid_utf8 literal = true →
  atoms_match (glob_atoms chars literal) cs
  ↔ ∃ rest, cs = chunks literal ++ rest ∧ glob_matches chars rest = true.
Proof.
  intros Hc. revert literal cs.
  induction Hc as [|c chars [Hv Hch] _ IH]; intros literal cs Hl; cbn [glob_atoms].
  - rewrite <- (app_nil_r (flush_atoms literal)), flush_atoms_match. simpl.
    split; intros (rest & -> & H); exists rest; (split; [done|]); by destruct rest.
  - case_bool_decide as Hs; [subst c|].
    { rewrite flush_atoms_match. cbn [atoms_match]. setoid_rewrite glob_matches_star.
      setoid_rewrite IH; [|done]. split.
      - intros (rest & -> & run & r & -> & Hr & (r' & -> & H)). eauto 10.
      - intros (rest & -> & run & r & -> & Hr & H). eauto 12. }
    case_bool_decide as Hq; [subst c|].
    { rewrite flush_atoms_match. cbn [atoms_match glob_matches].
      rewrite (bool_decide_eq_false_2 (QUESTION = STAR)) by done.
      rewrite bool_decide_eq_true_2 by done.
      setoid_rewrite IH; [|done]. split.
      - intros (rest & -> & c & r & -> & Hne & (r' & -> & H)). eexists. split; [done|].
        simpl. by rewrite bool_decide_eq_false_2.
      - intros (rest & -> & H). exists rest. split; [done|]. destruct rest as [|c r]; [done|].
        apply andb_true_iff in H as [Hne H]. apply negb_true_iff, bool_decide_eq_false in Hne.
        eauto 10. }
    rewrite IH by (by rewrite valid_utf8_app). rewrite chunks_app, Hch by done.
    cbn [glob_matches]. rewrite !bool_decide_eq_false_2 by done. split.
    + intros (rest & -> & H). exists (c :: rest). rewrite <- app_assoc. split; [done|].
      by rewrite bool_decide_eq_true_2.
    + intros (rest & -> & H). destruct rest as [|c' r]; [done|].
      apply andb_true_iff in H as [He H]. apply bool_decide_eq_true in He as ->.
      exists r. by rewrite <- app_assoc.
Qed.

Lemma glob_to_regex_atoms glob :
  glob_to_regex rx glob
  = lit "^" ++ concat (atom_source rx <$> glob_atoms (chunks glob) []) ++ lit "$".
Proof. unfold glob_to_regex. by rewrite glob_loop_atoms, <- app_assoc. Qed.

Lemma glob_compiled `{!RegexLaws rx} source re name :
  valid_utf8 source = true → valid_utf8 name = true →
  Regex_new rx (glob_to_regex rx source) = Ok re →
  is_match rx re name = glob_matches (chunks source) (chunks name).
Proof.
  intros Hs Hn Hre. rewrite glob_to_regex_atoms in Hre.
  pose proof (chunks_valid _ Hs) as Hc. apply eq_bool_prop_intro. rewrite !Is_true_true.
  rewrite (regex_anchored _ re name (glob_atoms_valid _ [] Hc eq_refl) Hn Hre).
  rewrite glob_atoms_match by done. split; [by intros (? & -> & ?)|eauto].
Qed.
End glob.

(** ** Masking *)

Definition occurs (needle hay : bytes) : Prop := ∃ a r, hay = a ++ needle ++ r.

Lemma lower_app a b : to_ascii_lowercase (a ++ b) = to_ascii_lowercase a ++ to_ascii_lowercase b.
Proof. apply map_app. Qed.

Lemma lower_length a : length (to_ascii_lowercase a) = length a.
Proof. apply length_map. Qed.

Lemma lower_nil a : to_ascii_lowercase a = [] → a = [].
Proof. by destruct a. Qed.

(** [find] returns the leftmost occurrence. *)
Lemma find_sub_first needle hay k a r :
  find_sub needle hay = Some k → hay = a ++ needle ++ r → k ≤ length a.
Proof.
  revert k a. induction hay as [|x hay IH]; intros k a; cbn [find_sub].
  - case_match; [intros [= <-]; lia|done].
  - destruct (starts_with needle (x :: hay)) eqn:E; [intros [= <-]; lia|].
    destruct (find_sub needle hay) as [k'|]; [|done]. intros [= <-] H.
    destruct a as [|y a]; simpl in H.
    + assert (starts_with needle (x :: hay) = true) as E' by (apply starts_with_app; eauto). congruence.
    + injection H as _ H. pose proof (IH k' a eq_refl H). simpl. lia.
Qed.

(** [masks n hay out hit]: [out] is [hay] with each leftmost, non-overlapping
    occurrence of [n] in its lowered text replaced by the mask, the text around them
    kept; [hit] tells whether there was one. *)
Inductive masks (n : bytes) : bytes → bytes → bool → Prop :=
| masks_none hay : ¬ occurs n (to_ascii_lowercase hay) → masks n hay hay false
| masks_hit gap m rest out hit :
    to_ascii_lowercase m = n →
    ¬ occurs n (to_ascii_lowercase gap) →
    masks n rest out hit →
    masks n (gap ++ m ++ rest) (gap ++ REDACTION_MASK ++ out) true.

Lemma find_sub_None needle hay : find_sub needle hay = None → ¬ occurs needle hay.
Proof. intros E (a & r & ->). pose proof (find_sub_spec needle (a ++ needle ++ r)) as H. rewrite E in H. by eapply H. Qed.

(** One round of the loop, in the original text. *)
Lemma find_sub_split n hay k :
  n ≠ [] → find_sub n (to_ascii_lowercase hay) = Some k →
  ∃ m, hay = take k hay ++ m ++ drop (k + length n) hay ∧ to_ascii_lowercase m = n
       ∧ ¬ occurs n (to_ascii_lowercase (take k hay)).
Proof.
  intros Hn E. pose proof (find_sub_spec n (to_ascii_lowercase hay)) as H. rewrite E in H.
  destruct H as (r & Hr & Hk). rewrite lower_length in Hk.
  assert (to_ascii_lowercase (drop k hay) = n ++ r) as Hd.
  { unfold to_ascii_lowercase in *. rewrite <- skipn_map.
    rewrite <- (take_drop k (map lower_byte hay)) in Hr at 1. by apply app_inv_head in Hr. }
  exists (take (length n) (drop k hay)). split_and!.
  - by rewrite <- drop_drop, !take_drop.
  - unfold to_ascii_lowercase in *. by rewrite <- firstn_map, Hd, take_app_length.
  - intros (a & r' & Ha). pose proof (f_equal length Ha) as Hlen.
    rewrite lower_length, !length_app, length_take in Hlen.
    assert (to_ascii_lowercase hay = a ++ n ++ (r' ++ to_ascii_lowercase (drop k hay))) as Hh.
    { rewrite <- (take_drop k hay) at 1. rewrite lower_app, Ha, <- !app_assoc. done. }
    pose proof (find_sub_first _ _ _ _ _ E Hh). destruct n; [done|]. simpl in Hlen. lia.
Qed.

(** The fuel of [mask_literal] is enough: every round consumes the needle's bytes. *)
Lemma mask_loop_spec fuel hay n :
  n ≠ [] → length hay < fuel → masks n hay (mask_loop fuel hay n).1 (mask_loop fuel hay n).2.
Proof.
  intros Hn. revert hay. induction fuel as [|fuel IH]; intros hay Hf; [lia|]. cbn [mask_loop].
  destruct (find_sub n (to_ascii_lowercase hay)) as [k|] eqn:E.
  - destruct (find_sub_split n hay k Hn E) as (m & Hh & Hm & Hg).
    assert (length (drop (k + length n) hay) < fuel) as Hl.
    { rewrite length_drop. destruct n; [done|]. simpl.
      pose proof (f_equal length Hh) as Hlen. destruct m; [done|].
      rewrite !length_app, length_take, length_drop in Hlen. simpl in Hlen. lia. }
    specialize (IH _ Hl). destruct (mask_loop fuel _ n) as [out hit]. simpl in *.
    rewrite Hh at 1. by eapply masks_hit.
  - apply masks_none. by apply find_sub_None.
Qed.

Lemma mask_literal_masks hay needle :
  needle ≠ [] →
  masks (to_ascii_lowercase needle) hay (mask_literal hay needle).1 (mask_literal hay needle).2.
Proof. intros Hn. apply mask_loop_spec; [|lia]. intros ->%lower_nil. done. Qed.

Lemma mask_literal_hit hay needle :
  (mask_literal hay needle).2 = contains (to_ascii_lowercase hay) (to_ascii_lowercase needle).
Proof.
  unfold mask_literal, contains. cbn [mask_loop].
  destruct (find_sub _ _); [|done]. by destruct (mask_loop _ _ _).
Qed.

(** ** Redaction leaves nothing behind *)

(** An occurrence does not straddle a byte the needle does not have. *)
Lemma occurs_app_sep x n g t : x ∉ n → occurs n (g ++ x :: t) → occurs n g ∨ occurs n t.
Proof.
  intros Hx (a & r & H). revert a H. induction g as [|z g IH]; intros a H.
  - destruct a as [|y a]; simpl in H; [|injection H as -> ->; right; by exists a, r].
    destruct n as [|y n]; [left; by exists [], []|]. injection H as -> _. by destruct Hx; left.
  - destruct a as [|y a]; simpl in H.
    + left. clear IH. cut (∃ s, z :: g = n ++ s); [intros [s ->]; by exists [], s|].
      change (z :: g ++ x :: t) with ((z :: g) ++ x :: t) in H.
      revert Hx H. generalize (z :: g). clear. intros g. revert g.
      induction n as [|y n IH]; intros g Hx H; [by exists g|].
      destruct g as [|w g]; simpl in H; injection H as -> H; [by destruct Hx; left|].
      destruct (IH g) as [s ->]; [by intros ?; apply Hx; right|done|]. by exists s.
    + injection H as -> H. destruct (IH a H) as [(a' & r' & ->)|?]; [|by right].
      left. by exists (y :: a'), r'.
Qed.

Definition mask_safe (needle : bytes) : bool :=
  let n := to_ascii_lowercase needle in
  negb (contains n (lit "[")) && negb (contains n (lit "]"))
  && negb (contains (lit "redacted") n).

(** A lowered needle the mask neither contains nor can be part of. *)
Definition safe (n : bytes) : Prop :=
  (byte_of_N 91 ∉ n) ∧ (byte_of_N 93 ∉ n) ∧ ¬ occurs n (lit "redacted").

Lemma contains_byte hay c : contains hay [c] = false → c ∉ hay.
Proof.
  intros H Hc. apply list_elem_of_split in Hc as (a & r & ->).
  assert (contains (a ++ c :: r) [c] = true) by (apply contains_spec; eauto). congruence.
Qed.

Lemma mask_safe_spec needle : mask_safe needle = true → safe (to_ascii_lowercase needle).
Proof.
  unfold mask_safe. rewrite !andb_true_iff, !negb_true_iff. intros [[H1 H2] H3]. split_and!.
  - by apply contains_byte.
  - by apply contains_byte.
  - intros Ho%contains_spec. congruence.
Qed.

Lemma occurs_around_mask n g o :
  safe n → occurs n (to_ascii_lowercase (g ++ REDACTION_MASK ++ o)) →
  occurs n (to_ascii_lowercase g) ∨ occurs n (to_ascii_lowercase o).
Proof.
  intros (H1 & H2 & H3). rewrite !lower_app.
  change (to_ascii_lowercase REDACTION_MASK) with (byte_of_N 91 :: lit "redacted" ++ [byte_of_N 93]).
  cbn [app]. rewrite <- app_assoc. intros [?|H]%occurs_app_sep; [by left| |done].
  apply occurs_app_sep in H as [?|?]; [done|by right|done].
Qed.

(** Masking creates no new occurrence of a safe needle, *)
Lemma masks_no_new n q hay out hit :
  safe q → masks n hay out hit →
  occurs q (to_ascii_lowercase out) → occurs q (to_ascii_lowercase hay).
Proof.
  intros Hq. induction 1 as [|gap m rest out hit Hm Hg _ IH]; [done|].
  intros [(a & r & E)|(a & r & E)%IH]%occurs_around_mask; [| |done]; rewrite !lower_app, E.
  - exists a, (r ++ to_ascii_lowercase m ++ to_ascii_lowercase rest). by rewrite <- !app_assoc.
  - exists (to_ascii_lowercase gap ++ to_ascii_lowercase m ++ a), r. by rewrite <- !app_assoc.
Qed.

(** and removes every occurrence of its own. *)
Lemma masks_removed n hay out hit : safe n → masks n hay out hit → ¬ occurs n (to_ascii_lowercase out).
Proof.
  intros Hn. induction 1 as [|gap m rest out hit Hm Hg _ IH]; [done|].
  by intros [?|?]%occurs_around_mask.
Qed.

Section redaction.
Context (rx : RegexCrate).

(** What [Pattern::literal] builds, with a needle that does not interact with the mask. *)
Definition safe_literal (p : Pattern rx) : Prop :=
  ∃ needle, Pattern_literal rx needle = Ok p ∧ mask_safe needle = true.

Lemma safe_literal_inv p :
  safe_literal p → ∃ needle, p = Literal rx needle ∧ needle ≠ [] ∧ safe (to_ascii_lowercase needle).
Proof.
  intros (needle & Hp & Hs%mask_safe_spec). unfold Pattern_literal in Hp.
  destruct (is_blank needle) eqn:E; [done|]. injection Hp as <-.
  exists needle. split_and!; [done|by intros ->|done].
Qed.

Lemma Pattern_mask_hit (p : Pattern rx) text : (Pattern_mask rx p text).2 = Pattern_matches rx p text.
Proof. destruct p; simpl; [apply mask_literal_hit|]. by case_match. Qed.

Lemma matches_occurs needle text :
  Pattern_matches rx (Literal rx needle) text = true
  ↔ occurs (to_ascii_lowercase needle) (to_ascii_lowercase text).
Proof. apply contains_spec. Qed.

(** Detection and masking agree on whether there is anything to mask. *)
Lemma redact_loop_hit patterns text b :
  (redact_loop rx patterns text b).2 = b || (redact_loop rx patterns text false).2
  ∧ ((redact_loop rx patterns text false).2 = false →
     (redact_loop rx patterns text b).1 = text ∧ detects rx patterns text = false)
  ∧ (detects rx patterns text = false → (redact_loop rx patterns text false).2 = false).
Proof.
  revert text b. induction patterns as [|p ps IH]; intros text b; [by destruct b|].
  unfold detects in *. cbn [redact_loop existsb]. pose proof (Pattern_mask_hit p text) as Hh.
  destruct (Pattern_mask rx p text) as [next hit]. simpl in Hh. subst hit.
  destruct (Pattern_matches rx p text) eqn:E; simpl.
  - destruct (IH next true) as (-> & _ & _). simpl. rewrite orb_true_r. done.
  - apply IH.
Qed.

Lemma redact_loop_clean patterns text b q :
  Forall safe_literal patterns → safe_literal q →
  (Pattern_matches rx q (redact_loop rx patterns text b).1 = true → Pattern_matches rx q text = true)
  ∧ (q ∈ patterns → Pattern_matches rx q (redact_loop rx patterns text b).1 = false).
Proof.
  intros Hps Hq. revert text b. induction Hps as [|p ps Hp Hps IH]; intros text b.
  { split; [done|]. by intros ?%elem_of_nil. }
  cbn [redact_loop]. pose proof (Pattern_mask_hit p text) as Hh.
  destruct (safe_literal_inv p Hp) as (np & -> & Hnp & Hsp).
  destruct (safe_literal_inv q Hq) as (nq & -> & _ & Hsq).
  pose proof (mask_literal_masks text np Hnp) as Hm. cbn [Pattern_mask] in Hh |- *.
  destruct (mask_literal text np) as [next hit]. cbn [fst snd] in Hh, Hm. subst hit.
  destruct (Pattern_matches rx (Literal rx np) text) eqn:E.
  - destruct (IH next true) as [H1 H2]. split.
    + intros H%H1. rewrite matches_occurs in *. by eapply masks_no_new.
    + intros [Heq|?]%elem_of_cons; [|by apply H2]. injection Heq as ->.
      apply not_true_is_false. intros H%H1%matches_occurs. by eapply masks_removed.
  - destruct (IH text b) as [H1 H2]. split; [done|].
    intros [Heq|?]%elem_of_cons; [|by apply H2]. injection Heq as ->.
    apply not_true_is_false. intros H%H1. congruence.
Qed.

Lemma redact_outcome secrets text :
  Forall safe_literal secrets →
  match redact rx secrets text with
  | Decision_Allow => detects rx secrets text = false
  | RedactText out => detects rx secrets text = true ∧ detects rx secrets out = false
  | Decision_Deny _ => False
  end.
Proof.
  intros Hs. unfold redact. destruct (redact_loop_hit secrets text false) as (_ & H1 & H2).
  assert (detects rx secrets (redact_loop rx secrets text false).1 = false) as Hc.
  { apply not_true_is_false. intros (q & Hq & Hm)%existsb_exists. apply list_elem_of_In in Hq.
    destruct (redact_loop_clean secrets text false q) as [_ H]; [done|by eapply Forall_forall|].
    rewrite H in Hm; done. }
  destruct (redact_loop rx secrets text false) as [out []]; simpl in *.
  - split; [|done]. destruct (detects rx secrets text); [done|]. by discriminate H2.
  - by apply H1.
Qed.
End redaction.

(** C12: redaction is complete. With literal secrets that do not interact with the mask's
    own text, the text handed on contains none of them in any letter case: a text left
    as it is has none, and of a redacted one none remains and none is created, whatever
    the order of the patterns and however their occurrences overlap. *)
Theorem redaction_complete rx secrets text :
  Forall (safe_literal rx) secrets →
  match redact rx secrets text with
  | Decision_Allow => detects rx secrets text = false
  | RedactText out => detects rx secrets text = true ∧ detects rx secrets out = false
  | Decision_Deny _ => False
  end.
Proof. apply redact_outcome. Qed.

(** ** Evaluation *)

Section evaluation.
Context (rx : RegexCrate) (json : SerdeJson).

(** Reference: each rule reads the payload on its own. *)
Definition rule_fires (name : option bytes) (content : bytes) (m : ContentMatch rx) : bool :=
  ContentMatch_matches rx json m name content (from_str json content).

Lemma content_match_parsed m name content parsed :
  has_path rx m = false →
  ContentMatch_matches rx json m name content parsed = rule_fires name content m.
Proof. unfold rule_fires, ContentMatch_matches, has_path. by destruct (cm_path rx m). Qed.

Lemma parse_once {R} (f : R → ContentMatch rx) rules name content :
  existsb (λ r, ContentMatch_matches rx json (f r) name content
                  (parse_if json (existsb (λ r, has_path rx (f r)) rules) content)) rules
  = existsb (rule_fires name content) (map f rules).
Proof.
  destruct (existsb (λ r, has_path rx (f r)) rules) eqn:E; revert E; simpl.
  - intros _. induction rules as [|r rules IH]; [done|]. simpl. by rewrite IH.
  - induction rules as [|r rules IH]; [done|]. cbn [existsb map]. intros [Hr Hrs]%orb_false_iff.
    by rewrite IH, content_match_parsed.
Qed.

Lemma evaluate_call rs name args :
  evaluate rx json rs (Action_ToolCall name args)
  = (if negb (permits rx (rs_tools rx rs) name) then
       Decision_Deny (lit "tool '" ++ name ++ lit "' is not permitted")
     else if existsb (rule_fires (Some name) args) (map (ar_match rx) (rs_argument_rules rx rs)) then
       Decision_Deny (lit "tool '" ++ name ++ lit "' arguments matched a blocked pattern")
     else Decision_Allow).
Proof.
  cbn [evaluate]. unfold authorize, ArgumentInspector_inspect, ArgumentRule_matches.
  rewrite parse_once. by destruct (permits _ _ _).
Qed.

Lemma evaluate_result rs name content :
  evaluate rx json rs (Action_ToolResult name content)
  = (if existsb (rule_fires name content) (map (rr_match rx) (rs_result_rules rx rs)) then
       Decision_Deny (lit "tool '" ++ default (lit "unknown") name
                      ++ lit "' result matched a blocked pattern")
     else redact rx (rs_secrets rx rs) content).
Proof.
  cbn [evaluate]. unfold ResultInspector_inspect, ResultRule_matches.
  rewrite parse_once. by destruct (existsb _ _).
Qed.
End evaluation.

(** C35: the evaluator decides as the rules read one by one. A tool call passes exactly
    when the tool policy permits its name and no argument rule, reading the arguments on
    its own, fires; a result passes to redaction exactly when no result rule fires; a
    state mutation passes exactly when redaction would leave its text alone; the
    payload's being parsed at most once, and only for a path rule, changes no verdict. *)
Theorem evaluate_rulewise rx json rs name args rname content :
  evaluate rx json rs (Action_ToolCall name args)
  = (if negb (permits rx (rs_tools rx rs) name) then
       Decision_Deny (lit "tool '" ++ name ++ lit "' is not permitted")
     else if existsb (rule_fires rx json (Some name) args) (map (ar_match rx) (rs_argument_rules rx rs)) then
       Decision_Deny (lit "tool '" ++ name ++ lit "' arguments matched a blocked pattern")
     else Decision_Allow)
  ∧ evaluate rx json rs (Action_ToolResult rname content)
    = (if existsb (rule_fires rx json rname content) (map (rr_match rx) (rs_result_rules rx rs)) then
         Decision_Deny (lit "tool '" ++ default (lit "unknown") rname
                        ++ lit "' result matched a blocked pattern")
       else redact rx (rs_secrets rx rs) content)
  ∧ (evaluate rx json rs (Action_StateMutation content) = Decision_Allow
     ↔ redact rx (rs_secrets rx rs) content = Decision_Allow).
Proof.
  split_and!; [apply evaluate_call|apply evaluate_result|].
  cbn [evaluate]. unfold redact.
  destruct (redact_loop_hit rx (rs_secrets rx rs) content false) as (_ & H1 & H2).
  destruct (redact_loop rx (rs_secrets rx rs) content false) as [out []]; simpl in *.
  - destruct (detects _ _ _); [by split|]. by discriminate H2.
  - destruct H1 as [_ ->]; done.
Qed.


(** ** A regex crate for the expressions built here *)

(** Escaping puts a backslash before every byte; an expression is [^], pieces, [$]. *)
Module ToyRegex.
Inductive Token := TByte (c : ascii) | TRun | TOne.

Definition BACKSLASH : ascii := byte_of_N 92.
Definition PERIOD : ascii := byte_of_N 46.
Definition ASTERISK : ascii := byte_of_N 42.

Definition escape (b : bytes) : bytes := concat (map (λ c, [BACKSLASH; c]) b).

(** The pieces up to the closing [$]. *)
Fixpoint parse (fuel : nat) (b : bytes) : option (list Token) :=
  match fuel with
  | O => None
  | S fuel' =>
      match b with
      | [] => None
      | c :: b1 =>
          if bool_decide (c = BACKSLASH) then
            match b1 with [] => None | x :: b2 => cons (TByte x) <$> parse fuel' b2 end
          else if bool_decide (c = PERIOD) then
            match b1 with
            | x :: b2 => if bool_decide (x = ASTERISK) then cons TRun <$> parse fuel' b2
                         else cons TOne <$> parse fuel' b1
            | [] => None
            end
          else if bool_decide (b = lit "$") then Some [] else None
      end
  end.

Fixpoint matches (toks : list Token) (b : bytes) : bool :=
  match toks with
  | [] => bool_decide (b = [])
  | TByte x :: toks => match b with y :: b' => bool_decide (x = y) && matches toks b' | [] => false end
  | TOne :: toks =>
      match chunks b with
      | c :: cs => negb (bool_decide (c = NEWLINE)) && matches toks (concat cs)
      | [] => false
      end
  | TRun :: toks =>
      existsb (λ i, forallb (λ c, negb (bool_decide (c = NEWLINE))) (take i (chunks b))
                    && matches toks (concat (drop i (chunks b))))
        (seq 0 (S (length (chunks b))))
  end.

Definition toy_regex : RegexCrate :=
  mkRegexCrate (list Token)
    (λ s, match s with
          | _ :: body => ok_or (lit "syntax") (parse (length body) body)
          | [] => Err (lit "syntax")
          end)
    matches (λ _ text _, text) (λ _, []) escape.

Definition tokens_of (a : Atom) : list Token :=
  match a with AtomLit text => map TByte text | AtomRun => [TRun] | AtomOne => [TOne] end.

(** What follows a piece never starts with an asterisk. *)
Definition closes (b : bytes) : Prop := ∃ c r, b = c :: r ∧ c ≠ ASTERISK.

Lemma sources_close atoms : closes (concat (atom_source toy_regex <$> atoms) ++ lit "$").
Proof.
  induction atoms as [|a atoms IH]; [by eexists _, _|].
  destruct a as [[|c t]| |]; simpl; [done|..]; by eexists _, _.
Qed.

Lemma parse_escaped text fuel rest toks :
  parse fuel rest = Some toks →
  parse (length text + fuel) (escape text ++ rest) = Some (map TByte text ++ toks).
Proof.
  intros H. induction text as [|c text IH]; [done|].
  change (escape (c :: text)) with (BACKSLASH :: c :: escape text). cbn [length Nat.add app parse].
  rewrite bool_decide_eq_true_2 by done. by rewrite IH.
Qed.

Lemma parse_more fuel more b toks : parse fuel b = Some toks → parse (fuel + more) b = Some toks.
Proof.
  revert b toks. induction fuel as [|fuel IH]; intros b toks; [done|]. cbn [parse Nat.add].
  destruct b as [|c b1]; [done|]. repeat case_bool_decide; try done; destruct b1 as [|x b2]; try done;
    repeat case_bool_decide; intros (ts & Hts & ->)%fmap_Some; by rewrite (IH _ _ Hts).
Qed.

Lemma parse_sources atoms :
  parse (length (concat (atom_source toy_regex <$> atoms) ++ lit "$"))
    (concat (atom_source toy_regex <$> atoms) ++ lit "$") = Some (atoms ≫= tokens_of).
Proof.
  induction atoms as [|a atoms IH]; [done|]. cbn [fmap list_fmap concat]. rewrite <- !app_assoc.
  pose proof (sources_close atoms) as (c & r & E & Hc).
  set (rest := concat (atom_source toy_regex <$> atoms) ++ lit "$") in *.
  rewrite bind_cons. destruct a as [text| |]; cbn [atom_source tokens_of].
  - rewrite length_app.
    replace (length (regex_escape toy_regex text) + length rest)
      with ((length text + length rest) + length text).
    + by apply parse_more, parse_escaped.
    + cut (length (escape text) = length text + length text); [simpl; lia|].
      induction text as [|x t IHt]; [done|]. simpl. unfold escape in IHt. lia.
  - change (parse (S (S (length rest))) (PERIOD :: ASTERISK :: rest) = Some (TRun :: atoms ≫= tokens_of)).
    rewrite <- (Nat.add_1_r (length rest)). apply (parse_more _ 1) in IH. cbn [parse].
    by rewrite IH.
  - change (parse (S (length rest)) (PERIOD :: rest) = Some (TOne :: atoms ≫= tokens_of)).
    cbn [parse]. rewrite IH, E. by rewrite (bool_decide_eq_false_2 (c = ASTERISK)).
Qed.

Lemma matches_bytes text toks b :
  matches (map TByte text ++ toks) b = true ↔ ∃ rest, b = text ++ rest ∧ matches toks rest = true.
Proof.
  revert b. induction text as [|c text IH]; intros b; simpl; [naive_solver|].
  destruct b as [|y b]; [naive_solver|]. rewrite andb_true_iff, bool_decide_eq_true, IH. naive_solver.
Qed.

Lemma matches_run toks b :
  matches (TRun :: toks) b = true
  ↔ ∃ run rest, chunks b = run ++ rest ∧ Forall (λ c, c ≠ NEWLINE) run ∧ matches toks (concat rest) = true.
Proof.
  cbn [matches]. rewrite existsb_exists. setoid_rewrite in_seq. setoid_rewrite andb_true_iff.
  setoid_rewrite forallb_forall. setoid_rewrite negb_true_iff. setoid_rewrite bool_decide_eq_false. split.
  - intros (i & _ & Hr & H). exists (take i (chunks b)), (drop i (chunks b)).
    rewrite take_drop. split_and!; [done| |done]. apply Forall_forall. intros c Hc. apply Hr.
    by apply list_elem_of_In.
  - intros (run & rest & E & Hr & H). exists (length run). rewrite E, take_app_length, drop_app_length.
    rewrite length_app. split_and!; [lia|lia| |done]. intros c Hc%list_elem_of_In.
    by eapply Forall_forall in Hr.
Qed.

Lemma matches_atoms atoms b :
  Forall atom_valid atoms → valid_utf8 b = true →
  matches (atoms ≫= tokens_of) b = true ↔ atoms_match atoms (chunks b).
Proof.
  intros Ha. revert b. induction Ha as [|a atoms Hv _ IH]; intros b Hb.
  - simpl. rewrite bool_decide_eq_true. split; [by intros ->|]. intros E.
    rewrite <- (chunks_concat b), E. done.
  - pose proof (chunks_valid b Hb) as Hc. rewrite bind_cons.
    destruct a as [text| |]; cbn [tokens_of app atoms_match].
    + rewrite matches_bytes. simpl in Hv. split.
      * intros (rest & -> & H). rewrite valid_utf8_app in Hb by done. exists (chunks rest).
        rewrite chunks_app by done. split; [done|]. by apply IH.
      * intros (rest & E & H). exists (concat rest). rewrite E in Hc. apply Forall_app in Hc as [_ Hc].
        destruct (concat_chars rest Hc) as [Hvr Hcr]. split; [|by rewrite IH, Hcr].
        rewrite <- (chunks_concat b), E, concat_app. by rewrite chunks_concat.
    + rewrite matches_run. split; intros (run & rest & E & Hr & H); exists run, rest;
        (split_and!; [done|done|]); rewrite E in Hc; apply Forall_app in Hc as [_ Hc];
        destruct (concat_chars rest Hc) as [Hvr Hcr]; [by rewrite <- Hcr, <- IH|by rewrite IH, Hcr].
    + cbn [matches]. split.
      * destruct (chunks b) as [|c cs]; [done|]. apply Forall_cons in Hc as [_ Hc].
        destruct (concat_chars cs Hc) as [Hvr Hcr].
        rewrite andb_true_iff, negb_true_iff, bool_decide_eq_false, IH, Hcr by done.
        intros [? ?]. eauto.
      * intros (c & rest & E & Hn & H). rewrite E in Hc |- *. apply Forall_cons in Hc as [_ Hc].
        destruct (concat_chars rest Hc) as [Hvr Hcr].
        rewrite andb_true_iff, negb_true_iff, bool_decide_eq_false, IH, Hcr by done. done.
Qed.

#[export] Instance toy_laws : RegexLaws toy_regex.
Proof.
  intros atoms re text Ha Ht Hre. pose proof (parse_sources atoms) as Hp.
  set (body := concat (atom_source toy_regex <$> atoms) ++ lit "$") in *.
  change (ok_or (lit "syntax") (parse (length body) body) = Ok re) in Hre.
  rewrite Hp in Hre. injection Hre as <-. by apply matches_atoms.
Qed.
End ToyRegex.

Import ToyRegex.
#[local] Existing Instance toy_laws.

(** ** Witnesses *)

Definition demo_secrets : list (Pattern toy_regex) :=
  [Literal toy_regex (lit "sk-"); Literal toy_regex (lit "PassWord")].

Lemma redaction_complete_witness :
  redact toy_regex demo_secrets (lit "my password is SK-1")
  = RedactText (lit "my [REDACTED] is [REDACTED]1")
  ∧ detects toy_regex demo_secrets (lit "my [REDACTED] is [REDACTED]1") = false.
Proof.
  split; [reflexivity|].
  assert (Forall (safe_literal toy_regex) demo_secrets) as Hs.
  { repeat constructor; [exists (lit "sk-")|exists (lit "PassWord")]; by split. }
  pose proof (redaction_complete toy_regex demo_secrets (lit "my password is SK-1") Hs) as H.
  exact (proj2 H).
Defined.


(** ** A run does not reach across a newline *)

(** The documentation has [*] stand for any run, and a denylist entry [fs.*] for every
    [fs.] tool.  With a newline in the name the entry does not match, and a denylist
    permits the tool. *)
Theorem denylist_glob_newline rx `{!RegexLaws rx} m :
  ToolMatcher_glob rx (lit "fs.*") = Ok m →
  let name := lit "fs." ++ NEWLINE ++ lit "read" in
  ToolMatcher_matches rx m name = false ∧ permits rx (Denylist rx [m]) name = true.
Proof.
  intros Hm name. unfold ToolMatcher_glob in Hm.
  change (is_blank (lit "fs.*")) with false in Hm. cbv iota in Hm.
  destruct (Regex_new rx (glob_to_regex rx (lit "fs.*"))) as [re|] eqn:E; [|done].
  injection Hm as <-. pose proof (glob_compiled rx (lit "fs.*") re name eq_refl eq_refl E) as H.
  change (glob_matches (chunks (lit "fs.*")) (chunks name)) with false in H.
  cbn [ToolMatcher_matches permits matches_any existsb]. rewrite H. done.
Qed.
