(* ===== verification/Engines.v ===== *)
(** * Engines: the policy backends behind the proxy's policy port
    (crates/agate-server/src/infrastructure/policy,
    crates/agate-proxy/src/infrastructure/fail_mode_policy.rs)

    The projection of proxy events onto the policy's vocabulary and back, the static
    ruleset adapter, the CEL and Rego adapters with their reloads, and the decorator
    that bounds a decision's time.  The CEL and Rego interpreters, the TOML reader and
    the file system are parameters; a panic inside an interpreter is [None]. *)
From stdpp Require Import options.
From S2P Require Import Prelude Text Json Run Ssrf Ports Policy.

(** ** serde_json's maps *)

(** [Map::insert]: the map keeps its keys in order. *)
Fixpoint map_insert (key : bytes) (v : Value) (fields : list (bytes * Value)) :
    list (bytes * Value) :=
  match fields with
  | [] => [(key, v)]
  | (k, x) :: fields' =>
      if bool_decide (k = key) then (key, v) :: fields'
      else if bytes_ltb key k then (key, v) :: fields
      else (k, x) :: map_insert key v fields'
  end.

(** [json!({...})]. *)
Definition json_object (fields : list (bytes * Value)) : Value :=
  Object (foldl (λ m '(k, v), map_insert k v m) [] fields).

Definition json_option (s : option bytes) : Value :=
  match s with Some s => String_ s | None => Null end.

(** ** The projection and the static adapter *)

Definition to_action (event : AgentEvent) : InspectedAction :=
  match event with
  | Event_ToolCall _ name arguments => Action_ToolCall name arguments
  | Event_MessageChunk _ text => Action_Message text
  | Event_ToolResult _ name content => Action_ToolResult name content
  | Event_StateMutation mutation => Action_StateMutation (payload mutation)
  | Event_Lifecycle _ | Event_Opaque _ => Action_Other
  end.

Definition lift_decision (event : AgentEvent) (decision : PolicyDecision) : Verdict AgentEvent :=
  match decision with
  | Decision_Allow => Allow
  | Decision_Deny reason => Deny reason
  | RedactText text =>
      match event with
      | Event_MessageChunk message _ => Transform (Event_MessageChunk message text)
      | Event_ToolResult id name _ => Transform (Event_ToolResult id name text)
      | _ => Deny (lit "redaction not applicable to this event kind")
      end
  end.

(** [PolicyService::decide] behind [PolicyAdapter::decide]. *)
Definition PolicyService_decide (rx : RegexCrate) (json : SerdeJson) (ruleset : PolicyRuleset rx)
    (action : InspectedAction) : PolicyDecision :=
  evaluate rx json ruleset action.

Definition PolicyAdapter_decide (rx : RegexCrate) (json : SerdeJson) (ruleset : PolicyRuleset rx)
    (_ : InspectionContext) (event : AgentEvent) : Verdict AgentEvent :=
  lift_decision event (PolicyService_decide rx json ruleset (to_action event)).

Definition AllowAllPolicy_decide (_ : InspectionContext) (_ : AgentEvent) : Verdict AgentEvent :=
  Allow.

(** ** The time-bounded decorator *)

Inductive FailMode := FailMode_Open | FailMode_Closed.

(** [timeout(..).await]: [None] is the elapsed deadline. *)
Definition FailModePolicy_decide {W} (mode : FailMode)
    (timed_inner : InspectionContext → AgentEvent → Eff W (option (Verdict AgentEvent)))
    (context : InspectionContext) (event : AgentEvent) : Eff W (Verdict AgentEvent) :=
  answer ← timed_inner context event;
  mret match answer with
       | Some verdict => verdict
       | None =>
           match mode with
           | FailMode_Open => Allow
           | FailMode_Closed => Terminate (lit "policy decision timed out (fail-closed)")
           end
       end.

(** ** The view the engines evaluate *)

Section engines.
Context (json : SerdeJson) (uuid_string : Uuid → bytes).

Definition parsed (raw : bytes) : Value := default Null (from_str json raw).

Definition action_fields (event : AgentEvent) : list (bytes * Value) * bytes :=
  match event with
  | Event_ToolCall _ name arguments =>
      ([(lit "name", String_ name); (lit "arguments", String_ arguments);
        (lit "arguments_json", parsed arguments)], lit "tool_call")
  | Event_MessageChunk _ text => ([(lit "text", String_ text)], lit "message")
  | Event_ToolResult _ name content =>
      ([(lit "name", json_option name); (lit "content", String_ content);
        (lit "content_json", parsed content)], lit "tool_result")
  | Event_StateMutation mutation =>
      ([(lit "state_json", parsed (payload mutation))], lit "state")
  | Event_Lifecycle _ | Event_Opaque _ => ([], lit "other")
  end.

Definition null_fields : list (bytes * Value) :=
  map (λ k, (k, Null))
    [lit "name"; lit "arguments"; lit "arguments_json"; lit "text"; lit "content";
     lit "content_json"; lit "state_json"].

Definition action_value (event : AgentEvent) : Value :=
  let '(fields, kind) := action_fields event in
  json_object (null_fields ++ fields ++ [(lit "kind", String_ kind)]).

Definition run_context (context : InspectionContext) : Value :=
  json_object [(lit "session_id", String_ (uuid_string (session_uuid (ctx_session context))));
               (lit "run_id", String_ (uuid_string (run_uuid (ctx_run context))))].

Definition input_value (context : InspectionContext) (event : AgentEvent) : Value :=
  json_object [(lit "action", action_value event); (lit "context", run_context context)].

Definition DEFAULT_DENY_REASON : bytes := lit "denied by policy".
Definition DEFAULT_REDACTION : bytes := lit "[REDACTED]".

(** ** CEL *)

(** The [cel] crate and the readers in front of it. [execute] runs a program with the
    [action] and [context] variables bound; [None] is a panic. *)
Record CelCrate := mkCelCrate {
  Program : Type;
  CelValue : Type;
  Program_compile : bytes → result bytes Program;
  cel_to_value : Value → option CelValue;
  execute : Program → CelValue → CelValue → option (result bytes CelValue);
  cel_bool : CelValue → option bool;
  cel_string : CelValue → option bytes;
}.

Inductive Effect := Effect_Deny | Effect_Redact | Effect_Allow.

Record RuleConfig := mkRuleConfig {
  rc_when : bytes;
  rc_effect : Effect;
  rc_reason : option bytes;
  rc_replacement : option bytes;
}.

Section cel.
Context (cel : CelCrate).
Context (toml_from_str : bytes → result bytes (list RuleConfig)).

Record CompiledRule := mkCompiledRule {
  cr_when : Program cel;
  cr_effect : Effect;
  cr_reason : bytes;
  cr_replacement : option (Program cel);
}.

Record CelPolicyAdapter := mkCelPolicyAdapter {
  cel_rules : list CompiledRule;
  cel_path : option bytes;
  cel_max_rules : N;
}.

Definition cel_compile (index : N) (rule : RuleConfig) : result bytes CompiledRule :=
  when ← map_err (λ error, lit "CEL rule #" ++ decimal index ++ lit " `when` does not compile: " ++ error)
           (Program_compile cel (rc_when rule));
  replacement ←
    match rc_replacement rule with
    | None => Ok None
    | Some source =>
        map_err (λ error, lit "CEL rule #" ++ decimal index
                          ++ lit " `replacement` does not compile: " ++ error)
          (Some <$> Program_compile cel source)
    end;
  Ok (mkCompiledRule when (rc_effect rule) (default DEFAULT_DENY_REASON (rc_reason rule)) replacement).

(** [enumerate().map(compile).collect()]: the first error, if any. *)
Fixpoint cel_compile_all (index : N) (rules : list RuleConfig) : result bytes (list CompiledRule) :=
  match rules with
  | [] => Ok []
  | rule :: rest =>
      compiled ← cel_compile index rule;
      others ← cel_compile_all (index + 1) rest;
      Ok (compiled :: others)
  end.

Definition compile_source (source : bytes) (max_rules : N) : result bytes (list CompiledRule) :=
  rules ← map_err (λ error, lit "cannot parse CEL policy: " ++ error) (toml_from_str source);
  if (max_rules <? len rules)%N then
    Err (lit "CEL policy has " ++ decimal (len rules) ++ lit " rules, exceeding the limit of "
         ++ decimal max_rules ++ lit " (policy.cel.max_rules)")
  else cel_compile_all 0 rules.

(** The file as it is when read: its text, or the error of reading it. *)
Definition compile_file (file : result bytes bytes) (path : bytes) (max_rules : N) :
    result bytes (list CompiledRule) :=
  source ← map_err (λ error, lit "cannot read CEL policy file '" ++ path ++ lit "': " ++ error) file;
  map_err (λ error, lit "in CEL policy file '" ++ path ++ lit "': " ++ error)
    (compile_source source max_rules).

Definition cel_load (file : result bytes bytes) (path : bytes) (max_rules : N) :
    result bytes CelPolicyAdapter :=
  rules ← compile_file file path max_rules;
  Ok (mkCelPolicyAdapter rules (Some path) max_rules).

(** [reload]: the answer and the adapter after it. *)
Definition cel_reload (file : result bytes bytes) (a : CelPolicyAdapter) :
    result bytes N * CelPolicyAdapter :=
  match cel_path a with
  | None => (Err (lit "CEL policy has no source file to reload"), a)
  | Some path =>
      match compile_file file path (cel_max_rules a) with
      | Err error => (Err error, a)
      | Ok [] => (Err (lit "CEL policy reload produced zero rules; keeping the current policy"), a)
      | Ok rules => (Ok (len rules), mkCelPolicyAdapter rules (cel_path a) (cel_max_rules a))
      end
  end.

Definition bind_value (v : Value) : option (CelValue cel) := cel_to_value cel v.

Definition build_context (context : InspectionContext) (event : AgentEvent) :
    option (CelValue cel * CelValue cel) :=
  action ← bind_value (action_value event);
  ctx ← bind_value (run_context context);
  Some (action, ctx).

(** In the panic monad: [None] is a panic. *)
Definition replacement_text (rule : CompiledRule) (ctx : CelValue cel * CelValue cel) : option bytes :=
  match cr_replacement rule with
  | None => Some DEFAULT_REDACTION
  | Some program =>
      answer ← execute cel program ctx.1 ctx.2;
      Some match answer with
           | Ok v => default DEFAULT_REDACTION (cel_string cel v)
           | Err _ => DEFAULT_REDACTION
           end
  end.

Definition effect_of (rule : CompiledRule) (ctx : CelValue cel * CelValue cel) :
    option PolicyDecision :=
  match cr_effect rule with
  | Effect_Allow => Some Decision_Allow
  | Effect_Deny => Some (Decision_Deny (cr_reason rule))
  | Effect_Redact => text ← replacement_text rule ctx; Some (RedactText text)
  end.

(** The loop of [evaluate] over the rules. *)
Fixpoint cel_first (rules : list CompiledRule) (ctx : CelValue cel * CelValue cel)
    (event : AgentEvent) : option (Verdict AgentEvent) :=
  match rules with
  | [] => Some Allow
  | rule :: rest =>
      answer ← execute cel (cr_when rule) ctx.1 ctx.2;
      match answer with
      | Ok v =>
          match cel_bool cel v with
          | Some true => decision ← effect_of rule ctx; Some (lift_decision event decision)
          | Some false | None => cel_first rest ctx event
          end
      | Err _ => cel_first rest ctx event
      end
  end.

Definition cel_evaluate (a : CelPolicyAdapter) (context : InspectionContext) (event : AgentEvent) :
    option (Verdict AgentEvent) :=
  match build_context context event with
  | None => Some (Deny (lit "policy input could not be evaluated"))
  | Some ctx => cel_first (cel_rules a) ctx event
  end.

(** [decide], with its panic boundary. *)
Definition cel_decide (a : CelPolicyAdapter) (context : InspectionContext) (event : AgentEvent) :
    Verdict AgentEvent :=
  default (Deny (lit "policy evaluation failed")) (cel_evaluate a context event).
End cel.

(** ** Rego *)

(** The [regorus] crate. [add_policy] gives the package and the engine holding the
    policy; [eval_query] is one evaluation on a clone, [None] a panic. *)
Record RegoCrate := mkRegoCrate {
  Engine : Type;
  RegoValue : Type;
  add_policy : bytes → bytes → result bytes (bytes * Engine);
  from_json_str : bytes → option RegoValue;
  eval_query : Engine → RegoValue → bytes → option (result bytes (list (list RegoValue)));
  rego_object : RegoValue → option (bytes → option RegoValue);
  rego_string : RegoValue → option bytes;
}.

Section rego.
Context (rego : RegoCrate).

Definition DECISION_QUERY : bytes := lit "data.agate.policy.decision".
Definition EXPECTED_PACKAGE : bytes := lit "data.agate.policy".
Definition POLICY_NAME : bytes := lit "policy.rego".

Record RegoPolicyAdapter := mkRegoPolicyAdapter {
  rego_engine : Engine rego;
  rego_path : option bytes;
}.

Definition rego_compile (source : bytes) : result bytes (Engine rego) :=
  '(package, engine) ← map_err (λ error, lit "Rego policy does not compile: " ++ error)
                         (add_policy rego POLICY_NAME source);
  if bool_decide (package = EXPECTED_PACKAGE) then Ok engine
  else
    let found := default package (strip_prefix (lit "data.") package) in
    Err (lit "Rego policy must declare `package agate.policy` (found `" ++ found
         ++ lit "`); otherwise `" ++ DECISION_QUERY
         ++ lit "` is undefined and every event would be allowed").

Definition build_engine (file : result bytes bytes) (path : bytes) : result bytes (Engine rego) :=
  source ← map_err (λ error, lit "cannot read Rego policy file '" ++ path ++ lit "': " ++ error) file;
  if is_blank source then Err (lit "Rego policy file '" ++ path ++ lit "' is empty")
  else map_err (λ error, lit "in Rego policy file '" ++ path ++ lit "': " ++ error) (rego_compile source).

Definition rego_load (file : result bytes bytes) (path : bytes) : result bytes RegoPolicyAdapter :=
  engine ← build_engine file path; Ok (mkRegoPolicyAdapter engine (Some path)).

Definition rego_reload (file : result bytes bytes) (a : RegoPolicyAdapter) :
    result bytes unit * RegoPolicyAdapter :=
  match rego_path a with
  | None => (Err (lit "Rego policy has no source file to reload"), a)
  | Some path =>
      match build_engine file path with
      | Err error => (Err error, a)
      | Ok engine => (Ok tt, mkRegoPolicyAdapter engine (rego_path a))
      end
  end.

Definition to_decision (value : RegoValue rego) : PolicyDecision :=
  match rego_object rego value with
  | None => Decision_Deny (lit "policy returned a non-object decision")
  | Some object =>
      let field key := v ← object key; rego_string rego v in
      match field (lit "effect") with
      | Some effect =>
          if bool_decide (effect = lit "allow") then Decision_Allow
          else if bool_decide (effect = lit "deny") then
            Decision_Deny (default DEFAULT_DENY_REASON (field (lit "reason")))
          else if bool_decide (effect = lit "redact") then
            RedactText (default DEFAULT_REDACTION (field (lit "replacement")))
          else Decision_Deny (lit "policy decision had no recognized effect")
      | None => Decision_Deny (lit "policy decision had no recognized effect")
      end
  end.

Definition to_rego_value (input : Value) : option (RegoValue rego) :=
  from_json_str rego (to_string json input).

Definition rego_evaluate (a : RegoPolicyAdapter) (context : InspectionContext)
    (event : AgentEvent) : option (Verdict AgentEvent) :=
  match to_rego_value (input_value context event) with
  | None => Some (Deny (lit "policy input could not be evaluated"))
  | Some input =>
      answer ← eval_query rego (rego_engine a) input DECISION_QUERY;
      Some match answer with
           | Err _ => Deny (lit "policy evaluation failed")
           | Ok results =>
               match r ← head results; head r with
               | None => Allow
               | Some value => lift_decision event (to_decision value)
               end
           end
  end.

Definition rego_decide (a : RegoPolicyAdapter) (context : InspectionContext) (event : AgentEvent) :
    Verdict AgentEvent :=
  default (Deny (lit "policy evaluation failed")) (rego_evaluate a context event).
End rego.
End engines.

Arguments mkCompiledRule {cel}.
Arguments cr_when {cel}.
Arguments cr_effect {cel}.
Arguments cr_reason {cel}.
Arguments cr_replacement {cel}.
Arguments mkCelPolicyAdapter {cel}.
Arguments cel_rules {cel}.
Arguments cel_path {cel}.
Arguments cel_max_rules {cel}.
Arguments rego_engine {rego}.
Arguments rego_path {rego}.

(** ** Lifting *)

Lemma lift_allow event decision : lift_decision event decision = Allow ↔ decision = Decision_Allow.
Proof. by destruct decision, event. Qed.

(** The text a rewritten event carries. *)
Definition event_text (e : AgentEvent) : option bytes :=
  match e with
  | Event_MessageChunk _ t => Some t
  | Event_ToolResult _ _ t => Some t
  | _ => None
  end.

Lemma lift_transform event decision e' :
  lift_decision event decision = Transform e' →
  ∃ text, decision = RedactText text ∧ event_text e' = Some text ∧ is_Some (event_text event).
Proof.
  destruct decision as [|r|text]; [done|done|].
  destruct event; simpl; intros H; try done; injection H as <-; eauto.
Qed.

Lemma lift_stops event decision :
  stops (lift_decision event decision) = false →
  lift_decision event decision = Allow ∨ ∃ e', lift_decision event decision = Transform e'.
Proof. destruct decision, event; simpl; intros; eauto; done. Qed.

(** ** First match, and failing closed *)

#[local] Arguments lit : simpl never.

Section decisions.
Context (json : SerdeJson) (uuid_string : Uuid → bytes).

Section cel.
Context (cel : CelCrate).

(** A rule whose condition is the boolean true, and one passed over: false, not a
    boolean, or an evaluation error, but not a panic. *)
Definition rule_matched (ctx : CelValue cel * CelValue cel) (rule : CompiledRule cel) : Prop :=
  ∃ v, execute cel (cr_when rule) ctx.1 ctx.2 = Some (Ok v) ∧ cel_bool cel v = Some true.

Definition rule_skipped (ctx : CelValue cel * CelValue cel) (rule : CompiledRule cel) : Prop :=
  ∃ answer, execute cel (cr_when rule) ctx.1 ctx.2 = Some answer
            ∧ ∀ v, answer = Ok v → cel_bool cel v ≠ Some true.

Lemma cel_first_spec rules ctx event verdict :
  cel_first cel rules ctx event = Some verdict ↔
  (Forall (rule_skipped ctx) rules ∧ verdict = Allow)
  ∨ ∃ pre rule post decision,
      rules = pre ++ rule :: post ∧ Forall (rule_skipped ctx) pre ∧ rule_matched ctx rule
      ∧ effect_of cel rule ctx = Some decision ∧ verdict = lift_decision event decision.
Proof.
  induction rules as [|rule rules IH]; cbn [cel_first].
  { split; [intros [= <-]; by left|]. intros [[_ ->]|(pre & r & post & d & E & _)]; [done|].
    by destruct pre. }
  destruct (execute cel (cr_when rule) ctx.1 ctx.2) as [answer|] eqn:Ex; simpl.
  2:{ split; [done|]. intros [[Hs _]|(pre & r & post & d & E & Hs & (v & Hm & _) & _)].
      - apply Forall_cons in Hs as [(a & Ha & _) _]. congruence.
      - destruct pre; injection E as -> ->; [congruence|].
        apply Forall_cons in Hs as [(a & Ha & _) _]. congruence. }
  assert ((∃ v, answer = Ok v ∧ cel_bool cel v = Some true)
          ∨ ¬ ∃ v, answer = Ok v ∧ cel_bool cel v = Some true) as [(v & -> & Hv)|Hn].
  { destruct answer as [v|e]; [|right; by intros (? & ? & _)].
    destruct (decide (cel_bool cel v = Some true)); [left; eauto|right].
    by intros (? & [= <-] & ?). }
  - assert (rule_matched ctx rule) as Hm by (exists v; done).
    assert (¬ rule_skipped ctx rule) as Hns.
    { intros (a & Ha & H). assert (a = Ok v) as -> by congruence. by apply (H v). }
    rewrite Hv. split.
    + intros (d & Hd & Hl)%bind_Some. injection Hl as <-. right. by exists [], rule, rules, d.
    + intros [[Hs _]|(pre & r & post & d & E & Hs & _ & Hd & ->)].
      * by apply Forall_cons in Hs as [? _].
      * destruct pre as [|p pre]; injection E as -> ->; [by rewrite Hd|].
        by apply Forall_cons in Hs as [? _].
  - assert (rule_skipped ctx rule) as Hs.
    { exists answer. split; [done|]. intros v -> Hv. apply Hn. eauto. }
    assert (¬ rule_matched ctx rule) as Hnm.
    { intros (v & Hv & Hb). apply Hn. exists v. split; [congruence|done]. }
    transitivity (cel_first cel rules ctx event = Some verdict).
    { destruct answer as [v|]; [|done]. destruct (cel_bool cel v) as [[]|] eqn:Eb; try done.
      exfalso. apply Hn. eauto. }
    rewrite IH. split.
    + intros [[? ->]|(pre & r & post & d & -> & ? & ? & ? & ->)]; [left; by repeat constructor|].
      right. exists (rule :: pre), r, post, d. by repeat constructor.
    + intros [[[? ?]%Forall_cons ->]|(pre & r & post & d & E & Hp & ? & ? & ->)]; [by left|].
      destruct pre as [|p pre]; injection E as -> ->; [done|].
      apply Forall_cons in Hp as [_ ?]. right. by exists pre, r, post, d.
Qed.
End cel.
End decisions.


(** ** Reloading *)

Section reloading.
Context (cel : CelCrate) (toml_from_str : bytes → result bytes (list RuleConfig)) (rego : RegoCrate).

(** A history of reloads, each finding the file in some state. *)
Definition cel_reloads (files : list (result bytes bytes)) (a : CelPolicyAdapter cel) :
    CelPolicyAdapter cel :=
  foldl (λ a file, (cel_reload cel toml_from_str file a).2) a files.

Definition rego_reloads (files : list (result bytes bytes)) (a : RegoPolicyAdapter rego) :
    RegoPolicyAdapter rego :=
  foldl (λ a file, (rego_reload rego file a).2) a files.

(** The policy a file state holds, if it is one to switch to. *)
Definition cel_good (path : bytes) (max_rules : N) (file : result bytes bytes) :
    option (list (CompiledRule cel)) :=
  match compile_file cel toml_from_str file path max_rules with
  | Ok ((_ :: _) as rules) => Some rules
  | _ => None
  end.

Definition rego_good (path : bytes) (file : result bytes bytes) : option (Engine rego) :=
  match build_engine rego file path with Ok engine => Some engine | Err _ => None end.

Lemma default_last {A} (x y : A) l : default y (last (x :: l)) = default x (last l).
Proof. rewrite last_cons. by destruct (last l). Qed.

Lemma cel_reload_step file a path :
  cel_path a = Some path →
  (cel_reload cel toml_from_str file a).2
  = mkCelPolicyAdapter (default (cel_rules a) (cel_good path (cel_max_rules a) file))
      (Some path) (cel_max_rules a).
Proof.
  intros Hp. unfold cel_reload, cel_good. rewrite Hp. destruct a as [rules p m]. simpl in *. subst p.
  by destruct (compile_file _ _ _ _ _) as [[|r rs]|e].
Qed.

Lemma cel_compile_all_length i rules compiled :
  cel_compile_all cel i rules = Ok compiled → length compiled = length rules.
Proof.
  revert i compiled. induction rules as [|r rules IH]; intros i compiled; [by intros [= <-]|].
  cbn [cel_compile_all]. destruct (cel_compile cel i r) as [c|]; [|done]. simpl.
  destruct (cel_compile_all cel (i + 1) rules) as [cs|] eqn:E; [|done]. intros [= <-].
  simpl. by rewrite (IH _ _ E).
Qed.

Lemma cel_good_bounds path max_rules file rules :
  cel_good path max_rules file = Some rules → (1 ≤ len rules ≤ max_rules)%N.
Proof.
  unfold cel_good, compile_file, compile_source. destruct file as [source|]; [|done]. simpl.
  destruct (toml_from_str source) as [configs|]; [|done]. simpl.
  destruct (max_rules <? len configs)%N eqn:Hl; [done|]. apply N.ltb_ge in Hl.
  destruct (cel_compile_all cel 0 configs) as [compiled|] eqn:E; [|done]. simpl.
  apply cel_compile_all_length in E. destruct compiled as [|c cs]; [done|]. intros [= <-].
  unfold len in *. rewrite E. simpl in E. lia.
Qed.
End reloading.

(** A reload never weakens the gate. Through any history of reloads, whatever state
    each finds the file in, the policy in force is the last one that could be read,
    parsed and compiled (for CEL, with at least one rule and no more than the limit),
    or the one loaded at start if there was none. *)
Theorem reload_last_good cel toml_from_str rego ca ra path files :
  cel_path ca = Some path → rego_path ra = Some path →
  let goods := omap (cel_good cel toml_from_str path (cel_max_rules ca)) files in
  cel_reloads cel toml_from_str files ca
  = mkCelPolicyAdapter (default (cel_rules ca) (last goods)) (Some path) (cel_max_rules ca)
  ∧ Forall (λ rules, 1 ≤ len rules ≤ cel_max_rules ca)%N goods
  ∧ rego_engine (rego_reloads rego files ra)
    = default (rego_engine ra) (last (omap (rego_good rego path) files)).
Proof.
  intros Hc Hr goods. split_and!.
  - subst goods. revert ca Hc. induction files as [|f files IH]; intros ca Hc; simpl.
    { destruct ca. simpl in *. by subst. }
    unfold cel_reloads in *. simpl. rewrite (cel_reload_step _ _ _ _ _ Hc), IH by done. simpl.
    destruct (cel_good _ _ _ _ f); simpl; [by rewrite <- default_last with (y := cel_rules ca)|done].
  - apply Forall_forall. intros rules (f & _ & Hf)%list_elem_of_omap. by eapply cel_good_bounds.
  - clear goods Hc. revert ra Hr. induction files as [|f files IH]; intros ra Hr; [done|].
    unfold rego_reloads in *. simpl. unfold rego_reload, rego_good. rewrite Hr.
    destruct (build_engine rego f path); simpl; [|by apply IH].
    rewrite IH by done. simpl. by rewrite <- default_last with (y := rego_engine ra).
Qed.

(** ** Witness: a CEL crate with one constant program, files with one or no rule *)

Definition demo_cel : CelCrate :=
  mkCelCrate bool bool (λ s, if bool_decide (s = lit "true") then Ok true else Err (lit "syntax"))
    (λ _, Some true) (λ p _ _, Some (Ok p)) Some (λ _, None).

Definition demo_toml (s : bytes) : result bytes (list RuleConfig) :=
  if bool_decide (s = []) then Ok [] else Ok [mkRuleConfig s Effect_Deny None None].

Definition demo_rego : RegoCrate :=
  mkRegoCrate bytes unit (λ _ s, Ok (EXPECTED_PACKAGE, s)) (λ _, Some tt) (λ _ _ _, Some (Ok []))
    (λ _, None) (λ _, None).

Lemma reload_last_good_witness :
  let rule := mkCompiledRule (cel := demo_cel) true Effect_Deny (lit "denied by policy") None in
  let ca := mkCelPolicyAdapter (cel := demo_cel) [] (Some (lit "p")) 10 in
  let ra := mkRegoPolicyAdapter demo_rego (lit "old") (Some (lit "p")) in
  let files := [Ok (lit "true"); Ok []; Err (lit "gone"); Ok (lit "junk")] in
  cel_rules (cel_reloads demo_cel demo_toml files ca) = [rule]
  ∧ rego_engine (rego_reloads demo_rego files ra) = lit "junk".
Proof.
  intros rule ca ra files.
  destruct (reload_last_good demo_cel demo_toml demo_rego ca ra (lit "p") files eq_refl eq_refl)
    as (Hc & _ & Hr).
  split; [rewrite Hc; reflexivity|rewrite Hr; reflexivity].
Defined.
