(* ===== verification/Enforcement.v ===== *)
(** * Enforcement: what the client sees under a ruleset

    The composition of the response stream ([Stream]), the inspector ([Inspector]) and
    the policy ([Policy], through the adapter of [Engines], with or without the
    fail-closed decorator), against one interface: [PolicyEnforces], a port that
    answers as a given policy does or stops the event. *)
From stdpp Require Import options.
From S2P Require Import Prelude Text Json Sse Run AgUi Ssrf Ports SessionMemory Inspector Stream.
From S2P Require Import Policy Engines.

(** ** The interface *)

(** The port answers with the policy's verdict, or stops the event. *)
Class PolicyEnforces (W : Type) `{!PolicyPort W}
    (pol : InspectionContext → AgentEvent → Verdict AgentEvent) : Prop :=
  decide_enforces ctx e w :
    (decide_event ctx e w).1 = pol ctx e ∨ stops (decide_event ctx e w).1 = true.

(** A port that always answers in time enforces its own policy, *)
Lemma direct_enforces {W} pol : PolicyEnforces W (PolicyPort0 := λ ctx e w, (pol ctx e, w)) pol.
Proof. intros ctx e w. by left. Qed.

(** and so does the decorator around one, failing closed, however often it times out. *)
Lemma fail_closed_enforces {W}
    (inner : InspectionContext → AgentEvent → Eff W (option (Verdict AgentEvent))) pol :
  (∀ ctx e w v, (inner ctx e w).1 = Some v → v = pol ctx e) →
  PolicyEnforces W (PolicyPort0 := FailModePolicy_decide FailMode_Closed inner) pol.
Proof.
  intros Hi ctx e w. unfold decide_event, FailModePolicy_decide, mbind, eff_bind, mret, eff_ret.
  specialize (Hi ctx e w). destruct (inner ctx e w) as [[v|] w']; simpl in *; [left|by right].
  by apply Hi.
Qed.

(** ** Invariants of the world along a stream *)

Section keeps.
Context {W : Type} `{!PolicyPort W, !AuditSink W, !HostResolver W, !SessionMemory W,
  !ProxyMetrics W}.
Context (json : SerdeJson) (url_parse : bytes → option Url).
Context (order : gmap ToolCallId ToolCallBuffer → list (ToolCallId * ToolCallBuffer)).
Context (I : W → Prop).

Definition keeps {A} (m : Eff W A) : Prop := ∀ w, I w → I (m w).2.

Lemma keeps_ret {A} (a : A) : keeps (mret a).
Proof. by intros w Hw. Qed.

Lemma keeps_bind {A B} (m : Eff W A) (f : A → Eff W B) :
  keeps m → (∀ a, keeps (f a)) → keeps (m ≫= f).
Proof.
  intros Hm Hf w Hw. unfold mbind, eff_bind. specialize (Hm w Hw).
  destruct (m w) as [a w']. by apply Hf.
Qed.

Context (Hjudge : ∀ ctx e, keeps (judge url_parse ctx e)).
Context (Hinspected : ∀ o, keeps (record_inspected o)).
Context (Hupstream : ∀ e, keeps (record_upstream_error e)).
#[local] Set Default Proof Using "Type*".

(** Follows the code: binds, then the cases of what was bound. *)
Ltac keep :=
  repeat first
    [ assumption
    | apply keeps_ret
    | apply Hjudge
    | apply Hinspected
    | apply Hupstream
    | apply keeps_bind; [|intros]
    | match goal with |- keeps (match ?x with _ => _ end) => destruct x end
    | progress intros ].

Lemma keeps_authorize ctx id e : keeps (authorize_call url_parse ctx id e).
Proof. unfold authorize_call. keep. Qed.

Lemma keeps_inspect run ctx f : keeps (inspect url_parse run ctx f).
Proof. unfold inspect, authorize_call. destruct (Run_inspect run f) as [[] ?]; keep. Qed.

Lemma keeps_apply action raw holds : keeps (apply_action json action raw holds).
Proof. unfold apply_action. keep. Qed.

Lemma keeps_sweep ctx calls holds : keeps (sweep url_parse ctx calls holds).
Proof.
  revert holds. induction calls as [|[id call] calls IH]; intros holds; cbn [sweep]; [keep|].
  apply keeps_bind; [apply keeps_authorize|]. intros action. destruct action; try apply IH; keep; apply IH.
Qed.

Lemma keeps_sweep_open run ctx holds : keeps (sweep_open_calls url_parse order run ctx holds).
Proof. unfold sweep_open_calls. destruct (drain_open order run). apply keeps_bind; [apply keeps_sweep|keep]. Qed.

Lemma keeps_inspect_fragment ctx f raw st : keeps (inspect_fragment json url_parse ctx f raw st).
Proof.
  unfold inspect_fragment. apply keeps_bind; [apply keeps_inspect|]. intros [action run].
  apply keeps_bind; [apply keeps_apply|]. keep.
Qed.

Lemma keeps_process_event settings ctx ev st :
  keeps (process_event json url_parse order settings ctx ev st).
Proof.
  unfold process_event. cbv zeta. destruct (exceeded _ _ _); [keep|].
  destruct (decode _ _ _) as [f| | |]; try solve [keep]. destruct (is_run_end f).
  - apply keeps_bind; [apply keeps_sweep_open|]. intros [[[flushed [stop|]] run] holds]; [keep|].
    apply keeps_bind; [apply keeps_inspect_fragment|keep].
  - apply keeps_inspect_fragment.
Qed.

Lemma keeps_process_events settings ctx evs st :
  keeps (process_events json url_parse order settings ctx evs st).
Proof.
  revert st. induction evs as [|ev evs IH]; intros st; cbn [process_events]; [keep|].
  apply keeps_bind; [apply keeps_process_event|]. intros [ys [st'|]]; [|keep].
  apply keeps_bind; [apply IH|keep].
Qed.

Lemma keeps_stream_from settings ctx items st :
  keeps (stream_from json url_parse order settings ctx items st).
Proof.
  revert st. induction items as [|item items IH]; intros st; cbn [stream_from].
  - apply keeps_bind; [apply keeps_sweep_open|keep].
  - apply keeps_bind.
    + unfold process_item. destruct item as [chunk|]; [|keep].
      destruct (push _ _). cbv zeta. case_match; [keep|apply keeps_process_events].
    + intros [ys [st'|]]; [|keep]. apply keeps_bind; [apply IH|keep].
Qed.
End keeps.

(** The same for the inspector, from what the ports keep. *)
Section keeps_ports.
Context {W : Type} `{!PolicyPort W, !AuditSink W, !HostResolver W, !SessionMemory W}.
Context (url_parse : bytes → option Url) (I : W → Prop).
Context (Hdecide : ∀ ctx e, keeps I (decide_event ctx e)).
Context (Hrecord : ∀ ctx e v, keeps I (record_event ctx e v)).
Context (Hresolve : ∀ h, keeps I (resolve h)).
Context (Hrecall : ∀ s t, keeps I (recall s t)).
Context (Hremember : ∀ s t r, keeps I (remember s t r)).
#[local] Set Default Proof Using "Type*".

Ltac keep_ports :=
  repeat first
    [ assumption
    | apply keeps_ret
    | apply Hdecide
    | apply Hrecord
    | apply Hresolve
    | apply Hrecall
    | apply Hremember
    | apply keeps_bind; [|intros]
    | match goal with |- keeps _ (match ?x with _ => _ end) => destruct x end
    | progress intros ].

Lemma keeps_first_disallowed_url ts : keeps I (first_disallowed url_parse ts).
Proof. induction ts as [|t ts IH]; cbn [first_disallowed]; keep_ports. Qed.

Lemma keeps_judge_ports ctx e : keeps I (judge url_parse ctx e).
Proof.
  unfold judge, recall_tool, screen_urls, record_deny, remember_tool_denial, first_disallowed_url.
  pose proof keeps_first_disallowed_url. keep_ports; auto.
Qed.

Lemma keeps_reject_reason ctx e : keeps I (reject_reason ctx e).
Proof. unfold reject_reason, record_deny. keep_ports. Qed.

Lemma keeps_inspect_request ctx rc : keeps I (inspect_request url_parse ctx rc).
Proof.
  unfold inspect_request. pose proof keeps_first_disallowed_url as Hf. pose proof keeps_reject_reason as Hj.
  apply keeps_bind.
  - induction (offered_tools rc) as [|n ns IH]; cbn [screen_tools]; unfold record_deny; keep_ports; auto.
  - intros [r|]; [keep_ports|]. apply keeps_bind; [|keep_ports].
    induction (user_messages rc ++ hidden_fields rc) as [|t ts IH]; cbn [screen_texts];
      unfold screen_text, first_disallowed_url, record_deny; keep_ports; auto.
Qed.
End keeps_ports.

(** ** The audit trail tells the policy's verdicts *)

Section honest.
Context (url_parse : bytes → option Url).
Context {W : Type} `{!PolicyPort W, !AuditSink W, !HostResolver W, !SessionMemory W,
  !AuditSinkLaws W, !ProxyMetrics W, !MetricsFrames W}.
Context (pol : InspectionContext → AgentEvent → Verdict AgentEvent) `{!PolicyEnforces W pol}.
#[local] Set Default Proof Using "Type*".

Definition honest (w : W) : Prop :=
  ∀ ctx e v, (ctx, e, v) ∈ trail w → v = pol ctx e ∨ stops v = true.

Lemma judge_enforces ctx e w :
  (judge url_parse ctx e w).1 = pol ctx e ∨ stops (judge url_parse ctx e w).1 = true.
Proof.
  unfold judge, mbind, eff_bind, mret, eff_ret.
  destruct (recall_tool ctx e w) as [[r|] w1]; [destruct (record_deny _ _ _ _); by right|].
  destruct (screen_urls url_parse e w1) as [[r|] w2].
  { destruct (record_deny _ _ _ _) as [? w3]. destruct (remember_tool_denial _ _ _ _). by right. }
  pose proof (decide_enforces ctx e w2) as H. destruct (decide_event ctx e w2) as [v w3].
  destruct (record_event ctx e v w3) as [? w4].
  destruct v; try done; by destruct (remember_tool_denial _ _ _ _).
Qed.

Lemma judge_honest ctx e : keeps honest (judge url_parse ctx e).
Proof.
  intros w Hw c e' v. rewrite judge_trail. intros [?|Hn]%elem_of_app; [by apply Hw|].
  apply list_elem_of_singleton in Hn. injection Hn as -> -> ->. apply judge_enforces.
Qed.

Lemma stream_honest json order settings ctx items st :
  keeps honest (stream_from json url_parse order settings ctx items st).
Proof.
  apply keeps_stream_from.
  - intros. apply judge_honest.
  - intros o w Hw c e v. rewrite inspected_silent. apply Hw.
  - intros o w Hw c e v. rewrite upstream_silent. apply Hw.
Qed.
End honest.

(** ** What reaches the client *)

Section ruleset.
Context (rx : RegexCrate) (json : SerdeJson) (rs : PolicyRuleset rx) (mode : MalformedEventMode).

(** The text of an event that secrets are looked for in. *)
Definition screened_text (e : AgentEvent) : option bytes :=
  match e with
  | Event_MessageChunk _ t => Some t
  | Event_ToolResult _ _ t => Some t
  | Event_StateMutation m => Some (payload m)
  | _ => None
  end.

Definition secret_free (e : AgentEvent) : Prop :=
  ∀ t, screened_text e = Some t → detects rx (rs_secrets rx rs) t = false.

Definition result_cleared (e : AgentEvent) : Prop :=
  match e with
  | Event_ToolResult _ name content =>
      existsb (rule_fires rx json name content) (map (rr_match rx) (rs_result_rules rx rs)) = false
  | _ => True
  end.

Definition call_cleared (name args : bytes) : Prop :=
  permits rx (rs_tools rx rs) name = true
  ∧ existsb (rule_fires rx json (Some name) args) (map (ar_match rx) (rs_argument_rules rx rs)) = false.

(** A frame the ruleset has nothing against, given the events received. *)
Inductive permitted_frame (evs : list SseEvent) : bytes → Prop :=
| permitted_uninspected ev :
    ev ∈ evs → decode json (sse_data ev) mode = PassThrough →
    permitted_frame evs (sse_raw ev)
| permitted_event ev f e :
    ev ∈ evs → decode json (sse_data ev) mode = Decoded_Inspect f → ready_event f e →
    secret_free e → result_cleared e →
    permitted_frame evs (sse_raw ev)
| permitted_call ev f id name args :
    ev ∈ evs → decode json (sse_data ev) mode = Decoded_Inspect f → call_id f = Some id →
    starts_as f name → call_cleared name args →
    permitted_frame evs (sse_raw ev)
| permitted_rewritten e' value :
    secret_free e' → to_event e' = Some value →
    permitted_frame evs (encode (to_string json value)).

Context (Hsafe : Forall (safe_literal rx) (rs_secrets rx rs)).
#[local] Set Default Proof Using "Type*".

Lemma redact_free t : redact rx (rs_secrets rx rs) t = Decision_Allow →
  detects rx (rs_secrets rx rs) t = false.
Proof. intros H. pose proof (redact_outcome rx (rs_secrets rx rs) t Hsafe) as Hr. by rewrite H in Hr. Qed.

(** An event the adapter allows is free of secrets and cleared by the rules, *)
Lemma adapter_allows e :
  lift_decision e (evaluate rx json rs (to_action e)) = Allow →
  secret_free e ∧ result_cleared e
  ∧ ∀ id name args, e = Event_ToolCall id name args → call_cleared name args.
Proof.
  intros H%lift_allow. destruct e as [m t|id name args|id name c|m|p|k]; cbn [to_action] in H.
  - split_and!; [|done|done]. intros ? [= <-]. by apply redact_free.
  - split_and!; [done|done|]. intros ? ? ? [= <- <- <-]. rewrite evaluate_call in H.
    unfold call_cleared. destruct (permits _ _ _); [|done]. by destruct (existsb _ _).
  - rewrite evaluate_result in H. destruct (existsb _ _) eqn:E; [done|].
    split_and!; [|done|done]. intros ? [= <-]. by apply redact_free.
  - split_and!; [|done|done]. intros ? [= <-]. simpl in H. by destruct (detects _ _ _).
  - by split_and!.
  - by split_and!.
Qed.

(** and one it rewrites is free of them after. *)
Lemma adapter_rewrites e e' :
  lift_decision e (evaluate rx json rs (to_action e)) = Transform e' →
  secret_free e' ∧ is_Some (to_event e').
Proof.
  intros H. pose proof (lift_transform _ _ _ H) as (text & Hd & Ht & Hs).
  assert (∃ t, redact rx (rs_secrets rx rs) t = RedactText text) as [t Hr].
  { destruct e as [m t|id name args|id name c|m|p|k]; try by destruct Hs; cbn [to_action] in Hd.
    - by exists t.
    - cbn [to_action] in Hd. rewrite evaluate_result in Hd. exists c. by destruct (existsb _ _). }
  pose proof (redact_outcome rx (rs_secrets rx rs) t Hsafe) as Ho. rewrite Hr in Ho.
  destruct Ho as [_ Hf]. destruct e'; try done; injection Ht as <-;
    (split; [by intros ? [= <-]|by eexists]).
Qed.

(** The trail's justification of a frame, read with the adapter's verdicts. *)
Lemma justified_permitted settings ctx evs tr b :
  malformed_mode settings = mode →
  (∀ c e v, (c, e, v) ∈ tr → v = PolicyAdapter_decide rx json rs c e ∨ stops v = true) →
  justified json settings ctx evs tr b → permitted_frame evs b.
Proof.
  intros Hmode Htr. unfold PolicyAdapter_decide, PolicyService_decide in Htr.
  destruct 1 as [ev Hev Hd|ev f e v Hev Hd Hr Hin Hst Hx|ev f id name args v Hev Hd Hc Hs Hin Hst|e e' value Hin Hv];
    rewrite ?Hmode in *.
  - by eapply permitted_uninspected.
  - destruct (Htr _ _ _ Hin) as [->|?]; [|congruence].
    destruct (lift_stops _ _ Hst) as [Ha|[e' Ht]].
    + destruct (adapter_allows e Ha) as (? & ? & _). by eapply permitted_event.
    + destruct (adapter_rewrites e e' Ht) as [_ [value Hv]]. rewrite (Hx e' Ht) in Hv. done.
  - destruct (Htr _ _ _ Hin) as [->|?]; [|congruence].
    destruct (lift_stops _ _ Hst) as [Ha|[e' Ht]].
    + destruct (adapter_allows _ Ha) as (_ & _ & H). eapply permitted_call; [done..|]. by eapply H.
    + apply lift_transform in Ht as (? & _ & _ & [? ?]). done.
  - destruct (Htr _ _ _ Hin) as [Ht|?]; [|done]. symmetry in Ht.
    destruct (adapter_rewrites e e' Ht) as [? _]. by eapply permitted_rewritten.
Qed.
End ruleset.

(** Every frame of an enforced stream is permitted. *)
Lemma stream_permitted rx json url_parse order rs {W : Type} `{!PolicyPort W, !AuditSink W,
    !HostResolver W, !SessionMemory W, !AuditSinkLaws W, !ProxyMetrics W, !MetricsFrames W,
    !PolicyEnforces W (PolicyAdapter_decide rx json rs)} items ctx settings w :
  Forall (safe_literal rx) (rs_secrets rx rs) →
  (∀ m, order m ≡ₚ map_to_list m) →
  honest (PolicyAdapter_decide rx json rs) w →
  let '(ys, w') := inspect_stream json url_parse order items ctx settings w in
  ∃ body tail, ys = body ++ tail
    ∧ Forall (permitted_frame rx json rs (malformed_mode settings) (received SseDecoder_new items)) body
    ∧ (tail = [] ∨ ∃ r, tail = [run_error json r]).
Proof.
  intros Hsafe Horder Hw. unfold inspect_stream.
  pose proof (stream_from_ok json url_parse settings ctx order Horder (received SseDecoder_new items)
                items (initial_state settings ctx) w) as H.
  pose proof (stream_honest url_parse (PolicyAdapter_decide rx json rs) json order settings ctx items
                (initial_state settings ctx) w) as Hh.
  destruct (stream_from json url_parse order settings ctx items _ w) as [ys w'].
  destruct H as [_ (body & tail & -> & Hb & Ht)];
    [done|intros id fs Hid; simpl in Hid; by rewrite lookup_empty in Hid|].
  assert (honest (PolicyAdapter_decide rx json rs) w') as Hw'.
  { by apply Hh. }
  exists body, tail. split_and!; [done| |destruct Ht as [->|[_ Hr]]; auto].
  eapply Forall_impl; [exact Hb|]. intros b Hj. by eapply justified_permitted.
Qed.


(** ** Witness: a denied tool and a secret, behind the fail-closed decorator *)

Module Ruled.
Import ToyRegex.

Definition ruleset : PolicyRuleset toy_regex :=
  PolicyRuleset_new toy_regex (Denylist toy_regex [Exact toy_regex (lit "rm")]) []
    [Literal toy_regex (lit "hello")].

(** The trail, and whether the next decision times out. *)
Definition world : Type :=
  list (InspectionContext * AgentEvent * Verdict AgentEvent) * bool.

Definition inner (ctx : InspectionContext) (e : AgentEvent) : Eff world (option (Verdict AgentEvent)) :=
  λ w, (if w.2 then None else Some (PolicyAdapter_decide toy_regex demo_stream_json ruleset ctx e), w).

#[export] Instance policy : PolicyPort world := FailModePolicy_decide FailMode_Closed inner.
#[export] Instance audit : AuditSink world := λ ctx e v w, (tt, (w.1 ++ [(ctx, e, v)], w.2)).
#[export] Instance resolver : HostResolver world := λ _ w, ([], w).
#[export] Instance memory : SessionMemory world :=
  {| recall _ _ := mret None; remember _ _ _ := mret tt |}.
#[export] Instance metrics : ProxyMetrics world :=
  {| record_run := mret tt; record_upstream_error _ := mret tt; record_inspected _ := mret tt |}.
#[export] Instance trail_laws : AuditSinkLaws world.
Proof. by refine {| trail := fst |}. Defined.
#[export] Instance metrics_frames : MetricsFrames world.
Proof. by split. Qed.
#[export] Instance enforces :
  PolicyEnforces world (PolicyAdapter_decide toy_regex demo_stream_json ruleset).
Proof. apply fail_closed_enforces. intros ctx e [t []] v; simpl; [done|by intros [= <-]]. Qed.
End Ruled.

#[local] Existing Instances Ruled.policy Ruled.audit Ruled.resolver Ruled.memory Ruled.metrics
  Ruled.trail_laws Ruled.metrics_frames Ruled.enforces.


(** What that stream relays: the denied call is gone and the message is rewritten. *)
Lemma ruled_frames :
  (inspect_stream (W := Ruled.world) demo_stream_json (λ _, None) map_to_list
     (Ok <$> demo_chunks) DemoPorts.ctx demo_settings ([], false)).1
  = [encode (lit "run"); encode (lit "json"); encode (lit "done")].
Proof. vm_compute. reflexivity. Qed.
