(* ===== verification/AuditBridge.v ===== *)
(** * AuditBridge: from an inspected event to a leaf of the log
    (crates/agate-server/src/infrastructure/audit, setup/bootstrap)

    The canonical record of an inspected event, the sink that queues it, the outbox
    that drains the queue into the transparency log through the append pipeline of
    [AuditApp], and the checkpoint scheduler.  The queue is a bounded channel whose
    waiting senders are served in order, as tokio documents. *)
From stdpp Require Import options.
From S2P Require Import Prelude Crypto Merkle TransparencyLog AuditStore AuditApp Text Json Run.
From S2P Require Import Ssrf Ports Policy Engines.

(** ** The record *)

Definition json_number (n : N) : Value := Number (decimal n).

Definition verdict_label (verdict : Verdict AgentEvent) : bytes :=
  match verdict with
  | Allow => lit "allow"
  | Deny _ => lit "deny"
  | Transform _ => lit "transform"
  | Buffer => lit "buffer"
  | Terminate _ => lit "terminate"
  end.

Definition encode_state_mutation (mutation : StateMutation) : Value :=
  match mutation with
  | Snapshot byte_size payload =>
      json_object [(lit "kind", String_ (lit "state_snapshot"));
                   (lit "byte_size", json_number byte_size); (lit "payload", String_ payload)]
  | Delta op_count byte_size max_path_depth max_value_bytes payload =>
      json_object [(lit "kind", String_ (lit "state_delta"));
                   (lit "op_count", json_number op_count);
                   (lit "byte_size", json_number byte_size);
                   (lit "max_path_depth", json_number max_path_depth);
                   (lit "max_value_bytes", json_number max_value_bytes);
                   (lit "payload", String_ payload)]
  end.

Definition encode_phase (phase : LifecyclePhase) : Value :=
  match phase with
  | RunStarted => String_ (lit "run_started")
  | RunFinished => String_ (lit "run_finished")
  | RunError => String_ (lit "run_error")
  | StepStarted name => json_object [(lit "step_started", String_ name)]
  | StepFinished name => json_object [(lit "step_finished", String_ name)]
  end.

Definition encode_opaque (kind : OpaqueKind) : bytes :=
  match kind with
  | Opaque_Raw => lit "raw"
  | Opaque_Custom => lit "custom"
  | Opaque_Encrypted => lit "encrypted"
  end.

Definition encode_event (event : AgentEvent) : Value :=
  match event with
  | Event_MessageChunk message text =>
      json_object [(lit "kind", String_ (lit "message_chunk"));
                   (lit "message", String_ (message_str message)); (lit "text", String_ text)]
  | Event_ToolCall id name arguments =>
      json_object [(lit "kind", String_ (lit "tool_call")); (lit "id", String_ (tool_call_str id));
                   (lit "name", String_ name); (lit "arguments", String_ arguments)]
  | Event_ToolResult id name content =>
      json_object [(lit "kind", String_ (lit "tool_result")); (lit "id", String_ (tool_call_str id));
                   (lit "name", json_option name); (lit "content", String_ content)]
  | Event_StateMutation mutation => encode_state_mutation mutation
  | Event_Lifecycle phase =>
      json_object [(lit "kind", String_ (lit "lifecycle")); (lit "phase", encode_phase phase)]
  | Event_Opaque kind =>
      json_object [(lit "kind", String_ (lit "opaque")); (lit "opaque", String_ (encode_opaque kind))]
  end.

Definition record_value (uuid_string : Uuid → bytes) (context : InspectionContext)
    (event : AgentEvent) (verdict : Verdict AgentEvent) : Value :=
  json_object [(lit "session", String_ (uuid_string (session_uuid (ctx_session context))));
               (lit "run", String_ (uuid_string (run_uuid (ctx_run context))));
               (lit "verdict", String_ (verdict_label verdict));
               (lit "event", encode_event event)].

Definition encode_record (json : SerdeJson) (uuid_string : Uuid → bytes)
    (context : InspectionContext) (event : AgentEvent) (verdict : Verdict AgentEvent) : bytes :=
  to_string json (record_value uuid_string context event verdict).

(** ** The channel *)

(** [ch_waiting]: the senders waiting for a slot, first come first served. *)
Record Channel := mkChannel {
  ch_queue : list bytes;
  ch_waiting : list bytes;
  ch_capacity : N;
  ch_open : bool;
}.

Definition free_slots (c : Channel) : N := ch_capacity c - len (ch_queue c).

(** [Sender::send]: into the queue if a slot is free, else waiting for one. *)
Definition channel_send (record : bytes) (c : Channel) : Channel :=
  if bool_decide (ch_waiting c = []) && (0 <? free_slots c)%N then
    mkChannel (ch_queue c ++ [record]) [] (ch_capacity c) (ch_open c)
  else mkChannel (ch_queue c) (ch_waiting c ++ [record]) (ch_capacity c) (ch_open c).

(** [Receiver::recv]: the oldest record; the first waiting sender takes its slot. *)
Definition channel_recv (c : Channel) : option (bytes * Channel) :=
  match ch_queue c with
  | [] => None
  | record :: queue =>
      Some (record,
        match ch_waiting c with
        | [] => mkChannel queue [] (ch_capacity c) (ch_open c)
        | next :: waiting => mkChannel (queue ++ [next]) waiting (ch_capacity c) (ch_open c)
        end)
  end.

(** The future of a waiting [send] is dropped, with its message. *)
Definition channel_abandon (i : nat) (c : Channel) : Channel :=
  mkChannel (ch_queue c) (delete i (ch_waiting c)) (ch_capacity c) (ch_open c).

(** ** Sink and outbox *)

Inductive FullPolicy := FullPolicy_Block | FullPolicy_Shed.

Inductive Dropped := Dropped_Shed | Dropped_Closed.

(** The channel, the store behind the outbox with the audit metrics, and the depths
    observed. *)
Record Bridge := mkBridge {
  b_channel : Channel;
  b_store : World;
  b_depths : list (N * N);
}.

(** Enqueueing per the policy. *)
Definition enqueue (on_full : FullPolicy) (record : bytes) (c : Channel) : result Dropped Channel :=
  if negb (ch_open c) then Err Dropped_Closed
  else match on_full with
       | FullPolicy_Block => Ok (channel_send record c)
       | FullPolicy_Shed =>
           if (0 <? free_slots c)%N then Ok (channel_send record c) else Err Dropped_Shed
       end.

Definition sink_record (json : SerdeJson) (uuid_string : Uuid → bytes) (on_full : FullPolicy)
    (context : InspectionContext) (event : AgentEvent) (verdict : Verdict AgentEvent)
    (b : Bridge) : Bridge :=
  let record := encode_record json uuid_string context event verdict in
  let capacity := ch_capacity (b_channel b) in
  let depths := b_depths b ++ [(capacity - free_slots (b_channel b), capacity)%N] in
  match enqueue on_full record (b_channel b) with
  | Ok channel => mkBridge channel (b_store b) depths
  | Err _ => mkBridge (b_channel b) (record_dropped (b_store b)) depths
  end.

Section outbox.
Context (pg : Pg) `{J : Jiff} (factory : Hasher) (log : LogId).

(** [ScopeError]. *)
Inductive ScopeError := Unavailable (error : bytes) | Pipeline (error : AuditError).

(** [ScopedDispatcher::dispatch]; [scope] is what opening the request scope gives. *)
Definition scoped_dispatch {A} (scope : result bytes unit) (request : Op A) :
    ST ScopeError World A := λ w,
  match scope with
  | Err error => (Err (Unavailable error), w)
  | Ok _ => let '(r, w') := request w in (map_err Pipeline r, w')
  end.

Definition ScopedAppender_append (scope : result bytes unit) (record : bytes) :
    ST ScopeError World N :=
  scoped_dispatch scope (dispatch_append pg factory log record).

Definition outbox_append (scope : result bytes unit) (record : bytes) (w : World) : World :=
  match ScopedAppender_append scope record w with
  | (Ok _, w') => w'
  | (Err (Unavailable _), w') => record_dropped w'
  | (Err (Pipeline _), w') => w'
  end.

(** One turn of [run]: nothing while the queue is empty. *)
Definition outbox_turn (scope : result bytes unit) (b : Bridge) : Bridge :=
  match channel_recv (b_channel b) with
  | None => b
  | Some (record, channel) => mkBridge channel (outbox_append scope record (b_store b)) (b_depths b)
  end.
End outbox.

(** ** The scheduler *)

(** One turn of the loop: the size of the last checkpoint issued, after this one. *)
Definition scheduler_turn (issued : result ScopeError SignedTreeHead) (last_size : option N) :
    option N :=
  match issued with
  | Ok sth => Some (head_size (sth_head sth))
  | Err _ => last_size
  end.

Section system.
Context (json : SerdeJson) (uuid_string : Uuid → bytes) (on_full : FullPolicy).
Context (pg : Pg) `{J : Jiff} (factory : Hasher) (keys : KeyStore) (log : LogId) (key : KeyId).

Definition ScopedIssuer_issue (scope : result bytes unit) (now : Timestamp)
    (previous_size : option N) : ST ScopeError World SignedTreeHead :=
  scoped_dispatch scope (dispatch_checkpoint pg factory keys now log key previous_size).

(** The tasks taking turns: an inspected event reaches the sink, the outbox takes a
    record, the scheduler's timer fires; and a client goes away, on which the run's
    future is dropped while its sink waits for a slot. *)
Inductive Turn :=
| Inspected (context : InspectionContext) (event : AgentEvent) (verdict : Verdict AgentEvent)
| Drained (scope : result bytes unit)
| Ticked (scope : result bytes unit) (now : Timestamp)
| Abandoned (i : nat).

Definition take_turn (s : Bridge * option N) (t : Turn) : Bridge * option N :=
  let '(b, last_size) := s in
  match t with
  | Inspected context event verdict =>
      (sink_record json uuid_string on_full context event verdict b, last_size)
  | Drained scope => (outbox_turn pg factory log scope b, last_size)
  | Ticked scope now =>
      let '(issued, w) := ScopedIssuer_issue scope now last_size (b_store b) in
      (mkBridge (b_channel b) w (b_depths b), scheduler_turn issued last_size)
  | Abandoned i => (mkBridge (channel_abandon i (b_channel b)) (b_store b) (b_depths b), last_size)
  end.

Definition take_turns (ts : list Turn) (s : Bridge * option N) : Bridge * option N :=
  foldl take_turn s ts.

(** The records of the events inspected, in order. *)
Definition inspected_records (ts : list Turn) : list bytes :=
  omap (λ t, match t with
             | Inspected context event verdict => Some (encode_record json uuid_string context event verdict)
             | _ => None
             end) ts.

Definition pending (c : Channel) : list bytes := ch_queue c ++ ch_waiting c.

(** The runs given up while their record waited for a slot, at most. *)
Definition abandonments (ts : list Turn) : N :=
  len (omap (λ t, match t with Abandoned i => Some i | _ => None end) ts).

(** A turn in which nothing fails and nobody leaves. *)
Definition smooth (t : Turn) : Prop :=
  match t with
  | Drained scope | Ticked scope _ => is_ok scope = true
  | Abandoned _ => False
  | Inspected _ _ _ => True
  end.

(** Nothing but the queue can lose a record. *)
Definition faultless (ts : list Turn) : Prop :=
  (∀ n, fault pg n = None) ∧ ∀ t, t ∈ ts → smooth t.
End system.

(** ** The channel keeps order and bound *)

Lemma channel_send_pending r c : pending (channel_send r c) = pending c ++ [r].
Proof.
  unfold channel_send, pending. destruct (bool_decide_reflect (ch_waiting c = [])) as [->|]; simpl.
  - destruct (0 <? free_slots c)%N; simpl; by rewrite !app_nil_r.
  - by rewrite app_assoc.
Qed.

Definition within (c : Channel) : Prop := (len (ch_queue c) ≤ ch_capacity c)%N.

Lemma channel_send_within r c :
  within c → within (channel_send r c) ∧ ch_capacity (channel_send r c) = ch_capacity c
             ∧ ch_open (channel_send r c) = ch_open c.
Proof.
  unfold channel_send, within, free_slots. intros H.
  destruct (_ && _) eqn:E; simpl; [|done]. apply andb_true_iff in E as [_ E%N.ltb_lt].
  rewrite len_app, len_cons, len_nil. split_and!; [lia|done|done].
Qed.

Lemma channel_recv_some c r c' :
  channel_recv c = Some (r, c') →
  pending c = r :: pending c' ∧ (within c → within c') ∧ ch_capacity c' = ch_capacity c
  ∧ ch_open c' = ch_open c.
Proof.
  unfold channel_recv, pending, within. destruct (ch_queue c) as [|x q] eqn:Eq; [done|].
  intros [= <- <-]. destruct (ch_waiting c) as [|n ws]; simpl;
    rewrite ?len_app, ?len_cons, ?len_nil, <- ?app_assoc; (split_and!; [done|lia|done|done]).
Qed.

Lemma channel_abandon_pending i c :
  pending (channel_abandon i c) `sublist_of` pending c
  ∧ (len (pending c) ≤ len (pending (channel_abandon i c)) + 1)%N.
Proof.
  unfold channel_abandon, pending. simpl. split; [by apply sublist_app, sublist_delete|].
  rewrite !len_app, delete_take_drop. unfold len. rewrite length_app, length_take, length_drop. lia.
Qed.

(** ** Nothing is lost silently *)

Section conservation.
Context (json : SerdeJson) (uuid_string : Uuid → bytes) (on_full : FullPolicy).
Context (pg : Pg) `{J : Jiff} `{!JiffLaws J} (factory : Hasher) (keys : KeyStore) (log : LogId)
  (key : KeyId).
Context (row : LogRow) (hashes : list bytes) (algo : HashAlgo) (ts0 : Timestamps).
Context (Hrow : row_parses row algo ts0).
Context (w0 : World) (capacity : N) (is_open : bool).
#[local] Set Default Proof Using "Type*".

Abbreviation leaf_of := (λ r, digest_bytes (leaf factory r)).

(** Where the records of [ts] are: written to the log, pending, counted dropped, or lost
    with a run that was given up. *)
Definition accounted (ts : list Turn) (b : Bridge) : Prop :=
  let recs := inspected_records json uuid_string ts in
  let c := b_channel b in let w := b_store b in
  ∃ written lost,
    w_slot w = None
    ∧ holds_log (w_committed w) log row (hashes ++ (leaf_of <$> written))
    ∧ (written ++ pending c) `sublist_of` recs
    ∧ (w_dropped w + len written + len (pending c) + lost = w_dropped w0 + len recs
       ∧ lost ≤ abandonments ts)%N
    ∧ w_appended w = (w_appended w0 + len written)%N
    ∧ within c ∧ ch_capacity c = capacity ∧ ch_open c = is_open
    ∧ t_checkpoints (w_committed w0) `prefix_of` t_checkpoints (w_committed w)
    ∧ (on_full = FullPolicy_Block → is_open = true → faultless pg ts → written ++ pending c = recs).

Lemma inspected_records_snoc ts t :
  inspected_records json uuid_string (ts ++ [t])
  = inspected_records json uuid_string ts
    ++ match t with
       | Inspected context event verdict => [encode_record json uuid_string context event verdict]
       | _ => []
       end.
Proof. unfold inspected_records. rewrite omap_app. by destruct t. Qed.

Lemma abandonments_snoc ts t :
  abandonments (ts ++ [t])
  = (abandonments ts + match t with Abandoned _ => 1 | _ => 0 end)%N.
Proof. unfold abandonments. rewrite omap_app, len_app. by destruct t. Qed.

Lemma faultless_snoc ts t : faultless pg (ts ++ [t]) → faultless pg ts ∧ smooth t.
Proof.
  intros [Hf Ht]. split; [split; [done|]|]; intros; apply Ht; apply elem_of_app; [by left|].
  right. by apply list_elem_of_singleton.
Qed.

Lemma accounted_inspected ts b ctx e v :
  accounted ts b →
  accounted (ts ++ [Inspected ctx e v]) (sink_record json uuid_string on_full ctx e v b).
Proof.
  intros (written & lost & Hs & Hh & Hsub & Hd & Ha & Hw & Hc & Ho & Hp & Hall). unfold accounted.
  rewrite inspected_records_snoc. unfold sink_record.
  set (r := encode_record json uuid_string ctx e v). set (recs := inspected_records _ _ ts) in *.
  destruct (enqueue on_full r (b_channel b)) as [c'|d] eqn:E; simpl; exists written, lost; rewrite ?abandonments_snoc.
  - assert (c' = channel_send r (b_channel b)) as ->.
    { unfold enqueue in E. destruct (negb _); [done|]. destruct on_full; [by injection E|].
      by destruct (_ <? _)%N; simplify_eq. }
    destruct (channel_send_within r (b_channel b) Hw) as (? & -> & ->).
    rewrite channel_send_pending, app_assoc, !len_app, len_cons, len_nil. split_and!; try done; try lia.
    + by apply sublist_app.
    + intros Hb Hop [Hf _]%faultless_snoc. by rewrite (Hall Hb Hop Hf).
  - rewrite len_app, len_cons, len_nil. split_and!; try done; try (simpl; lia).
    + by apply sublist_inserts_r.
    + intros -> Hop. unfold enqueue in E. by rewrite Ho, Hop in E.
Qed.

Lemma is_ok_false {A} (r : result bytes A) e : r = Err e → is_ok r = true → False.
Proof. by intros ->. Qed.

Lemma accounted_drained ts b scope :
  (len hashes + len (inspected_records json uuid_string ts) ≤ max_len)%N →
  accounted ts b → accounted (ts ++ [Drained scope]) (outbox_turn pg factory log scope b).
Proof.
  intros Hlen (written & lost & Hs & Hh & Hsub & Hd & Ha & Hw & Hc & Ho & Hp & Hall). unfold accounted.
  rewrite inspected_records_snoc, app_nil_r. set (recs := inspected_records _ _ ts) in *.
  unfold outbox_turn. destruct (channel_recv (b_channel b)) as [[r c']|] eqn:E.
  2:{ exists written, lost. rewrite abandonments_snoc. split_and!; try done; [lia..|]. intros Hb Hop [Hf _]%faultless_snoc. by apply Hall. }
  apply channel_recv_some in E as (Hpend & Hw' & Hcap & Hopen). rewrite Hpend in *.
  assert (is_slice (hashes ++ (leaf_of <$> written))) as Hslice.
  { apply sublist_length in Hsub. unfold is_slice, len in *.
    rewrite !length_app, length_fmap in *. simpl in Hsub. lia. }
  assert (∀ w, w_slot w = None → w_committed w = w_committed (b_store b) →
    w_appended w = w_appended (b_store b) → w_dropped w = (w_dropped (b_store b) + 1)%N →
    ¬ faultless pg (ts ++ [Drained scope]) → accounted (ts ++ [Drained scope]) (mkBridge c' w (b_depths b)))
    as Hlost.
  { intros w Hws Hwc Hwa Hwd Hnf. exists written, lost.
    rewrite inspected_records_snoc, abandonments_snoc, app_nil_r. simpl.
    rewrite Hwc, Hwa, Hwd. fold recs. rewrite len_cons in Hd.
    split_and!; try done; try congruence; try lia.
    - etrans; [|exact Hsub]. apply sublist_app; [done|]. by apply sublist_cons.
    - by apply Hw'. }
  unfold outbox_append, ScopedAppender_append, scoped_dispatch.
  destruct scope as [[]|err].
  2:{ pose proof (Hlost (record_dropped (b_store b))) as H. unfold accounted in H.
      rewrite inspected_records_snoc, app_nil_r in H. apply H; try done.
      by intros [_ ?]%faultless_snoc. }
  pose proof (dispatch_append_spec pg factory _ _ _ _ r Hs Hh Hslice) as Hsp.
  destruct (dispatch_append pg factory log r (b_store b)) as [[i|e] w']; simpl.
  - destruct Hsp as (Hs' & _ & Hh' & _ & Hck & Ha' & Hd'). exists (written ++ [r]), lost. rewrite abandonments_snoc.
    rewrite fmap_app, app_assoc, <- (app_assoc written). simpl.
    rewrite Hck, Ha', Hd', Hcap, Hopen, !len_app, !len_cons, len_nil in *.
    split_and!; try done; try lia; [by apply Hw'|].
    intros Hb Hop [Hf _]%faultless_snoc. by apply Hall.
  - destruct Hsp as (Hs' & (n & msg & Hf & _) & Hcm & Ha' & Hd').
    pose proof (Hlost w' Hs' Hcm Ha' Hd') as H. unfold accounted in H.
    rewrite inspected_records_snoc, app_nil_r in H. apply H.
    intros [[Hnf _] _]%faultless_snoc. congruence.
Qed.

Lemma accounted_ticked ts b scope now prev :
  (len hashes + len (inspected_records json uuid_string ts) ≤ max_len)%N →
  accounted ts b →
  accounted (ts ++ [Ticked scope now])
    (mkBridge (b_channel b)
       (ScopedIssuer_issue pg factory keys log key scope now prev (b_store b)).2 (b_depths b)).
Proof.
  intros Hlen (written & lost & Hs & Hh & Hsub & [Hd Hab] & Ha & Hw & Hc & Ho & Hp & Hall). unfold accounted.
  rewrite inspected_records_snoc, app_nil_r. set (recs := inspected_records _ _ ts) in *.
  exists written, lost. rewrite abandonments_snoc, N.add_0_r. simpl.
  unfold ScopedIssuer_issue, scoped_dispatch.
  assert (is_slice (hashes ++ (leaf_of <$> written))) as Hslice.
  { apply sublist_length in Hsub. unfold is_slice, len in *.
    rewrite !length_app, length_fmap in *. lia. }
  assert (on_full = FullPolicy_Block → is_open = true → faultless pg (ts ++ [Ticked scope now]) →
          written ++ pending (b_channel b) = recs) as Hall'.
  { intros Hb Hop [Hf _]%faultless_snoc. by apply Hall. }
  destruct scope as [[]|err]; [|by split_and!].
  destruct (ks_signer keys key) as [signer|err] eqn:Hkey.
  2:{ pose proof (dispatch_checkpoint_nokey pg factory keys _ _ _ _ _ _ now key prev _ Hs Hh Hslice Hrow Hkey)
        as Hsp.
      destruct (dispatch_checkpoint pg factory keys now log key prev (b_store b)) as [r w'].
      destruct Hsp as (Hs' & Ha' & Hd' & _ & Hcm). simpl. rewrite Ha', Hd', Hcm. by split_and!. }
  pose proof (dispatch_checkpoint_spec pg factory keys _ _ _ _ _ _ now key prev _ Hs Hh Hslice Hrow Hkey)
    as Hsp.
  destruct (dispatch_checkpoint pg factory keys now log key prev (b_store b)) as [[sth|e] w']; simpl;
    destruct Hsp as (Hs' & Ha' & Hd' & Hr); rewrite Ha', Hd'.
  - destruct Hr as [_ Hr]. case_bool_decide; [by rewrite Hr; split_and!|].
    destruct Hr as (Hh' & _ & Hck). split_and!; try done. rewrite Hck. unfold anchored.
    destruct (has_checkpoint _ _ _); [done|]. etrans; [exact Hp|]. by eexists.
  - destruct Hr as [_ Hcm]. rewrite Hcm. by split_and!.
Qed.

Lemma accounted_abandoned ts b i :
  accounted ts b →
  accounted (ts ++ [Abandoned i]) (mkBridge (channel_abandon i (b_channel b)) (b_store b) (b_depths b)).
Proof.
  intros (written & lost & Hs & Hh & Hsub & Hd & Ha & Hw & Hc & Ho & Hp & Hall). unfold accounted.
  rewrite inspected_records_snoc, app_nil_r, abandonments_snoc. set (recs := inspected_records _ _ ts) in *.
  destruct (channel_abandon_pending i (b_channel b)) as [Hsl Hle].
  pose proof (sublist_length _ _ Hsl) as Hlt. unfold b_channel at 1 2 3 4, b_store at 1 2 3 4 5. simpl.
  exists written, (lost + len (pending (b_channel b)) - len (pending (channel_abandon i (b_channel b))))%N.
  unfold len in *. split_and!; try done; try lia.
  - etrans; [|exact Hsub]. by apply sublist_app.
  - by intros Hb Hop [_ []]%faultless_snoc.
Qed.

Lemma accounted_turns ts b0 last0 :
  (len hashes + len (inspected_records json uuid_string ts) ≤ max_len)%N →
  accounted [] b0 →
  accounted ts (take_turns json uuid_string on_full pg factory keys log key ts (b0, last0)).1.
Proof.
  intros Hlen H0. induction ts as [|t ts IH] using rev_ind; [done|].
  rewrite inspected_records_snoc, len_app in Hlen.
  assert (len hashes + len (inspected_records json uuid_string ts) ≤ max_len)%N as Hlen' by lia.
  specialize (IH Hlen'). unfold take_turns in *. rewrite foldl_snoc.
  destruct (foldl _ _ ts) as [b last]. simpl in IH.
  destruct t as [ctx e v|scope|scope now|i]; cbn [take_turn].
  - by apply accounted_inspected.
  - by apply accounted_drained.
  - pose proof (accounted_ticked ts b scope now last Hlen' IH) as H.
    by destruct (ScopedIssuer_issue _ _ _ _ _ _ _ _ _).
  - by apply accounted_abandoned.
Qed.
End conservation.

Lemma accounted_start json uuid_string on_full pg factory log row hashes b0 :
  w_slot (b_store b0) = None → holds_log (w_committed (b_store b0)) log row hashes →
  ch_queue (b_channel b0) = [] → ch_waiting (b_channel b0) = [] →
  accounted json uuid_string on_full pg factory log row hashes (b_store b0)
    (ch_capacity (b_channel b0)) (ch_open (b_channel b0)) [] b0.
Proof.
  intros Hs Hh Hq Hwt. exists [], 0%N. unfold within, pending. rewrite Hq, Hwt, !app_nil_r. simpl.
  rewrite !len_nil. split_and!; try done; lia.
Qed.


(** A run given up while its record waits for a slot leaves no trace: the record is not
    queued, not written and not counted. *)
Theorem abandoned_send_uncounted json uuid_string pg `{J : Jiff} factory keys log key context event
    verdict b last0 :
  ch_open (b_channel b) = true → free_slots (b_channel b) = 0%N → ch_waiting (b_channel b) = [] →
  let b' := (take_turns json uuid_string FullPolicy_Block pg factory keys log key
               [Inspected context event verdict; Abandoned 0] (b, last0)).1 in
  b_channel b' = b_channel b ∧ b_store b' = b_store b.
Proof.
  intros Ho Hf Hw. simpl. unfold sink_record, enqueue, channel_send, channel_abandon.
  rewrite Ho, Hf, andb_false_r, Hw. simpl. split; [|done]. destruct (b_channel b) as [q ws cap open].
  simpl in *. by subst.
Qed.

(** ** Everything is written in the end *)

Lemma faultless_nobody_left pg ts : faultless pg ts → abandonments ts = 0%N.
Proof.
  induction ts as [|t ts IH] using rev_ind; [done|]. intros [Hf Ht]%faultless_snoc.
  rewrite abandonments_snoc, (IH Hf). by destruct t.
Qed.

Section draining.
Context (json : SerdeJson) (uuid_string : Uuid → bytes) (on_full : FullPolicy).
Context (pg : Pg) `{J : Jiff} (factory : Hasher) (keys : KeyStore) (log : LogId) (key : KeyId).

(** Senders wait only on a full queue, of one slot at least. *)
Definition busy (c : Channel) : Prop :=
  (0 < ch_capacity c)%N ∧ within c ∧ (ch_waiting c = [] ∨ len (ch_queue c) = ch_capacity c).

Lemma channel_send_busy r c : busy c → busy (channel_send r c).
Proof.
  unfold busy, channel_send, within, free_slots. intros (Hc & Hw & Hb).
  destruct (bool_decide_reflect (ch_waiting c = [])) as [Hn|Hn]; cbn [andb].
  - destruct (N.ltb_spec 0 (ch_capacity c - len (ch_queue c))); simpl.
    + split; [done|]. split; [unfold len in *; rewrite length_app; simpl; lia|by left].
    + split; [done|]. split; [done|]. right. lia.
  - destruct Hb as [?|Hb]; [done|]. simpl. split_and!; [done..|by right].
Qed.

Lemma channel_recv_busy c r c' : busy c → channel_recv c = Some (r, c') → busy c'.
Proof.
  unfold busy, within, channel_recv. intros (Hc & Hw & Hb). destruct (ch_queue c) as [|x q]; [done|].
  rewrite len_cons in *. intros [= <- <-]. destruct (ch_waiting c) as [|n ws]; simpl.
  - split_and!; [done|lia|by left].
  - destruct Hb as [?|Hb]; [done|]. unfold len in *. rewrite length_app. simpl.
    split_and!; [done|lia|right; lia].
Qed.

Lemma take_turn_busy s t :
  busy (b_channel s.1) →
  busy (b_channel (take_turn json uuid_string on_full pg factory keys log key s t).1).
Proof.
  destruct s as [b l]. cbn [fst]. intros Hb. destruct t as [ctx e v|scope|scope now|i]; cbn [take_turn].
  - unfold sink_record, enqueue. destruct (negb _); [done|].
    destruct on_full; [by apply channel_send_busy|].
    destruct (0 <? _)%N; [by apply channel_send_busy|done].
  - unfold outbox_turn. destruct (channel_recv _) as [[r c]|] eqn:E; [|done].
    by eapply channel_recv_busy.
  - by destruct (ScopedIssuer_issue _ _ _ _ _ _ _ _ _).
  - destruct Hb as (? & ? & Hw). unfold channel_abandon, busy, within. simpl.
    split_and!; [done..|]. destruct Hw as [->|?]; [by left; destruct i|by right].
Qed.

Lemma drain_empties scopes s :
  busy (b_channel s.1) → length (pending (b_channel s.1)) ≤ length scopes →
  pending (b_channel (take_turns json uuid_string on_full pg factory keys log key
                        (Drained <$> scopes) s).1) = [].
Proof.
  revert s. induction scopes as [|scope scopes IH]; intros s Hb Hl; simpl in Hl.
  { simpl. destruct (pending (b_channel s.1)); [done|simpl in Hl; lia]. }
  rewrite fmap_cons. apply IH; [by apply take_turn_busy|]. destruct s as [b l]. cbn [take_turn fst].
  unfold outbox_turn. destruct (channel_recv (b_channel b)) as [[r c]|] eqn:E; cbn [b_channel].
  - apply channel_recv_some in E as [Hp _]. cbn [fst] in *. rewrite Hp in Hl. simpl in Hl. lia.
  - unfold channel_recv in E. cbn [fst] in *. destruct (ch_queue (b_channel b)) eqn:Eq; [|done].
    destruct Hb as (Hc & _ & [Hw|Hw]); [|rewrite Eq, len_nil in Hw; lia].
    unfold pending. rewrite Eq, Hw. simpl. lia.
Qed.

Lemma take_turns_busy ts s :
  busy (b_channel s.1) → busy (b_channel (take_turns json uuid_string on_full pg factory keys log key ts s).1).
Proof. revert s. induction ts; intros s Hb; [done|]. simpl. by apply IHts, take_turn_busy. Qed.
End draining.

(** The log is complete in the end. With a blocking outbox of at least one slot, no
    faults and no client going away: after any turns, once the outbox has taken as many
    more as there are records left, as it does before a graceful shutdown completes, the
    log holds the leaves it had and then the record of every inspected event, in order;
    none is left behind and none is counted as dropped. *)
Theorem audit_complete json uuid_string pg `{J : Jiff} `{!JiffLaws J} factory keys log key
    row hashes algo ts0 b0 last0 turns scopes :
  row_parses row algo ts0 →
  w_slot (b_store b0) = None → holds_log (w_committed (b_store b0)) log row hashes →
  ch_queue (b_channel b0) = [] → ch_waiting (b_channel b0) = [] →
  ch_open (b_channel b0) = true → (0 < ch_capacity (b_channel b0))%N →
  let recs := inspected_records json uuid_string turns in
  (len hashes + len recs ≤ max_len)%N →
  faultless pg (turns ++ (Drained <$> scopes)) → length recs ≤ length scopes →
  let b := (take_turns json uuid_string FullPolicy_Block pg factory keys log key
              (turns ++ (Drained <$> scopes)) (b0, last0)).1 in
  holds_log (w_committed (b_store b)) log row
    (hashes ++ ((λ r, digest_bytes (leaf factory r)) <$> recs))
  ∧ ch_queue (b_channel b) = [] ∧ ch_waiting (b_channel b) = []
  ∧ w_dropped (b_store b) = w_dropped (b_store b0).
Proof.
  intros Hrow Hs Hh Hq Hwt Hop Hcap recs Hlen Hf Hsc b.
  assert (inspected_records json uuid_string (turns ++ (Drained <$> scopes)) = recs) as Hr.
  { unfold inspected_records, recs. rewrite omap_app. clear. induction scopes; [by rewrite app_nil_r|done]. }
  destruct (accounted_turns json uuid_string FullPolicy_Block pg factory keys log key row hashes algo ts0
              Hrow (b_store b0) _ _ (turns ++ (Drained <$> scopes)) b0 last0
              ltac:(by rewrite Hr) (accounted_start _ _ _ _ _ _ _ _ _ Hs Hh Hq Hwt))
    as (written & lost & _ & Hlog & _ & [Hd Hlost] & _ & _ & _ & _ & _ & Hall).
  rewrite (faultless_nobody_left _ _ Hf) in Hlost. fold b in Hlog, Hd, Hall. rewrite Hr in *. specialize (Hall eq_refl Hop Hf).
  assert (pending (b_channel b) = []) as Hp.
  { subst b. unfold take_turns in *. rewrite foldl_app. apply drain_empties.
    - apply take_turns_busy. cbn [fst]. unfold busy, within. rewrite Hq, Hwt. unfold len. simpl. split_and!; [done|lia|by left].
    - destruct (accounted_turns json uuid_string FullPolicy_Block pg factory keys log key row hashes algo
                  ts0 Hrow (b_store b0) _ _ turns b0 last0 Hlen
                  (accounted_start _ _ _ _ _ _ _ _ _ Hs Hh Hq Hwt)) as (? & ? & _ & _ & Hsub & _).
      apply sublist_length in Hsub. rewrite length_app in Hsub. unfold take_turns in *. fold recs in Hsub. lia. }
  rewrite Hp, app_nil_r in *. subst written. unfold len in Hd. simpl in Hd.
  apply app_eq_nil in Hp as [? ?]. split_and!; try done. lia.
Qed.

(** ** The record tells the event *)

Definition all_digits (b : bytes) : bool := forallb (λ c, in_range 48 57 (N_of_byte c)) b.

(** Values as the crate builds them: UTF-8 strings, decimal numbers, keys in order. *)
Fixpoint json_wf (v : Value) : bool :=
  match v with
  | Null | Bool _ => true
  | Number repr => all_digits repr
  | String_ s => valid_utf8 s
  | Array items => forallb json_wf items
  | Object fields =>
      sorted_keys (fst <$> fields) && forallb (λ '(k, x), valid_utf8 k && json_wf x) fields
  end.

(** The compact text determines the value it prints. *)
Class JsonPrints (json : SerdeJson) : Prop :=
  to_string_inj v v' : json_wf v = true → json_wf v' = true → to_string json v = to_string json v' → v = v'.

(** Strings are UTF-8, as every Rust string is. *)
Definition phase_utf8 (p : LifecyclePhase) : bool :=
  match p with StepStarted n | StepFinished n => valid_utf8 n | _ => true end.

Definition event_utf8 (e : AgentEvent) : bool :=
  match e with
  | Event_MessageChunk m t => valid_utf8 (message_str m) && valid_utf8 t
  | Event_ToolCall id n a => valid_utf8 (tool_call_str id) && valid_utf8 n && valid_utf8 a
  | Event_ToolResult id n c =>
      valid_utf8 (tool_call_str id) && valid_utf8 (default [] n) && valid_utf8 c
  | Event_StateMutation m => valid_utf8 (payload m)
  | Event_Lifecycle p => phase_utf8 p
  | Event_Opaque _ => true
  end.

(** The number a decimal text stands for. *)
Definition undecimal (b : bytes) : N := foldl (λ acc c, acc * 10 + (N_of_byte c - 48))%N 0%N b.

Lemma digit_value n : (n < 10)%N → N_of_byte (digit n) = (48 + n)%N.
Proof.
  intros H. unfold digit. destruct (N.ltb_spec n 10); [|lia].
  rewrite N_ascii_embedding; lia.
Qed.

Lemma digits_value fuel n : (n < 10 ^ N.of_nat fuel)%N →
  undecimal (digits fuel 10 n) = n ∧ all_digits (digits fuel 10 n) = true.
Proof.
  revert n. induction fuel as [|fuel IH]; intros n Hn.
  { change (10 ^ N.of_nat 0)%N with 1%N in Hn. assert (n = 0)%N as -> by lia. done. }
  rewrite Nat2N.inj_succ, N.pow_succ_r' in Hn. cbn [digits].
  assert (∃ h l, n = 10 * h + l ∧ l < 10 ∧ n `mod` 10 = l ∧ n / 10 = h)%N as (h & l & Hhl & Hl & Em & Eh).
  { exists (n / 10)%N, (n `mod` 10)%N. split_and!; [|by apply N.mod_lt|done|done].
    by apply N.div_mod. }
  rewrite Em, Eh. clear Em Eh.
  assert (all_digits [digit l] = true) as Hd.
  { unfold all_digits, in_range. simpl. rewrite digit_value by done. rewrite andb_true_r.
    apply andb_true_iff. rewrite !N.leb_le. lia. }
  unfold undecimal, all_digits in *. rewrite foldl_app, forallb_app, Hd, andb_true_r. simpl.
  rewrite digit_value by done. destruct (N.ltb_spec n 10) as [Hlt|Hge].
  - simpl. split; [lia|done].
  - destruct (IH h) as [-> ->]; [lia|]. split; [lia|done].
Qed.

Lemma decimal_value n : undecimal (decimal n) = n ∧ all_digits (decimal n) = true.
Proof.
  apply digits_value. rewrite Nat2N.inj_succ, N2Nat.id.
  apply (N.lt_le_trans _ (2 ^ N.size n)); [apply N.size_gt|].
  transitivity (10 ^ N.size n)%N; [by apply N.pow_le_mono_l|]. apply N.pow_le_mono_r; lia.
Qed.

Lemma decimal_inj : Inj (=) (=) decimal.
Proof. intros n m H. by rewrite <- (proj1 (decimal_value n)), H, (proj1 (decimal_value m)). Qed.

#[local] Arguments decimal : simpl never.
#[local] Arguments valid_utf8 : simpl never.

Lemma wf_string s : valid_utf8 s = true → json_wf (String_ s) = true.
Proof. done. Qed.

Lemma wf_number n : json_wf (json_number n) = true.
Proof. apply decimal_value. Qed.


Lemma encode_event_wf e : event_utf8 e = true → json_wf (encode_event e) = true.
Proof.
  destruct e as [m t|id n a|id n c|[b p|o b d x p]|[]|[]]; simpl;
    rewrite ?andb_true_iff; intros; destruct_and?; try done;
    split_and?; try done; try apply decimal_value.
  by destruct n.
Qed.

#[export] Instance json_option_inj : Inj (=) (=) json_option.
Proof. intros [] []; simpl; congruence. Qed.

Lemma encode_event_inj e e' : encode_event e = encode_event e' → e = e'.
Proof.
  destruct e as [[m] t|[id] n a|[id] n c|[b p|o b d x p]|[]|[]],
    e' as [[m'] t'|[id'] n' a'|[id'] n' c'|[b' p'|o' b' d' x' p']|[]|[]];
    simpl; intros H; try discriminate H; simplify_eq; try done;
    repeat match goal with
           | E : decimal _ = decimal _ |- _ => apply decimal_inj in E
           | E : json_option _ = json_option _ |- _ => apply (inj json_option) in E
           end; by subst.
Qed.

Section record.
Context (uuid_string : Uuid → bytes).

Lemma record_value_wf ctx e v :
  (∀ u, valid_utf8 (uuid_string u) = true) → event_utf8 e = true →
  json_wf (record_value uuid_string ctx e v) = true.
Proof.
  intros Hu He. unfold record_value. simpl. rewrite encode_event_wf, !Hu by done. by destruct v.
Qed.

Lemma record_value_inj ctx e v ctx' e' v' :
  Inj (=) (=) uuid_string →
  record_value uuid_string ctx e v = record_value uuid_string ctx' e' v' →
  ctx = ctx' ∧ e = e' ∧ verdict_label v = verdict_label v'.
Proof.
  intros Hi H. unfold record_value in H. simpl in H. injection H as He Hr Hs Hv.
  apply encode_event_inj in He as ->. apply Hi in Hr. apply Hi in Hs.
  destruct ctx as [[] []], ctx' as [[] []]. simpl in *. by subst.
Qed.
End record.

(** A record says which event of which run and session was inspected and what kind
    of verdict it got, and nothing else: two records are the same bytes exactly when
    these agree. The reason of a denial and the replacement of a rewriting are not part
    of it. *)
Theorem record_identifies_event json `{!JsonPrints json} uuid_string ctx e v ctx' e' v' :
  Inj (=) (=) uuid_string → (∀ u, valid_utf8 (uuid_string u) = true) →
  event_utf8 e = true → event_utf8 e' = true →
  encode_record json uuid_string ctx e v = encode_record json uuid_string ctx' e' v' ↔
  ctx = ctx' ∧ e = e' ∧ verdict_label v = verdict_label v'.
Proof.
  intros Hi Hu He He'. split.
  - intros H. apply (record_value_inj uuid_string); [done|].
    by apply (to_string_inj (json := json)); [apply record_value_wf..|].
  - intros (-> & -> & Hv). unfold encode_record, record_value. by rewrite Hv.
Qed.

(** ** Witnesses *)

(** A printer that determines its value: the value as a tree, the tree as a number. *)
Module TreeJson.
Fixpoint tree (v : Value) : gen_tree bytes :=
  match v with
  | Null => GenNode 0 []
  | Bool false => GenNode 1 []
  | Bool true => GenNode 2 []
  | Number repr => GenNode 3 [GenLeaf repr]
  | String_ s => GenNode 4 [GenLeaf s]
  | Array items => GenNode 5 (map tree items)
  | Object fields => GenNode 6 (map (λ '(k, x), GenNode 7 [GenLeaf k; tree x]) fields)
  end.

Fixpoint untree (t : gen_tree bytes) : Value :=
  match t with
  | GenNode 1 [] => Bool false
  | GenNode 2 [] => Bool true
  | GenNode 3 [GenLeaf repr] => Number repr
  | GenNode 4 [GenLeaf s] => String_ s
  | GenNode 5 ts => Array (map untree ts)
  | GenNode 6 ts =>
      Object (map (λ t, match t with GenNode 7 [GenLeaf k; x] => (k, untree x) | _ => ([], Null) end) ts)
  | _ => Null
  end.

Lemma untree_tree v : untree (tree v) = v.
Proof.
  induction v as [|[]|r|s|items IH|fields IH] using Value_rect'; try done; simpl; f_equal;
    induction IH as [|x l Hx _ IHl]; try done; simpl.
  - by rewrite Hx, IHl.
  - destruct x as [k x]. simpl in *. by rewrite Hx, IHl.
Qed.

Fixpoint bits (p : positive) : bytes :=
  match p with
  | xH => []
  | xO p => byte_of_N 48 :: bits p
  | xI p => byte_of_N 49 :: bits p
  end.

Lemma bits_inj p q : bits p = bits q → p = q.
Proof. revert q. induction p as [p IH|p IH|]; intros []; simpl; intros H; simplify_eq; f_equal; auto. Qed.

Definition tree_json : SerdeJson :=
  mkSerdeJson (λ _, None) (λ _, None) (λ v, bits (encode (tree v))).

#[export] Instance tree_prints : JsonPrints tree_json.
Proof.
  intros v v' _ _ H%bits_inj%(inj encode). by rewrite <- (untree_tree v), H, untree_tree.
Qed.
End TreeJson.

#[local] Existing Instances TreeJson.tree_prints demo_jiff demo_jiff_laws.

Definition demo_uuid_string (u : Uuid) : bytes := decimal u.

Lemma demo_uuid_utf8 u : valid_utf8 (demo_uuid_string u) = true.
Proof.
  destruct (decimal_value u) as [_ Hd]. unfold demo_uuid_string. revert Hd.
  generalize (decimal u). intros b Hb. unfold valid_utf8.
  induction b as [|c b IH]; [done|]. cbn [all_digits forallb] in Hb.
  apply andb_true_iff in Hb as [Hc Hb]. unfold in_range in Hc.
  apply andb_true_iff in Hc as [_ Hc%N.leb_le].
  assert (scan (c :: b) = (true, 1)) as Hs.
  { unfold scan, byte_at. simpl. assert ((N_of_byte c <? 128)%N = true) as -> by (apply N.ltb_lt; lia). done. }
  rewrite pieces_step by done. rewrite Hs. simpl. by apply IH.
Qed.

Definition demo_context : InspectionContext := mkInspectionContext (mkSessionId 5%N) (mkRunId 6%N).
Definition demo_tool_call : AgentEvent := Event_ToolCall (mkToolCallId (lit "c1")) (lit "rm") (lit "{}").

Lemma record_identifies_event_witness :
  encode_record TreeJson.tree_json demo_uuid_string demo_context demo_tool_call (Deny (lit "a"))
  = encode_record TreeJson.tree_json demo_uuid_string demo_context demo_tool_call (Deny (lit "b"))
  ∧ encode_record TreeJson.tree_json demo_uuid_string demo_context demo_tool_call (Deny (lit "a"))
    ≠ encode_record TreeJson.tree_json demo_uuid_string demo_context demo_tool_call Allow.
Proof.
  pose proof (record_identifies_event TreeJson.tree_json demo_uuid_string demo_context demo_tool_call
    (Deny (lit "a")) demo_context demo_tool_call (Deny (lit "b")) decimal_inj demo_uuid_utf8
    eq_refl eq_refl) as H1.
  pose proof (record_identifies_event TreeJson.tree_json demo_uuid_string demo_context demo_tool_call
    (Deny (lit "a")) demo_context demo_tool_call Allow decimal_inj demo_uuid_utf8
    eq_refl eq_refl) as H2.
  split.
  - apply H1. split; [reflexivity|split; reflexivity].
  - intros E. apply H2 in E as (_ & _ & E). discriminate E.
Defined.

(** Two events inspected, one drained, with a queue of one slot. *)
Definition demo_bridge : Bridge := mkBridge (mkChannel [] [] 1 true) demo_world [].

Definition demo_turns : list Turn :=
  [Inspected demo_context demo_tool_call Allow; Inspected demo_context demo_tool_call (Deny (lit "a"));
   Ticked (Ok tt) 30%Z; Drained (Ok tt)].


Lemma audit_complete_witness :
  let turns := [Inspected demo_context demo_tool_call Allow;
                Inspected demo_context demo_tool_call (Deny (lit "a")); Ticked (Ok tt) 30%Z] in
  let recs := inspected_records TreeJson.tree_json demo_uuid_string turns in
  let b := (take_turns TreeJson.tree_json demo_uuid_string FullPolicy_Block demo_pg demo_hasher demo_keys
              7%N (lit "k") (turns ++ (Drained <$> [Ok tt; Ok tt])) (demo_bridge, None)).1 in
  holds_log (w_committed (b_store b)) 7%N demo_row
    (demo_hashes ++ ((λ r, digest_bytes (leaf demo_hasher r)) <$> recs))
  ∧ ch_queue (b_channel b) = [] ∧ ch_waiting (b_channel b) = [] ∧ w_dropped (b_store b) = 0%N.
Proof.
  intros turns recs b.
  apply (audit_complete TreeJson.tree_json demo_uuid_string demo_pg demo_hasher demo_keys 7%N (lit "k")
    demo_row demo_hashes Sha256 demo_ts demo_bridge None turns [Ok tt; Ok tt] demo_parses eq_refl demo_held eq_refl eq_refl
    eq_refl eq_refl).
  - vm_compute; discriminate.
  - split; [reflexivity|]. intros t Ht. repeat (apply elem_of_cons in Ht as [->|Ht]; [done|]).
    by apply elem_of_nil in Ht.
  - unfold turns. cbn. lia.
Defined.
