(* ===== verification/Http.v ===== *)
(** * Http: the proxied route (crates/agate-proxy/src/presentation/http,
    infrastructure/agent)

    The ingress guards in the order the router layers them, the run handler, the
    mapping of failures to responses, and the client that calls the agent.  The rate
    limiter ([governor]), the header text check, UUID derivation and the HTTP client
    are parameters or ports; a response's stream is the list of its frames. *)
From stdpp Require Import options.
From S2P Require Import Prelude Text Json Sse Run AgUi Ssrf Ports SessionMemory Inspector Stream.
From S2P Require Import Policy Engines Enforcement.

(** ** Requests and responses *)

Record Request := mkRequest {
  rq_ip : IpAddr;
  rq_headers : list (bytes * bytes);
  rq_body : bytes;
}.

Record Response := mkResponse {
  rs_status : N;
  rs_headers : list (bytes * bytes);
  rs_frames : list bytes;
}.

Definition text_response (status : N) (body : bytes) : Response := mkResponse status [] [body].

(** [HeaderMap::get]: the first value under the name. *)
Fixpoint header_get (name : bytes) (headers : list (bytes * bytes)) : option bytes :=
  match headers with
  | [] => None
  | (n, v) :: rest => if bool_decide (n = name) then Some v else header_get name rest
  end.

(** ** API keys *)

Definition API_KEY_HEADER : bytes := lit "x-api-key".

(** [diff |= left ^ right] over the zipped bytes. *)
Fixpoint fold_diff (diff : N) (a b : bytes) : N :=
  match a, b with
  | x :: a', y :: b' =>
      fold_diff (N.lor diff (N.lxor (N_of_byte x) (N_of_byte y))) a' b'
  | _, _ => diff
  end.

Definition constant_time_eq (a b : bytes) : bool :=
  if negb (len a =? len b)%N then false else (fold_diff 0 a b =? 0)%N.

(** [fold(false, |matched, key| matched | eq)]: every key is compared. *)
Definition key_matches_any (provided : bytes) (accepted : list bytes) : bool :=
  foldl (λ matched key, orb matched (constant_time_eq provided key)) false accepted.

Definition accepted_keys (keys : list bytes) : list bytes :=
  filter (λ key, key ≠ []) (map trim keys).

(** ** Failures before the stream *)

Inductive ProxyError :=
| ProxyError_MalformedRequest (message : bytes)
| ProxyError_Denied (reason : bytes)
| ProxyError_Upstream (error : UpstreamError).

Definition into_response (e : ProxyError) : Response :=
  match e with
  | ProxyError_MalformedRequest error => text_response 400 (lit "invalid request: " ++ error)
  | ProxyError_Denied reason => text_response 403 reason
  | ProxyError_Upstream Timeout => text_response 504 (lit "upstream agent timed out")
  | ProxyError_Upstream _ => text_response 502 (lit "upstream agent request failed")
  end.

(** [Display for AgUiError]. *)
Definition ag_ui_display (e : AgUiError) : bytes :=
  match e with
  | NotAnObject => lit "AG-UI event is not a JSON object"
  | MissingType => lit "AG-UI event has no `type`"
  | MissingField event field =>
      lit "AG-UI " ++ event ++ lit " event is missing `" ++ field ++ lit "`"
  | BlankField event field =>
      lit "AG-UI " ++ event ++ lit " event has a blank `" ++ field ++ lit "`"
  | MalformedRequest => lit "request body is not valid RunAgentInput JSON"
  end.

(** ** The agent client *)

Record RunRequest := mkRunRequest { rr_body : bytes; rr_headers : list (bytes * bytes) }.

(** [UpstreamAgentClient::run]. *)
Class UpstreamAgentClient (W : Type) :=
  agent_run : RunRequest → Eff W (result UpstreamError (list (result UpstreamError bytes))).

(** What reqwest says of a failure. *)
Record ReqwestError := mkReqwestError { is_timeout : bool; is_connect : bool; error_text : bytes }.

Definition request_error (e : ReqwestError) : UpstreamError :=
  if is_timeout e then Timeout
  else if is_connect e then Connect (error_text e)
  else Stream_ (error_text e).

Definition chunk_error (e : ReqwestError) : UpstreamError :=
  if is_timeout e then Timeout else Stream_ (error_text e).

(** [send()] gives the status and the chunks; a 4xx or 5xx status is an error. *)
Definition reqwest_run {W}
    (send : RunRequest → Eff W (result ReqwestError (N * list (result ReqwestError bytes))))
    (request : RunRequest) : Eff W (result UpstreamError (list (result UpstreamError bytes))) :=
  answer ← send request;
  mret match answer with
       | Err e => Err (request_error e)
       | Ok (status, chunks) =>
           if (400 <=? status)%N && (status <=? 599)%N then Err (Status status)
           else Ok (map (map_err chunk_error) chunks)
       end.

(** ** The run handler *)

Definition SKIP_HEADERS : list bytes :=
  [lit "host"; lit "content-length"; lit "connection"; lit "transfer-encoding"].

Definition SESSION_NAMESPACE : Uuid := 0x8f6b1d2e4a7c4b3e9f1a2c5d7e8f0a1b%N.
Definition RUN_NAMESPACE : Uuid := 0x3c9e7a1f6d2b4e8cb5a01f4d6e8c0b2a%N.

(** The ingress settings the route reads. *)
Record IngressConfig := mkIngressConfig {
  max_body_bytes : N;
  api_keys : list bytes;
  max_concurrent_requests : N;
  rate_limit_per_second : N;
  rate_limit_burst : N;
  ingress_settings : InspectionSettings;
}.

Section handler.
Context (json : SerdeJson) (url_parse : bytes → option Url).
Context (order : gmap ToolCallId ToolCallBuffer → list (ToolCallId * ToolCallBuffer)).
Context (header_to_str : bytes → option bytes).
Context (new_v5 : Uuid → bytes → Uuid).
Context {W : Type} `{!PolicyPort W, !AuditSink W, !HostResolver W, !SessionMemory W,
  !ProxyMetrics W, !UpstreamAgentClient W}.
Context (new_v4 : Eff W Uuid).

Definition derive_uuid (namespace : Uuid) (label : option bytes) : Eff W Uuid :=
  match label with
  | Some label => mret (new_v5 namespace label)
  | None => new_v4
  end.

Definition session_uuid_of (thread_id : option bytes) : Eff W Uuid :=
  derive_uuid SESSION_NAMESPACE thread_id.

Definition run_uuid_of (run_id : option bytes) : Eff W Uuid := derive_uuid RUN_NAMESPACE run_id.

Definition forwardable_headers (headers : list (bytes * bytes)) : list (bytes * bytes) :=
  omap (λ '(name, value), (λ value, (name, value)) <$> header_to_str value)
    (filter (λ h : bytes * bytes, h.1 ∉ SKIP_HEADERS) headers).

Definition proxy_run (settings : InspectionSettings) (headers : list (bytes * bytes)) (body : bytes) :
    Eff W (result ProxyError Response) :=
  match parse_request json body with
  | Err error => mret (Err (ProxyError_MalformedRequest (ag_ui_display error)))
  | Ok inbound =>
      session ← session_uuid_of (thread_id inbound);
      run ← run_uuid_of (rc_run_id inbound);
      let context := mkInspectionContext (mkSessionId session) (mkRunId run) in
      _ ← record_run;
      decision ← inspect_request url_parse context inbound;
      match decision with
      | Request_Reject reason => mret (Err (ProxyError_Denied reason))
      | Request_Allow =>
          upstream ← agent_run (mkRunRequest body (forwardable_headers headers));
          match upstream with
          | Err error =>
              _ ← record_upstream_error error; mret (Err (ProxyError_Upstream error))
          | Ok items =>
              frames ← inspect_stream json url_parse order items context settings;
              mret (Ok (mkResponse 200 [(lit "content-type", lit "text/event-stream")] frames))
          end
      end
  end.

(** ** The layers *)

(** Requests in flight hold a permit until their body ends; [check_key] is the
    limiter's answer, the seconds to wait if it refuses. *)
Context {L : Type} (check_key : IpAddr → L → result N unit * L).
(** What the body extractor answers over the limit. *)
Context (too_large : Response).

Record Gate := mkGate { g_limiter : L; g_permits : N; g_world : W }.

(** The innermost service: the body limit of the extractor, then the handler. *)
Definition run_service (config : IngressConfig) (r : Request) (g : Gate) : Response * Gate :=
  if (max_body_bytes config <? len (rq_body r))%N then (too_large, g)
  else
    let '(answer, w) :=
      proxy_run (ingress_settings config) (rq_headers r) (rq_body r) (g_world g) in
    (match answer with Ok response => response | Err e => into_response e end,
     mkGate (g_limiter g) (g_permits g) w).

Definition require_api_key (accepted : list bytes) (next : Request → Gate → Response * Gate)
    (r : Request) (g : Gate) : Response * Gate :=
  let provided := value ← header_get API_KEY_HEADER (rq_headers r); header_to_str value in
  if match provided with Some key => key_matches_any key accepted | None => false end then next r g
  else (text_response 401 (lit "missing or invalid API key"), g).

Definition api_key_layer (keys : list bytes) (next : Request → Gate → Response * Gate) :
    Request → Gate → Response * Gate :=
  match accepted_keys keys with
  | [] => next
  | accepted => require_api_key accepted next
  end.

(** The boolean tells whether a permit is held by the response's body. *)
Definition concurrency_limit (next : Request → Gate → Response * Gate) (r : Request) (g : Gate) :
    Response * bool * Gate :=
  if (g_permits g =? 0)%N then (text_response 503 (lit "service at capacity"), false, g)
  else
    let '(response, g') := next r (mkGate (g_limiter g) (g_permits g - 1) (g_world g)) in
    (response, true, g').

(** The body ended or was dropped. *)
Definition release_permit (g : Gate) : Gate :=
  mkGate (g_limiter g) (g_permits g + 1) (g_world g).

Definition rate_limit (next : Request → Gate → Response * bool * Gate) (r : Request) (g : Gate) :
    Response * bool * Gate :=
  let '(answer, limiter) := check_key (rq_ip r) (g_limiter g) in
  let g := mkGate limiter (g_permits g) (g_world g) in
  match answer with
  | Ok _ => next r g
  | Err wait =>
      (mkResponse 429 [(lit "retry-after", decimal (N.max wait 1))] [lit "rate limit exceeded"],
       false, g)
  end.

Definition rate_limit_layer (per_second : N) (next : Request → Gate → Response * bool * Gate) :
    Request → Gate → Response * bool * Gate :=
  if (per_second =? 0)%N then next else rate_limit next.

(** [router]: the guards around the run route, outermost first. *)
Definition router (config : IngressConfig) : Request → Gate → Response * bool * Gate :=
  rate_limit_layer (rate_limit_per_second config)
    (concurrency_limit (api_key_layer (api_keys config) (run_service config))).
End handler.

(** The quota the limiter is built with: the rate and the bucket depth. *)
Definition rate_quota (per_second burst : N) : option (N * N) :=
  if (per_second =? 0)%N then None
  else Some (per_second, if (burst =? 0)%N then per_second else burst).

(** ** Comparing keys *)

Lemma N_of_byte_inj x y : N_of_byte x = N_of_byte y → x = y.
Proof. intros H. by rewrite <- (ascii_N_embedding x), H, ascii_N_embedding. Qed.

Lemma fold_diff_zero diff a b :
  length a = length b → (fold_diff diff a b = 0%N ↔ diff = 0%N ∧ a = b).
Proof.
  revert diff b. induction a as [|x a IH]; intros diff [|y b] Hl; simpl in *; try lia; [naive_solver|].
  rewrite IH by lia. rewrite N.lor_eq_0_iff. split.
  - intros [[? Hx%N.lxor_eq%N_of_byte_inj] ->]. by subst.
  - intros [? [= -> ->]]. by rewrite N.lxor_nilpotent.
Qed.

Lemma constant_time_eq_spec a b : constant_time_eq a b = bool_decide (a = b).
Proof.
  unfold constant_time_eq, len. destruct (N.eqb_spec (N.of_nat (length a)) (N.of_nat (length b))) as [H|H]; simpl.
  - apply Nat2N.inj in H. apply eq_bool_prop_intro. rewrite !Is_true_true, N.eqb_eq, bool_decide_eq_true.
    rewrite fold_diff_zero by done. naive_solver.
  - symmetry. apply bool_decide_eq_false. by intros ->.
Qed.

Lemma key_matches_any_spec provided accepted :
  key_matches_any provided accepted = bool_decide (provided ∈ accepted).
Proof.
  unfold key_matches_any. cut (∀ m, foldl (λ matched key, orb matched (constant_time_eq provided key)) m accepted
    = orb m (bool_decide (provided ∈ accepted))); [intros H; apply H|].
  induction accepted as [|k ks IH]; intros m; simpl.
  - by rewrite orb_false_r.
  - rewrite IH, constant_time_eq_spec, <- orb_assoc. apply (f_equal (orb m)).
    apply eq_bool_prop_intro. rewrite !Is_true_true, orb_true_iff, !bool_decide_eq_true.
    by rewrite elem_of_cons.
Qed.

(** ** Ingress *)

Section ingress.
Context (json : SerdeJson) (url_parse : bytes → option Url).
Context (order : gmap ToolCallId ToolCallBuffer → list (ToolCallId * ToolCallBuffer)).
Context (header_to_str : bytes → option bytes) (new_v5 : Uuid → bytes → Uuid).
Context {W : Type} `{!PolicyPort W, !AuditSink W, !HostResolver W, !SessionMemory W,
  !ProxyMetrics W, !UpstreamAgentClient W}.
Context (new_v4 : Eff W Uuid) {L : Type} (check_key : IpAddr → L → result N unit * L).
Context (too_large : Response).

Definition rate_ok (config : IngressConfig) (r : Request) (g : Gate (W := W) (L := L)) : bool :=
  (rate_limit_per_second config =? 0)%N || is_ok (check_key (rq_ip r) (g_limiter g)).1.

(** No key is configured, or the header carries exactly one of the trimmed,
    non-blank ones. *)
Definition key_ok (config : IngressConfig) (r : Request) : Prop :=
  accepted_keys (api_keys config) = []
  ∨ ∃ value key, header_get API_KEY_HEADER (rq_headers r) = Some value
      ∧ header_to_str value = Some key ∧ key ∈ accepted_keys (api_keys config).

Lemma api_key_layer_spec keys next r (g : Gate (W := W) (L := L)) config :
  api_keys config = keys →
  (key_ok config r ∧ api_key_layer header_to_str keys next r g = next r g)
  ∨ (¬ key_ok config r
     ∧ api_key_layer header_to_str keys next r g = (text_response 401 (lit "missing or invalid API key"), g)).
Proof.
  intros <-. unfold key_ok, api_key_layer. destruct (accepted_keys (api_keys config)) as [|k ks] eqn:E; [auto|].
  unfold require_api_key. destruct (header_get _ _) as [value|]; simpl.
  2:{ right. split; [|done]. by intros [?|(? & ? & ? & _)]. }
  destruct (header_to_str value) as [key|] eqn:Ek.
  2:{ right. split; [|done]. intros [?|(? & ? & [= <-] & ? & _)]; congruence. }
  rewrite key_matches_any_spec. case_bool_decide as Hin; [left|right]; (split; [|done]).
  - right. eauto.
  - intros [?|(? & ? & [= <-] & ? & ?)]; [done|]. congruence.
Qed.

(** What happens to a request the rate limiter lets through. *)
Definition past_limiter (config : IngressConfig) (r : Request) (g : Gate (W := W) (L := L))
    (response : Response) (held : bool) (g' : Gate (W := W) (L := L)) : Prop :=
  if (g_permits g =? 0)%N then
    response = text_response 503 (lit "service at capacity") ∧ held = false
    ∧ g_permits g' = 0%N ∧ g_world g' = g_world g
  else
    held = true ∧ g_permits g' = (g_permits g - 1)%N
    ∧ ((¬ key_ok config r ∧ response = text_response 401 (lit "missing or invalid API key")
        ∧ g_world g' = g_world g)
       ∨ (key_ok config r ∧ (max_body_bytes config < len (rq_body r))%N
          ∧ response = too_large ∧ g_world g' = g_world g)
       ∨ (key_ok config r ∧ (len (rq_body r) ≤ max_body_bytes config)%N
          ∧ let '(answer, w) := proxy_run json url_parse order header_to_str new_v5 new_v4
                                  (ingress_settings config) (rq_headers r) (rq_body r) (g_world g) in
            response = match answer with Ok response => response | Err e => into_response e end
            ∧ g_world g' = w)).

Lemma concurrency_spec config r limiter g :
  let '(response, held, g') :=
    concurrency_limit (api_key_layer header_to_str (api_keys config)
      (run_service json url_parse order header_to_str new_v5 new_v4 too_large config)) r
      (mkGate limiter (g_permits g) (g_world g)) in
  past_limiter config r g response held g'.
Proof.
  unfold concurrency_limit, past_limiter. cbn [g_permits g_world g_limiter].
  destruct (N.eqb_spec (g_permits g) 0) as [E|E]; [done|]. set (g1 := mkGate _ _ _).
  destruct (api_key_layer_spec (api_keys config)
    (run_service json url_parse order header_to_str new_v5 new_v4 too_large config) r g1 config eq_refl)
    as [[Hk ->]|[Hk ->]]; [|by split_and!; [..|left]].
  unfold run_service. destruct (N.ltb_spec (max_body_bytes config) (len (rq_body r))).
  - split_and!; [done|done|]. right. by left.
  - subst g1. cbn [g_world]. destruct (proxy_run _ _ _ _ _ _ _ _ _ _) as [answer w].
    split_and!; [done|done|]. right. by right.
Qed.
End ingress.

(** C26: nothing passes the ingress guards unexamined. A request answered 429, 503, 401
    or over the body limit leaves the policy, the audit trail, the replay memory and the
    agent untouched; one that passes met all four guards: the limiter admits its
    address, a permit was free, it carries a configured API key (if any is configured)
    and its body is within the limit. The constant-time comparison accepts exactly the
    trimmed, non-blank configured keys. *)
Theorem ingress_exact json url_parse order header_to_str new_v5 {W : Type} `{!PolicyPort W,
    !AuditSink W, !HostResolver W, !SessionMemory W, !ProxyMetrics W, !UpstreamAgentClient W}
    (new_v4 : Eff W Uuid) {L : Type} (check_key : IpAddr → L → result N unit * L) too_large
    config r (g : Gate) :
  let '(response, held, g') :=
    router json url_parse order header_to_str new_v5 new_v4 check_key too_large config r g in
  if rate_ok check_key config r g then
    past_limiter json url_parse order header_to_str new_v5 new_v4 too_large config r g response held g'
  else rs_status response = 429%N ∧ held = false ∧ g_permits g' = g_permits g ∧ g_world g' = g_world g.
Proof.
  unfold router, rate_limit_layer, rate_limit, rate_ok.
  destruct (N.eqb_spec (rate_limit_per_second config) 0) as [E|E]; simpl.
  - destruct g as [limiter permits w].
    exact (concurrency_spec json url_parse order header_to_str new_v5 new_v4 too_large config r limiter
             (mkGate limiter permits w)).
  - destruct (check_key (rq_ip r) (g_limiter g)) as [[[]|wait] limiter]; simpl; [|done].
    apply concurrency_spec.
Qed.

(** ** In-flight requests *)

Section inflight.
Context (json : SerdeJson) (url_parse : bytes → option Url).
Context (order : gmap ToolCallId ToolCallBuffer → list (ToolCallId * ToolCallBuffer)).
Context (header_to_str : bytes → option bytes) (new_v5 : Uuid → bytes → Uuid).
Context {W : Type} `{!PolicyPort W, !AuditSink W, !HostResolver W, !SessionMemory W,
  !ProxyMetrics W, !UpstreamAgentClient W}.
Context (new_v4 : Eff W Uuid) {L : Type} (check_key : IpAddr → L → result N unit * L).
Context (too_large : Response) (config : IngressConfig).

(** A request arrives, or the body of one in flight ends (or its client goes away). *)
Inductive Traffic := Arrive (r : Request) | Leave.

Definition traffic_step (s : Gate (W := W) (L := L) * N) (t : Traffic) :
    Gate (W := W) (L := L) * N :=
  let '(g, active) := s in
  match t with
  | Arrive r =>
      let '(_, held, g') :=
        router json url_parse order header_to_str new_v5 new_v4 check_key too_large config r g in
      (g', if held : bool then active + 1 else active)%N
  | Leave => if (active =? 0)%N then (g, active) else (release_permit g, active - 1)%N
  end.

Lemma router_permits r g :
  let '(_, held, g') :=
    router json url_parse order header_to_str new_v5 new_v4 check_key too_large config r g in
  (g_permits g' + (if held : bool then 1 else 0) = g_permits g)%N.
Proof.
  unfold router, rate_limit_layer, rate_limit.
  assert (∀ limiter : L, let '(_, held, g') :=
    concurrency_limit (api_key_layer header_to_str (api_keys config)
      (run_service json url_parse order header_to_str new_v5 new_v4 too_large config)) r
      (mkGate limiter (g_permits g) (g_world g)) in
    (g_permits g' + (if held : bool then 1 else 0) = g_permits g)%N) as H.
  { intros limiter. pose proof (concurrency_spec json url_parse order header_to_str new_v5 new_v4 too_large
      config r limiter g) as H. destruct (concurrency_limit _ _ _) as [[response held] g'].
    unfold past_limiter in H. destruct (N.eqb_spec (g_permits g) 0) as [E|E].
    - destruct H as (_ & -> & -> & _). lia.
    - destruct H as (-> & -> & _). lia. }
  destruct (_ =? 0)%N; [destruct g; apply H|].
  destruct (check_key (rq_ip r) (g_limiter g)) as [[[]|wait] limiter]; simpl; [apply H|lia].
Qed.

Lemma traffic_permits ts g active :
  let '(g', active') := foldl traffic_step (g, active) ts in
  (g_permits g' + active' = g_permits g + active)%N.
Proof.
  revert g active. induction ts as [|t ts IH]; intros g active; [done|]. cbn [foldl].
  destruct t as [r|]; cbn [traffic_step].
  - pose proof (router_permits r g) as Hr. destruct (router _ _ _ _ _ _ _ _ _ _ _) as [[resp held] g1].
    specialize (IH g1 (if held : bool then active + 1 else active)%N).
    destruct (foldl _ _ ts) as [g' a']. destruct held; lia.
  - destruct (N.eqb_spec active 0) as [E|E]; [apply IH|].
    specialize (IH (release_permit g) (active - 1)%N). destruct (foldl _ _ ts) as [g' a'].
    simpl in IH. lia.
Qed.
End inflight.

(** At most the configured number of runs is in flight at any time, through any
    arrivals and departures, streaming bodies included; no permit is lost or made, so a
    request is shed exactly when that many are in flight. *)
Theorem inflight_bounded json url_parse order header_to_str new_v5 {W : Type} `{!PolicyPort W,
    !AuditSink W, !HostResolver W, !SessionMemory W, !ProxyMetrics W, !UpstreamAgentClient W}
    (new_v4 : Eff W Uuid) {L : Type} (check_key : IpAddr → L → result N unit * L) too_large
    config limiter w ts :
  let '(g, active) :=
    foldl (traffic_step json url_parse order header_to_str new_v5 new_v4 check_key too_large config)
      (mkGate limiter (max_concurrent_requests config) w, 0%N) ts in
  (active ≤ max_concurrent_requests config)%N
  ∧ (g_permits g = 0%N ↔ active = max_concurrent_requests config).
Proof.
  pose proof (traffic_permits json url_parse order header_to_str new_v5 new_v4 check_key too_large config ts
                (mkGate limiter (max_concurrent_requests config) w) 0) as H.
  destruct (foldl _ _ ts) as [g active]. simpl in H. split; lia.
Qed.

(** ** The whole run *)

(** The agent's calls, made by nothing but the client, and ports that leave the audit
    trail alone. *)
Class RunFrames (W : Type) `{!PolicyPort W, !AuditSink W, !HostResolver W, !SessionMemory W,
    !AuditSinkLaws W, !ProxyMetrics W, !UpstreamAgentClient W} (new_v4 : Eff W Uuid) := {
  agent_calls : W → list RunRequest;
  agent_called req w : agent_calls (agent_run req w).2 = agent_calls w ++ [req];
  agent_trail req w : trail (agent_run req w).2 = trail w;
  v4_frame w : trail (new_v4 w).2 = trail w ∧ agent_calls (new_v4 w).2 = agent_calls w;
  record_run_frame w : trail (record_run w).2 = trail w ∧ agent_calls (record_run w).2 = agent_calls w;
  decide_calls ctx e w : agent_calls (decide_event ctx e w).2 = agent_calls w;
  record_calls ctx e v w : agent_calls (record_event ctx e v w).2 = agent_calls w;
  resolve_calls h w : agent_calls (resolve h w).2 = agent_calls w;
  recall_calls s t w : agent_calls (recall s t w).2 = agent_calls w;
  remember_calls s t r w : agent_calls (remember s t r w).2 = agent_calls w;
  inspected_calls o w : agent_calls (record_inspected o w).2 = agent_calls w;
  upstream_calls e w : agent_calls (record_upstream_error e w).2 = agent_calls w;
}.

Section run.
Context (json : SerdeJson) (url_parse : bytes → option Url).
Context (order : gmap ToolCallId ToolCallBuffer → list (ToolCallId * ToolCallBuffer)).
Context (header_to_str : bytes → option bytes) (new_v5 : Uuid → bytes → Uuid).
Context {W : Type} `{!PolicyPort W, !AuditSink W, !HostResolver W, !SessionMemory W,
  !AuditSinkLaws W, !ProxyMetrics W, !UpstreamAgentClient W}.
Context (new_v4 : Eff W Uuid) `{!RunFrames W new_v4}.
#[local] Set Default Proof Using "Type*".

Lemma inspect_request_calls ctx rc w :
  agent_calls (inspect_request url_parse ctx rc w).2 = agent_calls w.
Proof.
  apply (keeps_inspect_request url_parse (λ w', agent_calls w' = agent_calls w)); try done;
    intros; intros w' <-; auto using decide_calls, record_calls, resolve_calls, recall_calls, remember_calls.
Qed.

Lemma inspect_stream_calls items ctx settings w :
  agent_calls (inspect_stream json url_parse order items ctx settings w).2 = agent_calls w.
Proof.
  apply (keeps_stream_from json url_parse order (λ w', agent_calls w' = agent_calls w)); try done.
  - intros. apply keeps_judge_ports; intros; intros w' <-;
      auto using decide_calls, record_calls, resolve_calls, recall_calls, remember_calls.
  - intros o w' <-. apply inspected_calls.
  - intros e w' <-. apply upstream_calls.
Qed.

Lemma derive_frame ns label w :
  trail (derive_uuid new_v5 new_v4 ns label w).2 = trail w
  ∧ agent_calls (derive_uuid new_v5 new_v4 ns label w).2 = agent_calls w.
Proof. destruct label; simpl; [done|apply v4_frame]. Qed.
End run.

Lemma forwardable_skips header_to_str headers h :
  h ∈ forwardable_headers header_to_str headers → h.1 ∉ SKIP_HEADERS.
Proof.
  unfold forwardable_headers. intros ([n v] & Hin & Hv)%list_elem_of_omap.
  apply list_elem_of_filter in Hin as [Hs _]. destruct (header_to_str v); [|done].
  by injection Hv as <-.
Qed.

(** A proxied run, from its body to its last frame. A body that does not parse is
    answered 400 and nothing happens; a run refused on the request leg is answered with
    the reason, recorded as one denial, and never reaches the agent; otherwise the agent
    is called exactly once, with the body as received and without hop-by-hop headers,
    and either its failure is answered, or every frame relayed is one the ruleset has
    nothing against, up to one final [RUN_ERROR]. *)
Theorem run_enforced rx json url_parse order header_to_str new_v5 rs {W : Type} `{!PolicyPort W,
    !AuditSink W, !HostResolver W, !SessionMemory W, !AuditSinkLaws W, !ProxyMetrics W,
    !MetricsFrames W, !UpstreamAgentClient W} (new_v4 : Eff W Uuid) `{!RunFrames W new_v4,
    !PolicyEnforces W (PolicyAdapter_decide rx json rs)} settings headers body w :
  Forall (safe_literal rx) (rs_secrets rx rs) →
  (∀ m, order m ≡ₚ map_to_list m) →
  trail w = [] →
  let req := mkRunRequest body (forwardable_headers header_to_str headers) in
  (∀ h, h ∈ rr_headers req → h.1 ∉ SKIP_HEADERS)
  ∧ let '(answer, w') :=
      proxy_run json url_parse order header_to_str new_v5 new_v4 settings headers body w in
    match answer with
    | Err (ProxyError_MalformedRequest m) =>
        ∃ e, parse_request json body = Err e ∧ m = ag_ui_display e ∧ w' = w
    | Err (ProxyError_Denied r) =>
        is_ok (parse_request json body) = true ∧ agent_calls w' = agent_calls w
        ∧ ∃ ctx e, trail w' = [(ctx, e, Deny r)]
    | Err (ProxyError_Upstream error) =>
        is_ok (parse_request json body) = true ∧ agent_calls w' = agent_calls w ++ [req]
        ∧ ∃ w1, (agent_run req w1).1 = Err error
    | Ok response =>
        is_ok (parse_request json body) = true ∧ agent_calls w' = agent_calls w ++ [req]
        ∧ rs_status response = 200%N
        ∧ ∃ w1 items frames tail, (agent_run req w1).1 = Ok items
            ∧ rs_frames response = frames ++ tail
            ∧ Forall (permitted_frame rx json rs (malformed_mode settings)
                        (received SseDecoder_new items)) frames
            ∧ (tail = [] ∨ ∃ r, tail = [run_error json r])
    end.
Proof.
  intros Hsafe Horder Hw req. split; [intros h; apply forwardable_skips|]. unfold proxy_run.
  destruct (parse_request json body) as [inbound|e]; [|cbn; eauto].
  unfold mbind, eff_bind, session_uuid_of, run_uuid_of.
  pose proof (derive_frame new_v5 new_v4 SESSION_NAMESPACE (thread_id inbound) w) as [Ht1 Hc1].
  destruct (derive_uuid _ _ _ (thread_id inbound) w) as [session w1]. cbn [snd] in *.
  pose proof (derive_frame new_v5 new_v4 RUN_NAMESPACE (rc_run_id inbound) w1) as [Ht2 Hc2].
  destruct (derive_uuid _ _ _ (rc_run_id inbound) w1) as [run w2]. cbn [snd] in *.
  pose proof (record_run_frame w2) as [Ht3 Hc3]. destruct (record_run w2) as [[] w3]. cbn [snd] in *.
  set (ctx := mkInspectionContext _ _).
  pose proof (inspect_request_trail url_parse ctx inbound w3) as Ht4.
  pose proof (inspect_request_calls url_parse new_v4 ctx inbound w3) as Hc4.
  destruct (inspect_request url_parse ctx inbound w3) as [decision w4]. cbn [snd] in *.
  assert (trail w3 = [] ∧ agent_calls w3 = agent_calls w) as [Htr Hca] by (split; congruence).
  destruct decision as [|reason].
  2:{ destruct Ht4 as (e & _ & Ht4). split_and!; [done|congruence|]. exists ctx, e. by rewrite Ht4, Htr. }
  fold req. pose proof (agent_called req w4) as Hc5. pose proof (agent_trail req w4) as Ht5.
  destruct (agent_run req w4) as [upstream w5] eqn:Er. cbn [snd] in *. destruct upstream as [items|error].
  - pose proof (stream_permitted rx json url_parse order rs items ctx settings w5 Hsafe Horder) as Hs.
    pose proof (inspect_stream_calls json url_parse order new_v4 items ctx settings w5) as Hc6.
    destruct (inspect_stream json url_parse order items ctx settings w5) as [frames w6].
    destruct Hs as (fs & tail & -> & Hf & Htail).
    { intros c e v. rewrite Ht5, Ht4, Htr. by intros ?%elem_of_nil. }
    simpl in *. split_and!; [done|congruence|done|]. exists w4, items, fs, tail. by rewrite Er.
  - pose proof (upstream_calls error w5) as Hc6. destruct (record_upstream_error error w5) as [[] w6].
    simpl in *. split_and!; [done|congruence|]. exists w4. by rewrite Er.
Qed.

(** ** Witness: the ruled stream behind the handler *)

Module RunDemo.
Import ToyRegex.

(** The trail and the calls of the agent, which answers with the demo stream. *)
Definition world : Type :=
  list (InspectionContext * AgentEvent * Verdict AgentEvent) * list RunRequest.

Definition run_json : SerdeJson :=
  mkSerdeJson (from_str demo_stream_json)
    (λ b, if bool_decide (b = lit "body") then Some (Object [(lit "messages", Array [])]) else None)
    (to_string demo_stream_json).

#[export] Instance policy : PolicyPort world :=
  λ ctx e w, (PolicyAdapter_decide toy_regex run_json Ruled.ruleset ctx e, w).
#[export] Instance audit : AuditSink world := λ ctx e v w, (tt, (w.1 ++ [(ctx, e, v)], w.2)).
#[export] Instance resolver : HostResolver world := λ _ w, ([], w).
#[export] Instance memory : SessionMemory world :=
  {| recall _ _ := mret None; remember _ _ _ := mret tt |}.
#[export] Instance metrics : ProxyMetrics world :=
  {| record_run := mret tt; record_upstream_error _ := mret tt; record_inspected _ := mret tt |}.
#[export] Instance agent : UpstreamAgentClient world :=
  λ req w, (Ok (Ok <$> demo_chunks), (w.1, w.2 ++ [req])).
#[export] Instance trail_laws : AuditSinkLaws world.
Proof. by refine {| trail := fst |}. Defined.
#[export] Instance metrics_frames : MetricsFrames world.
Proof. by split. Qed.
#[export] Instance run_frames : RunFrames world (mret 1%N).
Proof. by refine {| agent_calls := snd |}. Defined.
#[export] Instance enforces : PolicyEnforces world (PolicyAdapter_decide toy_regex run_json Ruled.ruleset).
Proof. apply direct_enforces. Qed.
End RunDemo.

#[local] Existing Instances RunDemo.policy RunDemo.audit RunDemo.resolver RunDemo.memory
  RunDemo.metrics RunDemo.agent RunDemo.trail_laws RunDemo.metrics_frames RunDemo.run_frames
  RunDemo.enforces.

Lemma run_enforced_witness :
  ∃ response w' frames tail,
    proxy_run (W := RunDemo.world) RunDemo.run_json (λ _, None) map_to_list Some (λ _ _, 9%N) (mret 1%N)
      demo_settings [(lit "host", lit "h")] (lit "body") ([], []) = (Ok response, w')
    ∧ rs_frames response = frames ++ tail
    ∧ Forall (permitted_frame ToyRegex.toy_regex RunDemo.run_json Ruled.ruleset Mode_Terminate
                (received SseDecoder_new (Ok <$> demo_chunks))) frames.
Proof.
  pose proof (run_enforced ToyRegex.toy_regex RunDemo.run_json (λ _, None) map_to_list Some (λ _ _, 9%N)
    Ruled.ruleset (W := RunDemo.world) (mret 1%N) demo_settings [(lit "host", lit "h")] (lit "body")
    ([], [])) as H.
  destruct H as [_ H]; [repeat constructor; by exists (lit "hello")|intros m; reflexivity|reflexivity|].
  destruct (proxy_run _ _ _ _ _ _ _ _ _ _) as [[response|e] w'] eqn:E.
  - destruct H as (_ & _ & _ & w1 & items & frames & tail & Ha & Hf & Hp & _).
    assert (items = Ok <$> demo_chunks) as -> by (vm_compute in Ha |- *; congruence).
    exists response, w', frames, tail. split; [reflexivity|]. split; [exact Hf|exact Hp].
  - exfalso. apply (f_equal (λ x, is_ok x.1)) in E. vm_compute in E. discriminate E.
Defined.
