(* ===== verification/AuditHttp.v ===== *)
(** * AuditHttp: the audit API and the checkpoint key
    (crates/agate-audit/src: presentation/http/v1, infrastructure/key_store.rs)

    The route handlers as functions from the extracted path and body to the status and
    the response, the error mapping, and the loading of the checkpoint key from the
    environment.  axum's routing and extractors and serde's derived codecs are not
    modelled; a response is its record of fields. *)
From stdpp Require Import options.
From S2P Require Import Prelude Crypto Merkle TransparencyLog AuditStore Text AuditApp.

(** ** Hexadecimal *)

(** [to_hex]: two lowercase hex digits per byte. *)
Definition hex_bytes (b : bytes) : bytes :=
  concat (map (λ c, [hex_digit (N_of_byte c / 16)%N; hex_digit (N_of_byte c `mod` 16)%N]) b).

(** [char::to_digit(16)] of a byte. *)
Definition to_digit_16 (c : ascii) : option N :=
  let n := N_of_byte c in
  if ((48 <=? n) && (n <=? 57))%N then Some (n - 48)%N
  else if ((97 <=? n) && (n <=? 102))%N then Some (n - 87)%N
  else if ((65 <=? n) && (n <=? 70))%N then Some (n - 55)%N
  else None.

(** The loop over [chunks_exact(2)]; [(high << 4) | low] of two nibbles fits a byte. *)
Fixpoint decode_pairs (hex : bytes) : option bytes :=
  match hex with
  | high :: low :: rest =>
      h ← to_digit_16 high;
      l ← to_digit_16 low;
      tail ← decode_pairs rest;
      Some (byte_of_N (N.lor (N.shiftl h 4) l) :: tail)
  | _ => Some []
  end.

Definition SEED_HEX_LEN : N := 64.

Definition decode_seed (hex : bytes) : option bytes :=
  let hex := trim hex in
  if negb (len hex =? SEED_HEX_LEN)%N then None else decode_pairs hex.

(** ** The key from the environment *)

Definition DEFAULT_KEY_ID : KeyId := lit "checkpoint-ed25519".

Definition KeyStore_from_env (B : Backend) (key_id_env seed_env : option bytes) : Ed25519KeyStore :=
  let key_id := default DEFAULT_KEY_ID key_id_env in
  match hex ← seed_env; decode_seed hex with
  | None => None
  | Some seed => KeyStore_from_seed B key_id seed
  end.

(** ** Errors *)

(** [{}] of an [i64] and of a [u64]. *)
Definition print_z (decimal : N → bytes) (z : Z) : bytes :=
  if (z <? 0)%Z then lit "-" ++ decimal (Z.to_N (- z)) else decimal (Z.to_N z).

Section api.
Context (uuid_string : LogId → bytes) (decimal : N → bytes).

Definition time_error_display (e : TimeError) : bytes :=
  let '(InconsistentTime created updated) := e in
  lit "inconsistent time: updated_at (" ++ print_z decimal updated
  ++ lit ") earlier than created_at (" ++ print_z decimal created ++ lit ")".

Definition domain_error_display (e : DomainError) : bytes :=
  match e with
  | Field msg => lit "domain field error: " ++ msg
  | Time e => time_error_display e
  end.

Definition audit_error_display (e : AuditError) : bytes :=
  match e with
  | LogNotFound id => lit "log not found: LogId(" ++ uuid_string id ++ lit ")"
  | LeafOutOfRange index size =>
      lit "leaf LeafIndex(" ++ decimal index ++ lit ") is out of range (tree size " ++ decimal size
      ++ lit ")"
  | SizeOutOfRange requested current =>
      lit "size " ++ decimal requested ++ lit " is out of range (current size " ++ decimal current
      ++ lit ")"
  | KeyNotFound key => lit "signing key not configured or unknown: " ++ key
  | Domain e => lit "domain error: " ++ domain_error_display e
  | Storage msg => lit "storage error: " ++ msg
  end.

Record ErrorBody := mkErrorBody { eb_error : bytes; eb_detail : bytes }.

(** [HttpError::into_response]. *)
Definition error_response (e : AuditError) : N * ErrorBody :=
  let '(status, code) := http_error e in (status, mkErrorBody code (audit_error_display e)).

(** ** Handlers *)

Definition Answer (A : Type) : Type := result (N * ErrorBody) (N * A).

(** [dispatcher.send(..).await?], then the status and the projection of the value. *)
Definition answer {A B} (status : N) (project : A → B) (op : Op A) (w : World) : Answer B * World :=
  let '(r, w') := op w in
  (match r with Ok a => Ok (status, project a) | Err e => Err (error_response e) end, w').

Record IssueCheckpointResponse := mkIssueCheckpointResponse {
  icr_size : N; icr_root : bytes; icr_at_ms : Z; icr_key_id : bytes; icr_algorithm : bytes;
  icr_signature : bytes;
}.

(** [{:?}] of the algorithm. *)
Definition algorithm_name (a : SignAlgo) : bytes :=
  match a with
  | Ed25519 => lit "Ed25519"
  | GostR3410_2012_256 => lit "GostR3410_2012_256"
  | GostR3410_2012_512 => lit "GostR3410_2012_512"
  end.

Context `{J : Jiff}.

Definition to_response (sth : SignedTreeHead) : IssueCheckpointResponse :=
  let signature := sth_signature sth in
  mkIssueCheckpointResponse (head_size (sth_head sth)) (to_hex (head_root (sth_head sth)))
    (as_millis (head_at (sth_head sth))) (sig_key_id signature) (algorithm_name (sig_algo signature))
    (hex_bytes (sig_bytes signature)).

Context (pg : Pg) (factory : Hasher) (keys : KeyStore).

Definition http_create (id : LogId) (now : Timestamp) : World → Answer LogId * World :=
  answer 201 (λ id, id) (dispatch_create pg factory id now).

Definition http_append (id : LogId) (record : bytes) : World → Answer N * World :=
  answer 201 (λ index, index) (dispatch_append pg factory id record).

Definition http_inclusion (id : LogId) (index : N) : World → Answer InclusionProofResponse * World :=
  answer 200 inclusion_response (dispatch_inclusion pg factory id index).

Definition http_consistency (id : LogId) (first : N) :
    World → Answer ConsistencyProofResponse * World :=
  answer 200 consistency_response (dispatch_consistency pg factory id first).

(** The API always issues: it passes no previous size. *)
Definition http_checkpoint (now : Timestamp) (id : LogId) (key_id : bytes) :
    World → Answer IssueCheckpointResponse * World :=
  answer 201 to_response (dispatch_checkpoint pg factory keys now id key_id None).
End api.

(** ** Hex comes back *)

Lemma hex_pair c :
  ∃ h l, to_digit_16 (hex_digit (N_of_byte c / 16)%N) = Some h
         ∧ to_digit_16 (hex_digit (N_of_byte c `mod` 16)%N) = Some l
         ∧ byte_of_N (N.lor (N.shiftl h 4) l) = c.
Proof.
  exists (N_of_byte c / 16)%N, (N_of_byte c `mod` 16)%N.
  destruct c as [[] [] [] [] [] [] [] []]; repeat split; reflexivity.
Qed.

Lemma decode_hex_bytes b : decode_pairs (hex_bytes b) = Some b.
Proof.
  induction b as [|c b IH]; [done|]. unfold hex_bytes in *. cbn [map concat app decode_pairs].
  destruct (hex_pair c) as (h & l & -> & -> & Hc). cbn [mbind option_bind]. rewrite IH.
  cbn [mbind option_bind]. by rewrite Hc.
Qed.

Lemma to_hex_bytes d : to_hex d = hex_bytes (digest_bytes d).
Proof. done. Qed.

(** ** What a client makes of a response

    Knowing the log's hash algorithm, a client decodes the hashes and puts the proof
    back together. *)

Definition client_digest (algo : HashAlgo) (hex : bytes) : option Digest :=
  mkDigest algo <$> decode_pairs hex.

Definition client_inclusion (algo : HashAlgo) (r : InclusionProofResponse) :
    option (InclusionProof * Digest * Digest) :=
  path ← mapM (client_digest algo) (ipr_path r);
  lf ← client_digest algo (ipr_leaf_hash r);
  rt ← client_digest algo (ipr_root r);
  Some (mkInclusionProof (ipr_leaf_index r) (ipr_tree_size r) path, lf, rt).

Definition client_consistency (algo : HashAlgo) (r : ConsistencyProofResponse) :
    option (ConsistencyProof * Digest * Digest) :=
  path ← mapM (client_digest algo) (cpr_path r);
  old ← client_digest algo (cpr_old_root r);
  new ← client_digest algo (cpr_new_root r);
  Some (mkConsistencyProof (cpr_first_size r) (cpr_second_size r) path, old, new).

Lemma client_digest_hex algo d : digest_algo d = algo → client_digest algo (to_hex d) = Some d.
Proof.
  intros <-. unfold client_digest. rewrite to_hex_bytes, decode_hex_bytes. by destruct d.
Qed.

Lemma client_path algo ds :
  Forall (λ d, digest_algo d = algo) ds → mapM (client_digest algo) (to_hex <$> ds) = Some ds.
Proof.
  induction 1 as [|d ds Hd _ IH]; [done|]. rewrite fmap_cons. cbn [mapM].
  by rewrite client_digest_hex, IH.
Qed.

(** ** The hashes of a proof carry the log's algorithm *)

Section tags.
Context (h : Hasher) (L : nat) `{!HasherOk h L}.
#[local] Set Default Proof Using "Type*".

Definition tagged (d : Digest) : Prop := digest_algo d = hasher_algo h.

Lemma root_tagged leaves : Forall tagged leaves → tagged (root h leaves).
Proof.
  unfold root, tagged. intros H. destruct leaves as [|d [|d' l]]; simpl; [apply hasher_tags| |apply hasher_tags].
  by inversion H.
Qed.

Lemma audit_path_tagged fuel m leaves : Forall tagged leaves → Forall tagged (audit_path_fuel h fuel m leaves).
Proof.
  revert m leaves. induction fuel as [|fuel IH]; intros m leaves H; simpl; [done|].
  repeat case_match; [done|..]; apply Forall_app; split;
    try (apply IH); try (apply Forall_singleton, root_tagged); (by apply Forall_take) || (by apply Forall_drop).
Qed.

Lemma subproof_tagged fuel m leaves b :
  Forall tagged leaves → Forall tagged (subproof_fuel h fuel m leaves b).
Proof.
  revert m leaves b. induction fuel as [|fuel IH]; intros m leaves b H; simpl; [done|].
  repeat case_match; [done|by apply Forall_singleton, root_tagged|..]; apply Forall_app; split;
    try (apply IH); try (apply Forall_singleton, root_tagged); (by apply Forall_take) || (by apply Forall_drop).
Qed.

Lemma stored_tagged hashes : Forall tagged (mkDigest (hasher_algo h) <$> hashes).
Proof. apply Forall_fmap, Forall_true. done. Qed.

Lemma client_reads_inclusion leaves index v lf rt :
  Forall tagged leaves → inclusion h leaves index = Some (ipv_proof v) →
  ipv_leaf_hash v = lf → ipv_root v = rt → tagged lf → tagged rt →
  client_inclusion (hasher_algo h) (inclusion_response v) = Some (ipv_proof v, lf, rt).
Proof.
  destruct v as [proof lf' rt']. intros Hl Hp <- <- Hlf Hrt. unfold inclusion in Hp.
  case_match; [done|]. injection Hp as <-. unfold client_inclusion, inclusion_response. simpl.
  rewrite client_path by (unfold audit_path; by apply audit_path_tagged). simpl.
  by rewrite !client_digest_hex.
Qed.

Lemma client_reads_consistency leaves first v old new :
  Forall tagged leaves → consistency h leaves first = Some (cpv_proof v) →
  cpv_old_root v = old → cpv_new_root v = new → tagged old → tagged new →
  client_consistency (hasher_algo h) (consistency_response v) = Some (cpv_proof v, old, new).
Proof.
  destruct v as [proof old' new']. intros Hl Hp <- <- Ho Hn. unfold consistency in Hp.
  case_match; [done|]. injection Hp as <-. unfold client_consistency, consistency_response. simpl.
  rewrite client_path by (case_match; [done|]; unfold subproof; by apply subproof_tagged). simpl.
  by rewrite !client_digest_hex.
Qed.
End tags.

(** The answer to a database failure. *)
Definition unavailable (e : N * ErrorBody) : Prop := e.1 = 500%N ∧ eb_error e.2 = lit "storage_error".

Lemma db_error_response uuid_string decimal pg e :
  db_error pg e → unavailable (error_response uuid_string decimal e).
Proof. by intros (n & msg & _ & ->). Qed.

(** C17: what the API serves can be checked by its clients. For a stored log, a request
    for an inclusion proof is answered 200 with hashes that decode, under the log's hash
    algorithm, to the leaf at that index, the root of all leaves and a proof the
    verifier accepts for them; 400 exactly when there is no such leaf; 500 when the
    database fails. The same for consistency proofs, with the roots of the first
    leaves and of all of them. Neither writes anything. *)
Theorem http_proofs_verify uuid_string decimal pg `{J : Jiff} factory L `{!HasherOk factory L} w id row
    hashes index first :
  holds_log (w_committed w) id row hashes → is_slice hashes →
  let algo := hasher_algo factory in
  let leaves := mkDigest algo <$> hashes in
  (let '(r, w') := http_inclusion uuid_string decimal pg factory id index w in
   w_committed w' = w_committed w ∧
   match r with
   | Ok (status, body) => status = 200%N ∧ ∃ proof lf,
       client_inclusion algo body = Some (proof, lf, root factory leaves)
       ∧ leaf_index proof = index ∧ leaves !! N.to_nat index = Some lf
       ∧ verify_inclusion factory proof lf (root factory leaves) = Some true
   | Err e => unavailable e
       ∨ (e.1 = 400%N ∧ eb_error e.2 = lit "out_of_range" ∧ (len hashes ≤ index)%N)
   end)
  ∧ (let '(r, w') := http_consistency uuid_string decimal pg factory id first w in
     w_committed w' = w_committed w ∧
     match r with
     | Ok (status, body) => status = 200%N ∧ ∃ proof,
         let old := root factory (take (N.to_nat first) leaves) in
         client_consistency algo body = Some (proof, old, root factory leaves)
         ∧ first_size proof = first ∧ second_size proof = len hashes
         ∧ verify_consistency factory proof old (root factory leaves) = Some true
     | Err e => unavailable e
         ∨ (e.1 = 400%N ∧ eb_error e.2 = lit "out_of_range" ∧ ¬ (1 ≤ first ≤ len hashes)%N)
     end).
Proof.
  intros H Hs algo leaves. assert (Forall (tagged factory) leaves) as Ht by apply (stored_tagged factory L).
  split.
  - pose proof (inclusion_query_verifies pg factory w id row hashes index H Hs) as Hq.
    unfold http_inclusion, answer. destruct (dispatch_inclusion pg factory id index w) as [[v|e] w'].
    + destruct Hq as (Hw & Hl & Hr & Hp & Hv). split; [done|]. split; [done|].
      exists (ipv_proof v), (ipv_leaf_hash v). fold algo leaves in Hl, Hr, Hp. rewrite <- Hr. split_and!.
      * eapply (client_reads_inclusion factory L leaves); eauto.
        -- by eapply (Forall_lookup_1 _ _ _ _ Ht).
        -- rewrite Hr. by apply (root_tagged factory L).
      * unfold inclusion in Hp. case_match; [done|]. by injection Hp as <-.
      * done.
      * done.
    + destruct Hq as [Hw [He|[-> Hi]]]; (split; [done|]); [left; by eapply db_error_response|by right].
  - pose proof (consistency_query_verifies pg factory w id row hashes first H Hs) as Hq.
    unfold http_consistency, answer. destruct (dispatch_consistency pg factory id first w) as [[v|e] w'].
    + destruct Hq as (Hw & Ho & Hn & Hp & Hv). split; [done|]. split; [done|]. exists (cpv_proof v).
      fold algo leaves in Ho, Hn, Hp. cbv zeta. rewrite <- Hn, <- Ho. split_and!.
      * eapply (client_reads_consistency factory L leaves); eauto.
        -- rewrite Ho. apply (root_tagged factory L). by apply Forall_take.
        -- rewrite Hn. by apply (root_tagged factory L).
      * unfold consistency in Hp. case_match; [done|]. by injection Hp as <-.
      * unfold consistency in Hp. case_match; [done|]. injection Hp as <-. apply len_fmap.
      * done.
    + destruct Hq as [Hw [He|[-> Hi]]]; (split; [done|]); [left; by eapply db_error_response|by right].
Qed.

(** ** Checkpoints *)

Lemma decode_pairs_length hex b : decode_pairs hex = Some b → length b = length hex / 2.
Proof.
  revert b. induction hex as [hex IH] using (induction_ltof1 _ length).
  destruct hex as [|x [|y hex]]; intros b; cbn [decode_pairs]; [by intros [= <-]..|].
  destruct (to_digit_16 x), (to_digit_16 y), (decode_pairs hex) as [t|] eqn:E; try done.
  intros [= <-]. cbn [length]. rewrite (IH hex) by (done || (unfold ltof; simpl; lia)).
  change (S (S (length hex))) with (1 * 2 + length hex). by rewrite Nat.div_add_l.
Qed.

Lemma decode_seed_length hex seed : decode_seed hex = Some seed → length seed = 32.
Proof.
  unfold decode_seed, SEED_HEX_LEN. destruct (N.eqb_spec (len (trim hex)) 64) as [E|]; [|done].
  intros ->%decode_pairs_length. unfold len in E.
  replace (length (trim hex)) with 64 by lia. reflexivity.
Qed.

Lemma from_env_signs B `{!BackendLaws B} key_id_env hex seed :
  decode_seed hex = Some seed →
  let key := default DEFAULT_KEY_ID key_id_env in
  ks_signer (ed25519_key_store (KeyStore_from_env B key_id_env (Some hex))) key
  = Ok (Ed25519Signer B seed key).
Proof.
  intros Hs key. destruct (dalek_public_decodes seed (decode_seed_length _ _ Hs)) as (k & Hk & _).
  unfold KeyStore_from_env. simpl. rewrite Hs. unfold KeyStore_from_seed, Ed25519_from_public_bytes.
  rewrite Hk. simpl. by rewrite bool_decide_eq_true_2.
Qed.


(** A response does not say which hash algorithm its hashes are of: heads that differ in
    it have one response, yet they are signed as different bytes. *)
Theorem response_forgets_algorithm `{J : Jiff} size hash at_ signature :
  let sth a := mkSignedTreeHead (mkTreeHead size (mkDigest a hash) at_) signature in
  to_response (sth Sha256) = to_response (sth Sha3_256)
  ∧ to_canonical_bytes (sth_head (sth Sha256)) ≠ to_canonical_bytes (sth_head (sth Sha3_256)).
Proof.
  split; [done|]. unfold to_canonical_bytes. cbn [sth_head head_size head_root digest_algo].
  intros H%app_inv_head. cbn in H. discriminate H.
Qed.

(** ** Witnesses *)

#[local] Existing Instances demo_jiff demo_jiff_laws.

Definition demo_uuid (_ : LogId) : bytes := lit "log".
Definition demo_decimal (_ : N) : bytes := lit "n".
Definition demo_seed_hex : bytes := hex_bytes (ToyBackend.zeros 32).

Lemma http_proofs_verify_witness :
  let leaves := mkDigest Sha256 <$> demo_hashes in
  let '(r, w') := http_inclusion demo_uuid demo_decimal demo_pg demo_hasher 7%N 1%N demo_world in
  w_committed w' = demo_tables ∧
  match r with
  | Ok (status, body) => status = 200%N ∧ ∃ proof lf,
      client_inclusion Sha256 body = Some (proof, lf, root demo_hasher leaves)
      ∧ leaf_index proof = 1%N ∧ leaves !! 1 = Some lf
      ∧ verify_inclusion demo_hasher proof lf (root demo_hasher leaves) = Some true
  | Err e => unavailable e ∨ (e.1 = 400%N ∧ eb_error e.2 = lit "out_of_range" ∧ (2 ≤ 1)%N)
  end.
Proof.
  pose proof (http_proofs_verify demo_uuid demo_decimal demo_pg demo_hasher (digest_size Sha256)
                demo_world 7%N demo_row demo_hashes 1%N 1%N) as H.
  apply H; [apply demo_held|vm_compute; discriminate].
Defined.

