(* ===== verification/Redis.v ===== *)
(** * Redis: the replay ledger shared by replicas
    (crates/agate-proxy/src/infrastructure/policy/redis_session_memory.rs)

    Each proxy process keeps a lazily made connection and a cooldown; the ledger itself
    is in one Redis server.  The server is a parameter: its commands may fail, time may
    pass and keys may expire at any moment, and its documented behaviour is a class. *)
From stdpp Require Import options.
From S2P Require Import Prelude Run Ports.

(** ** The server *)

(** [redis::Client] and [ConnectionManager]; [clock] is [Instant::now()] in
    milliseconds. *)
Class RedisServer (S : Type) := {
  clock : S → N;
  connect : S → result bytes unit * S;
  hget : bytes → bytes → S → result bytes (option bytes) * S;
  hset_nx : bytes → bytes → bytes → S → result bytes unit * S;
  expire : bytes → Z → S → result bytes unit * S;
}.

(** ** One process *)

Definition CONNECT_COOLDOWN : N := 5000.

Record RedisSessionMemory := mkRedisSessionMemory {
  rm_connection : bool;
  rm_cooldown_until : option N;
  rm_ttl_secs : Z;
}.

Definition i64_max : Z := 2 ^ 63 - 1.

(** [i64::try_from(ttl.as_secs().max(1)).unwrap_or(i64::MAX)]. *)
Definition RedisSessionMemory_new (ttl_secs : N) : RedisSessionMemory :=
  let secs := Z.of_N (N.max ttl_secs 1) in
  mkRedisSessionMemory false None (if (secs <=? i64_max)%Z then secs else i64_max).

Section memory.
Context (uuid_string : Uuid → bytes) {S : Type} `{!RedisServer S}.

Definition redis_key (session : SessionId) : bytes :=
  lit "agate:session:" ++ uuid_string (session_uuid session).

(** What a call to [connection] finds before it may have to connect. *)
Inductive Check := Connected | CoolingDown | MustConnect.

Definition connection_check (m : RedisSessionMemory) (now : N) : Check :=
  if rm_connection m then Connected
  else
    match rm_cooldown_until m with
    | Some deadline => if (now <? deadline)%N then CoolingDown else MustConnect
    | None => MustConnect
    end.

(** [get_or_try_init] and what follows it: a cell filled meanwhile is used. *)
Definition connection_init (m : RedisSessionMemory) (s : S) : bool * (RedisSessionMemory * S) :=
  if rm_connection m then (true, (m, s))
  else
    match connect s with
    | (Ok _, s') => (true, (mkRedisSessionMemory true (rm_cooldown_until m) (rm_ttl_secs m), s'))
    | (Err _, s') =>
        (false, (mkRedisSessionMemory false (Some (clock s' + CONNECT_COOLDOWN)%N) (rm_ttl_secs m), s'))
    end.

Definition connection (m : RedisSessionMemory) (s : S) : bool * (RedisSessionMemory * S) :=
  match connection_check m (clock s) with
  | Connected => (true, (m, s))
  | CoolingDown => (false, (m, s))
  | MustConnect => connection_init m s
  end.

Definition redis_recall (session : SessionId) (tool : bytes) (m : RedisSessionMemory) (s : S) :
    option bytes * (RedisSessionMemory * S) :=
  let '(reachable, (m, s)) := connection m s in
  if negb reachable then (None, (m, s))
  else
    let '(answer, s) := hget (redis_key session) tool s in
    match answer with
    | Ok (Some reason) =>
        let '(_, s) := expire (redis_key session) (rm_ttl_secs m) s in (Some reason, (m, s))
    | _ => (None, (m, s))
    end.

Definition redis_remember (session : SessionId) (tool reason : bytes) (m : RedisSessionMemory) (s : S) :
    RedisSessionMemory * S :=
  let '(reachable, (m, s)) := connection m s in
  if negb reachable then (m, s)
  else
    match hset_nx (redis_key session) tool reason s with
    | (Err _, s) => (m, s)
    | (Ok _, s) => let '(_, s) := expire (redis_key session) (rm_ttl_secs m) s in (m, s)
    end.
End memory.

(** ** The documented behaviour of the server *)

Section laws.
Context {S : Type} `{!RedisServer S}.

(** Time passes: a key keeps its hash or is gone. *)
Definition later (view : S → bytes → gmap bytes bytes) (s s' : S) : Prop :=
  ∀ k, view s' k = view s k ∨ view s' k = ∅.

Definition set_first (f v : bytes) (h : gmap bytes bytes) : gmap bytes bytes :=
  match h !! f with Some _ => h | None => <[f := v]> h end.
End laws.

(** [view] is what the server holds under a key now.  A command that failed may or may
    not have been carried out. *)
Class RedisLaws (S : Type) `{!RedisServer S} := {
  view : S → bytes → gmap bytes bytes;
  connect_later s : later view s (connect s).2;
  hget_later k f s : later view s (hget k f s).2;
  hget_reads k f s r s' : hget k f s = (Ok (Some r), s') → view s k !! f = Some r;
  hget_misses k f s s' : hget k f s = (Ok None, s') → view s k !! f = None ∨ view s' k = ∅;
  hset_nx_effect k f v s :
    let '(r, s') := hset_nx k f v s in
    (∀ k', k' ≠ k → view s' k' = view s k' ∨ view s' k' = ∅)
    ∧ (view s' k = set_first f v (view s k) ∨ view s' k = {[f := v]}
       ∨ (is_ok r = false ∧ (view s' k = view s k ∨ view s' k = ∅)));
  expire_later k ttl s : (0 < ttl)%Z → later view s (expire k ttl s).2;
  clock_mono_connect s : (clock s ≤ clock (connect s).2)%N;
}.

(** ** The ledger it implements *)

Definition Ledger : Type := SessionId → bytes → option bytes.

(** Whole sessions may be forgotten at any time, nothing else changes. *)
Definition forgets (a a' : Ledger) : Prop :=
  ∀ session, (∀ tool, a' session tool = a session tool) ∨ (∀ tool, a' session tool = None).

(** A denial is noted; the first reason stays. *)
Definition notes (session : SessionId) (tool reason : bytes) (a a' : Ledger) : Prop :=
  (∀ s t, (s, t) ≠ (session, tool) → a' s t = a s t)
  ∧ a' session tool = Some (default reason (a session tool)).

Section refinement.
Context (uuid_string : Uuid → bytes) `{!Inj (=) (=) uuid_string}.
Context {S : Type} `{!RedisServer S, !RedisLaws S}.
#[local] Set Default Proof Using "Type*".

Definition ledger (s : S) : Ledger := λ session tool, view s (redis_key uuid_string session) !! tool.

Lemma redis_key_inj : Inj (=) (=) (redis_key uuid_string).
Proof.
  intros [u] [u'] H%app_inv_head. cbn in H. by apply (inj uuid_string) in H as ->.
Qed.

Lemma later_forgets s s' : later view s s' → forgets (ledger s) (ledger s').
Proof.
  intros H session. unfold ledger. destruct (H (redis_key uuid_string session)) as [->| ->]; [by left|right].
  intros tool. apply lookup_empty.
Qed.

Lemma forgets_refl a : forgets a a.
Proof. intros session. by left. Qed.

Lemma forgets_trans a b c : forgets a b → forgets b c → forgets a c.
Proof.
  intros Hab Hbc session. destruct (Hbc session) as [Hc|Hc]; [|by right].
  destruct (Hab session) as [Hb|Hb]; [left|right]; intros tool; by rewrite Hc, Hb.
Qed.

Lemma forgets_some a a' session tool reason :
  forgets a a' → a' session tool = Some reason → a session tool = Some reason.
Proof. intros H. destruct (H session) as [E|E]; rewrite E; done. Qed.

Lemma connection_later m s : later view s (connection m s).2.2.
Proof.
  assert (later view s s) as Hr by (intros k; by left). unfold connection, connection_init.
  destruct (connection_check m (clock s)), (rm_connection m); simpl; try exact Hr;
    pose proof (connect_later s) as H; by destruct (connect s) as [[]].
Qed.

Lemma connection_ttl m s : rm_ttl_secs (connection m s).2.1 = rm_ttl_secs m.
Proof.
  unfold connection, connection_init.
  destruct (connection_check m (clock s)), (rm_connection m); simpl; try done;
    by destruct (connect s) as [[]].
Qed.

Lemma hset_nx_notes session tool reason s s' r :
  hset_nx (redis_key uuid_string session) tool reason s = (r, s') →
  forgets (ledger s) (ledger s')
  ∨ ∃ a b, forgets (ledger s) a ∧ notes session tool reason a b ∧ forgets b (ledger s').
Proof.
  intros E. pose proof (hset_nx_effect (redis_key uuid_string session) tool reason s) as H.
  rewrite E in H. destruct H as [Ho Hk].
  assert (∀ s2, s2 ≠ session → (∀ t, ledger s' s2 t = ledger s s2 t) ∨ (∀ t, ledger s' s2 t = None)) as Hrest.
  { intros s2 Hs. unfold ledger. destruct (Ho (redis_key uuid_string s2)) as [->| ->]; [|by left|right].
    - by intros ?%redis_key_inj.
    - intros t. apply lookup_empty. }
  destruct Hk as [Hk|[Hk|[_ Hk]]].
  - right. exists (ledger s), (λ s2 t, if decide (s2 = session) then set_first tool reason
      (view s (redis_key uuid_string session)) !! t else ledger s s2 t).
    split_and!; [apply forgets_refl|split|].
    + intros s2 t Hne. case_decide as Es; [|done]. subst s2. unfold set_first, ledger.
      case_match; [done|]. rewrite lookup_insert_ne; [done|]. congruence.
    + rewrite decide_True by done. unfold set_first, ledger.
      destruct (view s _ !! tool) eqn:El; [by rewrite El|]. by rewrite lookup_insert_eq.
    + intros s2. case_decide as Es; [subst; left; intros t; unfold ledger; by rewrite Hk|by apply Hrest].
  - right. exists (λ s2 t, if decide (s2 = session) then None else ledger s s2 t),
      (λ s2 t, if decide (s2 = session) then ({[tool := reason]} : gmap bytes bytes) !! t else ledger s s2 t).
    split_and!; [|split|].
    + intros s2. case_decide; [by right|by left].
    + intros s2 t Hne. case_decide as Es; [|done]. subst s2. rewrite lookup_singleton_ne; [done|].
      congruence.
    + rewrite !decide_True by done. simpl. apply lookup_singleton_eq.
    + intros s2. case_decide as Es; [subst; left; intros t; unfold ledger; by rewrite Hk|by apply Hrest].
  - left. intros s2. destruct (decide (s2 = session)) as [->|Hs]; [|by apply Hrest].
    unfold ledger. destruct Hk as [->| ->]; [by left|right]. intros t. apply lookup_empty.
Qed.
End refinement.


(** ** The cooldown *)

Section cooldown.
Context {S : Type} `{!RedisServer S, !RedisLaws S}.

(** A process calling [connection] one call at a time; the log has the start and the end
    of each attempt to connect, the latest first. *)
Inductive calls : RedisSessionMemory → S → list (N * N) → Prop :=
| calls_new ttl s : calls (RedisSessionMemory_new ttl) s []
| calls_wait m s s' log : calls m s log → (clock s ≤ clock s')%N → calls m s' log
| calls_call m s log m' s' ok :
    calls m s log → connection m s = (ok, (m', s')) →
    calls m' s' (match connection_check m (clock s) with
                 | MustConnect => (clock s, clock s') :: log
                 | _ => log
                 end).

Fixpoint spaced (log : list (N * N)) : Prop :=
  match log with
  | attempt :: ((_, ended) :: _) as rest => (ended + CONNECT_COOLDOWN ≤ attempt.1)%N ∧ spaced rest
  | _ => True
  end.

(** The deadline is that of the latest attempt. *)
Definition cooldown_inv (m : RedisSessionMemory) (log : list (N * N)) : Prop :=
  spaced log
  ∧ (rm_connection m = false →
     rm_cooldown_until m = (λ a, (a.2 + CONNECT_COOLDOWN)%N) <$> head log).

Lemma calls_inv m s log : calls m s log → cooldown_inv m log.
Proof.
  induction 1 as [ttl s|m s s' log _ IH _|m s log m' s' ok _ [IHs IHc] E]; [by split|done|].
  unfold connection, connection_check in *. destruct (rm_connection m) eqn:Em.
  { injection E as <- <- <-. split; [done|]. by rewrite Em. }
  specialize (IHc eq_refl).
  assert (connection_init m s = (ok, (m', s')) → cooldown_inv m' ((clock s, clock s') :: log)
          ∨ (∃ a rest, log = a :: rest ∧ (clock s < a.2 + CONNECT_COOLDOWN)%N)) as Hinit.
  { intros Ei. destruct log as [|[b e] rest]; [left|destruct (N.ltb_spec (clock s) (e + CONNECT_COOLDOWN)%N);
      [right; eauto|left]]; unfold connection_init in Ei; rewrite Em in Ei;
      destruct (connect s) as [[u|err] s2]; injection Ei as <- <- <-; split; simpl; done. }
  rewrite IHc in *. destruct log as [|[b e] rest]; simpl in *.
  - destruct (Hinit E) as [?|(? & ? & ? & _)]; done.
  - destruct (N.ltb_spec (clock s) (e + CONNECT_COOLDOWN)%N) as [Hlt|Hge].
    + injection E as <- <- <-. by split.
    + destruct (Hinit E) as [?|(? & ? & [= <- <-] & Hlt)]; [done|]. simpl in *. lia.
Qed.
End cooldown.

(** A server that is down costs a process making one call at a time at most one
    attempt to connect per cooldown: from the end of one to the start of the next at
    least five seconds pass. *)
Theorem connect_attempts_spaced {S : Type} `{!RedisServer S} m (s : S) log :
  calls m s log → spaced log.
Proof. by intros [H _]%calls_inv. Qed.

(** Calls that are in flight together are not held back: of [n] callers that found no
    connection and no cooldown, each that gets its turn to fill the cell after a failure
    connects again, one after the other. *)
Theorem waiting_callers_all_connect {S : Type} `{!RedisServer S} (m : RedisSessionMemory) (s : S) n :
  rm_connection m = false → (∀ s', is_ok (connect s').1 = false) →
  let '(m', s') := Nat.iter n (λ '(m, s), (connection_init m s).2) (m, s) in
  s' = Nat.iter n (λ s, (connect s).2) s ∧ rm_connection m' = false.
Proof.
  intros Hm Hdown. induction n as [|n IH]; [done|]. simpl.
  destruct (Nat.iter n _ (m, s)) as [m1 s1]. destruct IH as [-> Hm1].
  unfold connection_init. rewrite Hm1. set (s1 := Nat.iter n _ s).
  pose proof (Hdown s1) as Hd. by destruct (connect s1) as [[]].
Qed.

(** ** Witnesses: a server that holds one table and answers *)

Module ToyServer.
Notation server := (gmap bytes (gmap bytes bytes)).

#[export] Instance redis : RedisServer server := {|
  clock _ := 0%N;
  connect s := (Ok tt, s);
  hget k f s := (Ok (default ∅ (s !! k) !! f), s);
  hset_nx k f v s := (Ok tt, <[k := set_first f v (default ∅ (s !! k))]> s);
  expire _ _ s := (Ok tt, s);
|}.

#[export] Instance laws : RedisLaws server.
Proof.
  refine {| view s k := default ∅ (s !! k) |}; simpl.
  - intros s k. by left.
  - intros k f s k'. by left.
  - by intros k f s r s' [= -> <-].
  - intros k f s s' [= -> <-]. by left.
  - intros k f v s. split; [|left; by rewrite lookup_insert_eq].
    intros k' Hk. left. by rewrite lookup_insert_ne.
  - intros k ttl s _ k'. by left.
  - done.
Defined.
End ToyServer.
#[local] Existing Instances ToyServer.redis ToyServer.laws.

Definition demo_session : SessionId := mkSessionId 7%N.
Definition demo_key (u : Uuid) : bytes := replicate (N.to_nat u) (byte_of_N 48).

#[local] Instance demo_key_inj : Inj (=) (=) demo_key.
Proof. intros u v H%(f_equal length). unfold demo_key in H. rewrite !length_replicate in H. lia. Qed.


Lemma connect_attempts_spaced_witness :
  calls (S := (gmap bytes (gmap bytes bytes))) (mkRedisSessionMemory true None 3600) ∅ [(0, 0)%N]
  ∧ spaced [(0, 0)%N].
Proof.
  assert (calls (S := (gmap bytes (gmap bytes bytes))) (mkRedisSessionMemory true None 3600) ∅ [(0, 0)%N]) as H.
  { exact (calls_call (RedisSessionMemory_new 3600) ∅ [] _ _ true (calls_new 3600 ∅) eq_refl). }
  split; [exact H|exact (connect_attempts_spaced _ _ _ H)].
Defined.
