(* ===== verification/Observability.v ===== *)
(** * Observability: logging, tracing and metrics as configured
    (crates/agate-server/src: setup/configs/observability.rs, setup/observability)

    The [observability] section and what is installed from it before the server is built.
    The filter syntax, the OTLP exporter, address parsing and the metrics listener belong
    to their crates and are parameters. *)
From stdpp Require Import options.
From S2P Require Import Prelude.

(** ** The section *)

Record TracingConfig := mkTracingConfig {
  tr_enabled : bool;
  tr_endpoint : bytes;
  tr_service_name : bytes;
}.

Definition TracingConfig_default : TracingConfig :=
  mkTracingConfig false (lit "http://localhost:4317") (lit "agate-server").

Inductive LogFormat := Format_Pretty | Format_Json.

Record LoggingConfig := mkLoggingConfig {
  lo_enabled : bool;
  lo_format : LogFormat;
  lo_level : bytes;
}.

Definition LoggingConfig_default : LoggingConfig := mkLoggingConfig true Format_Pretty (lit "info").

Inductive MetricsExporter := Exporter_Prometheus | Exporter_None.

Record MetricsConfig := mkMetricsConfig {
  me_enabled : bool;
  me_exporter : MetricsExporter;
  me_bind : bytes;
}.

Definition MetricsConfig_default : MetricsConfig :=
  mkMetricsConfig false Exporter_Prometheus (lit "0.0.0.0:9090").

Record ObservabilityConfig := mkObservabilityConfig {
  ob_logging : LoggingConfig;
  ob_metrics : MetricsConfig;
  ob_tracing : TracingConfig;
}.

Definition ObservabilityConfig_default : ObservabilityConfig :=
  mkObservabilityConfig LoggingConfig_default MetricsConfig_default TracingConfig_default.

#[export] Instance log_format_eq_dec : EqDecision LogFormat.
Proof. solve_decision. Defined.
#[export] Instance exporter_eq_dec : EqDecision MetricsExporter.
Proof. solve_decision. Defined.

(** ** Tracing and logging *)

Section logging.
Context {Filter Exporter : Type}.
(** [EnvFilter::try_from_default_env], [EnvFilter::try_new] and [EnvFilter::new]. *)
Context (filter_from_env : option Filter) (filter_try_new : bytes → option Filter) (filter_new : bytes → Filter).
(** [SpanExporter::builder().with_tonic().with_endpoint(..).build()]. *)
Context (span_exporter : bytes → result bytes Exporter).

Record TracerProvider := mkTracerProvider { tp_exporter : Exporter; tp_service_name : bytes }.

(** An exporter that cannot be built leaves the server without trace export. *)
Definition build_tracer_provider (config : TracingConfig) : option TracerProvider :=
  if negb (tr_enabled config) then None
  else match span_exporter (tr_endpoint config) with
       | Ok exporter => Some (mkTracerProvider exporter (tr_service_name config))
       | Err _ => None
       end.

(** The global subscriber: its filter, its output and its OTLP layer. *)
Record Subscriber := mkSubscriber {
  sub_filter : Filter;
  sub_format : LogFormat;
  sub_otel : option TracerProvider;
}.

(** [try_init]: the first subscriber installed stays. *)
Definition try_init (s : Subscriber) (installed : option Subscriber) : option Subscriber :=
  match installed with Some s' => Some s' | None => Some s end.

Definition init_logging (logging : LoggingConfig) (tracing_config : TracingConfig)
    (installed : option Subscriber) : option TracerProvider * option Subscriber :=
  if negb (lo_enabled logging) then (None, installed)
  else
    let filter := match filter_from_env with
                  | Some f => f
                  | None => default (filter_new (lit "info")) (filter_try_new (lo_level logging))
                  end in
    let provider := build_tracer_provider tracing_config in
    (provider, try_init (mkSubscriber filter (lo_format logging) provider) installed).
End logging.

(** ** Metrics *)

Section metrics.
Context (parse_addr : bytes → bool).
(** Installing the recorder and its listener on an address. *)
Context (install : bytes → result bytes unit).

(** The panics of [endpoint] and [init_metrics]. *)
Inductive MetricsAbort := Abort_MetricsBind (bind : bytes) | Abort_MetricsInstall (error : bytes).

Definition endpoint (config : MetricsConfig) : result MetricsAbort (option bytes) :=
  if negb (me_enabled config) || bool_decide (me_exporter config = Exporter_None) then Ok None
  else if parse_addr (me_bind config) then Ok (Some (me_bind config))
  else Err (Abort_MetricsBind (me_bind config)).

Definition init_metrics (config : MetricsConfig) : result MetricsAbort bool :=
  addr ← endpoint config;
  match addr with
  | None => Ok false
  | Some addr => _ ← map_err Abort_MetricsInstall (install addr); Ok true
  end.

(** Metrics that are off, either way, cannot fail and listen nowhere; metrics that are on
    fail exactly on an address that does not parse or cannot be listened on. *)
Lemma init_metrics_spec config :
  let on := me_enabled config && negb (bool_decide (me_exporter config = Exporter_None)) in
  match init_metrics config with
  | Ok installed => installed = on
                    ∧ (on = true → parse_addr (me_bind config) = true ∧ install (me_bind config) = Ok tt)
  | Err (Abort_MetricsBind bind) => on = true ∧ bind = me_bind config ∧ parse_addr bind = false
  | Err (Abort_MetricsInstall e) =>
      on = true ∧ parse_addr (me_bind config) = true ∧ install (me_bind config) = Err e
  end.
Proof.
  unfold init_metrics, endpoint. destruct (me_enabled config); simpl; [|done].
  case_bool_decide; simpl; [done|]. destruct (parse_addr (me_bind config)) eqn:E; simpl; [|done].
  by destruct (install (me_bind config)) as [[]|].
Qed.
End metrics.

(** Logging never stops the server: whatever the filter, the exporter or a subscriber
    installed before make of it, start-up goes on, and spans are exported exactly when
    both are enabled and the exporter can be built. *)
Lemma init_logging_spec {Filter Exporter} env try_new new span_exporter logging tracing installed :
  let '(provider, subscriber) :=
    init_logging (Filter := Filter) (Exporter := Exporter) env try_new new span_exporter logging tracing installed in
  (is_Some provider ↔ lo_enabled logging = true ∧ tr_enabled tracing = true
                      ∧ is_ok (span_exporter (tr_endpoint tracing)) = true)
  ∧ (is_Some installed → subscriber = installed)
  ∧ (installed = None → lo_enabled logging = false ↔ subscriber = None).
Proof.
  unfold init_logging, build_tracer_provider. destruct (lo_enabled logging); simpl.
  - split_and!; [|by intros [s ->]|by intros ->]. destruct (tr_enabled tracing); simpl;
      [|split; [by intros [? ?]|naive_solver]].
    destruct (span_exporter _); simpl; [split; [done|by eexists]|split; [by intros [? ?]|naive_solver]].
  - split_and!; [split; [by intros [? ?]|naive_solver]|done|done].
Qed.
