(* ===== verification/Config.v ===== *)
(** * Config: the configuration and what it is turned into
    (crates/agate-server/src/setup/configs, crates/agate-proxy/src/setup/configs)

    The sections with their defaults and checks, and the mapping onto the settings of
    the proxy, the policy, the outbox and the checkpoint scheduler.  Loader
    reads them from the file and the environment; the Cargo features are parameters. *)
From stdpp Require Import options.
From S2P Require Import Prelude Crypto Text Json Run Ssrf AgUi Ports Inspector Stream Policy.
From S2P Require Import Engines AuditBridge Http Observability.

(** ** Errors *)

Inductive ConfigError :=
| Required (key hint : bytes)
| MustBePositive (key : bytes)
| Requires (key requires : bytes)
| FeatureMissing (backend feature : bytes).

Definition quoted (s : bytes) : bytes := [byte_of_N 34] ++ s ++ [byte_of_N 34].

Definition config_error_display (e : ConfigError) : bytes :=
  match e with
  | Required key [] => key ++ lit " is required"
  | Required key hint => key ++ lit " is required " ++ hint
  | MustBePositive key => key ++ lit " must be greater than 0"
  | Requires key requires => key ++ lit " requires " ++ requires
  | FeatureMissing backend feature =>
      lit "policy.backend = " ++ quoted backend ++ lit " requires building agate-server with the `"
      ++ feature ++ lit "` feature"
  end.

(** A check that fails with an error. *)
Definition ensure (ok : bool) (e : ConfigError) : result ConfigError unit :=
  if ok then Ok tt else Err e.

Definition positive (n : N) (key : bytes) : result ConfigError unit :=
  ensure (negb (n =? 0)%N) (MustBePositive key).

(** [is_none_or(|s| s.trim().is_empty())]. *)
Definition absent_or_blank (s : option bytes) : bool :=
  match s with Some s => is_blank s | None => true end.

(** ** [proxy] *)

Record ProxySection := mkProxySection {
  ps_agent_endpoint : bytes;
  ps_bind : bytes;
  ps_connect_timeout_secs : N;
  ps_read_timeout_secs : N;
  ps_max_body_bytes : N;
  ps_api_key : option bytes;
  ps_api_keys : list bytes;
  ps_max_concurrent_requests : N;
  ps_max_response_events : N;
  ps_max_response_bytes : N;
  ps_max_frame_bytes : N;
  ps_rate_limit_per_second : N;
  ps_rate_limit_burst : N;
}.

Definition ProxySection_default : ProxySection :=
  mkProxySection [] (lit "0.0.0.0:8080") 5 60 1048576 None [] 256 100000 67108864 1048576 0 0.

Definition ProxySection_validate (p : ProxySection) : result ConfigError unit :=
  _ ← ensure (negb (is_blank (ps_agent_endpoint p)))
        (Required (lit "proxy.agent_endpoint")
           (lit "(set [proxy].agent_endpoint or AGATE__PROXY__AGENT_ENDPOINT)"));
  _ ← positive (ps_max_body_bytes p) (lit "proxy.max_body_bytes");
  _ ← positive (ps_connect_timeout_secs p) (lit "proxy.connect_timeout_secs");
  _ ← positive (ps_read_timeout_secs p) (lit "proxy.read_timeout_secs");
  _ ← positive (ps_max_concurrent_requests p) (lit "proxy.max_concurrent_requests");
  _ ← positive (ps_max_frame_bytes p) (lit "proxy.max_frame_bytes");
  ensure (negb ((ps_rate_limit_per_second p =? 0)%N && negb (ps_rate_limit_burst p =? 0)%N))
    (Requires (lit "proxy.rate_limit_burst") (lit "proxy.rate_limit_per_second > 0")).

(** ** [audit] *)

Inductive OnFull := OnFull_Block | OnFull_Shed.
Inductive AuditBackend := AuditBackend_Postgres.

Record AuditSection := mkAuditSection {
  as_backend : AuditBackend;
  as_database_url : bytes;
  as_max_connections : N;
  as_acquire_timeout_secs : N;
  as_connect_max_retries : N;
  as_connect_backoff_secs : N;
  as_checkpoint_interval_secs : N;
  as_checkpoint_key_id : bytes;
  as_outbox_capacity : N;
  as_outbox_on_full : OnFull;
}.

Definition AuditSection_default : AuditSection :=
  mkAuditSection AuditBackend_Postgres [] 10 30 10 1 0 (lit "checkpoint-ed25519") 1024 OnFull_Block.

Definition validate_postgres (a : AuditSection) : result ConfigError unit :=
  _ ← ensure (negb (is_blank (as_database_url a)))
        (Required (lit "audit.database_url")
           (lit "(set [audit].database_url or AGATE__AUDIT__DATABASE_URL)"));
  _ ← positive (as_max_connections a) (lit "audit.max_connections");
  _ ← positive (as_acquire_timeout_secs a) (lit "audit.acquire_timeout_secs");
  positive (as_connect_backoff_secs a) (lit "audit.connect_backoff_secs").

Definition AuditSection_validate (a : AuditSection) : result ConfigError unit :=
  _ ← positive (as_outbox_capacity a) (lit "audit.outbox_capacity");
  match as_backend a with AuditBackend_Postgres => validate_postgres a end.

(** ** [tls] *)

Record TlsConfig := mkTlsConfig { tls_enabled : bool; tls_cert : bytes; tls_key : bytes }.

Definition TlsConfig_default : TlsConfig := mkTlsConfig false [] [].

Definition TlsConfig_validate (t : TlsConfig) : result ConfigError unit :=
  ensure (negb (tls_enabled t && (is_blank (tls_cert t) || is_blank (tls_key t))))
    (Required (lit "tls.cert and tls.key")
       (lit "when tls.enabled (paths to the PEM certificate chain and private key)")).

(** ** [policy] *)

Inductive PolicyBackendKind := Backend_Ruleset | Backend_Cel | Backend_Rego.
Inductive SessionMemoryBackendKind := Kind_Memory | Kind_Redis.
Inductive MalformedMode := Malformed_Forward | Malformed_Drop | Malformed_Terminate.
Inductive PolicyFailMode := Fail_Open | Fail_Closed.
Inductive ToolMode := Mode_AllowAll | Mode_Allowlist | Mode_Denylist.

#[export] Instance backend_eq_dec : EqDecision PolicyBackendKind.
Proof. solve_decision. Defined.
#[export] Instance memory_kind_eq_dec : EqDecision SessionMemoryBackendKind.
Proof. solve_decision. Defined.

(** A [deny_arguments] or [deny_results] entry; both have this shape. *)
Record RuleEntry := mkRuleEntry {
  re_tool : option bytes;
  re_path : option bytes;
  re_contains : option bytes;
  re_matches : option bytes;
}.

Record ToolsSection := mkToolsSection {
  ts_mode : ToolMode;
  ts_names : list bytes;
  ts_deny_arguments : list RuleEntry;
  ts_deny_results : list RuleEntry;
}.

Record CelSection := mkCelSection { cs_policy_path : option bytes; cs_watch : bool; cs_max_rules : N }.
Record RegoSection := mkRegoSection { rgs_policy_path : option bytes; rgs_watch : bool }.

Record SessionMemorySection := mkSessionMemorySection {
  sm_enabled : bool;
  sm_ttl_secs : N;
  sm_backend : SessionMemoryBackendKind;
  sm_redis_url : option bytes;
}.

Record PolicySection := mkPolicySection {
  pol_tools : ToolsSection;
  pol_redact : list bytes;
  pol_redact_regex : list bytes;
  pol_fail_mode : PolicyFailMode;
  pol_decision_timeout_ms : N;
  pol_on_malformed_event : MalformedMode;
  pol_session_memory : SessionMemorySection;
  pol_backend : PolicyBackendKind;
  pol_cel : CelSection;
  pol_rego : RegoSection;
}.

Definition CelSection_default : CelSection := mkCelSection None false 1000.
Definition SessionMemorySection_default : SessionMemorySection :=
  mkSessionMemorySection false 3600 Kind_Memory None.

Definition PolicySection_default : PolicySection :=
  mkPolicySection (mkToolsSection Mode_AllowAll [] [] []) [] [] Fail_Closed 5000 Malformed_Terminate
    SessionMemorySection_default Backend_Ruleset CelSection_default (mkRegoSection None false).

Section validation.
Context (cel_feature rego_feature : bool).

Definition validate_cel (c : CelSection) : result ConfigError unit :=
  _ ← ensure cel_feature (FeatureMissing (lit "cel") (lit "policy-cel"));
  _ ← ensure (negb (absent_or_blank (cs_policy_path c)))
        (Required (lit "policy.cel.policy_path") (lit "when backend = " ++ quoted (lit "cel")));
  positive (cs_max_rules c) (lit "policy.cel.max_rules").

Definition validate_rego (r : RegoSection) : result ConfigError unit :=
  _ ← ensure rego_feature (FeatureMissing (lit "rego") (lit "policy-rego"));
  ensure (negb (absent_or_blank (rgs_policy_path r)))
    (Required (lit "policy.rego.policy_path") (lit "when backend = " ++ quoted (lit "rego"))).

Definition PolicySection_validate (p : PolicySection) : result ConfigError unit :=
  _ ← positive (pol_decision_timeout_ms p) (lit "policy.decision_timeout_ms");
  _ ← (if bool_decide (pol_backend p = Backend_Cel) then validate_cel (pol_cel p) else Ok tt);
  _ ← (if bool_decide (pol_backend p = Backend_Rego) then validate_rego (pol_rego p) else Ok tt);
  let m := pol_session_memory p in
  _ ← ensure (negb (sm_enabled m && (sm_ttl_secs m =? 0)%N))
        (MustBePositive (lit "policy.session_memory.ttl_secs"));
  ensure (negb (sm_enabled m && bool_decide (sm_backend m = Kind_Redis)
                && absent_or_blank (sm_redis_url m)))
    (Required (lit "policy.session_memory.redis_url") (lit "when backend = " ++ quoted (lit "redis"))).

(** ** The whole *)

Record AppConfig := mkAppConfig {
  ac_proxy : ProxySection;
  ac_audit : AuditSection;
  ac_policy : PolicySection;
  ac_observability : ObservabilityConfig;
  ac_tls : TlsConfig;
}.

Definition AppConfig_default : AppConfig :=
  mkAppConfig ProxySection_default AuditSection_default PolicySection_default ObservabilityConfig_default
    TlsConfig_default.

Definition AppConfig_validate (c : AppConfig) : result ConfigError unit :=
  _ ← ProxySection_validate (ac_proxy c);
  _ ← AuditSection_validate (ac_audit c);
  _ ← PolicySection_validate (ac_policy c);
  TlsConfig_validate (ac_tls c).
End validation.

Definition tls_config (c : AppConfig) : option TlsConfig :=
  if tls_enabled (ac_tls c) then Some (ac_tls c) else None.

(** ** The proxy's settings *)

Inductive SessionMemoryBackend := InMemory | Redis (url : bytes).
Record SessionMemoryConfig := mkSessionMemoryConfig { smc_backend : SessionMemoryBackend; smc_ttl : N }.

Definition DEFAULT_CONNECT_TIMEOUT : N := 5.
Definition DEFAULT_READ_TIMEOUT : N := 60.
Definition DEFAULT_MAX_BODY_BYTES : N := 1048576.
Definition DEFAULT_MAX_CONCURRENT_REQUESTS : N := 256.
Definition DEFAULT_MAX_FRAME_BYTES : N := 1048576.

(** Durations are in seconds. *)
Record ProxyConfig := mkProxyConfig {
  pc_agent_endpoint : bytes;
  pc_bind_addr : bytes;
  pc_connect_timeout : N;
  pc_read_timeout : N;
  pc_max_body_bytes : N;
  pc_api_keys : list bytes;
  pc_max_concurrent_requests : N;
  pc_malformed_event_mode : MalformedEventMode;
  pc_response_budget : ResponseBudget;
  pc_max_frame_bytes : N;
  pc_rate_limit_per_second : N;
  pc_rate_limit_burst : N;
  pc_session_memory : option SessionMemoryConfig;
}.

Definition ProxyConfig_new (agent_endpoint bind_addr : bytes) : ProxyConfig :=
  mkProxyConfig agent_endpoint bind_addr DEFAULT_CONNECT_TIMEOUT DEFAULT_READ_TIMEOUT
    DEFAULT_MAX_BODY_BYTES [] DEFAULT_MAX_CONCURRENT_REQUESTS Mode_Terminate unlimited
    DEFAULT_MAX_FRAME_BYTES 0 0 None.

Definition with_ingress (connect read max_body : N) (keys : list bytes) (p : ProxyConfig) : ProxyConfig :=
  let '(mkProxyConfig e b _ _ _ _ n m r f q u s) := p in
  mkProxyConfig e b connect read max_body keys n m r f q u s.

Definition with_concurrency_limit (n : N) (p : ProxyConfig) : ProxyConfig :=
  let '(mkProxyConfig e b c d x k _ m r f q u s) := p in mkProxyConfig e b c d x k n m r f q u s.

Definition with_malformed_event_mode (m : MalformedEventMode) (p : ProxyConfig) : ProxyConfig :=
  let '(mkProxyConfig e b c d x k n _ r f q u s) := p in mkProxyConfig e b c d x k n m r f q u s.

Definition with_response_budget (r : ResponseBudget) (p : ProxyConfig) : ProxyConfig :=
  let '(mkProxyConfig e b c d x k n m _ f q u s) := p in mkProxyConfig e b c d x k n m r f q u s.

Definition with_max_frame_bytes (f : N) (p : ProxyConfig) : ProxyConfig :=
  let '(mkProxyConfig e b c d x k n m r _ q u s) := p in mkProxyConfig e b c d x k n m r f q u s.

Definition with_rate_limit (q u : N) (p : ProxyConfig) : ProxyConfig :=
  let '(mkProxyConfig e b c d x k n m r f _ _ s) := p in mkProxyConfig e b c d x k n m r f q u s.

Definition with_session_memory (s : option SessionMemoryConfig) (p : ProxyConfig) : ProxyConfig :=
  let '(mkProxyConfig e b c d x k n m r f q u _) := p in mkProxyConfig e b c d x k n m r f q u s.

Definition inspection_settings (p : ProxyConfig) : InspectionSettings :=
  mkInspectionSettings Budgets_default (pc_malformed_event_mode p) (pc_response_budget p)
    (pc_max_frame_bytes p).

(** What the router reads of the settings. *)
Definition ingress (p : ProxyConfig) : IngressConfig :=
  mkIngressConfig (pc_max_body_bytes p) (pc_api_keys p) (pc_max_concurrent_requests p)
    (pc_rate_limit_per_second p) (pc_rate_limit_burst p) (inspection_settings p).

Definition malformed_event_mode (c : AppConfig) : MalformedEventMode :=
  match pol_on_malformed_event (ac_policy c) with
  | Malformed_Forward => Mode_Forward
  | Malformed_Drop => Mode_Drop
  | Malformed_Terminate => Mode_Terminate
  end.

Definition session_memory_config (c : AppConfig) : option SessionMemoryConfig :=
  let section := pol_session_memory (ac_policy c) in
  if negb (sm_enabled section) then None
  else
    let backend :=
      match sm_backend section with
      | Kind_Memory => InMemory
      | Kind_Redis => Redis (default [] (sm_redis_url section))
      end in
    Some (mkSessionMemoryConfig backend (sm_ttl_secs section)).

Definition accepted_api_keys (c : AppConfig) : list bytes :=
  filter (λ key, key ≠ [])
    (trim <$> option_list (ps_api_key (ac_proxy c)) ++ ps_api_keys (ac_proxy c)).

Definition proxy_config (c : AppConfig) : ProxyConfig :=
  let p := ac_proxy c in
  with_session_memory (session_memory_config c)
    (with_rate_limit (ps_rate_limit_per_second p) (ps_rate_limit_burst p)
    (with_max_frame_bytes (ps_max_frame_bytes p)
    (with_response_budget (mkResponseBudget (ps_max_response_events p) (ps_max_response_bytes p))
    (with_malformed_event_mode (malformed_event_mode c)
    (with_concurrency_limit (ps_max_concurrent_requests p)
    (with_ingress (ps_connect_timeout_secs p) (ps_read_timeout_secs p) (ps_max_body_bytes p)
       (accepted_api_keys c)
    (ProxyConfig_new (ps_agent_endpoint p) (ps_bind p)))))))).

(** ** The audit side's settings *)

Definition outbox_settings (c : AppConfig) : N * FullPolicy :=
  (as_outbox_capacity (ac_audit c),
   match as_outbox_on_full (ac_audit c) with
   | OnFull_Block => FullPolicy_Block
   | OnFull_Shed => FullPolicy_Shed
   end).

Definition checkpoint_settings (c : AppConfig) : option (N * bytes) :=
  if (0 <? as_checkpoint_interval_secs (ac_audit c))%N then
    Some (as_checkpoint_interval_secs (ac_audit c), as_checkpoint_key_id (ac_audit c))
  else None.

Record PoolConfig := mkPoolConfig {
  pool_max_connections : N;
  pool_acquire_timeout : N;
  pool_connect_max_retries : N;
  pool_connect_backoff : N;
}.

Definition postgres_config (c : AppConfig) : bytes * PoolConfig :=
  let a := ac_audit c in
  (as_database_url a,
   mkPoolConfig (as_max_connections a) (as_acquire_timeout_secs a) (as_connect_max_retries a)
     (as_connect_backoff_secs a)).

Definition policy_fail_mode (c : AppConfig) : FailMode :=
  match pol_fail_mode (ac_policy c) with
  | Fail_Open => FailMode_Open
  | Fail_Closed => FailMode_Closed
  end.

(** ** The ruleset *)

Section ruleset.
Context (rx : RegexCrate).

Definition parse_tool_matcher (entry : bytes) : result PolicyError (ToolMatcher rx) :=
  let entry := trim entry in
  match strip_prefix (lit "glob:") entry with
  | Some glob => ToolMatcher_glob rx glob
  | None =>
      match strip_prefix (lit "regex:") entry with
      | Some regex => ToolMatcher_regex rx regex
      | None => ToolMatcher_exact rx entry
      end
  end.

Definition tool_matchers (names : list bytes) : result PolicyError (list (ToolMatcher rx)) :=
  mapM parse_tool_matcher names.

(** [match opt.map(str::trim) { Some(s) if !s.is_empty() => Some(f(s)?), _ => None }]. *)
Definition unless_blank {A} (s : option bytes) (f : bytes → result PolicyError A) :
    result bytes (option A) :=
  match trim <$> s with
  | None | Some [] => Ok None
  | Some s => Some <$> map_err policy_error_display (f s)
  end.

Definition rule_parts (tool path contains matches : option bytes) (kind : bytes) :
    result bytes (option ToolName * option JsonPath * Pattern rx) :=
  tool ← unless_blank tool ToolName_new;
  path ← unless_blank path JsonPath_parse;
  marker ←
    match contains, matches with
    | Some literal, None => map_err policy_error_display (Pattern_literal rx literal)
    | None, Some regex => map_err policy_error_display (Pattern_regex rx regex)
    | Some _, Some _ =>
        Err (lit "a " ++ kind ++ lit " rule sets exactly one of `contains` or `matches`, not both")
    | None, None => Err (lit "a " ++ kind ++ lit " rule needs `contains` or `matches`")
    end;
  Ok (tool, path, marker).

Definition to_match (r : RuleEntry) (kind : bytes) : result bytes (ContentMatch rx) :=
  parts ← rule_parts (re_tool r) (re_path r) (re_contains r) (re_matches r) kind;
  let '(tool, path, marker) := parts in
  let rule := ContentMatch_new rx tool marker in
  Ok (match path with Some path => with_path rx rule path | None => rule end).

Definition ArgumentRule_to_rule (r : RuleEntry) : result bytes (ArgumentRule rx) :=
  mkArgumentRule rx <$> to_match r (lit "deny_arguments").

Definition ResultRule_to_rule (r : RuleEntry) : result bytes (ResultRule rx) :=
  mkResultRule rx <$> to_match r (lit "deny_results").

Definition policy_ruleset (c : AppConfig) : result bytes (PolicyRuleset rx) :=
  let p := ac_policy c in
  let matchers := map_err policy_error_display (tool_matchers (ts_names (pol_tools p))) in
  tools ←
    match ts_mode (pol_tools p) with
    | Mode_AllowAll => Ok (AllowAllTools rx)
    | Mode_Allowlist => Allowlist rx <$> matchers
    | Mode_Denylist => Denylist rx <$> matchers
    end;
  argument_rules ← mapM ArgumentRule_to_rule (ts_deny_arguments (pol_tools p));
  result_rules ← mapM ResultRule_to_rule (ts_deny_results (pol_tools p));
  literals ← map_err policy_error_display (mapM (Pattern_literal rx) (pol_redact p));
  regexes ← mapM (λ source, map_err policy_error_display (Pattern_regex rx source))
              (pol_redact_regex p);
  Ok (with_result_rules rx (PolicyRuleset_new rx tools argument_rules (literals ++ regexes))
        result_rules).
End ruleset.

(** ** What acceptance means *)

Lemma ensure_Ok ok e : ensure ok e = Ok tt ↔ ok = true.
Proof. by destruct ok. Qed.

Lemma positive_Ok n key : positive n key = Ok tt ↔ (0 < n)%N.
Proof. unfold positive. rewrite ensure_Ok, negb_true_iff, N.eqb_neq. lia. Qed.

Lemma then_Ok {E} (m k : result E unit) : (_ ← m; k) = Ok tt ↔ m = Ok tt ∧ k = Ok tt.
Proof. destruct m as [[]|e]; cbn; naive_solver. Qed.

Lemma checks_if (b : bool) (m : result ConfigError unit) :
  (if b then m else Ok tt) = Ok tt ↔ (b = true → m = Ok tt).
Proof. destruct b; naive_solver. Qed.

Lemma guard_Ok (a b : bool) : negb (a && b) = true ↔ (a = true → b = false).
Proof. destruct a, b; naive_solver. Qed.

Lemma not_absent s : absent_or_blank s = false ↔ ∃ v, s = Some v ∧ is_blank v = false.
Proof. destruct s; simpl; naive_solver. Qed.

Lemma rate_guard q u : (q = 0%N → u = 0%N) ↔ (rate_quota q u = None → u = 0%N).
Proof. unfold rate_quota. destruct (N.eqb_spec q 0); naive_solver. Qed.

(** The engine the configuration selects can be built. *)
Definition engine_ready (cel_feature rego_feature : bool) (p : PolicySection) : Prop :=
  match pol_backend p with
  | Backend_Ruleset => True
  | Backend_Cel =>
      cel_feature = true ∧ (0 < cs_max_rules (pol_cel p))%N
      ∧ ∃ path, cs_policy_path (pol_cel p) = Some path ∧ is_blank path = false
  | Backend_Rego =>
      rego_feature = true ∧ ∃ path, rgs_policy_path (pol_rego p) = Some path ∧ is_blank path = false
  end.

(** The replay ledger, when there is one, can forget and can be reached. *)
Definition memory_ready (m : option SessionMemoryConfig) : Prop :=
  match m with
  | None => True
  | Some m =>
      (0 < smc_ttl m)%N
      ∧ match smc_backend m with InMemory => True | Redis url => is_blank url = false end
  end.

Lemma engine_accepted cf rf p :
  (pol_backend p = Backend_Cel → validate_cel cf (pol_cel p) = Ok tt)
  ∧ (pol_backend p = Backend_Rego → validate_rego rf (pol_rego p) = Ok tt) ↔ engine_ready cf rf p.
Proof.
  unfold engine_ready, validate_cel, validate_rego.
  rewrite !then_Ok, !positive_Ok, !ensure_Ok, !negb_true_iff, !not_absent.
  destruct (pol_backend p); intuition congruence.
Qed.

Lemma memory_accepted c :
  let m := pol_session_memory (ac_policy c) in
  negb (sm_enabled m && (sm_ttl_secs m =? 0)%N) = true
  ∧ negb (sm_enabled m && bool_decide (sm_backend m = Kind_Redis)
          && absent_or_blank (sm_redis_url m)) = true
  ↔ memory_ready (session_memory_config c).
Proof.
  unfold session_memory_config, memory_ready.
  destruct (pol_session_memory _) as [[] ttl [] [url|]];
    cbn -[is_blank]; rewrite ?andb_false_r, ?negb_true_iff, ?N.eqb_neq, <-?N.neq_0_lt_0; tauto || done.
Qed.

Lemma policy_section_accepted cf rf c :
  PolicySection_validate cf rf (ac_policy c) = Ok tt
  ↔ (0 < pol_decision_timeout_ms (ac_policy c))%N ∧ engine_ready cf rf (ac_policy c)
    ∧ memory_ready (session_memory_config c).
Proof.
  unfold PolicySection_validate. rewrite !then_Ok, !checks_if, !bool_decide_eq_true, !ensure_Ok.
  rewrite positive_Ok, <-engine_accepted, <-memory_accepted. tauto.
Qed.


(** ** From entries to verdicts *)

Lemma map_err_Ok {E E' A} (f : E → E') (m : result E A) a : map_err f m = Ok a ↔ m = Ok a.
Proof. destruct m; naive_solver. Qed.

Lemma bind_Ok {E A B} (m : result E A) (k : A → result E B) b :
  (a ← m; k a) = Ok b ↔ ∃ a, m = Ok a ∧ k a = Ok b.
Proof. destruct m; cbn; naive_solver. Qed.

Lemma fmap_Ok {E A B} (f : A → B) (m : result E A) b : f <$> m = Ok b ↔ ∃ a, m = Ok a ∧ b = f a.
Proof. destruct m; cbn; naive_solver. Qed.

Lemma mapM_Ok {E A B} (f : A → result E B) l k : mapM f l = Ok k ↔ Forall2 (λ x y, f x = Ok y) l k.
Proof.
  revert k. induction l as [|x l IH]; intros k; cbn [mapM].
  - split; [by intros [= <-]|by intros ->%Forall2_nil_inv_l].
  - rewrite bind_Ok. setoid_rewrite bind_Ok. setoid_rewrite IH. split.
    + intros (y & Hy & ys & Hys & [= <-]). by constructor.
    + intros (y & ys & Hy & Hys & ->)%Forall2_cons_inv_l. eauto.
Qed.

Lemma Forall2_elem_l {A B} (P : A → B → Prop) l k x :
  Forall2 P l k → x ∈ l → ∃ y, y ∈ k ∧ P x y.
Proof.
  intros H (i & Hi)%list_elem_of_lookup.
  destruct (Forall2_lookup_l _ _ _ _ _ H Hi) as (y & Hy%list_elem_of_lookup_2 & Hp). eauto.
Qed.

Section configured.
Context (rx : RegexCrate) (json : SerdeJson).

(** An entry naming one tool: no padding and no prefix. *)
Definition bare (entry : bytes) : Prop :=
  trim entry = entry ∧ strip_prefix (lit "glob:") entry = None
  ∧ strip_prefix (lit "regex:") entry = None.

(** An entry forbidding a literal anywhere, for any tool. *)
Definition forbids (r : RuleEntry) (literal : bytes) : Prop :=
  re_tool r = None ∧ re_path r = None ∧ re_contains r = Some literal.

(** The literal, in any letter case. *)
Definition mentions (text literal : bytes) : bool :=
  contains (to_ascii_lowercase text) (to_ascii_lowercase literal).

Lemma bare_matcher entry m : bare entry → parse_tool_matcher rx entry = Ok m → m = Exact rx entry.
Proof.
  intros (Ht & Hg & Hr). unfold parse_tool_matcher, ToolMatcher_exact. rewrite !Ht, Hg, Hr.
  destruct entry; naive_solver.
Qed.

Lemma ruleset_parts c rs :
  policy_ruleset rx c = Ok rs →
  let p := ac_policy c in
  match ts_mode (pol_tools p), rs_tools rx rs with
  | Mode_AllowAll, AllowAllTools _ => True
  | Mode_Allowlist, Allowlist _ ms | Mode_Denylist, Denylist _ ms =>
      Forall2 (λ n m, parse_tool_matcher rx n = Ok m) (ts_names (pol_tools p)) ms
  | _, _ => False
  end
  ∧ Forall2 (λ e r, ArgumentRule_to_rule rx e = Ok r) (ts_deny_arguments (pol_tools p))
      (rs_argument_rules rx rs)
  ∧ Forall2 (λ e r, ResultRule_to_rule rx e = Ok r) (ts_deny_results (pol_tools p))
      (rs_result_rules rx rs)
  ∧ ∃ literals regexes, rs_secrets rx rs = literals ++ regexes
    ∧ Forall2 (λ n p, Pattern_literal rx n = Ok p) (pol_redact p) literals
    ∧ Forall2 (λ n p, Pattern_regex rx n = Ok p) (pol_redact_regex p) regexes.
Proof.
  unfold policy_ruleset. intros (tools & Ht & H)%bind_Ok.
  apply bind_Ok in H as (args & Ha%mapM_Ok & H). apply bind_Ok in H as (results & Hr%mapM_Ok & H).
  apply bind_Ok in H as (literals & Hl%map_err_Ok%mapM_Ok & H).
  apply bind_Ok in H as (regexes & Hx%mapM_Ok & [= <-]). simpl. split_and!; [|done..|].
  - unfold tool_matchers in Ht.
    destruct (ts_mode _); [by injection Ht as <-|..];
      apply fmap_Ok in Ht as (ms & Hm%map_err_Ok%mapM_Ok & ->); done.
  - exists literals, regexes. split_and!; [done..|].
    eapply Forall2_impl; [done|]. intros n p. by rewrite map_err_Ok.
Qed.

Lemma forbids_fires entry literal kind m name content :
  forbids entry literal → to_match rx entry kind = Ok m → mentions content literal = true →
  rule_fires rx json name content m = true.
Proof.
  intros (Ht & Hp & Hc) (parts & Hparts & Hm)%bind_Ok Hin. unfold rule_parts in Hparts.
  rewrite Ht, Hp, Hc in Hparts. cbn in Hparts. destruct (re_matches entry); [done|].
  unfold Pattern_literal in Hparts. destruct (is_blank literal); [done|].
  injection Hparts as <-. injection Hm as <-. exact Hin.
Qed.

Lemma rule_listed {R} (f : R → ContentMatch rx) rules r name content :
  r ∈ rules → rule_fires rx json name content (f r) = true →
  existsb (rule_fires rx json name content) (map f rules) = true.
Proof.
  intros Hr Hf. apply existsb_exists. exists (f r). split; [|done].
  apply in_map. by apply list_elem_of_In.
Qed.

Lemma listed_tool names ms entry :
  Forall2 (λ n m, parse_tool_matcher rx n = Ok m) names ms → entry ∈ names → bare entry →
  matches_any rx ms entry = true.
Proof.
  intros Hms Hin Hb. destruct (Forall2_elem_l _ _ _ _ Hms Hin) as (m & Hm & Hp).
  apply (bare_matcher _ _ Hb) in Hp as ->. apply existsb_exists. exists (Exact rx entry).
  split; [by apply list_elem_of_In|]. by apply bool_decide_eq_true.
Qed.

Lemma unlisted_tool names ms tool :
  Forall2 (λ n m, parse_tool_matcher rx n = Ok m) names ms → Forall bare names → tool ∉ names →
  matches_any rx ms tool = false.
Proof.
  intros Hms Hb Hn. apply not_true_is_false. intros (m & Hm & Ht)%existsb_exists.
  apply list_elem_of_In in Hm. destruct (Forall2_elem_l _ _ _ _ (proj2 (Forall2_flip _ _ _) Hms) Hm) as (n & Hin & Hp).
  rewrite Forall_forall in Hb. apply (bare_matcher _ _ (Hb _ Hin)) in Hp as ->.
  apply bool_decide_eq_true in Ht as ->. done.
Qed.

Lemma literals_safe needles literals :
  Forall2 (λ n p, Pattern_literal rx n = Ok p) needles literals →
  Forall (λ n, mask_safe n = true) needles → Forall (safe_literal rx) literals.
Proof.
  intros Hl Hs. induction Hl as [|n p needles literals Hp _ IH]; [done|].
  inversion Hs; subst. constructor; [by exists n|by apply IH].
Qed.

Lemma detects_literal needles literals rest n text :
  Forall2 (λ n p, Pattern_literal rx n = Ok p) needles literals → n ∈ needles →
  detects rx (literals ++ rest) text = false → mentions text n = false.
Proof.
  intros Hl Hn Hd. destruct (Forall2_elem_l _ _ _ _ Hl Hn) as (p & Hp & Hlit).
  unfold Pattern_literal in Hlit. destruct (is_blank n); [done|]. injection Hlit as <-.
  apply not_true_is_false. intros Hm. unfold detects in Hd. rewrite existsb_app in Hd.
  apply orb_false_iff in Hd as [Hd _]. rewrite <-not_true_iff_false in Hd. apply Hd.
  apply existsb_exists. exists (Literal rx n). split; [by apply list_elem_of_In|done].
Qed.
End configured.


(** ** Witness: a small configuration *)

Module ConfigDemo.
Import ToyRegex.

Definition entry (literal : bytes) : RuleEntry := mkRuleEntry None None (Some literal) None.

Definition demo_policy : PolicySection :=
  mkPolicySection
    (mkToolsSection Mode_Denylist [lit "shell"] [entry (lit "rm -rf")] [entry (lit "BEGIN KEY")])
    [lit "hunter2"] [] Fail_Closed 5000 Malformed_Terminate SessionMemorySection_default
    Backend_Ruleset CelSection_default (mkRegoSection None false).

Definition demo : AppConfig :=
  mkAppConfig ProxySection_default AuditSection_default demo_policy ObservabilityConfig_default TlsConfig_default.

Lemma demo_builds : ∃ rs, policy_ruleset toy_regex demo = Ok rs.
Proof.
  assert (is_ok (policy_ruleset toy_regex demo) = true) as H by (vm_compute; reflexivity).
  destruct (policy_ruleset toy_regex demo) as [rs|]; [by exists rs|done].
Qed.
End ConfigDemo.

