(* ===== verification/Loader.v ===== *)
(** * Loader: the configuration from its layers
    (crates/agate-server/src/setup/configs: loader.rs, and the serde attributes of the
    sections)

    [load] lays the file over the built-in defaults and the environment over the file, and
    reads the sections from the result.  The sections are read and written as their serde
    attributes say: a field missing takes the value of the section's [Default], an enum is
    its variant in kebab case, an absent optional string is figment's empty value.  Laying
    one provider over another, reading TOML and reading the environment are figment's. *)
From stdpp Require Import options.
From S2P Require Import Prelude Text Observability Config.

(** ** Figment's values *)

#[local] Unset Elimination Schemes.
Inductive FValue :=
| F_Empty
| F_Bool (b : bool)
| F_Num (n : Z)
| F_String (s : bytes)
| F_Array (items : list FValue)
| F_Dict (entries : list (bytes * FValue)).
#[local] Set Elimination Schemes.

Fixpoint assoc (key : bytes) (entries : list (bytes * FValue)) : option FValue :=
  match entries with
  | [] => None
  | (k, v) :: rest => if bool_decide (k = key) then Some v else assoc key rest
  end.

Definition fget (key : bytes) (v : FValue) : option FValue :=
  match v with F_Dict d => assoc key d | _ => None end.

Definition is_dict (v : FValue) : bool := match v with F_Dict _ => true | _ => false end.

(** The value at a path of keys. *)
Fixpoint at_path (path : list bytes) (v : FValue) : option FValue :=
  match path with
  | [] => Some v
  | key :: rest => x ← fget key v; at_path rest x
  end.

Definition or_else {A} (a b : option A) : option A := match a with Some _ => a | None => b end.

(** What the code relies on of figment: [merge] takes the later value where the two
    conflict, and joins dictionaries key by key. *)
Class Figment := { merge : FValue → FValue → FValue }.

Class FigmentLaws `{Figment} : Prop := {
  merge_dict a b : is_dict (merge (F_Dict a) (F_Dict b)) = true;
  merge_get a b key :
    fget key (merge (F_Dict a) (F_Dict b))
    = match assoc key a, assoc key b with
      | Some x, Some y => Some (merge x y)
      | Some x, None => Some x
      | None, o => o
      end;
  merge_later a b : is_dict a && is_dict b = false → merge a b = b;
}.

(** ** Reading and writing a type *)

(** [cd_paths] are the paths of the scalar fields; [cd_default] is the value of a missing
    field. *)
Record Codec (A : Type) := mkCodec {
  cd_ser : A → FValue;
  cd_de : FValue → option A;
  cd_default : A;
  cd_wf : A → Prop;
  cd_paths : list (list bytes);
}.
Arguments cd_ser {A} _ _.
Arguments cd_de {A} _ _.
Arguments cd_default {A} _.
Arguments cd_wf {A} _ _.
Arguments cd_paths {A} _.

(** What makes a codec sound: what was written is read back; what is read has at each
    scalar path what was there, or the default; and the values on the way are dictionaries. *)
Class CodecLaws {A} (c : Codec A) : Prop := {
  cd_roundtrip a : cd_wf c a → cd_de c (cd_ser c a) = Some a;
  cd_scalar v a p : cd_de c v = Some a → p ∈ cd_paths c →
    at_path p (cd_ser c a) = or_else (at_path p v) (at_path p (cd_ser c (cd_default c)));
  cd_leaf v a p w : cd_de c v = Some a → p ∈ cd_paths c → at_path p v = Some w → is_dict w = false;
  cd_way v a p q w : cd_de c v = Some a → p ∈ cd_paths c → q `prefix_of` p → q ≠ p →
    at_path q v = Some w → is_dict w = true;
}.

(** *** Scalars *)

Definition scalar {A} (ser : A → FValue) (de : FValue → option A) (wf : A → Prop) (d : A) : Codec A :=
  mkCodec A ser de d wf [[]].

Lemma scalar_laws {A} (ser : A → FValue) de (wf : A → Prop) d :
  (∀ a, wf a → de (ser a) = Some a) → (∀ v a, de v = Some a → ser a = v ∧ is_dict v = false) →
  CodecLaws (scalar ser de wf d).
Proof.
  intros Hrt Hex. split; simpl; [done|..].
  - intros v a p Hv ->%list_elem_of_singleton. simpl. by destruct (Hex _ _ Hv) as [-> _].
  - intros v a p w Hv ->%list_elem_of_singleton. simpl. intros [= <-]. by eapply Hex.
  - intros v a p q w _ ->%list_elem_of_singleton Hq Hne. by apply prefix_nil_inv in Hq.
Qed.

Definition de_string (v : FValue) : option bytes := match v with F_String s => Some s | _ => None end.
Definition de_bool (v : FValue) : option bool := match v with F_Bool b => Some b | _ => None end.

Definition string_codec (d : bytes) : Codec bytes := scalar F_String de_string (λ _, True) d.
Definition bool_codec (d : bool) : Codec bool := scalar F_Bool de_bool (λ _, True) d.

(** [u32], [u64] and [usize]: [bound] is the first number that does not fit. *)
Definition de_uint (bound : N) (v : FValue) : option N :=
  match v with
  | F_Num n => if (0 <=? n)%Z && (n <? Z.of_N bound)%Z then Some (Z.to_N n) else None
  | _ => None
  end.
Definition uint_codec (bound d : N) : Codec N :=
  scalar (λ n, F_Num (Z.of_N n)) (de_uint bound) (λ n, n < bound)%N d.
Definition u64 : N → Codec N := uint_codec (2 ^ 64).
Definition u32 : N → Codec N := uint_codec (2 ^ 32).

(** [Option<String>]. *)
Definition ser_optional (o : option bytes) : FValue := match o with Some s => F_String s | None => F_Empty end.
Definition de_optional (v : FValue) : option (option bytes) :=
  match v with F_String s => Some (Some s) | F_Empty => Some None | _ => None end.
Definition optional_codec : Codec (option bytes) := scalar ser_optional de_optional (λ _, True) None.

(** [Vec<String>]. *)
Definition strings_codec : Codec (list bytes) :=
  scalar (λ l, F_Array (F_String <$> l))
    (λ v, match v with F_Array l => mapM de_string l | _ => None end) (λ _, True) [].

(** A field-less enum with its names. *)
Fixpoint enum_name {A} `{EqDecision A} (names : list (bytes * A)) (a : A) : bytes :=
  match names with
  | [] => []
  | (n, x) :: rest => if bool_decide (x = a) then n else enum_name rest a
  end.
Fixpoint enum_value {A} (names : list (bytes * A)) (s : bytes) : option A :=
  match names with
  | [] => None
  | (n, x) :: rest => if bool_decide (n = s) then Some x else enum_value rest s
  end.
Definition enum_codec {A} `{EqDecision A} (names : list (bytes * A)) (d : A) : Codec A :=
  scalar (λ a, F_String (enum_name names a)) (λ v, s ← de_string v; enum_value names s) (λ _, True) d.

(** *** Structs *)

(** The fields of a struct, one after the other. *)
Record Fields (A : Type) := mkFields {
  fl_ser : A → list (bytes * FValue);
  fl_de : (bytes → option FValue) → option A;
  fl_default : A;
  fl_wf : A → Prop;
  fl_paths : list (list bytes);
  fl_names : list bytes;
}.
Arguments fl_ser {A} _ _.
Arguments fl_de {A} _ _.
Arguments fl_default {A} _.
Arguments fl_wf {A} _ _.
Arguments fl_paths {A} _.
Arguments fl_names {A} _.

Definition no_fields : Fields unit := mkFields unit (λ _, []) (λ _, Some tt) tt (λ _, True) [] [].

Definition field {A B} (name : bytes) (c : Codec A) (rest : Fields B) : Fields (A * B) :=
  mkFields (A * B)
    (λ '(a, b), (name, cd_ser c a) :: fl_ser rest b)
    (λ look,
       a ← match look name with Some v => cd_de c v | None => Some (cd_default c) end;
       b ← fl_de rest look;
       Some (a, b))
    (cd_default c, fl_default rest) (λ '(a, b), cd_wf c a ∧ fl_wf rest b)
    ((cons name <$> cd_paths c) ++ fl_paths rest) (name :: fl_names rest).

(** A struct with [#[serde(default)]] and these fields. *)
Definition struct {A R} (to : A → R) (from : R → A) (f : Fields A) : Codec R :=
  mkCodec R (λ r, F_Dict (fl_ser f (from r)))
    (λ v, match v with F_Dict d => to <$> fl_de f (λ k, assoc k d) | _ => None end)
    (to (fl_default f)) (λ r, fl_wf f (from r)) (fl_paths f).

Definition at_look (p : list bytes) (look : bytes → option FValue) : option FValue :=
  match p with [] => None | k :: p' => v ← look k; at_path p' v end.

Class FieldsLaws {A} (f : Fields A) : Prop := {
  fl_roundtrip look a : fl_wf f a → (∀ k v, (k, v) ∈ fl_ser f a → look k = Some v) → fl_de f look = Some a;
  fl_named p : p ∈ fl_paths f → ∃ k p', p = k :: p' ∧ k ∈ fl_names f;
  fl_keys a : fst <$> fl_ser f a = fl_names f;
  fl_nodup : NoDup (fl_names f);
  fl_scalar look a p : fl_de f look = Some a → p ∈ fl_paths f →
    at_path p (F_Dict (fl_ser f a)) = or_else (at_look p look) (at_path p (F_Dict (fl_ser f (fl_default f))));
  fl_leaf look a p w : fl_de f look = Some a → p ∈ fl_paths f → at_look p look = Some w → is_dict w = false;
  fl_way look a p k q w : fl_de f look = Some a → p ∈ fl_paths f → (k :: q) `prefix_of` p → k :: q ≠ p →
    at_look (k :: q) look = Some w → is_dict w = true;
}.

#[export] Instance no_fields_laws : FieldsLaws no_fields.
Proof.
  split; simpl; try (intros *; intros; by match goal with H : _ ∈ [] |- _ => apply elem_of_nil in H end).
  - by intros ? [] _ _.
  - done.
  - constructor.
Qed.

Lemma field_path {A B} name (c : Codec A) (rest : Fields B) p :
  p ∈ fl_paths (field name c rest) ↔ (∃ p', p = name :: p' ∧ p' ∈ cd_paths c) ∨ p ∈ fl_paths rest.
Proof. simpl. rewrite elem_of_app, list_elem_of_fmap. done. Qed.

#[export] Instance field_laws {A B} name (c : Codec A) (rest : Fields B) :
  CodecLaws c → FieldsLaws rest → TCEq (bool_decide (name ∈ fl_names rest)) false →
  FieldsLaws (field name c rest).
Proof.
  intros Hc Hr Hname%TCEq_eq%bool_decide_eq_false.
  assert (∀ k p, k :: p ∈ fl_paths rest → k ≠ name) as Hne.
  { intros k p Hp ->. destruct (fl_named _ Hp) as (k & p' & [= <- <-] & Hk). done. }
  assert (∀ look a b, fl_de (field name c rest) look = Some (a, b) →
    match look name with Some v => cd_de c v = Some a | None => a = cd_default c end
    ∧ fl_de rest look = Some b) as Hde.
  { intros look a b. simpl. destruct (look name) as [v|]; simpl.
    - destruct (cd_de c v) as [a'|]; simpl; [|done]. destruct (fl_de rest look); simpl; naive_solver.
    - destruct (fl_de rest look); simpl; naive_solver. }
  split.
  - intros look [a b] [Ha Hb] Hl. simpl. rewrite (Hl name (cd_ser c a)) by (by left).
    rewrite cd_roundtrip by done. simpl.
    rewrite (fl_roundtrip look b) by (done || intros; apply Hl; by right). done.
  - intros p [(p' & -> & _)|Hp]%field_path; [by eexists _, _; split; [done|left]|].
    destruct (fl_named _ Hp) as (k & p' & -> & Hk). eexists _, _. split; [done|by right].
  - intros [a b]. simpl. by rewrite fl_keys.
  - simpl. constructor; [done|apply fl_nodup].
  - intros look [a b] p [Ha Hb]%Hde [(p' & -> & Hp)|Hp]%field_path.
    + simpl. rewrite bool_decide_eq_true_2 by done. simpl.
      destruct (look name) as [v|]; simpl; [by apply cd_scalar|by subst a].
    + destruct (fl_named _ Hp) as (k & p' & -> & _). pose proof (fl_scalar look b _ Hb Hp) as Hs.
      simpl in *. rewrite bool_decide_eq_false_2 by (apply not_eq_sym; by eapply Hne). done.
  - intros look [a b] p w [Ha Hb]%Hde [(p' & -> & Hp)|Hp]%field_path.
    + simpl. destruct (look name) as [v|]; simpl; [|done]. by eapply cd_leaf.
    + by eapply fl_leaf.
  - intros look [a b] p k q w [Ha Hb]%Hde [(p' & -> & Hp)|Hp]%field_path Hq Hn.
    + pose proof (prefix_cons_inv_1 _ _ _ _ Hq) as ->. apply prefix_cons_inv_2 in Hq.
      simpl. destruct (look name) as [v|]; simpl; [|done]. eapply cd_way; [done..|]. congruence.
    + by eapply fl_way.
Qed.

Lemma assoc_nodup d k v : NoDup (fst <$> d) → (k, v) ∈ d → assoc k d = Some v.
Proof.
  induction d as [|[k' v'] d IH]; intros Hn Hin; [by apply elem_of_nil in Hin|]. simpl in *. inv Hn.
  apply elem_of_cons in Hin as [[= <- <-]|Hin]; [by rewrite bool_decide_eq_true_2|].
  rewrite bool_decide_eq_false_2; [by apply IH|]. intros ->. apply H1. by apply (list_elem_of_fmap_2 fst) in Hin.
Qed.

Lemma struct_laws {A R} (to : A → R) (from : R → A) (f : Fields A) `{!FieldsLaws f} :
  (∀ r, to (from r) = r) → (∀ a, from (to a) = a) → CodecLaws (struct to from f).
Proof.
  intros Hto Hfrom.
  assert (∀ v r, cd_de (struct to from f) v = Some r →
    ∃ d, v = F_Dict d ∧ fl_de f (λ k, assoc k d) = Some (from r)) as Hde.
  { intros v r. destruct v as [| | | | |d]; simpl; try done. destruct (fl_de f _) as [a|] eqn:E; simpl; [|done].
    intros [= <-]. exists d. by rewrite Hfrom. }
  assert (∀ p d, p ∈ fl_paths f → at_path p (F_Dict d) = at_look p (λ k, assoc k d)) as Hat.
  { intros p d Hp. destruct (fl_named _ Hp) as (k & p' & -> & _). done. }
  split.
  - intros r Hw. simpl. rewrite (fl_roundtrip _ (from r)); [simpl; by rewrite Hto|done|].
    intros k v Hin. apply assoc_nodup; [rewrite fl_keys; apply fl_nodup|done].
  - intros v r p (d & -> & Hd)%Hde Hp. simpl in *. rewrite Hfrom, (Hat p d Hp). by apply fl_scalar.
  - intros v r p w (d & -> & Hd)%Hde Hp. simpl in Hp. rewrite (Hat p d Hp). by eapply fl_leaf.
  - intros v r p q w (d & -> & Hd)%Hde Hp Hq Hne. destruct q as [|k q]; [by intros [= <-]|].
    exact (fl_way (λ k, assoc k d) (from r) p k q w Hd Hp Hq Hne).
Qed.

(** *** Instances *)

#[export] Instance string_laws d : CodecLaws (string_codec d).
Proof. apply scalar_laws; [done|]. intros [] a; simpl; naive_solver. Qed.

#[export] Instance bool_laws d : CodecLaws (bool_codec d).
Proof. apply scalar_laws; [done|]. intros [] a; simpl; naive_solver. Qed.

#[export] Instance optional_laws : CodecLaws optional_codec.
Proof. apply scalar_laws; [by intros []|]. intros [] a; simpl; intros [= <-]; done. Qed.

#[export] Instance uint_laws bound d : CodecLaws (uint_codec bound d).
Proof.
  apply scalar_laws.
  - intros n Hn. simpl. decide_cmp. by rewrite N2Z.id.
  - intros [] a; simpl; try done. decide_cmp. intros [= <-]. rewrite Z2N.id by lia. done.
Qed.

#[export] Instance strings_laws : CodecLaws strings_codec.
Proof.
  apply scalar_laws.
  - intros l _. by apply mapM_fmap_Some.
  - intros v l. destruct v as [| | | |items|]; simpl; try done. intros H. split; [|done].
    f_equal. eapply mapM_fmap_Some_inv; [exact H|]. intros v s. destruct v; simpl; naive_solver.
Qed.

(** The names of an enum are distinct and cover it. *)
Class EnumNames {A} `{EqDecision A} (names : list (bytes * A)) : Prop := {
  names_cover a : enum_value names (enum_name names a) = Some a;
  names_exact s a : enum_value names s = Some a → enum_name names a = s;
}.

#[export] Instance enum_laws {A} `{EqDecision A} (names : list (bytes * A)) d :
  EnumNames names → CodecLaws (enum_codec names d).
Proof.
  intros Hn. apply scalar_laws; [intros a _; apply names_cover|].
  intros v a. destruct v; simpl; try done. intros E. by rewrite (names_exact _ _ E).
Qed.

Ltac enum_names :=
  split;
  [ by intros []
  | intros s a;
    match goal with |- enum_value ?names _ = _ → _ => unfold names end; cbn [enum_value];
    repeat (case_bool_decide; [subst s; destruct a; intros E; first [discriminate E|reflexivity]|]); done ].

Ltac struct_iso :=
  apply struct_laws; [apply _|by intros []|];
  intros; by repeat match goal with p : _ * _ |- _ => destruct p | u : unit |- _ => destruct u end.

(** ** The sections *)

Definition proxy_codec : Codec ProxySection :=
  struct
    (λ '(a, (b, (c, (d, (e, (f, (g, (h, (i, (j, (k, (l, (m, _))))))))))))),
       mkProxySection a b c d e f g h i j k l m)
    (λ '(mkProxySection a b c d e f g h i j k l m), (a, (b, (c, (d, (e, (f, (g, (h, (i, (j, (k, (l, (m, tt))))))))))))))
    (field (lit "agent_endpoint") (string_codec [])
    (field (lit "bind") (string_codec (lit "0.0.0.0:8080"))
    (field (lit "connect_timeout_secs") (u64 5)
    (field (lit "read_timeout_secs") (u64 60)
    (field (lit "max_body_bytes") (u64 1048576)
    (field (lit "api_key") optional_codec
    (field (lit "api_keys") strings_codec
    (field (lit "max_concurrent_requests") (u64 256)
    (field (lit "max_response_events") (u64 100000)
    (field (lit "max_response_bytes") (u64 67108864)
    (field (lit "max_frame_bytes") (u64 1048576)
    (field (lit "rate_limit_per_second") (u32 0)
    (field (lit "rate_limit_burst") (u32 0) no_fields))))))))))))).

#[export] Instance proxy_laws : CodecLaws proxy_codec.
Proof. struct_iso. Qed.

Definition on_full_names : list (bytes * OnFull) := [(lit "block", OnFull_Block); (lit "shed", OnFull_Shed)].
Definition audit_backend_names : list (bytes * AuditBackend) := [(lit "postgres", AuditBackend_Postgres)].
Definition fail_mode_names : list (bytes * PolicyFailMode) := [(lit "open", Fail_Open); (lit "closed", Fail_Closed)].
Definition malformed_names : list (bytes * MalformedMode) :=
  [(lit "forward", Malformed_Forward); (lit "drop", Malformed_Drop); (lit "terminate", Malformed_Terminate)].
Definition memory_names : list (bytes * SessionMemoryBackendKind) :=
  [(lit "memory", Kind_Memory); (lit "redis", Kind_Redis)].
Definition backend_names : list (bytes * PolicyBackendKind) :=
  [(lit "ruleset", Backend_Ruleset); (lit "cel", Backend_Cel); (lit "rego", Backend_Rego)].
Definition tool_mode_names : list (bytes * ToolMode) :=
  [(lit "allow-all", Mode_AllowAll); (lit "allowlist", Mode_Allowlist); (lit "denylist", Mode_Denylist)].
Definition log_format_names : list (bytes * LogFormat) :=
  [(lit "pretty", Format_Pretty); (lit "json", Format_Json)].
Definition exporter_names : list (bytes * MetricsExporter) :=
  [(lit "prometheus", Exporter_Prometheus); (lit "none", Exporter_None)].

#[export] Instance on_full_eq_dec : EqDecision OnFull.
Proof. solve_decision. Defined.
#[export] Instance audit_backend_eq_dec : EqDecision AuditBackend.
Proof. solve_decision. Defined.
#[export] Instance fail_mode_eq_dec : EqDecision PolicyFailMode.
Proof. solve_decision. Defined.
#[export] Instance malformed_eq_dec : EqDecision MalformedMode.
Proof. solve_decision. Defined.
#[export] Instance tool_mode_eq_dec : EqDecision ToolMode.
Proof. solve_decision. Defined.

#[export] Instance on_full_enum : EnumNames on_full_names.
Proof. enum_names. Qed.
#[export] Instance audit_backend_enum : EnumNames audit_backend_names.
Proof. enum_names. Qed.
#[export] Instance fail_mode_enum : EnumNames fail_mode_names.
Proof. enum_names. Qed.
#[export] Instance malformed_enum : EnumNames malformed_names.
Proof. enum_names. Qed.
#[export] Instance memory_enum : EnumNames memory_names.
Proof. enum_names. Qed.
#[export] Instance backend_enum : EnumNames backend_names.
Proof. enum_names. Qed.
#[export] Instance tool_mode_enum : EnumNames tool_mode_names.
Proof. enum_names. Qed.
#[export] Instance log_format_enum : EnumNames log_format_names.
Proof. enum_names. Qed.
#[export] Instance exporter_enum : EnumNames exporter_names.
Proof. enum_names. Qed.

Definition audit_codec : Codec AuditSection :=
  struct
    (λ '(a, (b, (c, (d, (e, (f, (g, (h, (i, (j, _)))))))))), mkAuditSection a b c d e f g h i j)
    (λ '(mkAuditSection a b c d e f g h i j), (a, (b, (c, (d, (e, (f, (g, (h, (i, (j, tt)))))))))))
    (field (lit "backend") (enum_codec audit_backend_names AuditBackend_Postgres)
    (field (lit "database_url") (string_codec [])
    (field (lit "max_connections") (u32 10)
    (field (lit "acquire_timeout_secs") (u64 30)
    (field (lit "connect_max_retries") (u32 10)
    (field (lit "connect_backoff_secs") (u64 1)
    (field (lit "checkpoint_interval_secs") (u64 0)
    (field (lit "checkpoint_key_id") (string_codec (lit "checkpoint-ed25519"))
    (field (lit "outbox_capacity") (u64 1024)
    (field (lit "outbox_on_full") (enum_codec on_full_names OnFull_Block) no_fields)))))))))).

#[export] Instance audit_laws : CodecLaws audit_codec.
Proof. struct_iso. Qed.

Definition rule_codec : Codec RuleEntry :=
  struct (λ '(a, (b, (c, (d, _)))), mkRuleEntry a b c d) (λ '(mkRuleEntry a b c d), (a, (b, (c, (d, tt)))))
    (field (lit "tool") optional_codec
    (field (lit "path") optional_codec
    (field (lit "contains") optional_codec
    (field (lit "matches") optional_codec no_fields)))).

#[export] Instance rule_laws : CodecLaws rule_codec.
Proof. struct_iso. Qed.

(** A [Vec] of structs: a later layer replaces it as a whole. *)
Definition array_codec {A} (c : Codec A) : Codec (list A) :=
  mkCodec (list A) (λ l, F_Array (cd_ser c <$> l))
    (λ v, match v with F_Array l => mapM (cd_de c) l | _ => None end) [] (Forall (cd_wf c)) [].

#[export] Instance array_laws {A} (c : Codec A) : CodecLaws c → CodecLaws (array_codec c).
Proof.
  intros Hc. split; simpl; try (intros *; intros; by match goal with H : _ ∈ [] |- _ => apply elem_of_nil in H end).
  intros l Hl. apply mapM_fmap_Forall_Some. eapply Forall_impl; [exact Hl|]. intros a. apply cd_roundtrip.
Qed.

Definition tools_codec : Codec ToolsSection :=
  struct (λ '(a, (b, (c, (d, _)))), mkToolsSection a b c d) (λ '(mkToolsSection a b c d), (a, (b, (c, (d, tt)))))
    (field (lit "mode") (enum_codec tool_mode_names Mode_AllowAll)
    (field (lit "names") strings_codec
    (field (lit "deny_arguments") (array_codec rule_codec)
    (field (lit "deny_results") (array_codec rule_codec) no_fields)))).

#[export] Instance tools_laws : CodecLaws tools_codec.
Proof. struct_iso. Qed.

Definition cel_codec : Codec CelSection :=
  struct (λ '(a, (b, (c, _))), mkCelSection a b c) (λ '(mkCelSection a b c), (a, (b, (c, tt))))
    (field (lit "policy_path") optional_codec
    (field (lit "watch") (bool_codec false)
    (field (lit "max_rules") (u64 1000) no_fields))).

#[export] Instance cel_laws : CodecLaws cel_codec.
Proof. struct_iso. Qed.

Definition rego_codec : Codec RegoSection :=
  struct (λ '(a, (b, _)), mkRegoSection a b) (λ '(mkRegoSection a b), (a, (b, tt)))
    (field (lit "policy_path") optional_codec (field (lit "watch") (bool_codec false) no_fields)).

#[export] Instance rego_laws : CodecLaws rego_codec.
Proof. struct_iso. Qed.

Definition session_memory_codec : Codec SessionMemorySection :=
  struct (λ '(a, (b, (c, (d, _)))), mkSessionMemorySection a b c d)
    (λ '(mkSessionMemorySection a b c d), (a, (b, (c, (d, tt)))))
    (field (lit "enabled") (bool_codec false)
    (field (lit "ttl_secs") (u64 3600)
    (field (lit "backend") (enum_codec memory_names Kind_Memory)
    (field (lit "redis_url") optional_codec no_fields)))).

#[export] Instance session_memory_laws : CodecLaws session_memory_codec.
Proof. struct_iso. Qed.

Definition policy_codec : Codec PolicySection :=
  struct
    (λ '(a, (b, (c, (d, (e, (f, (g, (h, (i, (j, _)))))))))), mkPolicySection a b c d e f g h i j)
    (λ '(mkPolicySection a b c d e f g h i j), (a, (b, (c, (d, (e, (f, (g, (h, (i, (j, tt)))))))))))
    (field (lit "tools") tools_codec
    (field (lit "redact") strings_codec
    (field (lit "redact_regex") strings_codec
    (field (lit "fail_mode") (enum_codec fail_mode_names Fail_Closed)
    (field (lit "decision_timeout_ms") (u64 5000)
    (field (lit "on_malformed_event") (enum_codec malformed_names Malformed_Terminate)
    (field (lit "session_memory") session_memory_codec
    (field (lit "backend") (enum_codec backend_names Backend_Ruleset)
    (field (lit "cel") cel_codec
    (field (lit "rego") rego_codec no_fields)))))))))).

#[export] Instance policy_laws : CodecLaws policy_codec.
Proof. struct_iso. Qed.

Definition observability_codec : Codec ObservabilityConfig :=
  struct (λ '(a, (b, (c, _))), mkObservabilityConfig a b c) (λ '(mkObservabilityConfig a b c), (a, (b, (c, tt))))
    (field (lit "logging")
       (struct (λ '(a, (b, (c, _))), mkLoggingConfig a b c) (λ '(mkLoggingConfig a b c), (a, (b, (c, tt))))
          (field (lit "enabled") (bool_codec true)
          (field (lit "format") (enum_codec log_format_names Format_Pretty)
          (field (lit "level") (string_codec (lit "info")) no_fields))))
    (field (lit "metrics")
       (struct (λ '(a, (b, (c, _))), mkMetricsConfig a b c) (λ '(mkMetricsConfig a b c), (a, (b, (c, tt))))
          (field (lit "enabled") (bool_codec false)
          (field (lit "exporter") (enum_codec exporter_names Exporter_Prometheus)
          (field (lit "bind") (string_codec (lit "0.0.0.0:9090")) no_fields))))
    (field (lit "tracing")
       (struct (λ '(a, (b, (c, _))), mkTracingConfig a b c) (λ '(mkTracingConfig a b c), (a, (b, (c, tt))))
          (field (lit "enabled") (bool_codec false)
          (field (lit "endpoint") (string_codec (lit "http://localhost:4317"))
          (field (lit "service_name") (string_codec (lit "agate-server")) no_fields)))) no_fields))).

#[export] Instance observability_laws : CodecLaws observability_codec.
Proof.
  apply struct_laws; [|by intros []|by intros (? & ? & ? & [])].
  repeat (apply field_laws; [struct_iso| |done]). apply _.
Qed.

Definition tls_codec : Codec TlsConfig :=
  struct (λ '(a, (b, (c, _))), mkTlsConfig a b c) (λ '(mkTlsConfig a b c), (a, (b, (c, tt))))
    (field (lit "enabled") (bool_codec false)
    (field (lit "cert") (string_codec [])
    (field (lit "key") (string_codec []) no_fields))).

#[export] Instance tls_laws : CodecLaws tls_codec.
Proof. struct_iso. Qed.

Definition app_codec : Codec AppConfig :=
  struct (λ '(a, (b, (c, (d, (e, _))))), mkAppConfig a b c d e) (λ '(mkAppConfig a b c d e), (a, (b, (c, (d, (e, tt))))))
    (field (lit "proxy") proxy_codec
    (field (lit "audit") audit_codec
    (field (lit "policy") policy_codec
    (field (lit "observability") observability_codec
    (field (lit "tls") tls_codec no_fields))))).

#[export] Instance app_laws : CodecLaws app_codec.
Proof. struct_iso. Qed.

(** The defaults the codecs fill in are the [Default]s of the sections. *)
Lemma app_default : cd_default app_codec = AppConfig_default.
Proof. reflexivity. Qed.

(** ** Layers *)

Section layers.
Context `{F : Figment} `{!FigmentLaws}.
#[local] Set Default Proof Using "Type*".

(** A scalar of the later layer wins. *)
Lemma merge_scalar p a b v :
  at_path p b = Some v → is_dict v = false → at_path p (merge a b) = Some v.
Proof.
  intros Hb Hv. revert a b Hb. induction p as [|k p IH]; intros a b Hb; simpl in *.
  - injection Hb as ->. by rewrite merge_later by (by rewrite Hv, andb_false_r).
  - destruct b as [| | | | |db]; try done. destruct a as [| | | | |da]; try (by rewrite merge_later).
    simpl in Hb. rewrite merge_get. destruct (assoc k db) as [b'|]; [|done]. simpl in Hb.
    destruct (assoc k da) as [a'|]; simpl; [by apply IH|done].
Qed.

(** A dictionary of the later layer makes one. *)
Lemma merge_dictionary p a b v :
  at_path p b = Some v → is_dict v = true → ∃ w, at_path p (merge a b) = Some w ∧ is_dict w = true.
Proof.
  intros Hb Hv. revert a b Hb. induction p as [|k p IH]; intros a b Hb; simpl in *.
  - injection Hb as ->. eexists. split; [done|]. destruct v as [| | | | |dv]; try done.
    destruct a as [| | | | |da]; try (by rewrite merge_later). apply merge_dict.
  - destruct b as [| | | | |db]; try done. destruct a as [| | | | |da]; try (rewrite merge_later by done; eauto).
    simpl in Hb. rewrite merge_get. destruct (assoc k db) as [b'|]; [|done]. simpl in Hb.
    destruct (assoc k da) as [a'|]; simpl; [by apply IH|eauto].
Qed.

(** Where the later layer has nothing the earlier one is seen, unless the later one has
    something else on the way. *)
Lemma merge_absent p a b :
  at_path p b = None →
  (∃ q v, q `prefix_of` p ∧ q ≠ p ∧ at_path q b = Some v ∧ is_dict v = false)
  ∨ at_path p (merge a b) = at_path p a.
Proof.
  revert a b. induction p as [|k p IH]; intros a b Hb; simpl in *; [done|].
  destruct (is_dict b) eqn:Eb; [|by left; exists [], b; split_and!; [apply prefix_nil|..]].
  destruct b as [| | | | |db]; try done. simpl in Hb.
  destruct (is_dict a) eqn:Ea.
  2:{ right. rewrite merge_later by (by rewrite Ea). simpl. by rewrite Hb; destruct a. }
  destruct a as [| | | | |da]; try done. rewrite merge_get. simpl.
  destruct (assoc k db) as [b'|] eqn:Eb'; simpl in Hb; [|right; by destruct (assoc k da)].
  destruct (assoc k da) as [a'|]; simpl; [|by right].
  destruct (IH a' b' Hb) as [(q & v & Hq & Hne & Hat & Hv)|E]; [left|by right].
  exists (k :: q), v. split_and!; [by apply prefix_cons|congruence|simpl; by rewrite Eb'|done].
Qed.

(** What a codec reads from two layers. *)
Lemma codec_layers {A} (c : Codec A) `{!CodecLaws c} a b x p :
  cd_de c (merge a b) = Some x → p ∈ cd_paths c →
  at_path p (merge a b) = or_else (at_path p b) (at_path p a).
Proof.
  intros Hx Hp. destruct (at_path p b) as [v|] eqn:Eb; simpl.
  - destruct (is_dict v) eqn:Ev; [|by apply merge_scalar].
    destruct (merge_dictionary p a b v Eb Ev) as (w & Hw & Hd).
    by rewrite (cd_leaf _ _ _ _ Hx Hp Hw) in Hd.
  - destruct (merge_absent p a b Eb) as [(q & v & Hq & Hne & Hat & Hv)|E]; [|done].
    pose proof (merge_scalar q a b v Hat Hv) as Hm. by rewrite (cd_way _ _ _ _ _ Hx Hp Hq Hne Hm) in Hv.
Qed.

(** Nothing is seen behind a value that is no dictionary. *)
Lemma at_path_shadowed q p v w :
  q `prefix_of` p → q ≠ p → at_path q v = Some w → is_dict w = false → at_path p v = None.
Proof.
  intros [r ->] Hne. revert v. induction q as [|k q IH]; intros v; simpl.
  - intros [= ->] Hw. destruct r as [|k r]; [done|]. by destruct w.
  - destruct (fget k v) as [x|]; simpl; [|done]. apply IH. intros E. apply Hne. simpl. by rewrite <- E.
Qed.

(** The earlier layers as a codec reads them through a later one that has nothing to say. *)
Lemma earlier_layers {A} (c : Codec A) `{!CodecLaws c} d file env x p :
  cd_de c (merge (merge d file) env) = Some x → p ∈ cd_paths c → at_path p env = None →
  or_else (at_path p (merge (merge d file) env)) (at_path p d) = or_else (at_path p file) (at_path p d).
Proof.
  intros Hx Hp He. pose proof (codec_layers c _ _ _ p Hx Hp) as Hm. rewrite He in Hm. simpl in Hm. rewrite Hm.
  destruct (at_path p file) as [v|] eqn:Ef; simpl.
  - destruct (is_dict v) eqn:Ev; [|by rewrite (merge_scalar p d file v)].
    destruct (merge_dictionary p d file v Ef Ev) as (w & Hw & Hd). rewrite Hw in Hm.
    by rewrite (cd_leaf _ _ _ _ Hx Hp Hm) in Hd.
  - destruct (merge_absent p d file Ef) as [(q & v & Hq & Hne & Hat & Hv)| ->]; [|by destruct (at_path p d)].
    rewrite (at_path_shadowed q p (merge d file) v); [done..| |done]. by apply merge_scalar.
Qed.
End layers.

(** ** [load] *)

Section load.
Context `{F : Figment}.
(** [Toml::file]: the dictionary of the file, empty when there is none. *)
Context (toml_file : bytes → result bytes FValue).
(** [Env::prefixed(prefix).split(separator)] of the process's environment. *)
Context (env_provider : bytes → bytes → FValue).
(** The text of an extraction error. *)
Context (extract_error : FValue → bytes).

Definition DEFAULT_PATH : bytes := lit "/etc/agate/agate.toml".

Definition figment (file : FValue) : FValue :=
  merge (merge (cd_ser app_codec AppConfig_default) file) (env_provider (lit "AGATE__") (lit "__")).

Definition load (agate_config : option bytes) : result bytes AppConfig :=
  let path := default DEFAULT_PATH agate_config in
  file ← toml_file path;
  let layered := figment file in
  ok_or (extract_error layered) (cd_de app_codec layered).
End load.

(** C30: The layers take precedence as documented. In a configuration that loads, every scalar
    field has the value the environment gives it, or else the one of the file, or else
    its default; a value in the way of a section makes loading fail. *)
Theorem load_precedence `{F : Figment} `{!FigmentLaws} toml_file env_provider extract_error agate_config c p :
  load toml_file env_provider extract_error agate_config = Ok c → p ∈ cd_paths app_codec →
  ∃ file, toml_file (default DEFAULT_PATH agate_config) = Ok file
  ∧ at_path p (cd_ser app_codec c)
    = or_else (at_path p (env_provider (lit "AGATE__") (lit "__")))
        (or_else (at_path p file) (at_path p (cd_ser app_codec AppConfig_default))).
Proof.
  unfold load. intros Hl Hp. destruct (toml_file _) as [file|e]; [|discriminate Hl]. exists file. split; [done|].
  change (ok_or (extract_error (figment env_provider file)) (cd_de app_codec (figment env_provider file)) = Ok c) in Hl.
  destruct (cd_de app_codec (figment env_provider file)) as [x|] eqn:Hx; [|done]. injection Hl as ->.
  rewrite (cd_scalar _ _ _ Hx Hp), app_default. unfold figment in *.
  destruct (at_path p (env_provider _ _)) as [v|] eqn:Ee; cbn [or_else].
  - rewrite (codec_layers app_codec _ _ _ p Hx Hp), Ee. done.
  - by apply (earlier_layers app_codec _ _ _ _ _ Hx Hp).
Qed.

(** ** A file that says everything *)

(** Over any values of the type, written values are read back. *)
Class Overwrites `{F : Figment} {A} (c : Codec A) : Prop :=
  overwrites d a : cd_wf c a → cd_de c (merge (cd_ser c d) (cd_ser c a)) = Some a.

Class FieldsOverwrite `{F : Figment} {A} (f : Fields A) : Prop :=
  fields_overwrite look d a : fl_wf f a →
    (∀ k x y, (k, x) ∈ fl_ser f d → (k, y) ∈ fl_ser f a → look k = Some (merge x y)) → fl_de f look = Some a.

Section overwriting.
Context `{F : Figment} `{!FigmentLaws}.
#[local] Set Default Proof Using "Type*".

Lemma plain_overwrites {A} (c : Codec A) `{!CodecLaws c} : (∀ a, is_dict (cd_ser c a) = false) → Overwrites c.
Proof. intros Hd d a Ha. rewrite merge_later; [by apply cd_roundtrip|]. by rewrite !Hd. Qed.

#[export] Instance string_overwrites d : Overwrites (string_codec d).
Proof. by apply plain_overwrites; [apply _|]. Qed.
#[export] Instance bool_overwrites d : Overwrites (bool_codec d).
Proof. by apply plain_overwrites; [apply _|]. Qed.
#[export] Instance uint_overwrites bound d : Overwrites (uint_codec bound d).
Proof. by apply plain_overwrites; [apply _|]. Qed.
#[export] Instance optional_overwrites : Overwrites optional_codec.
Proof. by apply plain_overwrites; [apply _|intros []]. Qed.
#[export] Instance strings_overwrites : Overwrites strings_codec.
Proof. by apply plain_overwrites; [apply _|]. Qed.
#[export] Instance array_overwrites {A} (c : Codec A) `{!CodecLaws c} : Overwrites (array_codec c).
Proof. by apply plain_overwrites; [apply _|]. Qed.
#[export] Instance enum_overwrites {A} `{EqDecision A} (names : list (bytes * A)) d :
  EnumNames names → Overwrites (enum_codec names d).
Proof. intros ?. by apply plain_overwrites; [apply _|]. Qed.

#[export] Instance no_fields_overwrite : FieldsOverwrite no_fields.
Proof. by intros look [] [] _ _. Qed.

#[export] Instance field_overwrites {A B} name (c : Codec A) (rest : Fields B) :
  Overwrites c → FieldsOverwrite rest → FieldsOverwrite (field name c rest).
Proof.
  intros Hc Hr look [d e] [a b] [Ha Hb] Hl. simpl.
  rewrite (Hl name (cd_ser c d) (cd_ser c a)) by (by left). rewrite (overwrites d a Ha). simpl.
  rewrite (fields_overwrite look e b Hb); [done|]. intros k x y Hx Hy. by apply Hl; right.
Qed.

Lemma struct_overwrites {A R} (to : A → R) (from : R → A) (f : Fields A) `{!FieldsLaws f, !FieldsOverwrite f} :
  (∀ r, to (from r) = r) → Overwrites (struct to from f).
Proof.
  intros Hto d a Ha. simpl. pose proof (merge_get (fl_ser f (from d)) (fl_ser f (from a))) as Hg.
  pose proof (merge_dict (fl_ser f (from d)) (fl_ser f (from a))) as Hd.
  destruct (merge _ _) as [| | | | |m]; try done. simpl in Hg.
  rewrite (fields_overwrite _ (from d) (from a) Ha); [simpl; by rewrite Hto|].
  intros k x y Hx Hy. rewrite Hg.
  by rewrite (assoc_nodup _ k x), (assoc_nodup _ k y) by (done || (rewrite fl_keys; apply fl_nodup)).
Qed.

(** An empty layer on top changes nothing a struct sees. *)
Lemma merge_empty v : is_dict v = true → ∃ m, merge v (F_Dict []) = F_Dict m ∧ ∀ k, assoc k m = fget k v.
Proof.
  destruct v as [| | | | |d]; try done. intros _. pose proof (merge_get d []) as Hg.
  pose proof (merge_dict d []) as Hd. destruct (merge _ _) as [| | | | |m]; try done. exists m.
  split; [done|]. intros k. specialize (Hg k). simpl in *. rewrite Hg. by destruct (assoc k d).
Qed.

Lemma struct_written {A R} (to : A → R) (from : R → A) (f : Fields A) `{!FieldsLaws f, !FieldsOverwrite f} d a :
  (∀ r, to (from r) = r) → cd_wf (struct to from f) a →
  let c := struct to from f in
  cd_de c (merge (merge (cd_ser c d) (cd_ser c a)) (F_Dict [])) = Some a.
Proof.
  intros Hto Ha. simpl. pose proof (merge_get (fl_ser f (from d)) (fl_ser f (from a))) as Hg.
  destruct (merge_empty (merge (F_Dict (fl_ser f (from d))) (F_Dict (fl_ser f (from a))))) as (m & -> & Hm);
    [apply merge_dict|].
  rewrite (fields_overwrite _ (from d) (from a) Ha); [simpl; by rewrite Hto|].
  intros k x y Hx Hy. rewrite Hm, Hg.
  by rewrite (assoc_nodup _ k x), (assoc_nodup _ k y) by (done || (rewrite fl_keys; apply fl_nodup)).
Qed.

Lemma struct_alone {A R} (to : A → R) (from : R → A) (f : Fields A) `{!FieldsLaws f} d :
  (∀ r, to (from r) = r) → cd_wf (struct to from f) d →
  let c := struct to from f in
  cd_de c (merge (merge (cd_ser c d) (F_Dict [])) (F_Dict [])) = Some d.
Proof.
  intros Hto Hd. simpl.
  destruct (merge_empty (F_Dict (fl_ser f (from d)))) as (m & -> & Hm); [done|].
  destruct (merge_empty (F_Dict m)) as (m' & -> & Hm'); [done|].
  rewrite (fl_roundtrip _ (from d) Hd); [simpl; by rewrite Hto|].
  intros k v Hin. rewrite Hm'. simpl. rewrite Hm. simpl.
  apply assoc_nodup; [rewrite fl_keys; apply fl_nodup|done].
Qed.

Ltac struct_over := apply struct_overwrites; [apply _|apply _|by intros []].

#[export] Instance proxy_overwrites : Overwrites proxy_codec.
Proof. struct_over. Qed.
#[export] Instance audit_overwrites : Overwrites audit_codec.
Proof. struct_over. Qed.
#[export] Instance rule_overwrites : Overwrites rule_codec.
Proof. struct_over. Qed.
#[export] Instance tools_overwrites : Overwrites tools_codec.
Proof. struct_over. Qed.
#[export] Instance cel_overwrites : Overwrites cel_codec.
Proof. struct_over. Qed.
#[export] Instance rego_overwrites : Overwrites rego_codec.
Proof. struct_over. Qed.
#[export] Instance session_memory_overwrites : Overwrites session_memory_codec.
Proof. struct_over. Qed.
#[export] Instance policy_overwrites : Overwrites policy_codec.
Proof. struct_over. Qed.
#[export] Instance tls_overwrites : Overwrites tls_codec.
Proof. struct_over. Qed.
#[export] Instance observability_overwrites : Overwrites observability_codec.
Proof.
  apply struct_overwrites; [|repeat (apply field_overwrites; [apply struct_overwrites; [apply _|apply _|by intros []]|]);
    apply _|by intros []].
  repeat (apply field_laws; [struct_iso| |done]). apply _.
Qed.
End overwriting.

Lemma default_wf : cd_wf app_codec AppConfig_default.
Proof. vm_compute. repeat split; constructor. Qed.


(** ** Witnesses *)

Module ToyFigment.

Fixpoint toy_merge (a b : FValue) {struct b} : FValue :=
  match b with
  | F_Dict db =>
      match a with
      | F_Dict da =>
          F_Dict (List.filter (λ e, match assoc e.1 db with None => true | Some _ => false end) da
                  ++ (fix go (l : list (bytes * FValue)) : list (bytes * FValue) :=
                        match l with
                        | [] => []
                        | (k, y) :: l' =>
                            (k, match assoc k da with Some x => toy_merge x y | None => y end) :: go l'
                        end) db)
      | _ => b
      end
  | _ => b
  end.

#[export] Instance toy : Figment := {| merge := toy_merge |}.

Lemma assoc_app k l l' : assoc k (l ++ l') = or_else (assoc k l) (assoc k l').
Proof. induction l as [|[k' v] l IH]; simpl; [done|]. by case_bool_decide. Qed.

Lemma assoc_filter k l db :
  assoc k (List.filter (λ e, match assoc e.1 db with None => true | Some _ => false end) l)
  = match assoc k db with None => assoc k l | Some _ => None end.
Proof.
  induction l as [|[k' v] l IH]; simpl; [by case_match|].
  case_bool_decide as E; [subst k'|].
  - destruct (assoc k db) eqn:Ek; simpl; [done|]. by rewrite bool_decide_eq_true_2.
  - destruct (assoc k' db); simpl; [done|]. by rewrite bool_decide_eq_false_2.
Qed.

#[export] Instance toy_laws : FigmentLaws.
Proof.
  split; [done| |].
  - intros a b key. simpl. rewrite assoc_app, assoc_filter.
    assert (∀ l, assoc key ((fix go (l : list (bytes * FValue)) : list (bytes * FValue) :=
                   match l with
                   | [] => []
                   | (k, y) :: l' => (k, match assoc k a with Some x => toy_merge x y | None => y end) :: go l'
                   end) l)
      = match assoc key l with
        | Some y => Some (match assoc key a with Some x => toy_merge x y | None => y end)
        | None => None
        end) as Hgo.
    { intros l. induction l as [|[k y] l IH]; [done|]. simpl. case_bool_decide as E; [by subst k|done]. }
    rewrite Hgo. destruct (assoc key b), (assoc key a); done.
  - intros a b. by destruct a, b.
Qed.

(** The file sets the endpoint and the format of the log; the environment another endpoint. *)
Definition file : FValue :=
  F_Dict [(lit "proxy", F_Dict [(lit "agent_endpoint", F_String (lit "http://from-file/run"))]);
          (lit "observability", F_Dict [(lit "logging", F_Dict [(lit "format", F_String (lit "json"))])])].
Definition env : FValue :=
  F_Dict [(lit "proxy", F_Dict [(lit "agent_endpoint", F_String (lit "http://from-env/run"))])].

Definition loaded : result bytes AppConfig := load (λ _, Ok file) (λ _ _, env) (λ _, []) None.
End ToyFigment.

#[local] Existing Instances ToyFigment.toy ToyFigment.toy_laws.

Lemma load_precedence_witness :
  ∃ c, ToyFigment.loaded = Ok c
  ∧ at_path [lit "proxy"; lit "agent_endpoint"] (cd_ser app_codec c) = Some (F_String (lit "http://from-env/run"))
  ∧ at_path [lit "observability"; lit "logging"; lit "format"] (cd_ser app_codec c) = Some (F_String (lit "json"))
  ∧ at_path [lit "proxy"; lit "bind"] (cd_ser app_codec c) = Some (F_String (lit "0.0.0.0:8080")).
Proof.
  assert (is_ok ToyFigment.loaded = true) as Hok by (vm_compute; reflexivity).
  destruct ToyFigment.loaded as [c|] eqn:E; [|discriminate Hok]. exists c. split; [reflexivity|].
  assert (∀ p, p ∈ cd_paths app_codec → at_path p (cd_ser app_codec c)
    = or_else (at_path p ToyFigment.env)
        (or_else (at_path p ToyFigment.file) (at_path p (cd_ser app_codec AppConfig_default)))) as Hp.
  { intros p Hp.
    destruct (load_precedence (λ _, Ok ToyFigment.file) (λ _ _, ToyFigment.env) (λ _, []) None c p E Hp)
      as (f & Hf & ->). injection Hf as <-. reflexivity. }
  split; [|split]; (rewrite Hp; [vm_compute; reflexivity|]);
    refine (bool_decide_eq_true_1 _ _); vm_compute; reflexivity.
Defined.

