(* ===== verification/Startup.v ===== *)
(** * Startup: connecting, readiness and the policy watch
    (crates/agate-audit/src/infrastructure/persistence/postgres, crates/agate-server/src:
    presentation/http/readiness.rs, infrastructure/policy/policy_watch.rs, main.rs)

    The retried first connection to the store, the readiness probe over it, and the tasks
    that reload the policy file when it changes or on SIGHUP, as a transition system
    interleaved with the edits.  The pool, the file system and its notifications are the environment. *)
From stdpp Require Import options.
From S2P Require Import Prelude Crypto Merkle TransparencyLog AuditStore Ports Inspector Stream.
From S2P Require Import Http Config.

(** ** Connecting to the store *)

(** Seconds are at most [u64::MAX]; the product of a [Duration] panics beyond ([None]). *)
Definition backoff_of (base : N) (attempt : N) : option N :=
  let d := (base * 2 ^ N.min attempt 6)%N in
  if (d <? 2 ^ 64)%N then Some d else None.

Section pool.
(** The outcome of the [n]-th attempt to connect. *)
Context {Pool : Type} (attempts : N → result bytes Pool).

(** The loop of [connect_pool]: the result and the pauses made; [None] is a panic. The
    fuel is the number of retries left. *)
Fixpoint connect_loop (config : PoolConfig) (fuel : nat) (attempt : N) :
    option (result AuditError Pool * list N) :=
  match attempts attempt with
  | Ok pool => Some (Ok pool, [])
  | Err error =>
      if (pool_connect_max_retries config <=? attempt)%N then Some (Err (Storage error), [])
      else
        match fuel with
        | O => None
        | S fuel' =>
            backoff ← backoff_of (pool_connect_backoff config) attempt;
            '(r, pauses) ← connect_loop config fuel' (attempt + 1)%N;
            Some (r, backoff :: pauses)
        end
  end.

Definition connect_pool (config : PoolConfig) : option (result AuditError Pool * list N) :=
  connect_loop config (N.to_nat (pool_connect_max_retries config)) 0.
End pool.

(** [Storage::connect]: connect, then migrate. *)
Definition Storage_connect {Pool} (attempts : N → result bytes Pool)
    (run_migrations : Pool → result AuditError unit) (config : PoolConfig) :
    option (result AuditError Pool) :=
  '(r, _) ← connect_pool attempts config;
  Some (pool ← r; _ ← run_migrations pool; Ok pool).

(** ** Readiness *)

(** [PgHealthCheck::check]: a pooled connection can be acquired. *)
Definition health_check {Conn} (acquired : result bytes Conn) : result AuditError unit :=
  map_err Storage ((λ _, tt) <$> acquired).

Definition readyz (health : result AuditError unit) : Response :=
  match health with
  | Ok _ => text_response 200 (lit "ready")
  | Err _ => text_response 503 (lit "not ready: backing store unavailable")
  end.

(** ** The policy watch *)

(** [mpsc::channel(8)]. *)
Definition WATCH_CAPACITY : N := 8.

(** The watcher's callback: an event on our file signals, unless the channel is full. *)
Definition on_event (file_name : bytes) (event : result bytes (list (option bytes))) (signals : N) : N :=
  match event with
  | Err _ => signals
  | Ok paths =>
      if existsb (λ p, bool_decide (p = Some file_name)) paths then
        if (signals <? WATCH_CAPACITY)%N then (signals + 1)%N else signals
      else signals
  end.

#[global] Arguments on_event : simpl never.

(** Where the watching task is in its loop: waiting for a signal, in the pause after one,
    past the draining, or in a reload that has read the file and not yet stored. *)
Inductive WatchPhase (C : Type) := Waiting | Debouncing | Emptied | Loaded (c : C).
Arguments Waiting {C}.
Arguments Debouncing {C}.
Arguments Emptied {C}.
Arguments Loaded {C} _.

(** The content of the file, the policy in force, the changes the directory has not yet
    reported, the signals queued, the two tasks ([wa_hup] is what a reload on SIGHUP has
    read and not yet stored), and as history the contents read, the contents stored and
    the number of SIGHUPs. *)
Record Watch (C P : Type) := mkWatch {
  wa_file : C;
  wa_policy : P;
  wa_unreported : N;
  wa_signals : N;
  wa_phase : WatchPhase C;
  wa_hup : option C;
  wa_read : list C;
  wa_stored : list C;
  wa_hups : nat;
}.
Arguments mkWatch {C P} _ _ _ _ _ _ _ _ _.
Arguments wa_file {C P} _.
Arguments wa_policy {C P} _.
Arguments wa_unreported {C P} _.
Arguments wa_signals {C P} _.
Arguments wa_phase {C P} _.
Arguments wa_hup {C P} _.
Arguments wa_read {C P} _.
Arguments wa_stored {C P} _.
Arguments wa_hups {C P} _.

Section watch.
(** [reload c p]: the policy after [p] once a reload that read [c] is through. *)
Context {C P : Type} (reload : C → P → P) (file_name : bytes).

(** The steps of the watching task, until the shutdown token ends it: it takes a signal,
    drains the channel after its pause, and reloads, reading the file and then storing
    what it makes of it. *)
Inductive task_step : Watch C P → Watch C P → Prop :=
| Take f p u s h r t k :
    (0 < s)%N →
    task_step (mkWatch f p u s Waiting h r t k) (mkWatch f p u (s - 1) Debouncing h r t k)
| Drain f p u s h r t k :
    task_step (mkWatch f p u s Debouncing h r t k) (mkWatch f p u 0 Emptied h r t k)
| Read f p u s h r t k :
    task_step (mkWatch f p u s Emptied h r t k) (mkWatch f p u s (Loaded f) h (r ++ [f]) t k)
| Store c f p u s h r t k :
    task_step (mkWatch f p u s (Loaded c) h r t k) (mkWatch f (reload c p) u s Waiting h r (t ++ [c]) k).

(** The task of the SIGHUP: a signal makes it read the file, and then store. *)
Inductive hup_step : Watch C P → Watch C P → Prop :=
| HupRead f p u s ph r t k :
    hup_step (mkWatch f p u s ph None r t k) (mkWatch f p u s ph (Some f) (r ++ [f]) t (S k))
| HupStore c f p u s ph r t k :
    hup_step (mkWatch f p u s ph (Some c) r t k) (mkWatch f (reload c p) u s ph None r (t ++ [c]) k).

(** The directory: the file is written, a write is reported, something else is. *)
Inductive directory_step : Watch C P → Watch C P → Prop :=
| Edit c f p u s ph h r t k :
    directory_step (mkWatch f p u s ph h r t k) (mkWatch c p (u + 1) s ph h r t k)
| Report paths f p u s ph h r t k :
    (0 < u)%N → Some file_name ∈ paths →
    directory_step (mkWatch f p u s ph h r t k)
      (mkWatch f p (u - 1) (on_event file_name (Ok paths) s) ph h r t k)
| Other event f p u s ph h r t k :
    (∀ paths, event = Ok paths → Some file_name ∉ paths) →
    directory_step (mkWatch f p u s ph h r t k) (mkWatch f p u (on_event file_name event s) ph h r t k).

Inductive watch_step : Watch C P → Watch C P → Prop :=
| Task w w' : task_step w w' → watch_step w w'
| Hup w w' : hup_step w w' → watch_step w w'
| Directory w w' : directory_step w w' → watch_step w w'.
End watch.

(** ** The retries end *)

(** The pause after the [i]-th failure. *)
Definition pause (config : PoolConfig) (i : N) : N := (pool_connect_backoff config * 2 ^ N.min i 6)%N.

Lemma pause_bound config i : (pause config i ≤ 64 * pool_connect_backoff config)%N.
Proof.
  unfold pause. assert (2 ^ N.min i 6 ≤ 2 ^ 6)%N by (apply N.pow_le_mono_r; lia).
  change (2 ^ 6)%N with 64%N in *. nia.
Qed.

Section retries.
Context {Pool : Type} (attempts : N → result bytes Pool) (config : PoolConfig).
Context (fits : (64 * pool_connect_backoff config < 2 ^ 64)%N).
#[local] Set Default Proof Using "Type*".

Lemma backoff_fits i : backoff_of (pool_connect_backoff config) i = Some (pause config i).
Proof.
  unfold backoff_of. pose proof (pause_bound config i) as H. unfold pause in *.
  destruct (N.ltb_spec (pool_connect_backoff config * 2 ^ N.min i 6)%N (2 ^ 64)%N); [done|lia].
Qed.

Lemma connect_loop_spec fuel attempt :
  (attempt + N.of_nat fuel = pool_connect_max_retries config)%N →
  ∃ n, n ≤ fuel
    ∧ (∀ i, i < n → is_ok (attempts (attempt + N.of_nat i)%N) = false)
    ∧ connect_loop attempts config fuel attempt
      = Some (map_err Storage (attempts (attempt + N.of_nat n)%N),
              (λ i, pause config (attempt + N.of_nat i)%N) <$> seq 0 n)
    ∧ (is_ok (attempts (attempt + N.of_nat n)%N) = true ∨ n = fuel).
Proof.
  revert attempt. induction fuel as [|fuel IH]; intros attempt Hf.
  - exists 0. rewrite N.add_0_r. simpl. split_and!; [lia..| |by right].
    destruct (attempts attempt); simpl; [done|].
    destruct (N.leb_spec (pool_connect_max_retries config) attempt); [done|lia].
  - destruct (attempts attempt) as [pool|error] eqn:Ea.
    + exists 0. rewrite N.add_0_r. simpl. rewrite Ea. split_and!; [lia..|done|by left].
    + destruct (IH (attempt + 1)%N) as (n & Hn & Hfail & Hloop & Hend); [lia|].
      assert (∀ i : nat, (attempt + 1 + N.of_nat i = attempt + N.of_nat (S i))%N) as Hs by lia.
      exists (S n). split_and!; [lia|..].
      * intros [|i] Hi; [by rewrite N.add_0_r, Ea|]. rewrite <- Hs. apply Hfail. lia.
      * cbn [connect_loop]. rewrite Ea.
        destruct (N.leb_spec (pool_connect_max_retries config) attempt); [lia|].
        rewrite backoff_fits. cbn [mbind option_bind]. rewrite Hloop. cbn [mbind option_bind].
        rewrite Hs. cbn [seq]. rewrite fmap_cons, N.add_0_r, <- (fmap_S_seq 0 n), <- list_fmap_compose.
        do 3 f_equal. apply list_fmap_ext. intros j i _. simpl. f_equal. lia.
      * rewrite <- Hs. destruct Hend as [?| ->]; [by left|by right].
Qed.
End retries.

(** C40: the first connection is tried a bounded number of times. If the longest pause
    fits a [Duration], [connect_pool] returns: with the pool of the first attempt that
    succeeds, or with the error of the last one when all [connect_max_retries + 1] fail.
    Before the [i]-th retry it pauses for the base doubled [i] times, six at most, and
    so no longer than 64 times the base. *)
Theorem connect_pool_returns {Pool : Type} (attempts : N → result bytes Pool) config :
  (64 * pool_connect_backoff config < 2 ^ 64)%N →
  ∃ n : nat, (N.of_nat n ≤ pool_connect_max_retries config)%N
    ∧ (∀ i, i < n → is_ok (attempts (N.of_nat i)) = false)
    ∧ connect_pool attempts config
      = Some (map_err Storage (attempts (N.of_nat n)), (λ i, pause config (N.of_nat i)) <$> seq 0 n)
    ∧ (is_ok (attempts (N.of_nat n)) = true ∨ N.of_nat n = pool_connect_max_retries config)
    ∧ Forall (λ p, p ≤ 64 * pool_connect_backoff config)%N ((λ i, pause config (N.of_nat i)) <$> seq 0 n).
Proof.
  intros Hfit.
  destruct (connect_loop_spec attempts config Hfit (N.to_nat (pool_connect_max_retries config)) 0)
    as (n & Hn & Hfail & Hloop & Hend); [lia|].
  exists n. split_and!; [lia|done|exact Hloop|destruct Hend as [?| ->]; [by left|right; lia]|].
  apply Forall_fmap, Forall_true. intros i. apply pause_bound.
Qed.

(** ** No edit is missed *)

Section watched.
Context {C P : Type} (reload : C → P → P) (file_name : bytes).

Definition started (c0 : C) (p0 : P) : Watch C P := mkWatch c0 p0 0 0 Waiting None [] [] 0.

(** Nothing is under way: no change to report, no signal, no reload. *)
Definition quiet (w : Watch C P) : Prop :=
  wa_unreported w = 0%N ∧ wa_signals w = 0%N ∧ wa_phase w = Waiting ∧ wa_hup w = None.

(** The contents read by a reload that is still to store them. *)
Definition in_flight (w : Watch C P) : list C :=
  (match wa_phase w with Loaded c => [c] | _ => [] end) ++ option_list (wa_hup w).

(** Something is on the way that will have the watching task read the file. *)
Definition due (w : Watch C P) : Prop :=
  (0 < wa_unreported w)%N ∨ (0 < wa_signals w)%N ∨ wa_phase w = Debouncing ∨ wa_phase w = Emptied.

Record watch_inv (c0 : C) (p0 : P) (w : Watch C P) : Prop := {
  inv_policy : wa_policy w = foldl (flip reload) p0 (wa_stored w);
  inv_stored : wa_stored w ++ in_flight w ≡ₚ wa_read w;
  inv_order : wa_hups w = 0 → wa_hup w = None ∧ wa_stored w ++ in_flight w = wa_read w;
  inv_read : last (c0 :: wa_read w) = Some (wa_file w) ∨ due w;
}.

Lemma on_event_signals event signals : (signals ≤ on_event file_name event signals)%N.
Proof. unfold on_event. repeat case_match; lia. Qed.

Lemma on_event_more event signals : (on_event file_name event signals ≤ signals + 1)%N.
Proof. unfold on_event. repeat case_match; lia. Qed.

Lemma on_event_ours paths signals :
  Some file_name ∈ paths → (0 < on_event file_name (Ok paths) signals)%N.
Proof.
  intros Hin. unfold on_event. replace (existsb _ paths) with true.
  - unfold WATCH_CAPACITY. destruct (N.ltb_spec signals 8); lia.
  - symmetry. apply existsb_exists. exists (Some file_name).
    split; [by apply list_elem_of_In|by apply bool_decide_eq_true].
Qed.

Lemma last_read (c0 c : C) read : last (c0 :: read ++ [c]) = Some c.
Proof. apply (last_snoc c (c0 :: read)). Qed.

Lemma task_step_inv c0 p0 w w' : task_step reload w w' → watch_inv c0 p0 w → watch_inv c0 p0 w'.
Proof.
  intros Hs [Hp Hst Ho Hr]. destruct Hs as [f p u s h r t k Hs|f p u s h r t k|f p u s h r t k|c f p u s h r t k];
    unfold in_flight, due in *; simpl in *.
  - split; unfold in_flight, due; simpl; auto 8.
  - split; unfold in_flight, due; simpl; auto 8.
  - split; unfold in_flight; simpl;
      [done| |by intros Hk; destruct (Ho Hk) as [-> <-]; rewrite app_nil_r|left; apply last_read].
    rewrite <- Hst. solve_Permutation.
  - split; unfold in_flight; simpl.
    + by rewrite foldl_app, <- Hp.
    + by rewrite <- app_assoc.
    + intros Hk. destruct (Ho Hk) as [-> <-]. split; [done|]. by rewrite <- app_assoc.
    + unfold due. simpl. destruct Hr as [?|[?|[?|[?|?]]]]; auto; done.
Qed.

Lemma hup_step_inv c0 p0 w w' : hup_step reload w w' → watch_inv c0 p0 w → watch_inv c0 p0 w'.
Proof.
  intros Hs [Hp Hst Ho Hr]. destruct Hs as [f p u s ph r t k|c f p u s ph r t k];
    unfold in_flight, due in *; simpl in *.
  - split; unfold in_flight; simpl; [done| |done|left; apply last_read].
    rewrite <- Hst. solve_Permutation.
  - split; unfold in_flight; simpl; [by rewrite foldl_app, <- Hp| |by intros Hk; destruct (Ho Hk)|done].
    rewrite <- Hst. solve_Permutation.
Qed.

Lemma directory_step_inv c0 p0 w w' :
  directory_step file_name w w' → watch_inv c0 p0 w → watch_inv c0 p0 w'.
Proof.
  intros Hs [Hp Hst Ho Hr]. destruct Hs as [c f p u s ph h r t k|paths f p u s ph h r t k Hu Hin|event f p u s ph h r t k _];
    unfold in_flight, due in *; simpl in *; split; try done; unfold due; simpl.
  - right; left. lia.
  - pose proof (on_event_ours paths s Hin). auto.
  - pose proof (on_event_signals event s). destruct Hr as [?|[?|[?|?]]]; [by left|right..]; [by left|right; left; lia|auto].
Qed.

Lemma watch_steps_inv c0 p0 w : rtc (watch_step reload file_name) (started c0 p0) w → watch_inv c0 p0 w.
Proof.
  apply (rtc_ind_r (R := watch_step reload file_name) (watch_inv c0 p0) (started c0 p0)).
  - split; simpl; auto.
  - intros v v' _ [? ? Hs|? ? Hs|? ? Hs]; [by apply task_step_inv|by apply hup_step_inv|by apply directory_step_inv].
Qed.

(** What the tasks and the directory do of their own accord, with no new edit, no signal
    of the operator and no other change. *)
Inductive own_step : Watch C P → Watch C P → Prop :=
| OwnTask w w' : task_step reload w w' → own_step w w'
| OwnHup w w' : hup_step reload w w' → wa_hup w ≠ None → own_step w w'
| OwnReport w w' : directory_step file_name w w' → (wa_unreported w' < wa_unreported w)%N → own_step w w'.

Definition work (w : Watch C P) : nat :=
  5 * N.to_nat (wa_unreported w) + 4 * N.to_nat (wa_signals w)
  + (match wa_phase w with Waiting => 0 | Debouncing => 3 | Emptied => 2 | Loaded _ => 1 end)
  + (match wa_hup w with Some _ => 1 | None => 0 end).

Lemma own_step_works w w' : own_step w w' → work w' < work w ∧ wa_file w' = wa_file w.
Proof.
  unfold work. intros [v v' Hs|v v' Hs Hh|v v' Hs Hu].
  - destruct Hs; simpl; split; try done; lia.
  - destruct Hs as [f p u s ph r t k|c f p u s ph r t k]; simpl in *; [done|].
    split; [lia|done].
  - destruct Hs as [c f p u s ph h r t k|paths f p u s ph h r t k|event f p u s ph h r t k]; simpl in *; [lia| |lia].
    pose proof (on_event_more (Ok paths) s). split; [lia|done].
Qed.

Lemma own_steps_end n w w' : nsteps own_step n w w' → n + work w' ≤ work w ∧ wa_file w' = wa_file w.
Proof.
  induction 1 as [|n w v w' Hs _ [IH1 IH2]]; [done|].
  destruct (own_step_works _ _ Hs) as [? ?]. split; [lia|congruence].
Qed.

Lemma own_step_possible w : quiet w ∨ ∃ w', own_step w w'.
Proof.
  destruct w as [f p u s ph h r t k]. unfold quiet. simpl.
  destruct h as [c|]; [right; eexists; by apply OwnHup; [apply HupStore|]|].
  destruct ph as [| | |c].
  - destruct (decide (s = 0)%N) as [->|Hs]; [|right; eexists; apply OwnTask, Take; lia].
    destruct (decide (u = 0)%N) as [->|Hu]; [by left|right].
    eexists. eapply OwnReport; [apply (Report _ [Some file_name]); [lia|apply list_elem_of_here]|simpl; lia].
  - right. eexists. apply OwnTask, Drain.
  - right. eexists. apply OwnTask, Read.
  - right. eexists. apply OwnTask, Store.
Qed.
End watched.


(** With a SIGHUP that order is lost: reading the file and storing the policy are not one
    step, and nothing keeps the two tasks from overlapping. A reload on SIGHUP that read
    the file before an edit may store after the reload the edit caused, and leaves the
    policy of the old content in force, with nothing under way to replace it. *)
Lemma overlapping_reload_is_stale {C P : Type} (reload : C → P → P) file_name (old new : C) p0 :
  ∃ w, rtc (watch_step reload file_name) (started old p0) w ∧ quiet w
    ∧ wa_file w = new ∧ wa_policy w = reload old (reload new p0).
Proof.
  exists (mkWatch new (reload old (reload new p0)) 0 0 Waiting None [old; new] [new; old] 1).
  split_and!; [|done..]. unfold started.
  eapply rtc_l; [apply Hup, HupRead|]. eapply rtc_l; [apply Directory, (Edit _ new)|].
  eapply rtc_l; [apply Directory, (Report _ [Some file_name]); [lia|apply list_elem_of_here]|].
  replace (on_event file_name (Ok [Some file_name]) 0) with 1%N
    by (unfold on_event; simpl; by rewrite bool_decide_true).
  eapply rtc_l; [apply Task, Take; lia|]. eapply rtc_l; [apply Task, Drain|].
  eapply rtc_l; [apply Task, Read|]. eapply rtc_l; [apply Task, Store|].
  eapply rtc_l; [apply Hup, HupStore|]. apply rtc_refl.
Qed.

(** ** Witnesses *)

Definition demo_pool : PoolConfig := mkPoolConfig 10 30 2 1.

(** Reachable from the second retry on. *)
Definition demo_attempts (n : N) : result bytes unit := if (n <? 2)%N then Err (lit "refused") else Ok tt.

Lemma connect_pool_returns_witness :
  ∃ n : nat, (N.of_nat n ≤ 2)%N
    ∧ connect_pool demo_attempts demo_pool
      = Some (map_err Storage (demo_attempts (N.of_nat n)), (λ i, pause demo_pool (N.of_nat i)) <$> seq 0 n).
Proof.
  destruct (connect_pool_returns demo_attempts demo_pool) as (n & ? & _ & ? & _); [reflexivity|].
  exists n. split; assumption.
Defined.

