(* ===== verification/Standalone.v ===== *)
(** * Standalone: the two services run by themselves
    (crates/agate-audit/src: main.rs, setup/configs/, setup/bootstrap/http.rs;
    crates/agate-proxy/src: main.rs, setup/bootstrap/http.rs, setup/ioc/container.rs,
    infrastructure/audit/noop.rs)

    The audit service and the proxy also have binaries of their own, configured by a
    few environment variables: their start-up in its order, and the proxy with the
    adapters it then has, a policy that allows everything, no audit and no memory. *)
From stdpp Require Import options.
From S2P Require Import Prelude Crypto TransparencyLog AuditStore Text Json Sse Run Ssrf AgUi Ports SessionMemory.
From S2P Require Import Inspector Stream Policy Engines Enforcement Http Config Startup.

(** ** Settings from the environment *)

(** [std::env::var]; a value that is not Unicode counts as unset. *)
Definition Vars : Type := bytes → option bytes.

Inductive Panic :=
| Panic_Unset (name : bytes)
| Panic_Store (error : AuditError)
| Panic_Backoff
| Panic_Bind (error : bytes)
| Panic_Serve (error : bytes).

Definition PoolConfig_default : PoolConfig := mkPoolConfig 10 30 10 1.

Definition PostgresConfig_new (url : bytes) : bytes * PoolConfig := (url, PoolConfig_default).

Definition PostgresConfig_from_env (var : Vars) : result Panic (bytes * PoolConfig) :=
  PostgresConfig_new <$> ok_or (Panic_Unset (lit "DATABASE_URL")) (var (lit "DATABASE_URL")).

Definition HttpConfig_from_env (var : Vars) : bytes :=
  default (lit "0.0.0.0:8080") (var (lit "BIND_ADDR")).

(** [AppConfig] of the audit service. *)
Record AuditAppConfig := mkAuditAppConfig {
  aac_postgres : bytes * PoolConfig;
  aac_bind_addr : bytes;
}.

Definition AuditAppConfig_from_env (var : Vars) : result Panic AuditAppConfig :=
  postgres ← PostgresConfig_from_env var;
  Ok (mkAuditAppConfig postgres (HttpConfig_from_env var)).

Definition ProxyConfig_from_env (var : Vars) : result Panic ProxyConfig :=
  agent_endpoint ← ok_or (Panic_Unset (lit "AGENT_ENDPOINT")) (var (lit "AGENT_ENDPOINT"));
  Ok (ProxyConfig_new agent_endpoint (default (lit "0.0.0.0:8080") (var (lit "BIND_ADDR")))).

(** ** The entry points *)

(** What a process does to the outside, in order. *)
Inductive Action :=
| Connected (url : bytes)
| Bound (addr : bytes)
| Served.

Definition act (a : Action) : ST Panic (list Action) unit := λ done, (Ok tt, done ++ [a]).
Definition raise {A} (r : result Panic A) : ST Panic (list Action) A := λ done, (r, done).

Section entry.
(** The database at a URL, the listener and the server of it; [serve] returns only when it fails. *)
Context (attempts : bytes → N → result bytes unit) (run_migrations : unit → result AuditError unit).
Context (bind : bytes → result bytes unit) (serve : bytes → result bytes unit).

Definition listen_and_serve (addr : bytes) : ST Panic (list Action) unit :=
  _ ← raise (map_err Panic_Bind (bind addr));
  _ ← act (Bound addr);
  _ ← raise (map_err Panic_Serve (serve addr));
  act Served.

Definition audit_main (var : Vars) : ST Panic (list Action) unit :=
  config ← raise (AuditAppConfig_from_env var);
  let '(url, pool) := aac_postgres config in
  _ ← raise match Storage_connect (attempts url) run_migrations pool with
            | None => Err Panic_Backoff
            | Some r => map_err Panic_Store r
            end;
  _ ← act (Connected url);
  listen_and_serve (aac_bind_addr config).

Definition proxy_main (var : Vars) : ST Panic (list Action) unit :=
  config ← raise (ProxyConfig_from_env var);
  listen_and_serve (pc_bind_addr config).
End entry.

(** ** The proxy with its own adapters *)

Definition allow_all_policy {W} : PolicyPort W := λ context event, mret (AllowAllPolicy_decide context event).

(** [NoopAuditSink]. *)
Definition noop_audit {W} : AuditSink W := λ _ _ _, mret tt.

#[local] Existing Instances allow_all_policy noop_audit noop_memory.

Section proxy.
Context (json : SerdeJson) (url_parse : bytes → option Url).
Context (order : gmap ToolCallId ToolCallBuffer → list (ToolCallId * ToolCallBuffer)).
Context (header_to_str : bytes → option bytes) (new_v5 : Uuid → bytes → Uuid).
Context {W : Type} `{!HostResolver W, !ProxyMetrics W, !UpstreamAgentClient W}.
Context (new_v4 : Eff W Uuid) {L : Type} (check_key : IpAddr → L → result N unit * L) (too_large : Response).

(** [build_app]: the routes around the container with the default adapters. *)
Definition build_app (config : ProxyConfig) : Request → Gate (W := W) (L := L) → Response * bool * Gate :=
  router json url_parse order header_to_str new_v5 new_v4 check_key too_large (ingress config).
End proxy.

(** ** Start-up *)

Lemma listen_spec bind serve addr done :
  listen_and_serve bind serve addr done =
  match bind addr with
  | Err e => (Err (Panic_Bind e), done)
  | Ok _ => match serve addr with
            | Err e => (Err (Panic_Serve e), done ++ [Bound addr])
            | Ok _ => (Ok tt, (done ++ [Bound addr]) ++ [Served])
            end
  end.
Proof. unfold listen_and_serve. rewrite !st_bindE. unfold raise, act. destruct (bind addr); [|done]. simpl. by destruct (serve addr). Qed.

Lemma audit_main_spec attempts run_migrations bind serve var done :
  audit_main attempts run_migrations bind serve var done =
  match var (lit "DATABASE_URL") with
  | None => (Err (Panic_Unset (lit "DATABASE_URL")), done)
  | Some url =>
      match Storage_connect (attempts url) run_migrations PoolConfig_default with
      | None => (Err Panic_Backoff, done)
      | Some (Err e) => (Err (Panic_Store e), done)
      | Some (Ok _) => listen_and_serve bind serve (HttpConfig_from_env var) (done ++ [Connected url])
      end
  end.
Proof.
  unfold audit_main, AuditAppConfig_from_env, PostgresConfig_from_env. rewrite st_bindE. unfold raise at 1.
  destruct (var (lit "DATABASE_URL")) as [url|]; [|done]. cbn -[Storage_connect HttpConfig_from_env].
  rewrite st_bindE. unfold raise at 1. by destruct (Storage_connect _ _ _) as [[]|].
Qed.

Lemma proxy_main_spec bind serve var done :
  proxy_main bind serve var done =
  match var (lit "AGENT_ENDPOINT") with
  | None => (Err (Panic_Unset (lit "AGENT_ENDPOINT")), done)
  | Some _ => listen_and_serve bind serve (HttpConfig_from_env var) done
  end.
Proof.
  unfold proxy_main, ProxyConfig_from_env. rewrite st_bindE. unfold raise at 1.
  by destruct (var (lit "AGENT_ENDPOINT")).
Qed.

Lemma listen_bound bind serve addr done addr' :
  Bound addr' ∈ (listen_and_serve bind serve addr done).2 → Bound addr' ∉ done →
  addr' = addr ∧ is_ok (bind addr) = true.
Proof.
  rewrite listen_spec. destruct (bind addr); [|set_solver]. destruct (serve addr); set_solver.
Qed.

(** A process listens only once everything before succeeded: the audit service on a store it
    is connected to and that is migrated, both only with their required variable set. *)
Lemma standalone_order attempts run_migrations bind serve var addr :
  (Bound addr ∈ (audit_main attempts run_migrations bind serve var []).2 →
   ∃ url pool, var (lit "DATABASE_URL") = Some url
     ∧ Storage_connect (attempts url) run_migrations PoolConfig_default = Some (Ok pool)
     ∧ addr = HttpConfig_from_env var ∧ is_ok (bind addr) = true)
  ∧ (Bound addr ∈ (proxy_main bind serve var []).2 →
     is_Some (var (lit "AGENT_ENDPOINT")) ∧ addr = HttpConfig_from_env var ∧ is_ok (bind addr) = true).
Proof.
  rewrite audit_main_spec, proxy_main_spec. split.
  - destruct (var (lit "DATABASE_URL")) as [url|]; [|set_solver].
    destruct (Storage_connect _ _ _) as [[pool|e]|] eqn:Ec; [|set_solver..].
    intros [-> Hb]%listen_bound; [|set_solver]. by exists url, pool.
  - destruct (var (lit "AGENT_ENDPOINT")); [|set_solver]. intros [-> Hb]%listen_bound; [done|set_solver].
Qed.

(** ** What the proxy by itself guards *)

(** The calls of the agent, made by nothing but the client, and what names resolve to. *)
Class ProxyFrames (W : Type) `{!HostResolver W, !ProxyMetrics W, !UpstreamAgentClient W} (new_v4 : Eff W Uuid)
    (dns : bytes → list IpAddr) := {
  calls : W → list RunRequest;
  calls_agent req w : calls (agent_run req w).2 = calls w ++ [req];
  calls_v4 w : calls (new_v4 w).2 = calls w;
  calls_resolve h w : calls (resolve h w).2 = calls w;
  calls_run w : calls (record_run w).2 = calls w;
  calls_inspected o w : calls (record_inspected o w).2 = calls w;
  calls_upstream e w : calls (record_upstream_error e w).2 = calls w;
  resolves h w : (resolve h w).1 = dns h;
}.

(** No URL in a text is one the guard refuses. *)
Definition safe_text (url_parse : bytes → option Url) (dns : bytes → list IpAddr) (text : bytes) : Prop :=
  Forall (token_safe url_parse dns) (tokens text).

Definition safe_event (url_parse : bytes → option Url) (dns : bytes → list IpAddr) (e : AgentEvent) : Prop :=
  match url_bearing_text e with Some text => safe_text url_parse dns text | None => True end.

Section guarded.
Context (json : SerdeJson) (url_parse : bytes → option Url).
Context (order : gmap ToolCallId ToolCallBuffer → list (ToolCallId * ToolCallBuffer)).
Context (header_to_str : bytes → option bytes) (new_v5 : Uuid → bytes → Uuid).
Context {W : Type} `{!HostResolver W, !ProxyMetrics W, !UpstreamAgentClient W} (new_v4 : Eff W Uuid).
Context (dns : bytes → list IpAddr) `{!ProxyFrames W new_v4 dns}.
#[local] Set Default Proof Using "Type*".

Lemma safe_allowed ctx e : safe_event url_parse dns e → allowed url_parse (W := W) ctx e.
Proof.
  unfold safe_event, allowed, judge, screen_urls, recall_tool, first_disallowed_url. intros Hs w.
  assert (∀ o : option bytes, match o with Some name => recall (W := W) (ctx_session ctx) name | None => mret None end
          = mret None) as -> by (by intros []).
  unfold mbind, eff_bind, mret, eff_ret. destruct (url_bearing_text e) as [t|]; [|done].
  pose proof (first_disallowed_spec url_parse dns resolves (tokens t) w) as Hf.
  destruct (first_disallowed url_parse (tokens t) w) as [[r|] w1]; cbn [fst] in Hf; [|done].
  by apply Hf in Hs.
Qed.

Lemma offered_pass ctx names (w : W) : screen_tools ctx names w = (None, w).
Proof. induction names as [|n ns IH]; [done|]. exact IH. Qed.

Lemma request_guard ctx rc (w : W) :
  (inspect_request url_parse ctx rc w).1 = Request_Allow ↔
  Forall (safe_text url_parse dns) (user_messages rc ++ hidden_fields rc).
Proof.
  unfold inspect_request, mbind at 1, eff_bind at 1. rewrite offered_pass. unfold mbind, eff_bind.
  pose proof (screen_texts_spec (W := W) (λ _ _, Allow) (λ _ _ _, eq_refl) url_parse dns resolves ctx
                (user_messages rc ++ hidden_fields rc) w) as Hs.
  destruct (screen_texts url_parse ctx _ w) as [[r|] w2]; cbn [fst] in *; unfold safe_text in *.
  - split; [done|]. intros Hf. enough (Some r = None) by done. apply Hs.
    eapply Forall_impl; [exact Hf|]. by intros t Ht.
  - split; [|done]. intros _. eapply Forall_impl; [by apply Hs|]. by intros t [Ht _].
Qed.

Lemma calls_request ctx rc w : calls (inspect_request url_parse ctx rc w).2 = calls w.
Proof.
  apply (keeps_inspect_request url_parse (λ w', calls w' = calls w)); try done;
    intros; intros w' <-; auto using calls_resolve.
Qed.

Lemma calls_stream items ctx settings w :
  calls (inspect_stream json url_parse order items ctx settings w).2 = calls w.
Proof.
  apply (keeps_stream_from json url_parse order (λ w', calls w' = calls w)); try done.
  - intros. apply keeps_judge_ports; intros; intros w' <-; auto using calls_resolve.
  - intros o w' <-. apply calls_inspected.
  - intros e w' <-. apply calls_upstream.
Qed.

Lemma calls_derive ns label w : calls (derive_uuid new_v5 new_v4 ns label w).2 = calls w.
Proof. destruct label; [done|apply calls_v4]. Qed.

(** How a run is answered, by what the agent says to the request if it may see it. *)
Definition relayed (settings : InspectionSettings) (req : RunRequest) (response : result ProxyError Response) : Prop :=
  ∃ w, match (agent_run req w).1 with
  | Err e => response = Err (ProxyError_Upstream e)
  | Ok items =>
      ∃ answer, response = Ok answer ∧ rs_status answer = 200%N
      ∧ ∀ chunks, items = Ok <$> chunks →
        let evs := received SseDecoder_new items in
        frames_fit (max_frame_bytes settings) SseDecoder_new chunks →
        Forall (readable json (malformed_mode settings)) evs →
        (∀ run, clean order (safe_event url_parse dns) (Run_new run (budgets settings))
                  (fragments_of json (malformed_mode settings) evs)) →
        sse_raw <$> evs ≡ₚ rs_frames answer
  end.

Lemma standalone_run settings headers body inbound w :
  (∀ m, order m ≡ₚ map_to_list m) → response_budget settings = unlimited →
  parse_request json body = Ok inbound →
  let req := mkRunRequest body (forwardable_headers header_to_str headers) in
  let safe := Forall (safe_text url_parse dns) (user_messages inbound ++ hidden_fields inbound) in
  let '(answer, w') := proxy_run json url_parse order header_to_str new_v5 new_v4 settings headers body w in
  (¬ safe → calls w' = calls w ∧ ∃ reason, answer = Err (ProxyError_Denied reason))
  ∧ (safe → calls w' = calls w ++ [req] ∧ relayed settings req answer).
Proof.
  intros Horder Hb Hp req safe. unfold proxy_run. rewrite Hp.
  unfold mbind, eff_bind, session_uuid_of, run_uuid_of.
  pose proof (calls_derive SESSION_NAMESPACE (thread_id inbound) w) as H1.
  destruct (derive_uuid _ _ _ (thread_id inbound) w) as [session w1]. cbn [snd] in *.
  pose proof (calls_derive RUN_NAMESPACE (rc_run_id inbound) w1) as H2.
  destruct (derive_uuid _ _ _ (rc_run_id inbound) w1) as [run w2]. cbn [snd] in *.
  pose proof (calls_run w2) as H3. destruct (record_run w2) as [[] w3]. cbn [snd] in *.
  set (ctx := mkInspectionContext _ _).
  pose proof (request_guard ctx inbound w3) as Hg. pose proof (calls_request ctx inbound w3) as H4.
  destruct (inspect_request url_parse ctx inbound w3) as [decision w4]. cbn [fst snd] in *. fold safe in Hg.
  destruct decision as [|reason].
  2:{ split; [|by intros ?%Hg]. intros _. split; [cbn; congruence|by exists reason]. }
  fold req. pose proof (calls_agent req w4) as H5. unfold relayed.
  destruct (agent_run req w4) as [[items|error] w5] eqn:Er; cbn [snd] in H5.
  - pose proof (calls_stream items ctx settings w5) as H6.
    destruct (inspect_stream json url_parse order items ctx settings w5) as [frames w6] eqn:Es.
    split; [intros Hn; by destruct Hn; apply Hg|]. intros _. split; [cbn in *; congruence|]. exists w4. rewrite Er. cbn [fst]. eexists. do 2 (split; [done|]).
    intros chunks -> Hf Hr Hc. cbn [rs_frames].
    pose proof (inspect_stream_all json url_parse order Horder settings ctx chunks w5) as Ha.
    rewrite Es in Ha. apply Ha; [|done..|]; [rewrite Hb; split; by left|].
    eapply clean_mono; [|apply Hc]. intros e. apply safe_allowed.
  - pose proof (calls_upstream error w5) as H6. destruct (record_upstream_error error w5) as [[] w6].
    split; [intros Hn; by destruct Hn; apply Hg|]. intros _. split; [cbn in *; congruence|]. exists w4. by rewrite Er.
Qed.
End guarded.


(** ** Witness *)

Module StandaloneDemo.
(** The calls of an agent that answers with the demo stream. *)
Definition world : Type := list RunRequest.
#[export] Instance resolver : HostResolver world := λ _ w, ([], w).
#[export] Instance metrics : ProxyMetrics world :=
  {| record_run := mret tt; record_upstream_error _ := mret tt; record_inspected _ := mret tt |}.
#[export] Instance agent : UpstreamAgentClient world := λ req w, (Ok (Ok <$> demo_chunks), w ++ [req]).
#[export] Instance frames : ProxyFrames world (mret 1%N) (λ _, []).
Proof. by refine {| calls := λ w, w |}. Defined.

Definition request : Request := mkRequest (V4 (mkIpv4 10 0 0 1)) [] (lit "body").
Definition gate : Gate (W := world) (L := unit) := mkGate tt 1 [].
Definition app := build_app (W := world) RunDemo.run_json (λ _, None) map_to_list Some (λ _ _, 9%N) (mret 1%N)
  (λ _ (l : unit), (Ok tt, l)) (text_response 413 []) (ProxyConfig_new (lit "http://agent/run") (lit "0.0.0.0:8080")).
End StandaloneDemo.

#[local] Existing Instances StandaloneDemo.resolver StandaloneDemo.metrics StandaloneDemo.agent StandaloneDemo.frames.

