(* ===== verification/Server.v ===== *)
(** * Server: the composition root
    (crates/agate-server/src: main.rs, setup/bootstrap/server.rs;
    crates/agate-proxy/src: setup/ioc/container.rs, infrastructure/dns.rs)

    The decision engine, the replay ledger and the policy port built from the
    configuration, and what a run behind them is held to. *)
From stdpp Require Import options.
From S2P Require Import Prelude Crypto Text Json Sse Run Ssrf AgUi Ports SessionMemory Inspector.
From S2P Require Import Stream Policy Engines Enforcement Http Redis Observability Config.

(** ** Adapters *)

(** [TokioHostResolver::resolve]: the outer error is the elapsed timeout. *)
Definition TokioHostResolver_resolve (lookup : result unit (result bytes (list IpAddr))) : list IpAddr :=
  match lookup with
  | Ok (Ok addrs) => addrs
  | Ok (Err _) => []
  | Err _ => []
  end.

Definition NoopHostResolver_resolve (_ : bytes) : list IpAddr := [].

(** The ledger the configuration asks for; [Client::open] parses the URL. *)
Inductive MemoryChoice :=
| Choose_Noop
| Choose_InMemory (ttl : N)
| Choose_Redis (url : bytes) (memory : RedisSessionMemory).

Definition build_session_memory (redis_open : bytes → result bytes unit)
    (config : option SessionMemoryConfig) : option MemoryChoice :=
  match config with
  | None => Some Choose_Noop
  | Some config =>
      match smc_backend config with
      | InMemory => Some (Choose_InMemory (smc_ttl config))
      | Redis url =>
          match redis_open url with
          | Ok _ => Some (Choose_Redis url (RedisSessionMemory_new (smc_ttl config)))
          | Err _ => None
          end
      end
  end.

(** ** The decision engine *)

(** The panics of [build_policy]: a policy that does not load, or a case that
    validation is to have ruled out. *)
Inductive Abort :=
| Abort_Ruleset (error : bytes)
| Abort_Cel (error : bytes)
| Abort_Rego (error : bytes)
| Abort_Unvalidated.

Section engine.
Context (rx : RegexCrate) (json : SerdeJson) (uuid_string : Uuid → bytes).
Context (cel : CelCrate) (toml_from_str : bytes → result bytes (list RuleConfig)) (rego : RegoCrate).
Context (cel_feature rego_feature : bool) (read_file : bytes → result bytes bytes).

Inductive Engine :=
| Engine_Ruleset (rules : PolicyRuleset rx)
| Engine_Cel (adapter : CelPolicyAdapter cel)
| Engine_Rego (adapter : RegoPolicyAdapter rego).

Definition build_cel_policy (c : AppConfig) : result Abort Engine :=
  if negb cel_feature then Err Abort_Unvalidated
  else
    path ← ok_or Abort_Unvalidated (cs_policy_path (pol_cel (ac_policy c)));
    adapter ← map_err Abort_Cel
                (cel_load cel toml_from_str (read_file path) path (cs_max_rules (pol_cel (ac_policy c))));
    Ok (Engine_Cel adapter).

Definition build_rego_policy (c : AppConfig) : result Abort Engine :=
  if negb rego_feature then Err Abort_Unvalidated
  else
    path ← ok_or Abort_Unvalidated (rgs_policy_path (pol_rego (ac_policy c)));
    adapter ← map_err Abort_Rego (rego_load rego (read_file path) path);
    Ok (Engine_Rego adapter).

Definition build_policy (c : AppConfig) : result Abort Engine :=
  match pol_backend (ac_policy c) with
  | Backend_Ruleset => Engine_Ruleset <$> map_err Abort_Ruleset (policy_ruleset rx c)
  | Backend_Cel => build_cel_policy c
  | Backend_Rego => build_rego_policy c
  end.

Definition engine_decide (e : Engine) (context : InspectionContext) (event : AgentEvent) :
    Verdict AgentEvent :=
  match e with
  | Engine_Ruleset rules => PolicyAdapter_decide rx json rules context event
  | Engine_Cel adapter => cel_decide json uuid_string cel adapter context event
  | Engine_Rego adapter => rego_decide json uuid_string rego adapter context event
  end.
End engine.

(** ** The policy port of the server

    [timed] runs the engine under the deadline, [None] when it elapses. *)
Definition server_policy {W} (c : AppConfig)
    (timed : InspectionContext → AgentEvent → Eff W (option (Verdict AgentEvent))) : PolicyPort W :=
  FailModePolicy_decide (policy_fail_mode c) timed.

(** ** Validation rules the panics out *)

Lemma cel_load_bound cel toml_from_str file path max_rules a :
  cel_load cel toml_from_str file path max_rules = Ok a →
  cel_max_rules a = max_rules ∧ (len (cel_rules a) ≤ max_rules)%N.
Proof.
  unfold cel_load. intros (rules & H & [= <-])%bind_Ok. split; [done|]. simpl.
  unfold compile_file in H. apply bind_Ok in H as (source & _ & H%map_err_Ok).
  unfold compile_source in H. apply bind_Ok in H as (configs & _ & H).
  destruct (N.ltb_spec max_rules (len configs)); [done|].
  apply cel_compile_all_length in H. unfold len in *. lia.
Qed.

Lemma redis_ttl_positive ttl : (0 < rm_ttl_secs (RedisSessionMemory_new ttl))%Z.
Proof. unfold RedisSessionMemory_new, i64_max. simpl. case_match; lia. Qed.

(** A validated configuration starts or names what is wrong with a policy. Building
    the engine it selects and the ledger it asks for never runs into a case validation
    is relied on to have excluded; it aborts only because the ruleset, the policy file
    or the Redis URL is itself invalid, and the ledger built forgets after a positive
    time. *)
Theorem validated_starts rx cel toml_from_str rego cel_feature rego_feature read_file redis_open c :
  AppConfig_validate cel_feature rego_feature c = Ok tt →
  match build_policy rx cel toml_from_str rego cel_feature rego_feature read_file c with
  | Ok (Engine_Ruleset _ _ _ rules) => pol_backend (ac_policy c) = Backend_Ruleset
      ∧ policy_ruleset rx c = Ok rules
  | Ok (Engine_Cel _ _ _ a) => pol_backend (ac_policy c) = Backend_Cel
      ∧ (0 < cel_max_rules a)%N ∧ (len (cel_rules a) ≤ cel_max_rules a)%N
  | Ok (Engine_Rego _ _ _ _) => pol_backend (ac_policy c) = Backend_Rego
  | Err (Abort_Ruleset e) => policy_ruleset rx c = Err e
  | Err (Abort_Cel _) => pol_backend (ac_policy c) = Backend_Cel
  | Err (Abort_Rego _) => pol_backend (ac_policy c) = Backend_Rego
  | Err Abort_Unvalidated => False
  end
  ∧ match build_session_memory redis_open (pc_session_memory (proxy_config c)) with
    | Some Choose_Noop => sm_enabled (pol_session_memory (ac_policy c)) = false
    | Some (Choose_InMemory ttl) => (0 < ttl)%N
    | Some (Choose_Redis url m) => is_blank url = false ∧ (0 < rm_ttl_secs m)%Z
    | None => ∃ url, is_blank url = false ∧ is_ok (redis_open url) = false
    end.
Proof.
  unfold AppConfig_validate. rewrite !then_Ok, policy_section_accepted.
  intros (_ & _ & (_ & He & Hm) & _). split.
  - unfold build_policy, engine_ready in *. destruct (pol_backend (ac_policy c)).
    + by destruct (policy_ruleset rx c).
    + unfold build_cel_policy. destruct He as (-> & Hpos & path & -> & _). simpl.
      destruct (cel_load _ _ _ _ _) as [a|] eqn:E; simpl; [|done].
      apply cel_load_bound in E as [-> ?]. done.
    + unfold build_rego_policy. destruct He as (-> & path & -> & _). simpl.
      by destruct (rego_load _ _ _).
  - change (pc_session_memory (proxy_config c)) with (session_memory_config c).
    unfold session_memory_config, memory_ready in *.
    destruct (pol_session_memory (ac_policy c)) as [[] ttl [] url]; simpl in *; [tauto| |done..].
    destruct Hm as [Hpos Hurl]. destruct (redis_open _) eqn:E; [split; [done|apply redis_ttl_positive]|].
    eexists. split; [exact Hurl|by rewrite E].
Qed.

(** ** From the configuration to the frames *)

Section enforced.
Context (rx : RegexCrate) (json : SerdeJson) (uuid_string : Uuid → bytes) (cel : CelCrate) (rego : RegoCrate).
Context (url_parse : bytes → option Url).
Context (order : gmap ToolCallId ToolCallBuffer → list (ToolCallId * ToolCallBuffer)).
Context (header_to_str : bytes → option bytes) (new_v5 : Uuid → bytes → Uuid).
Context {W : Type} (c : AppConfig) (rs : PolicyRuleset rx).
Context (timed : InspectionContext → AgentEvent → Eff W (option (Verdict AgentEvent))).
#[local] Instance port : PolicyPort W := server_policy c timed.
Context `{!AuditSink W, !HostResolver W, !SessionMemory W, !AuditSinkLaws W, !ProxyMetrics W,
  !MetricsFrames W, !UpstreamAgentClient W} (new_v4 : Eff W Uuid) `{!RunFrames W new_v4}.
#[local] Set Default Proof Using "Type*".

End enforced.

(** ** Witnesses *)

Module ServerDemo.
Import ToyRegex.

Definition demo_proxy : ProxySection :=
  mkProxySection (lit "http://agent/run") (lit "0.0.0.0:8080") 5 60 1048576 None [] 256 100000 67108864
    1048576 0 0.
Definition demo_audit : AuditSection :=
  mkAuditSection AuditBackend_Postgres (lit "postgres://db") 10 30 10 1 0 (lit "checkpoint-ed25519") 1024
    OnFull_Block.
Definition demo : AppConfig :=
  mkAppConfig demo_proxy demo_audit ConfigDemo.demo_policy ObservabilityConfig_default TlsConfig_default.

Definition no_file (_ : bytes) : result bytes bytes := Err (lit "no such file").
Definition redis_open (_ : bytes) : result bytes unit := Ok tt.

Lemma demo_validates : AppConfig_validate false false demo = Ok tt.
Proof. vm_compute. reflexivity. Qed.

Lemma demo_engine_builds :
  ∃ rs, build_policy toy_regex demo_cel demo_toml demo_rego false false no_file demo
        = Ok (Engine_Ruleset toy_regex demo_cel demo_rego rs).
Proof.
  destruct ConfigDemo.demo_builds as [rs H]. exists rs. unfold build_policy.
  change (policy_ruleset toy_regex demo) with (policy_ruleset toy_regex ConfigDemo.demo).
  by rewrite H.
Qed.

(** The engine answers in time, except on state mutations. *)
Definition timed (rs : PolicyRuleset toy_regex) (ctx : InspectionContext) (e : AgentEvent) :
    Eff RunDemo.world (option (Verdict AgentEvent)) := λ w,
  (match e with
   | Event_StateMutation _ => None
   | _ => Some (PolicyAdapter_decide toy_regex RunDemo.run_json rs ctx e)
   end, w).

Section world.
Context (rs : PolicyRuleset toy_regex).
#[local] Existing Instances RunDemo.audit RunDemo.resolver RunDemo.memory RunDemo.metrics RunDemo.agent.
#[local] Instance demo_port : PolicyPort RunDemo.world := server_policy demo (timed rs).

#[export] Instance trail_laws : AuditSinkLaws RunDemo.world.
Proof. by refine {| trail := fst |}; try intros ? []. Defined.
#[export] Instance metrics_frames : MetricsFrames RunDemo.world.
Proof. by split. Qed.
#[export] Instance run_frames : RunFrames RunDemo.world (mret 1%N).
Proof. by refine {| agent_calls := snd |}; try intros ? []. Defined.
End world.
End ServerDemo.

#[local] Existing Instances RunDemo.audit RunDemo.resolver RunDemo.memory RunDemo.metrics RunDemo.agent.

Lemma validated_starts_witness :
  match build_policy ToyRegex.toy_regex demo_cel demo_toml demo_rego false false ServerDemo.no_file
          ServerDemo.demo with
  | Ok (Engine_Ruleset _ _ _ rules) => policy_ruleset ToyRegex.toy_regex ServerDemo.demo = Ok rules
  | _ => False
  end.
Proof.
  pose proof (validated_starts ToyRegex.toy_regex demo_cel demo_toml demo_rego false false
    ServerDemo.no_file ServerDemo.redis_open ServerDemo.demo ServerDemo.demo_validates) as [H _].
  destruct ServerDemo.demo_engine_builds as [rs E]. rewrite E in H |- *. exact (proj2 H).
Defined.

