(* ===== verification/Lifecycle.v ===== *)
(** * Lifecycle: from start-up to a graceful shutdown
    (crates/agate-server/src: main.rs, setup/bootstrap/server.rs, setup/bootstrap/supervision.rs)

    [main] from the loaded configuration to the served application, in its order, and the
    process from there to its exit as a transition system: the listener, the runs, the
    supervised tasks and the shutdown token around the audit bridge. *)
From stdpp Require Import options.
From S2P Require Import Prelude Crypto Merkle TransparencyLog AuditStore AuditApp Json Run Ports.
From S2P Require Import Inspector Stream Policy Engines Enforcement AuditBridge Http Config Startup.
From S2P Require Import Observability Server.

(** ** The process *)

(** The bridge and the scheduler's last size; whether the token is tripped, the listener
    accepts and the application (with the audit sink in it) is still there; the runs in
    flight; the supervised tasks still running; and whether [main] has returned. *)
Record Process := mkProcess {
  pr_bridge : Bridge;
  pr_last : option N;
  pr_token : bool;
  pr_listening : bool;
  pr_app : bool;
  pr_runs : nat;
  pr_outbox : bool;
  pr_scheduler : bool;
  pr_reloaders : nat;
  pr_exited : bool;
}.

(** The senders waiting for a slot: each is a run that does nothing else meanwhile. *)
Definition waiting_runs (b : Bridge) : nat := length (ch_waiting (b_channel b)).

Section process.
Context (json : SerdeJson) (uuid_string : Uuid → bytes) (on_full : FullPolicy).
Context (pg : Pg) `{J : Jiff} (factory : Hasher) (keys : KeyStore) (log : LogId) (key : KeyId).

Abbreviation turn := (take_turn json uuid_string on_full pg factory keys log key).

(** What goes on while the process serves: connections, inspections, checkpoints. *)
Inductive serving_step : Process → option Turn → Process → Prop :=
| Accept b l tok app n o s r :
    serving_step (mkProcess b l tok true app n o s r false) None
      (mkProcess b l tok true app (S n) o s r false)
| Inspect ctx e v b l tok li app n o s r :
    waiting_runs b < n →
    let t := Inspected ctx e v in
    serving_step (mkProcess b l tok li app n o s r false) (Some t)
      (mkProcess (turn (b, l) t).1 (turn (b, l) t).2 tok li app n o s r false)
| Tick scope now b l li app n o r :
    let t := Ticked scope now in
    serving_step (mkProcess b l false li app n o true r false) (Some t)
      (mkProcess (turn (b, l) t).1 (turn (b, l) t).2 false li app n o true r false).

(** What brings it to its end: a run ends or is given up, the outbox writes a record, the
    signal trips the token and stops the listener, tasks see the token, [serve] returns
    without runs and drops the application, the outbox finds its channel closed and
    empty, and [wait] returns. *)
Inductive closing_step : Process → option Turn → Process → Prop :=
| Finish b l tok li app n o s r :
    waiting_runs b < S n →
    closing_step (mkProcess b l tok li app (S n) o s r false) None
      (mkProcess b l tok li app n o s r false)
| GiveUp i b l tok li app n o s r :
    i < waiting_runs b →
    let t := Abandoned i in
    closing_step (mkProcess b l tok li app (S n) o s r false) (Some t)
      (mkProcess (turn (b, l) t).1 (turn (b, l) t).2 tok li app n o s r false)
| Write scope b l tok li app n s r :
    ch_queue (b_channel b) ≠ [] →
    let t := Drained scope in
    closing_step (mkProcess b l tok li app n true s r false) (Some t)
      (mkProcess (turn (b, l) t).1 (turn (b, l) t).2 tok li app n true s r false)
| Trip b l li app n o s r :
    closing_step (mkProcess b l false li app n o s r false) None
      (mkProcess b l true li app n o s r false)
| StopListening b l app n o s r :
    closing_step (mkProcess b l true true app n o s r false) None
      (mkProcess b l true false app n o s r false)
| SchedulerReturns b l li app n o r :
    closing_step (mkProcess b l true li app n o true r false) None
      (mkProcess b l true li app n o false r false)
| ReloaderReturns b l li app n o s r :
    closing_step (mkProcess b l true li app n o s (S r) false) None
      (mkProcess b l true li app n o s r false)
| ServeReturns b l tok o s r :
    closing_step (mkProcess b l tok false true 0 o s r false) None
      (mkProcess b l tok false false 0 o s r false)
| OutboxReturns b l tok li n s r :
    ch_queue (b_channel b) = [] →
    closing_step (mkProcess b l tok li false n true s r false) None
      (mkProcess b l tok li false n false s r false)
| Exit b l tok li n :
    closing_step (mkProcess b l tok li false n false false 0 false) None
      (mkProcess b l tok li false n false false 0 true).

(** A life of the process, with the turns of the bridge in it. *)
Inductive life (p0 : Process) : list Turn → Process → Prop :=
| Born : life p0 [] p0
| Serves ts p t p' : life p0 ts p → serving_step p t p' → life p0 (ts ++ option_list t) p'
| Closes ts p t p' : life p0 ts p → closing_step p t p' → life p0 (ts ++ option_list t) p'.
End process.

(** ** Start-up *)

(** The panics of [main], in the order they can come. *)
Inductive StartError :=
| Start_Config (error : ConfigError)
| Start_Metrics (abort : MetricsAbort)
| Start_Policy (abort : Abort)
| Start_LogId
| Start_Bind
| Start_Tls (error : bytes)
| Start_Backoff
| Start_Store (error : AuditError)
| Start_Scope (error : bytes)
| Start_Log (error : AuditError)
| Start_Capacity.

(** What is done outside the process. *)
Inductive Io := Io_Metrics | Io_Connect | Io_CreateLog.

Record Env := mkEnv { env_world : World; env_io : list Io }.

Definition io_step (i : Io) : ST StartError Env unit := λ e,
  (Ok tt, mkEnv (env_world e) (env_io e ++ [i])).

Definition on_store {A} (m : Op A) : ST StartError Env A := λ e,
  let '(r, w) := m (env_world e) in (map_err Start_Log r, mkEnv w (env_io e)).

(** [mpsc::channel]: the capacity is a number of semaphore permits. *)
Definition MAX_PERMITS : N := 2 ^ 61 - 1.

Definition channel_new (capacity : N) : option Channel :=
  if (0 <? capacity)%N && (capacity <=? MAX_PERMITS)%N then Some (mkChannel [] [] capacity true)
  else None.

(** The tasks [wire_policy_reload] spawns. *)
Definition reload_tasks (c : AppConfig) : nat :=
  match pol_backend (ac_policy c) with
  | Backend_Ruleset => 0
  | Backend_Cel => if cs_watch (pol_cel (ac_policy c)) then 2 else 1
  | Backend_Rego => if rgs_watch (pol_rego (ac_policy c)) then 2 else 1
  end.

Section startup.
Context (rx : RegexCrate) (cel : CelCrate) (toml_from_str : bytes → result bytes (list RuleConfig))
  (rego : RegoCrate) (cel_feature rego_feature : bool) (read_file : bytes → result bytes bytes).
Context (parse_uuid : bytes → option Uuid) (parse_addr : bytes → bool)
  (load_tls : TlsConfig → result bytes unit) (install : bytes → result bytes unit).
Context (attempts : N → result bytes unit) (run_migrations : unit → result AuditError unit).
Context (pg : Pg) `{J : Jiff} (factory : Hasher).

Record Started := mkStarted {
  started_engine : Engine rx cel rego;
  started_log : LogId;
  started_process : Process;
}.

(** The id of the environment, or a log created under the generated [id]. *)
Definition resolve_log (scope : result bytes unit) (id : LogId) (now : Timestamp) (pinned : option LogId) :
    ST StartError Env LogId :=
  match pinned with
  | Some log => mret log
  | None =>
      _ ← st_lift (map_err Start_Scope scope);
      _ ← io_step Io_CreateLog;
      on_store (dispatch_create pg factory id now)
  end.

Definition build_server (c : AppConfig) (engine : Engine rx cel rego) (log : LogId) :
    ST StartError Env Started := λ e,
  match channel_new (outbox_settings c).1 with
  | None => (Err Start_Capacity, e)
  | Some channel =>
      (Ok (mkStarted engine log
             (mkProcess (mkBridge channel (env_world e) []) None false true true 0 true
                (bool_decide (is_Some (checkpoint_settings c))) (reload_tasks c) false)), e)
  end.

(** [AUDIT_LOG_ID], when it is set. *)
Definition pinned_log_id (audit_log_id : option bytes) : result StartError (option LogId) :=
  match audit_log_id with
  | None => Ok None
  | Some raw => Some <$> ok_or Start_LogId (parse_uuid raw)
  end.

Definition tls_acceptor (c : AppConfig) : result StartError unit :=
  match tls_config c with
  | Some tls => map_err Start_Tls (load_tls tls)
  | None => Ok tt
  end.

(** The metrics listener, if one is wanted. *)
Definition serve_metrics (c : AppConfig) : ST StartError Env unit :=
  installed ← (st_lift (map_err Start_Metrics
                 (init_metrics parse_addr install (ob_metrics (ac_observability c)))) : ST StartError Env bool);
  if (installed : bool) then io_step Io_Metrics else mret tt.

(** [main], up to the application being served. [init_logging] cannot fail. *)
Definition startup (c : AppConfig) (audit_log_id : option bytes) (scope : result bytes unit) (id : LogId)
    (now : Timestamp) : ST StartError Env Started :=
  _ ← st_lift (map_err Start_Config (AppConfig_validate cel_feature rego_feature c));
  _ ← serve_metrics c;
  engine ← st_lift (map_err Start_Policy
                      (build_policy rx cel toml_from_str rego cel_feature rego_feature read_file c));
  pinned ← st_lift (pinned_log_id audit_log_id);
  _ ← st_lift (if parse_addr (pc_bind_addr (proxy_config c)) then Ok tt else Err Start_Bind);
  _ ← st_lift (tls_acceptor c);
  _ ← io_step Io_Connect;
  connected ← st_lift (ok_or Start_Backoff
                         (Storage_connect attempts run_migrations (postgres_config c).2));
  _ ← st_lift (map_err Start_Store connected);
  log ← resolve_log scope id now pinned;
  build_server c engine log.

(** Everything [main] checks of the configuration before it touches the store. *)
Definition configuration_ok (c : AppConfig) (audit_log_id : option bytes) : bool :=
  is_ok (AppConfig_validate cel_feature rego_feature c)
  && is_ok (init_metrics parse_addr install (ob_metrics (ac_observability c)))
  && is_ok (build_policy rx cel toml_from_str rego cel_feature rego_feature read_file c)
  && is_ok (pinned_log_id audit_log_id) && parse_addr (pc_bind_addr (proxy_config c))
  && is_ok (tls_acceptor c).
End startup.

(** ** Invariants of a life *)

Section lives.
Context (json : SerdeJson) (uuid_string : Uuid → bytes) (on_full : FullPolicy).
Context (pg : Pg) `{J : Jiff} (factory : Hasher) (keys : KeyStore) (log : LogId) (key : KeyId).
#[local] Set Default Proof Using "Type*".

Abbreviation turn := (take_turn json uuid_string on_full pg factory keys log key).
Abbreviation turns := (take_turns json uuid_string on_full pg factory keys log key).
Abbreviation life_ := (life json uuid_string on_full pg factory keys log key).
Abbreviation closing := (closing_step json uuid_string on_full pg factory keys log key).
Abbreviation serving := (serving_step json uuid_string on_full pg factory keys log key).

(** A process about to serve, with a queue of at least one slot. *)
Definition fresh (p : Process) : Prop :=
  ch_queue (b_channel (pr_bridge p)) = [] ∧ ch_waiting (b_channel (pr_bridge p)) = []
  ∧ ch_open (b_channel (pr_bridge p)) = true ∧ (0 < ch_capacity (b_channel (pr_bridge p)))%N
  ∧ pr_app p = true ∧ pr_outbox p = true ∧ pr_exited p = false.

(** Waiting senders are runs in flight; without the application there are neither runs nor
    a listener; the outbox has stopped only on an empty queue; the process has exited only
    with everything stopped. *)
Record orderly (p : Process) : Prop := {
  ord_waiting : waiting_runs (pr_bridge p) ≤ pr_runs p;
  ord_busy : busy (b_channel (pr_bridge p));
  ord_app : pr_app p = false → pr_runs p = 0 ∧ pr_listening p = false;
  ord_outbox : pr_outbox p = false → pr_app p = false ∧ ch_queue (b_channel (pr_bridge p)) = [];
  ord_exited : pr_exited p = true → pr_outbox p = false;
}.

Lemma waiting_send r c : length (ch_waiting (channel_send r c)) ≤ S (length (ch_waiting c)).
Proof. unfold channel_send. case_match; simpl; [lia|]. rewrite length_app. simpl. lia. Qed.

Lemma waiting_inspected s ctx e v :
  waiting_runs (turn s (Inspected ctx e v)).1 ≤ S (waiting_runs s.1).
Proof.
  destruct s as [b l]. unfold waiting_runs. cbn [take_turn fst]. unfold sink_record, enqueue.
  pose proof (waiting_send (encode_record json uuid_string ctx e v) (b_channel b)).
  destruct (negb _); cbn [b_channel]; [lia|]. destruct on_full; cbn [b_channel]; [lia|].
  destruct (0 <? _)%N; cbn [b_channel]; lia.
Qed.

Lemma recv_waiting c r c' : channel_recv c = Some (r, c') → length (ch_waiting c') ≤ length (ch_waiting c).
Proof.
  unfold channel_recv. destruct (ch_queue c); [done|]. intros [= <- <-].
  destruct (ch_waiting c); simpl; lia.
Qed.

Lemma waiting_drained s scope : waiting_runs (turn s (Drained scope)).1 ≤ waiting_runs s.1.
Proof.
  destruct s as [b l]. unfold waiting_runs. simpl. unfold outbox_turn.
  destruct (channel_recv _) as [[r c]|] eqn:E; [|done]. by eapply recv_waiting.
Qed.

Lemma waiting_abandoned s i :
  i < waiting_runs s.1 → waiting_runs (turn s (Abandoned i)).1 = pred (waiting_runs s.1).
Proof.
  destruct s as [b l]. unfold waiting_runs. simpl. intros Hi.
  apply lookup_lt_is_Some_2 in Hi. rewrite length_delete by done. lia.
Qed.

Lemma ticked_channel s scope now : b_channel (turn s (Ticked scope now)).1 = b_channel s.1.
Proof. destruct s as [b l]. simpl. by destruct (ScopedIssuer_issue _ _ _ _ _ _ _ _ _). Qed.

Definition turn_busy := take_turn_busy json uuid_string on_full pg factory keys log key.

(** The bridge is where the turns have taken it. *)
Lemma life_turns p0 ts p :
  life_ p0 ts p → (pr_bridge p, pr_last p) = turns ts (pr_bridge p0, pr_last p0).
Proof.
  induction 1 as [|ts p t p' _ IH Hs|ts p t p' _ IH Hs]; [done|..];
    unfold take_turns in *; rewrite foldl_app, <- IH; destruct Hs; simpl; try done;
    symmetry; apply surjective_pairing.
Qed.

Lemma serving_orderly p t p' : serving p t p' → orderly p → orderly p'.
Proof.
  intros Hs [Hw Hb Ha Ho He]. destruct Hs as [b l tok app n o s r|ctx e v b l tok li app n o s r Hn t|
    scope now b l li app n o r t]; simpl in *.
  - split; simpl; [lia|done| |done|done]. intros ->. by destruct Ha.
  - split; simpl; [|exact (turn_busy (b, l) t Hb)|done| |done].
    + pose proof (waiting_inspected (b, l) ctx e v) as H. simpl in H. fold t in H. simpl in *. lia.
    + intros ->. destruct (Ho eq_refl) as [-> _]. destruct (Ha eq_refl). lia.
  - split; simpl; [|exact (turn_busy (b, l) t Hb)|done| |done].
    + pose proof (ticked_channel (b, l) scope now) as E. unfold waiting_runs in *. simpl in E. by rewrite E.
    + pose proof (ticked_channel (b, l) scope now) as E. simpl in E. by rewrite E.
Qed.

Lemma closing_orderly p t p' : closing p t p' → orderly p → orderly p'.
Proof.
  intros Hs [Hw Hb Ha Ho He].
  destruct Hs as [b l tok li app n o s r Hn|i b l tok li app n o s r Hi t|scope b l tok li app n s r Hq t|
    b l li app n o s r|b l app n o s r|b l li app n o r|b l li app n o s r|b l tok o s r|
    b l tok li n s r Hq|b l tok li n]; simpl in *.
  - split; simpl; [lia|done| |done|done]. intros E. by destruct (Ha E).
  - split; simpl; [|exact (turn_busy (b, l) t Hb)| | |done].
    + pose proof (waiting_abandoned (b, l) i Hi) as H. simpl in H. fold t in H. simpl in *. lia.
    + intros E. by destruct (Ha E).
    + intros E. destruct (Ho E) as [E' _]. by destruct (Ha E').
  - split; simpl; [|exact (turn_busy (b, l) t Hb)|done|done|done].
    pose proof (waiting_drained (b, l) scope) as H. simpl in *. lia.
  - by split; simpl.
  - split; simpl; try done. intros E. by destruct (Ha E).
  - by split; simpl.
  - by split; simpl.
  - split; simpl; try done. intros E. by destruct (Ho E).
  - by split; simpl.
  - by split; simpl.
Qed.

Lemma fresh_orderly p : fresh p → orderly p.
Proof.
  intros (Hq & Hw & _ & Hc & Ha & Ho & He).
  split; rewrite ?Ha, ?Ho, ?He; [unfold waiting_runs; rewrite Hw; simpl; lia| |done..].
  unfold busy, within. rewrite Hq, Hw. unfold len. simpl. split_and!; [done|lia|by left].
Qed.

Lemma life_orderly p0 ts p : orderly p0 → life_ p0 ts p → orderly p.
Proof.
  intros H0. induction 1; [done|by eapply serving_orderly|by eapply closing_orderly].
Qed.

(** What is left to do before the exit. *)
Definition remaining (p : Process) : nat :=
  pr_runs p + length (pending (b_channel (pr_bridge p))) + pr_reloaders p
  + Nat.b2n (negb (pr_token p)) + Nat.b2n (pr_listening p) + Nat.b2n (pr_app p)
  + Nat.b2n (pr_outbox p) + Nat.b2n (pr_scheduler p) + Nat.b2n (negb (pr_exited p)).

Lemma closing_remaining p t p' : closing p t p' → remaining p' < remaining p.
Proof.
  intros Hs. unfold remaining.
  destruct Hs as [b l tok li app n o s r Hn|i b l tok li app n o s r Hi t|scope b l tok li app n s r Hq t|
    b l li app n o s r|b l app n o s r|b l li app n o r|b l li app n o s r|b l tok o s r|
    b l tok li n s r Hq|b l tok li n]; simpl; try lia.
  - destruct (channel_abandon_pending i (b_channel b)) as [H%sublist_length _]. simpl in *. lia.
  - unfold outbox_turn. destruct (channel_recv (b_channel b)) as [[rec c]|] eqn:E.
    + apply channel_recv_some in E as [Hp _]. rewrite Hp. simpl. lia.
    + unfold channel_recv in E. by destruct (ch_queue (b_channel b)).
Qed.

(** No deadlock: once the token is tripped there is always a next step, and one that does
    not need a client to give up. *)
Lemma closing_possible p :
  orderly p → pr_token p = true → pr_exited p = false →
  ∃ t p', closing p t p' ∧ ∀ i, t ≠ Some (Abandoned i).
Proof.
  destruct p as [b l tok li app n o s r ex]. intros [Hw Hb Ha Ho He] Ht Hx. simpl in *. subst tok ex.
  destruct li; [by eexists _, _; split; [apply StopListening|]|].
  destruct s; [by eexists _, _; split; [apply SchedulerReturns|]|].
  destruct r as [|r]; [|by eexists _, _; split; [apply ReloaderReturns|]].
  destruct (decide (ch_queue (b_channel b) = [])) as [Hq|Hq].
  - destruct app; [|destruct o; [by eexists _, _; split; [by apply OutboxReturns|]|]].
    + destruct n as [|n]; [by eexists _, _; split; [apply ServeReturns|]|].
      eexists _, _; split; [apply Finish|done]. unfold waiting_runs.
      destruct Hb as (Hc & _ & [->|Hf]); [simpl; lia|]. rewrite Hq in Hf. unfold len in Hf. simpl in Hf. lia.
    + by eexists _, _; split; [apply Exit|].
  - destruct o; [by eexists _, _; split; [by apply (Write _ _ _ _ _ _ _ _ (Ok tt))|]|].
    by destruct (Ho eq_refl).
Qed.
End lives.

(** ** Start-up, step by step *)

Section order.
Context (rx : RegexCrate) (cel : CelCrate) (toml_from_str : bytes → result bytes (list RuleConfig))
  (rego : RegoCrate) (cel_feature rego_feature : bool) (read_file : bytes → result bytes bytes).
Context (parse_uuid : bytes → option Uuid) (parse_addr : bytes → bool)
  (load_tls : TlsConfig → result bytes unit) (install : bytes → result bytes unit).
Context (attempts : N → result bytes unit) (run_migrations : unit → result AuditError unit).
Context (pg : Pg) `{J : Jiff} (factory : Hasher).

Abbreviation startup_ := (startup rx cel toml_from_str rego cel_feature rego_feature read_file parse_uuid
  parse_addr load_tls install attempts run_migrations pg factory).
Abbreviation configuration_ok_ := (configuration_ok rx cel toml_from_str rego cel_feature rego_feature
  read_file parse_uuid parse_addr load_tls install).

(** The metrics listener of a configuration that passes. *)
Definition metrics_io (c : AppConfig) : list Io :=
  if me_enabled (ob_metrics (ac_observability c))
     && negb (bool_decide (me_exporter (ob_metrics (ac_observability c)) = Exporter_None))
  then [Io_Metrics] else [].

(** The part of [main] after the configuration is checked. *)
Definition connect_and_build (c : AppConfig) engine pinned scope id now : ST StartError Env (Started rx cel rego) :=
  _ ← io_step Io_Connect;
  connected ← st_lift (ok_or Start_Backoff
                         (Storage_connect attempts run_migrations (postgres_config c).2));
  _ ← st_lift (map_err Start_Store connected);
  log ← resolve_log pg factory scope id now pinned;
  build_server rx cel rego c engine log.

Lemma startup_split c audit_log_id scope id now e :
  if configuration_ok_ c audit_log_id then
    ∃ engine pinned,
      AppConfig_validate cel_feature rego_feature c = Ok tt
      ∧ build_policy rx cel toml_from_str rego cel_feature rego_feature read_file c = Ok engine
      ∧ pinned_log_id parse_uuid audit_log_id = Ok pinned
      ∧ startup_ c audit_log_id scope id now e
        = connect_and_build c engine pinned scope id now (mkEnv (env_world e) (env_io e ++ metrics_io c))
  else ∃ error io, io ∈ [[]; [Io_Metrics]]
       ∧ startup_ c audit_log_id scope id now e = (Err error, mkEnv (env_world e) (env_io e ++ io)).
Proof.
  pose proof (init_metrics_spec parse_addr install (ob_metrics (ac_observability c))) as Hm. cbv zeta in Hm.
  assert (∀ error, ∃ error' io, io ∈ [[]; [Io_Metrics]]
    ∧ ((Err error, e) : result StartError (Started rx cel rego) * Env)
      = (Err error', mkEnv (env_world e) (env_io e ++ io))) as Habort.
  { intros error. exists error, []. rewrite app_nil_r. destruct e. split; [set_solver|done]. }
  unfold configuration_ok, startup, serve_metrics, metrics_io. rewrite !st_bindE.
  destruct (AppConfig_validate _ _ c) as [[]|?]; [|by apply Habort]. cbn [is_ok andb map_err st_lift].
  rewrite !st_bindE. destruct (init_metrics parse_addr install _) as [on|?]; [|by apply Habort].
  destruct Hm as [-> _]. cbn [is_ok andb map_err st_lift].
  assert (∀ m : bool, (if m then io_step Io_Metrics else mret tt) e
    = (Ok tt, mkEnv (env_world e) (env_io e ++ if m then [Io_Metrics] else []))) as ->.
  { intros []; [done|]. rewrite app_nil_r. by destruct e. }
  assert (∀ b : bool, (if b then [Io_Metrics] else []) ∈ [[]; [Io_Metrics]]) as Hio by (intros []; set_solver).
  unfold connect_and_build.
  destruct (build_policy _ _ _ _ _ _ _ c) as [engine|?]; [|by eexists _, _]. cbn [is_ok andb].
  destruct (pinned_log_id parse_uuid audit_log_id) as [pinned|?]; [|by eexists _, _]. cbn [is_ok andb].
  destruct (parse_addr _); [|by eexists _, _]. cbn [andb].
  destruct (tls_acceptor load_tls c) as [[]|?]; [|by eexists _, _]. cbn [is_ok].
  by exists engine, pinned.
Qed.

Definition connects (c : AppConfig) : bool :=
  match Storage_connect attempts run_migrations (postgres_config c).2 with
  | Some (Ok _) => true
  | _ => false
  end.

Lemma connect_and_build_spec c engine pinned scope id now e :
  let creates := connects c && is_ok scope && bool_decide (pinned = None) in
  let created := dispatch_create pg factory id now (env_world e) in
  let '(r, e') := connect_and_build c engine pinned scope id now e in
  env_io e' = env_io e ++ Io_Connect :: (if creates then [Io_CreateLog] else [])
  ∧ env_world e' = (if creates then created.2 else env_world e)
  ∧ ∀ s, r = Ok s →
    started_engine _ _ _ s = engine
    ∧ (pinned = Some (started_log _ _ _ s) ∨ pinned = None ∧ creates = true ∧ created.1 = Ok (started_log _ _ _ s))
    ∧ ∃ channel, channel_new (outbox_settings c).1 = Some channel
      ∧ started_process _ _ _ s
        = mkProcess (mkBridge channel (env_world e') []) None false true true 0 true
            (bool_decide (is_Some (checkpoint_settings c))) (reload_tasks c) false.
Proof.
  intros creates created. subst creates created. destruct e as [w io].
  unfold connect_and_build, connects, resolve_log, build_server, on_store, io_step, st_lift, mbind, st_bind. simpl.
  destruct (Storage_connect _ _ _) as [[[]|err]|]; simpl; [|by split_and!..].
  destruct pinned as [l|]; simpl.
  - rewrite andb_false_r.
    destruct (channel_new _) as [channel|]; simpl; split_and!; try done.
    intros s [= <-]. simpl. split_and!; [done|by left|by eexists].
  - rewrite andb_true_r. destruct scope as [[]|err]; simpl; [|by split_and!].
    destruct (dispatch_create pg factory id now w) as [[l|err] w']; simpl; [|by rewrite <- app_assoc].
    destruct (channel_new _) as [channel|]; simpl; rewrite <- app_assoc; split_and!; try done.
    intros s [= <-]. simpl. split_and!; [done|by right|by eexists].
Qed.
End order.

(** C29: a bad configuration is refused before the store is touched. When any of the
    configuration, the metrics address, the policy, [AUDIT_LOG_ID], the address to bind
    and the certificate fails its check, start-up aborts with the store as it was and no
    connection tried; at most the metrics listener was opened. When all of them pass, the
    store is connected to first, and a log is created exactly when the connection came up,
    the id of one was not given and a scope opened; with the id given, start-up writes
    nothing. *)
Theorem startup_order rx cel toml_from_str rego cel_feature rego_feature read_file parse_uuid parse_addr
    load_tls install attempts run_migrations pg `{J : Jiff} factory c audit_log_id scope id now e :
  let '(r, e') := startup rx cel toml_from_str rego cel_feature rego_feature read_file parse_uuid parse_addr
                    load_tls install attempts run_migrations pg factory c audit_log_id scope id now e in
  if configuration_ok rx cel toml_from_str rego cel_feature rego_feature read_file parse_uuid parse_addr
       load_tls install c audit_log_id
  then env_io e' = env_io e ++ metrics_io c ++ Io_Connect ::
         (if connects attempts run_migrations c && is_ok scope && bool_decide (audit_log_id = None)
          then [Io_CreateLog] else [])
       ∧ (audit_log_id ≠ None → env_world e' = env_world e)
  else is_ok r = false ∧ env_world e' = env_world e
       ∧ ∃ io, io ∈ [[]; [Io_Metrics]] ∧ env_io e' = env_io e ++ io.
Proof.
  pose proof (startup_split rx cel toml_from_str rego cel_feature rego_feature read_file parse_uuid parse_addr
    load_tls install attempts run_migrations pg factory c audit_log_id scope id now e) as Hs.
  destruct (configuration_ok _ _ _ _ _ _ _ _ _ _ _ _ _); [|destruct Hs as (error & io & Hio & ->); eauto].
  destruct Hs as (engine & pinned & _ & _ & Hp & ->).
  pose proof (connect_and_build_spec rx cel rego attempts run_migrations pg factory c engine pinned scope
    id now (mkEnv (env_world e) (env_io e ++ metrics_io c))) as Hc. cbv zeta in Hc.
  destruct (connect_and_build _ _ _ _ _ _ _ _ _ _ _ _ _ _) as [r e']. destruct Hc as (-> & -> & _). simpl.
  assert (bool_decide (pinned = None) = bool_decide (audit_log_id = None)) as <-.
  { unfold pinned_log_id in Hp. destruct audit_log_id as [raw|]; [|by injection Hp as <-].
    by destruct (parse_uuid raw); simplify_eq/=. }
  rewrite <- app_assoc. split; [done|]. intros Hn. destruct audit_log_id as [raw|]; [|done].
  unfold pinned_log_id in Hp. destruct (parse_uuid raw); simplify_eq/=. by rewrite andb_false_r.
Qed.

(** One setting is checked by nobody before that: a capacity of the outbox beyond what the
    channel accepts passes validation, and aborts with the log already created. *)
Theorem late_capacity_abort rx cel toml_from_str rego cel_feature rego_feature read_file parse_uuid parse_addr
    load_tls install attempts run_migrations pg `{J : Jiff} factory c id now e log :
  configuration_ok rx cel toml_from_str rego cel_feature rego_feature read_file parse_uuid parse_addr load_tls install
    c None = true →
  connects attempts run_migrations c = true → (MAX_PERMITS < as_outbox_capacity (ac_audit c))%N →
  (dispatch_create pg factory id now (env_world e)).1 = Ok log →
  startup rx cel toml_from_str rego cel_feature rego_feature read_file parse_uuid parse_addr load_tls install attempts
    run_migrations pg factory c None (Ok tt) id now e
  = (Err Start_Capacity,
     mkEnv (dispatch_create pg factory id now (env_world e)).2 (env_io e ++ metrics_io c ++ [Io_Connect; Io_CreateLog])).
Proof.
  intros Hok Hc Hcap Hd.
  pose proof (startup_split rx cel toml_from_str rego cel_feature rego_feature read_file parse_uuid parse_addr
    load_tls install attempts run_migrations pg factory c None (Ok tt) id now e) as Hs.
  rewrite Hok in Hs. destruct Hs as (engine & pinned & _ & _ & [= <-] & ->).
  unfold connects in Hc. unfold connect_and_build, resolve_log, build_server, on_store, io_step, st_lift, mbind,
    st_bind. simpl.
  destruct (Storage_connect _ _ _) as [[[]|]|]; simpl in *; try done.
  destruct (dispatch_create pg factory id now (env_world e)) as [r w]. simpl in *. subst r. simpl.
  unfold channel_new. destruct (N.leb_spec (as_outbox_capacity (ac_audit c)) MAX_PERMITS); [lia|].
  by rewrite andb_false_r, <- !app_assoc.
Qed.

(** ** From the start to the exit *)

Lemma channel_new_fresh capacity channel :
  channel_new capacity = Some channel →
  channel = mkChannel [] [] capacity true ∧ (0 < capacity)%N.
Proof.
  unfold channel_new. destruct (N.ltb_spec 0 capacity); simpl; [|done].
  case_match; [|done]. by intros [= <-].
Qed.

(** At the exit nothing is queued and nobody waits. *)
Lemma exited_empty p : orderly p → pr_exited p = true → pending (b_channel (pr_bridge p)) = [].
Proof.
  intros [Hw _ Ha Ho He] Hx. destruct (Ho (He Hx)) as [Happ Hq]. destruct (Ha Happ) as [Hr _].
  unfold pending, waiting_runs in *. rewrite Hq, Hr in *. apply nil_length_inv. simpl. lia.
Qed.

Lemma closing_bounded json uuid_string on_full pg `{J : Jiff} factory keys log key n p p' :
  nsteps (λ p p', ∃ t, closing_step json uuid_string on_full pg factory keys log key p t p') n p p' →
  n + remaining p' ≤ remaining p.
Proof.
  induction 1 as [|n p q p' [t Hs] _ IH]; [done|].
  apply closing_remaining in Hs. lia.
Qed.

(** The process a start-up without [AUDIT_LOG_ID] comes to: idle, on an empty log. *)
Lemma startup_own_log rx cel toml_from_str rego cel_feature rego_feature read_file parse_uuid parse_addr
    load_tls install attempts run_migrations pg `{J : Jiff} factory c scope id now e s e' :
  startup rx cel toml_from_str rego cel_feature rego_feature read_file parse_uuid parse_addr load_tls install attempts
    run_migrations pg factory c None scope id now e = (Ok s, e') →
  w_slot (env_world e) = None → log_row id (w_committed (env_world e)) = None →
  leaf_rows id (w_committed (env_world e)) = [] →
  is_ok (from_millisecond (as_millisecond now)) = true →
  ∃ w row ts,
    started_process _ _ _ s
    = mkProcess (mkBridge (mkChannel [] [] (outbox_settings c).1 true) w []) None false true true 0 true
        (bool_decide (is_Some (checkpoint_settings c))) (reload_tasks c) false
    ∧ (0 < (outbox_settings c).1)%N ∧ row_parses row (hasher_algo factory) ts
    ∧ holds_log (w_committed w) (started_log _ _ _ s) row []
    ∧ w_slot w = None ∧ w_dropped w = w_dropped (env_world e).
Proof.
  intros Hst Hslot Hrow Hleaf Hnow.
  pose proof (startup_split rx cel toml_from_str rego cel_feature rego_feature read_file parse_uuid parse_addr
    load_tls install attempts run_migrations pg factory c None scope id now e) as Hs.
  destruct (configuration_ok _ _ _ _ _ _ _ _ _ _ _ _ _); [|destruct Hs as (error & io & _ & E); by rewrite E in Hst].
  destruct Hs as (engine & pinned & _ & _ & [= <-] & E). rewrite E in Hst. clear E.
  pose proof (connect_and_build_spec rx cel rego attempts run_migrations pg factory c engine None scope id now
    (mkEnv (env_world e) (env_io e ++ metrics_io c))) as Hc.
  cbv zeta in Hc. rewrite Hst in Hc. destruct Hc as (_ & Hw & Hc). cbn [env_world] in Hw, Hc.
  destruct (Hc s eq_refl) as (_ & [?|(_ & Hcr & Hid)] & channel & Hch & Hp); [done|].
  rewrite Hcr in Hw. destruct (channel_new_fresh _ _ Hch) as [-> Hcap].
  pose proof (dispatch_create_spec pg factory (env_world e) id now Hslot Hrow Hleaf) as Hsp.
  destruct (dispatch_create pg factory id now (env_world e)) as [r w]. simpl in Hw, Hid. subst r w.
  destruct Hsp as (Hslot' & _ & Hdrop & -> & Hheld & _).
  destruct (create_row_parses factory id now Hnow) as [ts Hparse].
  by exists (env_world e'), (row_of (factory_create factory id now)), ts.
Qed.

(** Where the records are after a life. *)
Lemma life_accounted json uuid_string on_full pg `{J : Jiff} `{!JiffLaws J} factory keys log key row hashes
    algo ts p0 turns p :
  fresh p0 → row_parses row algo ts → w_slot (b_store (pr_bridge p0)) = None →
  holds_log (w_committed (b_store (pr_bridge p0))) log row hashes →
  (len hashes + len (inspected_records json uuid_string turns) ≤ max_len)%N →
  life json uuid_string on_full pg factory keys log key p0 turns p →
  accounted json uuid_string on_full pg factory log row hashes (b_store (pr_bridge p0))
    (ch_capacity (b_channel (pr_bridge p0))) true turns (pr_bridge p).
Proof.
  intros (Hq & Hw & Ho & _) Hparse Hslot Hheld Hlen Hlife.
  pose proof (life_turns _ _ _ _ _ _ _ _ _ _ _ Hlife) as Hb.
  pose proof (accounted_turns json uuid_string on_full pg factory keys log key row hashes algo ts Hparse
    (b_store (pr_bridge p0)) (ch_capacity (b_channel (pr_bridge p0))) true turns (pr_bridge p0) (pr_last p0)
    Hlen) as Ha.
  rewrite <- Hb in Ha. apply Ha. rewrite <- Ho. by apply accounted_start.
Qed.


(** ** Witnesses *)

Module LifecycleDemo.
Import ToyRegex ServerDemo.
#[local] Existing Instances demo_jiff demo_jiff_laws.

Definition demo_env : Env := mkEnv demo_world [].

Abbreviation demo_startup :=
  (startup toy_regex demo_cel demo_toml demo_rego false false no_file (λ _, None) (λ _, true)
     (λ _, Ok tt) (λ _, Ok tt) (λ _, Ok tt) (λ _, Ok tt) demo_pg demo_hasher demo None (Ok tt) 8%N 30%Z demo_env).

Lemma demo_starts : ∃ s e', demo_startup = (Ok s, e').
Proof.
  assert (is_ok demo_startup.1 = true) as H by (vm_compute; reflexivity).
  destruct demo_startup as [[s|] e']; [by exists s, e'|done].
Qed.

Definition demo_lived : list Turn := [Inspected demo_context demo_tool_call Allow; Drained (Ok tt)].

(** One run, one inspected event, and the signal. *)
Lemma demo_lives log key w :
  ∃ p, life TreeJson.tree_json demo_uuid_string FullPolicy_Block demo_pg demo_hasher demo_keys log key
         (mkProcess (mkBridge (mkChannel [] [] 1024 true) w []) None false true true 0 true false 0 false)
         demo_lived p
       ∧ pr_exited p = true.
Proof.
  set (p0 := mkProcess _ _ _ _ _ _ _ _ _ _).
  pose proof (Born TreeJson.tree_json demo_uuid_string FullPolicy_Block demo_pg demo_hasher demo_keys log key
    p0) as L. subst p0.
  eapply Serves in L; [|apply Accept].
  eapply Serves in L; [|apply (Inspect _ _ _ _ _ _ _ _ demo_context demo_tool_call Allow); vm_compute; lia].
  eapply Closes in L; [|apply Finish; vm_compute; lia].
  eapply Closes in L; [|apply Trip]. eapply Closes in L; [|apply StopListening].
  eapply Closes in L; [|apply ServeReturns].
  eapply Closes in L; [|apply (Write _ _ _ _ _ _ _ _ (Ok tt)); vm_compute; discriminate].
  eapply Closes in L; [|apply OutboxReturns; reflexivity]. eapply Closes in L; [|apply Exit].
  eexists. split; [exact L|reflexivity].
Qed.
End LifecycleDemo.

#[local] Existing Instances demo_jiff demo_jiff_laws.

